(* ===== verification/_CoqProject ===== *)
-Q . S2P
Prelude.v
Keeps.v
Counters.v
Memory.v
Bump.v
Chunk.v
Slab.v
Pools.v
ThreadLocal.v
LockFree.v
LockFreePool.v
LockFreeTelemetry.v
VirtualMemory.v
Debug.v
Inner.v
InnerInv.v
LockFreeRace.v
LockFreeProgress.v
Objects.v
Arena.v
ArenaSafety.v
ArenaCheckpoint.v
Region.v
BufferFrame.v
ArenaFrames.v
ArenaSlices.v
SyncArena.v
ArenaRelease.v
CacheReset.v
StackFrame.v
ArenaRegion.v
ArenaCalls.v
ArenaInvariant.v
ArenaFootprint.v
ArenaVirtual.v
ArenaStats.v
DebugRegistry.v
ScopeReuse.v
Legacy.v
LegacySafety.v
LegacyRegion.v
ExprGrammar.v
ParserExpr.v
GraphPool.v
StringIntern.v
GameLoop.v
Features.v
Budget.v
VecU8.v
VirtualDemo.v
