(* ===== verification/Prelude.v ===== *)
(** * arena-b: a verification of the arena allocator crate

    This library models the Rust crate under src/ (core.rs, arena.rs,
    legacy_arena.rs, lockfree.rs, thread_local.rs, virtual_memory.rs, debug.rs,
    slab.rs, size_classes.rs, error.rs, lib.rs) with the example programs that use it
    (src/examples/), and proves what makes them correct.

    ** The program

    An [Arena] owns an [ArenaInner]: a list of chunks (fixed blocks from the global
    allocator, each bump-allocated by a compare-exchange on [used]), the index of
    the current chunk, a stack of checkpoints and statistics.  A request goes to
    the lock-free buffer (feature [lockfree]: a 4 KiB block from which every thread
    carves slabs), then to the thread's cache of freed blocks (feature
    [thread_local]), then to the current chunk, then to a new chunk.  With the
    feature [debug] the object is moved into a guarded block of its own and
    registered in a process-wide registry.  A checkpoint is a chunk index and a fill
    level; rewinding sets them back, and a scope rewinds when it is dropped.
    Builds without [arena_module] use the arena of legacy_arena.rs instead.

    ** The files

    - Prelude (this file): Cargo features and build profile ([Cfg]), outcomes of
      Rust code ([Ok], [Panic], [Abort], [UB]), the state monad [M], 64-bit [usize]
      arithmetic with its overflow behaviour, address ranges, lists of disjoint
      ranges, the hint database and the tactics ([mrun], [ulia], [range_solve],
      [splits]).
    - Keeps: a frame rule for actions of [M]: what a call preserves, as a class whose
      instances follow the structure of the code.
    - Counters: [UsedCounter] of lib.rs, the comparisons of [AtomicCounter].
    - Memory: [Layout], the heap of live blocks, its bytes, the global allocator.
      The allocator is a parameter ([GlobalAlloc]) with its documented contract as a
      class ([GlobalAllocOk]); [bump_alloc] is an instance, so that the contract can
      be met.
    - Bump: the interface of the bump allocators ([Bump], [BumpLaws]), proved once
      for sequences of requests; Chunk, LockFree (slab and buffer) and VirtualMemory
      are instances.
    - Chunk: [Chunk] of core.rs, sequentially and as a transition system of threads
      racing on [used].
    - Slab: [MemoryPool] of core.rs, [SlabAllocator] of slab.rs.
    - Pools: [Pool<T>] of lib.rs and the object pool of arena.rs.
    - ThreadLocal: the cache of one thread, [ThreadLocalCache].
    - LockFree: [ThreadSlab], [LockFreeBuffer], [LockFreeStats],
      [LockFreeAllocator], as one thread runs them.
    - LockFreeTelemetry: the hit rates of their statistics.
    - LockFreeRace: threads sharing one [LockFreeBuffer], as a transition system.
    - LockFreeProgress: how many accesses those threads make before their calls end.
    - LockFreePool: [LockFreePool<T>] as a transition system of racing threads.
    - VirtualMemory: [VirtualMemoryRegion] and [VirtualChunk] over a trace of system
      calls; the system is a parameter ([OS], [OSOk]).
    - Debug: [DebugGuard] with its bytes, the registry, [DebugAllocator].
    - Inner: [World] (memory, thread cache and slab, registry, system calls) and
      [ArenaInner] with its operations.
    - InnerInv: the invariant [Inner_wf], the addresses still available
      ([Inner_avail]), steps ([Step]) and fresh memory ([Fresh]).
    - Objects: the interface [ArenaAlloc] between an arena and the programs that
      allocate in it, and what follows for sequences of allocations.
    - Arena: [Arena], [Scope], [ArenaBuilder] of arena.rs, [ArenaError].
    - ArenaSafety, ArenaCheckpoint, ArenaFrames, ArenaSlices, ArenaRelease: the
      theorems on [Arena], by operation.
    - Region: the abstract specification of an arena, a list of live objects with
      marks in it ([Region], [region_next]), the relation of an arena's memory to it
      ([Region_rel]) and the interface [RegionArena] with the steps proved from it;
      ArenaRegion and LegacyRegion: the two arenas implement it.
    - CacheReset, StackFrame, BufferFrame: what resetting the caches does in any build
      (to the arena, and to the objects in its lock-free buffer), which operations leave the checkpoint stack and the place of the lock-free buffer
      alone.
    - ArenaCalls: the public methods of [Arena] as the data type [ArenaCall], and
      running a list of them; ArenaInvariant, ArenaFootprint, ArenaVirtual and
      ArenaStats: what holds after any such list of the arena itself, of the memory
      it does not own, of its virtual-memory region and of its statistics.
    - DebugRegistry: the registry as an arena and its [check_valid] use it.
    - ScopeReuse: references that outlive the scope they belong to.
    - SyncArena: the arena behind a mutex, of lib.rs, run to the end by one thread and
      as a transition system of interleaved threads.
    - Legacy, LegacySafety: the arena of legacy_arena.rs and its theorems.
    - ExprGrammar, ParserExpr: examples/parser_expr.rs, against a grammar of its
      input, a printer and the integers its expressions denote.
    - GraphPool: examples/graph_pool.rs; StringIntern: examples/string_intern.rs;
      GameLoop: examples/game_loop.rs; Features: examples/v0_5_features.rs.
    - Budget: a global allocator that serves the next requests ([ample]), for theorems
      that conclude that a program returns.
    - VecU8: a [Vec<u8>] moved into an arena; VirtualDemo:
      examples/virtual_memory_demo.rs, with two arenas in one process, and [main] of
      examples/v0_5_features.rs.

    ** Correspondence

    A Rust function [T::f] is the definition [T_f]; a method that changes state is
    an action of [M] on a record that holds the object and what it shares with the
    rest of the process.  A [usize] is a [Z] between 0 and 2^64 - 1: [+], [-] and [*]
    panic or wrap as [overflow_checks] says, atomics always wrap.  A pointer is its
    address.  A value of a Rust type is its layout and its bytes.  Code under
    [#[cfg(feature = ..)]] tests the flag of [Cfg]; fields that only exist with a
    feature are always present.  A call that breaks the contract of an unsafe
    function (freeing a block that is not live or with another layout, a zero-sized
    allocation, a write that is misaligned or outside of the live blocks, reading a
    freed node) is [UB], so a theorem that excludes [UB] proves memory safety.

    Loops that are not structural take fuel: the compare-exchange loops take the
    number of failures to come (the theorems hold for every number), the doubling
    loops run a fixed number of times (11 size classes, 12 doublings from 4 KiB to
    16 MiB, and the results show that the fuel is never exhausted), and dropping a
    [LockFreePool] takes more fuel than there are nodes.  The parser runs with the
    length of its input plus one, as every nested call has consumed a character; the
    breadth-first search with the number of nodes plus one, as each is queued once;
    its theorems show that the fuel suffices.  Floats are those of [SpecFloat].

    ** Conditions the theorems share

    [Arena_ok] (that is [Inner_wf]) asks that the calling thread's cache of freed blocks
    be empty.  No operation of an arena fills it; a program can, through the public
    [thread_local_dealloc], and then the arena hands out whatever it was given
    there: only ArenaStats and ThreadLocal speak of that case.  [Obj_ok], [Elem_ok] and
    [call_ok] ask for types of nonzero size, aligned to at most 64 bytes, or to 8 with
    the debug feature, whose guarded objects lie at 8 modulo 16.  Zero-sized values of
    alignment above 1 are undefined behaviour ([arena_zst_misaligned]).
    [generation_wraps] leaves out builds with [lockfree], [single_thread_fast] and
    overflow checks.  Where a program may end early for lack of memory, the theorem
    says so of the state the run ended in: there [refused l] holds for a layout [l] the
    program asked for, so that it fits neither the current chunk nor a new one, because
    it is above 16 MiB or the global allocator, asked with the heap of that state, has
    no block for the chunk.

    ** The theorems

    - Allocation: for every combination of features, an arena never hands out
      overlapping, misaligned or dead memory and disturbs nothing else, serves every
      request of at most 16 MiB while the system has memory, and gives back exactly
      its blocks (ArenaSafety, ArenaRelease); the same for the legacy arena
      (LegacySafety); slices and strings on every branch (ArenaSlices); the parts:
      Chunk, LockFree, VirtualMemory, ThreadLocal, Slab, Pools.
    - Refinement: any program that allocates, takes, pushes and pops checkpoints,
      rewinds to those it holds, resets and shrinks sees an abstract region of
      disjoint live objects that keep their values (ArenaRegion, LegacyRegion).
    - Separation: without debug guards, an arena frees and changes nothing that is
      not its own, whatever calls are made, and dropping it leaves exactly the heap from
      before it was created, with and without a lock-free buffer; without one, two
      arenas do not interfere (ArenaFootprint).
    - The type invariant: without debug guards, any list of calls on an arena, with
      panics caught and any checkpoints, forged ones included, leaves it well formed, also
      with a lock-free buffer (ArenaInvariant), and its statistics count exactly what was
      allocated, but for the bytes served by the thread cache (ArenaStats).
    - Checkpoints, in builds without [lockfree] and [debug]: a rewind restores the arena
      and keeps older objects intact; scopes do so even when their closure panics, if it
      only grew the arena, and for any closure the theorem says what the scope's end
      does (ArenaCheckpoint); frames and scopes nest (ArenaFrames).  The legacy scopes
      rewind only when their closure returns (LegacySafety).
    - Concurrency: scopes of threads sharing a [SyncArena] are serializable and leave
      the arena as it was, even after panics (SyncArena); chunks shared by threads are
      linearizable (Chunk); a lock-free buffer shared by threads hands out disjoint
      memory as long as nobody resets it (LockFreeRace), and its calls are lock-free with
      an explicit bound (LockFreeProgress); the lock-free pool is a stack when one thread
      takes values out (LockFreePool).
    - Debugging aids: guards and use-after-rewind detection (Debug).
    - Client programs: the expression parser accepts exactly its grammar, inverts a
      printer and computes the value denoted, or overflows as the build does; the
      breadth-first search visits the reachable nodes once and by distance; interned
      strings are equal exactly when their addresses are; the frame loop runs in
      constant memory; the virtual-memory example, given an allocator that serves it,
      returns, prints what it stored and leaks the buffers of the vectors it moved into
      its arenas.
    - Where the code falls short of its purpose or its documentation, a theorem
      states what it does: rewinding wipes the lock-free buffer under live objects
      (CacheReset), a reset racing with an allocation hands memory out twice
      (LockFreeRace), two threads popping from the pool touch a freed node
      (LockFreePool), for any state, threads and requests; a slab outlives its buffer,
      a scope whose closure shrinks the arena panics, zero-sized objects are misaligned, large requests abort, guards are
      looked for in the wrong place, safe references alias after a rewind,
      [check_valid] never finds an allocation, the region of an arena with virtual
      memory is never used, rewinding over an allocation whose guard was refused
      corrupts an older object, and others.

    ** Not modelled

    Weak memory orderings (the transition systems interleave sequentially consistent
    accesses); formatting for [Debug] and the text around the values that the examples
    print; the Windows branches of virtual_memory.rs; prefetching; benches and tests.
    [Pooled_deref] returns the value in the slot, not a reference into the [Vec] of the
    pool, so references that outlive a growth of that [Vec] are not seen; nor is that
    [VirtualChunk::allocate] mutates its region through a cast of a shared reference.  A
    block from the global allocator keeps the bytes that its addresses held before, where
    the language says they are uninitialised; reading bytes that were never written is
    [UB].
    An [Arena] is [Send] but not [Sync]: threads share one only through [SyncArena].
    The theorems on rewinding assume builds without [lockfree] and [debug], whose own
    effects have theorems of their own (CacheReset, Debug, DebugRegistry).  The
    rounding of the hit rates is computed, nothing is proved about it.

    ** Plan

    Next: several arenas with lock-free buffers, which share a thread's slab; the lists
    of calls of ArenaCalls in builds with [debug]. *)
From Stdlib Require Export ZArith Lia.
From stdpp Require Export base gmap strings numbers option list.
Local Open Scope Z_scope.

(** ** Cargo features and build profile

    [Cfg] collects the conditional compilation of the crate: the Cargo features
    of Cargo.toml and the profile's [overflow-checks] and [debug-assertions]
    settings (both [true] in the dev profile, [false] in the release profile).
    Every definition that contains a [#[cfg(...)]], a [debug_assert!] or plain
    [usize] arithmetic takes it as an instance. *)
Class Cfg := mkCfg {
  overflow_checks : bool;
  debug_assertions : bool;
  feat_stats : bool;
  feat_virtual_memory : bool;
  feat_thread_local : bool;
  feat_lockfree : bool;
  feat_debug : bool;
  feat_slab : bool;
  feat_single_thread_fast : bool
}.

(** [default = ["stats", "arena_module"]], in the two profiles. *)
Definition cfg_dev : Cfg := mkCfg true true true false false false false false false.
Definition cfg_release : Cfg := mkCfg false false true false false false false false false.
(** With [lockfree] added. *)
Definition cfg_lockfree : Cfg := mkCfg true true true false false true false false false.

(** ** Outcomes of Rust code

    [Ok] is a normal return; [Panic] unwinds; [Abort] is [handle_alloc_error];
    [UB] marks a call that breaks the documented safety contract of the
    standard library function it makes. *)
Inductive outcome (A : Type) : Type :=
  | Ok (a : A)
  | Panic (msg : string)
  | Abort (msg : string)
  | UB (msg : string).
Arguments Ok {A} _.
Arguments Panic {A} _%_string.
Arguments Abort {A} _%_string.
Arguments UB {A} _%_string.

(** [Result<A, E>]. *)
Inductive Result (A E : Type) : Type :=
  | ROk (a : A)
  | RErr (e : E).
Arguments ROk {A E} _.
Arguments RErr {A E} _.

#[global] Instance outcome_ret : MRet outcome := λ A a, Ok a.
#[global] Instance outcome_bind : MBind outcome := λ A B f m,
  match m with
  | Ok a => f a
  | Panic s => Panic s
  | Abort s => Abort s
  | UB s => UB s
  end.

(** ** The state monad

    The state survives every outcome, so that the code that runs while a panic
    unwinds (a [Drop]) sees the state at the moment of the panic. *)
Definition M (S A : Type) : Type := S → outcome A * S.

#[global] Instance M_ret S : MRet (M S) := λ A a s, (Ok a, s).
#[global] Instance M_bind S : MBind (M S) := λ A B f m s,
  match m s with
  | (Ok a, s') => f a s'
  | (Panic e, s') => (Panic e, s')
  | (Abort e, s') => (Abort e, s')
  | (UB e, s') => (UB e, s')
  end.

Definition lift {S A} (o : outcome A) : M S A := λ s, (o, s).
Definition get {S} : M S S := λ s, (Ok s, s).
Definition put {S} (s' : S) : M S unit := λ _, (Ok tt, s').
Definition modify {S} (f : S → S) : M S unit := λ s, (Ok tt, f s).
Definition gets {S A} (f : S → A) : M S A := λ s, (Ok (f s), s).

(** Runs an action on a part of a larger state. *)
Definition zoom {S T A} (getter : S → T) (setter : T → S → S) (m : M T A) : M S A := λ s,
  let '(o, t') := m (getter s) in (o, setter t' s).

(** Runs [m] and then [fin], whether [m] returned or panicked: the scope guard
    whose [Drop] is [fin].  An abort or undefined behaviour runs nothing. *)
Definition with_drop {S A} (m : M S A) (fin : M S unit) : M S A := λ s,
  match m s with
  | (Ok a, s') => match fin s' with (Ok _, s'') => (Ok a, s'') | (Panic e, s'') => (Panic e, s'')
                                  | (Abort e, s'') => (Abort e, s'') | (UB e, s'') => (UB e, s'') end
  | (Panic e, s') => match fin s' with (Ok _, s'') => (Panic e, s'')
                                     | (Panic _, s'') => (Abort "panic in a destructor during cleanup", s'')
                                     | (Abort e', s'') => (Abort e', s'') | (UB e', s'') => (UB e', s'') end
  | (Abort e, s') => (Abort e, s')
  | (UB e, s') => (UB e, s')
  end.

(** ** Machine integers: [usize] on a 64-bit target *)
Definition USIZE_MOD : Z := 18446744073709551616.
Definition USIZE_MAX : Z := 18446744073709551615.
Definition ISIZE_MAX : Z := 9223372036854775807.

Definition usize_wrap (z : Z) : Z := z `mod` USIZE_MOD.
Definition usize_not (z : Z) : Z := Z.lxor z USIZE_MAX.

Section arith.
Context `{cfg : Cfg}.

(** [a + b], [a - b], [a * b]: panic on overflow in a build with overflow
    checks, wrap around in a build without. *)
Definition usize_op (msg : string) (r : Z) : outcome Z :=
  if (0 <=? r) && (r <? USIZE_MOD) then Ok r
  else if overflow_checks then Panic msg else Ok (usize_wrap r).
Definition usize_add (a b : Z) : outcome Z := usize_op "attempt to add with overflow" (a + b).
Definition usize_sub (a b : Z) : outcome Z := usize_op "attempt to subtract with overflow" (a - b).
Definition usize_mul (a b : Z) : outcome Z := usize_op "attempt to multiply with overflow" (a * b).

(** [(offset + align - 1) & !(align - 1)]: [align_up] of lib.rs and lockfree.rs,
    and the same expression inlined in core.rs and virtual_memory.rs. *)
Definition align_up (offset align : Z) : outcome Z :=
  s ← usize_add offset align;
  s ← usize_sub s 1;
  m ← usize_sub align 1;
  Ok (Z.land s (usize_not m)).
End arith.

Definition checked_add (a b : Z) : option Z :=
  if a + b <? USIZE_MOD then Some (a + b) else None.
Definition saturating_sub (a b : Z) : Z := Z.max 0 (a - b).
Definition saturating_mul (a b : Z) : Z := Z.min USIZE_MAX (a * b).

(** [AtomicUsize::fetch_add] and [fetch_sub] wrap around in every profile. *)
Definition fetch_add (v n : Z) : Z := usize_wrap (v + n).
Definition fetch_sub (v n : Z) : Z := usize_wrap (v - n).

(** ** Powers of two and alignment *)
Definition is_power_of_two (a : Z) : bool := (0 <? a) && (Z.land a (a - 1) =? 0).

(** The mathematical meaning of aligning up: the least multiple of [a] that is
    at least [x]. *)
Definition align_to (x a : Z) : Z := (x + a - 1) `div` a * a.

(** ** [Vec]: push and pop at the end, indexing that panics *)
Definition vec_push {A} (x : A) (l : list A) : list A := l ++ [x].
Definition vec_pop {A} (l : list A) : option (A * list A) :=
  match rev l with
  | [] => None
  | x :: r => Some (x, rev r)
  end.
Definition vec_index {A} (i : nat) (l : list A) : outcome A :=
  match l !! i with
  | Some x => Ok x
  | None => Panic "index out of bounds"
  end.
Definition vec_set {A} (i : nat) (x : A) (l : list A) : outcome (list A) :=
  match l !! i with
  | Some _ => Ok (<[i := x]> l)
  | None => Panic "index out of bounds"
  end.

(** ** Address ranges *)
Record Range := mkRange { r_base : Z; r_len : Z }.

#[global] Instance Range_eq_dec : EqDecision Range.
Proof. solve_decision. Defined.

#[global] Instance range_elem_of : ElemOf Z Range := λ a r,
  r_base r ≤ a < r_base r + r_len r.
#[global] Instance range_elem_of_dec (a : Z) (r : Range) : Decision (a ∈ r).
Proof. unfold elem_of, range_elem_of. apply _. Defined.

(** Two ranges are disjoint when no address is in both: one is empty, or one ends
    before the other begins. *)
#[global] Instance range_disjoint : Disjoint Range := λ r s,
  r_len r ≤ 0 ∨ r_len s ≤ 0 ∨ r_base r + r_len r ≤ r_base s ∨ r_base s + r_len s ≤ r_base r.
#[global] Instance range_disjoint_dec (r s : Range) : Decision (r ## s).
Proof. unfold disjoint, range_disjoint. apply _. Defined.
#[global] Instance range_disjoint_sym : Symmetric (@disjoint Range _).
Proof. intros r s. unfold disjoint, range_disjoint. lia. Qed.

(** Containment, address by address. *)
#[global] Instance range_subseteq : SubsetEq Range := λ r s,
  r_len r ≤ 0 ∨ r_base s ≤ r_base r ∧ r_base r + r_len r ≤ r_base s + r_len s.
#[global] Instance range_subseteq_dec (r s : Range) : Decision (r ⊆ s).
Proof. unfold subseteq, range_subseteq. apply _. Defined.

(** Every range of the list is disjoint from every other. *)
Fixpoint pw_disjoint (l : list Range) : Prop :=
  match l with
  | [] => True
  | r :: l => Forall (disjoint r) l ∧ pw_disjoint l
  end.

#[global] Instance pw_disjoint_dec (l : list Range) : Decision (pw_disjoint l).
Proof. induction l; simpl; apply _. Defined.

(** ** Automation *)
Create HintDb arena.

(** Unfolds the machine constants and calls [lia]. *)
Ltac ulia := unfold USIZE_MOD, USIZE_MAX, ISIZE_MAX in *; lia.

(** Splits on every boolean comparison of the goal and the context. *)
Ltac case_cmp :=
  repeat match goal with
  | |- context [?a <? ?b] => destruct (Z.ltb_spec a b)
  | |- context [?a <=? ?b] => destruct (Z.leb_spec a b)
  | |- context [?a =? ?b] => destruct (Z.eqb_spec a b)
  | H : context [?a <? ?b] |- _ => destruct (Z.ltb_spec a b)
  | H : context [?a <=? ?b] |- _ => destruct (Z.leb_spec a b)
  | H : context [?a =? ?b] |- _ => destruct (Z.eqb_spec a b)
  end.

(** Splits conjunctions that are visible in the goal, without unfolding. *)
Ltac splits := repeat lazymatch goal with |- _ ∧ _ => split end.

(** What a bind that returned did. *)
Lemma M_bind_Ok {S A B} (m : M S A) (f : A → M S B) s r s' :
  (m ≫= f) s = (Ok r, s') → ∃ x s1, m s = (Ok x, s1) ∧ f x s1 = (Ok r, s').
Proof. unfold mbind, M_bind. destruct (m s) as [[x|e|e|e] s1]; [by eauto|done..]. Qed.

(** Runs the bind operations of the two monads. *)
Ltac mrun :=
  unfold mbind, mret, M_bind, M_ret, outcome_bind, outcome_ret,
    lift, get, put, modify, gets, zoom in *; simpl in *.

Ltac range_solve :=
  unfold disjoint, range_disjoint, subseteq, range_subseteq, elem_of, range_elem_of in *; simpl in *; lia.

(** ** Arithmetic lemmas *)
Section arith_lemmas.
Context `{cfg : Cfg}.

Lemma usize_op_in msg r : 0 ≤ r < USIZE_MOD → usize_op msg r = Ok r.
Proof. intros H. unfold usize_op. case_cmp; simpl; [done | lia..]. Qed.

Lemma usize_add_in a b : 0 ≤ a + b < USIZE_MOD → usize_add a b = Ok (a + b).
Proof. apply usize_op_in. Qed.

Lemma usize_sub_in a b : 0 ≤ a - b < USIZE_MOD → usize_sub a b = Ok (a - b).
Proof. apply usize_op_in. Qed.

Lemma usize_mul_in a b : 0 ≤ a * b < USIZE_MOD → usize_mul a b = Ok (a * b).
Proof. apply usize_op_in. Qed.
End arith_lemmas.

Lemma usize_wrap_in z : 0 ≤ z < USIZE_MOD → usize_wrap z = z.
Proof. intros. apply Z.mod_small. lia. Qed.

Lemma usize_wrap_range z : 0 ≤ usize_wrap z < USIZE_MOD.
Proof. apply Z.mod_pos_bound. done. Qed.

Lemma checked_add_in a b : a + b < USIZE_MOD → checked_add a b = Some (a + b).
Proof. intros. unfold checked_add. case_cmp; [done | lia]. Qed.

Lemma USIZE_MAX_ones : USIZE_MAX = Z.ones 64.
Proof. reflexivity. Qed.

(** A power of two in the sense of the bit trick is a power of two. *)
Lemma is_power_of_two_spec a :
  is_power_of_two a = true → ∃ k, 0 ≤ k ∧ a = 2 ^ k.
Proof.
  unfold is_power_of_two. rewrite andb_true_iff, Z.ltb_lt, Z.eqb_eq. intros [Ha Hl].
  exists (Z.log2 a). split; [apply Z.log2_nonneg|].
  destruct (Z.log2_spec a Ha) as [Hlo Hhi].
  pose proof (Z.pow_pos_nonneg 2 (Z.log2 a) ltac:(lia) (Z.log2_nonneg a)).
  destruct (decide (a = 2 ^ Z.log2 a)) as [|Hne]; [done|]. exfalso.
  assert (Z.testbit (Z.land a (a - 1)) (Z.log2 a) = true) as Hbit.
  { rewrite Z.land_spec, (Z.bit_log2 a) by lia.
    replace (Z.log2 a) with (Z.log2 (a - 1)); [apply Z.bit_log2; lia|].
    apply Z.log2_unique; [apply Z.log2_nonneg|]. lia. }
  by rewrite Hl, Z.bits_0 in Hbit.
Qed.

Lemma is_power_of_two_pow k : 0 ≤ k → is_power_of_two (2 ^ k) = true.
Proof.
  intros Hk. unfold is_power_of_two. assert (0 < 2 ^ k) by lia.
  rewrite andb_true_iff, Z.ltb_lt, Z.eqb_eq. split; [done|].
  apply Z.bits_inj'. intros n Hn. rewrite Z.land_spec, Z.bits_0.
  destruct (decide (n = k)) as [->|Hne].
  - replace (2 ^ k - 1) with (Z.ones k) by (rewrite Z.ones_equiv; lia).
    rewrite Z.ones_spec_high by lia. apply andb_false_r.
  - rewrite Z.pow2_bits_false by lia. done.
Qed.

(** Masking with [!(2^k - 1)] clears the low [k] bits. *)
Lemma land_not_mask x k :
  0 ≤ x < USIZE_MOD → 0 ≤ k ≤ 64 →
  Z.land x (usize_not (2 ^ k - 1)) = x `div` 2 ^ k * 2 ^ k.
Proof.
  intros Hx Hk. unfold usize_not. rewrite USIZE_MAX_ones.
  replace (2 ^ k - 1) with (Z.ones k) by (rewrite Z.ones_equiv; lia).
  rewrite <- Z.shiftr_div_pow2, <- Z.shiftl_mul_pow2 by lia.
  apply Z.bits_inj'. intros n Hn.
  rewrite Z.land_spec, Z.lxor_spec, !Z.testbit_ones by lia.
  destruct (decide (n < k)).
  - rewrite Z.shiftl_spec_low by lia.
    replace (n <? k) with true by lia. replace (n <? 64) with true by lia.
    replace (0 <=? n) with true by lia. simpl. apply andb_false_r.
  - rewrite Z.shiftl_spec_high, Z.shiftr_spec, Z.sub_add by lia.
    replace (n <? k) with false by lia. replace (0 <=? n) with true by lia. simpl.
    destruct (decide (n < 64)).
    + replace (n <? 64) with true by lia. apply andb_true_r.
    + replace (n <? 64) with false by lia. simpl.
      replace (Z.testbit x n) with false; [done|]. symmetry.
      destruct (decide (x = 0)) as [->|]; [apply Z.bits_0|].
      apply Z.bits_above_log2; [lia|]. apply Z.log2_lt_pow2; [lia|].
      apply Z.lt_le_trans with (2 ^ 64); [exact (proj2 Hx)|].
      apply Z.pow_le_mono_r; lia.
Qed.

Lemma align_to_ge x a : 0 < a → x ≤ align_to x a.
Proof. unfold align_to. intros. pose proof (Z.div_mod (x + a - 1) a ltac:(lia)). 
  pose proof (Z.mod_pos_bound (x + a - 1) a ltac:(lia)). lia. Qed.

Lemma align_to_lt x a : 0 < a → align_to x a < x + a.
Proof. unfold align_to. intros. pose proof (Z.div_mod (x + a - 1) a ltac:(lia)). 
  pose proof (Z.mod_pos_bound (x + a - 1) a ltac:(lia)). lia. Qed.

Lemma align_to_mod x a : 0 < a → align_to x a `mod` a = 0.
Proof. intros. unfold align_to. apply Z_mod_mult. Qed.

(** Minimality: no multiple of [a] lies between [x] and [align_to x a]. *)
Lemma align_to_least x a y : 0 < a → x ≤ y → y `mod` a = 0 → align_to x a ≤ y.
Proof.
  intros Ha Hxy Hy. apply Z.mod_divide in Hy as [q ->]; [|lia].
  unfold align_to. apply Z.mul_le_mono_nonneg_r; [lia|].
  assert ((x + a - 1) / a < q + 1); [apply Z.div_lt_upper_bound|]; lia.
Qed.

Lemma align_to_id x a : 0 < a → x `mod` a = 0 → align_to x a = x.
Proof.
  intros. pose proof (align_to_ge x a ltac:(lia)).
  pose proof (align_to_least x a x ltac:(lia) ltac:(lia) ltac:(done)). lia.
Qed.

Lemma align_to_mono x y a : 0 < a → x ≤ y → align_to x a ≤ align_to y a.
Proof.
  intros. apply align_to_least; [done| |by apply align_to_mod].
  pose proof (align_to_ge y a ltac:(lia)). lia.
Qed.

(** An aligned offset in a 64-aligned block is an aligned address, for every
    alignment up to 64. *)
Lemma aligned_in_block base o a :
  is_power_of_two a = true → a ≤ 64 → base `mod` 64 = 0 → o `mod` a = 0 → (base + o) `mod` a = 0.
Proof.
  intros (k & Hk & ->)%is_power_of_two_spec H64 Hb Ho. assert (0 < 2 ^ k) by lia.
  assert (k ≤ 6) by (apply (Z.pow_le_mono_r_iff 2); [lia..|exact H64]).
  rewrite Z.add_mod, Ho, Z.add_0_r, Z.mod_mod by lia.
  apply Z.mod_divide; [lia|]. apply Z.divide_trans with 64; [|by apply Z.mod_divide].
  exists (2 ^ (6 - k)). rewrite <- Z.pow_add_r by lia. by replace (6 - k + k) with 6 by lia.
Qed.

(** The code's bit trick computes the mathematical alignment, and never
    overflows, as long as [x + a] is a [usize]. *)
Lemma align_up_spec `{Cfg} x a :
  is_power_of_two a = true → 0 ≤ x → x + a < USIZE_MOD →
  align_up x a = Ok (align_to x a).
Proof.
  intros Ha Hx Hs. apply is_power_of_two_spec in Ha as (k & Hk & ->).
  assert (0 < 2 ^ k) by lia.
  assert (k < 64) as Hk64.
  { apply (Z.pow_lt_mono_r_iff 2); [lia..|].
    apply Z.le_lt_trans with (x + 2 ^ k); [lia|]. exact Hs. }
  unfold align_up.
  rewrite usize_add_in by lia. mrun. rewrite !usize_sub_in by lia. mrun.
  rewrite land_not_mask by lia. done.
Qed.

(** The rounding of [Chunk::new] and [VirtualMemoryRegion]. *)
Lemma round_mask_spec x k :
  0 ≤ k ≤ 63 → 0 ≤ x → x + 2 ^ k - 1 < USIZE_MOD →
  Z.land (x + (2 ^ k - 1)) (usize_not (2 ^ k - 1)) = align_to x (2 ^ k).
Proof.
  intros Hk Hx Hs. assert (0 < 2 ^ k) by lia.
  rewrite land_not_mask by lia. unfold align_to. do 2 f_equal. lia.
Qed.

(** ** Range and list lemmas *)
Lemma vec_pop_push {A} (x : A) l : vec_pop (vec_push x l) = Some (x, l).
Proof. unfold vec_pop, vec_push. rewrite rev_app_distr. simpl. by rewrite rev_involutive. Qed.

Lemma vec_pop_nil {A} : vec_pop (A:=A) [] = None.
Proof. done. Qed.

Lemma vec_pop_Some {A} (x : A) l l' : vec_pop l = Some (x, l') → l = l' ++ [x].
Proof.
  unfold vec_pop. destruct (rev l) as [|y r] eqn:E; [done|]. intros [= -> <-].
  by rewrite <- (rev_involutive l), E.
Qed.

Lemma vec_pop_None {A} (l : list A) : vec_pop l = None → l = [].
Proof.
  unfold vec_pop. destruct (rev l) as [|y r] eqn:E; [|done].
  intros _. by rewrite <- (rev_involutive l), E.
Qed.

(** Filters that keep everything or nothing. *)
Lemma filter_all {A} (P : A → Prop) `{!∀ x, Decision (P x)} (l : list A) : Forall P l → filter P l = l.
Proof. induction 1 as [|x l Hx _ IH]; [done|]. by rewrite filter_cons_True, IH. Qed.
Lemma filter_none {A} (P : A → Prop) `{!∀ x, Decision (P x)} (l : list A) : Forall (λ x, ¬ P x) l → filter P l = [].
Proof. induction 1 as [|x l Hx _ IH]; [done|]. by rewrite filter_cons_False, IH. Qed.

Lemma pw_disjoint_app l1 l2 :
  pw_disjoint (l1 ++ l2) ↔
  pw_disjoint l1 ∧ pw_disjoint l2 ∧ Forall (λ r, Forall (disjoint r) l2) l1.
Proof.
  induction l1 as [|r l1 IH]; simpl; [by intuition constructor|].
  rewrite IH, Forall_app, Forall_cons. intuition.
Qed.

(** The order of the ranges does not matter. *)
#[global] Instance pw_disjoint_proper : Proper ((≡ₚ) ==> iff) pw_disjoint.
Proof.
  intros l k Hp. induction Hp as [|r l k Hp IH|r s l|l k m _ IH1 _ IH2]; simpl; [done| | |by rewrite IH1].
  - by rewrite IH, Hp.
  - rewrite !Forall_cons. split; intros ([? ?] & ? & ?); (split; [split; [by symmetry|done]|done]).
Qed.

Lemma pw_disjoint_submseteq l k : l ⊆+ k → pw_disjoint k → pw_disjoint l.
Proof. intros [m ->]%submseteq_Permutation. by rewrite pw_disjoint_app; intros (? & _). Qed.

Lemma pw_disjoint_lookup l i j r s :
  pw_disjoint l → i ≠ j → l !! i = Some r → l !! j = Some s → r ## s.
Proof.
  revert i j. induction l as [|x l IH]; intros i j; [done|].
  simpl. intros [Hx Hl] Hne Hi Hj. rewrite Forall_lookup in Hx.
  destruct i as [|i], j as [|j]; simplify_eq/=; [by eauto..| |].
  - symmetry. eauto.
  - eapply (IH i j); eauto.
Qed.

Lemma range_disjoint_spec (r s : Range) : r ## s ↔ ∀ a : Z, a ∈ r → a ∈ s → False.
Proof.
  split; [intros; range_solve|]. intros H.
  pose proof (H (Z.max (r_base r) (r_base s))). range_solve.
Qed.

Lemma range_subseteq_spec (r s : Range) : r ⊆ s ↔ ∀ a : Z, a ∈ r → a ∈ s.
Proof.
  split; [intros; range_solve|]. intros H.
  pose proof (H (r_base r)). pose proof (H (r_base r + r_len r - 1)). range_solve.
Qed.

Lemma range_sub_disjoint (r r' s : Range) : r ⊆ r' → r' ## s → r ## s.
Proof. range_solve. Qed.

(** Disjoint ranges inside a window cannot be longer than it, together. *)
Definition range_set (r : Range) : gset Z := list_to_set (seqZ (r_base r) (r_len r)).
Definition sum_len (l : list Range) : Z := foldr (λ r n, r_len r + n) 0 l.

Lemma elem_of_range_set a r : a ∈ range_set r ↔ a ∈ r.
Proof. unfold range_set. rewrite elem_of_list_to_set, elem_of_seqZ. done. Qed.

Lemma size_range_set r : 0 ≤ r_len r → Z.of_nat (size (range_set r)) = r_len r.
Proof.
  intros. unfold range_set. rewrite size_list_to_set by apply NoDup_seqZ. rewrite length_seqZ. lia.
Qed.

Lemma sum_len_bound (l : list Range) (w : Range) :
  0 ≤ r_len w → Forall (λ r, 0 ≤ r_len r ∧ ∀ a, a ∈ r → a ∈ w) l → pw_disjoint l → sum_len l ≤ r_len w.
Proof.
  intros Hw Hl Hd.
  assert (∃ X : gset Z, Z.of_nat (size X) = sum_len l ∧ (∀ a, a ∈ X → a ∈ w) ∧ ∀ a, a ∈ X → ∃ r, r ∈ l ∧ a ∈ r)
    as (X & Hs & Hin & _).
  { revert Hd. induction Hl as [|r l [Hr Hrw] Hl IH]; simpl; [exists ∅; split_and!; set_solver|].
    intros [Hrl Hd]. destruct (IH Hd) as (X & Hs & Hin & HX). exists (range_set r ∪ X). split; [|split].
    - rewrite size_union; [rewrite Nat2Z.inj_add, size_range_set by done; lia|].
      intros a Ha%elem_of_range_set HaX. destruct (HX a HaX) as (r' & Hr' & Har').
      rewrite Forall_forall in Hrl. specialize (Hrl r' Hr'). range_solve.
    - intros a [Ha%elem_of_range_set|Ha]%elem_of_union; auto.
    - intros a [Ha%elem_of_range_set|Ha]%elem_of_union.
      + exists r. split; [constructor|done].
      + destruct (HX a Ha) as (r' & ? & ?). exists r'. split; [by constructor|done]. }
  rewrite <- Hs, <- (size_range_set w) by done. apply inj_le. apply subseteq_size.
  intros a Ha. by apply elem_of_range_set, Hin.
Qed.

#[export] Hint Resolve align_to_ge align_to_mod align_to_lt usize_wrap_range : arena.
