(* ===== verification/Keeps.v ===== *)
(** * Keeps: a frame rule for the state monad

    [Keeps P m]: whatever the outcome of [m], the state after it satisfies [P] if the
    state before it did.  The instances follow the structure of the program, so that
    an operation built from operations that keep [P] keeps it by type class search. *)
From S2P Require Import Prelude.

Class Keeps {S A} (P : S → Prop) (m : M S A) : Prop := keeps s : P s → P (m s).2.
#[export] Hint Mode Keeps + + - + : typeclass_instances.

Section keeps.
Context {S : Type} (P : S → Prop).

#[export] Instance Keeps_ret {A} (x : A) : Keeps P (mret x).
Proof. by intros s. Qed.
#[export] Instance Keeps_lift {A} (o : outcome A) : Keeps P (lift o).
Proof. by intros s. Qed.
#[export] Instance Keeps_get : Keeps P get.
Proof. by intros s. Qed.
#[export] Instance Keeps_gets {A} (f : S → A) : Keeps P (gets f).
Proof. by intros s. Qed.
#[export] Instance Keeps_bind {A B} (m : M S A) (f : A → M S B) : Keeps P m → (∀ x, Keeps P (f x)) → Keeps P (m ≫= f).
Proof.
  intros Hm Hf s Hs. unfold mbind, M_bind. specialize (Hm s Hs). destruct (m s) as [[x|e|e|e] s1]; [|exact Hm..]. by apply Hf.
Qed.
#[export] Instance Keeps_if {A} (b : bool) (m n : M S A) : Keeps P m → Keeps P n → Keeps P (if b then m else n).
Proof. by destruct b. Qed.
#[export] Instance Keeps_option {A B} (o : option B) (f : B → M S A) (m : M S A) :
  (∀ x, Keeps P (f x)) → Keeps P m → Keeps P (match o with Some x => f x | None => m end).
Proof. by destruct o. Qed.
#[export] Instance Keeps_pair {A B C} (x : B * C) (f : B → C → M S A) :
  (∀ y z, Keeps P (f y z)) → Keeps P (let '(y, z) := x in f y z).
Proof. by destruct x. Qed.
#[export] Instance Keeps_result {A B E} (r : Result B E) (f : B → M S A) (g : E → M S A) :
  (∀ x, Keeps P (f x)) → (∀ e, Keeps P (g e)) → Keeps P (match r with ROk x => f x | RErr e => g e end).
Proof. by destruct r. Qed.

Lemma Keeps_modify (f : S → S) : (∀ s, P s → P (f s)) → Keeps P (modify f).
Proof. intros Hf s Hs. by apply Hf. Qed.

(** A part of the state. *)
Lemma Keeps_zoom {T A} (Q : T → Prop) (getter : S → T) (setter : T → S → S) (m : M T A) :
  (∀ s, P s → Q (getter s)) → (∀ t s, P s → Q t → P (setter t s)) → Keeps Q m → Keeps P (zoom getter setter m).
Proof.
  intros Hg Hs Hm s Hp. unfold zoom. specialize (Hm (getter s) (Hg s Hp)). destruct (m (getter s)) as [o t]. by apply Hs.
Qed.
(** A part of the state the property does not speak of. *)
Lemma Keeps_zoom_other {T A} (getter : S → T) (setter : T → S → S) (m : M T A) :
  (∀ t s, P s → P (setter t s)) → Keeps P (zoom getter setter m).
Proof. intros Hs s Hp. unfold zoom. destruct (m (getter s)) as [o t]. by apply Hs. Qed.

Lemma Keeps_drop {A} (m : M S A) (fin : M S unit) : Keeps P m → Keeps P fin → Keeps P (with_drop m fin).
Proof.
  intros Hm Hf s Hs. unfold with_drop. specialize (Hm s Hs). destruct (m s) as [[x|e|e|e] s1]; simpl in *; try done;
    specialize (Hf s1 Hm); destruct (fin s1) as [[]]; done.
Qed.
End keeps.
