(* ===== verification/Counters.v ===== *)
(** * Counters: [UsedCounter] of src/lib.rs and [AtomicCounter] of src/core.rs

    A counter that is an [AtomicUsize], or a [Cell<usize>] when the crate is built for
    a single thread.  The two differ in what they do at the end of the range. *)
From S2P Require Import Prelude.
Local Open Scope Z_scope.

Record UsedCounter := mkUsedCounter { uc_inner : Z }.

Section counter.
Context `{cfg : Cfg}.

Definition UsedCounter_new (value : Z) : UsedCounter := mkUsedCounter value.
Definition UsedCounter_load (c : UsedCounter) : Z := uc_inner c.
Definition UsedCounter_store (value : Z) (c : UsedCounter) : UsedCounter := mkUsedCounter value.
(** The old value, and the counter after. *)
Definition UsedCounter_fetch_add (value : Z) (c : UsedCounter) : outcome (Z * UsedCounter) :=
  if feat_single_thread_fast then
    let current := uc_inner c in
    n ← usize_add current value;
    Ok (current, mkUsedCounter n)
  else Ok (uc_inner c, mkUsedCounter (fetch_add (uc_inner c) value)).

(** The two builds agree, up to the panic of a checked build when the sum overflows. *)
Lemma UsedCounter_fetch_add_cases value c :
  UsedCounter_fetch_add value c = Ok (uc_inner c, mkUsedCounter (usize_wrap (uc_inner c + value))) ∨
  (feat_single_thread_fast = true ∧ overflow_checks = true ∧ ¬ 0 ≤ uc_inner c + value < USIZE_MOD ∧
   ∃ e, UsedCounter_fetch_add value c = Panic e).
Proof.
  unfold UsedCounter_fetch_add, fetch_add. destruct feat_single_thread_fast; [|by left].
  destruct (decide (0 ≤ uc_inner c + value < USIZE_MOD)) as [Hin|Hout].
  - left. rewrite usize_add_in, usize_wrap_in by done. done.
  - unfold usize_add, usize_op. destruct (_ && _) eqn:Hb; [exfalso; apply Hout; lia|]. destruct overflow_checks; [right|by left].
    split; [done|]. split; [done|]. split; [done|]. by eexists.
Qed.
End counter.

(** ** [AtomicCounter]: comparing and printing load the value *)
Definition AtomicCounter_eq_usize (c other : Z) : bool := c =? other.
Definition AtomicCounter_eq (c other : Z) : bool := c =? other.
Definition AtomicCounter_partial_cmp (c other : Z) : option comparison := Some (c ?= other).

(** The two comparisons agree: equal in the order is [==]. *)
Lemma AtomicCounter_cmp_eq c other : AtomicCounter_partial_cmp c other = Some Eq ↔ AtomicCounter_eq_usize c other = true.
Proof. unfold AtomicCounter_partial_cmp, AtomicCounter_eq_usize. rewrite Z.eqb_eq, <- Z.compare_eq_iff. split; [by intros [= ->]|by intros ->]. Qed.
