(* ===== verification/Memory.v ===== *)
(** * Memory: layouts, the global allocator and byte-addressed memory

    The parts of [std::alloc] and of raw pointers that arena-b uses.  [Layout]
    and its constructors follow the documentation of [core::alloc::Layout]; the
    global allocator itself is not code of the crate, so it is a parameter
    ([GlobalAlloc]) with its documented contract as a class ([GlobalAllocOk])
    and one concrete instance ([bump_alloc]) that meets the contract. *)
From S2P Require Import Prelude.
Local Open Scope Z_scope.

(** ** Layouts *)
Record Layout := mkLayout { l_size : Z; l_align : Z }.

#[global] Instance Layout_eq_dec : EqDecision Layout.
Proof. solve_decision. Defined.

(** What [Layout] guarantees of every value of its type: the alignment is a
    power of two and the size, rounded up to it, does not exceed [isize::MAX]. *)
Definition Layout_ok (l : Layout) : Prop :=
  0 ≤ l_size l ∧ is_power_of_two (l_align l) = true ∧ l_size l ≤ ISIZE_MAX + 1 - l_align l.
#[global] Instance Layout_ok_dec l : Decision (Layout_ok l).
Proof. unfold Layout_ok. apply _. Defined.

Definition Layout_from_size_align (size align : Z) : option Layout :=
  if is_power_of_two align && (size <=? ISIZE_MAX + 1 - align)
  then Some (mkLayout size align) else None.

(** [Layout::array::<T>(n)], [t] being the layout of [T]. *)
Definition Layout_array (t : Layout) (n : Z) : option Layout :=
  if negb (l_size t =? 0) && ((ISIZE_MAX + 1 - l_align t) `div` l_size t <? n) then None
  else Some (mkLayout (l_size t * n) (l_align t)).

(** ** Live blocks and bytes *)
Record Block := mkBlock { b_ptr : Z; b_layout : Layout }.

#[global] Instance Block_eq_dec : EqDecision Block.
Proof. solve_decision. Defined.

Definition block_range (b : Block) : Range := mkRange (b_ptr b) (l_size (b_layout b)).

Record Mem := mkMem { heap : list Block; bytes : gmap Z Z }.

Definition Mem_empty : Mem := mkMem [] ∅.

(** The blocks the global allocator has handed out and not taken back are
    pairwise disjoint. *)
Definition Mem_wf (m : Mem) : Prop := pw_disjoint (block_range <$> heap m).

Fixpoint write_bytes (bs : gmap Z Z) (p : Z) (data : list Z) : gmap Z Z :=
  match data with
  | [] => bs
  | b :: data => <[p := b]> (write_bytes bs (p + 1) data)
  end.

Fixpoint read_bytes (bs : gmap Z Z) (p : Z) (n : nat) : list (option Z) :=
  match n with
  | O => []
  | S n => bs !! p :: read_bytes bs (p + 1) n
  end.

(** ** The global allocator

    [ga_alloc live l] is the address it returns for layout [l] when [live] are
    the blocks it has outstanding, or [None] when it returns null. *)
Class GlobalAlloc := ga_alloc : list Block → Layout → option Z.

(** The contract of [GlobalAlloc::alloc]: for a layout of nonzero size a non-null
    result is aligned, does not wrap around the address space and is disjoint
    from every live block. *)
Class GlobalAllocOk (ga : GlobalAlloc) : Prop := {
  ga_ok live l p : Layout_ok l → 0 < l_size l → ga_alloc live l = Some p →
    0 < p ∧ p `mod` l_align l = 0 ∧ p + l_size l ≤ USIZE_MAX ∧
    Forall (λ b, mkRange p (l_size l) ## block_range b) live
}.

Fixpoint remove_block (b : Block) (h : list Block) : option (list Block) :=
  match h with
  | [] => None
  | x :: h => if decide (x = b) then Some h else (x ::.) <$> remove_block b h
  end.

Section alloc.
Context `{ga : GlobalAlloc}.

(** [std::alloc::alloc]: 0 is the null pointer; a zero-sized request breaks the
    function's safety contract. *)
Definition sys_alloc (l : Layout) : M Mem Z := λ m,
  if l_size l =? 0 then (UB "alloc: zero-sized layout", m) else
  match ga_alloc (heap m) l with
  | Some p => (Ok p, mkMem (mkBlock p l :: heap m) (bytes m))
  | None => (Ok 0, m)
  end.

(** [std::alloc::dealloc]: the block must be live and have been allocated with
    the same layout. *)
Definition sys_dealloc (p : Z) (l : Layout) : M Mem unit := λ m,
  match remove_block (mkBlock p l) (heap m) with
  | Some h => (Ok tt, mkMem h (bytes m))
  | None => (UB "dealloc: not a live block of this layout", m)
  end.

End alloc.

(** ** Access through raw pointers

    An access of [n] bytes at [p] is defined when [n] is zero or the bytes lie in
    one live block. *)
Definition mem_valid (p n : Z) (m : Mem) : Prop :=
  n = 0 ∨ Exists (λ b, mkRange p n ⊆ block_range b) (heap m).
#[global] Instance mem_valid_dec p n m : Decision (mem_valid p n m).
Proof. unfold mem_valid. apply _. Defined.

(** A write of initialised bytes. *)
Definition mem_store (p : Z) (data : list Z) : M Mem unit := λ m,
  if decide (mem_valid p (Z.of_nat (length data)) m)
  then (Ok tt, mkMem (heap m) (write_bytes (bytes m) p data))
  else (UB "write outside of a live block", m).

(** A read of [n] bytes as a value: all of them must be initialised. *)
Definition mem_load (p : Z) (n : nat) : M Mem (list Z) := λ m,
  if decide (mem_valid p (Z.of_nat n) m)
  then match mapM id (read_bytes (bytes m) p n) with
       | Some data => (Ok data, m)
       | None => (UB "read of uninitialised memory", m)
       end
  else (UB "read outside of a live block", m).

(** [copy_nonoverlapping::<u8>]: copies uninitialised bytes as they are. *)
Fixpoint put_bytes (bs : gmap Z Z) (p : Z) (data : list (option Z)) : gmap Z Z :=
  match data with
  | [] => bs
  | o :: data => partial_alter (λ _, o) p (put_bytes bs (p + 1) data)
  end.
Definition mem_copy (src dst : Z) (n : nat) : M Mem unit := λ m,
  if decide (mem_valid src (Z.of_nat n) m ∧ mem_valid dst (Z.of_nat n) m ∧
             mkRange src (Z.of_nat n) ## mkRange dst (Z.of_nat n))
  then (Ok tt, mkMem (heap m) (put_bytes (bytes m) dst (read_bytes (bytes m) src n)))
  else (UB "copy_nonoverlapping: invalid range", m).

(** A concrete allocator: it places every block above all live ones. *)
Definition bump_top (live : list Block) : Z :=
  foldr (λ b t, Z.max (b_ptr b + l_size (b_layout b)) t) 4096 live.
Definition bump_alloc : GlobalAlloc := λ live l,
  let p := align_to (bump_top live) (l_align l) in
  if p + l_size l <=? USIZE_MAX then Some p else None.

(** ** Lemmas *)
Lemma Layout_align_pos l : Layout_ok l → 0 < l_align l.
Proof. intros (_ & (k & Hk & ->)%is_power_of_two_spec & _). lia. Qed.

Lemma Layout_from_size_align_Some s a l :
  0 ≤ s → Layout_from_size_align s a = Some l →
  l = mkLayout s a ∧ Layout_ok (mkLayout s a).
Proof.
  intros Hs. unfold Layout_from_size_align, Layout_ok.
  destruct (is_power_of_two a) eqn:Ha; simpl; [|done].
  destruct (Z.leb_spec s (ISIZE_MAX + 1 - a)); intros; simplify_eq. done.
Qed.

Lemma Layout_from_size_align_ok s a :
  Layout_ok (mkLayout s a) → Layout_from_size_align s a = Some (mkLayout s a).
Proof.
  unfold Layout_from_size_align, Layout_ok. simpl. intros (_ & -> & Hle).
  simpl. by destruct (Z.leb_spec s (ISIZE_MAX + 1 - a)); [|lia].
Qed.

Lemma Layout_array_ok t n l :
  Layout_ok t → 0 ≤ n → Layout_array t n = Some l →
  Layout_ok l ∧ l_size l = l_size t * n ∧ l_align l = l_align t.
Proof.
  intros Ht Hn. pose proof (Layout_align_pos t Ht) as Hap.
  destruct Ht as (Hs & Ha & Hm). unfold Layout_array.
  destruct (Z.eqb_spec (l_size t) 0) as [Hz|Hz]; simpl.
  - intros. simplify_eq/=. rewrite Hz, Z.mul_0_l. unfold Layout_ok. simpl.
    repeat split; [lia|done|lia].
  - destruct (Z.ltb_spec ((ISIZE_MAX + 1 - l_align t) `div` l_size t) n) as [|Hle]; intros; simplify_eq/=.
    unfold Layout_ok. simpl. split; [|done]. split; [nia|]. split; [done|].
    pose proof (Z.mul_div_le (ISIZE_MAX + 1 - l_align t) (l_size t) ltac:(lia)). nia.
Qed.

Lemma lookup_write_bytes bs p data a :
  write_bytes bs p data !! a =
    if decide (p ≤ a < p + Z.of_nat (length data)) then data !! Z.to_nat (a - p) else bs !! a.
Proof.
  revert p. induction data as [|b data IH]; intros p; simpl.
  { rewrite decide_False by lia. done. }
  destruct (decide (p = a)) as [<-|Hne].
  - rewrite lookup_insert_eq, decide_True by lia. by rewrite Z.sub_diag.
  - rewrite lookup_insert_ne, IH by done.
    destruct (decide (p + 1 ≤ a < p + 1 + Z.of_nat (length data))).
    + rewrite decide_True by lia.
      replace (Z.to_nat (a - p)) with (S (Z.to_nat (a - (p + 1)))) by lia. done.
    + rewrite decide_False by lia. done.
Qed.

Lemma read_bytes_ext bs bs' p n :
  (∀ a, p ≤ a < p + Z.of_nat n → bs !! a = bs' !! a) → read_bytes bs p n = read_bytes bs' p n.
Proof.
  revert p. induction n as [|n IH]; intros p H; simpl; [done|].
  f_equal; [apply H; lia|]. apply IH. intros. apply H. lia.
Qed.

(** What was written is read back. *)
Lemma read_write_same bs p data :
  read_bytes (write_bytes bs p data) p (length data) = Some <$> data.
Proof.
  revert p. induction data as [|b data IH]; intros p; [done|].
  cbn [read_bytes write_bytes fmap list_fmap length]. f_equal.
  - by rewrite lookup_insert_eq.
  - rewrite <- (IH (p + 1)). apply read_bytes_ext. intros a Ha. rewrite lookup_insert_ne by lia. done.
Qed.

(** A write leaves a disjoint range alone. *)
Lemma read_write_disjoint bs p data q n :
  mkRange p (Z.of_nat (length data)) ## mkRange q (Z.of_nat n) →
  read_bytes (write_bytes bs p data) q n = read_bytes bs q n.
Proof.
  intros Hd. apply read_bytes_ext. intros a Ha. rewrite lookup_write_bytes, decide_False; [done|].
  range_solve.
Qed.

Lemma lookup_put_bytes bs p data a :
  put_bytes bs p data !! a =
    if decide (p ≤ a < p + Z.of_nat (length data)) then mjoin (data !! Z.to_nat (a - p)) else bs !! a.
Proof.
  revert p. induction data as [|b data IH]; intros p; simpl.
  { rewrite decide_False by lia. done. }
  destruct (decide (p = a)) as [<-|Hne].
  - rewrite lookup_partial_alter_eq, decide_True by lia. by rewrite Z.sub_diag.
  - rewrite lookup_partial_alter_ne, IH by done.
    destruct (decide (p + 1 ≤ a < p + 1 + Z.of_nat (length data))).
    + rewrite decide_True by lia.
      replace (Z.to_nat (a - p)) with (S (Z.to_nat (a - (p + 1)))) by lia. done.
    + rewrite decide_False by lia. done.
Qed.

Lemma length_read_bytes bs p n : length (read_bytes bs p n) = n.
Proof. revert p. induction n; intros; simpl; congruence. Qed.

Lemma lookup_read_bytes bs p n i : (i < n)%nat → read_bytes bs p n !! i = Some (bs !! (p + Z.of_nat i)).
Proof.
  revert p i. induction n as [|n IH]; intros p [|i] Hi; simpl; [lia..| |].
  - by rewrite Z.add_0_r.
  - rewrite IH by lia. do 2 f_equal. lia.
Qed.

(** A copy: the destination reads what the source held. *)
Lemma read_put_same bs p data : read_bytes (put_bytes bs p data) p (length data) = data.
Proof.
  revert p. induction data as [|o data IH]; intros p; [done|].
  cbn [read_bytes put_bytes length]. f_equal.
  - by rewrite lookup_partial_alter_eq.
  - etransitivity; [|exact (IH (p + 1))]. apply read_bytes_ext.
    intros a Ha. rewrite lookup_partial_alter_ne by lia. done.
Qed.

Lemma read_put_disjoint bs p data q n :
  mkRange p (Z.of_nat (length data)) ## mkRange q (Z.of_nat n) →
  read_bytes (put_bytes bs p data) q n = read_bytes bs q n.
Proof.
  intros Hd. apply read_bytes_ext. intros a Ha. rewrite lookup_put_bytes, decide_False; [done|].
  range_solve.
Qed.

Lemma mem_valid_block p n b m : b ∈ heap m → mkRange p n ⊆ block_range b → mem_valid p n m.
Proof. intros. right. apply Exists_exists. eauto. Qed.

Lemma mem_store_ok p data m :
  mem_valid p (Z.of_nat (length data)) m →
  mem_store p data m = (Ok tt, mkMem (heap m) (write_bytes (bytes m) p data)).
Proof. intros. unfold mem_store. by rewrite decide_True. Qed.

Lemma mem_copy_ok src dst n m :
  mem_valid src (Z.of_nat n) m → mem_valid dst (Z.of_nat n) m →
  mkRange src (Z.of_nat n) ## mkRange dst (Z.of_nat n) →
  mem_copy src dst n m = (Ok tt, mkMem (heap m) (put_bytes (bytes m) dst (read_bytes (bytes m) src n))).
Proof. intros. unfold mem_copy. by rewrite decide_True. Qed.

Lemma mapM_id_Some {A} (l : list A) : mapM id (Some <$> l) = Some l.
Proof. by apply mapM_fmap_Some. Qed.

(** A value written is read back whole. *)
Lemma mem_load_written p data bs h :
  mem_valid p (Z.of_nat (length data)) (mkMem h bs) → read_bytes bs p (length data) = Some <$> data →
  mem_load p (length data) (mkMem h bs) = (Ok data, mkMem h bs).
Proof. intros Hv Hr. unfold mem_load. rewrite decide_True by done. simpl. by rewrite Hr, mapM_id_Some. Qed.

Lemma remove_block_sub b h h' : remove_block b h = Some h' → ∃ h1 h2, h = h1 ++ b :: h2 ∧ h' = h1 ++ h2.
Proof.
  revert h'. induction h as [|x h IH]; intros h'; simpl; [done|].
  case_decide; intros Hr; simplify_eq.
  - exists [], h'. done.
  - destruct (remove_block b h) as [h0|] eqn:E; simplify_eq/=.
    destruct (IH h0 eq_refl) as (h1 & h2 & -> & ->). by exists (x :: h1), h2.
Qed.

Lemma remove_block_elem b h : b ∈ h → is_Some (remove_block b h).
Proof.
  induction h as [|x h IH]; [by inversion 1|]. simpl. case_decide; [done|].
  rewrite elem_of_cons. intros [->|Hb]; [done|]. destruct (IH Hb) as [h' ->]. done.
Qed.

(** Freshness of [alloc], stated on the memory. *)
Lemma sys_alloc_fresh {ga : GlobalAlloc} `{!GlobalAllocOk ga} l m p m' :
  Layout_ok l → sys_alloc l m = (Ok p, m') → p ≠ 0 →
  0 < p ∧ p `mod` l_align l = 0 ∧ p + l_size l ≤ USIZE_MAX ∧
  m' = mkMem (mkBlock p l :: heap m) (bytes m) ∧
  Forall (λ b, mkRange p (l_size l) ## block_range b) (heap m) ∧
  (Mem_wf m → Mem_wf m').
Proof.
  intros Hl. unfold sys_alloc. destruct (Z.eqb_spec (l_size l) 0) as [|Hs]; [done|].
  destruct (ga_alloc (heap m) l) as [q|] eqn:Hg; intros Hr Hp; simplify_eq.
  destruct (ga_ok (heap m) l p) as (H1 & H2 & H3 & H4); [done|destruct Hl; lia|done|].
  split_and!; [done..|]. intros Hwf. unfold Mem_wf. simpl. split; [|done].
  by apply Forall_fmap.
Qed.

Lemma bump_top_ge live b : b ∈ live → b_ptr b + l_size (b_layout b) ≤ bump_top live.
Proof. induction 1; simpl; lia. Qed.

Lemma bump_top_pos live : 4096 ≤ bump_top live.
Proof. induction live; simpl; lia. Qed.

#[global] Instance bump_alloc_ok : GlobalAllocOk bump_alloc.
Proof.
  constructor. intros live l p Hl Hs. unfold ga_alloc, bump_alloc.
  pose proof (Layout_align_pos l Hl) as Ha. pose proof (bump_top_pos live).
  pose proof (align_to_ge (bump_top live) (l_align l) Ha).
  destruct (Z.leb_spec (align_to (bump_top live) (l_align l) + l_size l) USIZE_MAX); intros; simplify_eq.
  split_and!; [lia|by apply align_to_mod|lia|].
  apply Forall_forall. intros b Hb%bump_top_ge. right. unfold block_range. simpl. lia.
Qed.
