(* ===== verification/Bump.v ===== *)
(** * Bump: what every bump allocator of the crate promises

    Four components carve objects from the front of a region: [Chunk] (core.rs),
    [ThreadSlab] (lockfree.rs), [VirtualChunk] (virtual_memory.rs) and the
    legacy arena's chunks.  [Bump] is the operation they share, [BumpLaws] what a
    client may rely on; the client's theorem, that any sequence of allocations
    yields pairwise disjoint objects inside the region, is proved once from the
    laws. *)
From S2P Require Import Prelude Memory.
Local Open Scope Z_scope.

Class Bump (B : Type) := bump_allocate : Layout → B → outcome (option Z * B).

(** [bump_avail b] are the addresses not handed out yet. *)
Class BumpLaws (B : Type) {bump : Bump B} := {
  bump_ok : B → Prop;
  bump_avail : B → Z → Prop;
  bump_law l b : bump_ok b → Layout_ok l →
    ∃ r b', bump_allocate l b = Ok (r, b') ∧ bump_ok b' ∧
      (∀ a, bump_avail b' a → bump_avail b a) ∧
      (∀ p a, r = Some p → a ∈ mkRange p (l_size l) → bump_avail b a ∧ ¬ bump_avail b' a)
}.

(** A client: a sequence of requests. *)
Fixpoint bump_run `{Bump B} (ls : list Layout) (b : B) : outcome (list (option Z) * B) :=
  match ls with
  | [] => Ok ([], b)
  | l :: ls =>
      '(r, b) ← bump_allocate l b;
      '(rs, b) ← bump_run ls b;
      Ok (r :: rs, b)
  end.

(** The ranges of the requests that were granted. *)
Definition granted (ls : list Layout) (rs : list (option Z)) : list Range :=
  omap (λ lr, (λ p, mkRange p (l_size lr.1)) <$> lr.2) (zip ls rs).

Lemma granted_log (ks : list (Layout * Z)) :
  granted ks.*1 (Some <$> ks.*2) = (λ lp, mkRange lp.2 (l_size lp.1)) <$> ks.
Proof.
  induction ks as [|[l p] ks IH]; [done|]. cbn. f_equal. exact IH.
Qed.

Lemma bump_run_app `{Bump B} ls1 ls2 (b : B) rs1 b1 :
  bump_run ls1 b = Ok (rs1, b1) →
  bump_run (ls1 ++ ls2) b = ('(rs2, b2) ← bump_run ls2 b1; Ok (rs1 ++ rs2, b2)).
Proof.
  revert b rs1. induction ls1 as [|l ls1 IH]; intros b rs1; simpl.
  { intros [= <- <-]. destruct (bump_run ls2 b) as [[]| | |]; done. }
  destruct (bump_allocate l b) as [[r b']| | |]; simpl; [|done..].
  destruct (bump_run ls1 b') as [[rs b'']| | |] eqn:E; simpl; [|done..].
  intros [= <- <-]. rewrite (IH b' rs E).
  by destruct (bump_run ls2 b'') as [[]| | |].
Qed.

(** The client's theorem. *)
Lemma bump_run_spec {B} {bump : Bump B} `{!BumpLaws B} ls (b : B) :
  bump_ok b → Forall Layout_ok ls →
  ∃ rs b', bump_run ls b = Ok (rs, b') ∧ bump_ok b' ∧ length rs = length ls ∧
    (∀ a, bump_avail b' a → bump_avail b a) ∧
    Forall (λ r, ∀ a, a ∈ r → bump_avail b a ∧ ¬ bump_avail b' a) (granted ls rs) ∧
    pw_disjoint (granted ls rs).
Proof.
  intros Hb Hls. revert b Hb. induction Hls as [|l ls Hl Hls IH]; intros b Hb.
  { exists [], b. do 3 (split; [done|]). split; [done|]. split; [constructor|done]. }
  destruct (bump_law l b Hb Hl) as (r & b1 & E1 & Hb1 & Hsub & Hr).
  destruct (IH b1 Hb1) as (rs & b' & E & Hb' & Hlen & Hsub' & Hin & Hd).
  exists (r :: rs), b'. simpl. rewrite E1. simpl. rewrite E. simpl.
  split; [done|]. split; [done|]. split; [lia|]. split; [by auto|].
  assert (Forall (λ r, ∀ a, a ∈ r → bump_avail b a ∧ ¬ bump_avail b' a) (granted ls rs)) as Hin'.
  { eapply Forall_impl; [exact Hin|]. intros x Hx a Ha. destruct (Hx a Ha). auto. }
  destruct r as [p|]; [|done]. unfold granted in *. simpl. split.
  - apply Forall_cons. split; [|done]. intros a Ha. destruct (Hr p a eq_refl Ha). auto.
  - split; [|done]. eapply Forall_impl; [exact Hin|]. intros x Hx.
    apply range_disjoint_spec. intros a Ha Hax. destruct (Hr p a eq_refl Ha). destruct (Hx a Hax). auto.
Qed.

(** What every allocation preserves, a run preserves. *)
Lemma bump_run_preserve {B} {bump : Bump B} (P : B → Prop) ls b rs b' :
  (∀ l b r b', P b → Layout_ok l → bump_allocate l b = Ok (r, b') → P b') →
  P b → Forall Layout_ok ls → bump_run ls b = Ok (rs, b') → P b'.
Proof.
  intros Hstep Hb Hls. revert b rs Hb. induction Hls as [|l ls Hl Hls IH]; intros b rs Hb; simpl.
  { by intros [= <- <-]. }
  destruct (bump_allocate l b) as [[r b1]| | |] eqn:E; simpl; [|done..].
  destruct (bump_run ls b1) as [[rs1 b2]| | |] eqn:E2; simpl; [|done..]. intros [= <- <-]. eauto.
Qed.
