(* ===== verification/Chunk.v ===== *)
(** * Chunk: the bump allocator of core.rs

    [Chunk] of src/core.rs: one block of the global allocator and an atomic
    [used] offset that [allocate] bumps with a compare-exchange loop.  The
    section [run] is the code as one thread executes it; the section [conc]
    lets any number of threads race on one chunk, each atomic access of
    [allocate] being one step. *)
From S2P Require Import Prelude Memory Bump.
Local Open Scope Z_scope.

Record Chunk := mkChunk { c_ptr : Z; c_capacity : Z; c_used : Z }.

#[global] Instance Chunk_eq_dec : EqDecision Chunk.
Proof. solve_decision. Defined.

Section run.
Context `{cfg : Cfg} `{ga : GlobalAlloc}.

Definition Chunk_new (capacity : Z) : M Mem (Result Chunk string) :=
  if capacity =? 0 then mret (RErr "Capacity must be nonzero") else
  c ← lift (usize_add capacity 63);
  let capacity := Z.land c (usize_not 63) in
  match Layout_from_size_align capacity 64 with
  | None => mret (RErr "Invalid layout")
  | Some layout =>
      ptr ← sys_alloc layout;
      if ptr =? 0 then mret (RErr "Failed to allocate memory")
      else mret (ROk (mkChunk ptr capacity 0))
  end.

(** The loop of [allocate].  [spurious] is the number of times
    [compare_exchange_weak] fails although [used] still holds the value that was
    loaded, which the method's documentation allows; each failure goes round the
    loop, loads [used] again and recomputes. *)
Fixpoint Chunk_allocate_loop (spurious : nat) (layout : Layout) (c : Chunk)
    : outcome (option Z * Chunk) :=
  let size := l_size layout in
  let align := l_align layout in
  let current_used := c_used c in
  start ← align_up current_used align;
  match checked_add start size with
  | None => Ok (None, c)
  | Some end_ =>
      if c_capacity c <? end_ then Ok (None, c) else
      match spurious with
      | O => Ok (Some (c_ptr c + start), mkChunk (c_ptr c) (c_capacity c) end_)
      | S n => Chunk_allocate_loop n layout c
      end
  end.

Definition Chunk_allocate (layout : Layout) (c : Chunk) : outcome (option Z * Chunk) :=
  Chunk_allocate_loop 0 layout c.

Definition Chunk_set_used (value : Z) (c : Chunk) : Chunk :=
  mkChunk (c_ptr c) (c_capacity c) value.
Definition Chunk_reset (c : Chunk) : Chunk := Chunk_set_used 0 c.

Definition Chunk_drop (c : Chunk) : M Mem unit :=
  if 0 <? c_capacity c then
    match Layout_from_size_align (c_capacity c) 64 with
    | Some layout => sys_dealloc (c_ptr c) layout
    | None =>
        match Layout_from_size_align 64 64 with
        | Some fallback => sys_dealloc (c_ptr c) fallback
        | None => lift (Panic "64-byte fallback layout invalid")
        end
    end
  else mret tt.
End run.

(** ** Invariant *)

(** The block behind a chunk. *)
Definition Chunk_block (c : Chunk) : Block := mkBlock (c_ptr c) (mkLayout (c_capacity c) 64).
Definition Chunk_range (c : Chunk) : Range := mkRange (c_ptr c) (c_capacity c).

Definition Chunk_wf (c : Chunk) : Prop :=
  0 < c_ptr c ∧ c_ptr c `mod` 64 = 0 ∧ c_ptr c + c_capacity c ≤ USIZE_MAX ∧
  0 < c_capacity c ≤ ISIZE_MAX - 63 ∧ c_capacity c `mod` 64 = 0 ∧
  0 ≤ c_used c ≤ c_capacity c.
#[global] Instance Chunk_wf_dec c : Decision (Chunk_wf c).
Proof. unfold Chunk_wf. apply _. Defined.

(** The offset at which a chunk places the next object of layout [l]. *)
Definition Chunk_start (l : Layout) (c : Chunk) : Z := align_to (c_used c) (l_align l).

(** The object fits behind what is used. *)
Definition Chunk_fits (l : Layout) (c : Chunk) : Prop :=
  Chunk_start l c + l_size l ≤ c_capacity c.
#[global] Instance Chunk_fits_dec l c : Decision (Chunk_fits l c).
Proof. unfold Chunk_fits. apply _. Defined.

(** ** Lemmas *)
Section lemmas.
Context `{cfg : Cfg} {ga : GlobalAlloc} `{!GlobalAllocOk ga}.

Lemma Layout_align_le l : Layout_ok l → l_align l ≤ ISIZE_MAX + 1.
Proof. intros (? & ? & ?). lia. Qed.

Lemma Chunk_align_up l c :
  Chunk_wf c → Layout_ok l → align_up (c_used c) (l_align l) = Ok (Chunk_start l c).
Proof.
  intros (?&?&?&?&?&?) Hl. pose proof (Layout_align_le l Hl). destruct Hl as (?&?&?).
  apply align_up_spec; [done|lia|ulia].
Qed.

(** The loop is determined by the arithmetic alone: every branch of it. *)
Lemma Chunk_allocate_loop_eq n l c :
  Chunk_wf c → Layout_ok l →
  Chunk_allocate_loop n l c =
    if decide (Chunk_fits l c)
    then Ok (Some (c_ptr c + Chunk_start l c), Chunk_set_used (Chunk_start l c + l_size l) c)
    else Ok (None, c).
Proof.
  intros Hc Hl. induction n as [|n IH]; simpl; rewrite Chunk_align_up by done; mrun;
    unfold checked_add; pose proof Hc as (?&?&?&?&?&?); unfold Chunk_fits in *;
    (destruct (Z.ltb_spec (Chunk_start l c + l_size l) USIZE_MOD);
      [|rewrite decide_False by ulia; done]);
    (destruct (Z.ltb_spec (c_capacity c) (Chunk_start l c + l_size l));
      [rewrite decide_False by lia; done|]).
  - rewrite decide_True by lia. done.
  - apply IH.
Qed.

Lemma Chunk_allocate_eq l c :
  Chunk_wf c → Layout_ok l →
  Chunk_allocate l c =
    if decide (Chunk_fits l c)
    then Ok (Some (c_ptr c + Chunk_start l c), Chunk_set_used (Chunk_start l c + l_size l) c)
    else Ok (None, c).
Proof. apply (Chunk_allocate_loop_eq 0). Qed.

Lemma Chunk_start_bounds l c :
  Layout_ok l → c_used c ≤ Chunk_start l c < c_used c + l_align l.
Proof.
  intros Hl%Layout_align_pos. unfold Chunk_start.
  pose proof (align_to_ge (c_used c) (l_align l) Hl).
  pose proof (align_to_lt (c_used c) (l_align l) Hl). lia.
Qed.

Lemma Chunk_set_used_wf v c : Chunk_wf c → 0 ≤ v ≤ c_capacity c → Chunk_wf (Chunk_set_used v c).
Proof. unfold Chunk_wf. simpl. intuition. Qed.

Lemma Chunk_allocate_wf l c r c' :
  Chunk_wf c → Layout_ok l → Chunk_allocate l c = Ok (r, c') →
  Chunk_wf c' ∧ c_ptr c' = c_ptr c ∧ c_capacity c' = c_capacity c.
Proof.
  intros Hc Hl. unfold Chunk_allocate. rewrite Chunk_allocate_loop_eq by done.
  case_decide as Hf; intros; simplify_eq; [|done].
  split; [|done]. apply Chunk_set_used_wf; [done|].
  pose proof (Chunk_start_bounds l c Hl). destruct Hl as (?&?&?).
  destruct Hc as (?&?&?&?&?&?). unfold Chunk_fits in Hf. lia.
Qed.

#[export] Instance Chunk_bump : Bump Chunk := Chunk_allocate.

(** A chunk keeps the promises of a bump allocator: what is left of it is the
    part above [used]. *)
#[export] Program Instance Chunk_bump_laws : BumpLaws Chunk := {|
  bump_ok := Chunk_wf;
  bump_avail c a := a ∈ mkRange (c_ptr c + c_used c) (c_capacity c - c_used c)
|}.
Next Obligation.
  intros l c Hc Hl. unfold bump_allocate, Chunk_bump, Chunk_allocate.
  rewrite Chunk_allocate_loop_eq by done. pose proof (Chunk_start_bounds l c Hl).
  assert (0 ≤ l_size l) by (destruct Hl; done).
  case_decide as Hf; eexists _, _; (split; [done|]).
  - unfold Chunk_fits in Hf. split; [|split; [range_solve|]].
    + apply Chunk_set_used_wf; [done|]. destruct Hc as (?&?&?&?&?&?). lia.
    + intros p a [= <-] Ha. range_solve.
  - split; [done|]. split; [range_solve|done].
Qed.

Lemma Chunk_run_same ls c rs c' :
  Chunk_wf c → Forall Layout_ok ls → bump_run ls c = Ok (rs, c') →
  c_ptr c' = c_ptr c ∧ c_capacity c' = c_capacity c ∧ Chunk_wf c'.
Proof.
  intros Hc Hls Hr. apply (bump_run_preserve (λ x, c_ptr x = c_ptr c ∧ c_capacity x = c_capacity c ∧ Chunk_wf x) ls c rs c'); [|done..].
  intros l x r x' (<- & <- & Hx) Hl E. destruct (Chunk_allocate_wf l x r x' Hx Hl E) as (?&?&?). done.
Qed.

(** A fresh chunk takes any object of at most its capacity. *)
Lemma Chunk_fits_fresh l c : Layout_ok l → c_used c = 0 → Chunk_fits l c ↔ l_size l ≤ c_capacity c.
Proof.
  intros Hl Hu. unfold Chunk_fits, Chunk_start. rewrite Hu, align_to_id; [done| |done].
  by apply Layout_align_pos.
Qed.
End lemmas.

(** ** Threads racing on one chunk

    A thread is between two calls, about to load [used], or holds the value it
    loaded.  [Call] enters [allocate], [Load] is the atomic load, [Cas] is
    everything from the arithmetic on the loaded value to the compare-exchange;
    [spurious] lets the weak compare-exchange fail for no reason. *)
Inductive ChunkThread :=
  | CIdle
  | CLoop (l : Layout)
  | CLoaded (l : Layout) (current_used : Z)
  | CPanicked.

Inductive ChunkEvent :=
  | ECall (t : nat) (l : Layout)
  | ELoad (t : nat)
  | ECas (t : nat) (spurious : bool).

(** [k_log]: the allocations that succeeded, newest last, with their layouts. *)
Record ChunkSys := mkChunkSys {
  k_chunk : Chunk;
  k_threads : gmap nat ChunkThread;
  k_log : list (Layout * Z)
}.

Definition k_thread (t : nat) (s : ChunkSys) : ChunkThread := default CIdle (k_threads s !! t).

Section conc.
Context `{cfg : Cfg}.

Definition Chunk_step (e : ChunkEvent) (s : ChunkSys) : option ChunkSys :=
  let goto t st := mkChunkSys (k_chunk s) (<[t := st]> (k_threads s)) (k_log s) in
  match e with
  | ECall t l =>
      match k_thread t s with
      | CIdle => if decide (Layout_ok l) then Some (goto t (CLoop l)) else None
      | _ => None
      end
  | ELoad t =>
      match k_thread t s with
      | CLoop l => Some (goto t (CLoaded l (c_used (k_chunk s))))
      | _ => None
      end
  | ECas t spurious =>
      match k_thread t s with
      | CLoaded l current_used =>
          match align_up current_used (l_align l) with
          | Ok start =>
              match checked_add start (l_size l) with
              | None => Some (goto t CIdle)
              | Some end_ =>
                  if c_capacity (k_chunk s) <? end_ then Some (goto t CIdle)
                  else if (c_used (k_chunk s) =? current_used) && negb spurious then
                    Some (mkChunkSys (Chunk_set_used end_ (k_chunk s))
                            (<[t := CIdle]> (k_threads s))
                            (k_log s ++ [(l, c_ptr (k_chunk s) + start)]))
                  else Some (goto t (CLoop l))
              end
          | _ => Some (goto t CPanicked)
          end
      | _ => None
      end
  end.

Fixpoint Chunk_steps (es : list ChunkEvent) (s : ChunkSys) : option ChunkSys :=
  match es with
  | [] => Some s
  | e :: es => s' ← Chunk_step e s; Chunk_steps es s'
  end.

End conc.

Definition ChunkSys_init (c : Chunk) : ChunkSys := mkChunkSys c ∅ [].

(** What every reachable state satisfies: the chunk is the one that the
    successful calls, made one after the other in the order of their
    compare-exchanges, leave behind, with the same results; no thread panicked;
    a loaded value was once a value of [used]. *)
Definition ChunkSys_inv `{Cfg} (c0 : Chunk) (s : ChunkSys) : Prop :=
  Chunk_wf (k_chunk s) ∧
  Forall (λ lp, Layout_ok lp.1) (k_log s) ∧
  bump_run (k_log s).*1 c0 = Ok (Some <$> (k_log s).*2, k_chunk s) ∧
  (∀ t st, k_threads s !! t = Some st →
    match st with
    | CIdle => True
    | CLoop l => Layout_ok l
    | CLoaded l u => Layout_ok l ∧ 0 ≤ u ≤ c_capacity (k_chunk s)
    | CPanicked => False
    end).

Section conc_lemmas.
Context `{cfg : Cfg}.

Lemma ChunkSys_inv_goto c0 s t st :
  ChunkSys_inv c0 s →
  match st with
  | CIdle => True
  | CLoop l => Layout_ok l
  | CLoaded l u => Layout_ok l ∧ 0 ≤ u ≤ c_capacity (k_chunk s)
  | CPanicked => False
  end →
  ChunkSys_inv c0 (mkChunkSys (k_chunk s) (<[t := st]> (k_threads s)) (k_log s)).
Proof.
  intros (Hw & Hl & Ha & Ht) Hst. split_and!; [done..|]. simpl. intros t' st'.
  rewrite lookup_insert. case_decide; intros; simplify_eq; [done|]. by apply (Ht t').
Qed.

Lemma k_thread_inv c0 s t :
  ChunkSys_inv c0 s →
  match k_thread t s with
  | CIdle => True
  | CLoop l => Layout_ok l
  | CLoaded l u => Layout_ok l ∧ 0 ≤ u ≤ c_capacity (k_chunk s)
  | CPanicked => False
  end.
Proof.
  intros (_ & _ & _ & Ht). unfold k_thread. destruct (k_threads s !! t) as [st|] eqn:E; simpl; [|done].
  by apply (Ht t).
Qed.

Lemma Chunk_step_inv c0 e s s' : ChunkSys_inv c0 s → Chunk_step e s = Some s' → ChunkSys_inv c0 s'.
Proof.
  intros Hi. destruct e as [t l|t|t sp]; simpl; pose proof (k_thread_inv c0 s t Hi) as Ht;
    destruct (k_thread t s) as [|l'|l' u|]; try done.
  - case_decide; intros; simplify_eq. by apply ChunkSys_inv_goto.
  - intros; simplify_eq. apply ChunkSys_inv_goto; [done|]. split; [done|].
    destruct Hi as ((?&?&?&?&?&?)&_). lia.
  - destruct Ht as [Hl' Hu]. pose proof Hi as (Hw & Hlog & Ha & Hth).
    pose proof Hw as (?&?&?&?&?&?).
    rewrite align_up_spec; [|by destruct Hl' as (?&?&?)|lia|pose proof (Layout_align_le l' Hl'); ulia].
    destruct (checked_add _ _) as [e|] eqn:Ee; [|intros; simplify_eq; by apply ChunkSys_inv_goto].
    destruct (Z.ltb_spec (c_capacity (k_chunk s)) e) as [|Hcap]; [intros; simplify_eq; by apply ChunkSys_inv_goto|].
    destruct (Z.eqb_spec (c_used (k_chunk s)) u) as [<-|]; simpl;
      [destruct sp; simpl|]; intros; simplify_eq; try (by apply ChunkSys_inv_goto).
    assert (e = Chunk_start l' (k_chunk s) + l_size l') as ->.
    { unfold checked_add in Ee. case_match; simplify_eq. done. }
    assert (0 ≤ l_size l') by (destruct Hl'; done).
    pose proof (Chunk_start_bounds l' (k_chunk s) Hl').
    split_and!; simpl.
    + apply Chunk_set_used_wf; [done|lia].
    + apply Forall_app. split; [done|]. by apply Forall_singleton.
    + rewrite !fmap_app, (bump_run_app _ _ _ _ _ Ha). simpl. unfold bump_allocate, Chunk_bump, Chunk_allocate.
      rewrite Chunk_allocate_loop_eq, decide_True by done. done.
    + intros t' st'. rewrite lookup_insert. case_decide; intros; simplify_eq; [done|]. by apply (Hth t').
Qed.

Lemma Chunk_steps_inv c0 es s s' :
  ChunkSys_inv c0 s → Chunk_steps es s = Some s' → ChunkSys_inv c0 s'.
Proof.
  revert s. induction es as [|e es IH]; intros s Hi; simpl; [intros; by simplify_eq|].
  destruct (Chunk_step e s) as [s1|] eqn:E; simpl; [|done]. eauto using Chunk_step_inv.
Qed.

Lemma ChunkSys_init_inv c : Chunk_wf c → ChunkSys_inv c (ChunkSys_init c).
Proof. intros Hc. split_and!; simpl; [done|done|done|]. intros t st. by rewrite lookup_empty. Qed.
End conc_lemmas.

(** ** Construction and release *)
Section new_lemmas.
Context `{cfg : Cfg} {ga : GlobalAlloc}.

Lemma pow2_64 : 64 = 2 ^ 6.
Proof. reflexivity. Qed.

Lemma Chunk_round capacity :
  0 ≤ capacity → capacity + 63 < USIZE_MOD →
  Z.land (capacity + 63) (usize_not 63) = align_to capacity 64.
Proof.
  intros. pose proof (round_mask_spec capacity 6 ltac:(lia) ltac:(lia)) as Hr.
  change (2 ^ 6) with 64 in Hr. rewrite <- Hr by lia. done.
Qed.

(** [Chunk::new] on a request that can be rounded up within [isize]. *)
Lemma Chunk_new_eq capacity m :
  0 < capacity ≤ ISIZE_MAX - 63 →
  let cap := align_to capacity 64 in
  Chunk_new capacity m =
    match ga_alloc (heap m) (mkLayout cap 64) with
    | None => (Ok (RErr "Failed to allocate memory"), m)
    | Some p =>
        (Ok (if p =? 0 then RErr "Failed to allocate memory" else ROk (mkChunk p cap 0)),
         mkMem (mkBlock p (mkLayout cap 64) :: heap m) (bytes m))
    end.
Proof.
  intros Hc cap. assert (capacity ≤ cap) by (by apply align_to_ge).
  assert (cap ≤ ISIZE_MAX - 63) as Hle.
  { apply align_to_least; [done|ulia|reflexivity]. }
  unfold Chunk_new. destruct (Z.eqb_spec capacity 0); [lia|].
  mrun. rewrite usize_add_in by ulia. mrun. rewrite Chunk_round by ulia.
  rewrite Layout_from_size_align_ok; [|split_and!; simpl; [lia|reflexivity|lia]].
  unfold sys_alloc. simpl. fold cap. destruct (Z.eqb_spec cap 0); [lia|].
  destruct (ga_alloc _ _) as [p|]; [|done]. by destruct (p =? 0).
Qed.

Lemma Chunk_new_wf `{!GlobalAllocOk ga} capacity m c m' :
  0 < capacity ≤ ISIZE_MAX - 63 → Chunk_new capacity m = (Ok (ROk c), m') →
  Chunk_wf c ∧ c_used c = 0 ∧ c_capacity c = align_to capacity 64 ∧
  m' = mkMem (Chunk_block c :: heap m) (bytes m) ∧
  Forall (λ b, Chunk_range c ## block_range b) (heap m).
Proof.
  intros Hc. rewrite Chunk_new_eq by done. set (cap := align_to capacity 64).
  assert (capacity ≤ cap) by (by apply align_to_ge).
  assert (cap ≤ ISIZE_MAX - 63) by (apply align_to_least; [done|ulia|reflexivity]).
  destruct (ga_alloc _ _) as [p|] eqn:E; [|done].
  destruct (Z.eqb_spec p 0); intros; simplify_eq.
  destruct (ga_ok (heap m) (mkLayout cap 64) p) as (?&Hm&?&?); [|simpl; lia|done|].
  { split_and!; simpl; [lia|reflexivity|lia]. }
  simpl in *. split; [|done]. unfold Chunk_wf. simpl.
  split_and!; [done|done|done|lia|lia|by apply align_to_mod|done|lia].
Qed.

Lemma Chunk_drop_live c h1 h2 bs :
  0 < c_capacity c ≤ ISIZE_MAX - 63 → Chunk_block c ∉ h1 →
  Chunk_drop c (mkMem (h1 ++ Chunk_block c :: h2) bs) = (Ok tt, mkMem (h1 ++ h2) bs).
Proof.
  intros Hc Hn. unfold Chunk_drop. destruct (Z.ltb_spec 0 (c_capacity c)); [|lia].
  rewrite Layout_from_size_align_ok; [|split_and!; simpl; [lia|reflexivity|lia]].
  unfold sys_dealloc. simpl. change (mkBlock (c_ptr c) (mkLayout (c_capacity c) 64)) with (Chunk_block c).
  assert (remove_block (Chunk_block c) (h1 ++ Chunk_block c :: h2) = Some (h1 ++ h2)) as ->; [|done].
  clear -Hn. induction h1 as [|b h1 IH]; simpl; [by rewrite decide_True by done|].
  rewrite decide_False by set_solver. rewrite IH by set_solver. done.
Qed.
End new_lemmas.

(** ** Theorems *)

(** C6: [Chunk::allocate] on a well-formed chunk and a valid layout always
    returns, whatever number of times the weak compare-exchange fails
    spuriously.  When the object fits it returns a pointer whose range lies in
    the unused part of the chunk, wastes less than one alignment unit, is
    aligned to every alignment up to the chunk's own 64, and the chunk's [used]
    moves exactly to the end of the object; when it does not fit it returns
    [None] and leaves the chunk as it was.  No arithmetic overflows. *)
Theorem Chunk_allocate_spec `{cfg : Cfg} n l c :
  Chunk_wf c → Layout_ok l →
  (Chunk_fits l c → ∃ p,
     Chunk_allocate_loop n l c = Ok (Some p, Chunk_set_used (p - c_ptr c + l_size l) c) ∧
     mkRange p (l_size l) ⊆ mkRange (c_ptr c + c_used c) (c_capacity c - c_used c) ∧
     p - c_ptr c < c_used c + l_align l ∧
     (l_align l ≤ 64 → p `mod` l_align l = 0)) ∧
  (¬ Chunk_fits l c → Chunk_allocate_loop n l c = Ok (None, c)).
Proof.
  intros Hc Hl. rewrite Chunk_allocate_loop_eq by done.
  pose proof (Chunk_start_bounds l c Hl). split; intros Hf.
  2: by rewrite decide_False by done.
  rewrite decide_True by done. exists (c_ptr c + Chunk_start l c).
  replace (c_ptr c + Chunk_start l c - c_ptr c) with (Chunk_start l c) by lia.
  split_and!; simpl; [done| |lia|].
  - unfold Chunk_fits in Hf. range_solve.
  - intros H64. pose proof (Layout_align_pos l Hl). destruct Hl as (_ & Ha & _), Hc as (_ & Hm & _).
    apply aligned_in_block; [done..|]. by apply align_to_mod.
Qed.

Lemma Chunk_allocate_spec_witness :
  let c := mkChunk 4096 128 10 in let l := mkLayout 40 16 in
  ∃ p, @Chunk_allocate_loop cfg_release 3 l c = Ok (Some p, Chunk_set_used (p - 4096 + 40) c) ∧
       mkRange p 40 ⊆ mkRange 4106 118 ∧ p - 4096 < 26 ∧ (16 ≤ 64 → p `mod` 16 = 0).
Proof.
  intros c l. apply (@Chunk_allocate_spec cfg_release 3 l c).
  - vm_compute. intuition discriminate.
  - vm_compute. intuition discriminate.
  - vm_compute. intuition discriminate.
Defined.

(** C7: threads racing on one chunk.  In every interleaving of the atomic steps
    of any number of concurrent [allocate] calls, with any spurious failures of
    the weak compare-exchange, the allocations that succeeded are those the same
    calls return when made one after the other in the order of their
    compare-exchanges, they leave the same chunk behind, their ranges are
    pairwise disjoint and inside the chunk, and no thread panics. *)
Theorem Chunk_linearizable `{cfg : Cfg} c es s :
  Chunk_wf c → Chunk_steps es (ChunkSys_init c) = Some s →
  bump_run (k_log s).*1 c = Ok (Some <$> (k_log s).*2, k_chunk s) ∧
  Chunk_wf (k_chunk s) ∧
  (let rs := (λ lp, mkRange lp.2 (l_size lp.1)) <$> k_log s in
   pw_disjoint rs ∧ Forall (λ r, r ⊆ Chunk_range c) rs) ∧
  (∀ t, k_thread t s ≠ CPanicked).
Proof.
  intros Hc Hs. pose proof (Chunk_steps_inv c es _ s (ChunkSys_init_inv c Hc) Hs) as Hi.
  pose proof Hi as (Hw & Hlog & Ha & Ht). split; [exact Ha|]. split; [exact Hw|]. split.
  2:{ intros t Hp. pose proof (k_thread_inv c s t Hi) as Hk. by rewrite Hp in Hk. }
  destruct (bump_run_spec (k_log s).*1 c) as (rs & c' & E & _ & _ & _ & Hin & Hd);
    [exact Hc|by apply Forall_fmap|].
  rewrite Ha in E. injection E as <- <-. rewrite granted_log in Hin, Hd.
  intros rs. split; [exact Hd|]. eapply Forall_impl; [exact Hin|].
  intros r Hr. apply range_subseteq_spec. intros a [Hav _]%Hr. destruct Hc as (?&?&?&?&?&?).
  change (a ∈ mkRange (c_ptr c + c_used c) (c_capacity c - c_used c)) in Hav.
  unfold Chunk_range. range_solve.
Qed.

(** Two threads, one 64-byte chunk: both load 0, one wins, the other retries. *)
Lemma Chunk_linearizable_witness :
  let l := mkLayout 8 8 in
  let c := mkChunk 4096 64 0 in
  ∃ s, @Chunk_steps cfg_dev [ECall 0 l; ECall 1 l; ELoad 0; ELoad 1; ECas 1 false; ECas 0 false;
                             ELoad 0; ECas 0 true; ELoad 0; ECas 0 false] (ChunkSys_init c) = Some s ∧
    k_log s = [(l, 4096); (l, 4104)] ∧ pw_disjoint [mkRange 4096 8; mkRange 4104 8].
Proof.
  intros l c. eexists. split; [vm_compute; reflexivity|]. split; [reflexivity|].
  edestruct (@Chunk_linearizable cfg_dev c
     [ECall 0 l; ECall 1 l; ELoad 0; ELoad 1; ECas 1 false; ECas 0 false;
      ELoad 0; ECas 0 true; ELoad 0; ECas 0 false]) as (_ & _ & [Hd _] & _).
  - vm_compute. intuition discriminate.
  - vm_compute. reflexivity.
  - exact Hd.
Defined.

(** [Chunk::new] for every request that can be rounded up within [isize].
    It fails exactly when the global allocator returns null; otherwise the chunk
    is well formed and empty, its capacity is the least multiple of 64 that is
    at least the request, its block is the only change of the heap, and the
    block is disjoint from everything that was live. *)
Theorem Chunk_new_spec `{cfg : Cfg} {ga : GlobalAlloc} `{!GlobalAllocOk ga} capacity m :
  0 < capacity ≤ ISIZE_MAX - 63 →
  match ga_alloc (heap m) (mkLayout (align_to capacity 64) 64) with
  | None => Chunk_new capacity m = (Ok (RErr "Failed to allocate memory"), m)
  | Some p => ∃ c,
      Chunk_new capacity m = (Ok (ROk c), mkMem (Chunk_block c :: heap m) (bytes m)) ∧
      Chunk_wf c ∧ c_ptr c = p ∧ c_used c = 0 ∧
      capacity ≤ c_capacity c < capacity + 64 ∧
      Forall (λ b, Chunk_range c ## block_range b) (heap m)
  end.
Proof.
  intros Hc. pose proof (Chunk_new_eq capacity m Hc) as He. simpl in He.
  destruct (ga_alloc _ _) as [p|] eqn:Hg; [|exact He].
  assert (capacity ≤ align_to capacity 64 < capacity + 64) as Hb.
  { pose proof (align_to_ge capacity 64 ltac:(done)). pose proof (align_to_lt capacity 64 ltac:(done)). lia. }
  destruct (ga_ok (heap m) (mkLayout (align_to capacity 64) 64) p) as (Hp & _); [|simpl; lia|done|].
  { split_and!; simpl; [lia|reflexivity|]. apply align_to_least; [done|ulia|reflexivity]. }
  destruct (Z.eqb_spec p 0); [lia|].
  exists (mkChunk p (align_to capacity 64) 0).
  destruct (Chunk_new_wf capacity m _ _ Hc He) as (Hw & _ & _ & _ & Hd). done.
Qed.

Lemma Chunk_new_spec_witness :
  ∃ c, @Chunk_new cfg_dev bump_alloc 100 Mem_empty = (Ok (ROk c), mkMem [Chunk_block c] ∅) ∧
    Chunk_wf c ∧ c_ptr c = 4096 ∧ c_used c = 0 ∧ 100 ≤ c_capacity c < 164 ∧
    Forall (λ b, Chunk_range c ## block_range b) [].
Proof.
  pose proof (@Chunk_new_spec cfg_dev bump_alloc bump_alloc_ok 100 Mem_empty) as H.
  assert (0 < 100 ≤ ISIZE_MAX - 63) as Hb by (vm_compute; intuition discriminate).
  exact (H Hb).
Defined.

(** A chunk is released with the layout it was allocated with.  A chunk made
    by [Chunk::new], after any sequence of [allocate] calls (and whatever
    [set_used] or [reset] did to it), gives its block back exactly when dropped:
    [Drop] never frees a block that is not live or with another layout, and the
    heap is what it was before. *)
Theorem Chunk_new_drop `{cfg : Cfg} {ga : GlobalAlloc} `{!GlobalAllocOk ga} capacity m c m' ls rs c' v :
  0 < capacity ≤ ISIZE_MAX - 63 → Forall Layout_ok ls →
  Chunk_new capacity m = (Ok (ROk c), m') →
  bump_run ls c = Ok (rs, c') →
  Chunk_drop (Chunk_set_used v c') m' = (Ok tt, m).
Proof.
  intros Hc Hls Hn Ha. destruct (Chunk_new_wf capacity m c m' Hc Hn) as (Hw & _ & _ & -> & _).
  destruct (Chunk_run_same ls c rs c' Hw Hls Ha) as (Hp & Hcap & Hw').
  assert (Chunk_block c = Chunk_block (Chunk_set_used v c')) as ->.
  { unfold Chunk_block. simpl. by rewrite Hp, Hcap. }
  destruct Hw' as (_ & _ & _ & Hb & _).
  etransitivity; [apply (Chunk_drop_live _ [] (heap m) (bytes m)); [done|set_solver]|].
  by destruct m.
Qed.

Lemma Chunk_new_drop_witness :
  let c := mkChunk 4096 128 0 in
  @Chunk_drop (Chunk_set_used 7 (mkChunk 4096 128 16)) (mkMem [Chunk_block c] ∅) = (Ok tt, Mem_empty).
Proof.
  intros c. apply (@Chunk_new_drop cfg_dev bump_alloc bump_alloc_ok 100 Mem_empty c
    (mkMem [Chunk_block c] ∅) [mkLayout 4 4; mkLayout 8 8] [Some 4096; Some 4104] (mkChunk 4096 128 16) 7).
  - vm_compute. intuition discriminate.
  - repeat constructor; vm_compute; intuition discriminate.
  - vm_compute. reflexivity.
  - vm_compute. reflexivity.
Defined.

(** A capacity within 63 of [usize::MAX] defeats the rounding of
    [Chunk::new].  A build with overflow checks panics; a release build wraps
    the capacity around to zero, passes the layout check and calls the global
    allocator with a zero-sized layout, which is undefined behaviour. *)
Theorem Chunk_new_wraps `{cfg : Cfg} {ga : GlobalAlloc} capacity m :
  USIZE_MAX - 63 < capacity ≤ USIZE_MAX →
  Chunk_new capacity m =
    ((if overflow_checks then Panic "attempt to add with overflow"
      else UB "alloc: zero-sized layout"), m).
Proof.
  intros Hc. unfold Chunk_new. destruct (Z.eqb_spec capacity 0); [ulia|].
  mrun. unfold usize_add, usize_op.
  destruct (Z.leb_spec 0 (capacity + 63)); [|ulia].
  destruct (Z.ltb_spec (capacity + 63) USIZE_MOD); [ulia|]. simpl.
  destruct overflow_checks; [done|].
  assert (usize_wrap (capacity + 63) = capacity + 63 - USIZE_MOD) as ->.
  { symmetry. apply Z.mod_unique_pos with 1; ulia. }
  change 63 with (2 ^ 6 - 1) at 2. rewrite land_not_mask by ulia.
  rewrite Z.div_small by ulia. done.
Qed.

Lemma Chunk_new_wraps_witness :
  @Chunk_new cfg_release bump_alloc USIZE_MAX Mem_empty = (UB "alloc: zero-sized layout", Mem_empty).
Proof. apply (@Chunk_new_wraps cfg_release bump_alloc USIZE_MAX Mem_empty). ulia. Defined.

(** A chunk's block is only 64-aligned and [allocate] aligns the offset in
    the block, not the address, so an alignment above 64 is not honoured: a
    well-formed chunk and a valid layout for which the pointer returned is not a
    multiple of the layout's alignment. *)
Theorem Chunk_overaligned :
  ∃ c l p c', Chunk_wf c ∧ Layout_ok l ∧
    @Chunk_allocate cfg_release l c = Ok (Some p, c') ∧ p `mod` l_align l ≠ 0.
Proof.
  exists (mkChunk 4160 256 0), (mkLayout 128 128), 4160, (mkChunk 4160 256 128).
  split; [vm_compute; intuition discriminate|]. split; [vm_compute; intuition discriminate|].
  split; [vm_compute; reflexivity|]. vm_compute. discriminate.
Qed.
