(* ===== verification/Slab.v ===== *)
(** * Slab: size-class caches of raw blocks

    [SIZE_CLASSES] of src/size_classes.rs, [SlabAllocator] of src/slab.rs and
    [MemoryPool] of src/core.rs.  Both keep free blocks in vectors used as
    stacks; neither allocates blocks of its own. *)
From S2P Require Import Prelude Memory.
Local Open Scope Z_scope.

Definition SIZE_CLASSES : list Z := [8; 16; 32; 64; 128; 256; 512; 1024; 2048; 4096].

(** ** [MemoryPool] *)
Record MemoryPool := mkMemoryPool { mp_slots : list Z; mp_size_class : Z; mp_capacity : Z }.

Definition MemoryPool_new (size_class capacity : Z) : MemoryPool := mkMemoryPool [] size_class capacity.

Definition MemoryPool_alloc (p : MemoryPool) : option Z * MemoryPool :=
  match vec_pop (mp_slots p) with
  | Some (ptr, slots) => (Some ptr, mkMemoryPool slots (mp_size_class p) (mp_capacity p))
  | None => (None, p)
  end.

Definition MemoryPool_dealloc (ptr : Z) (p : MemoryPool) : MemoryPool :=
  if Z.of_nat (length (mp_slots p)) <? mp_capacity p
  then mkMemoryPool (vec_push ptr (mp_slots p)) (mp_size_class p) (mp_capacity p)
  else p.

(** ** [SlabAllocator] *)
Record SlabAllocator := mkSlab { sl_pools : list (list Z) }.

Definition SlabAllocator_new : SlabAllocator := mkSlab (replicate (length SIZE_CLASSES) []).

(** [SIZE_CLASSES.iter().position(|&class_size| size <= class_size)]. *)
Fixpoint position (size : Z) (classes : list Z) : option nat :=
  match classes with
  | [] => None
  | class_size :: rest => if size <=? class_size then Some O else S <$> position size rest
  end.
Definition SlabAllocator_get_pool_index (size : Z) : option nat := position size SIZE_CLASSES.

Definition SlabAllocator_alloc (size : Z) (s : SlabAllocator) : outcome (option Z * SlabAllocator) :=
  match SlabAllocator_get_pool_index size with
  | None => Ok (None, s)
  | Some pool_idx =>
      pool ← vec_index pool_idx (sl_pools s);
      match vec_pop pool with
      | None => Ok (None, s)
      | Some (ptr, pool) => Ok (Some ptr, mkSlab (<[pool_idx := pool]> (sl_pools s)))
      end
  end.

Definition slab_release (ptr size : Z) : M Mem unit :=
  match Layout_from_size_align size 8 with
  | Some layout => sys_dealloc ptr layout
  | None => mret tt
  end.

Definition SlabAllocator_dealloc (ptr size : Z) (s : SlabAllocator) : M Mem SlabAllocator :=
  match SlabAllocator_get_pool_index size with
  | None => _ ← slab_release ptr size; mret s
  | Some pool_idx =>
      pool ← lift (vec_index pool_idx (sl_pools s));
      if (length pool <? 64)%nat
      then mret (mkSlab (<[pool_idx := vec_push ptr pool]> (sl_pools s)))
      else _ ← slab_release ptr size; mret s
  end.

(** ** Invariant

    [cap ptr] is the number of bytes behind [ptr].  A slab is well formed when it
    has one pool per class, no pool holds more than 64 blocks, and every block of
    a pool has room for the class of the pool. *)
Definition Slab_wf (cap : Z → Z) (s : SlabAllocator) : Prop :=
  length (sl_pools s) = length SIZE_CLASSES ∧
  ∀ i pool class, sl_pools s !! i = Some pool → SIZE_CLASSES !! i = Some class →
    (length pool ≤ 64)%nat ∧ Forall (λ p, class ≤ cap p) pool.

(** The class a size belongs to. *)
Definition class_of (size : Z) : option Z :=
  i ← SlabAllocator_get_pool_index size; SIZE_CLASSES !! i.

(** ** Lemmas *)
Lemma position_spec size classes i :
  position size classes = Some i →
  (∃ c, classes !! i = Some c ∧ size ≤ c) ∧ (∀ j c, (j < i)%nat → classes !! j = Some c → c < size).
Proof.
  revert i. induction classes as [|c cs IH]; intros i; simpl; [done|].
  destruct (Z.leb_spec size c).
  - intros [= <-]. split; [by exists c|]. intros; lia.
  - destruct (position size cs) as [j|] eqn:E; simpl; [|done]. intros [= <-].
    destruct (IH j eq_refl) as [Hc Hlt]. split; [done|].
    intros [|j'] c' Hj Hl; simplify_eq/=; [lia|]. eapply Hlt; [|done]. lia.
Qed.

Lemma position_None size classes : position size classes = None → Forall (λ c, c < size) classes.
Proof.
  induction classes as [|c cs IH]; simpl; [by constructor|].
  destruct (Z.leb_spec size c); [done|]. destruct (position size cs); [done|].
  intros _. constructor; [lia|auto].
Qed.

Lemma get_pool_index_lookup size i :
  SlabAllocator_get_pool_index size = Some i →
  (i < length SIZE_CLASSES)%nat ∧ ∃ c, SIZE_CLASSES !! i = Some c ∧ size ≤ c ∧ class_of size = Some c.
Proof.
  intros H. destruct (position_spec size SIZE_CLASSES i H) as [(c & Hl & Hle) _].
  split; [by eapply lookup_lt_Some|]. exists c. unfold class_of. rewrite H. done.
Qed.

Lemma Slab_wf_pool cap s i : Slab_wf cap s → (i < length SIZE_CLASSES)%nat → is_Some (sl_pools s !! i).
Proof. intros [Hl _] Hi. apply lookup_lt_is_Some_2. lia. Qed.

Lemma Slab_wf_update cap s i class pool :
  Slab_wf cap s → SIZE_CLASSES !! i = Some class → (length pool ≤ 64)%nat →
  Forall (λ p, class ≤ cap p) pool → Slab_wf cap (mkSlab (<[i := pool]> (sl_pools s))).
Proof.
  intros [Hl Hw] Hc Hlen Hf. split; simpl; [by rewrite length_insert|].
  intros j pool' class' Hj Hc'. destruct (decide (i = j)) as [<-|Hne].
  - assert (i < length (sl_pools s))%nat by (apply lookup_lt_Some in Hc; lia).
    rewrite list_lookup_insert_eq in Hj by done. by simplify_eq.
  - rewrite list_lookup_insert_ne in Hj by done. eauto.
Qed.

(** ** Theorems *)

(** [get_pool_index] picks the smallest size class that holds the request,
    and fails exactly for requests above the largest class, 4096. *)
Theorem get_pool_index_least size :
  match SlabAllocator_get_pool_index size with
  | Some i => (∃ c, SIZE_CLASSES !! i = Some c ∧ size ≤ c) ∧
              (∀ j c, (j < i)%nat → SIZE_CLASSES !! j = Some c → c < size)
  | None => 4096 < size
  end.
Proof.
  unfold SlabAllocator_get_pool_index. destruct (position size SIZE_CLASSES) as [i|] eqn:E.
  - by apply position_spec.
  - apply position_None in E. rewrite Forall_lookup in E. by apply (E 9%nat).
Qed.

(** A slab whose blocks all have room for the class of their pool hands out,
    for every request, either nothing or a block with room for the request, and
    stays well formed; giving back a block with room for the class of its size
    keeps the slab well formed and the next request of that class gets that
    block.  None of the calls panics. *)
Theorem Slab_blocks_big_enough cap s size :
  Slab_wf cap s →
  (∃ r s', SlabAllocator_alloc size s = Ok (r, s') ∧ Slab_wf cap s' ∧
     ∀ p, r = Some p → size ≤ cap p) ∧
  (∀ m ptr i c pool, SlabAllocator_get_pool_index size = Some i → class_of size = Some c →
     c ≤ cap ptr → sl_pools s !! i = Some pool → (length pool < 64)%nat →
     ∃ s', SlabAllocator_dealloc ptr size s m = (Ok s', m) ∧ Slab_wf cap s' ∧
       SlabAllocator_alloc size s' = Ok (Some ptr, s)).
Proof.
  intros Hw. split.
  - unfold SlabAllocator_alloc. destruct (SlabAllocator_get_pool_index size) as [i|] eqn:Ei.
    2:{ exists None, s. done. }
    destruct (get_pool_index_lookup size i Ei) as (Hi & c & Hc & Hle & _).
    destruct (Slab_wf_pool cap s i Hw Hi) as [pool Hp]. unfold vec_index. rewrite Hp. mrun.
    destruct (proj2 Hw i pool c Hp Hc) as [Hlen Hf].
    destruct (vec_pop pool) as [[p pool']|] eqn:Hpop; [|by exists None, s].
    apply vec_pop_Some in Hpop as ->. rewrite length_app in Hlen. apply Forall_app in Hf as [Hf Hp1]. rewrite Forall_singleton in Hp1.
    eexists _, _. split; [done|]. split; [|intros ? [= <-]; lia].
    eapply Slab_wf_update; [done|done|simpl in Hlen; lia|done].
  - intros m ptr i c pool Ei Hcl Hcap Hp Hlen.
    destruct (get_pool_index_lookup size i Ei) as (Hi & c' & Hc & _ & Hcl'). simplify_eq.
    destruct (proj2 Hw i pool c Hp Hc) as [_ Hf].
    exists (mkSlab (<[i := vec_push ptr pool]> (sl_pools s))).
    unfold SlabAllocator_dealloc, SlabAllocator_alloc, vec_index. rewrite Ei. mrun. rewrite Hp.
    assert ((length pool <? 64)%nat = true) as -> by (by apply Nat.ltb_lt). split; [done|]. split.
    + eapply Slab_wf_update; [done|done| |]; unfold vec_push.
      * rewrite length_app. simpl. lia.
      * apply Forall_app. split; [done|]. by apply Forall_singleton.
    + rewrite list_lookup_insert_eq by (by eapply lookup_lt_Some).
      rewrite vec_pop_push, list_insert_insert_eq, list_insert_id by done. by destruct s.
Qed.

Lemma Slab_blocks_big_enough_witness :
  Slab_wf (λ _, 4096) SlabAllocator_new ∧
  ∃ r s', SlabAllocator_alloc 24 SlabAllocator_new = Ok (r, s') ∧ Slab_wf (λ _, 4096) s' ∧
     ∀ p, r = Some p → 24 ≤ 4096.
Proof.
  assert (Slab_wf (λ _, 4096) SlabAllocator_new) as Hw.
  { split; [reflexivity|]. intros i pool class Hi _. unfold SlabAllocator_new in Hi. simpl in Hi.
    do 10 (destruct i as [|i]; [simpl in Hi; injection Hi as <-; split; [simpl; lia|constructor]|]). discriminate Hi. }
  split; [exact Hw|]. exact (proj1 (@Slab_blocks_big_enough (λ _, 4096) SlabAllocator_new 24 Hw)).
Defined.

(** The pools are keyed by the class, but a block is filed under the size it
    is given back with: a 5-byte block given back is handed out for an 8-byte
    request, so the slab is only safe for blocks allocated at class size. *)
Theorem slab_undersized_block ptr m :
  ∃ s, SlabAllocator_dealloc ptr 5 SlabAllocator_new m = (Ok s, m) ∧
       SlabAllocator_alloc 8 s = Ok (Some ptr, SlabAllocator_new).
Proof. eexists. split; reflexivity. Qed.
