(* ===== verification/Pools.v ===== *)
(** * Pools: the two object pools

    [Pool<T>] of src/lib.rs (slots and a free list of indices, the crate's
    public [Pool]) and [Pool<T>] of src/arena.rs ([ObjectPool], a stack of
    recycled objects).  A [Pooled] handle of the first is the index it holds; a
    handle of the second is the value it holds. *)
From S2P Require Import Prelude.
Local Open Scope Z_scope.

(** ** [Pool] of lib.rs *)
Record Pool (T : Type) := mkPool {
  pl_storage : list (option T);
  pl_free : list nat;
  pl_in_use : Z
}.
Arguments mkPool {T} _ _ _.
Arguments pl_storage {T} _.
Arguments pl_free {T} _.
Arguments pl_in_use {T} _.

Record PoolStats := mkPoolStats { ps_capacity : nat; ps_in_use : Z; ps_free : nat }.

Section pool.
Context `{cfg : Cfg} {T : Type}.
Implicit Types (p : Pool T) (v : T) (i : nat).

Definition Pool_with_capacity (capacity : nat) : Pool T :=
  mkPool (replicate capacity None) (seq 0 capacity) 0.
Definition Pool_new : Pool T := Pool_with_capacity 0.

Definition Pool_alloc (v : T) (p : Pool T) : outcome (nat * Pool T) :=
  let '(index, storage, free) :=
    match vec_pop (pl_free p) with
    | Some (i, free) => (i, pl_storage p, free)
    | None => (length (pl_storage p), vec_push None (pl_storage p), pl_free p)
    end in
  old ← (if debug_assertions then vec_index index storage else Ok None);
  _ ← match old with Some _ => Panic "assertion failed: inner.storage[index].is_none()" | None => Ok tt end;
  storage ← vec_set index (Some v) storage;
  in_use ← usize_add (pl_in_use p) 1;
  Ok (index, mkPool storage free in_use).

Definition Pool_stats (p : Pool T) : PoolStats :=
  mkPoolStats (length (pl_storage p)) (pl_in_use p) (length (pl_free p)).

(** [Pool::put_back], called by the [Drop] of a handle. *)
Definition Pool_put_back (i : nat) (p : Pool T) : outcome (Pool T) :=
  slot ← vec_index i (pl_storage p);
  match slot with
  | Some _ =>
      storage ← vec_set i None (pl_storage p);
      in_use ← usize_sub (pl_in_use p) 1;
      Ok (mkPool storage (vec_push i (pl_free p)) in_use)
  | None => Ok p
  end.

Definition Pooled_drop (i : nat) (p : Pool T) : outcome (Pool T) := Pool_put_back i p.
Definition Pooled_deref (i : nat) (p : Pool T) : outcome T :=
  slot ← vec_index i (pl_storage p);
  match slot with
  | Some v => Ok v
  | None => Panic "pooled slot empty"
  end.

(** [*handle = v] through [DerefMut]. *)
Definition Pooled_deref_mut (i : nat) (v : T) (p : Pool T) : outcome (Pool T) :=
  slot ← vec_index i (pl_storage p);
  match slot with
  | Some _ =>
      storage ← vec_set i (Some v) (pl_storage p);
      Ok (mkPool storage (pl_free p) (pl_in_use p))
  | None => Panic "pooled slot empty"
  end.

(** ** The contract: a finite map from live handles to values *)
Definition Pool_abs (p : Pool T) : gmap nat T := omap id (map_seq 0 (pl_storage p)).

Definition full (x : option T) : nat := match x with Some _ => 1 | None => 0 end.
Fixpoint live_count (l : list (option T)) : nat :=
  match l with
  | [] => 0
  | x :: l => full x + live_count l
  end.

(** The free list names every empty slot once, and nothing else; [in_use] counts
    the full slots. *)
Definition Pool_wf (p : Pool T) : Prop :=
  NoDup (pl_free p) ∧
  (∀ i, i ∈ pl_free p ↔ pl_storage p !! i = Some None) ∧
  pl_in_use p = Z.of_nat (live_count (pl_storage p)).

(** ** Lemmas *)
Lemma Pool_abs_lookup p i : Pool_abs p !! i = (pl_storage p !! i) ≫= id.
Proof. unfold Pool_abs. rewrite lookup_omap, lookup_map_seq_0. done. Qed.

Lemma live_count_app l1 l2 : live_count (l1 ++ l2) = (live_count l1 + live_count l2)%nat.
Proof. induction l1; simpl; lia. Qed.

Lemma live_count_insert i (x y : option T) (l : list (option T)) :
  l !! i = Some y →
  (live_count (<[i := x]> l) + full y = live_count l + full x)%nat.
Proof.
  revert i. induction l as [|z l IH]; intros [|i] Hl; simplify_eq/=; [lia|].
  specialize (IH i Hl). lia.
Qed.

Lemma live_count_replicate n : live_count (replicate n None) = 0%nat.
Proof. induction n; simpl; auto. Qed.

Lemma live_count_le l : (live_count l ≤ length l)%nat.
Proof. induction l as [|[] l IH]; simpl; lia. Qed.

Lemma Pool_with_capacity_wf n : Pool_wf (Pool_with_capacity n).
Proof.
  split_and!; simpl; [apply NoDup_seq| |by rewrite live_count_replicate].
  intros i. rewrite elem_of_seq, lookup_replicate. naive_solver lia.
Qed.

Lemma Pool_slot_wf p i v :
  Pool_wf p → pl_storage p !! i = Some (Some v) → 1 ≤ pl_in_use p.
Proof.
  intros (_ & _ & ->) Hi. pose proof (live_count_insert i None (Some v) _ Hi) as Hc. simpl in Hc. lia.
Qed.

Lemma Pool_abs_insert p i v free n :
  (i < length (pl_storage p))%nat →
  Pool_abs (mkPool (<[i := Some v]> (pl_storage p)) free n) = <[i := v]> (Pool_abs p).
Proof.
  intros Hi. apply map_eq. intros j. rewrite Pool_abs_lookup. simpl.
  rewrite list_lookup_insert, lookup_insert, Pool_abs_lookup.
  destruct (decide (i = j)) as [<-|Hne]; [by rewrite decide_True|].
  by rewrite decide_False by naive_solver.
Qed.

Lemma Pool_alloc_reuse p v i free :
  Pool_wf p → pl_free p = free ++ [i] → Z.of_nat (length (pl_storage p)) < USIZE_MAX →
  let p' := mkPool (<[i := Some v]> (pl_storage p)) free (pl_in_use p + 1) in
  Pool_alloc v p = Ok (i, p') ∧ Pool_wf p' ∧
  Pool_abs p !! i = None ∧ Pool_abs p' = <[i := v]> (Pool_abs p).
Proof.
  intros (Hnd & Hfree & Huse) Hpop Hlen p'. pose proof (live_count_le (pl_storage p)).
  assert (pl_storage p !! i = Some None) as Hi by (apply Hfree; rewrite Hpop; set_solver).
  assert (i < length (pl_storage p))%nat by (by eapply lookup_lt_Some).
  split; [|split; [|split]].
  - unfold Pool_alloc. rewrite Hpop. change (free ++ [i]) with (vec_push i free).
    rewrite vec_pop_push. unfold vec_index, vec_set. rewrite Hi.
    destruct debug_assertions; mrun; rewrite usize_add_in by ulia; done.
  - rewrite Hpop in Hnd, Hfree. apply NoDup_app in Hnd as (Hnd & Hd & _).
    split_and!; simpl; [done| |pose proof (live_count_insert i (Some v) None _ Hi); simpl in *; lia].
    intros j. destruct (decide (i = j)) as [<-|Hne].
    + rewrite list_lookup_insert_eq by done. split; [|done]. intros Hin. exfalso. apply (Hd i Hin). set_solver.
    + rewrite list_lookup_insert_ne, <- Hfree by done. set_solver.
  - by rewrite Pool_abs_lookup, Hi.
  - by apply Pool_abs_insert.
Qed.

Lemma Pool_alloc_grow p v :
  Pool_wf p → pl_free p = [] → Z.of_nat (length (pl_storage p)) < USIZE_MAX →
  let p' := mkPool (pl_storage p ++ [Some v]) [] (pl_in_use p + 1) in
  let i := length (pl_storage p) in
  Pool_alloc v p = Ok (i, p') ∧ Pool_wf p' ∧
  Pool_abs p !! i = None ∧ Pool_abs p' = <[i := v]> (Pool_abs p).
Proof.
  intros (Hnd & Hfree & Huse) Hpop Hlen p' i. pose proof (live_count_le (pl_storage p)).
  assert (∀ j, pl_storage p !! j ≠ Some None) as Hno.
  { intros j Hj%Hfree. rewrite Hpop in Hj. by apply elem_of_nil in Hj. }
  split; [|split; [|split]].
  - unfold Pool_alloc, vec_index, vec_set, vec_push. rewrite Hpop, vec_pop_nil.
    rewrite list_lookup_middle by done.
    destruct debug_assertions; mrun; rewrite usize_add_in by ulia;
      rewrite insert_app_r_alt, Nat.sub_diag by done; done.
  - split_and!; simpl; [constructor| |rewrite live_count_app; simpl; lia].
    intros j. split; [by intros ?%elem_of_nil|]. intros Hj. exfalso.
    apply lookup_app_Some in Hj as [Hj|[_ Hj]]; [by apply (Hno j)|].
    destruct (j - length (pl_storage p))%nat; done.
  - by rewrite Pool_abs_lookup, lookup_ge_None_2.
  - apply map_eq. intros j. rewrite Pool_abs_lookup. simpl. rewrite lookup_insert.
    case_decide as Hj; [subst j; by rewrite list_lookup_middle|]. rewrite Pool_abs_lookup.
    destruct (decide (j < length (pl_storage p))%nat); [by rewrite lookup_app_l|].
    rewrite lookup_app_r by lia. rewrite (lookup_ge_None_2 (pl_storage p)) by lia.
    destruct (j - length (pl_storage p))%nat eqn:E; [lia|done].
Qed.

Lemma Pool_put_back_live p i v :
  Pool_wf p → pl_storage p !! i = Some (Some v) → pl_in_use p < USIZE_MOD →
  let p' := mkPool (<[i := None]> (pl_storage p)) (pl_free p ++ [i]) (pl_in_use p - 1) in
  Pool_put_back i p = Ok p' ∧ Pool_wf p' ∧ Pool_abs p' = delete i (Pool_abs p).
Proof.
  intros Hw Hi Hmax p'. pose proof (Pool_slot_wf p i v Hw Hi). destruct Hw as (Hnd & Hfree & Huse).
  assert (i < length (pl_storage p))%nat by (by eapply lookup_lt_Some).
  split; [|split].
  - unfold Pool_put_back, vec_index, vec_set. rewrite Hi. mrun. rewrite usize_sub_in by lia. done.
  - split_and!; simpl.
    + apply NoDup_app. split; [done|]. split; [|apply NoDup_singleton].
      intros j Hj%Hfree ->%list_elem_of_singleton. congruence.
    + intros j. rewrite elem_of_app, list_elem_of_singleton, Hfree, list_lookup_insert.
      destruct (decide (i = j)) as [<-|Hne]; [rewrite decide_True by done; naive_solver|].
      rewrite decide_False by naive_solver. naive_solver.
    + pose proof (live_count_insert i None (Some v) _ Hi). simpl in *. lia.
  - apply map_eq. intros j. rewrite Pool_abs_lookup. simpl.
    rewrite list_lookup_insert, lookup_delete, Pool_abs_lookup.
    destruct (decide (i = j)) as [<-|Hne]; [by rewrite decide_True by done|].
    rewrite decide_False by naive_solver. done.
Qed.

(** The free list accounts for every slot that is not full. *)
Lemma free_count (free : list nat) (l : list (option T)) :
  NoDup free → (∀ i, i ∈ free ↔ l !! i = Some None) →
  length l = (length free + live_count l)%nat.
Proof.
  revert free. induction l as [|x l IH] using rev_ind; intros free Hnd Hfree.
  { destruct free as [|j free]; [done|]. specialize (Hfree j). set_solver. }
  rewrite length_app, live_count_app. simpl. destruct x as [v|]; simpl.
  - rewrite (IH free Hnd); [lia|]. intros j. rewrite Hfree, lookup_app_Some. split; [|naive_solver].
    intros [?|[_ Hj]]; [done|]. destruct (j - length l)%nat; done.
  - assert (length l ∈ free) as (f1 & f2 & ->)%list_elem_of_split.
    { apply Hfree. by rewrite list_lookup_middle. }
    apply NoDup_app in Hnd as (Hn1 & Hd & (Hn2 & Hn3)%NoDup_cons).
    rewrite (IH (f1 ++ f2)); [rewrite !length_app; simpl; lia| |].
    + apply NoDup_app. set_solver.
    + intros j. assert (j ∈ f1 ++ f2 ↔ j ∈ f1 ++ length l :: f2 ∧ j ≠ length l) as -> by set_solver.
      rewrite Hfree, lookup_app_Some. split; [|intros Hj; split; [by left|apply lookup_lt_Some in Hj; lia]].
      intros [[?|[? Hj]] Hne]; [done|]. destruct (j - length l)%nat eqn:E; [lia|done].
Qed.

Lemma live_count_size (l : list (option T)) n :
  size (omap id (map_seq n l) : gmap nat T) = live_count l.
Proof.
  revert n. induction l as [|[v|] l IH]; intros n; simpl.
  - done.
  - rewrite omap_insert_Some with (y := v) by done.
    rewrite map_size_insert_None, IH; [done|].
    rewrite lookup_omap. apply bind_None. left. apply lookup_map_seq_None. lia.
  - rewrite omap_insert_None by done. rewrite delete_id, IH; [done|].
    rewrite lookup_omap. apply bind_None. left. apply lookup_map_seq_None. lia.
Qed.
End pool.

(** ** Theorems on [Pool] *)

(** C29: [Pool<T>] implements a finite map from live handles to values.  On a
    well-formed pool: [alloc] returns a handle that no live object uses, maps it
    to the value and changes no other object, whether it recycles a slot or
    grows; dereferencing a live handle yields exactly its value; writing through
    it changes only its value; dropping it removes exactly it; and [stats]
    reports as many objects in use as there are live handles, the remaining slots
    being free.  Every result is again well formed and nothing panics. *)
Theorem Pool_refines_map `{cfg : Cfg} {T} (p : Pool T) :
  Pool_wf p → Z.of_nat (length (pl_storage p)) < USIZE_MAX →
  (∀ v, ∃ i p', Pool_alloc v p = Ok (i, p') ∧ Pool_wf p' ∧
     Pool_abs p !! i = None ∧ Pool_abs p' = <[i := v]> (Pool_abs p)) ∧
  (∀ i v, Pool_abs p !! i = Some v →
     Pooled_deref i p = Ok v ∧
     (∀ w, ∃ p', Pooled_deref_mut i w p = Ok p' ∧ Pool_wf p' ∧ Pool_abs p' = <[i := w]> (Pool_abs p)) ∧
     (∃ p', Pool_put_back i p = Ok p' ∧ Pool_wf p' ∧ Pool_abs p' = delete i (Pool_abs p))) ∧
  ps_in_use (Pool_stats p) = Z.of_nat (size (Pool_abs p)) ∧
  (ps_capacity (Pool_stats p) = ps_free (Pool_stats p) + size (Pool_abs p))%nat.
Proof.
  intros Hw Hlen. pose proof Hw as (Hnd & Hfree & Huse).
  pose proof (live_count_le (pl_storage p)) as Hle. split; [|split; [|split]].
  - intros v. destruct (vec_pop (pl_free p)) as [[i free]|] eqn:Hpop.
    + apply vec_pop_Some in Hpop. eexists i, _. by apply Pool_alloc_reuse.
    + apply vec_pop_None in Hpop. eexists _, _. by apply Pool_alloc_grow.
  - intros i v Hi. rewrite Pool_abs_lookup in Hi.
    destruct (pl_storage p !! i) as [[x|]|] eqn:Hs; simplify_eq/=. split; [|split].
    + unfold Pooled_deref, vec_index. by rewrite Hs.
    + intros w. exists (mkPool (<[i := Some w]> (pl_storage p)) (pl_free p) (pl_in_use p)).
      assert (i < length (pl_storage p))%nat by (by eapply lookup_lt_Some).
      split; [unfold Pooled_deref_mut, vec_index, vec_set; by rewrite Hs|]. split; [|by apply Pool_abs_insert].
      split_and!; simpl; [done| |pose proof (live_count_insert i (Some w) _ _ Hs); simpl in *; lia].
      intros j. rewrite Hfree, list_lookup_insert. case_decide; naive_solver.
    + eexists. apply Pool_put_back_live with v; [done|done|ulia].
  - simpl. unfold Pool_abs. by rewrite live_count_size.
  - simpl. unfold Pool_abs. rewrite live_count_size.
    by apply free_count.
Qed.

Lemma Pool_refines_map_witness :
  let p := mkPool [Some 7; None; Some 9] [1%nat] 2 in
  Pool_wf p ∧ Pool_abs p !! 2%nat = Some 9 ∧
  ∃ p', @Pool_put_back cfg_dev Z 2 p = Ok p' ∧ Pool_wf p' ∧ Pool_abs p' = delete 2%nat (Pool_abs p).
Proof.
  intros p. assert (Pool_wf p) as Hw.
  { split; [repeat constructor; set_solver|]. split; [|reflexivity].
    intros [|[|[|i]]]; simpl; set_solver. }
  split; [exact Hw|]. split; [reflexivity|].
  edestruct (@Pool_refines_map cfg_dev Z p Hw) as (_ & Hlive & _); [simpl; ulia|].
  exact (proj2 (proj2 (Hlive 2%nat 9 eq_refl))).
Defined.

(** ** [Pool] of arena.rs, exported as [ObjectPool] *)
Record ObjectPoolStats := mkObjectPoolStats { op_allocations : Z; op_deallocations : Z; op_peak_usage : Z }.
Record ObjectPool (T : Type) := mkObjectPool { op_objects : list (option T); op_stats : ObjectPoolStats }.
Arguments mkObjectPool {T} _ _.
Arguments op_objects {T} _.
Arguments op_stats {T} _.

Section object_pool.
Context `{cfg : Cfg} {T : Type}.

Definition ObjectPool_new : ObjectPool T := mkObjectPool [] (mkObjectPoolStats 0 0 0).

(** The handle returned carries [value : Option<T>]. *)
Definition ObjectPool_alloc (value : T) (p : ObjectPool T) : outcome (option T * ObjectPool T) :=
  let '(obj, objects) :=
    match vec_pop (op_objects p) with
    | Some (obj, objects) => (obj, objects)
    | None => (Some value, op_objects p)
    end in
  let st := op_stats p in
  allocations ← usize_add (op_allocations st) 1;
  n ← usize_add (Z.of_nat (length objects)) 1;
  Ok (obj, mkObjectPool objects
        (mkObjectPoolStats allocations (op_deallocations st) (Z.max (op_peak_usage st) n))).

Definition PooledObject_deref (h : option T) : outcome T :=
  match h with
  | Some v => Ok v
  | None => Panic "called `Option::unwrap()` on a `None` value"
  end.

Definition PooledObject_drop (h : option T) (p : ObjectPool T) : outcome (ObjectPool T) :=
  match h with
  | Some value =>
      let st := op_stats p in
      deallocations ← usize_add (op_deallocations st) 1;
      Ok (mkObjectPool (vec_push (Some value) (op_objects p))
            (mkObjectPoolStats (op_allocations st) deallocations (op_peak_usage st)))
  | None => Ok p
  end.
End object_pool.

(** [ObjectPool::alloc] ignores the value it is given whenever the pool has
    a recycled object: after an object was returned, the next [alloc] yields the
    returned object and the value passed in is lost. *)
Theorem ObjectPool_alloc_stale `{cfg : Cfg} {T} (old new : T) (p : ObjectPool T) :
  0 ≤ op_allocations (op_stats p) < USIZE_MAX → 0 ≤ op_deallocations (op_stats p) < USIZE_MAX →
  Z.of_nat (length (op_objects p)) < USIZE_MAX →
  ∃ p1 h p2, PooledObject_drop (Some old) p = Ok p1 ∧ ObjectPool_alloc new p1 = Ok (h, p2) ∧
    PooledObject_deref h = Ok old ∧ op_objects p2 = op_objects p.
Proof.
  intros Ha Hd Hl. unfold PooledObject_drop, ObjectPool_alloc. mrun.
  rewrite usize_add_in by ulia. eexists _, _, _. split; [done|]. simpl.
  rewrite vec_pop_push. rewrite !usize_add_in by ulia. done.
Qed.

Lemma ObjectPool_alloc_stale_witness :
  ∃ p1 h p2, @PooledObject_drop cfg_dev Z (Some 3) ObjectPool_new = Ok p1 ∧
    @ObjectPool_alloc cfg_dev Z 5 p1 = Ok (h, p2) ∧ PooledObject_deref h = Ok 3 ∧ op_objects p2 = [].
Proof. apply (@ObjectPool_alloc_stale cfg_dev Z 3 5 ObjectPool_new); vm_compute; intuition discriminate. Defined.
