(* ===== verification/ThreadLocal.v ===== *)
(** * ThreadLocal: the per-thread cache of freed blocks

    src/thread_local.rs.  [ThreadCache] is the value of the thread-local
    [THREAD_CACHE]; the free functions of the file take and return it.  The
    [RefCell] around it is never borrowed twice (no operation calls another
    while it holds the borrow), so it has no counterpart here. *)
From S2P Require Import Prelude.
Local Open Scope Z_scope.

Definition THREAD_CACHE_SIZE : Z := 512.

Record CacheEntry := mkCacheEntry { ce_ptr : Z; ce_size : Z; ce_arena_id : Z }.
#[global] Instance CacheEntry_eq_dec : EqDecision CacheEntry.
Proof. solve_decision. Defined.

Record ThreadCache := mkThreadCache {
  tc_entries : list CacheEntry;
  tc_used : nat;
  tc_total_bytes : Z;
  tc_arena_id : Z
}.

Definition ThreadCache_new : ThreadCache :=
  mkThreadCache (replicate 16 (mkCacheEntry 0 0 0)) 0 0 0.

Definition ThreadCache_clear (c : ThreadCache) : ThreadCache :=
  mkThreadCache (tc_entries c) 0 0 (tc_arena_id c).

(** [if self.arena_id != arena_id { self.clear(); self.arena_id = arena_id; }] *)
Definition ThreadCache_switch (arena_id : Z) (c : ThreadCache) : ThreadCache :=
  if tc_arena_id c =? arena_id then c
  else mkThreadCache (tc_entries c) 0 0 arena_id.

(** [self.entries[i - clear_count] = self.entries[i]] for [i] in the range [idxs]. *)
Fixpoint shift_entries (clear_count : nat) (idxs : list nat) (es : list CacheEntry)
    : outcome (list CacheEntry) :=
  match idxs with
  | [] => Ok es
  | i :: idxs =>
      e ← vec_index i es;
      es ← vec_set (i - clear_count) e es;
      shift_entries clear_count idxs es
  end.

Definition ThreadCache_clear_partial (c : ThreadCache) : outcome ThreadCache :=
  let clear_count := (tc_used c / 2)%nat in
  es ← shift_entries clear_count (seq clear_count (tc_used c - clear_count)) (tc_entries c);
  Ok (mkThreadCache es (tc_used c - clear_count) (tc_total_bytes c `div` 2) (tc_arena_id c)).

Section cache.
Context `{cfg : Cfg}.

(** The loop of [alloc] over [i] in [0..self.used].  The entry is removed before
    the byte count is updated, so the removal survives the panic of a checked
    build when the count underflows. *)
Fixpoint ThreadCache_find (idxs : list nat) (size arena_id : Z) : M ThreadCache (option Z) :=
  match idxs with
  | [] => mret None
  | i :: idxs =>
      c ← get;
      e ← lift (vec_index i (tc_entries c));
      if (size <=? ce_size e) && (ce_arena_id e =? arena_id) then
        last ← lift (vec_index (tc_used c - 1) (tc_entries c));
        es ← lift (vec_set i last (tc_entries c));
        _ ← put (mkThreadCache es (tc_used c - 1) (tc_total_bytes c) (tc_arena_id c));
        total ← lift (usize_sub (tc_total_bytes c) size);
        _ ← put (mkThreadCache es (tc_used c - 1) total (tc_arena_id c));
        mret (Some (ce_ptr e))
      else ThreadCache_find idxs size arena_id
  end.

Definition ThreadCache_alloc (size arena_id : Z) : M ThreadCache (option Z) :=
  _ ← modify (ThreadCache_switch arena_id);
  used ← gets tc_used;
  ThreadCache_find (seq 0 used) size arena_id.

(** [self.used >= self.entries.len() || self.total_bytes + size > THREAD_CACHE_SIZE]. *)
Definition ThreadCache_full (size : Z) (c : ThreadCache) : outcome bool :=
  if (length (tc_entries c) <=? tc_used c)%nat then Ok true
  else total ← usize_add (tc_total_bytes c) size; Ok (THREAD_CACHE_SIZE <? total).

Definition ThreadCache_dealloc (ptr size arena_id : Z) : M ThreadCache unit :=
  _ ← modify (ThreadCache_switch arena_id);
  c ← get;
  full ← lift (ThreadCache_full size c);
  _ ← match full with
      | true => c' ← lift (ThreadCache_clear_partial c); put c'
      | false => mret tt
      end;
  c ← get;
  full ← lift (ThreadCache_full size c);
  match full with
  | true => mret tt
  | false =>
      es ← lift (vec_set (tc_used c) (mkCacheEntry ptr size arena_id) (tc_entries c));
      _ ← put (mkThreadCache es (S (tc_used c)) (tc_total_bytes c) (tc_arena_id c));
      total ← lift (usize_add (tc_total_bytes c) size);
      put (mkThreadCache es (S (tc_used c)) total (tc_arena_id c))
  end.

(** ** The free functions *)
Definition try_thread_local_alloc (arena_id size align : Z) : M ThreadCache (option Z) :=
  ThreadCache_alloc size arena_id.
Definition thread_local_dealloc (ptr size arena_id : Z) : M ThreadCache unit :=
  ThreadCache_dealloc ptr size arena_id.
Definition reset_thread_cache : M ThreadCache unit := modify ThreadCache_clear.
Definition clear_thread_cache : M ThreadCache unit := reset_thread_cache.
Definition cleanup_thread_cache (arena_id : Z) : M ThreadCache unit :=
  modify (λ c, if tc_arena_id c =? arena_id then ThreadCache_clear c else c).

(** ** [ThreadLocalCache], the per-arena front end *)
Record ThreadLocalCache := mkThreadLocalCache { tlc_arena_id : Z; tlc_enabled : bool }.
Definition ThreadLocalCache_new (arena_id : Z) : ThreadLocalCache := mkThreadLocalCache arena_id true.
Definition ThreadLocalCache_enable (t : ThreadLocalCache) := mkThreadLocalCache (tlc_arena_id t) true.
Definition ThreadLocalCache_disable (t : ThreadLocalCache) := mkThreadLocalCache (tlc_arena_id t) false.
Definition ThreadLocalCache_try_alloc (t : ThreadLocalCache) (size align : Z) : M ThreadCache (option Z) :=
  if negb (tlc_enabled t) || (512 <? size) then mret None
  else try_thread_local_alloc (tlc_arena_id t) size align.
Definition ThreadLocalCache_dealloc (t : ThreadLocalCache) (ptr size : Z) : M ThreadCache unit :=
  if negb (tlc_enabled t) || (512 <? size) then mret tt
  else thread_local_dealloc ptr size (tlc_arena_id t).
Definition ThreadLocalCache_reset (t : ThreadLocalCache) : M ThreadCache unit :=
  if tlc_enabled t then reset_thread_cache else mret tt.
End cache.

(** ** [ThreadLocalStats] *)
Record ThreadLocalStats := mkThreadLocalStats {
  tls_cache_hits : Z; tls_cache_misses : Z; tls_cache_allocations : Z; tls_cache_deallocations : Z
}.
Definition ThreadLocalStats_new : ThreadLocalStats := mkThreadLocalStats 0 0 0 0.
Definition ThreadLocalStats_record_hit (s : ThreadLocalStats) : ThreadLocalStats :=
  mkThreadLocalStats (fetch_add (tls_cache_hits s) 1) (tls_cache_misses s) (tls_cache_allocations s) (tls_cache_deallocations s).
Definition ThreadLocalStats_record_miss (s : ThreadLocalStats) : ThreadLocalStats :=
  mkThreadLocalStats (tls_cache_hits s) (fetch_add (tls_cache_misses s) 1) (tls_cache_allocations s) (tls_cache_deallocations s).
Definition ThreadLocalStats_record_allocation (s : ThreadLocalStats) : ThreadLocalStats :=
  mkThreadLocalStats (tls_cache_hits s) (tls_cache_misses s) (fetch_add (tls_cache_allocations s) 1) (tls_cache_deallocations s).
Definition ThreadLocalStats_record_deallocation (s : ThreadLocalStats) : ThreadLocalStats :=
  mkThreadLocalStats (tls_cache_hits s) (tls_cache_misses s) (tls_cache_allocations s) (fetch_add (tls_cache_deallocations s) 1).
Definition ThreadLocalStats_get (s : ThreadLocalStats) : Z * Z * Z * Z :=
  (tls_cache_hits s, tls_cache_misses s, tls_cache_allocations s, tls_cache_deallocations s).

(** ** Invariant *)

(** The blocks the cache holds. *)
Definition tc_live (c : ThreadCache) : list CacheEntry := take (tc_used c) (tc_entries c).

Definition ThreadCache_wf (c : ThreadCache) : Prop :=
  length (tc_entries c) = 16%nat ∧ (tc_used c ≤ 16)%nat ∧
  Forall (λ e, ce_arena_id e = tc_arena_id c) (tc_live c).

(** ** Lemmas *)
Lemma vec_index_in {A} i (l : list A) x : l !! i = Some x → vec_index i l = Ok x.
Proof. unfold vec_index. by intros ->. Qed.

Lemma vec_set_in {A} i (x : A) l : (i < length l)%nat → vec_set i x l = Ok (<[i := x]> l).
Proof. intros Hi. unfold vec_set. apply lookup_lt_is_Some_2 in Hi as [y ->]. done. Qed.

Lemma ThreadCache_switch_wf id c :
  ThreadCache_wf c → ThreadCache_wf (ThreadCache_switch id c) ∧ tc_arena_id (ThreadCache_switch id c) = id.
Proof.
  intros (Hl & Hu & Hf). unfold ThreadCache_switch. destruct (Z.eqb_spec (tc_arena_id c) id); [done|].
  split; [|done]. split_and!; simpl; [done|lia|]. unfold tc_live. simpl. constructor.
Qed.

(** Removing entry [i] by moving the last live entry into its place. *)
Lemma swap_remove {A} (es : list A) n i e last :
  (n < length es)%nat → (i ≤ n)%nat → es !! i = Some e → es !! n = Some last →
  take (S n) es ≡ₚ e :: take n (<[i := last]> es).
Proof.
  intros Hn Hi Hei Hel. rewrite (take_S_r es n last Hel).
  destruct (decide (i = n)) as [->|Hne].
  - simplify_eq. rewrite take_insert_ge by done. rewrite Permutation_app_comm. done.
  - rewrite take_insert_lt by lia.
    assert (take n es !! i = Some e) as Ht by (rewrite lookup_take_lt by lia; done).
    rewrite insert_take_drop by (rewrite length_take; lia).
    rewrite <- (take_drop_middle (take n es) i e Ht) at 1.
    rewrite <- app_assoc. simpl. rewrite (Permutation_app_comm _ [last]). solve_Permutation.
Qed.

Lemma shift_entries_spec cc k n es :
  (cc + k + n ≤ length es)%nat →
  shift_entries cc (seq (cc + k) n) es =
    Ok (take k es ++ take n (drop (cc + k) es) ++ drop (k + n) es).
Proof.
  revert k es. induction n as [|n IH]; intros k es Hlen; simpl.
  { by rewrite Nat.add_0_r, take_drop. }
  destruct (lookup_lt_is_Some_2 es (cc + k)) as [e He]; [lia|].
  rewrite (vec_index_in _ _ e He). mrun.
  replace (cc + k - cc)%nat with k by lia. rewrite vec_set_in by lia.
  rewrite <- Nat.add_succ_r. rewrite IH by (rewrite length_insert; lia). f_equal.
  rewrite (take_S_r _ k e) by (rewrite list_lookup_insert_eq by lia; done).
  rewrite take_insert_ge, !drop_insert_lt by lia.
  rewrite (drop_S es e (cc + k)) by done. simpl. rewrite <- app_assoc. simpl.
  by rewrite !Nat.add_succ_r.
Qed.

Lemma ThreadCache_clear_partial_spec c :
  length (tc_entries c) = 16%nat → (tc_used c ≤ 16)%nat →
  ∃ c', ThreadCache_clear_partial c = Ok c' ∧ length (tc_entries c') = 16%nat ∧
    tc_used c' = (tc_used c - tc_used c / 2)%nat ∧ tc_arena_id c' = tc_arena_id c ∧
    tc_total_bytes c' = tc_total_bytes c `div` 2 ∧
    tc_live c' = drop (tc_used c / 2) (tc_live c).
Proof.
  intros Hl Hu. unfold ThreadCache_clear_partial. set (cc := (tc_used c / 2)%nat).
  assert (cc ≤ tc_used c)%nat by (apply Nat.Div0.div_le_upper_bound; lia).
  pose proof (shift_entries_spec cc 0 (tc_used c - cc) (tc_entries c)) as Hs.
  rewrite Nat.add_0_r in Hs. rewrite Hs by lia. mrun. eexists. split; [done|]. simpl.
  split; [rewrite length_app, length_take, !length_drop; lia|].
  split_and!; [done..|]. unfold tc_live. simpl.
  rewrite take_app_le by (rewrite length_take, length_drop; lia).
  rewrite take_take, Nat.min_id, skipn_firstn_comm. done.
Qed.

Section spec.
Context `{cfg : Cfg}.

Lemma ThreadCache_find_spec j n size id c r c' :
  ThreadCache_wf c → tc_arena_id c = id → (j + n = tc_used c)%nat →
  ThreadCache_find (seq j n) size id c = (Ok r, c') →
  match r with
  | None => c' = c ∧ Forall (λ e, ce_size e < size) (drop j (tc_live c))
  | Some p => ThreadCache_wf c' ∧ tc_arena_id c' = id ∧
      ∃ e, ce_ptr e = p ∧ size ≤ ce_size e ∧ tc_live c ≡ₚ e :: tc_live c'
  end.
Proof.
  intros Hw Hid. pose proof Hw as (Hl & Hu & Hf). revert j. induction n as [|n IH]; intros j Hj; simpl.
  { intros [= <- <-]. split; [done|]. rewrite drop_ge; [constructor|].
    unfold tc_live. rewrite length_take. lia. }
  destruct (lookup_lt_is_Some_2 (tc_entries c) j) as [e He]; [lia|].
  mrun. rewrite (vec_index_in _ _ e He). mrun.
  assert (tc_live c !! j = Some e) as Hlive by (unfold tc_live; rewrite lookup_take_lt by lia; done).
  assert (ce_arena_id e = id) as He_id by (rewrite Forall_lookup in Hf; rewrite <- Hid; eauto).
  rewrite He_id, Z.eqb_refl, andb_true_r. destruct (Z.leb_spec size (ce_size e)).
  - destruct (lookup_lt_is_Some_2 (tc_entries c) (tc_used c - 1)) as [lst Hlst]; [lia|].
    rewrite (vec_index_in _ _ lst Hlst), vec_set_in by lia.
    destruct (usize_sub _ _) as [total| | |]; [|done..]. intros [= <- <-].
    assert (tc_live c ≡ₚ e :: take (tc_used c - 1) (<[j := lst]> (tc_entries c))) as Hp.
    { unfold tc_live. replace (tc_used c) with (S (tc_used c - 1)) at 1 by lia. apply swap_remove; [lia|lia|done|done]. }
    split; [|split; [done|]]; [|by exists e].
    split_and!; simpl; [by rewrite length_insert|lia|].
    unfold tc_live at 1. simpl. rewrite Hp in Hf. by apply Forall_cons in Hf as [_ Hf].
  - intros Hfind. specialize (IH (S j) ltac:(lia) Hfind). destruct r as [p|]; [done|].
    destruct IH as [-> Hd]. split; [done|]. rewrite (drop_S (tc_live c) e j) by done. by constructor.
Qed.
End spec.

(** ** Theorems *)

(** C34: [ThreadCache::alloc] never hands out a block twice and never one that is
    too small.  Whenever it returns a pointer, the cache belonged to the arena
    that asks, the pointer is that of a cached entry with at least the requested
    size, and the cache now holds exactly the other entries.  When it returns
    nothing, no cached entry of that arena is large enough, and a cache of
    another arena has been emptied. *)
Theorem ThreadCache_alloc_spec `{cfg : Cfg} c size id r c' :
  ThreadCache_wf c → ThreadCache_alloc size id c = (Ok r, c') →
  ThreadCache_wf c' ∧ tc_arena_id c' = id ∧
  match r with
  | Some p => tc_arena_id c = id ∧
      ∃ e, ce_ptr e = p ∧ size ≤ ce_size e ∧ ce_arena_id e = id ∧ tc_live c ≡ₚ e :: tc_live c'
  | None => tc_live c' = (if tc_arena_id c =? id then tc_live c else []) ∧
      Forall (λ e, ce_size e < size) (tc_live c')
  end.
Proof.
  intros Hw. unfold ThreadCache_alloc. mrun. pose proof (ThreadCache_switch_wf id c Hw) as [Hw' Hid].
  intros Hfind. pose proof (ThreadCache_find_spec 0 _ _ _ _ _ _ Hw' Hid eq_refl Hfind) as H.
  revert H Hw' Hid Hfind. unfold ThreadCache_switch. destruct (Z.eqb_spec (tc_arena_id c) id) as [<-|Hne].
  - destruct r as [p|]; intros H Hw' Hid Hfind.
    + destruct H as (Hwc & Hidc & e & Hp & Hs & Hperm). split_and!; [done..|].
      exists e. split_and!; [done..| |done]. destruct Hw as (_ & _ & Hf). rewrite Hperm in Hf.
      by apply Forall_cons in Hf as [? _].
    + destruct H as [-> Hd]. done.
  - simpl. intros H Hw' Hid [= <- <-]. split_and!; [done..|]. unfold tc_live. simpl. constructor.
Qed.

Lemma ThreadCache_alloc_spec_witness :
  let c := mkThreadCache (mkCacheEntry 4096 8 3 :: mkCacheEntry 4200 64 3 :: replicate 14 (mkCacheEntry 0 0 0)) 2 72 3 in
  ThreadCache_wf c ∧
  ∃ c', @ThreadCache_alloc cfg_dev 32 3 c = (Ok (Some 4200), c') ∧ tc_live c ≡ₚ mkCacheEntry 4200 64 3 :: tc_live c'.
Proof.
  intros c. assert (ThreadCache_wf c) as Hw by (split_and!; [reflexivity|simpl; lia|repeat constructor]).
  split; [exact Hw|]. eexists. split; [vm_compute; reflexivity|].
  destruct (@ThreadCache_alloc_spec cfg_dev c 32 3 (Some 4200) _ Hw eq_refl) as (_ & _ & _ & e & He & _ & _ & Hp).
  assert (e = mkCacheEntry 4200 64 3) as ->; [|exact Hp].
  assert (e ∈ tc_live c) as Hin by (rewrite Hp; constructor).
  unfold tc_live in Hin. simpl in Hin. set_solver.
Defined.

(** The byte count of the cache is not the size of what it holds:
    [clear_partial] halves it whatever the entries it keeps weigh.  Three
    deallocations and one allocation, all within the cache's own limits, then
    subtract more than the count: a checked build panics after it has already
    removed the entry (the block is lost), a release build wraps the count around
    to almost [usize::MAX]. *)
Theorem thread_cache_total_underflow `{cfg : Cfg} :
  let prog : M ThreadCache (option Z) :=
    _ ← ThreadCache_dealloc 4096 1 7;
    _ ← ThreadCache_dealloc 8192 511 7;
    _ ← ThreadCache_dealloc 12288 100 7;
    ThreadCache_alloc 511 7 in
  match prog ThreadCache_new with
  | (Ok r, c) => overflow_checks = false ∧ r = Some 8192 ∧ tc_total_bytes c = USIZE_MOD - 155
  | (Panic msg, c) => overflow_checks = true ∧ msg = "attempt to subtract with overflow" ∧
                      Forall (λ e, ce_ptr e ≠ 8192) (tc_live c)
  | _ => False
  end.
Proof.
  destruct cfg as [oc da f1 f2 f3 f4 f5 f6 f7]. destruct oc; vm_compute; split_and!;
    first [reflexivity | by repeat constructor].
Qed.
