(* ===== verification/LockFree.v ===== *)
(** * LockFree: the small-object buffer with per-thread slabs

    [LockFreeStats], [ThreadSlab], [LockFreeBuffer] and [LockFreeAllocator] of
    src/lockfree.rs, as one thread runs them.  [lf_self] is the address of the
    [LockFreeBuffer] object, which the code uses as the slab's owner.  The state
    of an operation is the buffer, the calling thread's [THREAD_SLAB] and the
    memory. *)
From S2P Require Import Prelude Memory Bump.
Local Open Scope Z_scope.

Definition LOCKFREE_BUFFER_SIZE : Z := 4096.
Definition LOCKFREE_ALIGNMENT : Z := 64.
Definition MAX_LOCKFREE_ALLOCATION : Z := 1024.
Definition SLAB_MIN_BLOCK : Z := 256.

(** ** Statistics *)
Record LockFreeStats := mkLockFreeStats {
  ls_allocations : Z; ls_cache_hits : Z; ls_cache_misses : Z; ls_contention_events : Z
}.
Definition LockFreeStats_new : LockFreeStats := mkLockFreeStats 0 0 0 0.
Definition record_allocation (s : LockFreeStats) : LockFreeStats :=
  mkLockFreeStats (fetch_add (ls_allocations s) 1) (ls_cache_hits s) (ls_cache_misses s) (ls_contention_events s).
Definition record_cache_hit (s : LockFreeStats) : LockFreeStats :=
  mkLockFreeStats (ls_allocations s) (fetch_add (ls_cache_hits s) 1) (ls_cache_misses s) (ls_contention_events s).
Definition record_cache_miss (s : LockFreeStats) : LockFreeStats :=
  mkLockFreeStats (ls_allocations s) (ls_cache_hits s) (fetch_add (ls_cache_misses s) 1) (ls_contention_events s).
Definition record_contention (s : LockFreeStats) : LockFreeStats :=
  mkLockFreeStats (ls_allocations s) (ls_cache_hits s) (ls_cache_misses s) (fetch_add (ls_contention_events s) 1).
Definition record_deallocation (s : LockFreeStats) : LockFreeStats :=
  mkLockFreeStats (fetch_sub (ls_allocations s) 1) (ls_cache_hits s) (ls_cache_misses s) (ls_contention_events s).
Definition LockFreeStats_get (s : LockFreeStats) : Z * Z * Z * Z :=
  (ls_allocations s, ls_cache_hits s, ls_cache_misses s, ls_contention_events s).
Definition LockFreeStats_reset (s : LockFreeStats) : LockFreeStats := mkLockFreeStats 0 0 0 0.

(** ** [ThreadSlab] *)
Record ThreadSlab := mkThreadSlab {
  ts_owner : Z; ts_base : Z; ts_start : Z; ts_end : Z; ts_offset : Z; ts_generation : Z
}.
#[global] Instance ThreadSlab_eq_dec : EqDecision ThreadSlab.
Proof. solve_decision. Defined.

Definition ThreadSlab_new : ThreadSlab := mkThreadSlab 0 0 0 0 0 0.
Definition ThreadSlab_matches (owner generation : Z) (s : ThreadSlab) : bool :=
  (ts_owner s =? owner) && (ts_generation s =? generation) && negb (ts_base s =? 0).
Definition ThreadSlab_set_region (owner base start end_ generation : Z) (s : ThreadSlab) : ThreadSlab :=
  mkThreadSlab owner base start end_ start generation.
Definition ThreadSlab_invalidate (s : ThreadSlab) : ThreadSlab := mkThreadSlab 0 0 0 0 0 0.
Definition ThreadSlab_remaining (s : ThreadSlab) : Z :=
  if ts_base s =? 0 then 0 else saturating_sub (ts_end s) (ts_offset s).
Definition ThreadSlab_is_valid (s : ThreadSlab) : bool :=
  negb (ts_base s =? 0) && (ts_offset s <? ts_end s).

(** ** [LockFreeBuffer] *)
Record LockFreeBuffer := mkLockFreeBuffer {
  lf_self : Z;
  lf_buffer : Z;
  lf_offset : Z;
  lf_capacity : Z;
  lf_stats : LockFreeStats;
  lf_generation : Z
}.

Definition lf_set_offset (v : Z) (b : LockFreeBuffer) : LockFreeBuffer :=
  mkLockFreeBuffer (lf_self b) (lf_buffer b) v (lf_capacity b) (lf_stats b) (lf_generation b).
Definition lf_set_stats (f : LockFreeStats → LockFreeStats) (b : LockFreeBuffer) : LockFreeBuffer :=
  mkLockFreeBuffer (lf_self b) (lf_buffer b) (lf_offset b) (lf_capacity b) (f (lf_stats b)) (lf_generation b).
Definition lf_set_generation (v : Z) (b : LockFreeBuffer) : LockFreeBuffer :=
  mkLockFreeBuffer (lf_self b) (lf_buffer b) (lf_offset b) (lf_capacity b) (lf_stats b) v.

Record LF := mkLF { x_buf : LockFreeBuffer; x_slab : ThreadSlab; x_mem : Mem }.

Definition on_buf (f : LockFreeBuffer → LockFreeBuffer) : M LF unit :=
  modify (λ x, mkLF (f (x_buf x)) (x_slab x) (x_mem x)).
Definition set_slab (s : ThreadSlab) : M LF unit :=
  modify (λ x, mkLF (x_buf x) s (x_mem x)).

Section lockfree.
Context `{cfg : Cfg} `{ga : GlobalAlloc}.

Definition ThreadSlab_try_alloc (size align : Z) (s : ThreadSlab) : outcome (option Z * ThreadSlab) :=
  if ts_base s =? 0 then Ok (None, s) else
  aligned_offset ← align_up (ts_offset s) align;
  new_offset ← usize_add aligned_offset size;
  if new_offset <=? ts_end s then
    Ok (Some (ts_base s + aligned_offset),
        mkThreadSlab (ts_owner s) (ts_base s) (ts_start s) (ts_end s) new_offset (ts_generation s))
  else Ok (None, s).

Definition LockFreeBuffer_new (self : Z) : M Mem LockFreeBuffer :=
  match Layout_from_size_align LOCKFREE_BUFFER_SIZE LOCKFREE_ALIGNMENT with
  | Some layout =>
      ptr ← sys_alloc layout;
      mret (mkLockFreeBuffer self ptr 0 LOCKFREE_BUFFER_SIZE LockFreeStats_new 0)
  | None =>
      match Layout_from_size_align LOCKFREE_ALIGNMENT LOCKFREE_ALIGNMENT with
      | Some fallback =>
          ptr ← sys_alloc fallback;
          mret (mkLockFreeBuffer self ptr 0 LOCKFREE_ALIGNMENT LockFreeStats_new 0)
      | None => lift (Panic "lockfree fallback layout invalid")
      end
  end.

(** [LockFreeBuffer::allocate], compiled with [single_thread_fast] only. *)
Definition LockFreeBuffer_allocate (size align : Z) (b : LockFreeBuffer) : outcome (option Z * LockFreeBuffer) :=
  aligned_offset ← align_up (lf_offset b) align;
  new_offset ← usize_add aligned_offset size;
  if new_offset <=? lf_capacity b
  then Ok (Some (lf_buffer b + aligned_offset), lf_set_offset new_offset b)
  else Ok (None, b).

Definition LockFreeBuffer_try_thread_slab (size align : Z) : M LF (option Z) :=
  b ← gets x_buf;
  let owner := lf_self b in
  let generation := lf_generation b in
  slab ← gets x_slab;
  if negb (ThreadSlab_matches owner generation slab) then
    _ ← set_slab (ThreadSlab_invalidate slab); mret None
  else
    '(ptr, slab) ← lift (ThreadSlab_try_alloc size align slab);
    _ ← set_slab slab;
    mret ptr.

(** The loop of [refill_thread_slab_and_alloc].  [env] is what other threads do:
    its head is the value they leave in [offset] between this thread's load and
    its compare-exchange; with [env = []] nobody interferes. *)
Fixpoint LockFreeBuffer_refill_loop (env : list Z) (buffer_ptr block_size size align : Z) : M LF (option Z) :=
  current ← gets (lf_offset ∘ x_buf);
  start ← lift (align_up current LOCKFREE_ALIGNMENT);
  end_ ← lift (usize_add start block_size);
  capacity ← gets (lf_capacity ∘ x_buf);
  if capacity <? end_ then
    _ ← on_buf (lf_set_stats record_cache_miss); mret None
  else
    let commit :=
      _ ← on_buf (lf_set_offset end_);
      b ← gets x_buf;
      let generation := lf_generation b in
      slab ← gets x_slab;
      let slab := ThreadSlab_set_region (lf_self b) buffer_ptr start end_ generation slab in
      _ ← on_buf (lf_set_stats record_allocation);
      '(ptr, slab) ← lift (ThreadSlab_try_alloc size align slab);
      _ ← set_slab slab;
      mret ptr in
    match env with
    | [] => commit
    | v :: env =>
        _ ← on_buf (lf_set_offset v);
        if v =? current then commit
        else _ ← on_buf (lf_set_stats record_contention);
             LockFreeBuffer_refill_loop env buffer_ptr block_size size align
    end.

Definition LockFreeBuffer_refill_thread_slab_and_alloc (env : list Z) (size align : Z) : M LF (option Z) :=
  buffer_ptr ← gets (lf_buffer ∘ x_buf);
  if buffer_ptr =? 0 then mret None else
  block_size ← lift (align_up (Z.max size SLAB_MIN_BLOCK) LOCKFREE_ALIGNMENT);
  LockFreeBuffer_refill_loop env buffer_ptr block_size size align.

Definition LockFreeBuffer_try_alloc (env : list Z) (size align : Z) : M LF (option Z) :=
  if MAX_LOCKFREE_ALLOCATION <? size then
    _ ← on_buf (lf_set_stats record_allocation);
    _ ← on_buf (lf_set_stats record_cache_miss);
    mret None
  else
    r ← LockFreeBuffer_try_thread_slab size align;
    match r with
    | Some ptr =>
        _ ← on_buf (lf_set_stats record_allocation);
        _ ← on_buf (lf_set_stats record_cache_hit);
        mret (Some ptr)
    | None =>
        result ← LockFreeBuffer_refill_thread_slab_and_alloc env size align;
        match result with
        | Some ptr =>
            _ ← on_buf (lf_set_stats record_allocation);
            _ ← on_buf (lf_set_stats record_cache_hit);
            mret (Some ptr)
        | None => _ ← on_buf (lf_set_stats record_cache_miss); mret None
        end
    end.

Definition LockFreeBuffer_reset : M LF unit :=
  _ ← on_buf (lf_set_offset 0);
  b ← gets x_buf;
  generation ← lift (if feat_single_thread_fast then usize_add (lf_generation b) 1
                     else Ok (fetch_add (lf_generation b) 1));
  _ ← on_buf (lf_set_generation generation);
  _ ← (if lf_buffer b =? 0 then mret tt
       else modify (λ x, mkLF (x_buf x) (x_slab x)
              (mkMem (heap (x_mem x))
                 (write_bytes (bytes (x_mem x)) (lf_buffer b) (replicate (Z.to_nat (lf_capacity b)) 0)))));
  _ ← on_buf (lf_set_stats LockFreeStats_reset);
  slab ← gets x_slab;
  set_slab (ThreadSlab_invalidate slab).

Definition LockFreeBuffer_is_full (b : LockFreeBuffer) : bool := lf_capacity b <=? lf_offset b.

Definition LockFreeBuffer_drop (b : LockFreeBuffer) : M Mem unit :=
  if lf_buffer b =? 0 then mret tt else
  if 0 <? lf_capacity b then
    match Layout_from_size_align (lf_capacity b) LOCKFREE_ALIGNMENT with
    | Some layout => sys_dealloc (lf_buffer b) layout
    | None =>
        match Layout_from_size_align LOCKFREE_ALIGNMENT LOCKFREE_ALIGNMENT with
        | Some fallback => sys_dealloc (lf_buffer b) fallback
        | None => lift (Panic "lockfree fallback layout invalid")
        end
    end
  else mret tt.

(** ** [LockFreeAllocator] *)
Record LockFreeAllocator := mkLockFreeAllocator {
  la_buffer : option LockFreeBuffer; la_stats : LockFreeStats; la_enabled : bool
}.
Record LFA := mkLFA { y_alloc : LockFreeAllocator; y_slab : ThreadSlab; y_mem : Mem }.

Definition LockFreeAllocator_new (self : Z) : M Mem LockFreeAllocator :=
  b ← LockFreeBuffer_new self;
  mret (mkLockFreeAllocator (Some b) LockFreeStats_new true).
Definition LockFreeAllocator_enable (a : LockFreeAllocator) := mkLockFreeAllocator (la_buffer a) (la_stats a) true.
Definition LockFreeAllocator_disable (a : LockFreeAllocator) := mkLockFreeAllocator (la_buffer a) (la_stats a) false.

(** Runs an operation of the buffer inside the allocator. *)
Definition with_buffer {A} (b : LockFreeBuffer) (m : M LF A) : M LFA A := λ y,
  let '(o, x) := m (mkLF b (y_slab y) (y_mem y)) in
  (o, mkLFA (mkLockFreeAllocator (Some (x_buf x)) (la_stats (y_alloc y)) (la_enabled (y_alloc y)))
        (x_slab x) (x_mem x)).

Definition LockFreeAllocator_try_alloc (env : list Z) (size align : Z) : M LFA (option Z) :=
  a ← gets y_alloc;
  if negb (la_enabled a) || (MAX_LOCKFREE_ALLOCATION <? size) then mret None else
  match la_buffer a with
  | Some b => with_buffer b (LockFreeBuffer_try_alloc env size align)
  | None => mret None
  end.

Definition LockFreeAllocator_reset : M LFA unit :=
  a ← gets y_alloc;
  _ ← match la_buffer a with
      | Some b => with_buffer b LockFreeBuffer_reset
      | None => mret tt
      end;
  modify (λ y, mkLFA (mkLockFreeAllocator (la_buffer (y_alloc y)) (LockFreeStats_reset (la_stats (y_alloc y)))
                        (la_enabled (y_alloc y))) (y_slab y) (y_mem y)).

Definition LockFreeAllocator_stats (a : LockFreeAllocator) : Z * Z * Z * Z :=
  match la_buffer a with
  | Some b => LockFreeStats_get (lf_stats b)
  | None => LockFreeStats_get (la_stats a)
  end.
End lockfree.

(** ** Invariant *)
Definition slab_matches (x : LF) : bool :=
  ThreadSlab_matches (lf_self (x_buf x)) (lf_generation (x_buf x)) (x_slab x).

(** The buffer is a 64-aligned block, [offset] is a multiple of 64 inside it, and
    a slab that claims to belong to this buffer and generation is a part of it
    below [offset]. *)
Definition LF_wf (x : LF) : Prop :=
  let b := x_buf x in let s := x_slab x in
  0 < lf_buffer b ∧ lf_buffer b `mod` 64 = 0 ∧ lf_buffer b + lf_capacity b ≤ USIZE_MAX ∧
  0 ≤ lf_offset b ≤ lf_capacity b ∧ lf_capacity b = LOCKFREE_BUFFER_SIZE ∧ lf_offset b `mod` 64 = 0 ∧
  (slab_matches x = true → ts_base s = lf_buffer b ∧ 0 ≤ ts_offset s ≤ ts_end s ∧ ts_end s ≤ lf_offset b).

(** The addresses the calling thread can still get: the rest of its slab and
    everything above [offset]. *)
Definition LF_avail (x : LF) (a : Z) : Prop :=
  let b := x_buf x in let s := x_slab x in
  (slab_matches x = true ∧ a ∈ mkRange (ts_base s + ts_offset s) (ts_end s - ts_offset s)) ∨
  a ∈ mkRange (lf_buffer b + lf_offset b) (lf_capacity b - lf_offset b).

Section lemmas.
Context `{cfg : Cfg}.

Lemma ThreadSlab_try_alloc_eq l s :
  Layout_ok l → ts_base s ≠ 0 → 0 ≤ ts_offset s ≤ ISIZE_MAX →
  let o := align_to (ts_offset s) (l_align l) in
  ThreadSlab_try_alloc (l_size l) (l_align l) s =
    if decide (o + l_size l ≤ ts_end s)
    then Ok (Some (ts_base s + o),
             mkThreadSlab (ts_owner s) (ts_base s) (ts_start s) (ts_end s) (o + l_size l) (ts_generation s))
    else Ok (None, s).
Proof.
  intros Hl Hb Ho o. pose proof (Layout_align_pos l Hl) as Hp. destruct Hl as (Hs & Ha & Hm).
  pose proof (align_to_lt (ts_offset s) _ Hp). pose proof (align_to_ge (ts_offset s) _ Hp).
  unfold ThreadSlab_try_alloc. destruct (Z.eqb_spec (ts_base s) 0); [done|].
  rewrite align_up_spec by (done || ulia). mrun. fold o.
  rewrite usize_add_in by (unfold o; ulia).
  destruct (Z.leb_spec (o + l_size l) (ts_end s)); case_decide; done || lia.
Qed.

#[export] Instance ThreadSlab_bump : Bump ThreadSlab := λ l s, ThreadSlab_try_alloc (l_size l) (l_align l) s.

(** A slab keeps the promises of a bump allocator. *)
#[export] Program Instance ThreadSlab_bump_laws : BumpLaws ThreadSlab := {|
  bump_ok s := 0 ≤ ts_offset s ≤ ISIZE_MAX ∧ ts_end s ≤ ISIZE_MAX;
  bump_avail s a := ts_base s ≠ 0 ∧ a ∈ mkRange (ts_base s + ts_offset s) (ts_end s - ts_offset s)
|}.
Next Obligation.
  intros l s [Ho He] Hl. unfold bump_allocate, ThreadSlab_bump. simpl.
  destruct (decide (ts_base s = 0)) as [Hz|Hz].
  { exists None, s. unfold ThreadSlab_try_alloc. rewrite Hz. done. }
  rewrite ThreadSlab_try_alloc_eq by done. pose proof (Layout_align_pos l Hl) as Hp. destruct Hl as (Hs & _ & _).
  pose proof (align_to_ge (ts_offset s) _ Hp). case_decide; eexists _, _; (split; [done|]); simpl.
  - split; [lia|]. split; [intros a [? ?]; split; [done|range_solve]|].
    intros p a [= <-] Ha. split; [split; [done|]|intros [_ ?]]; range_solve.
  - done.
Qed.

(** What a refill needs: the state after the slab lookup failed. *)
Lemma refill_eq l x :
  LF_wf x → Layout_ok l → l_size l ≤ MAX_LOCKFREE_ALLOCATION →
  let b := x_buf x in
  let bs := align_to (Z.max (l_size l) SLAB_MIN_BLOCK) 64 in
  LockFreeBuffer_refill_thread_slab_and_alloc [] (l_size l) (l_align l) x =
    if decide (lf_offset b + bs ≤ lf_capacity b)
    then
      let slab := mkThreadSlab (lf_self b) (lf_buffer b) (lf_offset b) (lf_offset b + bs) (lf_offset b) (lf_generation b) in
      match ThreadSlab_try_alloc (l_size l) (l_align l) slab with
      | Ok (r, slab) => (Ok r, mkLF (lf_set_stats record_allocation (lf_set_offset (lf_offset b + bs) b)) slab (x_mem x))
      | Panic e => (Panic e, mkLF (lf_set_stats record_allocation (lf_set_offset (lf_offset b + bs) b)) (x_slab x) (x_mem x))
      | Abort e => (Abort e, mkLF (lf_set_stats record_allocation (lf_set_offset (lf_offset b + bs) b)) (x_slab x) (x_mem x))
      | UB e => (UB e, mkLF (lf_set_stats record_allocation (lf_set_offset (lf_offset b + bs) b)) (x_slab x) (x_mem x))
      end
    else (Ok None, mkLF (lf_set_stats record_cache_miss b) (x_slab x) (x_mem x)).
Proof.
  intros Hw Hl Hsz b bs. destruct Hw as (Hp & _ & _ & Ho & Hcap & Hm & _). destruct Hl as (Hs & _ & _).
  unfold MAX_LOCKFREE_ALLOCATION, LOCKFREE_BUFFER_SIZE in *.
  assert (bs ≤ 1024) by (apply align_to_least; [done|unfold SLAB_MIN_BLOCK; lia|reflexivity]).
  assert (0 ≤ bs). { pose proof (align_to_ge (Z.max (l_size l) SLAB_MIN_BLOCK) 64 ltac:(done)). unfold SLAB_MIN_BLOCK in *. lia. }
  unfold LockFreeBuffer_refill_thread_slab_and_alloc, LockFreeBuffer_refill_loop, LOCKFREE_ALIGNMENT. mrun.
  destruct (Z.eqb_spec (lf_buffer (x_buf x)) 0); [lia|].
  rewrite align_up_spec; [|reflexivity|unfold SLAB_MIN_BLOCK; lia|unfold SLAB_MIN_BLOCK; ulia]. fold bs.
  rewrite align_up_spec, align_to_id; [|done|done|reflexivity|lia|ulia].
  fold b in Ho, Hm, Hcap. fold b. rewrite usize_add_in by ulia.
  destruct (Z.ltb_spec (lf_capacity b) (lf_offset b + bs)); case_decide; try lia; [done|].
  unfold on_buf, set_slab, modify, ThreadSlab_set_region. simpl.
  destruct (ThreadSlab_try_alloc _ _ _) as [[r s]| | |]; done.
Qed.

Lemma try_thread_slab_eq l x :
  LockFreeBuffer_try_thread_slab (l_size l) (l_align l) x =
    if slab_matches x then
      match ThreadSlab_try_alloc (l_size l) (l_align l) (x_slab x) with
      | Ok (r, s) => (Ok r, mkLF (x_buf x) s (x_mem x))
      | Panic e => (Panic e, x) | Abort e => (Abort e, x) | UB e => (UB e, x)
      end
    else (Ok None, mkLF (x_buf x) ThreadSlab_new (x_mem x)).
Proof.
  unfold LockFreeBuffer_try_thread_slab, slab_matches. mrun.
  destruct (ThreadSlab_matches _ _ _); simpl; [|done].
  by destruct (ThreadSlab_try_alloc _ _ _) as [[r s]| | |].
Qed.

(** What [try_alloc] guarantees of its result [r] and the state [x'] it leaves. *)
Definition LF_post (l : Layout) (x : LF) (r : option Z) (x' : LF) : Prop :=
  LF_wf x' ∧ x_mem x' = x_mem x ∧ lf_self (x_buf x') = lf_self (x_buf x) ∧
  lf_buffer (x_buf x') = lf_buffer (x_buf x) ∧ lf_generation (x_buf x') = lf_generation (x_buf x) ∧
  (∀ a, LF_avail x' a → LF_avail x a) ∧
  (∀ p a, r = Some p → a ∈ mkRange p (l_size l) → LF_avail x a ∧ ¬ LF_avail x' a) ∧
  (∀ p, r = Some p → l_align l ≤ 64 → p `mod` l_align l = 0).

(** Allocation from a slab that matches. *)
Lemma LF_slab_post l x :
  LF_wf x → Layout_ok l → slab_matches x = true →
  ∃ r s, ThreadSlab_try_alloc (l_size l) (l_align l) (x_slab x) = Ok (r, s) ∧
    (r = None → s = x_slab x) ∧ LF_post l x r (mkLF (x_buf x) s (x_mem x)).
Proof.
  intros Hw Hl Hm. pose proof Hw as (Hb & Hbm & Hbe & Ho & Hcap & Hom & Hs).
  destruct (Hs Hm) as (Hbase & Hoff & Hend). unfold LOCKFREE_BUFFER_SIZE in *.
  rewrite ThreadSlab_try_alloc_eq by (done || ulia). pose proof (Layout_align_pos l Hl) as Hp.
  pose proof (align_to_ge (ts_offset (x_slab x)) _ Hp). destruct Hl as (Hsz & Ha & _).
  case_decide as Hfit; eexists _, _; (split; [done|]).
  - split; [done|]. set (s' := mkThreadSlab _ _ _ _ _ _).
    assert (slab_matches (mkLF (x_buf x) s' (x_mem x)) = true) as Hm' by exact Hm. unfold s' in *.
    unfold LF_post; splits; try done.
    + unfold LF_wf. simpl. splits; done || lia.
    + intros a [[_ Hin]|Hin]; [left; split; [done|]|right]; range_solve.
    + intros p a [= <-] Hin. split; [left; split; [done|range_solve]|].
      intros [[_ Hin']|Hin']; range_solve.
    + intros p [= <-] H64. rewrite Hbase. apply aligned_in_block; [done..|]. by apply align_to_mod.
  - split; [done|]. destruct x. unfold LF_post; splits; done.
Qed.

Lemma LF_post_stats f l x r x' :
  LF_post l x r x' → LF_post l x r (mkLF (lf_set_stats f (x_buf x')) (x_slab x') (x_mem x')).
Proof. by destruct x'. Qed.

Lemma LF_post_trans l x x1 r x' :
  (∀ a, LF_avail x1 a → LF_avail x a) → x_mem x1 = x_mem x →
  lf_self (x_buf x1) = lf_self (x_buf x) → lf_buffer (x_buf x1) = lf_buffer (x_buf x) →
  lf_generation (x_buf x1) = lf_generation (x_buf x) →
  LF_post l x1 r x' → LF_post l x r x'.
Proof.
  intros Hsub Hmem Hself Hbuf Hgen (H1 & H2 & H3 & H4 & H5 & H6 & H7 & H8).
  unfold LF_post. splits; [done|congruence..|by auto| |done].
  intros p a Hr Ha. destruct (H7 p a Hr Ha). auto.
Qed.

(** Refilling the slab and allocating from it. *)
Lemma LF_refill_post l x :
  LF_wf x → Layout_ok l → l_size l ≤ MAX_LOCKFREE_ALLOCATION →
  ∃ r x', LockFreeBuffer_refill_thread_slab_and_alloc [] (l_size l) (l_align l) x = (Ok r, x') ∧
    LF_post l x r x'.
Proof.
  intros Hw Hl Hsz. rewrite refill_eq by done. simpl.
  pose proof Hw as (Hb & Hbm & Hbe & Ho & Hcap & Hom & Hs).
  set (bs := align_to (Z.max (l_size l) SLAB_MIN_BLOCK) 64).
  assert (0 < bs). { pose proof (align_to_ge (Z.max (l_size l) SLAB_MIN_BLOCK) 64 ltac:(done)). unfold SLAB_MIN_BLOCK in *. lia. }
  case_decide as Hfit.
  2:{ eexists _, _. split; [done|]. destruct x. unfold LF_post; splits; done. }
  set (x1 := mkLF (lf_set_offset (lf_offset (x_buf x) + bs) (x_buf x))
     (mkThreadSlab (lf_self (x_buf x)) (lf_buffer (x_buf x)) (lf_offset (x_buf x)) (lf_offset (x_buf x) + bs)
        (lf_offset (x_buf x)) (lf_generation (x_buf x))) (x_mem x)).
  assert (slab_matches x1 = true) as Hm1.
  { unfold slab_matches, ThreadSlab_matches, x1. simpl. rewrite !Z.eqb_refl.
    by destruct (Z.eqb_spec (lf_buffer (x_buf x)) 0); [lia|]. }
  assert (LF_wf x1) as Hw1.
  { unfold LF_wf, x1. simpl. splits; try (done || lia).
    rewrite Z.add_mod, Hom, Z.add_0_l, Z.mod_mod by done. by apply align_to_mod. }
  destruct (LF_slab_post l x1 Hw1 Hl Hm1) as (r & s & E & _ & Hpost). unfold x1 in E. simpl in E. rewrite E.
  eexists _, _. split; [done|]. apply (LF_post_stats record_allocation) in Hpost.
  apply (LF_post_trans l x x1); [|done..|exact Hpost].
  unfold LF_avail. intros a [[_ Hin]|Hin]; right; unfold x1 in *; range_solve.
Qed.

(** [try_alloc] keeps the invariant and hands out fresh addresses only. *)
Lemma LF_try_alloc_post l x :
  LF_wf x → Layout_ok l →
  ∃ r x', LockFreeBuffer_try_alloc [] (l_size l) (l_align l) x = (Ok r, x') ∧ LF_post l x r x'.
Proof.
  intros Hw Hl. unfold LockFreeBuffer_try_alloc.
  destruct (Z.ltb_spec MAX_LOCKFREE_ALLOCATION (l_size l)) as [|Hsz].
  { eexists None, _. split; [reflexivity|]. destruct x. unfold LF_post; splits; done. }
  assert (∃ r x1, LockFreeBuffer_try_thread_slab (l_size l) (l_align l) x = (Ok r, x1) ∧ LF_post l x r x1) as (r & x1 & E & Hpost).
  { rewrite try_thread_slab_eq. destruct (slab_matches x) eqn:Hm.
    - destruct (LF_slab_post l x Hw Hl Hm) as (r & s & -> & _ & Hpost). eauto.
    - eexists _, _. split; [done|]. unfold LF_post, LF_wf, LF_avail, slab_matches, ThreadSlab_matches. simpl.
      rewrite !andb_false_r. splits; try done; try (apply Hw || lia). intros a [[? _]|?]; [done|by right]. }
  unfold mbind at 1, M_bind at 1. rewrite E. destruct r as [p|].
  { eexists _, _. split; [reflexivity|]. by do 2 apply LF_post_stats. }
  destruct (LF_refill_post l x1) as (r & x' & E' & Hpost'); [apply Hpost|done|done|].
  unfold mbind at 1, M_bind at 1. rewrite E'.
  pose proof Hpost as (H1 & H2 & H3 & H4 & H5 & H6 & _).
  assert (LF_post l x r x') as Hp by (by apply (LF_post_trans l x x1)).
  destruct r as [p|]; eexists _, _; (split; [reflexivity|]); repeat apply LF_post_stats; done.
Qed.

#[export] Instance LF_bump : Bump LF := λ l x,
  match LockFreeBuffer_try_alloc [] (l_size l) (l_align l) x with
  | (Ok r, x') => Ok (r, x')
  | (Panic e, _) => Panic e | (Abort e, _) => Abort e | (UB e, _) => UB e
  end.

(** The buffer with its thread slab keeps the promises of a bump allocator, on
    an address set that is not one range: the slab and the rest of the buffer. *)
#[export] Program Instance LF_bump_laws : BumpLaws LF := {|
  bump_ok := LF_wf;
  bump_avail := LF_avail
|}.
Next Obligation.
  intros l x Hw Hl. destruct (LF_try_alloc_post l x Hw Hl) as (r & x' & E & Hpost).
  unfold bump_allocate, LF_bump. rewrite E. exists r, x'.
  destruct Hpost as (? & _ & _ & _ & _ & ? & ? & _). done.
Qed.
End lemmas.

Lemma ThreadSlab_new_no_match b m : slab_matches (mkLF b ThreadSlab_new m) = false.
Proof. unfold slab_matches, ThreadSlab_matches. simpl. by rewrite !andb_false_r. Qed.

Lemma LF_avail_in_buffer x a :
  LF_wf x → LF_avail x a → a ∈ mkRange (lf_buffer (x_buf x)) (lf_capacity (x_buf x)).
Proof.
  intros (Hb & _ & _ & Ho & _ & _ & Hs) [[Hm Hin]|Hin]; [destruct (Hs Hm) as (? & ? & ?)|]; range_solve.
Qed.

(** ** Theorems *)

(** The lock-free buffer, used by one thread, hands out disjoint memory.  For
    any sequence of requests on a well-formed buffer (served from the thread's
    slab, by carving a new slab, or refused), no call panics, every granted range
    lies inside the buffer, and the granted ranges are pairwise disjoint. *)
Theorem lockfree_allocs_disjoint `{cfg : Cfg} ls x :
  LF_wf x → Forall Layout_ok ls →
  ∃ rs x', bump_run ls x = Ok (rs, x') ∧ LF_wf x' ∧ length rs = length ls ∧
    pw_disjoint (granted ls rs) ∧
    Forall (λ r, r ⊆ mkRange (lf_buffer (x_buf x)) (lf_capacity (x_buf x))) (granted ls rs).
Proof.
  intros Hw Hls. destruct (bump_run_spec ls x) as (rs & x' & E & Hw' & Hlen & _ & Hin & Hd); [done..|].
  exists rs, x'. splits; try done. eapply Forall_impl; [exact Hin|].
  intros r Hr. apply range_subseteq_spec. intros a [Ha _]%Hr. exact (LF_avail_in_buffer x a Hw Ha).
Qed.

Lemma lockfree_allocs_disjoint_witness :
  let x := mkLF (mkLockFreeBuffer 100 4096 0 4096 LockFreeStats_new 0) ThreadSlab_new Mem_empty in
  let ls := [mkLayout 8 8; mkLayout 300 64; mkLayout 2000 8; mkLayout 1 1] in
  ∃ rs x', @bump_run LF (@LF_bump cfg_dev) ls x = Ok (rs, x') ∧ LF_wf x' ∧ length rs = 4%nat ∧
    pw_disjoint (granted ls rs) ∧ Forall (λ r, r ⊆ mkRange 4096 4096) (granted ls rs).
Proof.
  intros x ls. apply (@lockfree_allocs_disjoint cfg_dev ls x).
  - vm_compute. intuition discriminate.
  - repeat constructor; vm_compute; intuition discriminate.
Defined.

(** [LockFreeBuffer::reset] makes the whole buffer available again, zeroes
    exactly its bytes, clears the statistics and invalidates every slab of the
    old generation: a slab that matched before the reset, on any thread, does not
    match after it. *)
Theorem LockFreeBuffer_reset_spec `{cfg : Cfg} x :
  LF_wf x → 0 ≤ lf_generation (x_buf x) < USIZE_MAX →
  ∃ x', LockFreeBuffer_reset x = (Ok tt, x') ∧ LF_wf x' ∧
    (∀ a, LF_avail x' a ↔ a ∈ mkRange (lf_buffer (x_buf x)) (lf_capacity (x_buf x))) ∧
    (∀ a, bytes (x_mem x') !! a =
       if decide (a ∈ mkRange (lf_buffer (x_buf x)) (lf_capacity (x_buf x))) then Some 0 else bytes (x_mem x) !! a) ∧
    lf_stats (x_buf x') = LockFreeStats_new ∧
    (∀ s, ThreadSlab_matches (lf_self (x_buf x)) (lf_generation (x_buf x)) s = true →
          ThreadSlab_matches (lf_self (x_buf x)) (lf_generation (x_buf x')) s = false).
Proof.
  intros (Hb & Hbm & Hbe & Ho & Hcap & Hom & Hs) Hg. unfold LockFreeBuffer_reset. mrun.
  set (g := if feat_single_thread_fast then usize_add (lf_generation (x_buf x)) 1
            else Ok (fetch_add (lf_generation (x_buf x)) 1)).
  assert (g = Ok (lf_generation (x_buf x) + 1)) as ->.
  { unfold g, fetch_add. destruct feat_single_thread_fast; [apply usize_add_in; ulia|].
    rewrite usize_wrap_in by ulia. done. }
  destruct (Z.eqb_spec (lf_buffer (x_buf x)) 0); [lia|]. unfold LOCKFREE_BUFFER_SIZE in *.
  eexists. split; [reflexivity|]. splits.
  - unfold LF_wf. simpl. splits; try (done || lia). rewrite ThreadSlab_new_no_match. done.
  - intros a. unfold LF_avail. rewrite ThreadSlab_new_no_match. simpl. split; [intros [[? _]|?]; [done|]|right]; range_solve.
  - intros a. simpl. rewrite lookup_write_bytes, length_replicate.
    destruct (decide (a ∈ _)) as [Ha|Ha].
    + rewrite decide_True by range_solve. apply lookup_replicate. split; [done|]. range_solve.
    + rewrite decide_False by range_solve. done.
  - done.
  - intros s. unfold ThreadSlab_matches. simpl. destruct (Z.eqb_spec (ts_generation s) (lf_generation (x_buf x))) as [->|].
    + intros _. destruct (Z.eqb_spec (lf_generation (x_buf x)) (lf_generation (x_buf x) + 1)); [lia|]. by rewrite andb_false_r.
    + by rewrite andb_false_r.
Qed.

Lemma LockFreeBuffer_reset_spec_witness :
  let x := mkLF (mkLockFreeBuffer 100 4096 256 4096 LockFreeStats_new 4)
             (mkThreadSlab 100 4096 0 256 24 4) Mem_empty in
  LF_wf x ∧ ∃ x', @LockFreeBuffer_reset cfg_release x = (Ok tt, x') ∧ LF_wf x' ∧
    ThreadSlab_matches 100 (lf_generation (x_buf x')) (mkThreadSlab 100 4096 0 256 24 4) = false.
Proof.
  intros x. assert (LF_wf x) as Hw by (vm_compute; intuition discriminate). split; [exact Hw|].
  destruct (@LockFreeBuffer_reset_spec cfg_release x Hw) as (x' & E & Hw' & _ & _ & _ & Hm); [simpl; ulia|].
  exists x'. split; [exact E|]. split; [exact Hw'|].
  exact (Hm (mkThreadSlab 100 4096 0 256 24 4) eq_refl).
Defined.

(** Dropping a [LockFreeBuffer] frees its block but leaves the thread's slab
    pointing into it, and a slab is recognised by the address of the buffer
    object and a generation that restarts at 0.  A second buffer created at the
    same address (an arena recreated in the same variable) therefore serves the
    next request from the freed block: the pointer returned lies in no live
    block. *)
Theorem lockfree_stale_slab :
  ∀ oc, let cfg : Cfg := mkCfg oc oc true false false true false false false in
  let ga : GlobalAlloc := bump_alloc in
  let on_mem {A} (m : M Mem A) : M LF A := zoom x_mem (λ m x, mkLF (x_buf x) (x_slab x) m) m in
  let prog : M LF (option Z) :=
    _ ← LockFreeBuffer_try_alloc [] 8 8;
    _ ← on_mem (sys_alloc (mkLayout 64 64));
    b ← gets x_buf;
    _ ← on_mem (LockFreeBuffer_drop b);
    b' ← on_mem (LockFreeBuffer_new (lf_self b));
    _ ← on_buf (λ _, b');
    LockFreeBuffer_try_alloc [] 8 8 in
  ∃ b m p x',
    LockFreeBuffer_new 100 Mem_empty = (Ok b, m) ∧
    prog (mkLF b ThreadSlab_new m) = (Ok (Some p), x') ∧
    Forall (λ blk, p ∉ block_range blk) (heap (x_mem x')).
Proof.
  intros oc cfg ga on_mem prog.
  exists (mkLockFreeBuffer 100 4096 0 4096 LockFreeStats_new 0), (mkMem [mkBlock 4096 (mkLayout 4096 64)] ∅), 4104,
    (mkLF (mkLockFreeBuffer 100 8256 0 4096 (mkLockFreeStats 1 1 0 0) 0) (mkThreadSlab 100 4096 0 256 16 0)
       (mkMem [mkBlock 8256 (mkLayout 4096 64); mkBlock 8192 (mkLayout 64 64)] ∅)).
  split; [vm_compute; reflexivity|]. split; [destruct oc; vm_compute; reflexivity|].
  repeat constructor; vm_compute; intuition discriminate.
Qed.
