(* ===== verification/LockFreePool.v ===== *)
(** * LockFreePool: the pool of reusable values of lockfree.rs

    [LockFreePool<T>] keeps its values in a linked stack of boxed nodes whose head
    is swung by compare-exchange.  The model is a transition system: one event is
    one atomic access of one thread, in any interleaving.  Boxes live in [q_nodes];
    touching a box that was freed is undefined behaviour. *)
From S2P Require Import Prelude LockFree.
Local Open Scope Z_scope.

Record LockFreeNode (T : Type) := mkNode { nd_data : T; nd_next : Z }.
Arguments mkNode {T} _ _.
Arguments nd_data {T} _.
Arguments nd_next {T} _.

(** Where a thread is: between calls; in [try_alloc] before the first look at the
    head, at the head of the loop, holding a head, holding a head and its successor,
    or past a successful exchange; in [dealloc] at the head of the loop or holding
    a head.  [QUb]: it touched a freed node. *)
Inductive PoolThread :=
  | QIdle
  | QPopFirst
  | QPopLoop
  | QPopNode (head : Z)
  | QPopCas (head next : Z)
  | QPopRead (head : Z)
  | QPushLoop (node : Z)
  | QPushCas (node head : Z)
  | QUb.
#[global] Instance PoolThread_eq_dec : EqDecision PoolThread.
Proof. solve_decision. Defined.

(** The exchanges that took effect, in their order. *)
Inductive PoolOp (T : Type) :=
  | OPush (v : T)
  | OPop.
Arguments OPush {T} _.
Arguments OPop {T}.

Inductive PoolEvent (T : Type) :=
  | EPop (t : nat)
  | EPush (t : nat) (v : T) (node : Z)
  | EStep (t : nat) (spurious : bool).
Arguments EPop {T} _.
Arguments EPush {T} _ _ _.
Arguments EStep {T} _ _.

Record PoolSys (T : Type) := mkPoolSys {
  q_head : Z;
  q_nodes : gmap Z (LockFreeNode T);
  q_stats : LockFreeStats;
  q_threads : gmap nat PoolThread;
  q_log : list (PoolOp T);
  q_returned : list T
}.
Arguments mkPoolSys {T} _ _ _ _ _ _.
Arguments q_head {T} _.
Arguments q_nodes {T} _.
Arguments q_stats {T} _.
Arguments q_threads {T} _.
Arguments q_log {T} _.
Arguments q_returned {T} _.

Section pool.
Context {T : Type}.
Implicit Types (s : PoolSys T) (v : T).

Definition LockFreePool_new : PoolSys T := mkPoolSys 0 ∅ LockFreeStats_new ∅ [] [].
Definition q_thread (t : nat) s : PoolThread := default QIdle (q_threads s !! t).

Definition q_goto (t : nat) (st : PoolThread) s : PoolSys T :=
  mkPoolSys (q_head s) (q_nodes s) (q_stats s) (<[t := st]> (q_threads s)) (q_log s) (q_returned s).
Definition q_record (f : LockFreeStats → LockFreeStats) s : PoolSys T :=
  mkPoolSys (q_head s) (q_nodes s) (f (q_stats s)) (q_threads s) (q_log s) (q_returned s).
Definition q_swing (head : Z) (op : PoolOp T) s : PoolSys T :=
  mkPoolSys head (q_nodes s) (q_stats s) (q_threads s) (q_log s ++ [op]) (q_returned s).
Definition q_set_nodes (m : gmap Z (LockFreeNode T)) s : PoolSys T :=
  mkPoolSys (q_head s) m (q_stats s) (q_threads s) (q_log s) (q_returned s).
Definition q_return v s : PoolSys T :=
  mkPoolSys (q_head s) (q_nodes s) (q_stats s) (q_threads s) (q_log s) (q_returned s ++ [v]).

(** The next access of thread [t] inside [try_alloc]. *)
Definition pool_try_alloc_step (t : nat) (st : PoolThread) (spurious : bool) s : option (PoolSys T) :=
  match st with
  | QPopFirst | QPopLoop =>
      Some (if q_head s =? 0 then q_goto t QIdle (q_record record_cache_miss s)
            else match st with QPopFirst => q_goto t QPopLoop s | _ => q_goto t (QPopNode (q_head s)) s end)
  | QPopNode head =>
      Some (match q_nodes s !! head with
            | Some node => q_goto t (QPopCas head (nd_next node)) s
            | None => q_goto t QUb s
            end)
  | QPopCas head next =>
      Some (if (q_head s =? head) && negb spurious then q_goto t (QPopRead head) (q_swing next OPop s)
            else q_goto t QPopLoop (q_record record_contention s))
  | QPopRead head =>
      Some (match q_nodes s !! head with
            | Some node =>
                q_goto t QIdle (q_set_nodes (delete head (q_nodes s))
                  (q_return (nd_data node) (q_record record_cache_hit (q_record record_allocation s))))
            | None => q_goto t QUb s
            end)
  | _ => None
  end.

(** The next access of thread [t] inside [dealloc]: its node belongs to it until
    the exchange succeeds. *)
Definition pool_dealloc_step (t : nat) (st : PoolThread) (spurious : bool) s : option (PoolSys T) :=
  match st with
  | QPushLoop node =>
      Some (match q_nodes s !! node with
            | Some n => q_goto t (QPushCas node (q_head s)) (q_set_nodes (<[node := mkNode (nd_data n) (q_head s)]> (q_nodes s)) s)
            | None => q_goto t QUb s
            end)
  | QPushCas node head =>
      match q_nodes s !! node with
      | Some n =>
          Some (if (q_head s =? head) && negb spurious
                then q_goto t QIdle (q_record record_deallocation (q_swing node (OPush (nd_data n)) s))
                else q_goto t (QPushLoop node) (q_record record_contention s))
      | None => Some (q_goto t QUb s)
      end
  | _ => None
  end.

(** [EPop] enters [try_alloc]; [EPush] enters [dealloc], whose [Box::new] yields an
    address that is not in use; [EStep] is the next access. *)
Definition Pool_step (e : PoolEvent T) s : option (PoolSys T) :=
  match e with
  | EPop t => match q_thread t s with QIdle => Some (q_goto t QPopFirst s) | _ => None end
  | EPush t v node =>
      match q_thread t s with
      | QIdle =>
          if (node =? 0) || bool_decide (is_Some (q_nodes s !! node)) then None
          else Some (q_goto t (QPushLoop node) (q_set_nodes (<[node := mkNode v 0]> (q_nodes s)) s))
      | _ => None
      end
  | EStep t spurious =>
      let st := q_thread t s in
      match pool_try_alloc_step t st spurious s with Some s' => Some s' | None => pool_dealloc_step t st spurious s end
  end.

Fixpoint Pool_steps (es : list (PoolEvent T)) s : option (PoolSys T) :=
  match es with
  | [] => Some s
  | e :: es => s' ← Pool_step e s; Pool_steps es s'
  end.

(** [Drop for LockFreePoolInner]: walks the list, freeing each node and dropping its
    value; the values dropped and the boxes left.  [None]: a freed node was touched. *)
Fixpoint LockFreePool_drop (fuel : nat) (head : Z) (m : gmap Z (LockFreeNode T)) : option (list T * gmap Z (LockFreeNode T)) :=
  match fuel with
  | O => None
  | S fuel =>
      if head =? 0 then Some ([], m) else
      node ← m !! head;
      '(vs, m') ← LockFreePool_drop fuel (nd_next node) (delete head m);
      Some (nd_data node :: vs, m')
  end.

(** ** Reference: a stack.  The values popped so far and the contents. *)
Definition stack_step (st : list T * list T) (op : PoolOp T) : list T * list T :=
  match op, st.2 with
  | OPush v, stk => (st.1, v :: stk)
  | OPop, v :: stk => (st.1 ++ [v], stk)
  | OPop, [] => st
  end.
Definition stack_run (ops : list (PoolOp T)) : list T * list T := foldl stack_step ([], []) ops.
End pool.

(** ** One thread at a time takes values out

    The invariant of executions in which only thread [k] calls [try_alloc], while
    any number of threads call [dealloc]. *)
Section invariant.
Context {T : Type}.
Implicit Types (s : PoolSys T) (v : T) (m : gmap Z (LockFreeNode T)) (l : list (Z * T)).

(** The nodes from [h] on, with their values. *)
Fixpoint chain m (h : Z) l : Prop :=
  match l with
  | [] => h = 0
  | (a, v) :: l => h = a ∧ a ≠ 0 ∧ ∃ n, m !! a = Some (mkNode v n) ∧ chain m n l
  end.

(** The node that belongs to a thread alone. *)
Definition owned (st : PoolThread) : option Z :=
  match st with QPushLoop a | QPushCas a _ | QPopRead a => Some a | _ => None end.
Definition popping (st : PoolThread) : bool :=
  match st with QPopFirst | QPopLoop | QPopNode _ | QPopCas _ _ | QPopRead _ => true | _ => false end.

Definition thread_ok m l (st : PoolThread) : Prop :=
  (∀ a, owned st = Some a → (a ∉ l.*1) ∧ a ≠ 0 ∧ is_Some (m !! a)) ∧
  match st with
  | QPopNode h => h ∈ l.*1
  | QPopCas h n => h ∈ l.*1 ∧ ∃ v, m !! h = Some (mkNode v n)
  | QPushCas a h => ∃ v, m !! a = Some (mkNode v h)
  | QUb => False
  | _ => True
  end.

(** The value taken out but not yet read. *)
Definition pending m (st : PoolThread) : list T :=
  match st with
  | QPopRead a => match m !! a with Some n => [nd_data n] | None => [] end
  | _ => []
  end.

Record PoolInv (k : nat) l s : Prop := mkPoolInv {
  pi_chain : chain (q_nodes s) (q_head s) l;
  pi_nodup : NoDup l.*1;
  pi_stack : stack_run (q_log s) = (q_returned s ++ pending (q_nodes s) (q_thread k s), l.*2);
  pi_thread t : thread_ok (q_nodes s) l (q_thread t s);
  pi_popper t : popping (q_thread t s) = true → t = k;
  pi_owned t t' a : owned (q_thread t s) = Some a → owned (q_thread t' s) = Some a → t = t';
  pi_live a : is_Some (q_nodes s !! a) → a ∈ l.*1 ∨ ∃ t, owned (q_thread t s) = Some a
}.

Lemma chain_ext m m' h l : (∀ a, a ∈ l.*1 → m' !! a = m !! a) → chain m h l → chain m' h l.
Proof.
  revert h. induction l as [|[a v] l IH]; intros h Hm; simpl; [done|]. intros (-> & Hn & n & Ha & Hc).
  split; [done|]. split; [done|]. exists n. rewrite Hm by constructor. split; [done|]. apply IH; [|done].
  intros b Hb. apply Hm. by constructor.
Qed.

Lemma chain_lookup m h l a : chain m h l → a ∈ l.*1 → is_Some (m !! a).
Proof.
  revert h. induction l as [|[b v] l IH]; intros h; simpl; [by intros _ ?%not_elem_of_nil|].
  intros (-> & _ & n & Hb & Hc) [->|Ha]%elem_of_cons; [by eexists|by eapply IH].
Qed.

Lemma chain_head m h l : chain m h l → h ≠ 0 → ∃ v l', l = (h, v) :: l'.
Proof. destruct l as [|[a v] l]; simpl; [done|]. intros (-> & _) _. by eexists _, _. Qed.

Lemma q_thread_insert t t' st h m st' log ret s :
  q_thread t' (mkPoolSys h m st' (<[t := st]> (q_threads s)) log ret) = if decide (t = t') then st else q_thread t' s.
Proof. unfold q_thread. simpl. rewrite lookup_insert. by case_decide. Qed.

(** Changing [m] and [l] away from what a thread knows leaves it alone. *)
Lemma thread_ok_ext m m' l l' st :
  (∀ a, a ∈ l.*1 → popping st = true → a ∈ l'.*1) →
  (∀ a, owned st = Some a → a ∉ l.*1 → a ∉ l'.*1) →
  (∀ a, owned st = Some a ∨ a ∈ l.*1 → m' !! a = m !! a) →
  thread_ok m l st → thread_ok m' l' st.
Proof.
  intros Hl Ho Hm [H1 H2]. split.
  - intros a Ha. destruct (H1 a Ha) as (? & ? & ?). rewrite Hm by (by left). auto.
  - destruct st; simpl in *; try done; [by apply Hl| |by rewrite Hm by (by left)].
    destruct H2 as [? ?]. rewrite Hm by (by right). split; [by apply Hl|done].
Qed.

(** One step of thread [t]: what has to be checked. *)
Lemma PoolInv_update k l l' t st s h m stats log ret :
  PoolInv k l s →
  chain m h l' → NoDup l'.*1 →
  stack_run log = (ret ++ pending m (if decide (t = k) then st else q_thread k s), l'.*2) →
  thread_ok m l' st → (popping st = true → t = k) →
  (∀ t', t' ≠ t → thread_ok (q_nodes s) l (q_thread t' s) → thread_ok m l' (q_thread t' s)) →
  (∀ a t', owned st = Some a → t' ≠ t → owned (q_thread t' s) ≠ Some a) →
  (∀ a, is_Some (m !! a) → a ∈ l'.*1 ∨ owned st = Some a ∨
     (is_Some (q_nodes s !! a) ∧ (a ∉ l.*1) ∧ owned (q_thread t s) ≠ Some a)) →
  PoolInv k l' (mkPoolSys h m stats (<[t := st]> (q_threads s)) log ret).
Proof.
  intros [Hc Hn Hs Ht Hp Ho Hlive] Hc' Hn' Hs' Hst Hpst Hot Hown Hl'. split; simpl; [done|done| | | | |].
  - by rewrite q_thread_insert.
  - intros t'. rewrite q_thread_insert. destruct (decide (t = t')); [done|]. apply Hot; [done|apply Ht].
  - intros t'. rewrite q_thread_insert. destruct (decide (t = t')); [by subst|apply Hp].
  - intros t1 t2 a. rewrite !q_thread_insert. destruct (decide (t = t1)), (decide (t = t2)); subst; try done; intros Ha Hb.
    + exfalso. by apply (Hown a t2).
    + exfalso. by apply (Hown a t1).
    + by eapply Ho.
  - intros a Ha. destruct (Hl' a Ha) as [?|[?|(Hi & Hnl & Hno)]]; [by left| |].
    + right. exists t. rewrite q_thread_insert. by rewrite decide_True.
    + destruct (Hlive a Hi) as [?|[t' Ht']]; [done|]. right. exists t'. rewrite q_thread_insert.
      rewrite decide_False; [done|]. by intros ->.
Qed.

(** A step that only moves thread [t], which keeps the node it owns. *)
Lemma PoolInv_goto k l t st s stats :
  PoolInv k l s → thread_ok (q_nodes s) l st → (popping st = true → t = k) → owned st = owned (q_thread t s) →
  pending (q_nodes s) st = pending (q_nodes s) (q_thread t s) →
  PoolInv k l (mkPoolSys (q_head s) (q_nodes s) stats (<[t := st]> (q_threads s)) (q_log s) (q_returned s)).
Proof.
  intros Hi Hst Hp Ho Hpe. pose proof Hi as [Hc Hn Hs Ht Hpop Hown Hlive]. apply (PoolInv_update k l l); try done.
  - rewrite Hs. destruct (decide (t = k)) as [->|]; [by rewrite Hpe|done].
  - intros a t' Ha Ht' Hb. rewrite Ho in Ha. by apply Ht', (Hown t' t a).
  - intros a Ha. destruct (decide (a ∈ l.*1)); [by left|]. right.
    destruct (decide (owned st = Some a)); [by left|]. right. by rewrite <- Ho.
Qed.

(** Other threads do not notice a change at an address that is neither theirs nor
    in the stack. *)
Lemma others_ok k l s t a m' :
  PoolInv k l s → (∀ b, b ≠ a → m' !! b = q_nodes s !! b) → a ∉ l.*1 →
  (∀ t', t' ≠ t → owned (q_thread t' s) ≠ Some a) →
  ∀ t', t' ≠ t → thread_ok (q_nodes s) l (q_thread t' s) → thread_ok m' l (q_thread t' s).
Proof.
  intros Hi Hm Ha Ho t' Ht'. apply thread_ok_ext; [done|done|]. intros b Hb. apply Hm. intros ->.
  destruct Hb as [Hb|Hb]; [by apply (Ho t')|done].
Qed.

Lemma pending_ext m m' st : (∀ a, owned st = Some a → m' !! a = m !! a) → pending m' st = pending m st.
Proof. destruct st; simpl; try done. intros H. by rewrite H. Qed.

Lemma stack_run_app (log : list (PoolOp T)) op : stack_run (log ++ [op]) = stack_step (stack_run log) op.
Proof. unfold stack_run. by rewrite foldl_app. Qed.

(** [dealloc] enters with a new node. *)
Lemma push_new_inv k l t v a s :
  PoolInv k l s → q_thread t s = QIdle → a ≠ 0 → q_nodes s !! a = None →
  PoolInv k l (q_goto t (QPushLoop a) (q_set_nodes (<[a := mkNode v 0]> (q_nodes s)) s)).
Proof.
  intros Hi Ht Ha Hn. pose proof Hi as [Hc Hnd Hs Hth Hp Ho Hl].
  assert (a ∉ l.*1) as Hal by (intros Hin; destruct (chain_lookup _ _ _ _ Hc Hin); congruence).
  assert (∀ t', owned (q_thread t' s) ≠ Some a) as Hoa.
  { intros t' E. destruct (proj1 (Hth t') a E) as (_ & _ & [? ?]). congruence. }
  assert (∀ b, b ≠ a → (<[a := mkNode v 0]> (q_nodes s)) !! b = q_nodes s !! b) as Hm
    by (intros; by rewrite lookup_insert_ne).
  apply (PoolInv_update k l l t _ s); try done; simpl.
  - eapply chain_ext; [|exact Hc]. intros b Hb. apply Hm. by intros ->.
  - rewrite Hs. f_equal. f_equal. destruct (decide (t = k)) as [->|]; [by rewrite Ht|].
    symmetry. apply pending_ext. intros b Hb. apply Hm. intros ->. by apply (Hoa k).
  - split; [|done]. intros b [= <-]. splits; [done|done|]. rewrite lookup_insert_eq. by eexists.
  - by apply (others_ok k l s t a).
  - by intros b t' [= <-] _.
  - intros b Hb. destruct (decide (b = a)) as [->|Hba]; [by right; left|]. rewrite Hm in Hb by done.
    destruct (decide (b ∈ l.*1)); [by left|]. right. right. splits; [done|done|]. by rewrite Ht.
Qed.

(** The node of [dealloc] is linked to the head that was loaded. *)
Lemma push_store_inv k l t a n s :
  PoolInv k l s → q_thread t s = QPushLoop a → q_nodes s !! a = Some n →
  PoolInv k l (q_goto t (QPushCas a (q_head s)) (q_set_nodes (<[a := mkNode (nd_data n) (q_head s)]> (q_nodes s)) s)).
Proof.
  intros Hi Ht Hn. pose proof Hi as [Hc Hnd Hs Hth Hp Ho Hl].
  destruct (proj1 (Hth t) a) as (Hal & Ha0 & _); [by rewrite Ht|].
  assert (∀ t', t' ≠ t → owned (q_thread t' s) ≠ Some a) as Hoa.
  { intros t' Hne E. apply Hne, (Ho t' t a); [done|by rewrite Ht]. }
  set (m' := <[a := mkNode (nd_data n) (q_head s)]> (q_nodes s)).
  assert (∀ b, b ≠ a → m' !! b = q_nodes s !! b) as Hm by (intros; unfold m'; by rewrite lookup_insert_ne).
  apply (PoolInv_update k l l t _ s); try done; simpl.
  - eapply chain_ext; [|exact Hc]. intros b Hb. apply Hm. by intros ->.
  - rewrite Hs. f_equal. f_equal. destruct (decide (t = k)) as [->|]; [by rewrite Ht|].
    symmetry. apply pending_ext. intros b Hb. apply Hm. intros ->. by apply (Hoa k).
  - split; [|exists (nd_data n); by unfold m'; rewrite lookup_insert_eq]. intros b [= <-]. splits; [done|done|].
    unfold m'. rewrite lookup_insert_eq. by eexists.
  - by apply (others_ok k l s t a).
  - intros b t' [= <-] Hne. by apply Hoa.
  - intros b Hb. destruct (decide (b = a)) as [->|Hba]; [by right; left|]. rewrite Hm in Hb by done.
    destruct (decide (b ∈ l.*1)); [by left|]. right. right. splits; [done|done|]. rewrite Ht. simpl. congruence.
Qed.

(** The exchange of [dealloc] succeeds. *)
Lemma push_cas_inv k l t a n s :
  PoolInv k l s → q_thread t s = QPushCas a (q_head s) → q_nodes s !! a = Some n →
  PoolInv k ((a, nd_data n) :: l) (q_goto t QIdle (q_record record_deallocation (q_swing a (OPush (nd_data n)) s))).
Proof.
  intros Hi Ht Hn. pose proof Hi as [Hc Hnd Hs Hth Hp Ho Hl].
  pose proof (Hth t) as [Hok Hst]. rewrite Ht in Hok, Hst. destruct (Hok a eq_refl) as (Hal & Ha0 & _).
  destruct Hst as [v Hv]. rewrite Hn in Hv. injection Hv as ->.
  apply (PoolInv_update k l _ t _ s); try done; simpl.
  - split; [done|]. split; [done|]. by exists (q_head s).
  - by apply NoDup_cons.
  - rewrite stack_run_app, Hs. simpl. f_equal. f_equal. destruct (decide (t = k)) as [->|]; [by rewrite Ht|done].
  - intros t' Hne. apply thread_ok_ext; [intros; by apply list_elem_of_further| |done].
    intros b Hb Hnb. apply not_elem_of_cons. split; [|done]. intros ->. apply Hne, (Ho t' t a); [done|by rewrite Ht].
  - intros b Hb. destruct (decide (b ∈ a :: l.*1)) as [|Hnot]; [by left|]. right. right.
    apply not_elem_of_cons in Hnot as [? ?]. splits; [done|done|]. rewrite Ht. simpl. congruence.
Qed.

(** The exchange of [try_alloc] succeeds. *)
Lemma pop_cas_inv k l t next s :
  PoolInv k l s → q_thread t s = QPopCas (q_head s) next →
  ∃ v l', l = (q_head s, v) :: l' ∧ PoolInv k l' (q_goto t (QPopRead (q_head s)) (q_swing next OPop s)).
Proof.
  intros Hi Ht. pose proof Hi as [Hc Hnd Hs Hth Hp Ho Hl].
  pose proof (Hth t) as [_ Hst]. rewrite Ht in Hst. destruct Hst as [Hin [v Hv]].
  assert (t = k) as -> by (apply Hp; by rewrite Ht).
  assert (q_head s ≠ 0) as Hh0. { intros E. destruct l as [|[b ?] l]; [by apply not_elem_of_nil in Hin|]. by destruct Hc as (? & ? & _); congruence. }
  destruct (chain_head _ _ _ Hc Hh0) as (v' & l' & ->). destruct Hc as (_ & _ & n & Hn & Hc').
  rewrite Hv in Hn. injection Hn as <- <-. apply NoDup_cons in Hnd as [Hni Hnd].
  exists v, l'. split; [done|]. apply (PoolInv_update k ((q_head s, v) :: l') l' k _ s); try done; simpl.
  - rewrite stack_run_app, Hs, Ht. simpl. rewrite decide_True by done. simpl. rewrite Hv. by rewrite app_nil_r.
  - split; [|done]. intros b [= <-]. splits; [done|done|by rewrite Hv].
  - intros t' Hne. apply thread_ok_ext; [|by intros b _ [_ ?]%not_elem_of_cons|done].
    intros b _ Hpop. exfalso. by apply Hne, Hp.
  - intros b t' [= <-] Hne Hb. destruct (proj1 (Hth t') _ Hb) as (Hnot & _). apply Hnot. constructor.
  - intros b Hb. destruct (decide (b = q_head s)) as [->|]; [by right; left|]. destruct (decide (b ∈ l'.*1)); [by left|].
    right. right. splits; [done| |by rewrite Ht]. by apply not_elem_of_cons.
Qed.

(** [try_alloc] reads its value and frees the node. *)
Lemma pop_read_inv k l t a n s :
  PoolInv k l s → q_thread t s = QPopRead a → q_nodes s !! a = Some n →
  PoolInv k l (q_goto t QIdle (q_set_nodes (delete a (q_nodes s))
                 (q_return (nd_data n) (q_record record_cache_hit (q_record record_allocation s))))).
Proof.
  intros Hi Ht Hn. pose proof Hi as [Hc Hnd Hs Hth Hp Ho Hl].
  assert (t = k) as -> by (apply Hp; by rewrite Ht).
  destruct (proj1 (Hth k) a) as (Hal & _ & _); [by rewrite Ht|].
  assert (∀ b, b ≠ a → delete a (q_nodes s) !! b = q_nodes s !! b) as Hm by (intros; by rewrite lookup_delete_ne).
  apply (PoolInv_update k l l k _ s); try done; simpl.
  - eapply chain_ext; [|exact Hc]. intros b Hb. apply Hm. by intros ->.
  - rewrite Hs, Ht. simpl. rewrite Hn, decide_True by done. simpl. by rewrite app_nil_r.
  - apply (others_ok k l s k a); [done|done|done|]. intros t' Hne E. apply Hne, (Ho t' k a); [done|by rewrite Ht].
  - intros b Hb. destruct (decide (b = a)) as [->|Hba]; [by rewrite lookup_delete_eq in Hb; destruct Hb|].
    rewrite Hm in Hb by done. destruct (decide (b ∈ l.*1)); [by left|]. right. right. splits; [done|done|].
    rewrite Ht. simpl. congruence.
Qed.

(** No call is under way. *)
Definition pool_idle s : Prop := map_Forall (λ _ st, st = QIdle) (q_threads s).
#[global] Instance pool_idle_dec s : Decision (pool_idle s).
Proof. unfold pool_idle. apply _. Defined.

Lemma pool_idle_thread s t : pool_idle s → q_thread t s = QIdle.
Proof. unfold q_thread. intros Hi. destruct (q_threads s !! t) eqn:E; [|done]. by apply (Hi t). Qed.

Definition one_popper (k : nat) (e : PoolEvent T) : Prop := match e with EPop t => t = k | _ => True end.

Lemma LockFreePool_new_inv k : PoolInv k [] LockFreePool_new.
Proof.
  split; try done; unfold q_thread; simpl.
  - constructor.
  - intros a [n Hn]. by rewrite lookup_empty in Hn.
Qed.

Lemma pool_try_alloc_inv k l t b s s' :
  PoolInv k l s → pool_try_alloc_step t (q_thread t s) b s = Some s' → ∃ l', PoolInv k l' s'.
Proof.
  intros Hi. pose proof Hi as [Hc Hnd Hs Hth Hp Ho Hl]. pose proof (Hth t) as [Hok Hst]. pose proof (Hp t) as Hpt.
  destruct (q_thread t s) as [| | |h|h n|h|a|a h|] eqn:Ht; simpl; try done; simpl in Hok, Hst, Hpt.
  - intros [= <-]. exists l. destruct (Z.eqb_spec (q_head s) 0); apply (PoolInv_goto k l t _ s); by rewrite ?Ht.
  - intros [= <-]. exists l. destruct (Z.eqb_spec (q_head s) 0) as [|Hh]; apply (PoolInv_goto k l t _ s); try (by rewrite ?Ht).
    split; [done|]. destruct (chain_head _ _ _ Hc Hh) as (v & l' & ->). constructor.
  - destruct (chain_lookup _ _ _ _ Hc Hst) as [[v n] Hn]. rewrite Hn. intros [= <-]. exists l.
    apply (PoolInv_goto k l t _ s); try (by rewrite ?Ht). split; [done|]. split; [done|]. by exists v.
  - intros [= <-]. destruct (Z.eqb_spec (q_head s) h) as [<-|]; [destruct b|]; simpl.
    2:{ destruct (pop_cas_inv k l t n s Hi Ht) as (v & l' & -> & Hi'). by exists l'. }
    all: exists l; apply (PoolInv_goto k l t _ s); by rewrite ?Ht.
  - destruct (Hok h eq_refl) as (_ & _ & [n Hn]). rewrite Hn. intros [= <-]. exists l. by apply pop_read_inv.
Qed.

Lemma pool_dealloc_inv k l t b s s' :
  PoolInv k l s → pool_dealloc_step t (q_thread t s) b s = Some s' → ∃ l', PoolInv k l' s'.
Proof.
  intros Hi. pose proof Hi as [Hc Hnd Hs Hth Hp Ho Hl]. pose proof (Hth t) as [Hok Hst].
  destruct (q_thread t s) as [| | |h|h n|h|a|a h|] eqn:Ht; simpl; try done; simpl in Hok, Hst;
    destruct (Hok a eq_refl) as (Hna & Ha0 & [n Hn]); rewrite Hn; intros [= <-].
  - exists l. by apply push_store_inv.
  - destruct (Z.eqb_spec (q_head s) h) as [<-|]; [destruct b|]; simpl; [| by eexists; apply push_cas_inv|];
      exists l; apply (PoolInv_goto k l t _ s); rewrite ?Ht; try done; (split; [|done]); intros ? [= <-]; by eauto.
Qed.

Lemma Pool_step_inv k l e s s' :
  PoolInv k l s → one_popper k e → Pool_step e s = Some s' → ∃ l', PoolInv k l' s'.
Proof.
  intros Hi He. destruct e as [t|t v a|t b]; simpl.
  - simpl in He. subst. destruct (q_thread k s) eqn:Ht; try done. intros [= <-]. exists l.
    apply (PoolInv_goto k l k _ s); by rewrite ?Ht.
  - destruct (q_thread t s) eqn:Ht; try done. destruct (Z.eqb_spec a 0); [done|]. simpl.
    case_bool_decide as Hn; [done|]. intros [= <-]. exists l. apply push_new_inv; try done.
    destruct (q_nodes s !! a) eqn:E; [|done]. by destruct Hn.
  - destruct (pool_try_alloc_step t (q_thread t s) b s) eqn:E; [intros [= <-]; by eapply pool_try_alloc_inv|by apply (pool_dealloc_inv k l)].
Qed.

Lemma Pool_steps_inv k es l s s' :
  PoolInv k l s → Forall (one_popper k) es → Pool_steps es s = Some s' → ∃ l', PoolInv k l' s'.
Proof.
  intros Hi Hes. revert l s Hi. induction Hes as [|e es He Hes IH]; intros l s Hi; simpl; [intros [= <-]; by exists l|].
  destruct (Pool_step e s) as [s1|] eqn:E; simpl; [|done]. destruct (Pool_step_inv k l e s s1 Hi He E) as [l1 Hi1]. by apply (IH l1).
Qed.

(** Dropping the pool frees the nodes of the stack and drops their values. *)
Lemma LockFreePool_drop_chain l m h fuel :
  chain m h l → NoDup l.*1 → (length l < fuel)%nat →
  LockFreePool_drop fuel h m = Some (l.*2, foldl (λ m a, delete a m) m l.*1).
Proof.
  revert m h fuel. induction l as [|[a v] l IH]; intros m h [|fuel] Hc Hn Hf; simpl in *; try lia; [by subst|].
  destruct Hc as (-> & Ha & n & Hm & Hc). apply NoDup_cons in Hn as [Hni Hn]. destruct (Z.eqb_spec a 0); [done|].
  rewrite Hm. simpl. rewrite (IH (delete a m) n); [done| |done|lia].
  eapply chain_ext; [|exact Hc]. intros b Hb. rewrite lookup_delete_ne; [done|]. by intros <-.
Qed.

Lemma lookup_delete_all (ks : list Z) m b : foldl (λ m a, delete a m) m ks !! b = if decide (b ∈ ks) then None else m !! b.
Proof.
  revert m. induction ks as [|a ks IH]; intros m; cbn [foldl]; [by rewrite decide_False by apply not_elem_of_nil|].
  rewrite IH. destruct (decide (b ∈ ks)) as [Hb|Hb].
  - by rewrite decide_True by (by constructor).
  - destruct (decide (b = a)) as [->|Hne]; [by rewrite lookup_delete_eq, decide_True by constructor|].
    rewrite lookup_delete_ne by done. by rewrite decide_False by (by apply not_elem_of_cons).
Qed.

Lemma chain_length m h l : chain m h l → NoDup l.*1 → (length l ≤ size m)%nat.
Proof.
  revert m h. induction l as [|[a v] l IH]; intros m h Hc Hn; simpl; [lia|].
  destruct Hc as (-> & _ & n & Hm & Hc). apply NoDup_cons in Hn as [Hni Hn].
  assert (chain (delete a m) n l) as Hc'.
  { eapply chain_ext; [|exact Hc]. intros b Hb. rewrite lookup_delete_ne; [done|]. by intros <-. }
  pose proof (IH _ _ Hc' Hn) as Hle. rewrite (map_size_delete_Some a m) in Hle by (by eexists).
  assert (size m ≠ 0)%nat by (apply map_size_ne_0_lookup; exists a; by eexists). lia.
Qed.
End invariant.

(** ** A call of [try_alloc], access by access *)
Section steps.
Context {T : Type}.
Implicit Types (s : PoolSys T).

Lemma Pool_steps_cons e es s s1 : Pool_step e s = Some s1 → Pool_steps (e :: es) s = Pool_steps es s1.
Proof. intros E. cbn [Pool_steps]. by rewrite E. Qed.
Lemma q_thread_goto t t' st s : q_thread t' (q_goto t st s) = if decide (t = t') then st else q_thread t' s.
Proof. unfold q_thread, q_goto. cbn [q_threads]. rewrite lookup_insert. by case_decide. Qed.
Lemma Pool_step_at t st s s1 : q_thread t s = st → pool_try_alloc_step t st false s = Some s1 → Pool_step (EStep t false) s = Some s1.
Proof. intros Ht E. unfold Pool_step. by rewrite Ht, E. Qed.

(** A thread enters [try_alloc] and loads the head of a pool that is not empty. *)
Lemma pop_begin t s es :
  q_thread t s = QIdle → q_head s ≠ 0 →
  Pool_steps (EPop t :: EStep t false :: EStep t false :: es) s =
  Pool_steps es (q_goto t (QPopNode (q_head s)) (q_goto t QPopLoop (q_goto t QPopFirst s))).
Proof.
  intros Ht Hh. apply Z.eqb_neq in Hh.
  rewrite (Pool_steps_cons _ _ _ (q_goto t QPopFirst s)) by (unfold Pool_step; by rewrite Ht).
  rewrite (Pool_steps_cons _ _ _ (q_goto t QPopLoop (q_goto t QPopFirst s))).
  2:{ apply (Pool_step_at t QPopFirst); [by rewrite q_thread_goto, decide_True|]. cbn [pool_try_alloc_step q_goto q_head]. by rewrite Hh. }
  apply Pool_steps_cons, (Pool_step_at t QPopLoop); [by rewrite q_thread_goto, decide_True|]. cbn [pool_try_alloc_step q_goto q_head]. by rewrite Hh.
Qed.

(** What the pool is after a whole call of thread [t] that nobody disturbed. *)
Record Popped (t : nat) (v : T) (next : Z) s s' : Prop := mkPopped {
  pd_head : q_head s' = next;
  pd_nodes : q_nodes s' = delete (q_head s) (q_nodes s);
  pd_returned : q_returned s' = q_returned s ++ [v];
  pd_thread t' : q_thread t' s' = if decide (t = t') then QIdle else q_thread t' s
}.

Lemma pop_alone t v next s es :
  q_thread t s = QIdle → q_head s ≠ 0 → q_nodes s !! q_head s = Some (mkNode v next) →
  ∃ s', Pool_steps (EPop t :: EStep t false :: EStep t false :: EStep t false :: EStep t false :: EStep t false :: es) s = Pool_steps es s' ∧
    Popped t v next s s'.
Proof.
  intros Ht Hh Hn. rewrite (pop_begin t s _ Ht Hh). set (s1 := q_goto t (QPopNode (q_head s)) _).
  rewrite (Pool_steps_cons _ _ _ (q_goto t (QPopCas (q_head s) next) s1)).
  2:{ apply (Pool_step_at t (QPopNode (q_head s))); [by unfold s1; rewrite q_thread_goto, decide_True|].
      unfold s1. cbn [pool_try_alloc_step q_goto q_nodes]. by rewrite Hn. }
  set (s2 := q_goto t (QPopCas (q_head s) next) s1).
  rewrite (Pool_steps_cons _ _ _ (q_goto t (QPopRead (q_head s)) (q_swing next OPop s2))).
  2:{ apply (Pool_step_at t (QPopCas (q_head s) next)); [by unfold s2; rewrite q_thread_goto, decide_True|].
      unfold s2, s1. cbn [pool_try_alloc_step q_goto q_head]. by rewrite Z.eqb_refl. }
  set (s3 := q_goto t (QPopRead (q_head s)) _). eexists. split.
  { apply Pool_steps_cons, (Pool_step_at t (QPopRead (q_head s))); [by unfold s3; rewrite q_thread_goto, decide_True|].
    unfold s3, s2, s1. cbn [pool_try_alloc_step q_goto q_swing q_nodes]. rewrite Hn. reflexivity. }
  split; [done..|]. intros t'. rewrite q_thread_goto. case_decide as Hd; [done|].
  unfold q_thread. cbn [q_threads q_set_nodes q_return q_record q_swing q_goto]. by rewrite !lookup_insert_ne by done.
Qed.
End steps.

(** ** Theorems *)

(** C28: the lock-free pool is a stack as long as one thread at a time takes values
    out.  In every interleaving of the atomic accesses of any number of threads
    that put values in ([dealloc]) and one that takes them out ([try_alloc]), with
    spurious failures of the weak compare-exchange and reuse of freed addresses: no
    thread touches a freed node; the values returned, and the one being read, are
    those a stack yields for the exchanges in the order they took effect; and once
    all threads are idle, dropping the pool drops exactly the values the stack
    still holds and leaves no node allocated. *)
Theorem pool_one_popper_linearizable {T} k (es : list (PoolEvent T)) s :
  Forall (one_popper k) es → Pool_steps es LockFreePool_new = Some s →
  (∀ t, q_thread t s ≠ QUb) ∧
  (stack_run (q_log s)).1 = q_returned s ++ pending (q_nodes s) (q_thread k s) ∧
  (pool_idle s →
    LockFreePool_drop (S (size (q_nodes s))) (q_head s) (q_nodes s) = Some ((stack_run (q_log s)).2, ∅)).
Proof.
  intros Hes Hs. destruct (Pool_steps_inv k es [] _ s (LockFreePool_new_inv k) Hes Hs) as [l [Hc Hn Hst Ht _ _ Hl]].
  splits.
  - intros t E. destruct (Ht t) as [_ Hok]. by rewrite E in Hok.
  - by rewrite Hst.
  - intros Hidle. rewrite (LockFreePool_drop_chain l), Hst; [|done|done|pose proof (chain_length _ _ _ Hc Hn); lia].
    simpl. do 2 f_equal. apply map_eq. intros a. rewrite lookup_delete_all, lookup_empty. case_decide as Ha; [done|].
    destruct (q_nodes s !! a) as [n|] eqn:E; [|done]. destruct (Hl a) as [?|[t Ho]]; [by eexists|done|].
    by rewrite (pool_idle_thread s t Hidle) in Ho.
Qed.

(** Threads 1 and 2 put in 10 and 20 while thread 0 takes one out. *)
Lemma pool_one_popper_linearizable_witness :
  let es := [EPush 1 10 64; EPush 2 20 128; EStep 1 false; EStep 2 false; EStep 2 false; EPop 0; EStep 0 false; EStep 0 false;
             EStep 0 false; EStep 1 false; EStep 1 false; EStep 1 false; EStep 0 false; EStep 0 false; EStep 0 false;
             EStep 0 false; EStep 0 false] in
  ∃ s, Pool_steps es LockFreePool_new = Some s ∧ q_returned s = [10] ∧ (stack_run (q_log s)).1 = [10] ∧
    LockFreePool_drop (S (size (q_nodes s))) (q_head s) (q_nodes s) = Some ([20], ∅).
Proof.
  intros es. destruct (Pool_steps es LockFreePool_new) as [s|] eqn:E; [|vm_compute in E; discriminate].
  destruct (pool_one_popper_linearizable 0 es s) as (_ & H2 & H3); [repeat constructor|exact E|].
  vm_compute in E. injection E as <-. eexists. split; [reflexivity|]. split; [reflexivity|]. split; [exact H2|].
  apply H3. apply (bool_decide_unpack _). vm_compute. exact I.
Defined.

(** C40: two threads taking values out at once reach a freed node.  In any state of the
    pool that holds a value, and for any two threads between calls: the first enters
    [try_alloc] and loads the head; the second takes that node out, gets its value and
    frees it; the first then reads the successor of the freed node.  A use after free in
    safe code, since [try_alloc] only needs a shared reference. *)
Theorem pool_use_after_free {T} (s : PoolSys T) t1 t2 v next :
  t1 ≠ t2 → q_thread t1 s = QIdle → q_thread t2 s = QIdle → q_head s ≠ 0 → q_nodes s !! q_head s = Some (mkNode v next) →
  ∃ s', Pool_steps [EPop t1; EStep t1 false; EStep t1 false;
                    EPop t2; EStep t2 false; EStep t2 false; EStep t2 false; EStep t2 false; EStep t2 false;
                    EStep t1 false] s = Some s' ∧
    q_returned s' = q_returned s ++ [v] ∧ q_nodes s' !! q_head s = None ∧ q_thread t1 s' = QUb.
Proof.
  intros Hne H1 H2 Hh Hn. rewrite (pop_begin t1 s _ H1 Hh). set (s1 := q_goto t1 (QPopNode (q_head s)) _).
  assert (q_thread t2 s1 = QIdle) as H2' by (unfold s1; by rewrite !q_thread_goto, !decide_False).
  destruct (pop_alone t2 v next s1 [EStep t1 false] H2' Hh Hn) as (s2 & -> & [_ Hn2 Hr Ht]).
  assert (q_thread t1 s2 = QPopNode (q_head s)) as H1' by (rewrite Ht, decide_False by done; unfold s1; by rewrite q_thread_goto, decide_True).
  exists (q_goto t1 QUb s2). rewrite (Pool_steps_cons _ _ _ (q_goto t1 QUb s2)).
  - split; [done|]. split; [exact Hr|]. split; [cbn [q_goto q_nodes]; rewrite Hn2; apply lookup_delete_eq|by rewrite q_thread_goto, decide_True].
  - apply (Pool_step_at t1 (QPopNode (q_head s))); [done|]. cbn [pool_try_alloc_step]. rewrite Hn2. unfold s1 at 1. cbn [q_goto q_head].
    by rewrite lookup_delete_eq.
Qed.

(** One value put in, then the two threads. *)
Lemma pool_use_after_free_witness :
  ∃ s s', Pool_steps [EPush 0 10 64; EStep 0 false; EStep 0 false] LockFreePool_new = Some s ∧
    Pool_steps [EPop 1; EStep 1 false; EStep 1 false; EPop 2; EStep 2 false; EStep 2 false; EStep 2 false; EStep 2 false; EStep 2 false;
                EStep 1 false] s = Some s' ∧ q_returned s' = [10] ∧ q_thread 1 s' = QUb.
Proof.
  pose (s := default LockFreePool_new (Pool_steps [EPush 0 10 64; EStep 0 false; EStep 0 false] LockFreePool_new)). exists s.
  destruct (pool_use_after_free s 1 2 10 0) as (s' & Es & Hr & _ & Hu).
  - discriminate.
  - vm_compute. reflexivity.
  - vm_compute. reflexivity.
  - vm_compute. discriminate.
  - vm_compute. reflexivity.
  - exists s'. split; [vm_compute; reflexivity|]. split; [exact Es|]. split; [|exact Hu].
    assert (q_returned s = []) as E by (vm_compute; reflexivity). rewrite E in Hr. exact Hr.
Defined.

(** The allocation counter counts down for every value put in: it wraps at once. *)
Lemma pool_stats_wrap :
  ∃ s, Pool_steps [EPush 0 10 64; EStep 0 false; EStep 0 false] LockFreePool_new = Some s ∧
    LockFreeStats_get (q_stats s) = (USIZE_MAX, 0, 0, 0).
Proof. eexists. split; vm_compute; reflexivity. Qed.
