(* ===== verification/LockFreeTelemetry.v ===== *)
(** * LockFreeTelemetry: the hit rate of the lock-free buffer

    [cache_hit_rate] of [LockFreeStats] and [LockFreeAllocator].  [f64] is IEEE 754
    binary64, [Stdlib.Floats.SpecFloat] with 53 bits of precision and the maximal
    exponent 1024. *)
From Stdlib Require Import Floats.SpecFloat.
From S2P Require Import Prelude Memory LockFree.
Local Open Scope Z_scope.

(** [n as f64]: the nearest value. *)
Definition f64_of (n : Z) : spec_float := binary_normalize 53 1024 n 0 false.
Definition f64_div : spec_float → spec_float → spec_float := SFdiv 53 1024.

Section rate.
Context `{cfg : Cfg}.

Definition LockFreeStats_cache_hit_rate (s : LockFreeStats) : outcome spec_float :=
  let hits := ls_cache_hits s in
  total ← usize_add hits (ls_cache_misses s);
  Ok (if total =? 0 then S754_zero false else f64_div (f64_of hits) (f64_of total)).
Definition LockFreeAllocator_cache_hit_rate (a : LockFreeAllocator) : outcome spec_float :=
  match la_buffer a with
  | Some b => LockFreeStats_cache_hit_rate (lf_stats b)
  | None => Ok (S754_zero false)
  end.

End rate.

(** 3 of 4 is [0.75], 1 of 3 the nearest value below a third; nothing recorded is
    [0.0]; a sum that overflows panics in a checked build. *)
Example hit_rates :
  @LockFreeStats_cache_hit_rate cfg_dev (mkLockFreeStats 0 3 1 0) = Ok (S754_finite false 6755399441055744 (-53)) ∧
  @LockFreeStats_cache_hit_rate cfg_dev (mkLockFreeStats 0 1 2 0) = Ok (S754_finite false 6004799503160661 (-54)) ∧
  @LockFreeStats_cache_hit_rate cfg_dev (mkLockFreeStats 0 0 0 0) = Ok (S754_zero false) ∧
  @LockFreeStats_cache_hit_rate cfg_dev (mkLockFreeStats 0 USIZE_MAX 1 0) = Panic "attempt to add with overflow".
Proof. by vm_compute. Qed.
