(* ===== verification/VirtualMemory.v ===== *)
(** * VirtualMemory: reserve and commit

    [VirtualMemoryRegion] and [VirtualChunk] of src/virtual_memory.rs on a unix
    target.  The system calls ([mmap], [mprotect]) are not code of the crate: the
    kernel's answers are a parameter ([OS]), and the calls made are kept in a
    trace, newest first, from which [accessible] reads which addresses may be
    touched. *)
From S2P Require Import Prelude Memory Bump.
Local Open Scope Z_scope.

Definition PAGE_SIZE : Z := 4096.
Definition DEFAULT_COMMIT_SIZE : Z := 65536.
Definition MAX_RESERVE_SIZE : Z := 4294967296.

(** ** System calls *)
Inductive Syscall :=
  | SMmap (p size : Z)                           (* PROT_NONE mapping at p *)
  | SMprotect (p size : Z) (rw ok : bool)        (* rw: PROT_READ | PROT_WRITE, else PROT_NONE *)
  | SMadvise (p size : Z)
  | SMunmap (p size : Z).

(** The kernel: [os_mmap tr size] is the address of a new mapping, [None] for
    [MAP_FAILED]; [os_mprotect] tells whether the call succeeds. *)
Class OS := mkOS {
  os_mmap : list Syscall → Z → option Z;
  os_mprotect : list Syscall → Z → Z → bool → bool
}.

(** What [mmap] documents: the mapping is page aligned, not null and inside the
    address space. *)
Class OSOk (os : OS) : Prop := {
  os_mmap_ok tr size p : 0 < size → os_mmap tr size = Some p →
    0 < p ∧ p `mod` PAGE_SIZE = 0 ∧ p + size ≤ USIZE_MAX
}.

(** An address is accessible when the last successful call that covers it made
    it readable and writable. *)
Fixpoint accessible (tr : list Syscall) (a : Z) : bool :=
  match tr with
  | [] => false
  | SMmap p size :: tr | SMunmap p size :: tr =>
      if decide (a ∈ mkRange p size) then false else accessible tr a
  | SMprotect p size rw ok :: tr =>
      if ok && bool_decide (a ∈ mkRange p size) then rw else accessible tr a
  | SMadvise _ _ :: tr => accessible tr a
  end.

(** ** [VirtualMemoryRegion] *)
Record VirtualMemoryRegion := mkRegion {
  vr_ptr : Z; vr_reserved_size : Z; vr_committed_size : Z
}.
Record VMS := mkVMS { v_region : VirtualMemoryRegion; v_trace : list Syscall }.

Definition set_committed (v : Z) : M VMS unit :=
  modify (λ s, mkVMS (mkRegion (vr_ptr (v_region s)) (vr_reserved_size (v_region s)) v) (v_trace s)).

Section vm.
Context `{cfg : Cfg} `{os : OS}.

Definition clamp (x lo hi : Z) : Z := Z.max lo (Z.min x hi).

Definition VirtualMemoryRegion_new (reserve_size : Z) : M (list Syscall) (Result VirtualMemoryRegion string) :=
  if reserve_size =? 0 then mret (RErr "Reserve size must be nonzero") else
  let reserve_size := clamp reserve_size PAGE_SIZE MAX_RESERVE_SIZE in
  reserve_size ← lift (align_up reserve_size PAGE_SIZE);
  tr ← get;
  match os_mmap tr reserve_size with
  | None => mret (RErr "Failed to reserve virtual memory")
  | Some ptr =>
      _ ← put (SMmap ptr reserve_size :: tr);
      mret (ROk (mkRegion ptr reserve_size 0))
  end.

(** [libc::mprotect], recorded in the trace. *)
Definition mprotect (p size : Z) (rw : bool) : M VMS bool := λ s,
  let ok := os_mprotect (v_trace s) p size rw in
  (Ok ok, mkVMS (v_region s) (SMprotect p size rw ok :: v_trace s)).

Definition VirtualMemoryRegion_commit (offset size : Z) : M VMS (Result unit string) :=
  if size =? 0 then mret (ROk tt) else
  offset ← lift (align_up offset PAGE_SIZE);
  size ← lift (align_up size PAGE_SIZE);
  match checked_add offset size with
  | None => mret (RErr "Commit range overflow")
  | Some end_ =>
      r ← gets v_region;
      if vr_reserved_size r <? end_ then mret (RErr "Commit size exceeds reserved size") else
      ok ← mprotect (vr_ptr r + offset) size true;
      match ok with
      | false => mret (RErr "Failed to commit virtual memory")
      | true => _ ← set_committed (Z.max (vr_committed_size r) end_); mret (ROk tt)
      end
  end.

Definition VirtualMemoryRegion_decommit (offset size : Z) : M VMS (Result unit string) :=
  if size =? 0 then mret (ROk tt) else
  r ← gets v_region;
  if vr_reserved_size r <=? offset then mret (RErr "Offset exceeds reserved size") else
  offset ← lift (align_up offset PAGE_SIZE);
  size ← lift (align_up size PAGE_SIZE);
  match checked_add offset size with
  | None => mret (RErr "Decommit range overflow")
  | Some end_ =>
      if vr_committed_size r <? end_ then mret (RErr "Decommit size exceeds committed size") else
      if negb (size `mod` PAGE_SIZE =? 0) then mret (RErr "Size must be a multiple of page size") else
      if vr_ptr r + offset =? 0 then mret (RErr "Invalid pointer for decommit") else
      ok ← mprotect (vr_ptr r + offset) size false;
      match ok with
      | false => mret (RErr "Failed to decommit virtual memory")
      | true =>
          _ ← modify (λ s, mkVMS (v_region s) (SMadvise (vr_ptr r + offset) size :: v_trace s));
          _ ← (if end_ =? vr_committed_size r then set_committed offset else mret tt);
          mret (ROk tt)
      end
  end.

Definition VirtualMemoryRegion_reset : M VMS unit :=
  r ← gets v_region;
  if 0 <? vr_committed_size r then
    _ ← VirtualMemoryRegion_decommit 0 (vr_committed_size r);
    set_committed 0
  else mret tt.

Definition VirtualMemoryRegion_committed_bytes (r : VirtualMemoryRegion) : Z := vr_committed_size r.

Definition VirtualMemoryRegion_drop (r : VirtualMemoryRegion) : M (list Syscall) unit :=
  if vr_ptr r =? 0 then mret tt
  else modify (λ tr, SMunmap (vr_ptr r) (vr_reserved_size r) :: tr).

(** ** [VirtualChunk] *)
Record VirtualChunk := mkVirtualChunk { vc_vms : VMS; vc_capacity : Z; vc_used : Z }.

Definition VirtualChunk_new (capacity : Z) : M (list Syscall) (Result VirtualChunk string) := λ tr,
  match VirtualMemoryRegion_new capacity tr with
  | (Ok (RErr e), tr) => (Ok (RErr e), tr)
  | (Ok (ROk region), tr) =>
      let initial_commit := Z.min capacity DEFAULT_COMMIT_SIZE in
      match VirtualMemoryRegion_commit 0 initial_commit (mkVMS region tr) with
      | (Ok (RErr e), s) =>
          (* [?] returns and drops [region] *)
          let '(_, tr) := VirtualMemoryRegion_drop (v_region s) (v_trace s) in (Ok (RErr e), tr)
      | (Ok (ROk _), s) => (Ok (ROk (mkVirtualChunk s capacity 0)), v_trace s)
      | (Panic e, s) =>
          (* unwinding drops [region] too *)
          let '(_, tr) := VirtualMemoryRegion_drop (v_region s) (v_trace s) in (Panic e, tr)
      | (Abort e, s) => (Abort e, v_trace s)
      | (UB e, s) => (UB e, v_trace s)
      end
  | (Panic e, tr) => (Panic e, tr)
  | (Abort e, tr) => (Abort e, tr)
  | (UB e, tr) => (UB e, tr)
  end.

(** [spurious]: the single [compare_exchange_weak] fails, although nobody else
    changed [used]. *)
Definition VirtualChunk_allocate (spurious : bool) (layout : Layout) (c : VirtualChunk)
    : outcome (option Z * VirtualChunk) :=
  let size := l_size layout in
  let align := l_align layout in
  let current_used := vc_used c in
  start ← align_up current_used align;
  end_ ← usize_add start size;
  if vc_capacity c <? end_ then Ok (None, c) else
  let committed := vr_committed_size (v_region (vc_vms c)) in
  let finish s :=
    if spurious then Ok (None, mkVirtualChunk s (vc_capacity c) current_used)
    else Ok (Some (vr_ptr (v_region s) + start), mkVirtualChunk s (vc_capacity c) end_) in
  if committed <? end_ then
    additional_size ← usize_sub end_ committed;
    match VirtualMemoryRegion_commit committed additional_size (vc_vms c) with
    | (Ok (RErr _), s) => Ok (None, mkVirtualChunk s (vc_capacity c) current_used)
    | (Ok (ROk _), s) => finish s
    | (Panic e, _) => Panic e
    | (Abort e, _) => Abort e
    | (UB e, _) => UB e
    end
  else finish (vc_vms c).

Definition VirtualChunk_reset (c : VirtualChunk) : outcome VirtualChunk :=
  match VirtualMemoryRegion_reset (vc_vms c) with
  | (Ok _, s) => Ok (mkVirtualChunk s (vc_capacity c) 0)
  | (Panic e, _) => Panic e
  | (Abort e, _) => Abort e
  | (UB e, _) => UB e
  end.
End vm.

(** A kernel that maps at a fixed address and never refuses. *)
Definition simple_os : OS := mkOS (λ _ size, if size <=? MAX_RESERVE_SIZE then Some 65536 else None) (λ _ _ _ _, true).
#[global] Instance simple_os_ok : OSOk simple_os.
Proof.
  constructor. simpl. intros tr size p Hs. destruct (Z.leb_spec size MAX_RESERVE_SIZE); [|done].
  intros [= <-]. split; [done|]. split; [reflexivity|]. unfold MAX_RESERVE_SIZE in *. ulia.
Qed.

(** ** Invariants *)
Definition Region_wf (r : VirtualMemoryRegion) : Prop :=
  0 < vr_ptr r ∧ vr_ptr r `mod` PAGE_SIZE = 0 ∧ vr_ptr r + vr_reserved_size r ≤ USIZE_MAX ∧
  PAGE_SIZE ≤ vr_reserved_size r ≤ MAX_RESERVE_SIZE ∧ vr_reserved_size r `mod` PAGE_SIZE = 0 ∧
  0 ≤ vr_committed_size r ≤ vr_reserved_size r ∧ vr_committed_size r `mod` PAGE_SIZE = 0.

(** Everything below [committed_size] is accessible. *)
Definition prefix_committed (s : VMS) : Prop :=
  ∀ a, a ∈ mkRange (vr_ptr (v_region s)) (vr_committed_size (v_region s)) → accessible (v_trace s) a = true.

Definition VirtualChunk_wf (c : VirtualChunk) : Prop :=
  Region_wf (v_region (vc_vms c)) ∧ prefix_committed (vc_vms c) ∧
  0 ≤ vc_used c ≤ vc_capacity c ∧ vc_used c ≤ vr_committed_size (v_region (vc_vms c)) ∧ vc_capacity c < USIZE_MOD.

Lemma Region_wf_bounds r : Region_wf r →
  0 < vr_ptr r ∧ vr_ptr r + vr_reserved_size r ≤ USIZE_MAX ∧
  4096 ≤ vr_reserved_size r ≤ 4294967296 ∧ 0 ≤ vr_committed_size r ≤ vr_reserved_size r.
Proof. intros (?&?&?&?&?&?&?). unfold PAGE_SIZE, MAX_RESERVE_SIZE in *. lia. Qed.

Section lemmas.
Context `{cfg : Cfg} `{os : OS}.

Lemma page_align x : 0 ≤ x → x + 4096 < USIZE_MOD → align_up x PAGE_SIZE = Ok (align_to x PAGE_SIZE).
Proof. intros. by apply align_up_spec. Qed.

Lemma page_align_bounds x : x ≤ align_to x PAGE_SIZE < x + 4096.
Proof. split; [by apply align_to_ge|]. by apply (align_to_lt x PAGE_SIZE). Qed.

Lemma accessible_cons_commit p size tr a :
  accessible (SMprotect p size true true :: tr) a = true ↔
  a ∈ mkRange p size ∨ accessible tr a = true.
Proof. simpl. case_bool_decide; naive_solver. Qed.

(** [commit], every branch: out of the reservation it fails before any system
    call; otherwise it makes one [mprotect] and records its result. *)
Lemma commit_eq offset size s :
  Region_wf (v_region s) → 0 ≤ offset → 0 < size →
  offset + 4096 < USIZE_MOD → size + 4096 < USIZE_MOD →
  let r := v_region s in
  let o := align_to offset PAGE_SIZE in
  let z := align_to size PAGE_SIZE in
  (vr_reserved_size r < o + z ∧ ∃ e, VirtualMemoryRegion_commit offset size s = (Ok (RErr e), s)) ∨
  (o + z ≤ vr_reserved_size r ∧
   let ok := os_mprotect (v_trace s) (vr_ptr r + o) z true in
   let tr := SMprotect (vr_ptr r + o) z true ok :: v_trace s in
   VirtualMemoryRegion_commit offset size s =
     if ok
     then (Ok (ROk tt), mkVMS (mkRegion (vr_ptr r) (vr_reserved_size r) (Z.max (vr_committed_size r) (o + z))) tr)
     else (Ok (RErr "Failed to commit virtual memory"), mkVMS r tr)).
Proof.
  intros Hr Ho Hz Hom Hzm r o z. unfold VirtualMemoryRegion_commit.
  destruct (Z.eqb_spec size 0); [lia|]. mrun. rewrite !page_align by lia. fold o z. mrun.
  destruct (Region_wf_bounds _ Hr) as (?&?&?&?).
  unfold checked_add. destruct (Z.ltb_spec (o + z) USIZE_MOD).
  2:{ left. split; [subst r; ulia|]. by eexists. }
  mrun. fold r. destruct (Z.ltb_spec (vr_reserved_size r) (o + z)); [left; split; [done|]; by eexists|].
  right. split; [done|]. unfold mprotect. mrun. subst r o z.
  by destruct (os_mprotect _ _ _ _).
Qed.

Lemma set_committed_wf r v : Region_wf r → 0 ≤ v ≤ vr_reserved_size r → v `mod` PAGE_SIZE = 0 →
  Region_wf (mkRegion (vr_ptr r) (vr_reserved_size r) v).
Proof. unfold Region_wf. simpl. intuition. Qed.

Lemma align_to_page_mod x : align_to x PAGE_SIZE `mod` PAGE_SIZE = 0.
Proof. by apply align_to_mod. Qed.

Lemma add_page_mod x y : x `mod` PAGE_SIZE = 0 → y `mod` PAGE_SIZE = 0 → (x + y) `mod` PAGE_SIZE = 0.
Proof. intros Hx Hy. by rewrite Z.add_mod, Hx, Hy. Qed.

(** [commit] at the frontier of the committed prefix, or below it, keeps the
    region well formed and the prefix accessible. *)
Lemma commit_inv offset size s res s' :
  Region_wf (v_region s) → prefix_committed s → 0 < size ≤ USIZE_MAX - 4096 →
  0 ≤ offset ≤ vr_committed_size (v_region s) → offset `mod` PAGE_SIZE = 0 →
  VirtualMemoryRegion_commit offset size s = (Ok res, s') →
  Region_wf (v_region s') ∧ prefix_committed s' ∧
  vr_ptr (v_region s') = vr_ptr (v_region s) ∧ vr_reserved_size (v_region s') = vr_reserved_size (v_region s) ∧
  vr_committed_size (v_region s) ≤ vr_committed_size (v_region s') ∧
  match res with
  | ROk _ => offset + size ≤ vr_committed_size (v_region s')
  | RErr _ => v_region s' = v_region s
  end.
Proof.
  intros Hr Hp Hz Ho Hom. destruct (Region_wf_bounds _ Hr) as (?&?&?&?).
  destruct (commit_eq offset size s) as [[Hlt [e ->]]|[Hle ->]]; [done|lia|lia|ulia|ulia| |].
  { intros. simplify_eq. done. }
  rewrite (align_to_id offset) in * by done. pose proof (page_align_bounds size).
  destruct (os_mprotect _ _ _ _); intros; simplify_eq; simpl.
  2:{ split; [done|]. split; [exact Hp|]. done. }
  split; [|split; [|split; [done|split; [done|lia]]]].
  - apply set_committed_wf; [done|lia|]. destruct (Z.max_spec (vr_committed_size (v_region s)) (offset + align_to size PAGE_SIZE)) as [[_ ->]|[_ ->]].
    + apply add_page_mod; [done|apply align_to_page_mod].
    + by destruct Hr as (?&?&?&?&?&?&?).
  - intros a Ha. apply accessible_cons_commit. simpl in Ha.
    destruct (decide (a < vr_ptr (v_region s) + vr_committed_size (v_region s))).
    + right. apply Hp. range_solve.
    + left. range_solve.
Qed.

(** [VirtualChunk::allocate] always returns; it keeps the chunk well formed and
    either hands out the next aligned range or changes nothing but the trace. *)
Lemma VirtualChunk_allocate_inv sp l c :
  VirtualChunk_wf c → Layout_ok l →
  ∃ r c', VirtualChunk_allocate sp l c = Ok (r, c') ∧ VirtualChunk_wf c' ∧
    vr_ptr (v_region (vc_vms c')) = vr_ptr (v_region (vc_vms c)) ∧
    vr_reserved_size (v_region (vc_vms c')) = vr_reserved_size (v_region (vc_vms c)) ∧
    vc_capacity c' = vc_capacity c ∧
    match r with
    | None => vc_used c' = vc_used c
    | Some p => p = vr_ptr (v_region (vc_vms c)) + align_to (vc_used c) (l_align l) ∧
                vc_used c' = align_to (vc_used c) (l_align l) + l_size l ∧
                vc_used c' ≤ vr_committed_size (v_region (vc_vms c'))
    end.
Proof.
  intros (Hr & Hp & Hu & Huc & Hcap) Hl. pose proof (Layout_align_pos l Hl) as Ha.
  destruct Hl as (Hs & Hpow & Hm). destruct (Region_wf_bounds _ Hr) as (?&?&?&?).
  pose proof (align_to_ge (vc_used c) _ Ha). pose proof (align_to_lt (vc_used c) _ Ha).
  set (st := align_to (vc_used c) (l_align l)) in *. unfold VirtualChunk_allocate.
  rewrite align_up_spec by (done || ulia). mrun. fold st. rewrite usize_add_in by ulia. mrun.
  destruct (Z.ltb_spec (vc_capacity c) (st + l_size l)) as [|Hfit]; [by exists None, c|].
  destruct (Z.ltb_spec (vr_committed_size (v_region (vc_vms c))) (st + l_size l)) as [Hc|Hc].
  2:{ destruct sp; (eexists _, _; split; [done|]); unfold VirtualChunk_wf; simpl; naive_solver lia. }
  rewrite usize_sub_in by ulia. mrun.
  pose (add := st + l_size l - vr_committed_size (v_region (vc_vms c))). fold add.
  assert (0 < add ≤ USIZE_MAX - 4096) as Hadd by (unfold add; ulia).
  assert (vr_committed_size (v_region (vc_vms c)) + add = st + l_size l) as Hend by (unfold add; lia). clearbody add.
  assert (∃ res s', VirtualMemoryRegion_commit (vr_committed_size (v_region (vc_vms c))) add (vc_vms c) = (Ok res, s')) as (res & s' & E).
  { destruct (commit_eq (vr_committed_size (v_region (vc_vms c))) add (vc_vms c)) as [[_ [e ->]]|[_ ->]];
      [done|lia|lia|ulia|ulia|by eexists _, _|]. destruct (os_mprotect _ _ _ _); by eexists _, _. }
  rewrite E.
  apply commit_inv in E as (Hr' & Hp' & Hptr & Hres & Hmono & Hx);
    [|done|done|done|lia|by destruct Hr as (?&?&?&?&?&?&?)].
  destruct res as [?|e]; [destruct sp|]; (eexists _, _; split; [done|]); unfold VirtualChunk_wf; simpl;
    rewrite ?Hptr; naive_solver lia.
Qed.

#[export] Instance VirtualChunk_bump : Bump VirtualChunk := VirtualChunk_allocate false.

#[export] Program Instance VirtualChunk_bump_laws : BumpLaws VirtualChunk := {|
  bump_ok := VirtualChunk_wf;
  bump_avail c a := a ∈ mkRange (vr_ptr (v_region (vc_vms c)) + vc_used c) (vc_capacity c - vc_used c)
|}.
Next Obligation.
  intros l c Hc Hl. destruct (VirtualChunk_allocate_inv false l c Hc Hl) as (r & c' & E & Hc' & Hp & _ & Hcap & Hx).
  exists r, c'. split; [exact E|]. split; [exact Hc'|]. pose proof (Layout_align_pos l Hl) as Ha.
  pose proof (align_to_ge (vc_used c) _ Ha). destruct Hl as (Hs & _). destruct Hc' as (_ & _ & Hu' & _).
  destruct r as [p|].
  - destruct Hx as (-> & Hx & _). split; [range_solve|]. intros p a [= <-]. range_solve.
  - split; [range_solve|done].
Qed.

(** [decommit] below the frontier: every branch. *)
Lemma decommit_eq offset size s :
  Region_wf (v_region s) → 0 ≤ offset < vr_reserved_size (v_region s) → 0 < size →
  size + 4096 < USIZE_MOD →
  let r := v_region s in
  let o := align_to offset PAGE_SIZE in
  let z := align_to size PAGE_SIZE in
  (vr_committed_size r < o + z ∧ ∃ e, VirtualMemoryRegion_decommit offset size s = (Ok (RErr e), s)) ∨
  (o + z ≤ vr_committed_size r ∧
   let ok := os_mprotect (v_trace s) (vr_ptr r + o) z false in
   let tr := SMprotect (vr_ptr r + o) z false ok :: v_trace s in
   VirtualMemoryRegion_decommit offset size s =
     if ok
     then (Ok (ROk tt),
           mkVMS (if o + z =? vr_committed_size r then mkRegion (vr_ptr r) (vr_reserved_size r) o else r)
             (SMadvise (vr_ptr r + o) z :: tr))
     else (Ok (RErr "Failed to decommit virtual memory"), mkVMS r tr)).
Proof.
  intros Hr Ho Hz Hzm r o z. destruct (Region_wf_bounds _ Hr) as (?&?&?&?).
  unfold VirtualMemoryRegion_decommit. destruct (Z.eqb_spec size 0); [lia|]. mrun.
  destruct (Z.leb_spec (vr_reserved_size (v_region s)) offset); [lia|]. mrun.
  rewrite !page_align by ulia. fold o z. mrun. pose proof (page_align_bounds offset) as Hob. fold o in Hob.
  unfold checked_add. destruct (Z.ltb_spec (o + z) USIZE_MOD).
  2:{ left. split; [subst r; ulia|]. by eexists. }
  fold r. destruct (Z.ltb_spec (vr_committed_size r) (o + z)); [left; split; [done|]; by eexists|].
  right. split; [done|]. unfold z at 1. rewrite align_to_page_mod. simpl.
  destruct (Z.eqb_spec (vr_ptr r + o) 0); [subst r; lia|]. unfold mprotect. mrun. fold r.
  destruct (os_mprotect _ _ _ _); [|done]. destruct (Z.eqb_spec (o + z) (vr_committed_size r)); done.
Qed.
End lemmas.

Section new_lemmas.
Context `{cfg : Cfg} {os : OS} `{!OSOk os}.

Lemma clamp_bounds x : 0 < x → PAGE_SIZE ≤ clamp x PAGE_SIZE MAX_RESERVE_SIZE ≤ MAX_RESERVE_SIZE.
Proof. unfold clamp, PAGE_SIZE, MAX_RESERVE_SIZE. lia. Qed.

Lemma reserve_bounds x : 0 < x →
  let z := align_to (clamp x PAGE_SIZE MAX_RESERVE_SIZE) PAGE_SIZE in
  PAGE_SIZE ≤ z ≤ MAX_RESERVE_SIZE ∧ Z.min x MAX_RESERVE_SIZE ≤ z.
Proof.
  intros Hx z. pose proof (clamp_bounds x Hx).
  assert (clamp x PAGE_SIZE MAX_RESERVE_SIZE ≤ z) by (by apply align_to_ge).
  assert (z ≤ MAX_RESERVE_SIZE) by (apply align_to_least; [done|lia|reflexivity]).
  unfold clamp in *. lia.
Qed.

Lemma VirtualMemoryRegion_new_eq x tr : 0 < x →
  let z := align_to (clamp x PAGE_SIZE MAX_RESERVE_SIZE) PAGE_SIZE in
  VirtualMemoryRegion_new x tr =
    match os_mmap tr z with
    | None => (Ok (RErr "Failed to reserve virtual memory"), tr)
    | Some p => (Ok (ROk (mkRegion p z 0)), SMmap p z :: tr)
    end.
Proof.
  intros Hx z. unfold VirtualMemoryRegion_new. destruct (Z.eqb_spec x 0); [lia|].
  pose proof (clamp_bounds x Hx). unfold PAGE_SIZE, MAX_RESERVE_SIZE in *.
  mrun. rewrite page_align by ulia. by destruct (os_mmap _ _).
Qed.

Lemma region_fresh_wf x tr p : 0 < x →
  let z := align_to (clamp x PAGE_SIZE MAX_RESERVE_SIZE) PAGE_SIZE in
  os_mmap tr z = Some p → Region_wf (mkRegion p z 0).
Proof.
  intros Hx z Hp. destruct (reserve_bounds x Hx) as [Hz _]. fold z in Hz. unfold PAGE_SIZE in Hz.
  destruct (os_mmap_ok tr z p) as (?&?&?); [lia|done|]. unfold Region_wf. simpl. unfold PAGE_SIZE in *.
  split; [done|]. split; [done|]. split; [lia|]. split; [lia|]. split; [apply align_to_page_mod|]. split; [lia|done].
Qed.

Lemma VirtualChunk_new_wf capacity tr c tr' :
  0 < capacity < USIZE_MOD → VirtualChunk_new capacity tr = (Ok (ROk c), tr') →
  VirtualChunk_wf c ∧ vc_used c = 0 ∧ vc_capacity c = capacity ∧ v_trace (vc_vms c) = tr'.
Proof.
  intros Hc. unfold VirtualChunk_new. rewrite VirtualMemoryRegion_new_eq by lia.
  destruct (os_mmap _ _) as [p|] eqn:Hm; [|done].
  pose proof (region_fresh_wf capacity tr p ltac:(lia) Hm) as Hr. simpl in Hr.
  set (z := align_to _ _) in *.
  assert (prefix_committed (mkVMS (mkRegion p z 0) (SMmap p z :: tr))) as Hpre
    by (intros a Ha; simpl in Ha; range_solve).
  destruct (VirtualMemoryRegion_commit _ _ _) as [[[?|e]|e|e|e] s] eqn:E; try done;
    [|by destruct (VirtualMemoryRegion_drop _ _)..]. intros. simplify_eq.
  unfold DEFAULT_COMMIT_SIZE in E.
  apply commit_inv in E as (Hr' & Hp' & Hptr & Hres & Hmono & Hx); [|done|done|ulia|simpl; lia|done].
  unfold VirtualChunk_wf. simpl in *. naive_solver lia.
Qed.
End new_lemmas.

(** ** Theorems *)

(** [VirtualMemoryRegion::new] for every nonzero request.  The reservation is
    a whole number of pages, at least the request or the 4 GiB limit, never above
    the limit; nothing of it is committed or accessible; and the only way to fail
    is that [mmap] does, which leaves no mapping behind. *)
Theorem VirtualMemoryRegion_new_spec `{cfg : Cfg} {os : OS} `{!OSOk os} reserve_size tr :
  0 < reserve_size < USIZE_MOD →
  (∃ r, VirtualMemoryRegion_new reserve_size tr = (Ok (ROk r), SMmap (vr_ptr r) (vr_reserved_size r) :: tr) ∧
     Region_wf r ∧ vr_committed_size r = 0 ∧ Z.min reserve_size MAX_RESERVE_SIZE ≤ vr_reserved_size r ∧
     ∀ a, a ∈ mkRange (vr_ptr r) (vr_reserved_size r) →
       accessible (SMmap (vr_ptr r) (vr_reserved_size r) :: tr) a = false) ∨
  VirtualMemoryRegion_new reserve_size tr = (Ok (RErr "Failed to reserve virtual memory"), tr).
Proof.
  intros Hx. rewrite VirtualMemoryRegion_new_eq by lia.
  pose proof (reserve_bounds reserve_size ltac:(lia)) as Hb. simpl in Hb.
  destruct (os_mmap _ _) as [p|] eqn:Hm; [left|by right].
  exists (mkRegion p (align_to (clamp reserve_size PAGE_SIZE MAX_RESERVE_SIZE) PAGE_SIZE) 0). split; [done|]. split; [apply (region_fresh_wf reserve_size tr p); [lia|done]|]. simpl.
  split; [done|]. split; [lia|]. intros a Ha. by rewrite decide_True.
Qed.

Lemma VirtualMemoryRegion_new_spec_witness :
  (∃ r, @VirtualMemoryRegion_new cfg_release simple_os 5000 [] =
          (Ok (ROk r), [SMmap (vr_ptr r) (vr_reserved_size r)]) ∧
     Region_wf r ∧ vr_committed_size r = 0 ∧ 5000 ≤ vr_reserved_size r ∧
     ∀ a, a ∈ mkRange (vr_ptr r) (vr_reserved_size r) →
       accessible [SMmap (vr_ptr r) (vr_reserved_size r)] a = false) ∨
  @VirtualMemoryRegion_new cfg_release simple_os 5000 [] = (Ok (RErr "Failed to reserve virtual memory"), []).
Proof. apply (@VirtualMemoryRegion_new_spec cfg_release simple_os simple_os_ok 5000 []). done. Defined.

(** C30: every object a [VirtualChunk] hands out can be touched.  From a new
    chunk, any sequence of allocations returns (no panic, no overflow) and the
    objects granted are pairwise disjoint, lie inside the reservation, below the
    chunk's capacity, and every byte of them is committed: readable and writable
    according to the system calls made. *)
Theorem virtual_allocs_accessible `{cfg : Cfg} {os : OS} `{!OSOk os} capacity tr c tr' ls :
  0 < capacity < USIZE_MOD → VirtualChunk_new capacity tr = (Ok (ROk c), tr') → Forall Layout_ok ls →
  ∃ rs c', bump_run ls c = Ok (rs, c') ∧ length rs = length ls ∧
    pw_disjoint (granted ls rs) ∧
    let region := v_region (vc_vms c) in
    Forall (λ r, ∀ a, a ∈ r →
      a ∈ mkRange (vr_ptr region) (Z.min capacity (vr_reserved_size region)) ∧
      accessible (v_trace (vc_vms c')) a = true) (granted ls rs).
Proof.
  intros Hcap Hn Hls. destruct (VirtualChunk_new_wf _ _ _ _ Hcap Hn) as (Hw & Hu & Hc & _).
  destruct (bump_run_spec ls c) as (rs & c' & E & _ & Hlen & _ & Hin & Hd); [exact Hw|exact Hls|].
  exists rs, c'. split; [exact E|]. split; [exact Hlen|]. split; [exact Hd|].
  pose (P x := VirtualChunk_wf x ∧ vr_ptr (v_region (vc_vms x)) = vr_ptr (v_region (vc_vms c)) ∧
    vr_reserved_size (v_region (vc_vms x)) = vr_reserved_size (v_region (vc_vms c)) ∧ vc_capacity x = capacity).
  assert (P c') as (Hw' & Hp' & Hr' & Hc').
  { apply (bump_run_preserve P ls c rs c'); [|split_and!; try done; by destruct Hw as (?&?&?)|done|exact E].
    unfold P. intros l x r x' (Hx & <- & <- & <-) Hl Ea.
    destruct (VirtualChunk_allocate_inv false l x Hx Hl) as (r2 & x2 & E2 & ?&?&?&?&_).
    change (VirtualChunk_allocate false l x = Ok (r, x')) in Ea. rewrite Ea in E2. injection E2 as <- <-. done. }
  destruct Hw' as (Hrw & Hpre & Hu' & Huc & _). destruct (Region_wf_bounds _ Hrw) as (?&?&?&?).
  eapply Forall_impl; [exact Hin|]. intros r Hr a Ha. destruct (Hr a Ha) as [Hav Hnav].
  unfold bump_avail in Hav, Hnav. simpl in Hav, Hnav.
  split; [range_solve|]. apply Hpre. range_solve.
Qed.

Lemma virtual_allocs_accessible_witness :
  let c := mkVirtualChunk (mkVMS (mkRegion 65536 102400 65536)
             [SMprotect 65536 65536 true true; SMmap 65536 102400]) 100000 0 in
  ∃ rs c', @bump_run _ (@VirtualChunk_bump cfg_dev simple_os) [mkLayout 70000 16; mkLayout 8 8] c = Ok (rs, c') ∧
    length rs = 2%nat ∧ pw_disjoint (granted [mkLayout 70000 16; mkLayout 8 8] rs) ∧
    Forall (λ r, ∀ a, a ∈ r → a ∈ mkRange 65536 (Z.min 100000 102400) ∧
      accessible (v_trace (vc_vms c')) a = true) (granted [mkLayout 70000 16; mkLayout 8 8] rs).
Proof.
  intros c. apply (@virtual_allocs_accessible cfg_dev simple_os simple_os_ok 100000 []  c
    [SMprotect 65536 65536 true true; SMmap 65536 102400]).
  - done.
  - vm_compute. reflexivity.
  - repeat constructor; vm_compute; intuition discriminate.
Defined.

(** [decommit] on a well-formed region, every branch.  A range that is not
    wholly committed is refused without a system call; a failing [mprotect]
    leaves the region as it was; on success no byte of the range is accessible
    any more, bytes outside it are untouched, and the region stays well formed,
    its committed prefix shrinking exactly when the range was its tail. *)
Theorem decommit_spec `{cfg : Cfg} `{os : OS} offset size s :
  Region_wf (v_region s) → 0 ≤ offset < vr_reserved_size (v_region s) → 0 < size → size + 4096 < USIZE_MOD →
  let r := v_region s in
  let o := align_to offset PAGE_SIZE in
  let z := align_to size PAGE_SIZE in
  ∃ res s', VirtualMemoryRegion_decommit offset size s = (Ok res, s') ∧ Region_wf (v_region s') ∧
    match res with
    | RErr _ => v_region s' = r ∧ (vr_committed_size r < o + z → s' = s) ∧
                (∀ a, accessible (v_trace s') a = accessible (v_trace s) a)
    | ROk _ => o + z ≤ vr_committed_size r ∧
               vr_committed_size (v_region s') = (if o + z =? vr_committed_size r then o else vr_committed_size r) ∧
               (∀ a, accessible (v_trace s') a =
                  if decide (a ∈ mkRange (vr_ptr r + o) z) then false else accessible (v_trace s) a)
    end.
Proof.
  intros Hr Ho Hz Hm r o z. destruct (Region_wf_bounds _ Hr) as (?&?&?&?).
  destruct (decommit_eq offset size s Hr Ho Hz Hm) as [[Hlt [e ->]]|[Hle ->]]; simpl.
  { eexists _, _. split; [done|]. done. }
  pose proof (page_align_bounds size). pose proof (page_align_bounds offset). fold r o z.
  change (o + z ≤ vr_committed_size r) in Hle. change (0 ≤ vr_committed_size r ≤ vr_reserved_size r) in H2.
  destruct (os_mprotect _ _ _ _); eexists _, _; (split; [done|]); simpl.
  2:{ split; [done|]. split; [done|]. split; [lia|done]. }
  split; [|split; [done|split]].
  - destruct (Z.eqb_spec (o + z) (vr_committed_size r)); [|done].
    apply set_committed_wf; [done|lia|apply align_to_page_mod].
  - by destruct (o + z =? vr_committed_size r).
  - intros a. case_bool_decide; case_decide; done.
Qed.

Lemma decommit_spec_witness :
  let s := mkVMS (mkRegion 65536 16384 8192) [SMprotect 65536 8192 true true; SMmap 65536 16384] in
  ∃ res s', @VirtualMemoryRegion_decommit cfg_release simple_os 4096 100 s = (Ok res, s') ∧ Region_wf (v_region s') ∧
    match res with
    | RErr _ => v_region s' = v_region s ∧ (8192 < 8192 → s' = s) ∧
                (∀ a, accessible (v_trace s') a = accessible (v_trace s) a)
    | ROk _ => 8192 ≤ 8192 ∧ vr_committed_size (v_region s') = 4096 ∧
               (∀ a, accessible (v_trace s') a =
                  if decide (a ∈ mkRange 69632 4096) then false else accessible (v_trace s) a)
    end.
Proof.
  intros s. apply (@decommit_spec cfg_release simple_os 4096 100 s).
  - vm_compute. intuition discriminate.
  - vm_compute. intuition discriminate.
  - done.
  - done.
Defined.

(** [commit] rounds the offset of its range up to a page, not down, so a
    range that starts inside a page is not committed: on a fresh well-formed
    region [commit(1, 1)] succeeds, reports 8192 committed bytes, and the byte
    asked for is not accessible. *)
Theorem commit_unaligned_offset :
  let s := mkVMS (mkRegion 65536 16384 0) [SMmap 65536 16384] in
  ∃ s', @VirtualMemoryRegion_commit cfg_release simple_os 1 1 s = (Ok (ROk tt), s') ∧
    Region_wf (v_region s) ∧ VirtualMemoryRegion_committed_bytes (v_region s') = 8192 ∧
    accessible (v_trace s') (vr_ptr (v_region s') + 1) = false.
Proof.
  intros s. eexists. split; [vm_compute; reflexivity|]. split; [vm_compute; intuition discriminate|].
  split; [reflexivity|]. vm_compute. reflexivity.
Qed.
