(* ===== verification/Debug.v ===== *)
(** * Debug: guards, allocation registry and use-after-rewind detection

    src/debug.rs, and [DebugStats] of src/core.rs.  The state is the global
    [DEBUG_STATE] with the poison flag of its lock, [VALIDATION_ENABLED], and the
    memory that the guards live in.  Pointers are dereferenced through the
    checked accesses of Memory.v, so a read or write outside of a live block is
    [UB].  The target is little-endian ([to_ne_bytes]).  The text of a captured
    backtrace comes from the standard library and is a parameter. *)
From stdpp Require Import pretty.
From S2P Require Import Prelude Memory.
Local Open Scope Z_scope.

Definition GUARD_MAGIC : Z := 16045690984503098046. (* 0xDEADBEEFCAFEBABE *)
Definition FREED_MAGIC : Z := 18369614221190019774. (* 0xFEEDFACECAFEBABE *)
Definition GUARD_SIZE : Z := 16.

(** ** Bytes of integers *)
Fixpoint le_bytes (n : nat) (z : Z) : list Z :=
  match n with
  | O => []
  | S n => z `mod` 256 :: le_bytes n (z `div` 256)
  end.
Fixpoint le_value (bs : list Z) : Z :=
  match bs with
  | [] => 0
  | b :: bs => b + 256 * le_value bs
  end.

(** ** [DebugGuard] *)
Record DebugGuard := mkDebugGuard {
  dg_pre_guard : list Z;
  dg_post_guard : list Z;
  dg_magic : Z;
  dg_size : Z;
  dg_checkpoint_id : Z
}.

(** [size_of::<DebugGuard>()] with [repr(C)]: no padding. *)
Definition SIZEOF_DebugGuard : Z := 56.

(** [bytes[i % bytes.len()]] for [i] in [0..GUARD_SIZE]. *)
Definition guard_pattern : list Z := le_bytes 8 GUARD_MAGIC ++ le_bytes 8 GUARD_MAGIC.

Definition DebugGuard_new (size checkpoint_id : Z) : DebugGuard :=
  mkDebugGuard guard_pattern guard_pattern GUARD_MAGIC size checkpoint_id.

(** The loop of [validate] over the bytes of both guards. *)
Fixpoint guard_bytes_check (pattern pre post : list Z) : Result unit string :=
  match pattern, pre, post with
  | expected :: pattern, a :: pre, b :: post =>
      if negb (a =? expected) then RErr "Pre-guard corrupted"
      else if negb (b =? expected) then RErr "Post-guard corrupted"
      else guard_bytes_check pattern pre post
  | _, _, _ => ROk tt
  end.

Definition DebugGuard_validate (g : DebugGuard) : Result unit string :=
  if negb (dg_magic g =? GUARD_MAGIC) then RErr "Magic number corrupted"
  else guard_bytes_check guard_pattern (dg_pre_guard g) (dg_post_guard g).

(** The object representation of a guard, and its inverse. *)
Definition DebugGuard_bytes (g : DebugGuard) : list Z :=
  dg_pre_guard g ++ dg_post_guard g ++ le_bytes 8 (dg_magic g) ++ le_bytes 8 (dg_size g) ++
  le_bytes 8 (dg_checkpoint_id g).
Definition DebugGuard_of_bytes (bs : list Z) : DebugGuard :=
  mkDebugGuard (take 16 bs) (take 16 (drop 16 bs)) (le_value (take 8 (drop 32 bs)))
    (le_value (take 8 (drop 40 bs))) (le_value (take 8 (drop 48 bs))).

(** ** [DebugState] *)
Record AllocationInfo := mkAllocationInfo {
  ai_ptr : Z; ai_size : Z; ai_checkpoint_id : Z; ai_captured_backtrace : option string
}.

Record DebugState := mkDebugState {
  ds_allocations : gmap Z (list AllocationInfo);
  ds_arena_checkpoints : gmap Z Z;
  ds_next_arena_id : Z;
  ds_corrupted_allocations : Z;
  ds_leak_reports : Z;
  ds_backtraces_enabled : bool
}.

(** [DEBUG_STATE] behind its lock, [VALIDATION_ENABLED], and the memory. *)
Record Debug := mkDebug { db_state : DebugState; db_poisoned : bool; db_validation : bool }.
Record DW := mkDW { dw_debug : Debug; dw_mem : Mem }.

(** [DebugStats] of core.rs. *)
Record DebugStats := mkDebugStats {
  dst_total_allocations : Z; dst_active_checkpoints : Z; dst_current_checkpoint_id : Z;
  dst_corrupted_allocations : Z; dst_leak_reports : Z
}.
Definition DebugStats_default : DebugStats := mkDebugStats 0 0 0 0 0.

Definition on_mem {A} (m : M Mem A) : M DW A := zoom dw_mem (λ m w, mkDW (dw_debug w) m) m.
Definition ds_get : M DW DebugState := gets (λ w, db_state (dw_debug w)).
Definition ds_put (s : DebugState) : M DW unit :=
  modify (λ w, mkDW (mkDebug s (db_poisoned (dw_debug w)) (db_validation (dw_debug w))) (dw_mem w)).
Definition ds_poisoned : M DW bool := gets (λ w, db_poisoned (dw_debug w)).

(** ** Formatting *)
Definition newline : string := String (Ascii.ascii_of_nat 10) EmptyString.
Definition hex_digit (d : Z) : Ascii.ascii :=
  Ascii.ascii_of_nat (Z.to_nat (if d <? 10 then 48 + d else 87 + d)).
Fixpoint hex_digits (fuel : nat) (z : Z) (acc : string) : string :=
  match fuel with
  | O => acc
  | S fuel =>
      let acc := String (hex_digit (z `mod` 16)) acc in
      if z `div` 16 =? 0 then acc else hex_digits fuel (z `div` 16) acc
  end.
(** [{:p}] of a 64-bit pointer. *)
Definition fmt_ptr (p : Z) : string := "0x" +:+ hex_digits 16 p EmptyString.
Definition fmt_usize (z : Z) : string := pretty z.

Section debug.
Context `{cfg : Cfg} `{ga : GlobalAlloc}.
(** What [Backtrace::capture().to_string()] yields. *)
Context (backtrace : string).

Definition DebugState_new : DebugState := mkDebugState ∅ ∅ 1 0 0 feat_debug.

Definition capture_backtrace (s : DebugState) : option string :=
  if negb (ds_backtraces_enabled s) then None
  else if feat_debug then Some backtrace else None.

Definition DebugState_register_allocation (arena_id ptr size checkpoint_id : Z) (s : DebugState) : DebugState :=
  let info := mkAllocationInfo ptr size checkpoint_id (capture_backtrace s) in
  mkDebugState
    (<[arena_id := vec_push info (default [] (ds_allocations s !! arena_id))]> (ds_allocations s))
    (<[arena_id := checkpoint_id]> (ds_arena_checkpoints s))
    (ds_next_arena_id s) (ds_corrupted_allocations s) (ds_leak_reports s) (ds_backtraces_enabled s).

(** The loop of [validate_allocation] over the allocations of the arena. *)
Fixpoint validate_find (current : option Z) (ptr : Z) (infos : list AllocationInfo) : M Mem (Result unit string) :=
  match infos with
  | [] => mret (RErr "Allocation not found")
  | info :: infos =>
      if ai_ptr info =? ptr then
        if match current with Some c => c <? ai_checkpoint_id info | None => false end
        then mret (RErr "Use-after-rewind detected")
        else
          bs ← mem_load (ptr - GUARD_SIZE) (Z.to_nat SIZEOF_DebugGuard);
          mret (DebugGuard_validate (DebugGuard_of_bytes bs))
      else validate_find current ptr infos
  end.

Definition DebugState_validate_allocation (s : DebugState) (arena_id ptr : Z) : M Mem (Result unit string) :=
  match ds_allocations s !! arena_id with
  | Some infos => validate_find (ds_arena_checkpoints s !! arena_id) ptr infos
  | None => mret (RErr "Allocation not found")
  end.

(** The allocations of [infos] that do not validate, each with its error. *)
Fixpoint validate_each (s : DebugState) (arena_id : Z) (infos : list AllocationInfo)
    : M Mem (list (AllocationInfo * string)) :=
  match infos with
  | [] => mret []
  | info :: infos =>
      r ← DebugState_validate_allocation s arena_id (ai_ptr info);
      rest ← validate_each s arena_id infos;
      mret (match r with ROk _ => rest | RErr e => (info, e) :: rest end)
  end.

Definition DebugState_validate_arena (s : DebugState) (arena_id : Z) : M Mem (Result unit string) :=
  match ds_allocations s !! arena_id with
  | Some infos =>
      bad ← validate_each s arena_id infos;
      let reports := (λ ie : AllocationInfo * string,
        "Pointer " +:+ fmt_ptr (ai_ptr ie.1) +:+ ": " +:+ ie.2 +:+ newline +:+
        default "<backtrace unavailable>" (ai_captured_backtrace ie.1)) <$> bad in
      mret (match reports with [] => ROk tt | _ => RErr (String.concat newline reports) end)
  | None => mret (RErr "Arena not found")
  end.

Definition DebugState_leak_report (arena_id : Z) (s : DebugState) : outcome (list string * DebugState) :=
  let reports := (λ info,
    "Leaked allocation: ptr=" +:+ fmt_ptr (ai_ptr info) +:+ ", size=" +:+ fmt_usize (ai_size info) +:+
    ", checkpoint=" +:+ fmt_usize (ai_checkpoint_id info) +:+ newline +:+
    default "<backtrace unavailable>" (ai_captured_backtrace info)) <$> default [] (ds_allocations s !! arena_id) in
  n ← usize_add (ds_leak_reports s) (Z.of_nat (length reports));
  Ok (reports, mkDebugState (ds_allocations s) (ds_arena_checkpoints s) (ds_next_arena_id s)
                 (ds_corrupted_allocations s) n (ds_backtraces_enabled s)).

(** Taints the guard of every allocation made after the checkpoint. *)
Fixpoint taint (checkpoint_id : Z) (infos : list AllocationInfo) : M Mem unit :=
  match infos with
  | [] => mret tt
  | info :: infos =>
      _ ← (if checkpoint_id <? ai_checkpoint_id info then mem_store (ai_ptr info - GUARD_SIZE) [0] else mret tt);
      taint checkpoint_id infos
  end.

Definition DebugState_rewind_to_checkpoint (arena_id checkpoint_id : Z) : M DW unit :=
  s ← ds_get;
  _ ← ds_put (mkDebugState (ds_allocations s) (<[arena_id := checkpoint_id]> (ds_arena_checkpoints s))
                (ds_next_arena_id s) (ds_corrupted_allocations s) (ds_leak_reports s) (ds_backtraces_enabled s));
  match ds_allocations s !! arena_id with
  | Some infos => on_mem (taint checkpoint_id infos)
  | None => mret tt
  end.

Definition DebugState_get_stats (s : DebugState) (arena_id : Z) : Z * Z :=
  (match ds_allocations s !! arena_id with Some l => Z.of_nat (length l) | None => 0 end,
   ds_corrupted_allocations s).
Definition DebugState_get_current_checkpoint_id (s : DebugState) (arena_id : Z) : Z :=
  default 0 (ds_arena_checkpoints s !! arena_id).
Definition DebugState_check_use_after_rewind (s : DebugState) (arena_id ptr : Z) : M Mem (Result unit string) :=
  DebugState_validate_allocation s arena_id ptr.
Definition DebugState_cleanup_arena (arena_id : Z) (s : DebugState) : DebugState :=
  mkDebugState (delete arena_id (ds_allocations s)) (delete arena_id (ds_arena_checkpoints s))
    (ds_next_arena_id s) (ds_corrupted_allocations s) (ds_leak_reports s) (ds_backtraces_enabled s).

(** ** The public interface of the module *)
Definition register_allocation (arena_id ptr size checkpoint_id : Z) : M DW unit :=
  poisoned ← ds_poisoned;
  match poisoned with
  | true => mret tt
  | false => s ← ds_get; ds_put (DebugState_register_allocation arena_id ptr size checkpoint_id s)
  end.

Definition validate_allocation (arena_id ptr : Z) : M DW (Result unit string) :=
  w ← get;
  if negb (db_validation (dw_debug w)) then mret (ROk tt)
  else if db_poisoned (dw_debug w) then mret (RErr "Debug state locked")
  else on_mem (DebugState_validate_allocation (db_state (dw_debug w)) arena_id ptr).

Fixpoint rewind_each (arena_ids : list Z) (checkpoint_id : Z) : M DW unit :=
  match arena_ids with
  | [] => mret tt
  | arena_id :: arena_ids =>
      _ ← DebugState_rewind_to_checkpoint arena_id checkpoint_id;
      rewind_each arena_ids checkpoint_id
  end.
Definition rewind_to_checkpoint (checkpoint_id : Z) : M DW unit :=
  w ← get;
  if db_poisoned (dw_debug w) then mret tt
  else rewind_each (map_to_list (ds_arena_checkpoints (db_state (dw_debug w)))).*1 checkpoint_id.

Definition rewind_arena_to_checkpoint (arena_id checkpoint_id : Z) : M DW unit :=
  w ← get;
  if db_poisoned (dw_debug w) then mret tt else DebugState_rewind_to_checkpoint arena_id checkpoint_id.

Definition validate_arena (arena_id : Z) : M DW (Result unit string) :=
  w ← get;
  if negb (db_validation (dw_debug w)) then mret (ROk tt)
  else if db_poisoned (dw_debug w) then mret (RErr "Debug state locked")
  else on_mem (DebugState_validate_arena (db_state (dw_debug w)) arena_id).

Definition enable_validation (enable : bool) : M DW unit :=
  modify (λ w, mkDW (mkDebug (db_state (dw_debug w)) (db_poisoned (dw_debug w)) enable) (dw_mem w)).

Definition leak_report (arena_id : Z) : M DW (list string) :=
  w ← get;
  if db_poisoned (dw_debug w) then mret ["Debug state locked"]
  else '(reports, s) ← lift (DebugState_leak_report arena_id (db_state (dw_debug w)));
       _ ← ds_put s; mret reports.

Definition get_debug_stats (d : Debug) : DebugStats :=
  if db_poisoned d then DebugStats_default else
  let s := db_state d in
  mkDebugStats
    (map_fold (λ _ l n, n + Z.of_nat (length l)) 0 (ds_allocations s))
    (Z.of_nat (size (ds_arena_checkpoints s)))
    (map_fold (λ _ c m, Z.max c m) 0 (ds_arena_checkpoints s))
    (ds_corrupted_allocations s) (ds_leak_reports s).

Definition cleanup_arena (arena_id : Z) : M DW unit :=
  w ← get;
  if db_poisoned (dw_debug w) then mret tt
  else ds_put (DebugState_cleanup_arena arena_id (db_state (dw_debug w))).

Definition validate_all_allocations (arena_id : Z) : M DW (Result unit string) :=
  w ← get;
  if db_poisoned (dw_debug w) then mret (RErr "Debug state locked") else
  match ds_allocations (db_state (dw_debug w)) !! arena_id with
  | Some infos =>
      bad ← on_mem (validate_each (db_state (dw_debug w)) arena_id infos);
      let errors := (λ ie : AllocationInfo * string,
        "Pointer " +:+ fmt_ptr (ai_ptr ie.1) +:+ ": " +:+ ie.2) <$> bad in
      mret (match errors with [] => ROk tt | _ => RErr (String.concat "; " errors) end)
  | None => mret (ROk tt)
  end.

Definition check_memory_corruption (arena_id : Z) : M DW Z :=
  w ← get;
  if db_poisoned (dw_debug w) then mret 0 else
  match ds_allocations (db_state (dw_debug w)) !! arena_id with
  | Some infos =>
      bad ← on_mem (validate_each (db_state (dw_debug w)) arena_id infos);
      mret (Z.of_nat (length bad))
  | None => mret 0
  end.

(** ** [DebugAllocator] *)
Record DebugAllocator := mkDebugAllocator { da_arena_id : Z; da_enabled : bool }.

Definition DebugAllocator_new : M DW DebugAllocator :=
  w ← get;
  if db_poisoned (dw_debug w) then mret (mkDebugAllocator 1 true) else
  s ← ds_get;
  _ ← ds_put (mkDebugState (ds_allocations s) (ds_arena_checkpoints s) (fetch_add (ds_next_arena_id s) 1)
                (ds_corrupted_allocations s) (ds_leak_reports s) (ds_backtraces_enabled s));
  mret (mkDebugAllocator (ds_next_arena_id s) true).
Definition DebugAllocator_enable (a : DebugAllocator) : DebugAllocator := mkDebugAllocator (da_arena_id a) true.
Definition DebugAllocator_disable (a : DebugAllocator) : DebugAllocator := mkDebugAllocator (da_arena_id a) false.

Definition allocate_with_guard (a : DebugAllocator) (ptr size checkpoint_id : Z) : M DW Z :=
  if negb (da_enabled a) then mret ptr else
  total_size ← lift (usize_add size (2 * GUARD_SIZE));
  total_size ← lift (usize_add total_size SIZEOF_DebugGuard);
  match Layout_from_size_align total_size 16 with
  | None => mret ptr
  | Some layout =>
      debug_ptr ← on_mem (sys_alloc layout);
      if debug_ptr =? 0 then mret ptr else
      let guard := DebugGuard_new size checkpoint_id in
      let user := debug_ptr + (SIZEOF_DebugGuard + GUARD_SIZE) in
      _ ← on_mem (mem_store debug_ptr (DebugGuard_bytes guard));
      _ ← on_mem (mem_store (debug_ptr + SIZEOF_DebugGuard) (dg_pre_guard guard));
      _ ← on_mem (mem_copy ptr user (Z.to_nat size));
      _ ← on_mem (mem_store (user + size) (dg_post_guard guard));
      _ ← register_allocation (da_arena_id a) user size checkpoint_id;
      mret user
  end.

Definition DebugAllocator_validate_pointer (a : DebugAllocator) (ptr : Z) : M DW (Result unit string) :=
  if negb (da_enabled a) then mret (ROk tt) else validate_allocation (da_arena_id a) ptr.
Definition DebugAllocator_validate_arena (a : DebugAllocator) : M DW (Result unit string) :=
  validate_arena (da_arena_id a).
Definition DebugAllocator_leak_report (a : DebugAllocator) : M DW (list string) := leak_report (da_arena_id a).
Definition DebugAllocator_rewind (a : DebugAllocator) (checkpoint_id : Z) : M DW unit :=
  if da_enabled a then rewind_to_checkpoint checkpoint_id else mret tt.
Definition DebugAllocator_drop (a : DebugAllocator) : M DW unit := cleanup_arena (da_arena_id a).
End debug.

(** ** Lemmas *)
Lemma length_le_bytes n z : length (le_bytes n z) = n.
Proof. revert z. induction n; intros; simpl; congruence. Qed.

Lemma le_value_le_bytes n z : 0 ≤ z < 256 ^ Z.of_nat n → le_value (le_bytes n z) = z.
Proof.
  revert z. induction n as [|n IH]; intros z Hz; simpl; [change (256 ^ Z.of_nat 0) with 1 in Hz; lia|].
  rewrite Nat2Z.inj_succ, Z.pow_succ_r in Hz by lia.
  rewrite IH; [pose proof (Z.div_mod z 256 ltac:(lia)); lia|].
  split; [apply Z.div_pos; lia|]. apply Z.div_lt_upper_bound; lia.
Qed.

Lemma guard_bytes_check_iff pattern pre post :
  length pre = length pattern → length post = length pattern →
  guard_bytes_check pattern pre post = ROk tt ↔ pre = pattern ∧ post = pattern.
Proof.
  revert pre post. induction pattern as [|e pattern IH]; intros [|a pre] [|b post]; simpl; try done.
  intros Ha Hb. destruct (Z.eqb_spec a e) as [->|]; simpl; [|naive_solver].
  destruct (Z.eqb_spec b e) as [->|]; simpl; [|naive_solver]. rewrite IH by lia. naive_solver.
Qed.

Lemma length_guard_bytes s c : length (DebugGuard_bytes (DebugGuard_new s c)) = 56%nat.
Proof. unfold DebugGuard_bytes. by rewrite !length_app, !length_le_bytes. Qed.

Lemma length_guard_pattern : length guard_pattern = 16%nat.
Proof. reflexivity. Qed.

Lemma take_app_exact {A} n (l k : list A) : length l = n → take n (l ++ k) = l.
Proof. intros <-. apply take_app_length. Qed.
Lemma drop_app_exact {A} n (l k : list A) : length l = n → drop n (l ++ k) = k.
Proof. intros <-. apply drop_app_length. Qed.

#[local] Arguments guard_pattern : simpl never.
#[local] Arguments DebugGuard_bytes : simpl never.
#[local] Arguments le_bytes : simpl never.
#[local] Arguments le_value : simpl never.
#[local] Arguments write_bytes : simpl never.
#[local] Arguments put_bytes : simpl never.
#[local] Arguments read_bytes : simpl never.
#[local] Arguments GUARD_MAGIC : simpl never.
#[local] Arguments mem_store : simpl never.
#[local] Arguments mem_copy : simpl never.

(** The errors of a guard are never those of the registry. *)
Lemma guard_check_errors pattern pre post e :
  guard_bytes_check pattern pre post = RErr e → e ≠ "Use-after-rewind detected".
Proof.
  revert pre post. induction pattern as [|x l IH]; intros [|a pre] [|b post]; simpl; try done.
  destruct (negb _); [naive_solver|]. destruct (negb _); [naive_solver|]. apply IH.
Qed.

Lemma validate_never_rewind g : DebugGuard_validate g ≠ RErr "Use-after-rewind detected".
Proof.
  unfold DebugGuard_validate. destruct (negb _); [done|]. intros H. by apply guard_check_errors in H.
Qed.

Section lemmas.
Context `{cfg : Cfg} {ga : GlobalAlloc} `{!GlobalAllocOk ga}.

(** Inside a block. *)
Lemma block_valid b size h bs p n :
  b ≤ p → 0 ≤ n → p + n ≤ b + size → mem_valid p n (mkMem (mkBlock b (mkLayout size 16) :: h) bs).
Proof. intros. apply (mem_valid_block _ _ (mkBlock b (mkLayout size 16))); [constructor|]. range_solve. Qed.

Lemma register_allocation_eq bt id ptr size cid d m :
  register_allocation bt id ptr size cid (mkDW d m) =
    (Ok tt, mkDW (if db_poisoned d then d
                  else mkDebug (DebugState_register_allocation bt id ptr size cid (db_state d)) false (db_validation d)) m).
Proof.
  unfold register_allocation, ds_poisoned, ds_get, ds_put. mrun.
  destruct (db_poisoned d) eqn:Hpo; simpl; [done|]. by rewrite Hpo.
Qed.

(** [allocate_with_guard] when the system allocator has room: the state it leaves. *)
Lemma allocate_with_guard_eq bt a ptr size cid w b :
  da_enabled a = true → 0 ≤ size ≤ ISIZE_MAX - 103 → mem_valid ptr size (dw_mem w) →
  ga_alloc (heap (dw_mem w)) (mkLayout (size + 88) 16) = Some b →
  let d := dw_debug w in let m := dw_mem w in
  let bs1 := write_bytes (write_bytes (bytes m) b (DebugGuard_bytes (DebugGuard_new size cid))) (b + 56) guard_pattern in
  let bs2 := put_bytes bs1 (b + 72) (read_bytes bs1 ptr (Z.to_nat size)) in
  let bs3 := write_bytes bs2 (b + 72 + size) guard_pattern in
  allocate_with_guard bt a ptr size cid w =
    (Ok (b + 72),
     mkDW (if db_poisoned d then d
           else mkDebug (DebugState_register_allocation bt (da_arena_id a) (b + 72) size cid (db_state d)) false (db_validation d))
       (mkMem (mkBlock b (mkLayout (size + 88) 16) :: heap m) bs3)).
Proof.
  intros Hen Hs Hv Hg d m bs1 bs2 bs3.
  assert (Layout_ok (mkLayout (size + 88) 16)) as Hl by (split_and!; simpl; [lia|reflexivity|ulia]).
  destruct (ga_ok (heap m) (mkLayout (size + 88) 16) b) as (Hb & _ & _ & Hd); [done|simpl; lia|done|].
  simpl in Hd. unfold allocate_with_guard. rewrite Hen. simpl. mrun. unfold GUARD_SIZE, SIZEOF_DebugGuard.
  rewrite !usize_add_in by ulia.
  replace (size + 2 * 16 + 56) with (size + 88) by lia. rewrite Layout_from_size_align_ok by done.
  unfold on_mem. mrun. unfold sys_alloc. simpl. destruct (Z.eqb_spec (size + 88) 0); [lia|].
  rewrite Hg. destruct (Z.eqb_spec b 0); [lia|].
  rewrite mem_store_ok by (rewrite length_guard_bytes; apply block_valid; lia). simpl.
  rewrite mem_store_ok by (rewrite length_guard_pattern; apply block_valid; lia). simpl.
  rewrite mem_copy_ok; rewrite ?Z2Nat.id by lia.
  - change (56 + 16) with 72. fold bs1 bs2.
    rewrite mem_store_ok by (rewrite length_guard_pattern; apply block_valid; lia). simpl.
    fold bs3. by rewrite register_allocation_eq.
  - destruct Hv as [->|He]; [by left|]. right. simpl. right. exact He.
  - change (56 + 16) with 72. apply block_valid; lia.
  - destruct Hv as [->|He]; [range_solve|]. apply Exists_exists in He as (blk & Hin & Hsub).
    rewrite Forall_forall in Hd. specialize (Hd blk Hin).
    apply range_disjoint_spec. intros a0 Ha Hb'. apply range_subseteq_spec with (a := a0) in Hsub; [|done].
    rewrite range_disjoint_spec in Hd. apply (Hd a0); [range_solve|done].
Qed.

(** What [allocate_with_guard] does in every case: it falls back to the original
    pointer and changes nothing, or it adds one fresh block and writes only to it. *)
Lemma allocate_with_guard_cases bt a ptr size cid w :
  0 ≤ size ≤ ISIZE_MAX → mem_valid ptr size (dw_mem w) →
  allocate_with_guard bt a ptr size cid w = (Ok ptr, w) ∨
  ∃ b d bs, allocate_with_guard bt a ptr size cid w =
      (Ok (b + 72), mkDW d (mkMem (mkBlock b (mkLayout (size + 88) 16) :: heap (dw_mem w)) bs)) ∧
    b `mod` 16 = 0 ∧ Forall (λ blk, mkRange b (size + 88) ## block_range blk) (heap (dw_mem w)) ∧
    (∀ x, x ∉ mkRange b (size + 88) → bs !! x = bytes (dw_mem w) !! x) ∧ 0 < b ∧ b + (size + 88) ≤ USIZE_MAX.
Proof.
  intros Hs Hv. destruct (da_enabled a) eqn:Hen; [|left; unfold allocate_with_guard; by rewrite Hen].
  destruct (decide (size ≤ ISIZE_MAX - 103)) as [Hle|Hgt].
  2:{ left. unfold allocate_with_guard. rewrite Hen. simpl. mrun. unfold GUARD_SIZE, SIZEOF_DebugGuard.
      rewrite !usize_add_in by ulia. mrun. unfold Layout_from_size_align.
      destruct (Z.leb_spec (size + 2 * 16 + 56) (ISIZE_MAX + 1 - 16)); [ulia|]. by rewrite andb_false_r. }
  destruct (ga_alloc (heap (dw_mem w)) (mkLayout (size + 88) 16)) as [b|] eqn:Hg.
  2:{ left. unfold allocate_with_guard. rewrite Hen. simpl. mrun. unfold GUARD_SIZE, SIZEOF_DebugGuard.
      rewrite !usize_add_in by ulia. mrun. replace (size + 2 * 16 + 56) with (size + 88) by lia.
      rewrite Layout_from_size_align_ok by (split_and!; simpl; [lia|reflexivity|ulia]).
      unfold on_mem, sys_alloc. mrun. destruct (Z.eqb_spec (size + 88) 0); [lia|]. rewrite Hg. by destruct w. }
  right. rewrite (allocate_with_guard_eq bt a ptr size cid w b Hen (conj (proj1 Hs) Hle) Hv Hg).
  eexists b, _, _. split; [reflexivity|].
  destruct (ga_ok (heap (dw_mem w)) (mkLayout (size + 88) 16) b) as (Hb & Hal & Hmax & Hd);
    [split_and!; simpl; [lia|reflexivity|ulia]|simpl; lia|done|].
  split; [exact Hal|]. split; [exact Hd|]. split; [|done]. intros x Hx.
  rewrite lookup_write_bytes, decide_False by (rewrite length_guard_pattern; range_solve).
  rewrite lookup_put_bytes, decide_False by (rewrite length_read_bytes; range_solve).
  rewrite !lookup_write_bytes, !decide_False by (rewrite ?length_guard_bytes, ?length_guard_pattern; range_solve). done.
Qed.
End lemmas.

(** ** Theorems *)

(** A guard survives the trip through memory: decoding the 56 bytes of its
    representation gives the guard back, for every guard whose two arrays have 16
    bytes and whose three words fit 64 bits. *)
Theorem DebugGuard_roundtrip g :
  length (dg_pre_guard g) = 16%nat → length (dg_post_guard g) = 16%nat →
  0 ≤ dg_magic g < USIZE_MOD → 0 ≤ dg_size g < USIZE_MOD → 0 ≤ dg_checkpoint_id g < USIZE_MOD →
  DebugGuard_of_bytes (DebugGuard_bytes g) = g ∧ length (DebugGuard_bytes g) = 56%nat.
Proof.
  destruct g as [pre post magic size cid]. unfold DebugGuard_bytes, DebugGuard_of_bytes. cbn [dg_pre_guard dg_post_guard dg_magic dg_size dg_checkpoint_id].
  intros Hpre Hpost Hm Hs Hc. split; [|rewrite !length_app, Hpre, Hpost, !length_le_bytes; done].
  assert (∀ k l, drop (32 + k) (pre ++ post ++ l) = drop k l) as H32.
  { intros k l. rewrite app_assoc, drop_app_ge by (rewrite length_app; lia). f_equal. rewrite length_app. lia. }
  pose proof (H32 0%nat) as H0. pose proof (H32 8%nat) as H8. pose proof (H32 16%nat) as H16.
  cbn [Nat.add] in H0, H8, H16. rewrite H0, H8, H16, drop_0.
  rewrite (take_app_exact 16), (drop_app_exact 16), (take_app_exact 16) by done.
  change (drop 16 (le_bytes 8 magic ++ le_bytes 8 size ++ le_bytes 8 cid)) with
    (drop 8 (drop 8 (le_bytes 8 magic ++ le_bytes 8 size ++ le_bytes 8 cid))).
  rewrite !(drop_app_exact 8), !(take_app_exact 8) by apply length_le_bytes.
  rewrite (take_ge _ 8) by (rewrite length_le_bytes; done).
  by rewrite !le_value_le_bytes.
Qed.

Lemma DebugGuard_roundtrip_witness :
  DebugGuard_of_bytes (DebugGuard_bytes (DebugGuard_new 24 3)) = DebugGuard_new 24 3 ∧
  length (DebugGuard_bytes (DebugGuard_new 24 3)) = 56%nat.
Proof. apply (DebugGuard_roundtrip (DebugGuard_new 24 3)); simpl; first [reflexivity | ulia | done]. Defined.

(** [DebugGuard::validate] accepts exactly the guards that nothing touched: the
    magic word and every byte of both guard arrays hold the expected value, so any
    single changed byte is reported. *)
Theorem DebugGuard_validate_iff g :
  length (dg_pre_guard g) = 16%nat → length (dg_post_guard g) = 16%nat →
  DebugGuard_validate g = ROk tt ↔
    dg_magic g = GUARD_MAGIC ∧ dg_pre_guard g = guard_pattern ∧ dg_post_guard g = guard_pattern.
Proof.
  intros Hpre Hpost. unfold DebugGuard_validate.
  destruct (Z.eqb_spec (dg_magic g) GUARD_MAGIC); cbn [negb]; [|naive_solver].
  rewrite guard_bytes_check_iff by done. naive_solver.
Qed.

Lemma DebugGuard_validate_iff_witness :
  DebugGuard_validate (DebugGuard_new 24 3) = ROk tt ↔
    GUARD_MAGIC = GUARD_MAGIC ∧ guard_pattern = guard_pattern ∧ guard_pattern = guard_pattern.
Proof. apply (DebugGuard_validate_iff (DebugGuard_new 24 3)); reflexivity. Defined.

(** [allocate_with_guard] gives the caller an intact, private copy.  When the
    system allocator grants the guarded block, the pointer returned is 72 bytes
    into a fresh block, the user bytes equal those of the original object, the
    header, the guard before and the guard after the object are in place, no byte
    outside the new block changed, and the registry's newest entry for the arena
    is this object.  The pointer is 8 modulo 16: an object that needs 16-byte
    alignment is misplaced. *)
Theorem allocate_with_guard_spec `{cfg : Cfg} {ga : GlobalAlloc} `{!GlobalAllocOk ga} bt a ptr size cid w b :
  da_enabled a = true → db_poisoned (dw_debug w) = false → 0 ≤ size ≤ ISIZE_MAX - 103 →
  mem_valid ptr size (dw_mem w) →
  ga_alloc (heap (dw_mem w)) (mkLayout (size + 88) 16) = Some b →
  let n := Z.to_nat size in let p := b + 72 in
  ∃ w', allocate_with_guard bt a ptr size cid w = (Ok p, w') ∧
    heap (dw_mem w') = mkBlock b (mkLayout (size + 88) 16) :: heap (dw_mem w) ∧
    (let bs := bytes (dw_mem w') in
     read_bytes bs p n = read_bytes (bytes (dw_mem w)) ptr n ∧
     read_bytes bs b 56 = Some <$> DebugGuard_bytes (DebugGuard_new size cid) ∧
     read_bytes bs (p - 16) 16 = Some <$> guard_pattern ∧
     read_bytes bs (p + size) 16 = Some <$> guard_pattern ∧
     (∀ x, x ∉ mkRange b (size + 88) → bs !! x = bytes (dw_mem w) !! x)) ∧
    (∃ l info, ds_allocations (db_state (dw_debug w')) !! da_arena_id a = Some (l ++ [info]) ∧
       ai_ptr info = p ∧ ai_size info = size ∧ ai_checkpoint_id info = cid) ∧
    p `mod` 16 = 8.
Proof.
  intros Hen Hpo Hs Hv Hg n p. pose proof (allocate_with_guard_eq bt a ptr size cid w b Hen Hs Hv Hg) as He.
  simpl in He. rewrite Hpo in He. eexists. split; [exact He|]. clear He. split; [done|].
  destruct (ga_ok (heap (dw_mem w)) (mkLayout (size + 88) 16) b) as (Hb & Hal & _ & Hd);
    [split_and!; simpl; [lia|reflexivity|ulia]|simpl; lia|done|].
  assert (mkRange ptr size ## mkRange b (size + 88)) as Hsep.
  { destruct Hv as [->|He]; [range_solve|]. apply Exists_exists in He as (blk & Hin & Hsub).
    rewrite Forall_forall in Hd. apply (range_sub_disjoint _ _ _ Hsub). symmetry. exact (Hd blk Hin). }
  split; [|split].
  - cbn [dw_mem bytes]. set (G := DebugGuard_bytes _).
    assert (length G = 56%nat) as HG by apply length_guard_bytes. pose proof length_guard_pattern as HP.
    set (bs1 := write_bytes (write_bytes _ _ _) _ _).
    assert (length (read_bytes bs1 ptr n) = n) as HD by apply length_read_bytes.
    unfold n, p in *. splits.
    + rewrite read_write_disjoint by (rewrite HP; range_solve).
      pose proof (read_put_same bs1 (b + 72) (read_bytes bs1 ptr (Z.to_nat size))) as Hq. rewrite HD in Hq.
      rewrite Hq. unfold bs1. rewrite !read_write_disjoint; [done|rewrite ?HG, ?HP; range_solve..].
    + rewrite read_write_disjoint, read_put_disjoint by (rewrite ?HD, ?HP; range_solve). unfold bs1.
      rewrite read_write_disjoint by (rewrite HP; range_solve). rewrite <- HG. apply read_write_same.
    + rewrite read_write_disjoint, read_put_disjoint by (rewrite ?HD, ?HP; range_solve). unfold bs1.
      replace (b + 72 - 16) with (b + 56) by lia. rewrite <- HP. apply read_write_same.
    + rewrite <- HP. apply read_write_same.
    + intros x Hx. rewrite lookup_write_bytes, decide_False by (rewrite HP; range_solve).
      rewrite lookup_put_bytes, decide_False by (rewrite HD; range_solve).
      unfold bs1. rewrite !lookup_write_bytes, !decide_False by (rewrite ?HG, ?HP; range_solve). done.
  - unfold DebugState_register_allocation. simpl. rewrite lookup_insert_eq. eexists _, _. split; [done|]. done.
  - unfold p. simpl in Hal. rewrite Z.add_mod, Hal by lia. done.
Qed.

Lemma allocate_with_guard_spec_witness :
  let w := mkDW (mkDebug (mkDebugState ∅ ∅ 2 0 0 false) false false)
             (mkMem [mkBlock 8192 (mkLayout 64 64)] (write_bytes ∅ 8192 [1;2;3;4])) in
  let a := mkDebugAllocator 1 true in
  ∃ w', @allocate_with_guard cfg_dev bump_alloc "bt" a 8192 4 0 w = (Ok (8256 + 72), w') ∧
    read_bytes (bytes (dw_mem w')) (8256 + 72) 4 = [Some 1; Some 2; Some 3; Some 4].
Proof.
  intros w a. destruct (@allocate_with_guard_spec cfg_dev bump_alloc bump_alloc_ok "bt" a 8192 4 0 w 8256)
    as (w' & E & _ & (Hr & _) & _).
  - reflexivity.
  - reflexivity.
  - ulia.
  - right. constructor. vm_compute. right. split; discriminate.
  - vm_compute. reflexivity.
  - exists w'. split; [exact E|]. exact Hr.
Defined.

(** C33: use-after-rewind is detected as long as the arena does not allocate again.
    After [rewind_to_checkpoint], validating a pointer whose registry entry was
    made after the checkpoint reports "Use-after-rewind detected"; validating one
    made before it never does. *)
Theorem use_after_rewind_detected id cid w w' ptr pre info post :
  DebugState_rewind_to_checkpoint id cid w = (Ok tt, w') →
  ds_allocations (db_state (dw_debug w)) !! id = Some (pre ++ info :: post) →
  ai_ptr info = ptr → Forall (λ i, ai_ptr i ≠ ptr) pre →
  let r := (DebugState_validate_allocation (db_state (dw_debug w')) id ptr (dw_mem w')).1 in
  r = Ok (RErr "Use-after-rewind detected") ↔ cid < ai_checkpoint_id info.
Proof.
  intros Hr Hin Hp Hpre. unfold DebugState_rewind_to_checkpoint, on_mem, ds_get, ds_put in Hr.
  mrun. rewrite Hin in Hr.
  assert (db_state (dw_debug w') = mkDebugState (ds_allocations (db_state (dw_debug w)))
    (<[id := cid]> (ds_arena_checkpoints (db_state (dw_debug w)))) (ds_next_arena_id (db_state (dw_debug w)))
    (ds_corrupted_allocations (db_state (dw_debug w))) (ds_leak_reports (db_state (dw_debug w)))
    (ds_backtraces_enabled (db_state (dw_debug w)))) as Hs'.
  { destruct (taint _ _ _) as [o m]. by simplify_eq/=. }
  unfold DebugState_validate_allocation. rewrite Hs'. simpl. rewrite Hin, lookup_insert_eq.
  clear Hr Hin Hs'. induction Hpre as [|i pre Hi Hpre IH]; simpl.
  2:{ destruct (Z.eqb_spec (ai_ptr i) ptr); [done|]. exact IH. }
  rewrite Hp, Z.eqb_refl. destruct (Z.ltb_spec cid (ai_checkpoint_id info)) as [|Hge]; [done|].
  split; [|lia]. unfold mbind, M_bind, mret, M_ret, mem_load. destruct (decide _); [|done].
  destruct (mapM _ _) as [bs|]; [|done]. cbn [fst]. intros [= Hv]. by apply validate_never_rewind in Hv.
Qed.

Lemma use_after_rewind_detected_witness :
  let info := mkAllocationInfo 4168 8 2 None in
  let m := mkMem [mkBlock 4096 (mkLayout 96 16)] ∅ in
  let w := mkDW (mkDebug (mkDebugState {[1 := [info]]} {[1 := 2]} 2 0 0 false) false true) m in
  let w' := mkDW (mkDebug (mkDebugState {[1 := [info]]} {[1 := 1]} 2 0 0 false) false true)
              (mkMem [mkBlock 4096 (mkLayout 96 16)] {[4152 := 0]}) in
  DebugState_rewind_to_checkpoint 1 1 w = (Ok tt, w') ∧
  ((DebugState_validate_allocation (db_state (dw_debug w')) 1 4168 (dw_mem w')).1 =
     Ok (RErr "Use-after-rewind detected") ↔ 1 < 2).
Proof.
  intros info m w w'.
  assert (DebugState_rewind_to_checkpoint 1 1 w = (Ok tt, w')) as E by (vm_compute; reflexivity).
  split; [exact E|]. apply (use_after_rewind_detected 1 1 w w' 4168 [] info []).
  - exact E.
  - vm_compute. reflexivity.
  - reflexivity.
  - constructor.
Defined.

(** Validation looks for the guard in the wrong place.  [validate_allocation]
    reads a whole [DebugGuard] 16 bytes before the object, but only the 16-byte
    guard is there; the rest of what it takes for the guard is the object.  A
    healthy 24-byte object of zeros, just returned by [allocate_with_guard], is
    reported as corrupted; validating a healthy 8-byte object reads past the end
    of its block. *)
Theorem debug_validate_healthy :
  ∀ oc, let cfg : Cfg := mkCfg oc oc true false false false true false false in
  let ga : GlobalAlloc := bump_alloc in
  let a := mkDebugAllocator 1 true in
  let w n := mkDW (mkDebug DebugState_new false true)
               (mkMem [mkBlock 65536 (mkLayout 64 64)] (write_bytes ∅ 65536 (replicate n 0))) in
  let prog n : M DW (Result unit string) :=
    p ← allocate_with_guard "bt" a 65536 (Z.of_nat n) 0;
    DebugAllocator_validate_pointer a p in
  (prog 24%nat (w 24%nat)).1 = Ok (RErr "Magic number corrupted") ∧
  (prog 8%nat (w 8%nat)).1 = UB "read outside of a live block".
Proof. intros []; split; vm_compute; reflexivity. Qed.

(** [debug::rewind_to_checkpoint] rewinds every arena of the process, not the
    one that asked.  Arena 2 holds a live object registered at checkpoint 5;
    arena 1 rewinds to its own checkpoint 0; the object of arena 2 is then
    reported as used after a rewind, and its guard has been overwritten. *)
Theorem debug_rewind_all_arenas :
  let i1 := mkAllocationInfo 4168 8 1 None in
  let i2 := mkAllocationInfo 8264 8 5 None in
  let m := mkMem [mkBlock 4096 (mkLayout 96 16); mkBlock 8192 (mkLayout 96 16)] (write_bytes ∅ 8248 guard_pattern) in
  let w := mkDW (mkDebug (mkDebugState {[1 := [i1]; 2 := [i2]]} {[1 := 1; 2 := 5]} 3 0 0 false) false true) m in
  let prog : M DW (Result unit string) := _ ← rewind_to_checkpoint 0; validate_allocation 2 8264 in
  (prog w).1 = Ok (RErr "Use-after-rewind detected") ∧ bytes (dw_mem (prog w).2) !! 8248 = Some 0.
Proof. split; vm_compute; reflexivity. Qed.
