(* ===== verification/Inner.v ===== *)
(** * Inner: [ArenaInner] of core.rs

    The chunk list with its current index, the checkpoint stack and the
    statistics, and the operations on them.  [World] is what an arena shares with
    the rest of the process: the memory, the calling thread's cache and slab, the
    global debug state and the system calls made.  Fields that a feature adds are
    always present here and touched only when the feature is on. *)
From S2P Require Import Prelude Memory Chunk Slab ThreadLocal LockFree VirtualMemory Debug.
Local Open Scope Z_scope.

Record World := mkWorld {
  w_mem : Mem;
  w_cache : ThreadCache;
  w_slab : ThreadSlab;
  w_debug : Debug;
  w_trace : list Syscall
}.

(** ** Data *)
Record ArenaCheckpoint := mkCheckpoint {
  cp_chunk_index : nat; cp_chunk_offset : Z; cp_checkpoint_id : Z; cp_allocation_count : Z
}.
#[global] Instance ArenaCheckpoint_eq_dec : EqDecision ArenaCheckpoint.
Proof. solve_decision. Defined.

Record ArenaStats := mkStats {
  st_bytes_used : Z; st_bytes_allocated : Z; st_allocation_count : Z; st_chunk_count : Z
}.
Definition ArenaStats_new : ArenaStats := mkStats 0 0 0 0.

Record ArenaInner := mkInner {
  in_chunks : list Chunk;
  in_current_chunk : nat;
  in_checkpoints : list ArenaCheckpoint;
  in_current_checkpoint_id : Z;
  in_pools : list MemoryPool;
  in_stats : ArenaStats;
  in_virtual_region : option VirtualMemoryRegion;
  in_thread_cache_active : bool;
  in_lockfree_buffer : option LockFreeBuffer;
  in_lockfree_stats : LockFreeStats
}.

(** The state of an operation. *)
Record IW := mkIW { i_inner : ArenaInner; i_world : World }.

(** ** Field updates *)
Definition set_chunks (cs : list Chunk) (i : ArenaInner) : ArenaInner :=
  mkInner cs (in_current_chunk i) (in_checkpoints i) (in_current_checkpoint_id i) (in_pools i) (in_stats i)
    (in_virtual_region i) (in_thread_cache_active i) (in_lockfree_buffer i) (in_lockfree_stats i).
Definition set_current_chunk (n : nat) (i : ArenaInner) : ArenaInner :=
  mkInner (in_chunks i) n (in_checkpoints i) (in_current_checkpoint_id i) (in_pools i) (in_stats i)
    (in_virtual_region i) (in_thread_cache_active i) (in_lockfree_buffer i) (in_lockfree_stats i).
Definition set_checkpoints (l : list ArenaCheckpoint) (i : ArenaInner) : ArenaInner :=
  mkInner (in_chunks i) (in_current_chunk i) l (in_current_checkpoint_id i) (in_pools i) (in_stats i)
    (in_virtual_region i) (in_thread_cache_active i) (in_lockfree_buffer i) (in_lockfree_stats i).
Definition set_checkpoint_id (n : Z) (i : ArenaInner) : ArenaInner :=
  mkInner (in_chunks i) (in_current_chunk i) (in_checkpoints i) n (in_pools i) (in_stats i)
    (in_virtual_region i) (in_thread_cache_active i) (in_lockfree_buffer i) (in_lockfree_stats i).
Definition set_stats (s : ArenaStats) (i : ArenaInner) : ArenaInner :=
  mkInner (in_chunks i) (in_current_chunk i) (in_checkpoints i) (in_current_checkpoint_id i) (in_pools i) s
    (in_virtual_region i) (in_thread_cache_active i) (in_lockfree_buffer i) (in_lockfree_stats i).
Definition set_virtual_region (r : option VirtualMemoryRegion) (i : ArenaInner) : ArenaInner :=
  mkInner (in_chunks i) (in_current_chunk i) (in_checkpoints i) (in_current_checkpoint_id i) (in_pools i) (in_stats i)
    r (in_thread_cache_active i) (in_lockfree_buffer i) (in_lockfree_stats i).
Definition set_lockfree_buffer (b : option LockFreeBuffer) (i : ArenaInner) : ArenaInner :=
  mkInner (in_chunks i) (in_current_chunk i) (in_checkpoints i) (in_current_checkpoint_id i) (in_pools i) (in_stats i)
    (in_virtual_region i) (in_thread_cache_active i) b (in_lockfree_stats i).

(** [fetch_add] on the counters. *)
Definition stats_count (n : Z) (s : ArenaStats) : ArenaStats :=
  mkStats (st_bytes_used s) (st_bytes_allocated s) (fetch_add (st_allocation_count s) n) (st_chunk_count s).
Definition stats_used (n : Z) (s : ArenaStats) : ArenaStats :=
  mkStats (fetch_add (st_bytes_used s) n) (st_bytes_allocated s) (st_allocation_count s) (st_chunk_count s).
Definition stats_grow (n chunk_count : Z) (s : ArenaStats) : ArenaStats :=
  mkStats (st_bytes_used s) (fetch_add (st_bytes_allocated s) n) (st_allocation_count s) chunk_count.

(** ** Access to the parts of the state *)
Definition on_inner (f : ArenaInner → ArenaInner) : M IW unit :=
  modify (λ s, mkIW (f (i_inner s)) (i_world s)).

Definition w_set_mem (m : Mem) (w : World) : World := mkWorld m (w_cache w) (w_slab w) (w_debug w) (w_trace w).
Definition w_set_cache (c : ThreadCache) (w : World) : World := mkWorld (w_mem w) c (w_slab w) (w_debug w) (w_trace w).
Definition w_set_trace (t : list Syscall) (w : World) : World :=
  mkWorld (w_mem w) (w_cache w) (w_slab w) (w_debug w) t.

Definition w_on_mem {A} (m : M Mem A) : M World A := zoom w_mem w_set_mem m.
Definition w_on_cache {A} (m : M ThreadCache A) : M World A := zoom w_cache w_set_cache m.
Definition w_on_trace {A} (m : M (list Syscall) A) : M World A := zoom w_trace w_set_trace m.
Definition w_on_debug {A} (m : M DW A) : M World A :=
  zoom (λ w, mkDW (w_debug w) (w_mem w))
    (λ d w, mkWorld (dw_mem d) (w_cache w) (w_slab w) (dw_debug d) (w_trace w)) m.
Definition in_world {A} (m : M World A) : M IW A := zoom i_world (λ w s, mkIW (i_inner s) w) m.

(** Runs an operation of the lock-free buffer of the arena. *)
Definition with_lockfree {A} (b : LockFreeBuffer) (m : M LF A) : M IW A := λ s,
  let w := i_world s in
  let '(o, x) := m (mkLF b (w_slab w) (w_mem w)) in
  (o, mkIW (set_lockfree_buffer (Some (x_buf x)) (i_inner s))
        (mkWorld (x_mem x) (w_cache w) (x_slab x) (w_debug w) (w_trace w))).

Section inner.
Context `{cfg : Cfg} `{ga : GlobalAlloc}.

Definition stats_update (f : ArenaStats → ArenaStats) : M IW unit :=
  if feat_stats then on_inner (λ i, set_stats (f (in_stats i)) i) else mret tt.

(** [let mut size = 8; while size <= 4096 { pools.push(..); size *= 2; }] *)
Fixpoint pools_loop (fuel : nat) (size : Z) (pools : list MemoryPool) : list MemoryPool :=
  match fuel with
  | O => pools
  | S fuel =>
      if size <=? 4096 then pools_loop fuel (size * 2) (vec_push (MemoryPool_new size 64) pools) else pools
  end.

(** [self] is the address the arena's lock-free buffer will have. *)
Definition ArenaInner_new (self initial_capacity : Z) : M World (Result ArenaInner string) :=
  r ← w_on_mem (Chunk_new initial_capacity);
  match r with
  | RErr e => mret (RErr e)
  | ROk chunk =>
      let pools := pools_loop 11 8 [] in
      buffer ← (if feat_lockfree then b ← w_on_mem (LockFreeBuffer_new self); mret (Some b) else mret None);
      let inner := mkInner [chunk] 0 [] 0 pools ArenaStats_new None true buffer LockFreeStats_new in
      mret (ROk (if feat_stats
                 then set_stats (mkStats 0 initial_capacity 0 (Z.of_nat (length (in_chunks inner)))) inner
                 else inner))
  end.

(** The index [allocate] and [checkpoint] use: the current one, clamped. *)
Definition clamped_chunk (i : ArenaInner) : nat :=
  if (length (in_chunks i) <=? in_current_chunk i)%nat
  then (length (in_chunks i) - 1)%nat else in_current_chunk i.

Definition ArenaInner_allocate (layout : Layout) : M IW (option Z) :=
  i ← gets i_inner;
  let chunk_idx := clamped_chunk i in
  match in_chunks i !! chunk_idx with
  | None => mret None
  | Some chunk =>
      '(r, chunk) ← lift (Chunk_allocate layout chunk);
      _ ← on_inner (set_chunks (<[chunk_idx := chunk]> (in_chunks i)));
      match r with
      | Some ptr =>
          _ ← stats_update (stats_used (l_size layout));
          _ ← stats_update (stats_count 1);
          mret (Some ptr)
      | None => mret None
      end
  end.

Definition ArenaInner_add_chunk (capacity : Z) : M IW (Result nat string) :=
  r ← in_world (w_on_mem (Chunk_new capacity));
  match r with
  | RErr e => mret (RErr e)
  | ROk chunk =>
      i ← gets i_inner;
      let chunk_index := length (in_chunks i) in
      _ ← on_inner (set_chunks (vec_push chunk (in_chunks i)));
      _ ← on_inner (set_current_chunk chunk_index);
      _ ← stats_update (stats_grow capacity (Z.of_nat (S chunk_index)));
      mret (ROk chunk_index)
  end.

(** Resets the calling thread's cache and the lock-free buffer: the tail that
    [reset] and [rewind_to_checkpoint] share. *)
Definition reset_caches : M IW unit :=
  _ ← (if feat_thread_local then in_world (w_on_cache reset_thread_cache) else mret tt);
  if feat_lockfree then
    i ← gets i_inner;
    match in_lockfree_buffer i with
    | Some b => with_lockfree b LockFreeBuffer_reset
    | None => mret tt
    end
  else mret tt.

Definition ArenaInner_reset : M IW unit :=
  _ ← on_inner (λ i, set_chunks (Chunk_reset <$> in_chunks i) i);
  _ ← on_inner (set_current_chunk 0);
  _ ← on_inner (set_checkpoints []);
  _ ← on_inner (set_checkpoint_id 0);
  _ ← stats_update (λ s, mkStats 0 (st_bytes_allocated s) 0 (st_chunk_count s));
  reset_caches.

Definition ArenaInner_checkpoint : M IW ArenaCheckpoint :=
  i ← gets i_inner;
  let idx := clamped_chunk i in
  current_chunk ← lift (vec_index idx (in_chunks i));
  let alloc_count := if feat_stats then st_allocation_count (in_stats i) else 0 in
  let checkpoint := mkCheckpoint idx (c_used current_chunk) (in_current_checkpoint_id i) alloc_count in
  next ← lift (usize_add (in_current_checkpoint_id i) 1);
  _ ← on_inner (set_checkpoint_id next);
  mret checkpoint.

(** The loop over [self.chunks.iter_mut().enumerate()]. *)
Definition rewind_chunk (cp : ArenaCheckpoint) (idx : nat) (chunk : Chunk) : Chunk :=
  if (idx <? cp_chunk_index cp)%nat then chunk
  else if (idx =? cp_chunk_index cp)%nat then Chunk_set_used (cp_chunk_offset cp) chunk
  else Chunk_reset chunk.

(** [bytes_used += chunk.used()] *)
Fixpoint sum_used (acc : Z) (cs : list Chunk) : outcome Z :=
  match cs with
  | [] => Ok acc
  | c :: cs => acc ← usize_add acc (c_used c); sum_used acc cs
  end.

Definition ArenaInner_rewind_to_checkpoint (checkpoint : ArenaCheckpoint) : M IW unit :=
  i ← gets i_inner;
  _ ← (if (cp_chunk_index checkpoint <? length (in_chunks i))%nat then mret tt
       else lift (Panic "Invalid checkpoint: chunk index out of bounds"));
  chunk ← lift (vec_index (cp_chunk_index checkpoint) (in_chunks i));
  _ ← (if cp_chunk_offset checkpoint <=? c_capacity chunk then mret tt
       else lift (Panic "Invalid checkpoint: offset exceeds chunk capacity"));
  _ ← on_inner (set_current_chunk (cp_chunk_index checkpoint));
  _ ← on_inner (λ i, set_chunks (imap (rewind_chunk checkpoint) (in_chunks i)) i);
  _ ← on_inner (λ i, set_checkpoints
        (filter (λ cp, cp_checkpoint_id cp < cp_checkpoint_id checkpoint) (in_checkpoints i)) i);
  _ ← (if feat_debug then
         _ ← in_world (w_on_debug (rewind_to_checkpoint (cp_checkpoint_id checkpoint)));
         next ← lift (usize_add (cp_checkpoint_id checkpoint) 1);
         on_inner (set_checkpoint_id next)
       else mret tt);
  _ ← reset_caches;
  if feat_stats then
    i ← gets i_inner;
    bytes_used ← lift (sum_used 0 (take (cp_chunk_index checkpoint + 1) (in_chunks i)));
    stats_update (λ s, mkStats bytes_used (st_bytes_allocated s) (cp_allocation_count checkpoint) (st_chunk_count s))
  else mret tt.

Definition ArenaInner_push_checkpoint : M IW ArenaCheckpoint :=
  checkpoint ← ArenaInner_checkpoint;
  _ ← on_inner (λ i, set_checkpoints (vec_push checkpoint (in_checkpoints i)) i);
  mret checkpoint.

Definition ArenaInner_pop_and_rewind : M IW (Result unit string) :=
  i ← gets i_inner;
  match vec_pop (in_checkpoints i) with
  | Some (checkpoint, rest) =>
      _ ← on_inner (set_checkpoints rest);
      _ ← ArenaInner_rewind_to_checkpoint checkpoint;
      mret (ROk tt)
  | None => mret (RErr "No checkpoint to pop")
  end.

Definition ArenaInner_stats (i : ArenaInner) : ArenaStats := in_stats i.
Definition ArenaInner_debug_stats (w : World) : DebugStats := get_debug_stats (w_debug w).
Definition ArenaInner_lockfree_stats (i : ArenaInner) : Z * Z * Z * Z := LockFreeStats_get (in_lockfree_stats i).

(** The drop glue of a [Vec<Chunk>]. *)
Fixpoint drop_chunks (cs : list Chunk) : M Mem unit :=
  match cs with
  | [] => mret tt
  | c :: cs => _ ← Chunk_drop c; drop_chunks cs
  end.

(** The drop glue of an [ArenaInner], its fields in the order of declaration. *)
Definition ArenaInner_drop (i : ArenaInner) : M World unit :=
  _ ← w_on_mem (drop_chunks (in_chunks i));
  _ ← match in_virtual_region i with
      | Some r => w_on_trace (VirtualMemoryRegion_drop r)
      | None => mret tt
      end;
  match in_lockfree_buffer i with
  | Some b => w_on_mem (LockFreeBuffer_drop b)
  | None => mret tt
  end.
End inner.
