(* ===== verification/InnerInv.v ===== *)
(** * InnerInv: the invariant of an arena and what its steps preserve

    [Inner_wf] ties the chunk list and the lock-free buffer of an arena to the
    blocks that the global allocator has handed out.  [Inner_avail] are the
    addresses the arena may still hand out.  Every operation that allocates is a
    [Step] (nothing that was handed out changes, blocks stay live, the available
    addresses shrink), and what it returns is [Fresh].  The lemmas of this file
    establish both for each operation of [ArenaInner] and compose them. *)
From S2P Require Import Prelude Memory Bump Chunk Slab ThreadLocal LockFree VirtualMemory Debug Inner.
Local Open Scope Z_scope.

Definition LF_block (b : LockFreeBuffer) : Block :=
  mkBlock (lf_buffer b) (mkLayout (lf_capacity b) LOCKFREE_ALIGNMENT).

(** The blocks an arena owns. *)
Definition lf_blocks (o : option LockFreeBuffer) : list Block :=
  match o with
  | Some b => if lf_buffer b =? 0 then [] else [LF_block b]
  | None => []
  end.
Definition Inner_blocks (i : ArenaInner) : list Block :=
  (Chunk_block <$> in_chunks i) ++ lf_blocks (in_lockfree_buffer i).

Definition lf_state (b : LockFreeBuffer) (w : World) : LF := mkLF b (w_slab w) (w_mem w).

(** A lock-free buffer is well formed, or its allocation failed and no slab refers
    to it. *)
Definition lf_ok (o : option LockFreeBuffer) (w : World) : Prop :=
  match o with
  | None => True
  | Some b => if lf_buffer b =? 0 then slab_matches (lf_state b w) = false else LF_wf (lf_state b w)
  end.

Definition Inner_wf (s : IW) : Prop :=
  let i := i_inner s in let w := i_world s in
  Mem_wf (w_mem w) ∧ Inner_blocks i ⊆+ heap (w_mem w) ∧ Forall Chunk_wf (in_chunks i) ∧
  (in_current_chunk i < length (in_chunks i))%nat ∧ lf_ok (in_lockfree_buffer i) w ∧ tc_used (w_cache w) = 0%nat.

(** The part of a chunk that is not used yet. *)
Definition Chunk_rest (c : Chunk) : Range := mkRange (c_ptr c + c_used c) (c_capacity c - c_used c).

Definition not_live (m : Mem) (a : Z) : Prop := Forall (λ blk, a ∉ block_range blk) (heap m).

Definition Inner_avail (s : IW) (a : Z) : Prop :=
  let i := i_inner s in let w := i_world s in
  (∃ c, in_chunks i !! in_current_chunk i = Some c ∧ a ∈ Chunk_rest c) ∨
  (∃ b, in_lockfree_buffer i = Some b ∧ lf_buffer b ≠ 0 ∧ LF_avail (lf_state b w) a) ∨
  not_live (w_mem w) a.

Definition s_mem (s : IW) : Mem := w_mem (i_world s).

Record Step (s s' : IW) : Prop := mkStep {
  step_wf : Inner_wf s';
  step_avail a : Inner_avail s' a → Inner_avail s a;
  step_heap : ∃ new, heap (s_mem s') = new ++ heap (s_mem s);
  step_bytes a : ¬ Inner_avail s a → bytes (s_mem s') !! a = bytes (s_mem s) !! a
}.

(** [p] is the address of [size] bytes that were available in [s] and are taken in
    [s'], in live memory and not wrapping around the address space. *)
Record Fresh (size : Z) (s : IW) (p : Z) (s' : IW) : Prop := mkFresh {
  fresh_avail a : a ∈ mkRange p size → Inner_avail s a ∧ ¬ Inner_avail s' a;
  fresh_valid : mem_valid p size (s_mem s');
  fresh_bound : 0 < size → 0 < p ∧ p + size ≤ USIZE_MAX
}.

(** ** Composition *)
Lemma Step_refl s : Inner_wf s → Step s s.
Proof. intros. split; [done|done|by exists []|done]. Qed.

Lemma Step_trans s1 s2 s3 : Step s1 s2 → Step s2 s3 → Step s1 s3.
Proof.
  intros [_ Ha1 [n1 Hh1] Hb1] [Hw Ha2 [n2 Hh2] Hb2]. split; [done|by auto| |].
  - exists (n2 ++ n1). by rewrite Hh2, Hh1, app_assoc.
  - intros a Hn. rewrite Hb2 by auto. auto.
Qed.

Lemma mem_valid_mono p n m m' new : heap m' = new ++ heap m → mem_valid p n m → mem_valid p n m'.
Proof. intros Hh [->|He]; [by left|]. right. rewrite Hh. apply Exists_app. by right. Qed.

Lemma Fresh_post size s0 p s s' : Fresh size s0 p s → Step s s' → Fresh size s0 p s'.
Proof.
  intros [Hf Hv Hb] [_ Ha [new Hh] _]. split; [|by eapply mem_valid_mono|done].
  intros a Hin. destruct (Hf a Hin). auto.
Qed.

Lemma Fresh_pre size s0 p s s' : Step s0 s → Fresh size s p s' → Fresh size s0 p s'.
Proof. intros [_ Ha _ _] [Hf Hv Hb]. split; [|done|done]. intros a Hin. destruct (Hf a Hin). auto. Qed.

(** ** Blocks *)
Lemma Chunk_block_range c : block_range (Chunk_block c) = Chunk_range c.
Proof. done. Qed.

Lemma blocks_disjoint s : Inner_wf s → pw_disjoint (block_range <$> Inner_blocks (i_inner s)).
Proof.
  intros (Hm & Hsub & _). eapply pw_disjoint_submseteq; [|exact Hm].
  apply (fmap_submseteq block_range). exact Hsub.
Qed.

Lemma chunk_live s j c : Inner_wf s → in_chunks (i_inner s) !! j = Some c → Chunk_block c ∈ heap (s_mem s).
Proof.
  intros (_ & Hsub & _) Hc. eapply elem_of_submseteq; [|exact Hsub].
  apply elem_of_app. left. apply list_elem_of_fmap. exists c. split; [done|]. by eapply list_elem_of_lookup_2.
Qed.

Lemma lf_live s b : Inner_wf s → in_lockfree_buffer (i_inner s) = Some b → lf_buffer b ≠ 0 →
  LF_block b ∈ heap (s_mem s).
Proof.
  intros (_ & Hsub & _) Hb Hn. eapply elem_of_submseteq; [|exact Hsub].
  apply elem_of_app. right. rewrite Hb. simpl. destruct (Z.eqb_spec (lf_buffer b) 0); [done|]. by constructor.
Qed.

(** An address of a live block is not an address outside of all of them. *)
Lemma in_block_live m b a : b ∈ heap m → a ∈ block_range b → not_live m a → False.
Proof. unfold not_live. rewrite Forall_forall. intros Hb Ha Hn. exact (Hn b Hb Ha). Qed.

Lemma chunk_rest_range c a : Chunk_wf c → a ∈ Chunk_rest c → a ∈ Chunk_range c.
Proof. intros (_&_&_&_&_&?). unfold Chunk_rest, Chunk_range. range_solve. Qed.

(** The chunks of an arena do not overlap its lock-free buffer, nor each other. *)
Lemma chunk_lf_disjoint s j c b a :
  Inner_wf s → in_chunks (i_inner s) !! j = Some c →
  in_lockfree_buffer (i_inner s) = Some b → lf_buffer b ≠ 0 →
  a ∈ Chunk_range c → a ∈ block_range (LF_block b) → False.
Proof.
  intros Hw Hc Hb Hn Hac Hab. pose proof (blocks_disjoint s Hw) as Hd. unfold Inner_blocks in Hd.
  rewrite fmap_app, pw_disjoint_app in Hd. destruct Hd as (_ & _ & Hd).
  rewrite Hb in Hd. simpl in Hd. destruct (Z.eqb_spec (lf_buffer b) 0); [done|]. simpl in Hd.
  rewrite Forall_forall in Hd. specialize (Hd (Chunk_range c)).
  rewrite Forall_singleton, range_disjoint_spec in Hd. eapply (Hd _ a); [exact Hac|exact Hab].
  Unshelve. apply list_elem_of_fmap. exists (Chunk_block c). split; [done|].
  apply list_elem_of_fmap. exists c. split; [done|]. by eapply list_elem_of_lookup_2.
Qed.

Lemma lf_avail_range s b a :
  Inner_wf s → in_lockfree_buffer (i_inner s) = Some b → lf_buffer b ≠ 0 →
  LF_avail (lf_state b (i_world s)) a → a ∈ block_range (LF_block b).
Proof.
  intros (_ & _ & _ & _ & Hlf & _) Hb Hn Ha. rewrite Hb in Hlf. simpl in Hlf.
  destruct (Z.eqb_spec (lf_buffer b) 0); [done|]. exact (LF_avail_in_buffer _ _ Hlf Ha).
Qed.

Lemma current_chunk s : Inner_wf s → ∃ c, in_chunks (i_inner s) !! in_current_chunk (i_inner s) = Some c ∧ Chunk_wf c.
Proof.
  intros (_ & _ & Hf & Hlt & _). destruct (lookup_lt_is_Some_2 _ _ Hlt) as [c Hc].
  exists c. split; [done|]. rewrite Forall_lookup in Hf. eauto.
Qed.

Lemma clamped_current i : (in_current_chunk i < length (in_chunks i))%nat → clamped_chunk i = in_current_chunk i.
Proof. intros. unfold clamped_chunk. destruct (Nat.leb_spec (length (in_chunks i)) (in_current_chunk i)); [lia|done]. Qed.

(** ** Steps that touch nothing but counters *)
Record same_view (s s' : IW) : Prop := mkSameView {
  sv_chunks : in_chunks (i_inner s') = in_chunks (i_inner s);
  sv_current : in_current_chunk (i_inner s') = in_current_chunk (i_inner s);
  sv_lf : in_lockfree_buffer (i_inner s') = in_lockfree_buffer (i_inner s);
  sv_world : i_world s' = i_world s
}.

Lemma same_view_avail s s' a : same_view s s' → Inner_avail s' a ↔ Inner_avail s a.
Proof. intros [H1 H2 H3 H4]. unfold Inner_avail. by rewrite H1, H2, H3, H4. Qed.

Lemma same_view_wf s s' : same_view s s' → Inner_wf s → Inner_wf s'.
Proof. intros [H1 H2 H3 H4]. unfold Inner_wf, Inner_blocks. by rewrite H1, H2, H3, H4. Qed.

Lemma same_view_step s s' : same_view s s' → Inner_wf s → Step s s'.
Proof.
  intros Hv Hw. split; [by eapply same_view_wf|intros a; exact (proj1 (same_view_avail s s' a Hv))| |].
  - exists []. unfold s_mem. by rewrite (sv_world _ _ Hv).
  - intros a _. unfold s_mem. by rewrite (sv_world _ _ Hv).
Qed.

(** The world changes outside of what the arena depends on. *)
Record same_mem (w w' : World) : Prop := mkSameMem {
  sm_mem : w_mem w' = w_mem w;
  sm_slab : w_slab w' = w_slab w;
  sm_cache : tc_used (w_cache w') = tc_used (w_cache w)
}.

Lemma same_mem_step i w w' : same_mem w w' → Inner_wf (mkIW i w) → Step (mkIW i w) (mkIW i w').
Proof.
  intros [H1 H2 H3] Hw. split.
  - unfold Inner_wf, lf_ok, lf_state in *. simpl in *. by rewrite H1, H2, H3.
  - intros a. unfold Inner_avail, lf_state. simpl. by rewrite H1, H2.
  - exists []. unfold s_mem. simpl. by rewrite H1.
  - intros a _. unfold s_mem. simpl. by rewrite H1.
Qed.

(** ** The current chunk grows *)
Definition with_current (c : Chunk) (s : IW) : IW :=
  mkIW (set_chunks (<[in_current_chunk (i_inner s) := c]> (in_chunks (i_inner s))) (i_inner s)) (i_world s).

Lemma with_current_blocks s c c' :
  in_chunks (i_inner s) !! in_current_chunk (i_inner s) = Some c → Chunk_block c' = Chunk_block c →
  Inner_blocks (i_inner (with_current c' s)) = Inner_blocks (i_inner s).
Proof.
  intros Hc Hb. unfold Inner_blocks, with_current. simpl. f_equal.
  rewrite list_fmap_insert, Hb. apply list_insert_id. by rewrite list_lookup_fmap, Hc.
Qed.

Lemma with_current_step s c c' :
  Inner_wf s → in_chunks (i_inner s) !! in_current_chunk (i_inner s) = Some c →
  Chunk_wf c' → c_ptr c' = c_ptr c → c_capacity c' = c_capacity c → c_used c ≤ c_used c' →
  Step s (with_current c' s).
Proof.
  intros Hw Hc Hc' Hp Hcap Hu. pose proof Hw as (Hm & Hsub & Hf & Hlt & Hlf & Htc).
  assert (Chunk_block c' = Chunk_block c) as Hb by (unfold Chunk_block; by rewrite Hp, Hcap).
  split.
  - unfold Inner_wf. rewrite (with_current_blocks s c) by done. simpl.
    splits; [done|done|by apply Forall_insert|by rewrite length_insert|done|done].
  - intros a [(d & Hd & Ha)|[Ha|Ha]]; [|by right; left|by right; right]. left. exists c. split; [done|].
    simpl in Hd. rewrite list_lookup_insert_eq in Hd by done. injection Hd as <-. unfold Chunk_rest in *. range_solve.
  - by exists [].
  - done.
Qed.

Lemma with_current_fresh s c c' p size :
  Inner_wf s → in_chunks (i_inner s) !! in_current_chunk (i_inner s) = Some c →
  Chunk_wf c' → c_ptr c' = c_ptr c → c_capacity c' = c_capacity c → 0 ≤ size →
  c_ptr c + c_used c ≤ p → p + size ≤ c_ptr c + c_used c' →
  Fresh size s p (with_current c' s).
Proof.
  intros Hw Hc Hc' Hp Hcap Hs Hlo Hhi. destruct Hc' as (_&_&_&_&_&Hu').
  assert (Chunk_wf c) as Hcw by (pose proof Hw as (_&_&Hf&_); rewrite Forall_lookup in Hf; eauto).
  pose proof (chunk_live s _ c Hw Hc) as Hlive. destruct Hcw as (?&_&?&_&_&Hu). split; [| |lia].
  - intros a Ha. assert (a ∈ Chunk_range c) as Hr by (unfold Chunk_range; range_solve). split.
    + left. exists c. split; [done|]. unfold Chunk_rest. range_solve.
    + intros [(d & Hd & Hin)|[(b & Hb & Hn & Hin)|Hnl]].
      * simpl in Hd. rewrite list_lookup_insert_eq in Hd by (by destruct Hw as (_&_&_&?&_)).
        injection Hd as <-. unfold Chunk_rest in Hin. range_solve.
      * simpl in Hb. apply (chunk_lf_disjoint s _ c b a Hw Hc Hb Hn Hr). by eapply lf_avail_range.
      * by eapply in_block_live; [exact Hlive| |exact Hnl].
  - apply (mem_valid_block _ _ (Chunk_block c)); [exact Hlive|]. rewrite Chunk_block_range. unfold Chunk_range. range_solve.
Qed.

(** ** A new chunk becomes the current one *)
Definition with_new (c : Chunk) (s : IW) : IW :=
  mkIW (set_current_chunk (length (in_chunks (i_inner s))) (set_chunks (in_chunks (i_inner s) ++ [c]) (i_inner s)))
    (w_set_mem (mkMem (Chunk_block c :: heap (s_mem s)) (bytes (s_mem s))) (i_world s)).

Lemma with_new_current c s :
  in_chunks (i_inner (with_new c s)) !! in_current_chunk (i_inner (with_new c s)) = Some c.
Proof. simpl. apply list_lookup_middle. done. Qed.

Lemma not_live_cons m b bs a : not_live (mkMem (b :: heap m) bs) a → not_live m a.
Proof. unfold not_live. simpl. by intros [_ ?]%Forall_cons. Qed.

Lemma with_new_step c s :
  Inner_wf s → Chunk_wf c → Forall (λ b, Chunk_range c ## block_range b) (heap (s_mem s)) →
  Step s (with_new c s).
Proof.
  intros (Hm & Hsub & Hf & Hlt & Hlf & Htc) Hc Hd. split.
  - unfold Inner_wf. simpl. splits; [|  |by apply Forall_app_2; [|apply Forall_singleton]|rewrite length_app; simpl; lia| |done].
    + unfold Mem_wf. simpl. split; [by apply Forall_fmap|exact Hm].
    + unfold Inner_blocks in *. simpl. rewrite fmap_app. simpl.
      rewrite <- app_assoc. simpl. rewrite <- Permutation_middle. by apply submseteq_skip.
    + exact Hlf.
  - intros a [(d & Hd' & Ha)|[Ha|Ha]]; [|right; left; exact Ha|right; right; exact (not_live_cons (s_mem s) (Chunk_block c) (bytes (s_mem s)) a Ha)].
    rewrite with_new_current in Hd'. injection Hd' as <-. right. right.
    unfold not_live. eapply Forall_impl; [exact Hd|]. intros blk Hdis Hin.
    rewrite range_disjoint_spec in Hdis. apply (Hdis a); [by apply chunk_rest_range|done].
  - by exists [Chunk_block c].
  - done.
Qed.

#[local] Arguments Chunk_allocate : simpl never.

Section steps.
Context `{cfg : Cfg} {ga : GlobalAlloc} `{!GlobalAllocOk ga}.

Lemma stats_update_step f s : Inner_wf s → ∃ s', stats_update f s = (Ok tt, s') ∧ same_view s s'.
Proof.
  intros Hw. unfold stats_update. destruct feat_stats; eexists; (split; [reflexivity|]); by constructor.
Qed.

(** An object placed in the current chunk. *)
Lemma chunk_alloc_step l s c :
  Inner_wf s → Layout_ok l → in_chunks (i_inner s) !! in_current_chunk (i_inner s) = Some c → Chunk_fits l c →
  let p := c_ptr c + Chunk_start l c in let s' := with_current (Chunk_set_used (Chunk_start l c + l_size l) c) s in
  Step s s' ∧ Fresh (l_size l) s p s' ∧ (l_align l ≤ 64 → p `mod` l_align l = 0).
Proof.
  intros Hw Hl Hc Hfit p s'. pose proof Hw as (_ & _ & Hf & Hlt & _).
  assert (Chunk_wf c) as Hcw by (rewrite Forall_lookup in Hf; eauto).
  pose proof (Chunk_start_bounds l c Hl) as Hst. unfold Chunk_fits in Hfit.
  assert (0 ≤ l_size l) as Hsz by (destruct Hl; done).
  assert (Chunk_wf (Chunk_set_used (Chunk_start l c + l_size l) c)) as Hcw'
    by (apply Chunk_set_used_wf; [done|destruct Hcw as (_&_&_&_&_&?); lia]).
  splits.
  - apply (with_current_step s c); try done; simpl; lia.
  - apply (with_current_fresh s c); try done; simpl; lia.
  - intros H64. pose proof (Layout_align_pos l Hl) as Hap. destruct Hl as (_ & Ha & _), Hcw as (_ & Hm & _).
    apply aligned_in_block; [done..|]. by apply align_to_mod.
Qed.

(** [ArenaInner::allocate], on the chunk it looks at. *)
Lemma ArenaInner_allocate_step l s c :
  Inner_wf s → Layout_ok l → in_chunks (i_inner s) !! in_current_chunk (i_inner s) = Some c →
  if decide (Chunk_fits l c) then
    let p := c_ptr c + Chunk_start l c in
    ∃ s', ArenaInner_allocate l s = (Ok (Some p), s') ∧ Step s s' ∧ Fresh (l_size l) s p s' ∧
      (l_align l ≤ 64 → p `mod` l_align l = 0) ∧
      same_view (with_current (Chunk_set_used (Chunk_start l c + l_size l) c) s) s'
  else ArenaInner_allocate l s = (Ok None, s).
Proof.
  intros Hw Hl Hc. pose proof Hw as (_ & _ & Hf & Hlt & _).
  assert (Chunk_wf c) as Hcw by (rewrite Forall_lookup in Hf; eauto).
  unfold ArenaInner_allocate. mrun. rewrite clamped_current, Hc by done. simpl.
  rewrite Chunk_allocate_eq by done. case_decide as Hfit; simpl.
  2:{ unfold on_inner. mrun. rewrite list_insert_id by done. destruct s as [[] ?]. done. }
  destruct (chunk_alloc_step l s c Hw Hl Hc Hfit) as (Hstep & Hfresh & Hal).
  set (c' := Chunk_set_used (Chunk_start l c + l_size l) c) in *. fold (with_current c' s).
  destruct (stats_update_step (stats_used (l_size l)) _ (step_wf _ _ Hstep)) as (s1 & -> & Hv1).
  destruct (stats_update_step (stats_count 1) s1 (same_view_wf _ _ Hv1 (step_wf _ _ Hstep))) as (s2 & -> & Hv2).
  assert (same_view (with_current c' s) s2) as Hv.
  { destruct Hv1, Hv2. constructor; congruence. }
  pose proof (same_view_step _ _ Hv (step_wf _ _ Hstep)) as Hstep2.
  exists s2. split; [done|]. split; [by eapply Step_trans|]. split; [by eapply Fresh_post|done].
Qed.

(** ** A chunk is added *)
Lemma Chunk_new_cases cap m :
  0 < cap ≤ ISIZE_MAX - 63 →
  (ga_alloc (heap m) (mkLayout (align_to cap 64) 64) = None ∧
   Chunk_new cap m = (Ok (RErr "Failed to allocate memory"), m)) ∨
  (∃ c, ga_alloc (heap m) (mkLayout (align_to cap 64) 64) = Some (c_ptr c) ∧
     Chunk_new cap m = (Ok (ROk c), mkMem (Chunk_block c :: heap m) (bytes m)) ∧
     Chunk_wf c ∧ c_used c = 0 ∧ c_capacity c = align_to cap 64 ∧
     Forall (λ b, Chunk_range c ## block_range b) (heap m)).
Proof.
  intros Hcap. pose proof (Chunk_new_eq cap m Hcap) as He. simpl in He.
  destruct (ga_alloc _ _) as [p|] eqn:Hg; [|left; split; [done|]; rewrite He; by destruct m].
  right. destruct (Z.eqb_spec p 0) as [->|Hp].
  { exfalso. destruct (ga_ok (heap m) (mkLayout (align_to cap 64) 64) 0) as (? & _); [|simpl|done|lia].
    - split_and!; simpl; [pose proof (align_to_ge cap 64 ltac:(done)); lia|reflexivity|].
      apply align_to_least; [done|ulia|reflexivity].
    - pose proof (align_to_ge cap 64 ltac:(done)). lia. }
  destruct (Chunk_new_wf cap _ _ _ Hcap He) as (Hcw & Hu & Hc & Hm & Hd).
  eexists (mkChunk p (align_to cap 64) 0). rewrite He, Hm. done.
Qed.

Lemma add_chunk_eq cap s :
  0 < cap ≤ ISIZE_MAX - 63 → Inner_wf s →
  (ga_alloc (heap (s_mem s)) (mkLayout (align_to cap 64) 64) = None ∧
   ArenaInner_add_chunk cap s = (Ok (RErr "Failed to allocate memory"), s)) ∨
  (∃ c s', ga_alloc (heap (s_mem s)) (mkLayout (align_to cap 64) 64) = Some (c_ptr c) ∧
     ArenaInner_add_chunk cap s = (Ok (ROk (length (in_chunks (i_inner s)))), s') ∧
     Chunk_wf c ∧ c_used c = 0 ∧ c_capacity c = align_to cap 64 ∧
     Forall (λ b, Chunk_range c ## block_range b) (heap (s_mem s)) ∧
     same_view (with_new c s) s').
Proof.
  intros Hcap Hw. unfold ArenaInner_add_chunk, in_world, w_on_mem. mrun. unfold s_mem in *.
  destruct (Chunk_new_cases cap (w_mem (i_world s)) Hcap) as [[Hg ->]|(c & Hg & -> & Hcw & Hu & Hc & Hd)].
  { left. split; [done|]. simpl. unfold w_set_mem. by destruct s as [i []]. }
  right. exists c. unfold stats_update, on_inner. mrun.
  destruct feat_stats; eexists; (split; [done|]); (split; [reflexivity|]); (do 4 (split; [done|])); by constructor.
Qed.
End steps.

(** ** The lock-free buffer is used *)
Definition with_lf (x : LF) (s : IW) : IW :=
  mkIW (set_lockfree_buffer (Some (x_buf x)) (i_inner s))
    (mkWorld (x_mem x) (w_cache (i_world s)) (x_slab x) (w_debug (i_world s)) (w_trace (i_world s))).

Lemma with_lf_blocks x s b :
  in_lockfree_buffer (i_inner s) = Some b → lf_buffer (x_buf x) = lf_buffer b → lf_capacity (x_buf x) = lf_capacity b →
  Inner_blocks (i_inner (with_lf x s)) = Inner_blocks (i_inner s).
Proof. intros Hb H1 H2. unfold Inner_blocks, lf_blocks, LF_block. simpl. by rewrite Hb, H1, H2. Qed.

Lemma with_lf_wf x s b :
  Inner_wf s → in_lockfree_buffer (i_inner s) = Some b → lf_buffer (x_buf x) = lf_buffer b →
  lf_capacity (x_buf x) = lf_capacity b → heap (x_mem x) = heap (s_mem s) →
  (if lf_buffer b =? 0 then slab_matches x = false else LF_wf x) → Inner_wf (with_lf x s).
Proof.
  intros (Hm & Hsub & Hf & Hlt & Hlf & Htc) Hb Hb1 Hc Hmem Hx. unfold Inner_wf.
  rewrite (with_lf_blocks x s b) by done. simpl. unfold Mem_wf in *. rewrite Hmem.
  splits; try done. rewrite Hb1. by destruct x.
Qed.

(** The capacity of a well-formed buffer is fixed. *)
Lemma lf_wf_capacity x : LF_wf x → lf_capacity (x_buf x) = 4096.
Proof. by intros (_&_&_&_&?&_). Qed.

Lemma LF_post_step l s b r x :
  Inner_wf s → in_lockfree_buffer (i_inner s) = Some b → lf_buffer b ≠ 0 →
  LF_post l (lf_state b (i_world s)) r x →
  Step s (with_lf x s) ∧ (∀ p, r = Some p → 0 ≤ l_size l → Fresh (l_size l) s p (with_lf x s)).
Proof.
  intros Hw Hb Hn (Hxw & Hmem & _ & Hbuf & _ & Hsub & Hr & _). simpl in Hmem, Hbuf.
  assert (LF_wf (lf_state b (i_world s))) as Hlw.
  { pose proof Hw as (_&_&_&_&Hlf&_). rewrite Hb in Hlf. simpl in Hlf. by destruct (Z.eqb_spec (lf_buffer b) 0). }
  assert (lf_capacity (x_buf x) = lf_capacity b) as Hcap.
  { rewrite (lf_wf_capacity x Hxw). symmetry. exact (lf_wf_capacity _ Hlw). }
  assert (Inner_wf (with_lf x s)) as Hw'.
  { apply (with_lf_wf x s b); try done; [by rewrite Hmem|]. by destruct (Z.eqb_spec (lf_buffer b) 0). }
  assert (∀ a, LF_avail (lf_state (x_buf x) (i_world (with_lf x s))) a ↔ LF_avail x a) as Heq by (by destruct x).
  split; [split; [done| |exists []; unfold s_mem; simpl; by rewrite Hmem|intros a _; unfold s_mem; simpl; by rewrite Hmem]|].
  - intros a [Ha|[(b' & Hb' & _ & Ha)|Ha]]; [by left| |right; right; unfold not_live in *; simpl in Ha; by rewrite Hmem in Ha].
    simpl in Hb'. injection Hb' as <-. right. left. exists b. split; [done|]. split; [done|]. apply Hsub, Heq, Ha.
  - intros p Hp Hs. pose proof (lf_live s b Hw Hb Hn) as Hlive. split.
    + intros a Ha. destruct (Hr p a Hp Ha) as [Hav Hnav]. split; [right; left; by exists b|].
      pose proof (lf_avail_range s b a Hw Hb Hn Hav) as Hin.
      intros [(c & Hc & Hca)|[(b' & Hb' & _ & Ha')|Ha']].
      * assert (Chunk_wf c) as Hcw by (pose proof Hw as (_&_&Hf&_); rewrite Forall_lookup in Hf; eauto).
        eapply (chunk_lf_disjoint s _ c b a); [done|exact Hc|done|done|by apply chunk_rest_range|done].
      * simpl in Hb'. injection Hb' as <-. by apply Hnav, Heq.
      * eapply (in_block_live (s_mem s)); [exact Hlive|exact Hin|]. unfold not_live in *. simpl in Ha'. by rewrite Hmem in Ha'.
    + apply (mem_valid_block _ _ (LF_block b)); [unfold s_mem; simpl; by rewrite Hmem|].
      apply range_subseteq_spec. intros a Ha. destruct (Hr p a Hp Ha) as [Hav _]. exact (lf_avail_range s b a Hw Hb Hn Hav).
    + intros Hpos. pose proof Hlw as (Hb0 & _ & Hb1 & _). simpl in Hb0, Hb1.
      destruct (Hr p p Hp) as [Hav1 _]; [range_solve|]. destruct (Hr p (p + l_size l - 1) Hp) as [Hav2 _]; [range_solve|].
      pose proof (lf_avail_range s b _ Hw Hb Hn Hav1). pose proof (lf_avail_range s b _ Hw Hb Hn Hav2).
      assert (lf_capacity b = 4096) by exact (lf_wf_capacity _ Hlw). unfold LF_block in *. range_solve.
Qed.

Section lf_steps.
Context `{cfg : Cfg}.

(** A buffer whose allocation failed refuses every request. *)
Lemma LF_try_alloc_null size align x :
  lf_buffer (x_buf x) = 0 → slab_matches x = false →
  ∃ x', LockFreeBuffer_try_alloc [] size align x = (Ok None, x') ∧ x_mem x' = x_mem x ∧
    lf_buffer (x_buf x') = 0 ∧ lf_capacity (x_buf x') = lf_capacity (x_buf x) ∧ slab_matches x' = false.
Proof.
  intros Hz Hm. unfold LockFreeBuffer_try_alloc. case_match.
  - eexists. split; [reflexivity|]. done.
  - unfold mbind at 1, M_bind at 1.
    pose proof (try_thread_slab_eq (mkLayout size align) x) as He. simpl in He. rewrite He, Hm.
    unfold LockFreeBuffer_refill_thread_slab_and_alloc. mrun. rewrite Hz. simpl.
    eexists. split; [reflexivity|]. simpl. do 3 (split; [done|]). apply ThreadSlab_new_no_match.
Qed.

Lemma try_alloc_step l s b :
  Inner_wf s → Layout_ok l → in_lockfree_buffer (i_inner s) = Some b →
  ∃ r s', with_lockfree b (LockFreeBuffer_try_alloc [] (l_size l) (l_align l)) s = (Ok r, s') ∧ Step s s' ∧
    in_chunks (i_inner s') = in_chunks (i_inner s) ∧ in_current_chunk (i_inner s') = in_current_chunk (i_inner s) ∧
    heap (s_mem s') = heap (s_mem s) ∧
    ∀ p, r = Some p → Fresh (l_size l) s p s' ∧ (l_align l ≤ 64 → p `mod` l_align l = 0).
Proof.
  intros Hw Hl Hb. unfold with_lockfree. fold (lf_state b (i_world s)).
  destruct (decide (lf_buffer b = 0)) as [Hz|Hn].
  - assert (slab_matches (lf_state b (i_world s)) = false) as Hm.
    { pose proof Hw as (_&_&_&_&Hlf&_). rewrite Hb in Hlf. simpl in Hlf. by rewrite Hz in Hlf. }
    destruct (LF_try_alloc_null (l_size l) (l_align l) (lf_state b (i_world s)) Hz Hm) as (x & -> & Hmem & Hz' & Hc & Hm').
    exists None. eexists. split; [reflexivity|]. fold (with_lf x s).
    assert (Inner_wf (with_lf x s)) as Hw'.
    { apply (with_lf_wf x s b); [done|done|by rewrite Hz'|done|by rewrite Hmem|by rewrite Hz]. }
    split; [|split; [done|split; [done|split; [unfold s_mem; simpl; by rewrite Hmem|done]]]].
    split; [done| |exists []; unfold s_mem; simpl; by rewrite Hmem|intros a _; unfold s_mem; simpl; by rewrite Hmem].
    intros a [Ha|[(b' & Hb' & Hn & _)|Ha]]; [by left| |right; right; unfold not_live in *; simpl in Ha; by rewrite Hmem in Ha].
    simpl in Hb'. by injection Hb' as <-.
  - assert (LF_wf (lf_state b (i_world s))) as Hlw.
    { pose proof Hw as (_&_&_&_&Hlf&_). rewrite Hb in Hlf. simpl in Hlf. by destruct (Z.eqb_spec (lf_buffer b) 0). }
    destruct (LF_try_alloc_post l _ Hlw Hl) as (r & x & -> & Hpost).
    destruct (LF_post_step l s b r x Hw Hb Hn Hpost) as [Hstep Hf].
    exists r. eexists. split; [reflexivity|]. fold (with_lf x s).
    destruct Hpost as (_ & Hmem & _ & _ & _ & _ & _ & Hal). simpl in Hmem.
    split; [done|]. split; [done|]. split; [done|]. split; [unfold s_mem; simpl; by rewrite Hmem|].
    intros p Hp. split; [|by apply Hal]. apply Hf; [done|by destruct Hl].
Qed.
End lf_steps.

(** ** A block of its own for one object: the debug allocator *)
Definition with_block (blk : Block) (bs : gmap Z Z) (d : Debug) (s : IW) : IW :=
  mkIW (i_inner s) (mkWorld (mkMem (blk :: heap (s_mem s)) bs) (w_cache (i_world s)) (w_slab (i_world s)) d
                      (w_trace (i_world s))).

Lemma with_block_step blk bs d s :
  Inner_wf s → Forall (λ b, block_range blk ## block_range b) (heap (s_mem s)) →
  (∀ a, a ∉ block_range blk → bs !! a = bytes (s_mem s) !! a) →
  Step s (with_block blk bs d s).
Proof.
  intros (Hm & Hsub & Hf & Hlt & Hlf & Htc) Hd Hbs. split.
  - unfold Inner_wf. simpl. splits; try done.
    + unfold Mem_wf. simpl. split; [by apply Forall_fmap|exact Hm].
    + by apply submseteq_cons.
  - intros a [Ha|[Ha|Ha]]; [by left|right; left; exact Ha|right; right].
    exact (not_live_cons (s_mem s) blk bs a Ha).
  - by exists [blk].
  - intros a Hn. apply Hbs. intros Ha. apply Hn. right. right. unfold not_live.
    eapply Forall_impl; [exact Hd|]. intros b Hb Hin. rewrite range_disjoint_spec in Hb. by apply (Hb a).
Qed.

Lemma with_block_fresh blk bs d s p size :
  Inner_wf s → Forall (λ b, block_range blk ## block_range b) (heap (s_mem s)) →
  mkRange p size ⊆ block_range blk → (0 < size → 0 < p ∧ p + size ≤ USIZE_MAX) → Fresh size s p (with_block blk bs d s).
Proof.
  intros Hw Hd Hp Hbd. split; [|by apply (mem_valid_block _ _ blk); [constructor|]|exact Hbd].
  intros a Ha. rewrite range_subseteq_spec in Hp. specialize (Hp a Ha).
  assert (not_live (s_mem s) a) as Hnl.
  { unfold not_live. eapply Forall_impl; [exact Hd|]. intros b Hb Hin. rewrite range_disjoint_spec in Hb. by apply (Hb a). }
  split; [by right; right|]. intros [(c & Hc & Hca)|[(b & Hb & Hn & Hba)|Hnl']].
  - assert (Chunk_wf c) as Hcw by (pose proof Hw as (_&_&Hf&_); rewrite Forall_lookup in Hf; eauto).
    eapply (in_block_live (s_mem s)); [by eapply chunk_live| |exact Hnl]. by apply chunk_rest_range.
  - eapply (in_block_live (s_mem s)); [by eapply lf_live| |exact Hnl]. exact (lf_avail_range s b a Hw Hb Hn Hba).
  - eapply in_block_live; [|exact Hp|exact Hnl']. constructor.
Qed.

(** ** A new arena *)

(** What an arena needs of the world it is created in: nothing in the thread's
    cache, and no slab left over from a buffer at the same address. *)
Definition World_ok (self : Z) (w : World) : Prop :=
  Mem_wf (w_mem w) ∧ tc_used (w_cache w) = 0%nat ∧ ts_owner (w_slab w) ≠ self.

Section new.
Context `{cfg : Cfg} {ga : GlobalAlloc} `{!GlobalAllocOk ga}.

Lemma LockFreeBuffer_new_eq self m :
  ∃ b m', LockFreeBuffer_new self m = (Ok b, m') ∧ lf_self b = self ∧ lf_generation b = 0 ∧ lf_offset b = 0 ∧
    lf_capacity b = 4096 ∧ bytes m' = bytes m ∧
    ((lf_buffer b = 0 ∧ m' = m) ∨
     (0 < lf_buffer b ∧ lf_buffer b `mod` 64 = 0 ∧ lf_buffer b + 4096 ≤ USIZE_MAX ∧ heap m' = LF_block b :: heap m ∧
      Forall (λ blk, mkRange (lf_buffer b) 4096 ## block_range blk) (heap m))).
Proof.
  unfold LockFreeBuffer_new.
  replace (Layout_from_size_align LOCKFREE_BUFFER_SIZE LOCKFREE_ALIGNMENT) with (Some (mkLayout 4096 64)) by reflexivity.
  unfold sys_alloc. mrun. destruct (ga_alloc (heap m) (mkLayout 4096 64)) as [p|] eqn:Hg.
  - destruct (ga_ok (heap m) (mkLayout 4096 64) p) as (?&?&?&?); [|done|done|].
    { split_and!; simpl; [lia|reflexivity|ulia]. }
    eexists _, _. split; [reflexivity|]. simpl in *. do 5 (split; [done|]). by right.
  - eexists _, _. split; [reflexivity|]. do 5 (split; [done|]). by left.
Qed.

(** An arena with one new chunk and no lock-free buffer. *)
Definition inner_of_chunk (c : Chunk) : ArenaInner :=
  mkInner [c] 0 [] 0 (pools_loop 11 8 []) ArenaStats_new None true None LockFreeStats_new.

Lemma inner_of_chunk_wf self c w :
  World_ok self w → Chunk_wf c → Forall (λ b, Chunk_range c ## block_range b) (heap (w_mem w)) →
  let s := mkIW (inner_of_chunk c) (w_set_mem (mkMem (Chunk_block c :: heap (w_mem w)) (bytes (w_mem w))) w) in
  Inner_wf s ∧ ∀ a, Inner_avail s a → not_live (w_mem w) a.
Proof.
  intros (Hm & Htc & _) Hc Hd s. split.
  - unfold Inner_wf, Inner_blocks, lf_ok. simpl.
    splits; [|by apply submseteq_skip, submseteq_nil_l|by constructor|lia|done|done].
    unfold Mem_wf. simpl. split; [by apply Forall_fmap|exact Hm].
  - intros a [(d & Hd' & Ha)|[(b' & Hb' & Hn & _)|Ha]]; simplify_eq/=.
    + unfold not_live. eapply Forall_impl; [exact Hd|]. intros blk Hb Hin.
      rewrite range_disjoint_spec in Hb. apply (Hb a); [by apply chunk_rest_range|done].
    + exact (not_live_cons (w_mem w) (Chunk_block c) (bytes (w_mem w)) a Ha).
Qed.

(** The arena gets its lock-free buffer. *)
Lemma add_lf_step self b m' s :
  Inner_wf s → in_lockfree_buffer (i_inner s) = None → ts_owner (w_slab (i_world s)) ≠ self →
  LockFreeBuffer_new self (s_mem s) = (Ok b, m') →
  Step s (mkIW (set_lockfree_buffer (Some b) (i_inner s)) (w_set_mem m' (i_world s))).
Proof.
  intros (Hm & Hsub & Hf & Hlt & Hlf & Htc) Hnone Hown E.
  destruct (LockFreeBuffer_new_eq self (s_mem s)) as (b0 & m0 & E0 & Hself & _ & Hoff & Hbc & Hbs & Hb).
  rewrite E in E0. injection E0 as <- <-.
  assert (slab_matches (lf_state b (w_set_mem m' (i_world s))) = false) as Hnm.
  { unfold slab_matches, ThreadSlab_matches. simpl. rewrite Hself. by destruct (Z.eqb_spec (ts_owner (w_slab (i_world s))) self). }
  unfold Inner_blocks in Hsub. rewrite Hnone in Hsub. simpl in Hsub. rewrite app_nil_r in Hsub.
  destruct Hb as [[Hz ->]|(Hp & Hpm & Hpe & Hh & Hbd)]; split;
    try (intros a _; unfold s_mem at 1; cbn [i_world w_set_mem w_mem]; by rewrite ?Hbs).
  - unfold Inner_wf, Inner_blocks, lf_ok. simpl. rewrite Hz. simpl. rewrite app_nil_r. done.
  - intros a [Ha|[(b' & Hb' & Hn & _)|Ha]]; [by left|simplify_eq/=|by right; right].
  - by exists [].
  - assert (lf_buffer b ≠ 0) as Hn by lia.
    unfold Inner_wf, Inner_blocks, lf_ok, lf_blocks. simpl. destruct (Z.eqb_spec (lf_buffer b) 0); [done|].
    unfold Mem_wf in *. rewrite Hh. simpl. unfold block_range at 1. simpl. rewrite Hbc. splits; try done.
    + by apply Forall_fmap.
    + rewrite <- Permutation_cons_append. by apply submseteq_skip.
    + unfold LF_wf. rewrite Hnm. simpl. rewrite Hoff, Hbc. unfold LOCKFREE_BUFFER_SIZE. splits; done || lia.
  - intros a [Ha|[(b' & Hb' & _ & Ha)|Ha]]; [by left|right; right|right; right].
    + simpl in Hb'. injection Hb' as <-. destruct Ha as [[Hm' _]|Ha]; [simpl in Hm', Hnm; by rewrite Hm' in Hnm|].
      simpl in Ha. rewrite Hoff, Hbc in Ha. unfold not_live. eapply Forall_impl; [exact Hbd|].
      intros blk Hb Hin. rewrite range_disjoint_spec in Hb. apply (Hb a); [range_solve|done].
    + unfold not_live in *. simpl in Ha. rewrite Hh in Ha. by apply Forall_cons in Ha as [_ Ha].
  - by exists [LF_block b].
Qed.

(** The state of a fresh arena: one empty chunk, and the lock-free buffer. *)
Lemma ArenaInner_new_wf self cap w i w' :
  World_ok self w → 0 < cap ≤ ISIZE_MAX - 63 → ArenaInner_new self cap w = (Ok (ROk i), w') →
  ∃ c s0, s0 = mkIW (inner_of_chunk c) (w_set_mem (mkMem (Chunk_block c :: heap (w_mem w)) (bytes (w_mem w))) w) ∧
    Step s0 (mkIW i w') ∧ (∀ a, Inner_avail s0 a → not_live (w_mem w) a) ∧
    in_chunks i = [c] ∧ in_current_chunk i = 0%nat ∧ c_used c = 0 ∧ c_capacity c = align_to cap 64.
Proof.
  intros Hw Hcap. pose proof Hw as (_ & _ & Hown). unfold ArenaInner_new, w_on_mem. mrun.
  pose proof (Chunk_new_wf cap (w_mem w)) as Hnew.
  destruct (Chunk_new cap (w_mem w)) as [[[c|e]|e|e|e] m1] eqn:Ec; simpl; try done.
  destruct (Hnew c m1 Hcap eq_refl) as (Hcw & Hu & Hc & -> & Hd). clear Hnew.
  destruct (inner_of_chunk_wf self c w Hw Hcw Hd) as [Hwf Hav].
  set (s0 := mkIW (inner_of_chunk c) _) in *. intros Hr. exists c, s0. split; [done|].
  assert (∃ s1, Step s0 s1 ∧ same_view s1 (mkIW i w') ∧ in_chunks (i_inner s1) = [c] ∧ in_current_chunk (i_inner s1) = 0%nat)
    as (s1 & Hst & Hv & Hcs & Hcur).
  { destruct feat_lockfree.
    - destruct (LockFreeBuffer_new self _) as [[b|e|e|e] m2] eqn:Eb; try done.
      exists (mkIW (set_lockfree_buffer (Some b) (i_inner s0)) (w_set_mem m2 (i_world s0))).
      split; [by apply (add_lf_step self)|]. split; [|done]. destruct feat_stats; simplify_eq/=; by constructor.
    - exists s0. split; [by apply Step_refl|]. split; [|done]. destruct feat_stats; simplify_eq/=; by constructor. }
  split; [eapply Step_trans; [exact Hst|]; apply same_view_step; [done|]; exact (step_wf _ _ Hst)|].
  destruct Hv as [Hv1 Hv2 _ _]. simpl in Hv1, Hv2. rewrite Hv1, Hv2. done.
Qed.
End new.
