(* ===== verification/LockFreeRace.v ===== *)
(** * LockFreeRace: threads sharing one [LockFreeBuffer]

    [LockFreeBuffer] is [Sync]: threads may call [try_alloc] on the same buffer.
    Each thread has its own slab; the threads meet only in the compare-exchange on
    [offset] and in [generation].  One event is one access to the shared fields,
    with the work on the thread's own slab that follows it. *)
From S2P Require Import Prelude Memory Bump LockFree Inner InnerInv.
Local Open Scope Z_scope.

(** Where a thread is: between calls, about to load [offset], about to exchange it,
    about to set up the slab it has carved, or inside [reset] after the store to
    [offset]. *)
Inductive BufThread :=
  | BIdle
  | BLoop (l : Layout)
  | BCas (l : Layout) (current start end_ : Z)
  | BSlab (l : Layout) (start end_ : Z)
  | BResetting
  | BPanicked.

(** A call of [try_alloc] or of [reset] by an idle thread, or the next access of a
    thread inside a call. *)
Inductive BufEvent :=
  | BCall (t : nat) (l : Layout)
  | BStep (t : nat)
  | BReset (t : nat).

(** [f_log]: the requests granted, newest last. *)
Record BufSys := mkBufSys {
  f_buf : LockFreeBuffer;
  f_slabs : gmap nat ThreadSlab;
  f_threads : gmap nat BufThread;
  f_log : list (Layout * Z)
}.

Definition f_slab (t : nat) (s : BufSys) : ThreadSlab := default ThreadSlab_new (f_slabs s !! t).
Definition f_thread (t : nat) (s : BufSys) : BufThread := default BIdle (f_threads s !! t).
Definition BufSys_init (b : LockFreeBuffer) : BufSys := mkBufSys b ∅ ∅ [].

Section race.
Context `{cfg : Cfg}.

(** What [try_alloc] records of its result. *)
Definition f_finish (t : nat) (l : Layout) (r : option Z) (s : BufSys) : BufSys :=
  match r with
  | Some p => mkBufSys (lf_set_stats record_cache_hit (lf_set_stats record_allocation (f_buf s))) (f_slabs s)
                (<[t := BIdle]> (f_threads s)) (f_log s ++ [(l, p)])
  | None => mkBufSys (lf_set_stats record_cache_miss (f_buf s)) (f_slabs s) (<[t := BIdle]> (f_threads s)) (f_log s)
  end.
Definition f_goto (t : nat) (st : BufThread) (s : BufSys) : BufSys :=
  mkBufSys (f_buf s) (f_slabs s) (<[t := st]> (f_threads s)) (f_log s).
Definition f_set_slab (t : nat) (x : ThreadSlab) (s : BufSys) : BufSys :=
  mkBufSys (f_buf s) (<[t := x]> (f_slabs s)) (f_threads s) (f_log s).
Definition f_on_buf (g : LockFreeBuffer → LockFreeBuffer) (s : BufSys) : BufSys :=
  mkBufSys (g (f_buf s)) (f_slabs s) (f_threads s) (f_log s).

(** [try_alloc] up to the end of [try_thread_slab]. *)
Definition buf_call (t : nat) (l : Layout) (s : BufSys) : BufSys :=
  if MAX_LOCKFREE_ALLOCATION <? l_size l then
    f_goto t BIdle (f_on_buf (λ b, lf_set_stats record_cache_miss (lf_set_stats record_allocation b)) s)
  else
    let refill s := if lf_buffer (f_buf s) =? 0 then f_finish t l None s else f_goto t (BLoop l) s in
    if ThreadSlab_matches (lf_self (f_buf s)) (lf_generation (f_buf s)) (f_slab t s) then
      match ThreadSlab_try_alloc (l_size l) (l_align l) (f_slab t s) with
      | Ok (Some p, x) => f_finish t l (Some p) (f_set_slab t x s)
      | Ok (None, x) => refill (f_set_slab t x s)
      | _ => f_goto t BPanicked s
      end
    else refill (f_set_slab t (ThreadSlab_invalidate (f_slab t s)) s).

(** [refill_thread_slab_and_alloc]: the load of [offset] and the arithmetic on it. *)
Definition buf_load (t : nat) (l : Layout) (s : BufSys) : BufSys :=
  let current := lf_offset (f_buf s) in
  let r := block_size ← align_up (Z.max (l_size l) SLAB_MIN_BLOCK) LOCKFREE_ALIGNMENT;
           start ← align_up current LOCKFREE_ALIGNMENT;
           end_ ← usize_add start block_size;
           Ok (start, end_) in
  match r with
  | Ok (start, end_) =>
      if lf_capacity (f_buf s) <? end_ then f_finish t l None (f_on_buf (lf_set_stats record_cache_miss) s)
      else f_goto t (BCas l current start end_) s
  | _ => f_goto t BPanicked s
  end.

(** The compare-exchange. *)
Definition buf_cas (t : nat) (l : Layout) (current start end_ : Z) (s : BufSys) : BufSys :=
  if lf_offset (f_buf s) =? current then f_goto t (BSlab l start end_) (f_on_buf (lf_set_offset end_) s)
  else f_goto t (BLoop l) (f_on_buf (lf_set_stats record_contention) s).

(** The load of [generation], and the slab set up with it. *)
Definition buf_slab (t : nat) (l : Layout) (start end_ : Z) (s : BufSys) : BufSys :=
  let b := f_buf s in
  let slab := ThreadSlab_set_region (lf_self b) (lf_buffer b) start end_ (lf_generation b) (f_slab t s) in
  let s := f_on_buf (lf_set_stats record_allocation) s in
  match ThreadSlab_try_alloc (l_size l) (l_align l) slab with
  | Ok (r, slab) => f_finish t l r (f_set_slab t slab s)
  | _ => f_goto t BPanicked s
  end.

(** [reset]: the store to [offset], then the increment of [generation] and the rest
    (the bytes of the buffer are not part of this model). *)
Definition buf_reset (t : nat) (s : BufSys) : BufSys := f_goto t BResetting (f_on_buf (lf_set_offset 0) s).
Definition buf_reset_end (t : nat) (s : BufSys) : BufSys :=
  f_goto t BIdle (f_set_slab t (ThreadSlab_invalidate (f_slab t s))
    (f_on_buf (λ b, lf_set_stats LockFreeStats_reset (lf_set_generation (fetch_add (lf_generation b) 1) b)) s)).

Definition Buf_step (e : BufEvent) (s : BufSys) : option BufSys :=
  match e with
  | BCall t l => match f_thread t s with
                 | BIdle => if decide (Layout_ok l) then Some (buf_call t l s) else None
                 | _ => None
                 end
  | BStep t => match f_thread t s with
               | BLoop l => Some (buf_load t l s)
               | BCas l current start end_ => Some (buf_cas t l current start end_ s)
               | BSlab l start end_ => Some (buf_slab t l start end_ s)
               | BResetting => Some (buf_reset_end t s)
               | BIdle | BPanicked => None
               end
  | BReset t => match f_thread t s with BIdle => Some (buf_reset t s) | _ => None end
  end.

Fixpoint Buf_steps (es : list BufEvent) (s : BufSys) : option BufSys :=
  match es with
  | [] => Some s
  | e :: es => s' ← Buf_step e s; Buf_steps es s'
  end.
End race.

(** ** Invariant *)

(** The memory a thread may still hand out by itself. *)
Definition hold (b : LockFreeBuffer) (st : BufThread) (x : ThreadSlab) : Range :=
  match st with
  | BSlab _ start end_ => mkRange (lf_buffer b + start) (end_ - start)
  | _ => if ThreadSlab_matches (lf_self b) (lf_generation b) x
         then mkRange (ts_base x + ts_offset x) (ts_end x - ts_offset x) else mkRange 0 0
  end.
Definition f_hold (t : nat) (s : BufSys) : Range := hold (f_buf s) (f_thread t s) (f_slab t s).
Definition log_ranges (s : BufSys) : list Range := (λ lp, mkRange lp.2 (l_size lp.1)) <$> f_log s.
(** The part of the buffer that was carved. *)
Definition carved (s : BufSys) : Range := mkRange (lf_buffer (f_buf s)) (lf_offset (f_buf s)).

Definition bthread_ok (b : LockFreeBuffer) (st : BufThread) : Prop :=
  match st with
  | BIdle => True
  | BLoop l => Layout_ok l ∧ l_size l ≤ MAX_LOCKFREE_ALLOCATION
  | BCas l current start end_ =>
      Layout_ok l ∧ l_size l ≤ MAX_LOCKFREE_ALLOCATION ∧ 0 ≤ current ≤ start ∧ start ≤ end_ ≤ lf_capacity b
  | BSlab l start end_ => Layout_ok l ∧ l_size l ≤ MAX_LOCKFREE_ALLOCATION ∧ 0 ≤ start ≤ end_ ∧ end_ ≤ lf_capacity b
  | BResetting | BPanicked => False
  end.

Definition bslab_ok (b : LockFreeBuffer) (x : ThreadSlab) : Prop :=
  ThreadSlab_matches (lf_self b) (lf_generation b) x = true → 0 ≤ ts_offset x ≤ ts_end x ∧ ts_end x ≤ lf_capacity b.

Record BufInv (s : BufSys) : Prop := mkBufInv {
  bi_buf : 0 < lf_buffer (f_buf s) ∧ 0 ≤ lf_offset (f_buf s) ≤ lf_capacity (f_buf s) ∧ lf_capacity (f_buf s) = LOCKFREE_BUFFER_SIZE;
  bi_thread t : bthread_ok (f_buf s) (f_thread t s);
  bi_slab t : bslab_ok (f_buf s) (f_slab t s);
  bi_hold t : f_hold t s ⊆ carved s;
  bi_disj t t' : t ≠ t' → f_hold t s ## f_hold t' s;
  bi_log : Forall (λ r, r ⊆ carved s) (log_ranges s);
  bi_log_hold t : Forall (λ r, r ## f_hold t s) (log_ranges s);
  bi_log_disj : pw_disjoint (log_ranges s)
}.

Section lemmas.
Context `{cfg : Cfg}.

(** [s'] differs from [s] in what thread [t] has: its place [st] and its slab [x]. *)
Record moved (t : nat) (st : BufThread) (x : ThreadSlab) (s s' : BufSys) : Prop := mkMoved {
  mv_thread t' : f_thread t' s' = if decide (t = t') then st else f_thread t' s;
  mv_slab t' : f_slab t' s' = if decide (t = t') then x else f_slab t' s;
  mv_self : lf_self (f_buf s') = lf_self (f_buf s);
  mv_buffer : lf_buffer (f_buf s') = lf_buffer (f_buf s);
  mv_capacity : lf_capacity (f_buf s') = lf_capacity (f_buf s);
  mv_generation : lf_generation (f_buf s') = lf_generation (f_buf s);
  mv_offset : lf_offset (f_buf s) ≤ lf_offset (f_buf s') ≤ lf_capacity (f_buf s)
}.

Lemma moved_other t st x s s' t' : moved t st x s s' → t ≠ t' → f_hold t' s' = f_hold t' s.
Proof.
  intros [Ht Hx H1 H2 H3 H4 _] Hne. unfold f_hold, hold. rewrite Ht, Hx, !decide_False by done. by rewrite H1, H2, H4.
Qed.

Lemma moved_own t st x s s' : moved t st x s s' → f_hold t s' = hold (f_buf s') st x.
Proof. intros [Ht Hx _ _ _ _ _]. unfold f_hold. by rewrite Ht, Hx, !decide_True by done. Qed.

(** Memory handed out is carved, and nobody holds it any more. *)
Lemma log_old s r a : BufInv s → r ∈ log_ranges s → a ∈ r → a ∈ carved s ∧ ∀ t, a ∉ f_hold t s.
Proof.
  intros [_ _ _ _ _ Hl Hlh _] Hr Ha. rewrite Forall_forall in Hl.
  split; [exact (proj1 (range_subseteq_spec _ _) (Hl r Hr) a Ha)|].
  intros t'. specialize (Hlh t'). rewrite Forall_forall in Hlh. exact (proj1 (range_disjoint_spec _ _) (Hlh r Hr) a Ha).
Qed.

(** What one thread holds or has just carved, no other thread holds. *)
Lemma hold_other s t t' a n :
  BufInv s → t' ≠ t → a ∈ f_hold t s ∨ lf_buffer (f_buf s) + lf_offset (f_buf s) ≤ a < n → a ∉ f_hold t' s.
Proof.
  intros [_ _ _ Hh Hd _ _ _] Hne [Hin|Hin] Ha'.
  - exact (proj1 (range_disjoint_spec _ _) (Hd t' t Hne) a Ha' Hin).
  - pose proof (proj1 (range_subseteq_spec _ _) (Hh t') a Ha') as Hcar. unfold carved in Hcar. range_solve.
Qed.

Lemma BufInv_update t st x s s' :
  BufInv s → moved t st x s s' → bthread_ok (f_buf s') st → bslab_ok (f_buf s') x →
  (∀ a, a ∈ hold (f_buf s') st x →
     a ∈ f_hold t s ∨ lf_buffer (f_buf s) + lf_offset (f_buf s) ≤ a < lf_buffer (f_buf s) + lf_offset (f_buf s')) →
  (f_log s' = f_log s ∨ ∃ l p, f_log s' = f_log s ++ [(l, p)] ∧
     ∀ a, a ∈ mkRange p (l_size l) → a ∈ f_hold t s ∧ a ∉ hold (f_buf s') st x) →
  BufInv s'.
Proof.
  intros Hi Hm Hst Hx Hhold Hlog. pose proof Hi as [Hb Ht Hs Hh Hd Hl Hlh Hld]. pose proof Hm as [Mt Mx M1 M2 M3 M4 M5].
  assert (∀ a, a ∈ carved s → a ∈ carved s') as Hc by (unfold carved; rewrite M2; range_solve).
  assert (∀ a, a ∈ f_hold t s → a ∈ carved s) as Hht by (apply range_subseteq_spec, Hh).
  pose proof (λ r Hr a, log_old s r a Hi Hr) as Hold.
  assert (∀ t', f_hold t' s' = if decide (t = t') then hold (f_buf s') st x else f_hold t' s) as Hown.
  { intros t'. destruct (decide (t = t')) as [<-|]; [by eapply moved_own|by eapply moved_other]. }
  assert (∀ a t', a ∈ hold (f_buf s') st x → t' ≠ t → a ∉ f_hold t' s) as Hoth
    by (intros a t' Ha Hne Ha'; exact (hold_other s t t' a _ Hi Hne (Hhold a Ha) Ha')).
  assert (∃ new, log_ranges s' = log_ranges s ++ new ∧
    (new = [] ∨ ∃ r, new = [r] ∧ ∀ a, a ∈ r → a ∈ f_hold t s ∧ a ∉ hold (f_buf s') st x)) as (new & Hnew & Hr).
  { destruct Hlog as [E|(l & p & E & Ha)]; unfold log_ranges; rewrite E; [exists []|exists [mkRange p (l_size l)]].
    - split; [by rewrite app_nil_r|by left].
    - split; [by rewrite fmap_app|]. right. by eexists. }
  assert (∀ r, r ∈ log_ranges s' → ∀ a, a ∈ r → a ∈ carved s ∧ ∀ t', a ∉ f_hold t' s') as Hall.
  { intros r Hin a Ha. rewrite Hnew in Hin. apply elem_of_app in Hin as [Hin|Hin].
    - destruct (Hold r Hin a Ha) as [Hca Hno]. split; [done|]. intros t'. rewrite Hown. case_decide; [|done].
      intros Ha'. destruct (Hhold a Ha') as [?|?]; [by eapply Hno|]. unfold carved in Hca. range_solve.
    - destruct Hr as [->|(r' & -> & Hr)]; [by apply not_elem_of_nil in Hin|]. apply list_elem_of_singleton in Hin as ->.
      destruct (Hr a Ha) as [H1 H2]. split; [by apply Hht|]. intros t'. rewrite Hown. destruct (decide (t = t')) as [|Hne]; [done|].
      exact (proj1 (range_disjoint_spec _ _) (Hd t t' Hne) a H1). }
  split.
  - rewrite M2, M3. lia.
  - intros t'. rewrite Mt. case_decide; [done|]. specialize (Ht t'). destruct (f_thread t' s); simpl in *; by rewrite ?M3.
  - intros t'. rewrite Mx. case_decide; [done|]. specialize (Hs t'). unfold bslab_ok in *. by rewrite M1, M3, M4.
  - intros t'. apply range_subseteq_spec. rewrite Hown. case_decide.
    + intros a Ha. destruct (Hhold a Ha) as [?|?]; [auto|]. unfold carved. rewrite M2. destruct Hb as (? & ? & _). range_solve.
    + intros a Ha. apply Hc. exact (proj1 (range_subseteq_spec _ _) (Hh t') a Ha).
  - intros t1 t2 Hne. apply range_disjoint_spec. intros a. rewrite !Hown.
    destruct (decide (t = t1)), (decide (t = t2)); subst; intros H1 H2; try done.
    + by eapply Hoth.
    + by eapply Hoth.
    + exact (proj1 (range_disjoint_spec _ _) (Hd t1 t2 Hne) a H1 H2).
  - apply Forall_forall. intros r Hin. apply range_subseteq_spec. intros a Ha. by apply Hc, (Hall r Hin).
  - intros t'. apply Forall_forall. intros r Hin. apply range_disjoint_spec. intros a Ha. by apply (Hall r Hin).
  - rewrite Hnew. destruct Hr as [->|(r & -> & Hr)]; [by rewrite app_nil_r|]. apply pw_disjoint_app. split; [done|]. split; [done|].
    apply Forall_forall. intros r' Hr'. apply Forall_singleton, range_disjoint_spec. intros a Ha Ha'.
    by apply (proj2 (Hold r' Hr' a Ha) t), Hr.
Qed.

(** ** The steps of a thread *)
Lemma f_thread_insert t t' st b sl lg s :
  f_thread t' (mkBufSys b sl (<[t := st]> (f_threads s)) lg) = if decide (t = t') then st else f_thread t' s.
Proof. unfold f_thread. simpl. rewrite lookup_insert. by case_decide. Qed.
Lemma f_slab_insert t t' x b th lg s :
  f_slab t' (mkBufSys b (<[t := x]> (f_slabs s)) th lg) = if decide (t = t') then x else f_slab t' s.
Proof. unfold f_slab. simpl. rewrite lookup_insert. by case_decide. Qed.
Lemma f_slab_same t t' b th lg s :
  f_slab t' (mkBufSys b (f_slabs s) th lg) = if decide (t = t') then f_slab t s else f_slab t' s.
Proof. unfold f_slab. simpl. by case_decide; subst. Qed.

(** The system after thread [t] moved to [st], its slab being [x]. *)
Lemma moved_slab t st x b lg s :
  lf_self b = lf_self (f_buf s) → lf_buffer b = lf_buffer (f_buf s) → lf_capacity b = lf_capacity (f_buf s) →
  lf_generation b = lf_generation (f_buf s) → lf_offset (f_buf s) ≤ lf_offset b ≤ lf_capacity (f_buf s) →
  moved t st x s (mkBufSys b (<[t := x]> (f_slabs s)) (<[t := st]> (f_threads s)) lg).
Proof. intros. split; try done; intros; [apply f_thread_insert|apply f_slab_insert]. Qed.
Lemma moved_place t st b lg s :
  lf_self b = lf_self (f_buf s) → lf_buffer b = lf_buffer (f_buf s) → lf_capacity b = lf_capacity (f_buf s) →
  lf_generation b = lf_generation (f_buf s) → lf_offset (f_buf s) ≤ lf_offset b ≤ lf_capacity (f_buf s) →
  moved t st (f_slab t s) s (mkBufSys b (f_slabs s) (<[t := st]> (f_threads s)) lg).
Proof. intros. split; try done; intros; [apply f_thread_insert|apply f_slab_same]. Qed.

Ltac moved_tac :=
  unfold f_goto, f_finish, f_on_buf, f_set_slab; simpl;
  first [apply moved_place|apply moved_slab]; simpl; done || lia.

Lemma invalid_no_match owner generation x : ThreadSlab_matches owner generation (ThreadSlab_invalidate x) = false.
Proof. apply andb_false_r. Qed.

(** Allocating from a matching slab. *)
Lemma slab_alloc b x l :
  lf_capacity b = LOCKFREE_BUFFER_SIZE → bslab_ok b x → ThreadSlab_matches (lf_self b) (lf_generation b) x = true → Layout_ok l →
  ∃ r x', ThreadSlab_try_alloc (l_size l) (l_align l) x = Ok (r, x') ∧ bslab_ok b x' ∧
    ThreadSlab_matches (lf_self b) (lf_generation b) x' = true ∧
    (∀ a, a ∈ hold b BIdle x' → a ∈ hold b BIdle x) ∧
    (∀ p a, r = Some p → a ∈ mkRange p (l_size l) → a ∈ hold b BIdle x ∧ a ∉ hold b BIdle x').
Proof.
  intros Hcap Hok Hm Hl. pose proof (Hok Hm) as Hb. unfold LOCKFREE_BUFFER_SIZE in Hcap.
  assert (ts_base x ≠ 0) as Hbase.
  { unfold ThreadSlab_matches in Hm. destruct (Z.eqb_spec (ts_base x) 0); [|done]. by rewrite andb_false_r in Hm. }
  rewrite ThreadSlab_try_alloc_eq; [|done|done|ulia]. pose proof (Layout_align_pos l Hl) as Hp. destruct Hl as (Hs & _).
  pose proof (align_to_ge (ts_offset x) _ Hp). unfold hold. rewrite Hm.
  case_decide; eexists _, _; (split; [reflexivity|]).
  - assert (ThreadSlab_matches (lf_self b) (lf_generation b) (mkThreadSlab (ts_owner x) (ts_base x) (ts_start x) (ts_end x)
      (align_to (ts_offset x) (l_align l) + l_size l) (ts_generation x)) = true) as Hm' by done.
    rewrite Hm'. split; [intros _; simpl; lia|]. split; [done|]. split; [intros; range_solve|].
    intros p a [= <-] Ha. split; range_solve.
  - split; [done|]. split; [done|]. rewrite Hm. done.
Qed.

(** A step that leaves the offset alone and hands out nothing: the thread holds no
    more than before. *)
Lemma BufInv_keep t st x s s' :
  BufInv s → moved t st x s s' → bthread_ok (f_buf s') st → bslab_ok (f_buf s') x →
  (∀ a, a ∈ hold (f_buf s') st x → a ∈ f_hold t s) → f_log s' = f_log s → BufInv s'.
Proof. intros Hi Hm Hst Hx Hh Hl. apply (BufInv_update t st x s s' Hi Hm Hst Hx); [by left; auto|by left]. Qed.

Lemma buf_call_inv t l s : BufInv s → f_thread t s = BIdle → Layout_ok l → BufInv (buf_call t l s).
Proof.
  intros Hi Ht Hl. pose proof Hi as [(Hb & Ho & Hcap) _ Hs _ _ _ _ _]. pose proof (Hs t) as Hst.
  assert (f_hold t s = hold (f_buf s) BIdle (f_slab t s)) as Hh by (unfold f_hold; by rewrite Ht).
  unfold buf_call. destruct (Z.ltb_spec MAX_LOCKFREE_ALLOCATION (l_size l)).
  { apply (BufInv_keep t BIdle (f_slab t s) s); [done|moved_tac|done|done|by rewrite Hh|done]. }
  assert (∀ x, bslab_ok (f_buf s) x → (∀ a, a ∈ hold (f_buf s) BIdle x → a ∈ f_hold t s) →
    BufInv (if lf_buffer (f_buf (f_set_slab t x s)) =? 0 then f_finish t l None (f_set_slab t x s)
            else f_goto t (BLoop l) (f_set_slab t x s))) as Hrefill.
  { intros x Hx Hhx. simpl. destruct (Z.eqb_spec (lf_buffer (f_buf s)) 0); [lia|].
    apply (BufInv_keep t (BLoop l) x s); [done|moved_tac|done|done|done|done]. }
  destruct (ThreadSlab_matches _ _ _) eqn:Hm.
  - destruct (slab_alloc (f_buf s) (f_slab t s) l Hcap Hst Hm Hl) as (r & x & -> & Hx & Hm' & Hsub & Hr).
    destruct r as [p|]; [|by apply Hrefill; [done|rewrite Hh]].
    apply (BufInv_update t BIdle x s); [done|moved_tac|done|done| |].
    + intros a Ha. left. rewrite Hh. by apply Hsub.
    + right. exists l, p. split; [done|]. rewrite Hh. intros a Ha. by apply (Hr p a).
  - apply Hrefill.
    + intros Hmm. by rewrite invalid_no_match in Hmm.
    + intros a. unfold hold. rewrite invalid_no_match. range_solve.
Qed.

Lemma buf_load_inv t l s : BufInv s → f_thread t s = BLoop l → BufInv (buf_load t l s).
Proof.
  intros Hi Ht. pose proof Hi as [(Hb & Ho & Hcap) Hth Hs _ _ _ _ _]. pose proof (Hth t) as Hl. rewrite Ht in Hl.
  destruct Hl as [Hl Hsz]. pose proof Hl as (Hs0 & _).
  assert (f_hold t s = hold (f_buf s) BIdle (f_slab t s)) as Hh by (unfold f_hold; by rewrite Ht).
  unfold buf_load, LOCKFREE_ALIGNMENT, SLAB_MIN_BLOCK, MAX_LOCKFREE_ALLOCATION, LOCKFREE_BUFFER_SIZE in *.
  pose proof (align_to_ge (Z.max (l_size l) 256) 64 ltac:(done)). pose proof (align_to_lt (Z.max (l_size l) 256) 64 ltac:(done)).
  pose proof (align_to_ge (lf_offset (f_buf s)) 64 ltac:(done)). pose proof (align_to_lt (lf_offset (f_buf s)) 64 ltac:(done)).
  rewrite align_up_spec by (done || ulia). mrun. rewrite align_up_spec by (done || ulia). mrun. rewrite usize_add_in by ulia. mrun.
  destruct (Z.ltb_spec (lf_capacity (f_buf s)) (align_to (lf_offset (f_buf s)) 64 + align_to (Z.max (l_size l) 256) 64)).
  - apply (BufInv_keep t BIdle (f_slab t s) s); [done|moved_tac|done|by apply Hs|by rewrite Hh|done].
  - apply (BufInv_keep t (BCas l (lf_offset (f_buf s)) (align_to (lf_offset (f_buf s)) 64)
      (align_to (lf_offset (f_buf s)) 64 + align_to (Z.max (l_size l) 256) 64)) (f_slab t s) s);
      [done|moved_tac| |by apply Hs|by rewrite Hh|done].
    simpl. unfold MAX_LOCKFREE_ALLOCATION. splits; done || lia.
Qed.

Lemma buf_cas_inv t l current start end_ s :
  BufInv s → f_thread t s = BCas l current start end_ → BufInv (buf_cas t l current start end_ s).
Proof.
  intros Hi Ht. pose proof Hi as [(Hb & Ho & Hcap) Hth Hs _ _ _ _ _]. pose proof (Hth t) as Hl. rewrite Ht in Hl.
  destruct Hl as (Hl & Hsz & Hcur & Hend).
  assert (f_hold t s = hold (f_buf s) BIdle (f_slab t s)) as Hh by (unfold f_hold; by rewrite Ht).
  unfold buf_cas. destruct (Z.eqb_spec (lf_offset (f_buf s)) current) as [E|].
  - apply (BufInv_update t (BSlab l start end_) (f_slab t s) s);
      [done|moved_tac|simpl; splits; done || lia|by apply Hs| |by left].
    intros a Ha. right. simpl in *. range_solve.
  - apply (BufInv_keep t (BLoop l) (f_slab t s) s); [done|moved_tac|done|by apply Hs|by rewrite Hh|done].
Qed.

Lemma buf_slab_inv t l start end_ s :
  BufInv s → f_thread t s = BSlab l start end_ → BufInv (buf_slab t l start end_ s).
Proof.
  intros Hi Ht. pose proof Hi as [(Hb & Ho & Hcap) Hth Hs _ _ _ _ _]. pose proof (Hth t) as Hl. rewrite Ht in Hl.
  destruct Hl as (Hl & Hsz & Hst & Hend).
  set (x := ThreadSlab_set_region (lf_self (f_buf s)) (lf_buffer (f_buf s)) start end_ (lf_generation (f_buf s)) (f_slab t s)).
  assert (ThreadSlab_matches (lf_self (f_buf s)) (lf_generation (f_buf s)) x = true) as Hm.
  { unfold ThreadSlab_matches, x. simpl. rewrite !Z.eqb_refl. destruct (Z.eqb_spec (lf_buffer (f_buf s)) 0); [lia|done]. }
  assert (f_hold t s = hold (f_buf s) BIdle x) as Hh by (unfold f_hold, hold; by rewrite Ht, Hm).
  assert (bslab_ok (f_buf s) x) as Hx by (intros _; simpl; lia).
  unfold buf_slab. fold x. destruct (slab_alloc (f_buf s) x l Hcap Hx Hm Hl) as (r & x' & -> & Hx' & Hm' & Hsub & Hr).
  destruct r as [p|].
  - apply (BufInv_update t BIdle x' s); [done|moved_tac|done|done| |].
    + intros a Ha. left. rewrite Hh. by apply Hsub.
    + right. exists l, p. split; [done|]. rewrite Hh. intros a Ha. by apply (Hr p a).
  - apply (BufInv_keep t BIdle x' s); [done|moved_tac|done|done|rewrite Hh; exact Hsub|done].
Qed.

Definition no_reset (e : BufEvent) : Prop := match e with BReset _ => False | _ => True end.

Lemma Buf_step_inv e s s' : BufInv s → no_reset e → Buf_step e s = Some s' → BufInv s'.
Proof.
  intros Hi He. destruct e as [t l|t|t]; simpl; [| |done]; destruct (f_thread t s) eqn:Ht; try done.
  - case_decide; [|done]. intros [= <-]. by apply buf_call_inv.
  - intros [= <-]. by apply buf_load_inv.
  - intros [= <-]. by apply buf_cas_inv.
  - intros [= <-]. by apply buf_slab_inv.
  - intros _. pose proof (bi_thread s Hi t) as Hb. by rewrite Ht in Hb.
Qed.

Lemma Buf_steps_inv es s s' : BufInv s → Forall no_reset es → Buf_steps es s = Some s' → BufInv s'.
Proof.
  intros Hi Hes. revert s Hi. induction Hes as [|e es He _ IH]; intros s Hi; simpl; [by intros [= <-]|].
  destruct (Buf_step e s) as [s1|] eqn:E; simpl; [|done]. apply IH. by eapply Buf_step_inv.
Qed.

(** No step moves the block. *)
Lemma Buf_step_buffer e s s' : Buf_step e s = Some s' → lf_buffer (f_buf s') = lf_buffer (f_buf s).
Proof.
  destruct e as [t l|t|t]; simpl; destruct (f_thread t s); intros E; repeat case_match; simplify_eq; try done.
  - unfold buf_call. repeat case_match; done.
  - unfold buf_load. repeat case_match; done.
  - unfold buf_cas. by case_match.
  - unfold buf_slab, f_finish. repeat case_match; done.
Qed.
Lemma Buf_steps_buffer es s s' : Buf_steps es s = Some s' → lf_buffer (f_buf s') = lf_buffer (f_buf s).
Proof.
  revert s. induction es as [|e es IH]; intros s; simpl; [by intros [= <-]|].
  destruct (Buf_step e s) as [s1|] eqn:E; simpl; [|done]. intros H%IH. rewrite H. by eapply Buf_step_buffer.
Qed.

(** A new buffer, whose block was allocated. *)
Lemma BufSys_init_inv b :
  0 < lf_buffer b → lf_offset b = 0 → lf_capacity b = LOCKFREE_BUFFER_SIZE → BufInv (BufSys_init b).
Proof.
  intros Hb Ho Hc.
  assert (∀ t, f_hold t (BufSys_init b) = mkRange 0 0) as Hh.
  { intros t. unfold f_hold, hold. simpl. unfold ThreadSlab_matches. simpl. by rewrite andb_false_r. }
  split; try done; simpl.
  - rewrite Ho, Hc. unfold LOCKFREE_BUFFER_SIZE. lia.
  - intros t Hm. unfold ThreadSlab_matches in Hm. simpl in Hm. by rewrite andb_false_r in Hm.
  - intros t. rewrite Hh. range_solve.
  - intros t t' _. rewrite !Hh. range_solve.
Qed.
(** ** A call, access by access *)
Lemma Buf_steps_cons e es s s1 : Buf_step e s = Some s1 → Buf_steps (e :: es) s = Buf_steps es s1.
Proof. intros E. cbn [Buf_steps]. by rewrite E. Qed.

Lemma moved_trans t st1 x1 st2 x2 s s1 s2 : moved t st1 x1 s s1 → moved t st2 x2 s1 s2 → moved t st2 x2 s s2.
Proof.
  intros [T1 X1 A1 B1 C1 D1 O1] [T2 X2 A2 B2 C2 D2 O2]. split; try congruence; [| |lia].
  - intros t'. rewrite T2, T1. by case_decide.
  - intros t'. rewrite X2, X1. by case_decide.
Qed.

(** The bytes a slab for [l] takes. *)
Definition slab_bytes (l : Layout) : Z := align_to (Z.max (l_size l) SLAB_MIN_BLOCK) LOCKFREE_ALIGNMENT.
Lemma slab_bytes_bounds l : 0 ≤ l_size l ≤ MAX_LOCKFREE_ALLOCATION → l_size l ≤ slab_bytes l ≤ 1088.
Proof.
  unfold slab_bytes, SLAB_MIN_BLOCK, LOCKFREE_ALIGNMENT, MAX_LOCKFREE_ALLOCATION. intros H.
  pose proof (align_to_ge (Z.max (l_size l) 256) 64). pose proof (align_to_lt (Z.max (l_size l) 256) 64). lia.
Qed.

(** A thread that has no slab of its own carves the first one of an empty buffer. *)
Lemma buf_carve t l s es :
  f_thread t s = BIdle → Layout_ok l → l_size l ≤ MAX_LOCKFREE_ALLOCATION →
  0 < lf_buffer (f_buf s) → lf_offset (f_buf s) = 0 → lf_capacity (f_buf s) = LOCKFREE_BUFFER_SIZE →
  ThreadSlab_matches (lf_self (f_buf s)) (lf_generation (f_buf s)) (f_slab t s) = false →
  ∃ s', Buf_steps (BCall t l :: BStep t :: BStep t :: es) s = Buf_steps es s' ∧
    moved t (BSlab l 0 (slab_bytes l)) (ThreadSlab_invalidate (f_slab t s)) s s' ∧ f_log s' = f_log s.
Proof.
  intros Ht Hl Hsz Hb Ho Hcap Hm. pose proof Hl as (Hs0 & _). pose proof (slab_bytes_bounds l ltac:(lia)) as Hsb.
  assert (lf_offset (f_buf s) ≤ lf_offset (f_buf s) ≤ lf_capacity (f_buf s)) as Hoc by (rewrite Ho, Hcap; done).
  set (s1 := f_goto t (BLoop l) (f_set_slab t (ThreadSlab_invalidate (f_slab t s)) s)).
  assert (moved t (BLoop l) (ThreadSlab_invalidate (f_slab t s)) s s1) as M1 by (unfold s1; moved_tac).
  rewrite (Buf_steps_cons _ _ _ s1).
  2:{ unfold Buf_step. rewrite Ht, decide_True by done. unfold buf_call, MAX_LOCKFREE_ALLOCATION in *. destruct (Z.ltb_spec 1024 (l_size l)); [lia|].
      rewrite Hm. simpl. by destruct (Z.eqb_spec (lf_buffer (f_buf s)) 0); [lia|]. }
  set (s2 := f_goto t (BCas l 0 0 (slab_bytes l)) s1).
  assert (moved t (BCas l 0 0 (slab_bytes l)) (ThreadSlab_invalidate (f_slab t s)) s s2) as M2.
  { eapply moved_trans; [exact M1|]. pose proof (moved_place t (BCas l 0 0 (slab_bytes l)) (f_buf s1) (f_log s1) s1) as M.
    rewrite (mv_slab _ _ _ _ _ M1 t), decide_True in M by done. by apply M. }
  rewrite (Buf_steps_cons _ _ _ s2).
  2:{ unfold Buf_step. rewrite (mv_thread _ _ _ _ _ M1), decide_True by done. unfold buf_load. simpl. rewrite Ho, Hcap.
      unfold LOCKFREE_ALIGNMENT, LOCKFREE_BUFFER_SIZE, slab_bytes, SLAB_MIN_BLOCK, MAX_LOCKFREE_ALLOCATION, LOCKFREE_ALIGNMENT in *.
      rewrite align_up_spec by (done || ulia). mrun. rewrite align_up_spec by (done || ulia). mrun. change (align_to 0 64) with 0.
      rewrite usize_add_in by ulia. mrun. by destruct (Z.ltb_spec 4096 (0 + align_to (Z.max (l_size l) 256) 64)); [lia|]. }
  set (s3 := f_goto t (BSlab l 0 (slab_bytes l)) (f_on_buf (lf_set_offset (slab_bytes l)) s2)). exists s3. split; [|split; [|done]].
  - apply Buf_steps_cons. unfold Buf_step. rewrite (mv_thread _ _ _ _ _ M2), decide_True by done. unfold buf_cas. simpl. by rewrite Ho.
  - eapply moved_trans; [exact M2|]. pose proof (moved_place t (BSlab l 0 (slab_bytes l)) (lf_set_offset (slab_bytes l) (f_buf s2)) (f_log s2) s2) as M.
    rewrite (mv_slab _ _ _ _ _ M2 t), decide_True in M by done. apply M; try done. simpl. rewrite Ho, Hcap. unfold LOCKFREE_BUFFER_SIZE. lia.
Qed.

(** Then it takes the first bytes of that slab, with the generation of the moment. *)
Lemma buf_grant t l n s es :
  f_thread t s = BSlab l 0 n → Layout_ok l → l_size l ≤ n → 0 < lf_buffer (f_buf s) → 0 ≤ lf_offset (f_buf s) ≤ lf_capacity (f_buf s) →
  ∃ s' x, Buf_steps (BStep t :: es) s = Buf_steps es s' ∧ moved t BIdle x s s' ∧ f_log s' = f_log s ++ [(l, lf_buffer (f_buf s))] ∧
    lf_offset (f_buf s') = lf_offset (f_buf s).
Proof.
  intros Ht Hl Hn Hb Ho. eexists _, _. split.
  - apply Buf_steps_cons. unfold Buf_step. rewrite Ht. unfold buf_slab. rewrite ThreadSlab_try_alloc_eq by (simpl; done || lia || ulia).
    simpl. rewrite (align_to_id 0 (l_align l)) by (apply (Layout_align_pos l Hl) || apply Z.mod_0_l; pose proof (Layout_align_pos l Hl); lia).
    rewrite decide_True by lia. reflexivity.
  - simpl. rewrite Z.add_0_r. split; [|done]. moved_tac.
Qed.
End lemmas.

(** ** Theorems *)

(** C16: threads sharing a [LockFreeBuffer].  Starting with a new buffer, in every
    interleaving of the accesses of any number of threads that call [try_alloc]
    concurrently (none calling [reset]), no thread panics and the requests granted
    are pairwise disjoint and inside the buffer. *)
Theorem lockfree_shared_disjoint `{cfg : Cfg} {ga : GlobalAlloc} `{!GlobalAllocOk ga} self m b m' es s :
  LockFreeBuffer_new self m = (Ok b, m') → lf_buffer b ≠ 0 →
  Forall no_reset es → Buf_steps es (BufSys_init b) = Some s →
  pw_disjoint (log_ranges s) ∧ Forall (λ r, r ⊆ mkRange (lf_buffer b) LOCKFREE_BUFFER_SIZE) (log_ranges s) ∧
  ∀ t, f_thread t s ≠ BPanicked.
Proof.
  intros Hnew Hb Hes Hs. destruct (LockFreeBuffer_new_eq self m) as (b0 & m0 & E & _ & _ & Ho & Hc & _ & Hcase).
  rewrite Hnew in E. injection E as <- <-. destruct Hcase as [[? _]|[Hpos _]]; [done|].
  pose proof (Buf_steps_inv es _ s (BufSys_init_inv b Hpos Ho Hc) Hes Hs) as [(_ & Hoff & Hcap) Ht _ _ _ Hl _ Hd].
  pose proof (Buf_steps_buffer es _ s Hs) as Hbuf. simpl in Hbuf.
  splits; [done| |].
  - eapply Forall_impl; [exact Hl|]. intros r. unfold carved. rewrite Hbuf. range_solve.
  - intros t E. specialize (Ht t). by rewrite E in Ht.
Qed.

(** Two threads race for the first slab: the second loses the exchange, loads again
    and carves the next one; then each allocates from its own. *)
Lemma lockfree_shared_disjoint_witness :
  let cfg := cfg_release in
  let b := mkLockFreeBuffer 100 4096 0 4096 LockFreeStats_new 0 in
  let l := mkLayout 24 8 in
  let es := [BCall 1 l; BCall 2 l; BStep 1; BStep 2; BStep 1; BStep 2; BStep 2; BStep 2; BStep 1; BStep 2; BCall 1 l] in
  ∃ s, Buf_steps es (BufSys_init b) = Some s ∧ f_log s = [(l, 4096); (l, 4352); (l, 4120)] ∧
    pw_disjoint (log_ranges s) ∧ Forall (λ r, r ⊆ mkRange 4096 LOCKFREE_BUFFER_SIZE) (log_ranges s).
Proof.
  intros cfg b l es. destruct (Buf_steps es (BufSys_init b)) as [s|] eqn:E; [|by vm_compute in E].
  exists s. split; [done|].
  destruct (@lockfree_shared_disjoint cfg bump_alloc bump_alloc_ok 100 Mem_empty b
    (mkMem [mkBlock 4096 (mkLayout 4096 64)] ∅) es s) as (H1 & H2 & _); [vm_compute; reflexivity|done| |exact E|].
  - repeat constructor.
  - split; [|by split]. vm_compute in E. by injection E as <-.
Defined.

(** C39: [reset] takes [&self], so a thread may reset the buffer while another is
    between its compare-exchange and its load of [generation].  In any state of a buffer
    that is empty (new, or just reset), for any two threads between calls, the first
    without a slab of the buffer, and any two requests of at most 1024 bytes: that thread
    stamps the slab it carved before the reset with the generation after it, the memory is
    carved a second time, and both requests are granted the same address. *)
Theorem lockfree_reset_race `{cfg : Cfg} (s : BufSys) t1 t2 l1 l2 :
  let b := f_buf s in
  0 < lf_buffer b → lf_offset b = 0 → lf_capacity b = LOCKFREE_BUFFER_SIZE →
  t1 ≠ t2 → f_thread t1 s = BIdle → f_thread t2 s = BIdle →
  ThreadSlab_matches (lf_self b) (lf_generation b) (f_slab t1 s) = false →
  Layout_ok l1 → l_size l1 ≤ MAX_LOCKFREE_ALLOCATION → Layout_ok l2 → l_size l2 ≤ MAX_LOCKFREE_ALLOCATION →
  ∃ s', Buf_steps [BCall t1 l1; BStep t1; BStep t1; BReset t2; BStep t2; BStep t1; BCall t2 l2; BStep t2; BStep t2; BStep t2] s = Some s' ∧
    f_log s' = f_log s ++ [(l1, lf_buffer b); (l2, lf_buffer b)].
Proof.
  intros b Hb Ho Hcap Hne H1 H2 Hm Hl1 Hs1 Hl2 Hs2. pose proof (slab_bytes_bounds l1 ltac:(destruct Hl1; lia)) as Hn1.
  pose proof (slab_bytes_bounds l2 ltac:(destruct Hl2; lia)) as Hn2. assert (0 ≤ l_size l1 ∧ 0 ≤ l_size l2) as [Hp1 Hp2] by (destruct Hl1, Hl2; done).
  destruct (buf_carve t1 l1 s [BReset t2; BStep t2; BStep t1; BCall t2 l2; BStep t2; BStep t2; BStep t2] H1 Hl1 Hs1 Hb Ho Hcap Hm) as (s1 & -> & M1 & L1).
  pose proof M1 as [T1 _ A1 B1 C1 D1 _].
  assert (f_thread t2 s1 = BIdle) as T2 by (by rewrite T1, decide_False).
  rewrite (Buf_steps_cons _ _ _ (buf_reset t2 s1)) by (unfold Buf_step; by rewrite T2).
  rewrite (Buf_steps_cons _ _ _ (buf_reset_end t2 (buf_reset t2 s1))).
  2:{ unfold Buf_step. assert (f_thread t2 (buf_reset t2 s1) = BResetting) as ->; [|done]. unfold f_thread. simpl. by rewrite lookup_insert_eq. }
  set (s2 := buf_reset_end t2 (buf_reset t2 s1)).
  assert (lf_buffer (f_buf s2) = lf_buffer b ∧ lf_offset (f_buf s2) = 0 ∧ lf_capacity (f_buf s2) = LOCKFREE_BUFFER_SIZE ∧ f_log s2 = f_log s) as (B2 & O2 & C2 & L2)
    by (unfold s2; simpl; by rewrite B1, C1, L1).
  assert (f_thread t1 s2 = BSlab l1 0 (slab_bytes l1)) as T1'.
  { unfold s2, f_thread. simpl. rewrite !lookup_insert_ne by done. change (f_thread t1 s1 = BSlab l1 0 (slab_bytes l1)). by rewrite T1, decide_True. }
  destruct (buf_grant t1 l1 _ s2 [BCall t2 l2; BStep t2; BStep t2; BStep t2] T1' Hl1) as (s3 & x & -> & M3 & L3 & O3);
    [lia|by rewrite B2|rewrite O2, C2; done|]. pose proof M3 as [T3 X3 A3 B3 C3 D3 _].
  destruct (buf_carve t2 l2 s3 [BStep t2]) as (s4 & -> & M4 & L4).
  { rewrite T3, decide_False by done. unfold s2, f_thread. simpl. by rewrite lookup_insert_eq. }
  { done. } { done. } { by rewrite B3, B2. } { by rewrite O3, O2. } { by rewrite C3, C2. }
  { rewrite X3, decide_False by done. unfold s2, f_slab. simpl. rewrite lookup_insert_eq. apply invalid_no_match. }
  pose proof M4 as [T4 _ A4 B4 C4 D4 O4].
  destruct (buf_grant t2 l2 (slab_bytes l2) s4 []) as (s5 & y & -> & M5 & L5 & O5).
  { by rewrite T4, decide_True. } { done. } { lia. } { by rewrite B4, B3, B2. } { rewrite C4 in *. lia. }
  exists s5. split; [done|]. rewrite L5, L4, L3, L2, B4, B3, B2, <- app_assoc. done.
Qed.

(** A new buffer. *)
Lemma lockfree_reset_race_witness :
  let b := mkLockFreeBuffer 100 4096 0 LOCKFREE_BUFFER_SIZE LockFreeStats_new 0 in
  let es := [BCall 1 (mkLayout 24 8); BStep 1; BStep 1; BReset 2; BStep 2; BStep 1; BCall 2 (mkLayout 4 4); BStep 2; BStep 2; BStep 2] in
  ∃ s, @Buf_steps cfg_release es (BufSys_init b) = Some s ∧ f_log s = [(mkLayout 24 8, 4096); (mkLayout 4 4, 4096)].
Proof.
  intros b es. apply (@lockfree_reset_race cfg_release (BufSys_init b) 1 2 (mkLayout 24 8) (mkLayout 4 4));
    try reflexivity; try discriminate; vm_compute; intuition discriminate.
Defined.
