(* ===== verification/LockFreeProgress.v ===== *)
(** * LockFreeProgress: the shared buffer is lock-free

    A thread inside [try_alloc] on a [LockFreeBuffer] is never blocked, and it repeats
    its loop only when another thread has carved a slab in between.  A slab takes at
    least 256 bytes of the buffer, so the calls in progress end after a bounded number
    of accesses, however the threads are scheduled. *)
From S2P Require Import Prelude Memory Bump LockFree Inner InnerInv LockFreeRace.
Local Open Scope Z_scope.

(** ** Sums over the threads *)
Definition wsum (w : nat → Z) (ts : list nat) : Z := foldr (λ t n, w t + n) 0 ts.

Lemma wsum_nonneg w ts : (∀ t, 0 ≤ w t) → 0 ≤ wsum w ts.
Proof. intros H. induction ts as [|t ts IH]; simpl; [done|]. specialize (H t). lia. Qed.
Lemma wsum_le w k ts : (∀ t, w t ≤ k) → wsum w ts ≤ k * Z.of_nat (length ts).
Proof. intros H. induction ts as [|t ts IH]; simpl; [lia|]. specialize (H t). lia. Qed.
Lemma wsum_grow w w' k ts : (∀ t, t ∈ ts → w' t ≤ w t + k) → wsum w' ts ≤ wsum w ts + k * Z.of_nat (length ts).
Proof.
  induction ts as [|t ts IH]; simpl; intros H; [lia|]. pose proof (H t ltac:(left)).
  specialize (IH (λ t' Ht, H t' (list_elem_of_further _ _ _ Ht))). lia.
Qed.
(** One thread moves; the weights of the others grow by at most [k]. *)
Lemma wsum_step w w' k t ts :
  NoDup ts → t ∈ ts → 0 ≤ k → (∀ t', t' ∈ ts → t' ≠ t → w' t' ≤ w t' + k) →
  wsum w' ts ≤ wsum w ts - w t + w' t + k * (Z.of_nat (length ts) - 1).
Proof.
  intros Hnd Ht Hk H. induction Hnd as [|x ts Hx Hnd IH]; [by apply elem_of_nil in Ht|]. simpl.
  apply elem_of_cons in Ht as [->|Ht].
  - pose proof (wsum_grow w w' k ts) as Hg. rewrite Nat2Z.inj_succ.
    assert (wsum w' ts ≤ wsum w ts + k * Z.of_nat (length ts)); [|lia]. apply Hg. intros t' Ht'. apply H; [by right|]. by intros ->.
  - pose proof (H x ltac:(left) ltac:(by intros ->)). specialize (IH Ht (λ t' Ht', H t' (list_elem_of_further _ _ _ Ht'))).
    rewrite Nat2Z.inj_succ. lia.
Qed.

(** ** The measure *)

(** The accesses a thread still needs if nobody interferes; one whose value of
    [offset] is out of date will have to load it again. *)
Definition weight (offset : Z) (st : BufThread) : Z :=
  match st with
  | BIdle | BResetting | BPanicked => 0
  | BSlab _ _ _ => 1
  | BCas _ current _ _ => if offset =? current then 2 else 4
  | BLoop _ => 3
  end.
Lemma weight_range o st : 0 ≤ weight o st ≤ 4.
Proof. destruct st; simpl; try lia. by destruct (o =? _). Qed.
Lemma weight_stale o o' st : weight o' st ≤ weight o st + 2.
Proof. destruct st; simpl; try lia. destruct (o =? _), (o' =? _); lia. Qed.

(** The slabs left in the buffer. *)
Definition slabs_left (s : BufSys) : Z := (lf_capacity (f_buf s) - lf_offset (f_buf s)) `div` SLAB_MIN_BLOCK.
Definition work (ts : list nat) (s : BufSys) : Z := wsum (λ t, weight (lf_offset (f_buf s)) (f_thread t s)) ts.
Definition measure (ts : list nat) (s : BufSys) : Z := work ts s + (2 * Z.of_nat (length ts) + 1) * slabs_left s.

(** A slab about to be carved has the minimal size. *)
Definition cas_ok (s : BufSys) : Prop :=
  ∀ t l current start end_, f_thread t s = BCas l current start end_ → current + SLAB_MIN_BLOCK ≤ end_.

(** No step makes a thread of [s] appear that is not listed. *)
Definition covers (ts : list nat) (s : BufSys) : Prop := ∀ t, f_thread t s ≠ BIdle → t ∈ ts.

Section progress.
Context `{cfg : Cfg}.

(** What one access does to the place of its thread. *)
Inductive access : BufThread → BufThread → Z → Z → Prop :=
  | acc_refused l o : access (BLoop l) BIdle o o
  | acc_loaded l o start end_ : o + SLAB_MIN_BLOCK ≤ end_ → access (BLoop l) (BCas l o start end_) o o
  | acc_lost l o current start end_ : o ≠ current → access (BCas l current start end_) (BLoop l) o o
  | acc_won l o start end_ : access (BCas l o start end_) (BSlab l start end_) o end_
  | acc_slab l start end_ o : access (BSlab l start end_) BIdle o o.

Lemma step_access t s s' :
  BufInv s → Buf_step (BStep t) s = Some s' →
  access (f_thread t s) (f_thread t s') (lf_offset (f_buf s)) (lf_offset (f_buf s')) ∧
  (∀ t', t' ≠ t → f_thread t' s' = f_thread t' s) ∧ lf_capacity (f_buf s') = lf_capacity (f_buf s).
Proof.
  intros Hi E. pose proof (Buf_step_inv (BStep t) s s' Hi I E) as Hi'. pose proof (bi_thread s' Hi' t) as Ht'.
  pose proof Hi as [(Hb & Ho & Hcap) Hth _ _ _ _ _ _]. pose proof (Hth t) as Hl. simpl in E.
  assert (∀ st b sl lg, s' = mkBufSys b sl (<[t := st]> (f_threads s)) lg → f_thread t s' = st ∧ ∀ t', t' ≠ t → f_thread t' s' = f_thread t' s) as Hput.
  { intros st b sl lg ->. split; [|intros t' Hne]; rewrite f_thread_insert; [by rewrite decide_True|by rewrite decide_False]. }
  destruct (f_thread t s) as [|l|l current start end_|l start end_| |] eqn:Et; try done; injection E as E.
  - revert E. unfold buf_load, LOCKFREE_ALIGNMENT, SLAB_MIN_BLOCK, LOCKFREE_BUFFER_SIZE in *.
    destruct Hl as [(Hs0 & _) Hsz]. unfold MAX_LOCKFREE_ALLOCATION in Hsz.
    pose proof (align_to_ge (Z.max (l_size l) 256) 64 ltac:(done)). pose proof (align_to_lt (Z.max (l_size l) 256) 64 ltac:(done)).
    pose proof (align_to_ge (lf_offset (f_buf s)) 64 ltac:(done)). pose proof (align_to_lt (lf_offset (f_buf s)) 64 ltac:(done)).
    rewrite align_up_spec by (done || ulia). mrun.
    rewrite align_up_spec by (done || ulia). mrun. rewrite usize_add_in by ulia. mrun.
    destruct (_ <? _); intros <-; (destruct (Hput _ _ _ _ eq_refl) as [-> Hoth]); (split; [|by split]); simpl.
    + apply acc_refused.
    + apply acc_loaded. unfold SLAB_MIN_BLOCK. lia.
  - unfold buf_cas in E. destruct (Z.eqb_spec (lf_offset (f_buf s)) current) as [<-|Hne]; subst s';
      (destruct (Hput _ _ _ _ eq_refl) as [-> Hoth]); (split; [|by split]); simpl; [apply acc_won|by apply acc_lost].
  - revert E. unfold buf_slab, f_finish. destruct (ThreadSlab_try_alloc _ _ _) as [[[p|] x]|e|e|e]; intros <-;
      (destruct (Hput _ _ _ _ eq_refl) as [Hst Hoth]); rewrite Hst in Ht' |- *; try done; (split; [|by split]); apply acc_slab.
Qed.

(** Every access uses up some of the measure. *)
Lemma step_measure t ts s s' :
  BufInv s → cas_ok s → NoDup ts → covers ts s → Buf_step (BStep t) s = Some s' → measure ts s' + 1 ≤ measure ts s.
Proof.
  intros Hi Hc Hnd Hts E. destruct (step_access t s s' Hi E) as (Ha & Hoth & Hcap).
  assert (t ∈ ts) as Ht by (apply Hts; intros Et; simpl in E; by rewrite Et in E).
  set (w := λ t, weight (lf_offset (f_buf s)) (f_thread t s)). set (w' := λ t, weight (lf_offset (f_buf s')) (f_thread t s')).
  assert (∀ k, (∀ st, weight (lf_offset (f_buf s')) st ≤ weight (lf_offset (f_buf s)) st + k) → 0 ≤ k →
    work ts s' ≤ work ts s - w t + w' t + k * (Z.of_nat (length ts) - 1)) as Hw.
  { intros k Hk H0. apply (wsum_step w w' k t ts Hnd Ht H0). intros t' _ Hne. unfold w, w'. rewrite Hoth by done. apply Hk. }
  assert (lf_offset (f_buf s') = lf_offset (f_buf s) → w' t < w t → measure ts s' + 1 ≤ measure ts s) as Hsame.
  { intros Ho Hlt. specialize (Hw 0). rewrite Ho in Hw. unfold measure, slabs_left. rewrite Hcap, Ho.
    specialize (Hw ltac:(intros; lia) ltac:(done)). lia. }
  unfold w, w' in Hsame, Hw. clear w w' Hoth. specialize (Hc t). unfold measure, slabs_left, SLAB_MIN_BLOCK in *. rewrite Hcap in *.
  revert Ha Hw Hsame Hc. generalize (f_thread t s), (f_thread t s'), (lf_offset (f_buf s)), (lf_offset (f_buf s')), (work ts s), (work ts s').
  intros st st' o o' n n' Ha Hw Hsame Hc. destruct Ha; try (apply Hsame; [done|]); simpl.
  - lia.
  - by rewrite Z.eqb_refl.
  - destruct (Z.eqb_spec o current); [done|lia].
  - specialize (Hc _ _ _ _ eq_refl). specialize (Hw 2 ltac:(intros; apply weight_stale) ltac:(done)). simpl in Hw. rewrite Z.eqb_refl in Hw.
    assert ((lf_capacity (f_buf s) - end_) `div` 256 ≤ (lf_capacity (f_buf s) - o) `div` 256 - 1) as Hdiv.
    { replace ((lf_capacity (f_buf s) - o) `div` 256 - 1) with ((lf_capacity (f_buf s) - o + (-1) * 256) `div` 256) by (rewrite Z.div_add by done; lia).
      apply Z.div_le_mono; lia. }
    nia.
  - lia.
Qed.

(** The invariants of the measure. *)
Lemma step_cas_ok e s s' : BufInv s → cas_ok s → no_reset e → Buf_step e s = Some s' → cas_ok s'.
Proof.
  intros Hi Hc He E t' l' c' st' en' Et'. destruct e as [t l|t|t]; [| |done].
  - assert (f_thread t' s' = f_thread t' s) as Hsame; [|rewrite Hsame in Et'; by eapply Hc].
    assert (∀ st b sl lg, (∀ x y z k, st ≠ BCas x y z k) → s' = mkBufSys b sl (<[t := st]> (f_threads s)) lg → f_thread t' s' = f_thread t' s) as Hput.
    { intros st b sl lg Hst ->. rewrite f_thread_insert in Et' |- *. case_decide; [|done]. by apply Hst in Et'. }
    simpl in E. destruct (f_thread t s); try done. case_decide; [|done]. injection E as E. symmetry in E.
    unfold buf_call, f_goto, f_finish, f_on_buf, f_set_slab in E. repeat case_match; (eapply Hput; [|exact E]); done.
  - destruct (step_access t s s' Hi E) as (Ha & Hoth & _). destruct (decide (t' = t)) as [->|Hne]; [|rewrite Hoth in Et' by done; by eapply Hc].
    rewrite Et' in Ha. by inversion Ha.
Qed.
Lemma step_covers t ts s s' : BufInv s → covers ts s → Buf_step (BStep t) s = Some s' → covers ts s'.
Proof.
  intros Hi Hts E t' Ht'. apply Hts. destruct (step_access t s s' Hi E) as (_ & Hoth & _).
  destruct (decide (t' = t)) as [->|Hne]; [|by rewrite <- (Hoth t')]. intros Et. simpl in E. by rewrite Et in E.
Qed.

Lemma calls_bounded ts sched s s' :
  BufInv s → cas_ok s → NoDup ts → covers ts s → Buf_steps (BStep <$> sched) s = Some s' →
  Z.of_nat (length sched) + measure ts s' ≤ measure ts s.
Proof.
  revert s. induction sched as [|t sched IH]; intros s Hi Hc Hnd Hts; cbn [fmap list_fmap Buf_steps]; [intros [= <-]; simpl; lia|].
  destruct (Buf_step (BStep t) s) as [s1|] eqn:E; cbn [mbind option_bind]; [|done]. intros Es.
  pose proof (step_measure t ts s s1 Hi Hc Hnd Hts E).
  cbn [length]. assert (Z.of_nat (length sched) + measure ts s' ≤ measure ts s1); [|lia].
  apply IH; [exact (Buf_step_inv (BStep t) s s1 Hi I E)|exact (step_cas_ok (BStep t) s s1 Hi Hc I E)|done|by eapply step_covers|done].
Qed.

Lemma steps_cas_ok es s s' : BufInv s → cas_ok s → Forall no_reset es → Buf_steps es s = Some s' → cas_ok s'.
Proof.
  intros Hi Hc Hes. revert s Hi Hc. induction Hes as [|e es He _ IH]; intros s Hi Hc; simpl; [by intros [= <-]|].
  destruct (Buf_step e s) as [s1|] eqn:E; simpl; [|done]. apply IH; [by eapply Buf_step_inv|by eapply step_cas_ok].
Qed.

Lemma measure_bounds ts s : BufInv s → 0 ≤ measure ts s ≤ 4 * Z.of_nat (length ts) + 16 * (2 * Z.of_nat (length ts) + 1).
Proof.
  intros [(_ & Ho & Hcap) _ _ _ _ _ _ _]. unfold measure, work, slabs_left, SLAB_MIN_BLOCK. unfold LOCKFREE_BUFFER_SIZE in Hcap. rewrite Hcap in *.
  pose proof (wsum_nonneg (λ t, weight (lf_offset (f_buf s)) (f_thread t s)) ts (λ t, proj1 (weight_range _ _))).
  pose proof (wsum_le (λ t, weight (lf_offset (f_buf s)) (f_thread t s)) 4 ts (λ t, proj2 (weight_range _ _))).
  assert (0 ≤ (4096 - lf_offset (f_buf s)) `div` 256 ≤ 16) as Hd.
  { split; [apply Z.div_pos; lia|]. change 16 with (4096 `div` 256). apply Z.div_le_mono; lia. }
  nia.
Qed.
End progress.

(** C17: [try_alloc] is lock-free.  Take any state that threads calling [try_alloc] on
    a new buffer can reach, and let the calls in progress run on, in any order and
    however unfairly: a thread inside a call can always make its next access, and if
    the calls are those of the [n] threads [ts], they are all over after at most
    [4 n + 16 (2 n + 1)] accesses.  A thread loses its compare-exchange only to one
    that has carved a slab, and the buffer has at most 16. *)
Theorem lockfree_calls_finish `{cfg : Cfg} {ga : GlobalAlloc} `{!GlobalAllocOk ga} self m b m' es s ts sched s' :
  LockFreeBuffer_new self m = (Ok b, m') → lf_buffer b ≠ 0 → Forall no_reset es → Buf_steps es (BufSys_init b) = Some s →
  NoDup ts → (∀ t, f_thread t s ≠ BIdle → t ∈ ts) → Buf_steps (BStep <$> sched) s = Some s' →
  Z.of_nat (length sched) ≤ 4 * Z.of_nat (length ts) + 16 * (2 * Z.of_nat (length ts) + 1) ∧
  ∀ t, f_thread t s' ≠ BIdle → ∃ s'', Buf_step (BStep t) s' = Some s''.
Proof.
  intros Hnew Hb Hes Hs Hnd Hts Hsched. destruct (LockFreeBuffer_new_eq self m) as (b0 & m0 & E & _ & _ & Ho & Hc & _ & Hcase).
  rewrite Hnew in E. injection E as <- <-. destruct Hcase as [[? _]|[Hpos _]]; [done|].
  pose proof (BufSys_init_inv b Hpos Ho Hc) as Hi0. pose proof (Buf_steps_inv es _ s Hi0 Hes Hs) as Hi.
  assert (cas_ok s) as Hcas by (eapply (steps_cas_ok es); [exact Hi0|by intros t l c st en|done|done]).
  assert (BufInv s') as Hi' by (eapply Buf_steps_inv; [exact Hi| |exact Hsched]; apply Forall_fmap, Forall_true; done).
  pose proof (calls_bounded ts sched s s' Hi Hcas Hnd Hts Hsched). pose proof (measure_bounds ts s Hi). pose proof (measure_bounds ts s' Hi').
  split; [lia|]. intros t Ht. pose proof (bi_thread s' Hi' t) as Hok. simpl. destruct (f_thread t s'); by eauto.
Qed.

(** Two threads inside [try_alloc], both with the offset loaded: one loses and tries
    again. *)
Lemma lockfree_calls_finish_witness :
  let cfg := cfg_release in
  let b := mkLockFreeBuffer 100 4096 0 4096 LockFreeStats_new 0 in
  let l := mkLayout 24 8 in
  let es := [BCall 1 l; BCall 2 l; BStep 1; BStep 2] in let sched := [1; 2; 2; 2; 1; 2]%nat in
  ∃ s s', Buf_steps es (BufSys_init b) = Some s ∧ Buf_steps (BStep <$> sched) s = Some s' ∧
    Z.of_nat (length sched) ≤ 4 * 2 + 16 * (2 * 2 + 1).
Proof.
  intros cfg b l es sched. destruct (Buf_steps es (BufSys_init b)) as [s|] eqn:E; [|by vm_compute in E].
  destruct (Buf_steps (BStep <$> sched) s) as [s'|] eqn:E'; [|by vm_compute in E; injection E as <-; vm_compute in E'].
  exists s, s'. split; [reflexivity|]. split; [exact E'|].
  refine (proj1 (@lockfree_calls_finish cfg bump_alloc bump_alloc_ok 100 Mem_empty b (mkMem [mkBlock 4096 (mkLayout 4096 64)] ∅) es s [2; 1]%nat sched s' _ _ _ _ _ _ _)).
  - vm_compute. reflexivity.
  - done.
  - repeat constructor.
  - exact E.
  - repeat constructor; set_solver.
  - intros t Ht. assert (elements (dom (f_threads s)) = [2; 1]%nat) as <- by (vm_compute in E; injection E as <-; vm_compute; reflexivity).
    apply elem_of_elements, elem_of_dom. unfold f_thread in Ht. destruct (f_threads s !! t); [eexists; reflexivity|by destruct Ht].
  - exact E'.
Defined.
