(* ===== verification/Objects.v ===== *)
(** * Objects: what an arena promises to the programs that allocate in it

    A program that allocates is a sequence of values stored one after the other.
    [ArenaAlloc] is the interface between an arena (arena.rs or legacy_arena.rs)
    and such programs: one allocation takes available memory, writes the value
    there and disturbs nothing else, or fails in a way the arena declares.  What
    follows for whole sequences is proved here once, for every implementation. *)
From S2P Require Import Prelude Memory Chunk Slab ThreadLocal LockFree VirtualMemory Debug Inner InnerInv.
Local Open Scope Z_scope.

(** A value of a Rust type: its layout and its bytes. *)
Record Obj := mkObj { o_layout : Layout; o_value : list Z }.

(** The range of an object placed at [p]. *)
Definition obj_range (op : Obj * Z) : Range := mkRange op.2 (l_size (o_layout op.1)).

(** The object is where the pointer says, readable as the value stored. *)
Definition obj_stored (m : Mem) (op : Obj * Z) : Prop :=
  mem_load op.2 (length (o_value op.1)) m = (Ok (o_value op.1), m) ∧
  op.2 `mod` l_align (o_layout op.1) = 0.

(** Stores values one after the other, until one allocation fails. *)
Fixpoint run_objs {S} (alloc : Obj → M S Z) (objs : list Obj) : M S (list Z) :=
  match objs with
  | [] => mret []
  | o :: objs =>
      p ← alloc o;
      ps ← run_objs alloc objs;
      mret (p :: ps)
  end.

(** How a call ended, without its result. *)
Definition void {A} (r : outcome A) : outcome unit := _ ← r; Ok tt.

(** The interface.  [view] is the part of the state that the invariant speaks of,
    [valid] the values the arena accepts, [fails] how it gives up and what is then
    true of the state it is left in. *)
Class ArenaAlloc {S} (view : S → IW) (alloc : Obj → M S Z) (valid : Obj → Prop) (fails : Obj → S → outcome unit → Prop) := {
  alloc_size o : valid o → Z.of_nat (length (o_value o)) = l_size (o_layout o);
  alloc_law o s : Inner_wf (view s) → valid o →
    ∃ r s', alloc o s = (r, s') ∧
      match r with
      | Ok p => Step (view s) (view s') ∧ Fresh (l_size (o_layout o)) (view s) p (view s') ∧ obj_stored (s_mem (view s')) (o, p)
      | _ => Step (view s) (view s') ∧ fails o s' (void r)
      end
}.

(** ** Storing a value in memory just taken *)

(** A store into available memory is a step and reads back. *)
Lemma fresh_store o i p w :
  let s := mkIW i w in
  Z.of_nat (length (o_value o)) = l_size (o_layout o) → ∀ s0, Step s0 s → Fresh (l_size (o_layout o)) s0 p s →
  p `mod` l_align (o_layout o) = 0 →
  let m' := mkMem (heap (w_mem w)) (write_bytes (bytes (w_mem w)) p (o_value o)) in
  mem_store p (o_value o) (w_mem w) = (Ok tt, m') ∧
  let s' := mkIW i (w_set_mem m' w) in
  Step s0 s' ∧ Fresh (l_size (o_layout o)) s0 p s' ∧ obj_stored m' (o, p).
Proof.
  intros s Hlen s0 [Hw Ha Hh Hb] [Hf Hv Hbd] Hal m'. unfold s_mem, s in *. simpl in *.
  assert (mem_valid p (l_size (o_layout o)) m') as Hv' by (destruct Hv as [Hv|Hv]; [by left|by right]).
  splits.
  - apply mem_store_ok. by rewrite Hlen.
  - split; [exact Hw|exact Ha|exact Hh|]. intros a Hn. unfold s_mem. simpl.
    rewrite lookup_write_bytes, decide_False; [exact (Hb a Hn)|]. intros Hin. apply Hn. apply (Hf a). range_solve.
  - split; [exact Hf|exact Hv'|exact Hbd].
  - split; [|done]. cbn [fst snd]. apply mem_load_written; [by rewrite Hlen|apply read_write_same].
Qed.

(** Later steps leave a stored object alone. *)
Lemma obj_stored_step s s' op :
  Step s s' → obj_stored (s_mem s) op → (∀ a, a ∈ mkRange op.2 (Z.of_nat (length (o_value op.1))) → ¬ Inner_avail s a) →
  obj_stored (s_mem s') op.
Proof.
  intros [_ _ [new Hh] Hb] [Hld Hal] Hn. split; [|done]. unfold mem_load in *.
  destruct (decide (mem_valid _ _ (s_mem s))) as [Hv|]; [|done].
  rewrite decide_True by (by eapply mem_valid_mono).
  rewrite (read_bytes_ext (bytes (s_mem s')) (bytes (s_mem s))) by (intros a Ha; apply Hb, Hn; range_solve).
  destruct (mapM _ _); by simplify_eq.
Qed.

(** ** Sequences of allocations *)
Section run.
Context {S : Type} (view : S → IW) (alloc : Obj → M S Z) (valid : Obj → Prop) (fails : Obj → S → outcome unit → Prop).
Context `{!ArenaAlloc view alloc valid fails}.

Lemma run_objs_step objs s :
  Inner_wf (view s) → Forall valid objs →
  ∃ r s', run_objs alloc objs s = (r, s') ∧
    match r with
    | Ok ps => length ps = length objs ∧ Step (view s) (view s') ∧ pw_disjoint (obj_range <$> zip objs ps) ∧
        Forall (λ op, ∀ a, a ∈ obj_range op → Inner_avail (view s) a ∧ ¬ Inner_avail (view s') a) (zip objs ps) ∧
        Forall (obj_stored (s_mem (view s'))) (zip objs ps)
    | _ => Step (view s) (view s') ∧ ∃ o, o ∈ objs ∧ fails o s' (void r)
    end.
Proof.
  intros Hok Hobjs. revert s Hok. induction Hobjs as [|o objs Ho Hobjs IH]; intros s Hok.
  { exists (Ok []), s. split; [done|]. split; [done|]. split; [by apply Step_refl|]. simpl. done. }
  destruct (alloc_law o s Hok Ho) as (r & s1 & E & Hr). simpl. unfold mbind at 1, M_bind at 1. rewrite E.
  destruct r as [p|e|e|e].
  2-4: eexists _, s1; split; [done|]; split; [apply Hr|]; exists o; split; [constructor|apply Hr].
  destruct Hr as (Hst & Hf & Hso). destruct (IH s1 (step_wf _ _ Hst)) as (r & s2 & E2 & Hr).
  unfold mbind at 1, M_bind at 1. rewrite E2. destruct r as [ps|e|e|e].
  2-4: eexists _, s2; split; [done|]; destruct Hr as (Hst' & o' & Hin & Hre);
       split; [by eapply Step_trans|]; exists o'; split; [by constructor|done].
  destruct Hr as (Hlen & Hst2 & Hd & Hall & Hsto).
  exists (Ok (p :: ps)), s2. split; [done|]. split; [simpl; lia|]. split; [by eapply Step_trans|].
  destruct Hf as [Hf _ _]. pose proof (alloc_size o Ho) as Hlen_o. simpl. splits.
  - apply Forall_fmap. eapply Forall_impl; [exact Hall|]. intros op Hop. apply range_disjoint_spec. intros a Ha Hb.
    destruct (Hf a Ha). destruct (Hop a Hb). done.
  - exact Hd.
  - constructor.
    + intros a Ha. destruct (Hf a Ha) as [H1 H2]. split; [done|]. intros H3. apply H2. by apply (step_avail _ _ Hst2).
    + eapply Forall_impl; [exact Hall|]. intros op Hop a Ha. destruct (Hop a Ha). split; [|done]. by apply (step_avail _ _ Hst).
  - constructor; [|done]. apply (obj_stored_step _ _ _ Hst2 Hso). simpl. rewrite Hlen_o. intros a Ha. by apply Hf.
Qed.

(** A preorder that every single allocation respects, sequences respect. *)
Lemma run_objs_preorder (R : S → S → Prop) `{!PreOrder R} objs s ps s' :
  (∀ o s p s', Inner_wf (view s) → valid o → alloc o s = (Ok p, s') → R s s') →
  Inner_wf (view s) → Forall valid objs → run_objs alloc objs s = (Ok ps, s') → R s s'.
Proof.
  intros HR Hok Hobjs. revert s ps Hok. induction Hobjs as [|o objs Ho Hobjs IH]; intros s ps Hok; simpl; [by intros [= _ <-]|].
  unfold mbind, M_bind. destruct (alloc_law o s Hok Ho) as (r & s1 & E & Hr). rewrite E. destruct r as [p|e|e|e]; [|done..].
  destruct (run_objs alloc objs s1) as [[ps'|e|e|e] s2] eqn:E2; [|done..]. intros [= _ <-].
  transitivity s1; [by eapply HR|]. by eapply IH; [apply (step_wf _ _ (proj1 Hr))|].
Qed.

(** In an arena that starts with nothing but memory that was not live before, the
    objects are new memory and the rest of the program's memory is unchanged. *)
Lemma run_objs_safe m objs s :
  Inner_wf (view s) → Forall valid objs →
  (∀ x, Inner_avail (view s) x → not_live m x) →
  (∀ x, ¬ not_live m x → bytes (s_mem (view s)) !! x = bytes m !! x) →
  ∃ r s', run_objs alloc objs s = (r, s') ∧
    match r with
    | Ok ps => length ps = length objs ∧ pw_disjoint (obj_range <$> zip objs ps) ∧
        Forall (λ op, ∀ x, x ∈ obj_range op → not_live m x) (zip objs ps) ∧
        Forall (obj_stored (s_mem (view s'))) (zip objs ps) ∧
        (∀ x, ¬ not_live m x → bytes (s_mem (view s')) !! x = bytes m !! x)
    | _ => Step (view s) (view s') ∧ ∃ o, o ∈ objs ∧ fails o s' (void r)
    end.
Proof.
  intros Hok Hobjs Hav Hbs. destruct (run_objs_step objs s Hok Hobjs) as (r & s' & E & Hr).
  exists r, s'. split; [exact E|]. destruct r as [ps|e|e|e].
  2-4: exact Hr.
  destruct Hr as (Hlen & Hst & Hd & Hall & Hsto). splits; [done|done| |done|].
  - eapply Forall_impl; [exact Hall|]. intros op Hop x Hx. by apply Hav, Hop.
  - intros x Hx. rewrite <- Hbs by done. apply (step_bytes _ _ Hst). intros Hx'. by apply Hx, Hav.
Qed.
End run.
