(* ===== verification/Arena.v ===== *)
(** * Arena: the public arena of arena.rs

    [Arena], [Scope], [ArenaBuilder] and [next_chunk_capacity] of src/arena.rs,
    [ArenaError] of src/error.rs, on top of [ArenaInner].  An object of a Rust type
    is its layout and the list of its bytes.  An arena is [Send] and not [Sync]:
    one thread at a time runs its operations, so the lock-free buffer sees no
    interference. *)
From stdpp Require Import pretty.
From S2P Require Import Prelude Memory Chunk Slab ThreadLocal LockFree VirtualMemory Debug Inner.
Local Open Scope Z_scope.

Definition DEFAULT_CHUNK_SIZE : Z := 65536.
Definition MIN_CHUNK_SIZE : Z := 4096.
Definition MAX_CHUNK_SIZE : Z := 16777216.

(** ** [ArenaError] *)
Inductive ArenaError :=
  | AllocationFailed (s : string)
  | VirtualMemoryError (s : string)
  | InvalidLayout (s : string)
  | Other (s : string).

Definition ArenaError_fmt (e : ArenaError) : string :=
  match e with
  | AllocationFailed s => "Allocation failed: " +:+ s
  | VirtualMemoryError s => "Virtual memory error: " +:+ s
  | InvalidLayout s => "Invalid layout: " +:+ s
  | Other s => s
  end.

(** ** Data *)
Record Arena := mkArena {
  a_inner : ArenaInner;
  a_debug_allocator : DebugAllocator;
  a_thread_cache : ThreadLocalCache;
  a_lockfree_stats : LockFreeStats
}.
Record AW := mkAW { a_arena : Arena; a_world : World }.

Record ChunkUsage := mkChunkUsage { cu_capacity : Z; cu_used : Z }.
Record FeatureStatus := mkFeatureStatus {
  fs_lockfree : bool; fs_thread_local : bool; fs_slab : bool; fs_virtual_memory : bool; fs_debug : bool; fs_stats : bool
}.
Record ArenaConfig := mkArenaConfig {
  ac_initial_capacity : Z; ac_chunk_size : Z; ac_reserve_size : option Z; ac_max_chunks : option Z;
  ac_fast_path_threshold : Z; ac_prefetch_distance : Z; ac_features : FeatureStatus
}.

(** ** Access to the parts of the state *)
Definition a_set_inner (i : ArenaInner) (a : Arena) : Arena :=
  mkArena i (a_debug_allocator a) (a_thread_cache a) (a_lockfree_stats a).
Definition with_inner {A} (m : M IW A) : M AW A :=
  zoom (λ s, mkIW (a_inner (a_arena s)) (a_world s))
    (λ x s, mkAW (a_set_inner (i_inner x) (a_arena s)) (i_world x)) m.
Definition a_on_world {A} (m : M World A) : M AW A := zoom a_world (λ w s, mkAW (a_arena s) w) m.
Definition a_on_mem {A} (m : M Mem A) : M AW A := a_on_world (w_on_mem m).
Definition on_lockfree_stats (f : LockFreeStats → LockFreeStats) : M AW unit :=
  modify (λ s, let a := a_arena s in
    mkAW (mkArena (a_inner a) (a_debug_allocator a) (a_thread_cache a) (f (a_lockfree_stats a))) (a_world s)).

(** [ptr as *mut T; ptr.write(value)]: the pointer must be aligned for [T].  With
    no bytes it is the mere creation of a reference to [T]. *)
Definition ptr_write (p : Z) (t : Layout) (data : list Z) : M Mem unit :=
  if p `mod` l_align t =? 0 then mem_store p data else lift (UB "write through a misaligned pointer").

Section next_chunk.
Context `{cfg : Cfg}.

(** [while capacity < min_size && capacity < MAX_CHUNK_SIZE { capacity *= 2; }];
    4096 doubles twelve times before it reaches the limit. *)
Fixpoint next_chunk_loop (fuel : nat) (min_size capacity : Z) : outcome Z :=
  match fuel with
  | O => Panic "fuel exhausted"
  | S fuel =>
      if (capacity <? min_size) && (capacity <? MAX_CHUNK_SIZE)
      then c ← usize_mul capacity 2; next_chunk_loop fuel min_size c
      else Ok capacity
  end.
Definition next_chunk_capacity (min_size : Z) : outcome Z :=
  capacity ← next_chunk_loop 13 min_size MIN_CHUNK_SIZE;
  Ok (Z.min (Z.max capacity min_size) MAX_CHUNK_SIZE).
End next_chunk.

Section arena.
Context `{cfg : Cfg} `{ga : GlobalAlloc} `{os : OS}.
(** The address of the arena (for the owner of its lock-free buffer and for the
    debug interface) and the text of a captured backtrace. *)
Context (self : Z) (backtrace : string).

(** ** Construction *)
Definition Arena_from_inner (inner : ArenaInner) : M World Arena :=
  da ← (if feat_debug then w_on_debug DebugAllocator_new else mret (mkDebugAllocator 0 true));
  mret (mkArena inner da (ThreadLocalCache_new 0) LockFreeStats_new).

Definition Arena_try_with_capacity (capacity : Z) : M World (Result Arena ArenaError) :=
  r ← ArenaInner_new self capacity;
  match r with
  | RErr s => mret (RErr (AllocationFailed s))
  | ROk inner => a ← Arena_from_inner inner; mret (ROk a)
  end.

Definition Arena_with_capacity (capacity : Z) : M World Arena :=
  r ← Arena_try_with_capacity capacity;
  match r with
  | ROk a => mret a
  | RErr _ =>
      r ← ArenaInner_new self DEFAULT_CHUNK_SIZE;
      match r with
      | RErr _ => lift (Panic "Failed to create fallback arena")
      | ROk inner => Arena_from_inner inner
      end
  end.

Definition Arena_new : M World Arena := Arena_with_capacity DEFAULT_CHUNK_SIZE.

(** The drop glue: the [Drop] of [Arena] is empty, its fields are dropped in
    order. *)
Definition Arena_drop (a : Arena) : M World unit :=
  _ ← ArenaInner_drop (a_inner a);
  if feat_debug then w_on_debug (DebugAllocator_drop (a_debug_allocator a)) else mret tt.

Definition Arena_set_region (r : option VirtualMemoryRegion) (a : Arena) : Arena :=
  a_set_inner (set_virtual_region r (a_inner a)) a.

Definition Arena_with_virtual_memory (reserve_size : Z) : M World Arena :=
  reserve_size ← lift (if reserve_size =? 0 then usize_mul DEFAULT_CHUNK_SIZE 256 else Ok reserve_size);
  let capacity := Z.min reserve_size 65536 in
  arena ← Arena_with_capacity capacity;
  r ← w_on_trace (VirtualMemoryRegion_new reserve_size);
  mret (Arena_set_region (match r with ROk region => Some region | RErr _ => None end) arena).

Definition Arena_try_with_virtual_memory (reserve_size : Z) : M World (Result Arena ArenaError) :=
  if reserve_size =? 0 then mret (RErr (Other "reserve_size must be > 0")) else
  let capacity := Z.min reserve_size 65536 in
  r ← Arena_try_with_capacity capacity;
  match r with
  | RErr e => mret (RErr e)
  | ROk arena =>
      r ← w_on_trace (VirtualMemoryRegion_new reserve_size);
      match r with
      | ROk region => mret (ROk (Arena_set_region (Some region) arena))
      | RErr e =>
          _ ← Arena_drop arena;
          mret (RErr (VirtualMemoryError ("VirtualMemoryRegion::new failed: " +:+ e)))
      end
  end.

(** ** Allocation *)
Definition guard_wrap (ptr size : Z) : M AW Z :=
  if feat_debug then
    s ← get;
    a_on_world (w_on_debug (allocate_with_guard backtrace (a_debug_allocator (a_arena s)) ptr size
                              (in_current_checkpoint_id (a_inner (a_arena s)))))
  else mret ptr.

(** The lock-free buffer, for objects of at most 1024 bytes. *)
Definition alloc_lockfree (size align : Z) : M AW (option Z) :=
  if feat_lockfree then
    if size <=? 1024 then
      s ← get;
      match in_lockfree_buffer (a_inner (a_arena s)) with
      | Some buffer =>
          r ← with_inner (with_lockfree buffer (LockFreeBuffer_try_alloc [] size align));
          match r with
          | Some ptr =>
              _ ← on_lockfree_stats record_allocation;
              _ ← on_lockfree_stats record_cache_hit;
              guarded ← guard_wrap ptr size;
              _ ← with_inner (stats_update (stats_used size));
              _ ← with_inner (stats_update (stats_count 1));
              mret (Some guarded)
          | None =>
              _ ← on_lockfree_stats record_cache_miss;
              _ ← on_lockfree_stats record_contention;
              mret None
          end
      | None => mret None
      end
    else mret None
  else mret None.

(** The thread-local cache, for objects of at most 512 bytes. *)
Definition alloc_thread_local (size align : Z) : M AW (option Z) :=
  if feat_thread_local then
    if size <=? 512 then
      s ← get;
      let arena_id := if feat_debug then da_arena_id (a_debug_allocator (a_arena s)) else 0 in
      r ← a_on_world (w_on_cache (try_thread_local_alloc arena_id size align));
      match r with
      | Some ptr =>
          guarded ← guard_wrap ptr size;
          _ ← with_inner (stats_update (stats_count 1));
          mret (Some guarded)
      | None => mret None
      end
    else mret None
  else mret None.

(** Regular allocation when the current chunk is full: a new chunk. *)
Definition alloc_new_chunk (layout : Layout) : M AW Z :=
  new_capacity ← lift (next_chunk_capacity (l_size layout));
  chunk_index ← with_inner (ArenaInner_add_chunk new_capacity);
  match chunk_index with
  | ROk _ =>
      r ← with_inner (ArenaInner_allocate layout);
      match r with
      | Some ptr => guard_wrap ptr (l_size layout)
      | None => lift (Abort "memory allocation failed")
      end
  | RErr _ => lift (Abort "memory allocation failed")
  end.

(** Regular allocation: the current chunk, then a new one. *)
Definition alloc_regular (layout : Layout) : M AW Z :=
  let size := l_size layout in
  r ← with_inner (ArenaInner_allocate layout);
  match r with
  | Some ptr =>
      guarded ← guard_wrap ptr size;
      _ ← (if feat_debug then
             s ← get;
             a_on_world (w_on_debug (register_allocation backtrace (da_arena_id (a_debug_allocator (a_arena s)))
                                       guarded size (in_current_checkpoint_id (a_inner (a_arena s)))))
           else mret tt);
      mret guarded
  | None => alloc_new_chunk layout
  end.

(** [allocate_raw]; the dangling pointer of a zero-sized object is
    [NonNull::<u8>::dangling()], address 1. *)
Definition Arena_allocate_raw (layout : Layout) : M AW Z :=
  let size := l_size layout in
  let align := l_align layout in
  if size =? 0 then
    _ ← with_inner (stats_update (stats_count 1));
    mret 1
  else
    r ← alloc_lockfree size align;
    match r with
    | Some ptr => mret ptr
    | None =>
        r ← alloc_thread_local size align;
        match r with
        | Some ptr => mret ptr
        | None => alloc_regular layout
        end
    end.

(** [alloc], of a value of layout [t] and bytes [value]. *)
Definition Arena_alloc (t : Layout) (value : list Z) : M AW Z :=
  ptr ← Arena_allocate_raw t;
  _ ← a_on_mem (ptr_write ptr t value);
  mret ptr.

(** A slice of [len] elements: its address and its length.  The empty slice is at
    [NonNull::<T>::dangling()], the alignment of [T]. *)
Definition Arena_alloc_slice_copy (t : Layout) (len : Z) (data : list Z) : M AW (Z * Z) :=
  if len =? 0 then mret (l_align t, 0) else
  match Layout_array t len with
  | None => mret (l_align t, 0)
  | Some layout =>
      ptr ← Arena_allocate_raw layout;
      _ ← a_on_mem (ptr_write ptr t data);
      mret (ptr, len)
  end.

Definition Arena_alloc_slice_uninit (t : Layout) (len : Z) : M AW (Z * Z) :=
  if len =? 0 then mret (l_align t, 0) else
  match Layout_array t len with
  | None => lift (Panic "Invalid layout")
  | Some layout =>
      ptr ← Arena_allocate_raw layout;
      _ ← a_on_mem (ptr_write ptr t []);
      mret (ptr, len)
  end.

(** [alloc_str], of the UTF-8 bytes of the string. *)
Definition Arena_alloc_str (s : list Z) : M AW (Z * Z) :=
  Arena_alloc_slice_copy (mkLayout 1 1) (Z.of_nat (length s)) s.

(** The other entry points of [alloc] and [alloc_slice_copy]. *)
Definition Arena_alloc_fast (t : Layout) (value : list Z) : M AW Z := Arena_alloc t value.
Definition Arena_alloc_u8 (v : Z) : M AW Z := Arena_alloc (mkLayout 1 1) (le_bytes 1 v).
Definition Arena_alloc_u32 (v : Z) : M AW Z := Arena_alloc (mkLayout 4 4) (le_bytes 4 v).
Definition Arena_alloc_u64 (v : Z) : M AW Z := Arena_alloc (mkLayout 8 8) (le_bytes 8 v).
(** [[T; N]] has the layout of [N] elements; a type as large as the address space
    does not exist. *)
Definition Arena_alloc_array (t : Layout) (n : Z) (arr : list Z) : M AW Z :=
  Arena_alloc (mkLayout (l_size t * n) (l_align t)) arr.
Definition Arena_alloc_batch (t : Layout) (len : Z) (data : list Z) : M AW (Z * Z) := Arena_alloc_slice_copy t len data.

(** ** Reset, checkpoints *)
Definition Arena_chunk_usage (a : Arena) : list ChunkUsage :=
  (λ c, mkChunkUsage (c_capacity c) (c_used c)) <$> in_chunks (a_inner a).

Definition Arena_reset_and_shrink_to_fit : M AW unit :=
  s ← get;
  let chunks := in_chunks (a_inner (a_arena s)) in
  _ ← (if (1 <? length chunks)%nat then
         _ ← with_inner (on_inner (set_chunks (take 1 chunks)));
         a_on_mem (drop_chunks (drop 1 chunks))
       else mret tt);
  _ ← with_inner (on_inner (λ i, match in_chunks i with
                                 | chunk :: cs => set_chunks (Chunk_set_used 0 chunk :: cs) i
                                 | [] => i end));
  _ ← with_inner (on_inner (set_current_chunk 0));
  _ ← with_inner (on_inner (set_checkpoints []));
  with_inner (i ← gets i_inner; stats_update (λ _, mkStats 0 0 0 (Z.of_nat (length (in_chunks i))))).

Definition Arena_reset : M AW unit :=
  _ ← with_inner (on_inner (λ i, set_chunks (Chunk_reset <$> in_chunks i) i));
  _ ← with_inner (on_inner (set_current_chunk 0));
  _ ← with_inner (stats_update (λ s, mkStats 0 0 0 (st_chunk_count s)));
  _ ← with_inner (on_inner (set_checkpoints []));
  with_inner reset_caches.

Definition Arena_checkpoint : M AW ArenaCheckpoint := with_inner ArenaInner_checkpoint.
Definition Arena_rewind_to_checkpoint (cp : ArenaCheckpoint) : M AW unit :=
  with_inner (ArenaInner_rewind_to_checkpoint cp).
Definition Arena_push_checkpoint : M AW ArenaCheckpoint := with_inner ArenaInner_push_checkpoint.
Definition Arena_pop_and_rewind : M AW ArenaCheckpoint :=
  s ← get;
  match vec_pop (in_checkpoints (a_inner (a_arena s))) with
  | None => lift (Panic "Cannot pop checkpoint: no checkpoints on stack")
  | Some (checkpoint, rest) =>
      _ ← with_inner (on_inner (set_checkpoints rest));
      _ ← Arena_rewind_to_checkpoint checkpoint;
      mret checkpoint
  end.
Definition Arena_checkpoint_count (a : Arena) : Z := Z.of_nat (length (in_checkpoints (a_inner a))).
Definition Arena_clear_checkpoints : M AW unit := with_inner (on_inner (set_checkpoints [])).

(** ** Scopes: a [Scope] of this arena is the checkpoint it holds; it rewinds to it
    when reset or dropped *)
Definition Scope_new : M AW ArenaCheckpoint := Arena_checkpoint.
Definition Scope_reset (scope : ArenaCheckpoint) : M AW unit := Arena_rewind_to_checkpoint scope.
Definition Scope_drop (scope : ArenaCheckpoint) : M AW unit := Arena_rewind_to_checkpoint scope.
Definition Arena_scope {R} (f : ArenaCheckpoint → M AW R) : M AW R :=
  scope ← Scope_new;
  with_drop (f scope) (Scope_drop scope).

(** A scope allocates in its arena. *)
Definition Scope_alloc (scope : ArenaCheckpoint) (t : Layout) (value : list Z) : M AW Z := Arena_alloc t value.
Definition Scope_alloc_str (scope : ArenaCheckpoint) (s : list Z) : M AW (Z * Z) := Arena_alloc_str s.
Definition Scope_alloc_slice_copy (scope : ArenaCheckpoint) (t : Layout) (len : Z) (data : list Z) : M AW (Z * Z) :=
  Arena_alloc_slice_copy t len data.
Definition Scope_alloc_slice_uninit (scope : ArenaCheckpoint) (t : Layout) (len : Z) : M AW (Z * Z) :=
  Arena_alloc_slice_uninit t len.
Definition Scope_checkpoint (scope : ArenaCheckpoint) : M AW ArenaCheckpoint := Arena_checkpoint.
Definition Scope_rewind_to_checkpoint (scope checkpoint : ArenaCheckpoint) : M AW unit := Arena_rewind_to_checkpoint checkpoint.

(** ** Information *)
Definition Arena_stats (a : Arena) : ArenaStats :=
  if feat_stats then in_stats (a_inner a) else mkStats 0 0 0 0.
Definition Arena_feature_status : FeatureStatus :=
  mkFeatureStatus feat_lockfree feat_thread_local feat_slab feat_virtual_memory feat_debug feat_stats.
Definition Arena_build_config : ArenaConfig :=
  mkArenaConfig DEFAULT_CHUNK_SIZE DEFAULT_CHUNK_SIZE None None 1024 8 Arena_feature_status.
Definition Arena_lockfree_stats (a : Arena) : Z * Z * Z * Z := LockFreeStats_get (a_lockfree_stats a).
Definition Arena_virtual_memory_committed_bytes (a : Arena) : option Z :=
  VirtualMemoryRegion_committed_bytes <$> in_virtual_region (a_inner a).

(** The three entry points of the debug feature name the arena by its address. *)
Definition Arena_check_valid (ptr : Z) : M AW (Result unit string) :=
  s ← get;
  a_on_mem (DebugState_check_use_after_rewind (db_state (w_debug (a_world s))) self ptr).
Definition Arena_validate_debug_state (s : AW) : Result unit string :=
  let '(total, corrupted) := DebugState_get_stats (db_state (w_debug (a_world s))) self in
  if 0 <? corrupted then RErr ("Found " +:+ fmt_usize corrupted +:+ " corrupted debug guards") else ROk tt.
Definition Arena_debug_stats (s : AW) : DebugStats :=
  let d := db_state (w_debug (a_world s)) in
  let '(total_allocations, corrupted_allocations) := DebugState_get_stats d self in
  mkDebugStats total_allocations (saturating_sub (DebugState_get_current_checkpoint_id d self) 1)
    (DebugState_get_current_checkpoint_id d self) corrupted_allocations 0.
End arena.

(** ** [ArenaBuilder]; [ab_sink] tells whether a diagnostics sink was given *)
Record ArenaBuilder := mkArenaBuilder {
  ab_initial_capacity : Z; ab_chunk_size : Z; ab_thread_safe : bool; ab_sink : bool
}.
Definition ArenaBuilder_new : ArenaBuilder := mkArenaBuilder DEFAULT_CHUNK_SIZE DEFAULT_CHUNK_SIZE false false.
Definition ArenaBuilder_initial_capacity (capacity : Z) (b : ArenaBuilder) : ArenaBuilder :=
  mkArenaBuilder capacity (ab_chunk_size b) (ab_thread_safe b) (ab_sink b).
Definition ArenaBuilder_chunk_size (size : Z) (b : ArenaBuilder) : ArenaBuilder :=
  mkArenaBuilder (ab_initial_capacity b) size (ab_thread_safe b) (ab_sink b).
Definition ArenaBuilder_thread_safe (thread_safe : bool) (b : ArenaBuilder) : ArenaBuilder :=
  mkArenaBuilder (ab_initial_capacity b) (ab_chunk_size b) thread_safe (ab_sink b).
Definition ArenaBuilder_diagnostics_sink (b : ArenaBuilder) : ArenaBuilder :=
  mkArenaBuilder (ab_initial_capacity b) (ab_chunk_size b) (ab_thread_safe b) true.

(** The bundles and the switches are accepted and ignored: features are those of the
    build. *)
Definition ArenaBuilder_perf_bundle (b : ArenaBuilder) : ArenaBuilder := b.
Definition ArenaBuilder_safety_bundle (b : ArenaBuilder) : ArenaBuilder := b.
Definition ArenaBuilder_debuggable_bundle (b : ArenaBuilder) : ArenaBuilder := b.
Definition ArenaBuilder_server_bundle (b : ArenaBuilder) : ArenaBuilder := b.
Definition ArenaBuilder_enable_stats (enable : bool) (b : ArenaBuilder) : ArenaBuilder := b.
Definition ArenaBuilder_enable_debug (enable : bool) (b : ArenaBuilder) : ArenaBuilder := b.
Definition ArenaBuilder_enable_lockfree (enable : bool) (b : ArenaBuilder) : ArenaBuilder := b.
Definition ArenaBuilder_enable_thread_local (enable : bool) (b : ArenaBuilder) : ArenaBuilder := b.
Definition ArenaBuilder_enable_virtual_memory (enable : bool) (b : ArenaBuilder) : ArenaBuilder := b.
Definition ArenaBuilder_default : ArenaBuilder := ArenaBuilder_new.
Definition Arena_builder : ArenaBuilder := ArenaBuilder_new.
Definition Arena_default `{Cfg} `{GlobalAlloc} (self : Z) : M World Arena := Arena_new self.

Definition fmt_bool (b : bool) : string := if b then "true" else "false".

(** [build]: the arena, and the message handed to the sink if there is one. *)
Definition ArenaBuilder_build `{Cfg} `{GlobalAlloc} (self : Z) (b : ArenaBuilder) : M World (Arena * option string) :=
  let msg := if ab_sink b then
      Some ("capacity: " +:+ fmt_usize (ab_initial_capacity b) +:+ ", chunk_size: " +:+
            fmt_usize (ab_chunk_size b) +:+ ", thread_safe: " +:+ fmt_bool (ab_thread_safe b))
    else None in
  a ← Arena_with_capacity self (ab_initial_capacity b);
  mret (a, msg).

(** ** [ArenaBuilder] and [Scope] of core.rs; this scope resets the whole arena *)
Record CoreBuilder := mkCoreBuilder { cb_initial_capacity : Z }.
Definition CoreBuilder_new : CoreBuilder := mkCoreBuilder 4096.
Definition CoreBuilder_initial_capacity (capacity : Z) (b : CoreBuilder) : CoreBuilder := mkCoreBuilder capacity.
Definition CoreBuilder_build `{Cfg} `{GlobalAlloc} (self : Z) (b : CoreBuilder) : M World Arena :=
  Arena_with_capacity self (cb_initial_capacity b).
Definition CoreScope_drop `{Cfg} : M AW unit := Arena_reset.
