(* ===== verification/ArenaSafety.v ===== *)
(** * ArenaSafety: what [Arena] hands out

    The allocation paths of arena.rs, for every combination of features: each
    pointer returned is fresh, aligned, inside a live block and disjoint from all
    objects handed out before, whose bytes no later allocation changes.  [iw] is
    the part of an arena's state the invariant of InnerInv.v speaks of. *)
From S2P Require Import Prelude Memory Bump Chunk Slab ThreadLocal LockFree VirtualMemory Debug Inner InnerInv Objects Arena.
Local Open Scope Z_scope.

Definition iw (s : AW) : IW := mkIW (a_inner (a_arena s)) (a_world s).
Definition Arena_ok (s : AW) : Prop := Inner_wf (iw s).

(** ** The capacity of a new chunk *)
Section next_chunk.
Context `{cfg : Cfg}.

Lemma next_chunk_loop_spec fuel k m :
  (0 < fuel)%nat → 0 ≤ k → k + Z.of_nat fuel = 13 → (k = 0 ∨ 4096 * 2 ^ (k - 1) < m) →
  ∃ j, k ≤ j ≤ 12 ∧ next_chunk_loop fuel m (4096 * 2 ^ k) = Ok (4096 * 2 ^ j) ∧
    (m ≤ 4096 * 2 ^ j ∨ j = 12) ∧ (j = 0 ∨ 4096 * 2 ^ (j - 1) < m).
Proof.
  revert k. induction fuel as [|fuel IH]; intros k Hf Hk Hsum Hm; [lia|].
  assert (2 ^ k ≤ 2 ^ 12) as Hle by (apply Z.pow_le_mono_r; lia). change (2 ^ 12) with 4096 in Hle.
  assert (0 < 2 ^ k) by (apply Z.pow_pos_nonneg; lia).
  cbn [next_chunk_loop]. unfold MAX_CHUNK_SIZE.
  destruct (Z.ltb_spec (4096 * 2 ^ k) m) as [Hlt|]; cbn [andb].
  2:{ exists k. split; [lia|]. split; [done|]. split; [by left|done]. }
  destruct (Z.ltb_spec (4096 * 2 ^ k) 16777216) as [Hlt'|Hge].
  - rewrite usize_mul_in by ulia. mrun.
    replace (4096 * 2 ^ k * 2) with (4096 * 2 ^ (k + 1)) by (rewrite Z.pow_add_r by lia; lia).
    assert (k < 12). { apply (Z.pow_lt_mono_r_iff 2); [lia..|]. change (2 ^ 12) with 4096. lia. }
    destruct (IH (k + 1)) as (j & Hj & He & H1 & H2); [lia|lia|lia|right; by replace (k + 1 - 1) with k by lia|].
    exists j. split; [lia|]. done.
  - exists k. assert (k = 12). { destruct (Z.lt_trichotomy k 12) as [Hk12|[?|?]]; [|done|lia].
      assert (2 ^ k < 2 ^ 12) by (apply Z.pow_lt_mono_r; lia). change (2 ^ 12) with 4096 in *. lia. }
    split; [lia|]. split; [done|]. split; [by right|done].
Qed.

Lemma next_chunk_capacity_eq m :
  ∃ j, 0 ≤ j ≤ 12 ∧ next_chunk_capacity m = Ok (4096 * 2 ^ j) ∧
    (m ≤ 4096 * 2 ^ j ∨ (j = 12 ∧ MAX_CHUNK_SIZE < m)) ∧ (j = 0 ∨ 4096 * 2 ^ (j - 1) < m).
Proof.
  destruct (next_chunk_loop_spec 13 0 m) as (j & Hj & He & H1 & H2); [lia|lia|lia|by left|].
  change (4096 * 2 ^ 0) with MIN_CHUNK_SIZE in He. unfold next_chunk_capacity. rewrite He. mrun.
  assert (2 ^ j ≤ 2 ^ 12) as Hle by (apply Z.pow_le_mono_r; lia). change (2 ^ 12) with 4096 in Hle.
  exists j. unfold MAX_CHUNK_SIZE in *. split; [lia|].
  destruct (decide (m ≤ 4096 * 2 ^ j)) as [Hm|Hm].
  - rewrite Z.max_l, Z.min_l by lia. split; [done|]. split; [by left|done].
  - destruct H1 as [|H1]; [lia|]. rewrite H1 in *. change (4096 * 2 ^ 12) with 16777216 in *.
    rewrite Z.min_r by lia. split; [done|]. split; [right; lia|done].
Qed.

Lemma next_chunk_aligned j : 0 ≤ j → align_to (4096 * 2 ^ j) 64 = 4096 * 2 ^ j.
Proof.
  intros. apply align_to_id; [done|]. replace (4096 * 2 ^ j) with (64 * 2 ^ j * 64) by lia. apply Z_mod_mult.
Qed.
End next_chunk.

(** ** Running the parts of the state *)
Lemma iw_eta x : mkIW (i_inner x) (i_world x) = x.
Proof. by destruct x. Qed.

Lemma with_inner_run {A} (m : M IW A) s o x :
  m (iw s) = (o, x) →
  ∃ s', with_inner m s = (o, s') ∧ iw s' = x ∧ a_debug_allocator (a_arena s') = a_debug_allocator (a_arena s).
Proof. intros E. unfold with_inner, zoom. fold (iw s). rewrite E. eexists. split; [done|]. by destruct x. Qed.

(** What the pointers returned satisfy: 64-byte alignments are honoured, with the
    debug feature only 8-byte ones. *)
Definition aligned_for `{Cfg} (l : Layout) (p : Z) : Prop :=
  l_align l ≤ (if feat_debug then 8 else 64) → p `mod` l_align l = 0.

Lemma mod_small_pow2 p a b : is_power_of_two a = true → is_power_of_two b = true → a ≤ b → p `mod` b = 0 → p `mod` a = 0.
Proof.
  intros (i & Hi & ->)%is_power_of_two_spec (j & Hj & ->)%is_power_of_two_spec Hle Hp.
  assert (i ≤ j) by (apply (Z.pow_le_mono_r_iff 2); lia).
  assert (0 < 2 ^ i) by lia. assert (0 < 2 ^ j) by lia.
  apply Z.mod_divide; [lia|]. apply Z.mod_divide in Hp; [|lia]. apply Z.divide_trans with (2 ^ j); [|done].
  exists (2 ^ (j - i)). rewrite <- Z.pow_add_r by lia. f_equal. lia.
Qed.

Section safety.
Context `{cfg : Cfg} {ga : GlobalAlloc} `{!GlobalAllocOk ga}.
Context (bt : string).

Lemma aligned_chunk l p : (l_align l ≤ 64 → p `mod` l_align l = 0) → aligned_for l p.
Proof. intros H Hle. apply H. destruct feat_debug; lia. Qed.

Lemma guard_wrap_step l p s s0 :
  Arena_ok s → Layout_ok l → Step s0 (iw s) → Fresh (l_size l) s0 p (iw s) → aligned_for l p →
  ∃ p' s', guard_wrap bt p (l_size l) s = (Ok p', s') ∧ Step (iw s) (iw s') ∧ Fresh (l_size l) s0 p' (iw s') ∧
    aligned_for l p' ∧ a_arena s' = a_arena s ∧ (feat_debug = false → p' = p).
Proof.
  intros Hok Hl Hstep Hf Hal. pose proof (Step_refl (iw s) Hok) as Hrefl.
  unfold guard_wrap, aligned_for in *. destruct feat_debug.
  2:{ exists p, s. done. }
  unfold a_on_world, w_on_debug. mrun.
  pose proof (Layout_align_pos l Hl) as Hap. pose proof Hl as (Hs & Hpow & Hm).
  destruct (allocate_with_guard_cases bt (a_debug_allocator (a_arena s)) p (l_size l)
    (in_current_checkpoint_id (a_inner (a_arena s))) (mkDW (w_debug (a_world s)) (w_mem (a_world s))))
    as [->|(b & d & bs & -> & Hb & Hd & Hbs & Hb0 & Hb1)]; [lia|by destruct Hf| |].
  - exists p. eexists. split; [reflexivity|]. by destruct s as [a []].
  - exists (b + 72). eexists. split; [reflexivity|].
    set (blk := mkBlock b (mkLayout (l_size l + 88) 16)).
    pose proof (with_block_step blk bs d (iw s) Hok Hd Hbs) as Hst.
    split; [exact Hst|]. split.
    + apply (Fresh_pre _ s0 _ (iw s)); [done|].
      apply (with_block_fresh blk bs d (iw s)); [done|exact Hd| |lia]. unfold block_range, blk. simpl. range_solve.
    + split; [|done]. intros H8. apply (mod_small_pow2 _ _ 8); [done|reflexivity|done|].
      rewrite Z.add_mod by lia. assert (b `mod` 8 = 0) as -> by (by apply (mod_small_pow2 b 8 16)). done.
Qed.

(** Counters of the arena. *)
Lemma on_lockfree_stats_iw f s : ∃ s', on_lockfree_stats f s = (Ok tt, s') ∧ iw s' = iw s.
Proof. eexists. split; [reflexivity|done]. Qed.

Lemma with_stats_step f s :
  Arena_ok s → ∃ s', with_inner (stats_update f) s = (Ok tt, s') ∧ same_view (iw s) (iw s').
Proof.
  intros Hok. destruct (stats_update_step f (iw s) Hok) as (x & E & Hv).
  destruct (with_inner_run _ _ _ _ E) as (s' & E' & <- & _). eauto.
Qed.

(** The chunks, and the blocks of the heap, are as they were. *)
Definition chunks_same (s s' : AW) : Prop :=
  in_chunks (a_inner (a_arena s')) = in_chunks (a_inner (a_arena s)) ∧
  in_current_chunk (a_inner (a_arena s')) = in_current_chunk (a_inner (a_arena s)) ∧
  heap (w_mem (a_world s')) = heap (w_mem (a_world s)).

(** What a path that may give up guarantees. *)
Definition path_post (l : Layout) (s : AW) (r : option Z) (s' : AW) : Prop :=
  Step (iw s) (iw s') ∧
  match r with
  | Some p => Fresh (l_size l) (iw s) p (iw s') ∧ aligned_for l p
  | None => chunks_same s s'
  end.

Lemma chunks_same_refl s : chunks_same s s.
Proof. done. Qed.

Lemma alloc_lockfree_step l s :
  Arena_ok s → Layout_ok l →
  ∃ r s', alloc_lockfree bt (l_size l) (l_align l) s = (Ok r, s') ∧ path_post l s r s'.
Proof.
  intros Hok Hl. assert (path_post l s None s) as Hnone by (split; [by apply Step_refl|done]).
  unfold alloc_lockfree. destruct feat_lockfree; [|by exists None, s].
  destruct (Z.leb_spec (l_size l) 1024) as [Hsz|]; [|by exists None, s].
  unfold mbind at 1, M_bind at 1, get at 1. cbv beta iota.
  destruct (in_lockfree_buffer (a_inner (a_arena s))) as [b|] eqn:Hb; [|by exists None, s].
  destruct (try_alloc_step l (iw s) b Hok Hl Hb) as (r & x & E & Hst & Hc & Hcur & Hh & Hr).
  destruct (with_inner_run _ _ _ _ E) as (s1 & E1 & <- & _).
  unfold mbind at 1, M_bind at 1. rewrite E1. destruct r as [p|].
  2:{ exists None. eexists. split; [reflexivity|]. split; [exact Hst|]. done. }
  destruct (Hr p eq_refl) as [Hf Hal].
  destruct (on_lockfree_stats_iw record_allocation s1) as (s1' & Ea & Ha).
  destruct (on_lockfree_stats_iw record_cache_hit s1') as (s2 & Eb & Hs2).
  rewrite <- Ha, <- Hs2 in Hst, Hf.
  destruct (guard_wrap_step l p s2 (iw s)) as (p' & s3 & E3 & Hst3 & Hf3 & Hal3 & _);
    [exact (step_wf _ _ Hst)|done|exact Hst|exact Hf|by apply aligned_chunk|].
  destruct (with_stats_step (stats_used (l_size l)) s3 (step_wf _ _ Hst3)) as (s4 & E4 & Hv4).
  pose proof (same_view_step _ _ Hv4 (step_wf _ _ Hst3)) as Hst4.
  destruct (with_stats_step (stats_count 1) s4 (step_wf _ _ Hst4)) as (s5 & E5 & Hv5).
  pose proof (same_view_step _ _ Hv5 (step_wf _ _ Hst4)) as Hst5.
  exists (Some p'), s5. split.
  { unfold mbind, M_bind. by rewrite Ea, Eb, E3, E4, E5. }
  assert (Step (iw s3) (iw s5)) as Hst35 by (by eapply Step_trans).
  split; [|split; [by eapply Fresh_post|done]].
  eapply Step_trans; [exact Hst|]. by eapply Step_trans; [exact Hst3|].
Qed.

(** An empty cache stays empty and has nothing to offer. *)
Lemma ThreadCache_alloc_empty size id c :
  tc_used c = 0%nat → ∃ c', ThreadCache_alloc size id c = (Ok None, c') ∧ tc_used c' = 0%nat.
Proof.
  intros Hz. unfold ThreadCache_alloc. mrun. unfold ThreadCache_switch.
  destruct (tc_arena_id c =? id); simpl; rewrite ?Hz; eexists; (split; [reflexivity|]); done.
Qed.

Lemma alloc_thread_local_step l s :
  Arena_ok s → Layout_ok l →
  ∃ s', alloc_thread_local bt (l_size l) (l_align l) s = (Ok None, s') ∧ path_post l s None s'.
Proof.
  intros Hok Hl. assert (path_post l s None s) as Hnone by (split; [by apply Step_refl|done]).
  unfold alloc_thread_local. destruct feat_thread_local; [|by exists s].
  destruct (Z.leb_spec (l_size l) 512); [|by exists s].
  pose proof Hok as (_&_&_&_&_&Hz). unfold try_thread_local_alloc, a_on_world, w_on_cache. mrun.
  set (id := if feat_debug then _ else _).
  destruct (ThreadCache_alloc_empty (l_size l) id (w_cache (a_world s)) Hz) as (c' & -> & Hz').
  eexists. split; [reflexivity|]. split; [|done].
  apply (same_mem_step (a_inner (a_arena s)) (a_world s)); [|exact Hok]. constructor; [done|done|].
  simpl. by rewrite Hz', Hz.
Qed.

(** The chunk in use. *)
Definition current (s : AW) : option Chunk :=
  in_chunks (a_inner (a_arena s)) !! in_current_chunk (a_inner (a_arena s)).

(** Registering an allocation changes only the debug registry. *)
Lemma register_step id p size cid s :
  Arena_ok s →
  ∃ s', a_on_world (w_on_debug (register_allocation bt id p size cid)) s = (Ok tt, s') ∧ Step (iw s) (iw s') ∧
    a_arena s' = a_arena s.
Proof.
  intros Hok. unfold a_on_world, w_on_debug, zoom. rewrite register_allocation_eq.
  eexists. split; [reflexivity|]. split; [|done]. by apply same_mem_step.
Qed.

(** The refusals of [alloc_regular]: the object does not fit the current chunk, and
    is larger than any chunk or the system has no memory for a new one. *)
Definition refused (l : Layout) (s : AW) : Prop :=
  (∃ c, current s = Some c ∧ ¬ Chunk_fits l c) ∧
  (MAX_CHUNK_SIZE < l_size l ∨
   ∃ cap, next_chunk_capacity (l_size l) = Ok cap ∧ ga_alloc (heap (w_mem (a_world s))) (mkLayout cap 64) = None).

(** The call that aborts: the request was refused in the state [s] it was made in, and
    still is in the state [s'] the program ends in. *)
Record GaveUp (l : Layout) (s s' : AW) : Prop := mkGaveUp {
  gu_step : Step (iw s) (iw s');
  gu_before : refused l s;
  gu_after : refused l s'
}.

Definition raw_post (l : Layout) (s : AW) (o : outcome Z) (s' : AW) : Prop :=
  match o with
  | Ok p => Step (iw s) (iw s') ∧ Fresh (l_size l) (iw s) p (iw s') ∧ aligned_for l p ∧ ¬ refused l s
  | Abort _ => GaveUp l s s'
  | _ => False
  end.

Lemma refused_iw l s s' : iw s' = iw s → refused l s → refused l s'.
Proof. destruct s as [[] ?], s' as [[] ?]. unfold iw, refused, current. simpl. by intros [= -> ->]. Qed.

(** A new chunk takes every object of at most 16 MiB, if the system has memory. *)
Lemma alloc_new_chunk_step l s :
  Arena_ok s → Layout_ok l → (∃ c, current s = Some c ∧ ¬ Chunk_fits l c) →
  ∃ o s', alloc_new_chunk bt l s = (o, s') ∧ raw_post l s o s'.
Proof.
  intros Hok Hl Hnofit. unfold alloc_new_chunk.
  destruct (next_chunk_capacity_eq (l_size l)) as (j & Hj & Hcap & Hbig & _).
  unfold mbind at 1, M_bind at 1, lift at 1. rewrite Hcap.
  assert (2 ^ j ≤ 2 ^ 12) as Hle by (apply Z.pow_le_mono_r; lia). change (2 ^ 12) with 4096 in Hle.
  assert (0 < 2 ^ j) by (apply Z.pow_pos_nonneg; lia).
  destruct (add_chunk_eq (4096 * 2 ^ j) (iw s)) as [[Hg Eadd]|(d & x & Hg & Eadd & Hdw & Hdu & Hdc & Hdd & Hv)];
    [ulia|done| |]; rewrite next_chunk_aligned in * by lia;
    destruct (with_inner_run _ _ _ _ Eadd) as (s2 & E2 & Hs2 & _); unfold mbind at 1, M_bind at 1; rewrite E2.
  { assert (refused l s) as Href by (split; [done|right; by exists (4096 * 2 ^ j)]).
    eexists _, _. split; [reflexivity|]. split; [rewrite Hs2; by apply Step_refl|done|by apply (refused_iw l s)]. }
  pose proof (with_new_step d (iw s) Hok Hdw Hdd) as Hst1.
  pose proof (Step_trans _ _ _ Hst1 (same_view_step _ _ Hv (step_wf _ _ Hst1))) as Hst. rewrite <- Hs2 in *.
  assert (current s2 = Some d) as Hcur2.
  { unfold current. change (in_chunks (i_inner (iw s2)) !! in_current_chunk (i_inner (iw s2)) = Some d).
    rewrite (sv_chunks _ _ Hv), (sv_current _ _ Hv). apply with_new_current. }
  pose proof (ArenaInner_allocate_step l (iw s2) d (step_wf _ _ Hst) Hl Hcur2) as Ha2.
  destruct (decide (Chunk_fits l d)) as [Hfd|Hfd]; rewrite Chunk_fits_fresh in Hfd by done.
  - destruct Ha2 as (x3 & E3 & Hst3 & Hf3 & Hal3 & _).
    destruct (with_inner_run _ _ _ _ E3) as (s3 & E3' & <- & _). unfold mbind at 1, M_bind at 1. rewrite E3'.
    pose proof (Step_trans _ _ _ Hst Hst3) as Hst03.
    destruct (guard_wrap_step l _ s3 (iw s) (step_wf _ _ Hst3) Hl Hst03 (Fresh_pre _ _ _ _ _ Hst Hf3) (aligned_chunk l _ Hal3))
      as (p' & s4 & E4 & Hst4 & Hf4 & Hal4 & _).
    exists (Ok p'), s4. split; [exact E4|]. split; [by eapply Step_trans|]. split; [done|]. split; [done|].
    intros [_ [Hbig'|(cap & Hcap' & Hg')]]; [unfold MAX_CHUNK_SIZE in *; lia|].
    rewrite Hcap in Hcap'. injection Hcap' as <-. unfold s_mem in Hg. simpl in Hg. by rewrite Hg' in Hg.
  - destruct (with_inner_run _ _ _ _ Ha2) as (s3 & E3 & Hs3 & _). unfold mbind at 1, M_bind at 1. rewrite E3.
    assert (MAX_CHUNK_SIZE < l_size l) as Hmax by (unfold MAX_CHUNK_SIZE in *; lia).
    eexists _, _. split; [reflexivity|]. split; [by rewrite Hs3|by split; [|left]|].
    apply (refused_iw l s2); [done|]. split; [|by left]. exists d. split; [done|]. by rewrite Chunk_fits_fresh.
Qed.

Lemma alloc_regular_step l s :
  Arena_ok s → Layout_ok l → ∃ o s', alloc_regular bt l s = (o, s') ∧ raw_post l s o s'.
Proof.
  intros Hok Hl. destruct (current_chunk (iw s) Hok) as (c & Hc & Hcw).
  pose proof (ArenaInner_allocate_step l (iw s) c Hok Hl Hc) as Ha.
  unfold alloc_regular. destruct (decide (Chunk_fits l c)) as [Hfit|Hfit].
  2:{ assert (with_inner (ArenaInner_allocate l) s = (Ok None, s)) as E1.
      { unfold with_inner, zoom. fold (iw s). rewrite Ha. by destruct s as [[] ?]. }
      unfold mbind at 1, M_bind at 1. rewrite E1. apply alloc_new_chunk_step; [done|done|by exists c]. }
  destruct Ha as (x & E & Hst & Hf & Hal & _). destruct (with_inner_run _ _ _ _ E) as (s1 & E1 & <- & _).
  unfold mbind at 1, M_bind at 1. rewrite E1.
  destruct (guard_wrap_step l _ s1 (iw s) (step_wf _ _ Hst) Hl Hst Hf (aligned_chunk l _ Hal))
    as (p' & s2 & E2 & Hst2 & Hf2 & Hal2 & _).
  unfold mbind at 1, M_bind at 1. rewrite E2.
  assert (¬ refused l s) as Hnr
    by (intros [(d & Hd & Hnf) _]; unfold current in Hd; simpl in Hc; rewrite Hc in Hd; by injection Hd as <-).
  pose proof (Step_trans _ _ _ Hst Hst2) as Hst02. destruct feat_debug.
  - unfold mbind, M_bind, get.
    destruct (register_step (da_arena_id (a_debug_allocator (a_arena s2))) p' (l_size l)
      (in_current_checkpoint_id (a_inner (a_arena s2))) s2 (step_wf _ _ Hst2)) as (s3 & -> & Hst3 & _).
    exists (Ok p'), s3. split; [done|]. split; [by eapply Step_trans|]. split; [by eapply Fresh_post|done].
  - exists (Ok p'), s2. split; [done|]. done.
Qed.

(** ** [allocate_raw] *)
Lemma refused_same l s s' : chunks_same s s' → refused l s' ↔ refused l s.
Proof. intros (H1 & H2 & H3). unfold refused, current. by rewrite H1, H2, H3. Qed.

Lemma allocate_raw_step l s :
  Arena_ok s → Layout_ok l → 0 < l_size l →
  ∃ o s', Arena_allocate_raw bt l s = (o, s') ∧
    match o with
    | Ok p => Step (iw s) (iw s') ∧ Fresh (l_size l) (iw s) p (iw s') ∧ aligned_for l p
    | Abort _ => GaveUp l s s'
    | _ => False
    end.
Proof.
  intros Hok Hl Hsz. unfold Arena_allocate_raw. destruct (Z.eqb_spec (l_size l) 0); [lia|].
  destruct (alloc_lockfree_step l s Hok Hl) as (r & s1 & E1 & Hst1 & Hr1).
  unfold mbind at 1, M_bind at 1. rewrite E1. destruct r as [p|]; [by exists (Ok p), s1|].
  destruct (alloc_thread_local_step l s1 (step_wf _ _ Hst1) Hl) as (s2 & E2 & Hst2 & Hr2).
  unfold mbind at 1, M_bind at 1. rewrite E2.
  destruct (alloc_regular_step l s2 (step_wf _ _ Hst2) Hl) as (o & s3 & E3 & Hpost).
  exists o, s3. split; [exact E3|]. pose proof (Step_trans _ _ _ Hst1 Hst2) as Hst.
  destruct o as [p|e|e|e]; [|done| |done].
  - destruct Hpost as (Hst3 & Hf & Hal & _). split; [by eapply Step_trans|]. split; [by eapply Fresh_pre|done].
  - destruct Hpost as [Hst3 Hb Ha]. split; [by eapply Step_trans| |done]. by apply (refused_same l s s1), (refused_same l s1 s2).
Qed.

End safety.

(** ** Programs that allocate *)
Definition Obj_ok `{Cfg} (o : Obj) : Prop :=
  Layout_ok (o_layout o) ∧ 0 < l_size (o_layout o) ∧ Z.of_nat (length (o_value o)) = l_size (o_layout o) ∧
  l_align (o_layout o) ≤ (if feat_debug then 8 else 64).

Definition Arena_obj `{Cfg} `{GlobalAlloc} (bt : string) (o : Obj) : M AW Z := Arena_alloc bt (o_layout o) (o_value o).
Definition Arena_run `{Cfg} `{GlobalAlloc} (bt : string) (objs : list Obj) : M AW (list Z) := run_objs (Arena_obj bt) objs.

(** [Arena] gives up only by aborting, left in a state in which it refuses the request. *)
Definition Arena_fails `{Cfg} `{GlobalAlloc} (o : Obj) (s : AW) (r : outcome unit) : Prop :=
  match r with Abort _ => refused (o_layout o) s | _ => False end.

Section run.
Context `{cfg : Cfg} {ga : GlobalAlloc} `{!GlobalAllocOk ga} (bt : string).

(** [alloc]: allocate and write. *)
Lemma alloc_step o s :
  Arena_ok s → Obj_ok o →
  ∃ r s', Arena_alloc bt (o_layout o) (o_value o) s = (r, s') ∧
    match r with
    | Ok p => Step (iw s) (iw s') ∧ Fresh (l_size (o_layout o)) (iw s) p (iw s') ∧ obj_stored (w_mem (a_world s')) (o, p)
    | Abort _ => GaveUp (o_layout o) s s'
    | _ => False
    end.
Proof.
  intros Hok (Hl & Hsz & Hlen & Hal). unfold Arena_alloc.
  destruct (allocate_raw_step bt (o_layout o) s Hok Hl Hsz) as (r & s1 & E & Hr).
  unfold mbind at 1, M_bind at 1. rewrite E. destruct r as [p|e|e|e]; [|done| |done].
  2:{ by exists (Abort e), s1. }
  destruct Hr as (Hst & Hf & Ha). specialize (Ha Hal).
  destruct (fresh_store o _ p (a_world s1) Hlen (iw s) Hst Hf Ha) as (E2 & Hst2 & Hf2 & Hso).
  unfold a_on_mem, a_on_world, w_on_mem, ptr_write. rewrite Ha. mrun. rewrite E2. eexists _, _. split; [reflexivity|]. done.
Qed.

#[export] Instance Arena_ArenaAlloc : ArenaAlloc iw (Arena_obj bt) Obj_ok Arena_fails.
Proof.
  split; [by intros o (_ & _ & ? & _)|]. intros o s Hok Ho. destruct (alloc_step o s Hok Ho) as (r & s' & E & Hr).
  exists r, s'. split; [exact E|]. destruct r; [done..| |done]. by destruct Hr.
Qed.

Lemma run_step objs s :
  Arena_ok s → Forall Obj_ok objs →
  ∃ r s', Arena_run bt objs s = (r, s') ∧
    match r with
    | Ok ps => length ps = length objs ∧ Step (iw s) (iw s') ∧ pw_disjoint (obj_range <$> zip objs ps) ∧
        Forall (λ op, ∀ a, a ∈ obj_range op → Inner_avail (iw s) a ∧ ¬ Inner_avail (iw s') a) (zip objs ps) ∧
        Forall (obj_stored (w_mem (a_world s'))) (zip objs ps)
    | Abort _ => Step (iw s) (iw s') ∧ ∃ o, o ∈ objs ∧ refused (o_layout o) s'
    | _ => False
    end.
Proof.
  intros Hok Hobjs. destruct (run_objs_step iw (Arena_obj bt) Obj_ok Arena_fails objs s Hok Hobjs) as (r & s' & E & Hr).
  exists r, s'. split; [exact E|]. destruct r as [ps|e|e|e]; [done| |done|]; by destruct Hr as (_ & ? & _ & ?).
Qed.
End run.

Section new_arena.
Context `{cfg : Cfg} {ga : GlobalAlloc} `{!GlobalAllocOk ga}.

(** An arena just created is well formed and owns only fresh memory. *)
Lemma Arena_from_inner_same inner w : ∃ a w', Arena_from_inner inner w = (Ok a, w') ∧ a_inner a = inner ∧
  w_mem w' = w_mem w ∧ w_slab w' = w_slab w ∧ w_cache w' = w_cache w.
Proof.
  unfold Arena_from_inner, w_on_debug, DebugAllocator_new. mrun.
  destruct feat_debug; [|by eexists _, _]. destruct (db_poisoned _); by eexists _, _.
Qed.

Lemma Arena_try_with_capacity_ok self cap w a w' :
  World_ok self w → 0 < cap ≤ ISIZE_MAX - 63 → Arena_try_with_capacity self cap w = (Ok (ROk a), w') →
  let s := mkAW a w' in
  Arena_ok s ∧ (∀ x, Inner_avail (iw s) x → not_live (w_mem w) x) ∧
  (∀ x, ¬ not_live (w_mem w) x → bytes (w_mem w') !! x = bytes (w_mem w) !! x) ∧
  (∃ new, heap (w_mem w') = new ++ heap (w_mem w)) ∧
  ∃ c, in_chunks (a_inner a) = [c] ∧ in_current_chunk (a_inner a) = 0%nat ∧ c_used c = 0 ∧ c_capacity c = align_to cap 64.
Proof.
  intros Hw Hcap. unfold Arena_try_with_capacity. unfold mbind at 1, M_bind at 1.
  destruct (ArenaInner_new self cap w) as [[[i|e]|e|e|e] w1] eqn:E; [|done..]. unfold mbind, M_bind.
  destruct (Arena_from_inner_same i w1) as (a0 & w0 & -> & Hai & Hmem & Hslab & Hcache). intros [= <- <-].
  destruct (ArenaInner_new_wf self cap w i w1 Hw Hcap E) as (c & s0 & Hs0 & Hst & Hav & Hcs).
  assert (Step (mkIW i w1) (mkIW i w0)) as Hst2.
  { apply same_mem_step; [constructor; congruence|]. exact (step_wf _ _ Hst). }
  pose proof (Step_trans _ _ _ Hst Hst2) as [Hwf Hstav [new Hh] Hbs].
  cbv zeta. unfold Arena_ok, iw. cbn [a_arena a_world]. rewrite Hai.
  split; [done|]. split; [by eauto|]. split; [|split; [|by exists c]].
  - intros x Hx. rewrite Hs0 in Hbs. apply (Hbs x). intros Hx'. apply Hx, Hav. by rewrite Hs0.
  - exists (new ++ [Chunk_block c]). unfold s_mem in Hh. rewrite Hs0 in Hh. simpl in Hh. by rewrite Hh, <- app_assoc.
Qed.

Lemma ArenaInner_new_cases self cap w : 0 < cap ≤ ISIZE_MAX - 63 →
  (∃ e, ArenaInner_new self cap w = (Ok (RErr e), w)) ∨ (∃ i w', ArenaInner_new self cap w = (Ok (ROk i), w') ∧
     (feat_lockfree = false → in_lockfree_buffer i = None)).
Proof.
  intros Hcap. unfold ArenaInner_new, w_on_mem. mrun.
  destruct (Chunk_new_cases cap (w_mem w) Hcap) as [[_ ->]|(c & _ & -> & _)]; [left; eexists; by destruct w|].
  right. simpl. destruct feat_lockfree; [|eexists _, _; split; [reflexivity|by destruct feat_stats]].
  destruct (LockFreeBuffer_new_eq self (mkMem (Chunk_block c :: heap (w_mem w)) (bytes (w_mem w)))) as (b & m & E & _).
  mrun. rewrite E. eexists _, _. by split.
Qed.

(** [with_capacity] is [try_with_capacity], with the default capacity when that fails. *)
Lemma Arena_with_capacity_try self cap w a w' :
  0 < cap ≤ ISIZE_MAX - 63 → Arena_with_capacity self cap w = (Ok a, w') →
  (feat_lockfree = false → in_lockfree_buffer (a_inner a) = None) ∧
  ∃ cap', 0 < cap' ≤ ISIZE_MAX - 63 ∧ Arena_try_with_capacity self cap' w = (Ok (ROk a), w').
Proof.
  intros Hcap. unfold Arena_with_capacity, Arena_try_with_capacity, mbind, M_bind.
  destruct (ArenaInner_new_cases self cap w Hcap) as [(e & E)|(i & w1 & E & Hb)]; rewrite E.
  - assert (0 < DEFAULT_CHUNK_SIZE ≤ ISIZE_MAX - 63) as Hd by (unfold DEFAULT_CHUNK_SIZE; ulia). mrun.
    destruct (ArenaInner_new_cases self DEFAULT_CHUNK_SIZE w Hd) as [(e' & E')|(i & w1 & E' & Hb)]; rewrite E'; [done|].
    destruct (Arena_from_inner_same i w1) as (a0 & w2 & Ea & <- & _). rewrite Ea. intros [= <- <-]. split; [done|].
    exists DEFAULT_CHUNK_SIZE. split; [done|]. by rewrite E', Ea.
  - destruct (Arena_from_inner_same i w1) as (a0 & w2 & Ea & <- & _). rewrite Ea. intros [= <- <-]. split; [done|].
    exists cap. split; [done|]. by rewrite E, Ea.
Qed.
End new_arena.

(** ** Concrete arenas for the witnesses *)
Definition demo_world : World :=
  mkWorld (mkMem [mkBlock 65536 (mkLayout 16 8)] {[65536 := 7]}) ThreadCache_new ThreadSlab_new
    (mkDebug (mkDebugState ∅ ∅ 1 0 0 false) false false) [].
Definition demo_chunk : Chunk := mkChunk 65600 128 0.
Definition demo_arena : Arena :=
  mkArena (mkInner [demo_chunk] 0 [] 0 (pools_loop 11 8 []) (mkStats 0 100 0 1) None true None LockFreeStats_new)
    (mkDebugAllocator 0 true) (ThreadLocalCache_new 0) LockFreeStats_new.
Definition demo_world' : World :=
  mkWorld (mkMem [Chunk_block demo_chunk; mkBlock 65536 (mkLayout 16 8)] {[65536 := 7]}) ThreadCache_new ThreadSlab_new
    (mkDebug (mkDebugState ∅ ∅ 1 0 0 false) false false) [].
Definition demo_state : AW := mkAW demo_arena demo_world'.

Lemma demo_world_ok : World_ok 100 demo_world.
Proof. split; [split; [constructor|done]|]. split; [reflexivity|]. discriminate. Qed.

Lemma demo_new `{cfg : Cfg} :
  feat_lockfree = false → feat_debug = false → feat_stats = true →
  @Arena_try_with_capacity cfg bump_alloc 100 100 demo_world = (Ok (ROk demo_arena), demo_world').
Proof.
  destruct cfg as [oc da st vm tl lf db sl stf]. cbn. intros -> -> ->. destruct oc; vm_compute; reflexivity.
Qed.

Lemma demo_ok : Arena_ok demo_state.
Proof. 
  destruct (@Arena_try_with_capacity_ok cfg_dev bump_alloc bump_alloc_ok 100 100 demo_world demo_arena demo_world')
    as [H _]; [exact demo_world_ok|ulia|by apply demo_new|exact H].
Qed.

(** ** Theorems *)



(** C4: [allocate_raw] on every well-formed arena (with an empty thread cache) and
    every request of nonzero size: it never panics and never breaks a safety
    contract; the range was available to the arena and is not any more, it lies in
    a live block, the arena stays well formed and no byte of an object handed out
    before changes.  The pointer is aligned as asked if the alignment is at most 64,
    or at most 8 when the debug feature adds its guards; nothing is said of larger
    ones.  It aborts only when the request does not fit the current chunk and is
    above 16 MiB, or the system refuses a new chunk, and is left in a well-formed state
    in which that is still so. *)
Theorem allocate_raw_spec `{cfg : Cfg} {ga : GlobalAlloc} `{!GlobalAllocOk ga} bt l s :
  Arena_ok s → Layout_ok l → 0 < l_size l →
  ∃ o s', Arena_allocate_raw bt l s = (o, s') ∧
    match o with
    | Ok p => Arena_ok s' ∧ (l_align l ≤ (if feat_debug then 8 else 64) → p `mod` l_align l = 0) ∧ mem_valid p (l_size l) (w_mem (a_world s')) ∧
        (∀ a, a ∈ mkRange p (l_size l) → Inner_avail (iw s) a ∧ ¬ Inner_avail (iw s') a) ∧
        (∀ a, Inner_avail (iw s') a → Inner_avail (iw s) a) ∧
        (∀ a, ¬ Inner_avail (iw s) a → bytes (w_mem (a_world s')) !! a = bytes (w_mem (a_world s)) !! a)
    | Abort _ => Arena_ok s' ∧ refused l s ∧ refused l s'
    | _ => False
    end.
Proof.
  intros Hok Hl Hs. destruct (allocate_raw_step bt l s Hok Hl Hs) as (o & s' & E & Hr).
  exists o, s'. split; [exact E|]. destruct o as [p|e|e|e]; try done; [|by destruct Hr as [[]]].
  destruct Hr as ([Hw Ha _ Hb] & [Hf Hv _] & Hal). done.
Qed.

Lemma allocate_raw_spec_witness :
  ∃ p s', @Arena_allocate_raw cfg_release bump_alloc "bt" (mkLayout 200 8) demo_state = (Ok p, s') ∧ Arena_ok s' ∧ p `mod` 8 = 0.
Proof.
  destruct (@allocate_raw_spec cfg_release bump_alloc bump_alloc_ok "bt" (mkLayout 200 8) demo_state) as (o & s' & E & Ho).
  - exact demo_ok.
  - vm_compute. intuition discriminate.
  - done.
  - assert (o = Ok 65728) as ->.
    { change o with ((o, s').1). rewrite <- E. vm_compute. reflexivity. }
    exists 65728, s'. destruct Ho as (Hok & Hal & _). split; [exact E|]. split; [exact Hok|]. apply Hal. done.
Defined.

(** C9: every request of at most 16 MiB is served as long as the system has memory.
    On any sequence of values of nonzero size, at most [MAX_CHUNK_SIZE] bytes each and
    aligned to at most 64 (8 with the debug feature), [Arena_run] returns one pointer
    per value, unless the global allocator refuses memory: then, with the heap that
    the program ended with, it has no block for a chunk of between 4 KiB and 16 MiB
    that would hold one of the values, which the chunk then in use does not. *)
Theorem arena_allocs_complete `{cfg : Cfg} {ga : GlobalAlloc} `{!GlobalAllocOk ga} bt s objs :
  Arena_ok s → Forall (λ o, Obj_ok o ∧ l_size (o_layout o) ≤ MAX_CHUNK_SIZE) objs →
  ∃ r s', Arena_run bt objs s = (r, s') ∧
    match r with
    | Ok ps => length ps = length objs
    | Abort _ => ∃ o c cap, o ∈ objs ∧ current s' = Some c ∧ ¬ Chunk_fits (o_layout o) c ∧
        MIN_CHUNK_SIZE ≤ cap ≤ MAX_CHUNK_SIZE ∧ l_size (o_layout o) ≤ cap ∧
        ga_alloc (heap (w_mem (a_world s'))) (mkLayout cap 64) = None
    | _ => False
    end.
Proof.
  intros Hok Hobjs. destruct (run_step bt objs s Hok) as (r & s' & E & Hr).
  { eapply Forall_impl; [exact Hobjs|]. by intros o [? _]. }
  exists r, s'. split; [exact E|]. destruct r as [ps|e|e|e]; try done; [by destruct Hr|].
  rewrite Forall_forall in Hobjs. destruct Hr as (_ & o & Hin & (c & Hc & Hnf) & [Hbig|(cap & Hcap & Hg)]); destruct (Hobjs o Hin) as [_ Hmax]; [lia|].
  exists o, c, cap. do 3 (split; [done|]).
  destruct (next_chunk_capacity_eq (l_size (o_layout o))) as (j & Hj & He & Hfit & _). rewrite He in Hcap. injection Hcap as <-.
  assert (2 ^ 0 ≤ 2 ^ j ≤ 2 ^ 12) as Hle by (split; apply Z.pow_le_mono_r; lia).
  change (2 ^ 12) with 4096 in Hle. unfold MIN_CHUNK_SIZE, MAX_CHUNK_SIZE in *. split; [lia|]. split; [lia|exact Hg].
Qed.

Lemma arena_allocs_complete_witness :
  let objs := [mkObj (mkLayout 1 1) [9]; mkObj (mkLayout 8 8) [1;2;3;4;5;6;7;8]] in
  ∃ ps s', @Arena_run cfg_release bump_alloc "bt" objs demo_state = (Ok ps, s') ∧ length ps = 2%nat.
Proof.
  intros objs. destruct (@arena_allocs_complete cfg_release bump_alloc bump_alloc_ok "bt" demo_state objs) as (r & s' & E & Hr).
  - exact demo_ok.
  - repeat constructor; vm_compute; intuition discriminate.
  - assert (r = Ok [65600; 65608]) as ->.
    { change r with ((r, s').1). rewrite <- E. vm_compute. reflexivity. }
    by exists [65600; 65608], s'.
Defined.

(** [next_chunk_capacity] is the least capacity of the form 4 KiB times a power
    of two that holds the request, capped at 16 MiB; its loop runs at most twelve
    times and nothing overflows. *)
Theorem next_chunk_capacity_least `{cfg : Cfg} m :
  ∃ j, 0 ≤ j ≤ 12 ∧ next_chunk_capacity m = Ok (4096 * 2 ^ j) ∧
    (m ≤ MAX_CHUNK_SIZE → m ≤ 4096 * 2 ^ j) ∧ (MAX_CHUNK_SIZE < m → j = 12) ∧
    (∀ i, 0 ≤ i < j → 4096 * 2 ^ i < m).
Proof.
  destruct (next_chunk_capacity_eq m) as (j & Hj & He & H1 & H2). exists j. unfold MAX_CHUNK_SIZE in *.
  assert (2 ^ j ≤ 2 ^ 12) as Hle by (apply Z.pow_le_mono_r; lia). change (2 ^ 12) with 4096 in Hle.
  splits; [lia|lia|done|lia|lia|]. intros i Hi. destruct H2 as [|H2]; [lia|].
  assert (2 ^ i ≤ 2 ^ (j - 1)) by (apply Z.pow_le_mono_r; lia). lia.
Qed.

(** An arena cannot serve a request above 16 MiB that does not fit its current
    chunk: [next_chunk_capacity] caps the new chunk at 16 MiB, the retry fails, and
    the process is aborted although the system may have the memory. *)
Theorem arena_large_alloc_aborts `{cfg : Cfg} {ga : GlobalAlloc} `{!GlobalAllocOk ga} bt l s c :
  Arena_ok s → Layout_ok l → MAX_CHUNK_SIZE < l_size l → current s = Some c → ¬ Chunk_fits l c →
  ∃ e s', Arena_allocate_raw bt l s = (Abort e, s').
Proof.
  intros Hok Hl Hbig Hc Hnf. unfold MAX_CHUNK_SIZE in Hbig. unfold Arena_allocate_raw.
  destruct (Z.eqb_spec (l_size l) 0); [lia|].
  assert (alloc_lockfree bt (l_size l) (l_align l) s = (Ok None, s)) as E1.
  { unfold alloc_lockfree. destruct feat_lockfree; [|done]. destruct (Z.leb_spec (l_size l) 1024); [lia|done]. }
  assert (alloc_thread_local bt (l_size l) (l_align l) s = (Ok None, s)) as E2.
  { unfold alloc_thread_local. destruct feat_thread_local; [|done]. destruct (Z.leb_spec (l_size l) 512); [lia|done]. }
  unfold mbind, M_bind. rewrite E1, E2. destruct (alloc_regular_step bt l s Hok Hl) as (o & s' & E & Hr).
  assert (refused l s) as Href by (split; [by exists c|by left]).
  destruct o as [p|e|e|e]; [|done| |done]; [by destruct Hr as (_&_&_&?)|]. by exists e, s'.
Qed.

Lemma arena_large_alloc_aborts_witness :
  ∃ e s', @Arena_allocate_raw cfg_release bump_alloc "bt" (mkLayout 16777217 8) demo_state = (Abort e, s').
Proof.
  apply (@arena_large_alloc_aborts cfg_release bump_alloc bump_alloc_ok "bt" (mkLayout 16777217 8) demo_state demo_chunk).
  - exact demo_ok.
  - vm_compute. intuition discriminate.
  - done.
  - reflexivity.
  - vm_compute. intuition discriminate.
Defined.

(** C38: a zero-sized value whose type has an alignment above 1 ([[u64; 0]], say)
    is written through the pointer [NonNull::<u8>::dangling()], address 1, which
    is not aligned for it: undefined behaviour in every build. *)
Theorem arena_zst_misaligned `{cfg : Cfg} {ga : GlobalAlloc} bt k s :
  (Arena_alloc bt (mkLayout 0 (2 ^ Zpos k)) [] s).1 = UB "write through a misaligned pointer".
Proof.
  unfold Arena_alloc, Arena_allocate_raw, stats_update, with_inner, a_on_mem, a_on_world, w_on_mem, ptr_write.
  assert (2 ^ 1 ≤ 2 ^ Zpos k) as Hk by (apply Z.pow_le_mono_r; lia). change (2 ^ 1) with 2 in Hk.
  assert (((1 `mod` 2 ^ Zpos k) =? 0) = false) as Hm by (rewrite Z.mod_small by lia; done).
  cbn [l_size Z.eqb]. destruct feat_stats; mrun; by rewrite Hm.
Qed.
