(* ===== verification/ArenaCheckpoint.v ===== *)
(** * ArenaCheckpoint: rewinding and scopes

    What rewinding restores, for the chunks of an arena.  [Grows] is what every
    allocation does to the chunk list; a checkpoint taken before undoes it.  The
    theorems on rewinding are for builds without the lock-free and debug features,
    whose own effects on a rewind are stated separately. *)
From S2P Require Import Prelude Memory Bump Chunk Slab ThreadLocal LockFree VirtualMemory Debug Inner InnerInv Objects Arena ArenaSafety.
Local Open Scope Z_scope.

(** ** Growth of the chunk list *)
Definition same_chunk (c c' : Chunk) : Prop := c_ptr c' = c_ptr c ∧ c_capacity c' = c_capacity c.

(** Only the current chunk was filled, and chunks were appended. *)
Record Grows (i i' : ArenaInner) : Prop := mkGrows {
  g_prefix j c : in_chunks i !! j = Some c → ∃ c', in_chunks i' !! j = Some c' ∧ same_chunk c c';
  g_other j : (j < length (in_chunks i))%nat → j ≠ in_current_chunk i → in_chunks i' !! j = in_chunks i !! j;
  g_current : in_current_chunk i' = in_current_chunk i ∨ (length (in_chunks i) ≤ in_current_chunk i')%nat;
  g_region : in_virtual_region i' = in_virtual_region i;
  g_stack : in_checkpoints i' = in_checkpoints i;
  g_buffer : in_lockfree_buffer i' = in_lockfree_buffer i
}.

Lemma Grows_refl i : Grows i i.
Proof. split; [|done|by left|done..]. intros j c Hc. by exists c. Qed.

Lemma Grows_refl_stats i st : Grows i (set_stats st i).
Proof. split; [|done|by left|done..]. intros j c Hc. by exists c. Qed.

Lemma Grows_length i i' : Grows i i' → (length (in_chunks i) ≤ length (in_chunks i'))%nat.
Proof.
  intros [Hp _ _ _ _ _]. destruct (decide (length (in_chunks i) = 0)%nat) as [|Hn]; [lia|].
  destruct (lookup_lt_is_Some_2 (in_chunks i) (length (in_chunks i) - 1)) as [c Hc]; [lia|].
  destruct (Hp _ _ Hc) as (c' & Hc' & _). apply lookup_lt_Some in Hc'. lia.
Qed.

Lemma Grows_trans i1 i2 i3 : Grows i1 i2 → Grows i2 i3 → Grows i1 i3.
Proof.
  intros H12 H23. pose proof (Grows_length _ _ H12) as Hlen.
  destruct H12 as [Hp1 Ho1 Hc1 Hr1 Hs1 Hb1], H23 as [Hp2 Ho2 Hc2 Hr2 Hs2 Hb2].
  split; [| | |congruence..].
  - intros j c Hc. destruct (Hp1 j c Hc) as (c' & Hc' & [? ?]). destruct (Hp2 j c' Hc') as (c'' & Hc'' & [? ?]).
    exists c''. split; [done|]. split; congruence.
  - intros j Hj Hn. rewrite Ho2 by lia. by apply Ho1.
  - lia.
Qed.

Lemma Grows_with_current c c' s :
  in_chunks (i_inner s) !! in_current_chunk (i_inner s) = Some c → same_chunk c c' →
  Grows (i_inner s) (i_inner (with_current c' s)).
Proof.
  intros Hc Hs. split; simpl; [| |by left|done..].
  - intros j d Hd. destruct (decide (j = in_current_chunk (i_inner s))) as [->|Hn].
    + simplify_eq. exists c'. split; [|done]. apply list_lookup_insert_eq. by apply lookup_lt_Some in Hc.
    + exists d. rewrite list_lookup_insert_ne by done. done.
  - intros j _ Hn. by apply list_lookup_insert_ne.
Qed.

Lemma Grows_with_new c s : Grows (i_inner s) (i_inner (with_new c s)).
Proof.
  split; simpl; [| |right; lia|done..].
  - intros j d Hd. exists d. split; [|done]. by apply lookup_app_l_Some.
  - intros j Hj _. by apply lookup_app_l.
Qed.

(** Chunks after the current one are empty: they wait for nobody. *)
Definition tail_unused (i : ArenaInner) : Prop :=
  ∀ j c, (in_current_chunk i < j)%nat → in_chunks i !! j = Some c → c_used c = 0.

(** What one allocation does: besides growing, it keeps the tail empty and takes no
    checkpoint. *)
Record Extends (i i' : ArenaInner) : Prop := mkExtends {
  ex_grows : Grows i i';
  ex_tail : tail_unused i → tail_unused i';
  ex_id : in_current_checkpoint_id i' = in_current_checkpoint_id i
}.

Lemma Extends_refl i : Extends i i.
Proof. split; [apply Grows_refl|done|done]. Qed.

Lemma Extends_refl_stats i st : Extends i (set_stats st i).
Proof. split; [apply Grows_refl_stats|done|done]. Qed.

Lemma Extends_trans i1 i2 i3 : Extends i1 i2 → Extends i2 i3 → Extends i1 i3.
Proof. intros [Hg1 Ht1 Hi1] [Hg2 Ht2 Hi2]. split; [by eapply Grows_trans|by auto|congruence]. Qed.

Lemma Extends_with_current c c' s :
  in_chunks (i_inner s) !! in_current_chunk (i_inner s) = Some c → same_chunk c c' →
  Extends (i_inner s) (i_inner (with_current c' s)).
Proof.
  intros Hc Hs. split; [by apply (Grows_with_current c)| |done]. intros Ht j d Hj. simpl in *.
  rewrite list_lookup_insert_ne by lia. by apply Ht.
Qed.

Lemma Extends_with_new c s : Extends (i_inner s) (i_inner (with_new c s)).
Proof.
  split; [apply Grows_with_new| |done]. intros _ j d Hj Hd%lookup_lt_Some. simpl in *. rewrite length_app in Hd. simpl in Hd. lia.
Qed.

(** [stats_update] touches neither stack nor region. *)
Lemma stats_update_grows `{Cfg} f s s' : stats_update f s = (Ok tt, s') →
  Extends (i_inner s) (i_inner s') ∧ length (in_chunks (i_inner s')) = length (in_chunks (i_inner s)).
Proof.
  unfold stats_update. destruct feat_stats; intros [= <-]; (split; [|done]); [apply Extends_refl_stats|apply Extends_refl].
Qed.

Section grows.
Context `{cfg : Cfg} {ga : GlobalAlloc} `{!GlobalAllocOk ga} (bt : string).
Hypothesis (Hlf : feat_lockfree = false) (Hdb : feat_debug = false).

Lemma ArenaInner_allocate_grows l s r s' :
  Inner_wf s → Layout_ok l → ArenaInner_allocate l s = (Ok r, s') →
  Extends (i_inner s) (i_inner s') ∧ length (in_chunks (i_inner s')) = length (in_chunks (i_inner s)).
Proof.
  intros Hw Hl. destruct (current_chunk s Hw) as (c & Hc & Hcw). pose proof Hw as (_ & _ & _ & Hlt & _).
  unfold ArenaInner_allocate. mrun. rewrite clamped_current, Hc by done. simpl.
  rewrite Chunk_allocate_eq by done. case_decide; simpl; intros E.
  - destruct (stats_update _ _) as [[[]|?|?|?] s1] eqn:E1; try done.
    destruct (stats_update _ s1) as [[[]|?|?|?] s2] eqn:E2; try done. simplify_eq.
    apply stats_update_grows in E1 as [Hg1 Hl1], E2 as [Hg2 Hl2]. simpl in Hg1, Hl1. split.
    + eapply Extends_trans; [|exact Hg2]. eapply Extends_trans; [|exact Hg1]. by apply (Extends_with_current c).
    + by rewrite Hl2, Hl1, length_insert.
  - unfold on_inner in E. mrun. simplify_eq. simpl. rewrite list_insert_id by done. destruct (i_inner s).
    split; [apply Extends_refl|done].
Qed.

Lemma add_chunk_grows cap s idx s' :
  ArenaInner_add_chunk cap s = (Ok (ROk idx), s') →
  Extends (i_inner s) (i_inner s') ∧ length (in_chunks (i_inner s')) = S (length (in_chunks (i_inner s))).
Proof.
  unfold ArenaInner_add_chunk, in_world, w_on_mem. mrun.
  destruct (Chunk_new cap _) as [[[c|e]|e|e|e] m]; try done; simpl.
  destruct (stats_update _ _) as [[[]|?|?|?] s1] eqn:E1; try done. intros [= <- <-].
  apply stats_update_grows in E1 as [Hg1 Hl1]. simpl in Hg1, Hl1. split.
  - eapply Extends_trans; [|exact Hg1]. apply (Extends_with_new c).
  - rewrite Hl1. unfold vec_push. rewrite length_app. simpl. lia.
Qed.

(** What [with_inner] did to the arena, from what the action did to its part. *)
Lemma with_inner_inv {A} (m : M IW A) s o s' :
  with_inner m s = (o, s') → m (iw s) = (o, iw s').
Proof. unfold with_inner, zoom. fold (iw s). destruct (m (iw s)) as [o' x]. intros [= -> <-]. by destruct x. Qed.

Lemma alloc_thread_local_arena size align s :
  Arena_ok s → ∃ s', alloc_thread_local bt size align s = (Ok None, s') ∧ a_arena s' = a_arena s.
Proof.
  intros Hok. unfold alloc_thread_local. destruct feat_thread_local; [|by exists s].
  destruct (size <=? 512); [|by exists s].
  pose proof Hok as (_&_&_&_&_&Hz). unfold try_thread_local_alloc, a_on_world, w_on_cache. mrun. rewrite Hdb.
  destruct (ThreadCache_alloc_empty size 0 (w_cache (a_world s)) Hz) as (c' & -> & Hz').
  eexists. split; [reflexivity|]. done.
Qed.

(** A new chunk keeps the arena well formed. *)
Lemma add_chunk_ok l cap s idx s' :
  Arena_ok s → next_chunk_capacity (l_size l) = Ok cap →
  with_inner (ArenaInner_add_chunk cap) s = (Ok (ROk idx), s') → Arena_ok s'.
Proof.
  intros Hok Hcap E%with_inner_inv.
  destruct (next_chunk_capacity_eq (l_size l)) as (j & Hj & Hcap' & _). rewrite Hcap in Hcap'. injection Hcap' as ->.
  assert (2 ^ 0 ≤ 2 ^ j ≤ 2 ^ 12) as Hle by (split; apply Z.pow_le_mono_r; lia). change (2 ^ 12) with 4096 in Hle.
  destruct (add_chunk_eq (4096 * 2 ^ j) (iw s)) as [[_ Ea]|(d & x & _ & Ea & Hdw & _ & _ & Hdd & Hv)]; [ulia|done| |];
    rewrite Ea in E; [done|]. injection E as _ ->. eapply same_view_wf; [exact Hv|].
  exact (step_wf _ _ (with_new_step d (iw s) Hok Hdw Hdd)).
Qed.

Lemma alloc_new_chunk_grows l s p s' :
  Arena_ok s → Layout_ok l → alloc_new_chunk bt l s = (Ok p, s') →
  Extends (a_inner (a_arena s)) (a_inner (a_arena s')) ∧
  length (in_chunks (a_inner (a_arena s'))) = S (length (in_chunks (a_inner (a_arena s)))).
Proof.
  intros Hok Hl (cap & s3 & [= Hcap <-] & (idx & s4 & E4 & E5)%M_bind_Ok)%M_bind_Ok.
  destruct idx as [idx|e]; [|done]. pose proof (add_chunk_ok l cap s idx s4 Hok Hcap E4) as Hok4.
  apply with_inner_inv, add_chunk_grows in E4 as [Hg4 Hl4].
  apply M_bind_Ok in E5 as (r & s5 & E5%with_inner_inv & E6).
  destruct (ArenaInner_allocate_grows l _ _ _ Hok4 Hl E5) as [Hg5 Hl5]. destruct r as [q|]; [|done].
  unfold guard_wrap in E6. rewrite Hdb in E6. injection E6 as _ <-. simpl in *.
  split; [by eapply Extends_trans|lia].
Qed.

Lemma alloc_regular_grows l s c p s' :
  Arena_ok s → Layout_ok l → current s = Some c → alloc_regular bt l s = (Ok p, s') →
  Extends (a_inner (a_arena s)) (a_inner (a_arena s')) ∧
  length (in_chunks (a_inner (a_arena s'))) =
    ((if decide (Chunk_fits l c) then 0 else 1) + length (in_chunks (a_inner (a_arena s))))%nat.
Proof.
  intros Hok Hl Hc (r & s2 & E2 & E3)%M_bind_Ok. apply with_inner_inv in E2 as E2'.
  destruct (ArenaInner_allocate_grows l _ _ _ Hok Hl E2') as [Hg Hlen].
  pose proof (ArenaInner_allocate_step l (iw s) c Hok Hl Hc) as Hal.
  destruct (decide (Chunk_fits l c)).
  - destruct Hal as (x & Ex & _). rewrite Ex in E2'. injection E2' as <- ->.
    unfold guard_wrap in E3. rewrite Hdb in E3. injection E3 as _ <-. done.
  - rewrite Hal in E2'. injection E2' as <- Hi Hw. apply alloc_new_chunk_grows in E3 as [Hg3 Hl3]; [| |done].
    2:{ unfold Arena_ok, iw in *. by rewrite <- Hi, <- Hw. }
    rewrite <- Hi in Hg3, Hl3. done.
Qed.

Lemma allocate_raw_grows l s c p s' :
  Arena_ok s → Layout_ok l → 0 < l_size l → current s = Some c → Arena_allocate_raw bt l s = (Ok p, s') →
  Extends (a_inner (a_arena s)) (a_inner (a_arena s')) ∧
  length (in_chunks (a_inner (a_arena s'))) =
    ((if decide (Chunk_fits l c) then 0 else 1) + length (in_chunks (a_inner (a_arena s))))%nat.
Proof.
  intros Hok Hl Hsz Hc. unfold Arena_allocate_raw. destruct (Z.eqb_spec (l_size l) 0); [lia|].
  unfold alloc_lockfree. rewrite Hlf. unfold mbind at 1, M_bind at 1, mret at 1, M_ret at 1. cbv beta iota.
  destruct (alloc_thread_local_arena (l_size l) (l_align l) s Hok) as (s1 & E1 & Ha).
  destruct (alloc_thread_local_step bt l s Hok Hl) as (s1' & E1' & [Hst1 _]). rewrite E1 in E1'. injection E1' as <-.
  unfold mbind at 1, M_bind at 1. rewrite E1, <- Ha.
  apply alloc_regular_grows; [exact (step_wf _ _ Hst1)|done|]. unfold current in *. by rewrite Ha.
Qed.

Lemma alloc_grows o s c p s' :
  Arena_ok s → Obj_ok o → current s = Some c → Arena_alloc bt (o_layout o) (o_value o) s = (Ok p, s') →
  Extends (a_inner (a_arena s)) (a_inner (a_arena s')) ∧
  length (in_chunks (a_inner (a_arena s'))) =
    ((if decide (Chunk_fits (o_layout o) c) then 0 else 1) + length (in_chunks (a_inner (a_arena s))))%nat.
Proof.
  intros Hok (Hl & Hsz & _) Hc (q & s1 & E1 & (x & s2 & E2 & [= _ <-])%M_bind_Ok)%M_bind_Ok.
  assert (a_arena s2 = a_arena s1) as ->; [|by apply (allocate_raw_grows _ _ c) in E1].
  unfold a_on_mem, a_on_world, zoom in E2. destruct (w_on_mem _ _) as [o' w']. by simplify_eq.
Qed.

Lemma run_grows objs s ps s' :
  Arena_ok s → Forall Obj_ok objs → Arena_run bt objs s = (Ok ps, s') →
  Grows (a_inner (a_arena s)) (a_inner (a_arena s')).
Proof.
  intros Hok Hobjs E. pose (R s s' := Grows (a_inner (a_arena s)) (a_inner (a_arena s'))).
  assert (PreOrder R) by (split; [intros ?; apply Grows_refl|intros ???; apply Grows_trans]).
  eapply (run_objs_preorder iw (Arena_obj bt) Obj_ok Arena_fails R); [|exact Hok|exact Hobjs|exact E].
  intros o s0 p s0' Hok0 Ho E0. destruct (current_chunk (iw s0) Hok0) as (c & Hc & _).
  exact (ex_grows _ _ (proj1 (alloc_grows o s0 c p s0' Hok0 Ho Hc E0))).
Qed.
End grows.

(** ** Rewinding *)
Definition total_used (cs : list Chunk) : Z := foldr (λ c n, c_used c + n) 0 cs.

Lemma sum_used_ok `{Cfg} cs acc :
  0 ≤ acc → Forall (λ c, 0 ≤ c_used c) cs → acc + total_used cs < USIZE_MOD → sum_used acc cs = Ok (acc + total_used cs).
Proof.
  intros Hacc Hcs. revert acc Hacc. induction Hcs as [|c cs Hc Hcs IH]; intros acc Hacc; simpl; [intros; by rewrite Z.add_0_r|].
  intros Hsum. assert (0 ≤ total_used cs) by (clear -Hcs; induction Hcs; simpl; lia).
  rewrite usize_add_in by lia. mrun. rewrite IH by lia. f_equal. lia.
Qed.

(** The used bytes of chunks in disjoint blocks fit the address space. *)
Lemma total_used_bound cs :
  Forall Chunk_wf cs → pw_disjoint (Chunk_range <$> cs) → 0 ≤ total_used cs < USIZE_MOD.
Proof.
  intros Hf Hd. assert (0 ≤ total_used cs ≤ sum_len (Chunk_range <$> cs)) as Hle.
  { clear Hd. induction Hf as [|c cs (?&?&?&?&?&?) Hf IH];
      cbn [fmap list_fmap total_used sum_len foldr]; [done|].
    fold (total_used cs) (sum_len (Chunk_range <$> cs)). change (r_len (Chunk_range c)) with (c_capacity c). lia. }
  assert (sum_len (Chunk_range <$> cs) ≤ r_len (mkRange 0 USIZE_MAX)); [|simpl in *; ulia].
  apply sum_len_bound; [done| |done]. apply Forall_fmap. eapply Forall_impl; [exact Hf|].
  intros c (?&?&?&?&?&?). unfold Chunk_range. simpl. split; [lia|]. intros a Ha. range_solve.
Qed.

(** A checkpoint that names a place in the arena. *)
Definition cp_valid (cp : ArenaCheckpoint) (cs : list Chunk) : Prop :=
  ∃ c, cs !! cp_chunk_index cp = Some c ∧ 0 ≤ cp_chunk_offset cp ≤ c_capacity c.

#[global] Instance cp_valid_dec cp cs : Decision (cp_valid cp cs).
Proof.
  destruct (cs !! cp_chunk_index cp) as [c|] eqn:Hc; [|right; intros (c & ? & _); congruence].
  destruct (decide (0 ≤ cp_chunk_offset cp ≤ c_capacity c)); [left; by exists c|right; intros (d & ? & ?); congruence].
Defined.

(** Rewinding anywhere else panics and changes nothing. *)
Lemma rewind_invalid `{Cfg} cp s :
  0 ≤ cp_chunk_offset cp → ¬ cp_valid cp (in_chunks (a_inner (a_arena s))) → ∃ e, Arena_rewind_to_checkpoint cp s = (Panic e, s).
Proof.
  intros Hoff Hv. unfold Arena_rewind_to_checkpoint, ArenaInner_rewind_to_checkpoint, with_inner. mrun.
  destruct (Nat.ltb_spec (cp_chunk_index cp) (length (in_chunks (a_inner (a_arena s))))) as [Hlt|]; [|eexists; by destruct s as [[] w]].
  unfold vec_index. destruct (lookup_lt_is_Some_2 _ _ Hlt) as [c Hc]. rewrite Hc.
  destruct (Z.leb_spec (cp_chunk_offset cp) (c_capacity c)); [destruct Hv; by exists c|]. eexists. by destruct s as [[] w].
Qed.

Lemma rewind_chunk_wf cp cs :
  cp_valid cp cs → Forall Chunk_wf cs → Forall Chunk_wf (imap (rewind_chunk cp) cs).
Proof.
  intros (c & Hc & Ho) Hf. rewrite Forall_lookup in *. intros j d.
  rewrite list_lookup_imap. destruct (cs !! j) as [e|] eqn:He; simpl; [|done]. intros [= <-].
  specialize (Hf j e He). unfold rewind_chunk. destruct (Nat.ltb_spec j (cp_chunk_index cp)); [done|].
  destruct (Nat.eqb_spec j (cp_chunk_index cp)) as [->|].
  - simplify_eq. by apply Chunk_set_used_wf.
  - apply Chunk_set_used_wf; [done|]. destruct Hf as (?&?&?&?&?&?). lia.
Qed.

Lemma rewind_blocks cp cs : Chunk_block <$> imap (rewind_chunk cp) cs = Chunk_block <$> cs.
Proof.
  apply list_eq. intros j. rewrite !list_lookup_fmap, list_lookup_imap. destruct (cs !! j); simpl; [|done].
  unfold rewind_chunk. destruct (Nat.ltb _ _); [done|]. by destruct (Nat.eqb _ _).
Qed.

Lemma chunk_ranges_disjoint s : Inner_wf s → pw_disjoint (Chunk_range <$> in_chunks (i_inner s)).
Proof.
  intros Hw. pose proof (blocks_disjoint s Hw) as Hd. unfold Inner_blocks in Hd.
  rewrite fmap_app, pw_disjoint_app in Hd. destruct Hd as (Hd & _). by rewrite <- list_fmap_compose in Hd.
Qed.

Section rewind.
Context `{cfg : Cfg} {ga : GlobalAlloc} `{!GlobalAllocOk ga} (bt : string).
Hypothesis (Hlf : feat_lockfree = false) (Hdb : feat_debug = false).

Lemma reset_caches_eq s :
  reset_caches s =
    (Ok tt, if feat_thread_local then mkIW (i_inner s) (w_set_cache (ThreadCache_clear (w_cache (i_world s))) (i_world s)) else s).
Proof.
  unfold reset_caches, in_world, w_on_cache, reset_thread_cache. mrun. rewrite Hlf. by destruct feat_thread_local.
Qed.

(** The count of the bytes used after rewinding does not overflow. *)
Lemma rewind_sum cp s :
  Inner_wf s → cp_valid cp (in_chunks (i_inner s)) →
  let cs := imap (rewind_chunk cp) (in_chunks (i_inner s)) in
  sum_used 0 (take (cp_chunk_index cp + 1) cs) = Ok (total_used (take (cp_chunk_index cp + 1) cs)).
Proof.
  intros Hw Hcp cs. pose proof Hw as (_ & _ & Hf & _). pose proof (rewind_chunk_wf cp _ Hcp Hf) as Hf'. fold cs in Hf'.
  assert (pw_disjoint (Chunk_range <$> cs)) as Hd.
  { replace (Chunk_range <$> cs) with (block_range <$> (Chunk_block <$> cs)) by (by rewrite <- list_fmap_compose).
    unfold cs. rewrite rewind_blocks, <- list_fmap_compose. exact (chunk_ranges_disjoint s Hw). }
  rewrite sum_used_ok; [done|done| |].
  - apply Forall_take. eapply Forall_impl; [exact Hf'|]. by intros d (?&?&?&?&?&[? _]).
  - destruct (total_used_bound (take (cp_chunk_index cp + 1) cs)); [by apply Forall_take| |lia].
    rewrite fmap_take. eapply pw_disjoint_submseteq; [|exact Hd]. apply sublist_submseteq, sublist_take.
Qed.

(** What rewinding leaves behind. *)
Lemma rewind_eq cp s :
  Inner_wf s → cp_valid cp (in_chunks (i_inner s)) →
  ∃ s', ArenaInner_rewind_to_checkpoint cp s = (Ok tt, s') ∧
    in_chunks (i_inner s') = imap (rewind_chunk cp) (in_chunks (i_inner s)) ∧
    in_current_chunk (i_inner s') = cp_chunk_index cp ∧
    in_checkpoints (i_inner s') = filter (λ c, cp_checkpoint_id c < cp_checkpoint_id cp) (in_checkpoints (i_inner s)) ∧
    in_current_checkpoint_id (i_inner s') = in_current_checkpoint_id (i_inner s) ∧
    in_lockfree_buffer (i_inner s') = in_lockfree_buffer (i_inner s) ∧
    in_virtual_region (i_inner s') = in_virtual_region (i_inner s) ∧
    s_mem s' = s_mem s ∧ w_slab (i_world s') = w_slab (i_world s) ∧ tc_used (w_cache (i_world s')) = 0%nat ∧
    (feat_stats = true → st_allocation_count (in_stats (i_inner s')) = cp_allocation_count cp ∧
       st_bytes_used (in_stats (i_inner s')) = total_used (take (cp_chunk_index cp + 1) (in_chunks (i_inner s')))).
Proof.
  intros Hw Hcp. pose proof Hcp as (c & Hc & Ho). pose proof Hw as (_ & _ & Hf & _ & _ & Htc).
  unfold ArenaInner_rewind_to_checkpoint. mrun.
  pose proof (lookup_lt_Some _ _ _ Hc) as Hlt. destruct (Nat.ltb_spec (cp_chunk_index cp) (length (in_chunks (i_inner s)))); [|lia].
  unfold vec_index. rewrite Hc. destruct (Z.leb_spec (cp_chunk_offset cp) (c_capacity c)); [|lia].
  unfold on_inner. mrun. rewrite Hdb, reset_caches_eq. cbv beta iota.
  set (cs := imap (rewind_chunk cp) (in_chunks (i_inner s))).
  pose proof (rewind_sum cp s Hw Hcp) as Hsum. cbv zeta in Hsum. fold cs in Hsum.
  destruct feat_stats eqn:Hst, feat_thread_local; cbn [i_inner i_world in_chunks set_current_chunk set_chunks set_checkpoints];
    fold cs; try rewrite Hsum; unfold stats_update; try rewrite Hst; eexists; (split; [reflexivity|]); simpl; splits; try done;
    intros; try done; unfold stats_update; try rewrite Hst; done.
Qed.

Lemma rewind_wf cp s s' :
  Inner_wf s → cp_valid cp (in_chunks (i_inner s)) → ArenaInner_rewind_to_checkpoint cp s = (Ok tt, s') → Inner_wf s'.
Proof.
  intros Hw Hv E. destruct (rewind_eq cp s Hw Hv) as (x & Ex & H1 & H2 & _ & _ & H5 & _ & H7 & H8 & H9 & _).
  rewrite E in Ex. injection Ex as <-. pose proof Hw as (Hm & Hsub & Hf & Hlt & Hlfo & _). unfold s_mem in H7.
  unfold Inner_wf, Inner_blocks. rewrite H1, H2, H5, H7, rewind_blocks.
  splits; [done|done|by apply rewind_chunk_wf| |unfold lf_ok, lf_state in *; rewrite H7, H8; exact Hlfo|done].
  rewrite length_imap. destruct Hv as (d & Hd & _). by eapply lookup_lt_Some.
Qed.
End rewind.

Lemma Chunk_set_used_id c : Chunk_set_used (c_used c) c = c.
Proof. by destruct c. Qed.

Lemma Chunk_reset_id c : c_used c = 0 → Chunk_reset c = c.
Proof. destruct c. simpl. by intros ->. Qed.

Lemma Chunk_set_used_same c c' : same_chunk c c' → Chunk_set_used (c_used c) c' = c.
Proof. destruct c, c'. unfold same_chunk, Chunk_set_used. simpl. by intros [-> ->]. Qed.

(** Rewinding to a checkpoint of [i] undoes what made [i] grow into [i']. *)
Lemma rewind_chunks_restored i i' cp c :
  Grows i i' → tail_unused i → in_chunks i !! in_current_chunk i = Some c →
  cp_chunk_index cp = in_current_chunk i → cp_chunk_offset cp = c_used c →
  imap (rewind_chunk cp) (in_chunks i') =
    in_chunks i ++ (Chunk_reset <$> drop (length (in_chunks i)) (in_chunks i')).
Proof.
  intros Hg Ht Hc Hidx Hoff. pose proof (Grows_length _ _ Hg) as Hlen. pose proof (lookup_lt_Some _ _ _ Hc) as Hlt.
  apply list_eq. intros j. rewrite list_lookup_imap.
  destruct (decide (j < length (in_chunks i))%nat) as [Hj|Hj].
  - rewrite lookup_app_l by done. destruct (lookup_lt_is_Some_2 _ _ Hj) as [d Hd]. rewrite Hd.
    destruct (decide (j = in_current_chunk i)) as [->|Hne].
    + destruct (g_prefix _ _ Hg _ _ Hd) as (d' & Hd' & Hsame). rewrite Hd'. simpl. unfold rewind_chunk.
      rewrite Hidx, Nat.ltb_irrefl, Nat.eqb_refl, Hoff. f_equal. simplify_eq. by apply Chunk_set_used_same.
    + rewrite (g_other _ _ Hg j) by done. rewrite Hd. simpl. f_equal. unfold rewind_chunk. rewrite Hidx.
      destruct (Nat.ltb_spec j (in_current_chunk i)); [done|].
      destruct (Nat.eqb_spec j (in_current_chunk i)); [done|]. apply Chunk_reset_id. apply (Ht j); [lia|done].
  - rewrite lookup_app_r, list_lookup_fmap, lookup_drop by lia.
    replace (length (in_chunks i) + (j - length (in_chunks i)))%nat with j by lia.
    destruct (in_chunks i' !! j); simpl; [|done]. f_equal. unfold rewind_chunk. rewrite Hidx.
    destruct (Nat.ltb_spec j (in_current_chunk i)); [lia|].
    by destruct (Nat.eqb_spec j (in_current_chunk i)); [lia|].
Qed.

Section restore.
Context `{cfg : Cfg} {ga : GlobalAlloc} `{!GlobalAllocOk ga} (bt : string).
Hypothesis (Hlf : feat_lockfree = false) (Hdb : feat_debug = false).

(** Taking a checkpoint only counts it. *)
Lemma checkpoint_eq s cp s' :
  Arena_ok s → Arena_checkpoint s = (Ok cp, s') →
  (∃ c, current s = Some c ∧ cp_chunk_offset cp = c_used c) ∧
  cp_chunk_index cp = in_current_chunk (a_inner (a_arena s)) ∧
  cp_checkpoint_id cp = in_current_checkpoint_id (a_inner (a_arena s)) ∧
  (feat_stats = true → cp_allocation_count cp = st_allocation_count (in_stats (a_inner (a_arena s)))) ∧
  a_world s' = a_world s ∧ ∃ n, a_inner (a_arena s') = set_checkpoint_id n (a_inner (a_arena s)).
Proof.
  intros Hok. destruct (current_chunk (iw s) Hok) as (c & Hc & _). pose proof Hok as (_ & _ & _ & Hlt & _).
  unfold Arena_checkpoint, ArenaInner_checkpoint, with_inner. mrun. unfold iw in *. simpl in *.
  rewrite clamped_current by done. unfold vec_index. rewrite Hc.
  destruct (usize_add _ 1) as [n|e|e|e]; intros; simplify_eq/=.
  splits; try done; [by exists c|intros ->; done|by exists n].
Qed.

(** Everything a rewind restores, after the arena grew from [s1] to [s2]. *)
Record Restored (s s2 s3 : AW) : Prop := mkRestored {
  rs_ok : Arena_ok s3;
  rs_chunks : ∃ extra, in_chunks (a_inner (a_arena s3)) = in_chunks (a_inner (a_arena s)) ++ extra ∧
                       length (in_chunks (a_inner (a_arena s2))) = length (in_chunks (a_inner (a_arena s3))) ∧
                       Forall (λ c, c_used c = 0) extra;
  rs_current : in_current_chunk (a_inner (a_arena s3)) = in_current_chunk (a_inner (a_arena s));
  rs_avail a : Inner_avail (iw s3) a → Inner_avail (iw s) a;
  rs_mem : w_mem (a_world s3) = w_mem (a_world s2);
  rs_count : feat_stats = true →
    st_allocation_count (in_stats (a_inner (a_arena s3))) = st_allocation_count (in_stats (a_inner (a_arena s)))
}.

(** A checkpoint of the state [s]. *)
Definition cp_of (s : AW) (cp : ArenaCheckpoint) : Prop :=
  (∃ c, current s = Some c ∧ cp_chunk_offset cp = c_used c) ∧
  cp_chunk_index cp = in_current_chunk (a_inner (a_arena s)) ∧
  (feat_stats = true → cp_allocation_count cp = st_allocation_count (in_stats (a_inner (a_arena s)))).

(** The checkpoint stack may have changed in between. *)
Lemma rewind_restored_gen s cp s2 stk :
  Arena_ok s → tail_unused (a_inner (a_arena s)) → cp_of s cp →
  Step (iw s) (iw s2) → Grows (a_inner (a_arena s)) (set_checkpoints stk (a_inner (a_arena s2))) →
  ∃ s3, Arena_rewind_to_checkpoint cp s2 = (Ok tt, s3) ∧ Restored s s2 s3 ∧ tail_unused (a_inner (a_arena s3)) ∧
    in_checkpoints (a_inner (a_arena s3)) =
      filter (λ c, cp_checkpoint_id c < cp_checkpoint_id cp) (in_checkpoints (a_inner (a_arena s2))) ∧
    in_current_checkpoint_id (a_inner (a_arena s3)) = in_current_checkpoint_id (a_inner (a_arena s2)) ∧
    in_virtual_region (a_inner (a_arena s3)) = in_virtual_region (a_inner (a_arena s2)) ∧
    in_lockfree_buffer (a_inner (a_arena s3)) = in_lockfree_buffer (a_inner (a_arena s2)).
Proof.
  intros Hok Htail ((c & Hc & Hoff) & Hidx & Hcnt) Hst Hg2.
  assert (Chunk_wf c) as Hcw by (pose proof Hok as (_&_&Hf&_); rewrite Forall_lookup in Hf; by apply (Hf _ c Hc)).
  pose proof (rewind_chunks_restored _ _ cp c Hg2 Htail Hc Hidx Hoff) as Hcs. cbn [in_chunks set_checkpoints] in Hcs.
  destruct (g_prefix _ _ Hg2 _ _ Hc) as (c2 & Hc2 & _ & Hcap2).
  assert (cp_valid cp (in_chunks (i_inner (iw s2)))) as Hv.
  { exists c2. rewrite Hidx. split; [done|]. rewrite Hcap2, Hoff. by destruct Hcw as (_&_&_&_&_&?). }
  pose proof (step_wf _ _ Hst) as Hw2.
  destruct (rewind_eq Hlf Hdb cp (iw s2) Hw2 Hv) as (x & E & H1 & H2 & H3 & H4 & H5 & H6 & H7 & H8 & H9 & H10).
  destruct (with_inner_run _ _ _ _ E) as (s3 & E3 & <- & _). exists s3. split; [exact E3|].
  pose proof Hw2 as (Hm & Hsub & Hf & Hlt & Hlfo & _). simpl in H1, H2, H5, H8. unfold s_mem in H7. simpl in H7.
  assert (Arena_ok s3) as Hok3 by exact (rewind_wf Hlf Hdb cp (iw s2) (iw s3) Hw2 Hv E).
  split; [|split; [|by splits]].
  - split; [done| |by rewrite H2| |done|].
    + eexists. split; [by rewrite H1|]. split; [by rewrite H1, length_imap|]. apply Forall_fmap, Forall_true. done.
    + intros a [(d & Hd & Ha)|[(b & Hb & Hn & Ha)|Ha]].
      * left. exists c. split; [done|]. simpl in Hd. rewrite H1, H2, Hcs, Hidx, lookup_app_l in Hd by (by eapply lookup_lt_Some).
        unfold current in Hc. simpl in *. simplify_eq. done.
      * apply (step_avail _ _ Hst). right. left. exists b. simpl in Hb. rewrite H5 in Hb. split; [done|]. split; [done|].
        unfold lf_state in *. simpl in Ha. by rewrite H7, H8 in Ha.
      * apply (step_avail _ _ Hst). right. right. unfold not_live in *. simpl in Ha. by rewrite H7 in Ha.
    + intros Hs. destruct (H10 Hs) as [Hc10 _]. simpl in Hc10. by rewrite Hc10, (Hcnt Hs).
  - intros j d Hj Hd. rewrite H2, Hidx in Hj. rewrite H1, Hcs in Hd.
    destruct (decide (j < length (in_chunks (a_inner (a_arena s))))%nat).
    + rewrite lookup_app_l in Hd by done. by apply (Htail j).
    + rewrite lookup_app_r, list_lookup_fmap in Hd by lia. by apply fmap_Some in Hd as (e & _ & ->).
Qed.

Lemma rewind_restored s cp s1 s2 :
  Arena_ok s → tail_unused (a_inner (a_arena s)) → Arena_checkpoint s = (Ok cp, s1) →
  Step (iw s1) (iw s2) → Grows (a_inner (a_arena s1)) (a_inner (a_arena s2)) →
  ∃ s3, Arena_rewind_to_checkpoint cp s2 = (Ok tt, s3) ∧ Restored s s2 s3 ∧ tail_unused (a_inner (a_arena s3)).
Proof.
  intros Hok Htail Ecp Hst Hg. destruct (checkpoint_eq s cp s1 Hok Ecp) as (Hc & Hidx & _ & Hcnt & Hw1 & n & Hi1).
  destruct (rewind_restored_gen s cp s2 (in_checkpoints (a_inner (a_arena s2)))) as (s3 & E & Hr & Ht & _);
    [done|done|done| | |by exists s3].
  - eapply Step_trans; [|exact Hst]. unfold iw. rewrite Hi1, Hw1. apply same_view_step; [by constructor|exact Hok].
  - rewrite Hi1 in Hg. destruct Hg. split; done.
Qed.
End restore.

(** Taking a checkpoint returns, or panics with its counter exhausted and changes nothing. *)
Lemma checkpoint_cases `{Cfg} s : Arena_ok s →
  (∃ cp s1, Arena_checkpoint s = (Ok cp, s1)) ∨ (∃ e, Arena_checkpoint s = (Panic e, s)).
Proof.
  intros Hok. destruct (current_chunk (iw s) Hok) as (c & Hc & _). pose proof Hok as (_ & _ & _ & Hlt & _).
  unfold Arena_checkpoint, ArenaInner_checkpoint, with_inner. mrun. unfold iw in *. simpl in *.
  rewrite clamped_current by done. unfold vec_index. rewrite Hc. mrun.
  unfold usize_add, usize_op. repeat case_match; simplify_eq/=; try (by left; eauto); right; eexists; by destruct s as [[] ?].
Qed.
(** Taking a checkpoint is a step that changes nothing the invariant sees. *)
Lemma checkpoint_step `{Cfg} s cp s1 : Arena_ok s → Arena_checkpoint s = (Ok cp, s1) → Step (iw s) (iw s1).
Proof.
  intros Hok E. destruct (checkpoint_eq s cp s1 Hok E) as (_ & _ & _ & _ & Hw & n & Hi).
  apply same_view_step; [|done]. unfold iw. by constructor; simpl; rewrite ?Hw, ?Hi.
Qed.

(** ** Theorems *)

(** C2: rewinding undoes exactly what happened since the checkpoint.  Take a
    checkpoint, allocate any sequence of values, rewind: the chunks are those of
    the checkpoint, with the same fill, followed only by empty chunks added in
    between; the current chunk and the allocation count are those of the
    checkpoint; nothing is available to later allocations that was not available
    at the checkpoint; and every object older than the checkpoint still holds its
    value after any further sequence of allocations in the rewound arena.  For builds
    without the lock-free and debug features; the chunks of the arena behind the current
    one are empty when the checkpoint is taken ([tail_unused], true of every arena that
    was only allocated from and rewound to its own checkpoints), its thread cache is
    empty, and the values satisfy [Obj_ok]. *)
Theorem checkpoint_rewind_restores `{cfg : Cfg} {ga : GlobalAlloc} `{!GlobalAllocOk ga} bt s cp s1 objs ps s2 :
  feat_lockfree = false → feat_debug = false →
  Arena_ok s → tail_unused (a_inner (a_arena s)) → Arena_checkpoint s = (Ok cp, s1) →
  Forall Obj_ok objs → Arena_run bt objs s1 = (Ok ps, s2) →
  ∃ s3, Arena_rewind_to_checkpoint cp s2 = (Ok tt, s3) ∧ Restored s s2 s3 ∧ tail_unused (a_inner (a_arena s3)) ∧
    ∀ objs' ps' s4 op, Forall Obj_ok objs' → Arena_run bt objs' s3 = (Ok ps', s4) →
      obj_stored (w_mem (a_world s)) op →
      (∀ a, a ∈ mkRange op.2 (Z.of_nat (length (o_value op.1))) → ¬ Inner_avail (iw s) a) →
      obj_stored (w_mem (a_world s4)) op.
Proof.
  intros Hlf Hdb Hok Ht Ecp Hobjs Erun. pose proof (checkpoint_step s cp s1 Hok Ecp) as Hst1.
  destruct (run_step bt objs s1 (step_wf _ _ Hst1) Hobjs) as (r & s2' & E & Hr). rewrite Erun in E. injection E as <- <-.
  destruct Hr as (_ & Hst2 & _). pose proof (run_grows bt Hlf Hdb objs s1 ps s2 (step_wf _ _ Hst1) Hobjs Erun) as Hg.
  destruct (rewind_restored Hlf Hdb s cp s1 s2 Hok Ht Ecp Hst2 Hg) as (s3 & E3 & Hres & Ht3).
  exists s3. splits; [exact E3|exact Hres|exact Ht3|]. intros objs' ps' s4 op Hobjs' E4 Hsto Hn.
  destruct (run_step bt objs' s3 (rs_ok _ _ _ Hres) Hobjs') as (r & s4' & E & Hr). rewrite E4 in E. injection E as <- <-.
  destruct Hr as (_ & Hst4 & _).
  assert (obj_stored (s_mem (iw s2)) op) as H2.
  { apply (obj_stored_step (iw s) (iw s2)); [by eapply Step_trans|exact Hsto|exact Hn]. }
  apply (obj_stored_step (iw s3) (iw s4)); [exact Hst4| |].
  - unfold s_mem, iw. simpl. rewrite (rs_mem _ _ _ Hres). exact H2.
  - intros a Ha Hav. apply (Hn a Ha). by apply (rs_avail _ _ _ Hres).
Qed.

Lemma checkpoint_rewind_restores_witness :
  ∃ s1 s2 s3 cp, @Arena_checkpoint cfg_dev demo_state = (Ok cp, s1) ∧
    @Arena_run cfg_dev bump_alloc "bt" [mkObj (mkLayout 200 8) (replicate 200 1)] s1 = (Ok [65728], s2) ∧
    @Arena_rewind_to_checkpoint cfg_dev cp s2 = (Ok tt, s3) ∧ Arena_ok s3 ∧ in_current_chunk (a_inner (a_arena s3)) = 0%nat.
Proof.
  pose (objs := [mkObj (mkLayout 200 8) (replicate 200 1)]).
  destruct (@Arena_checkpoint cfg_dev demo_state) as [o1 s1] eqn:E1.
  assert (o1 = Ok (mkCheckpoint 0 0 0 0)) as -> by (change o1 with ((o1, s1).1); rewrite <- E1; reflexivity).
  assert (s1 = (@Arena_checkpoint cfg_dev demo_state).2) as Hs1 by (by rewrite E1).
  destruct (@Arena_run cfg_dev bump_alloc "bt" objs s1) as [o2 s2] eqn:E2.
  assert (o2 = Ok [65728]) as ->.
  { change o2 with ((o2, s2).1). rewrite <- E2, Hs1. vm_compute. reflexivity. }
  destruct (@checkpoint_rewind_restores cfg_dev bump_alloc bump_alloc_ok "bt" demo_state (mkCheckpoint 0 0 0 0) s1 objs [65728] s2)
    as (s3 & E3 & Hres & _).
  - reflexivity.
  - reflexivity.
  - exact demo_ok.
  - intros [|[|j]] c Hj Hc; simpl in *; [lia|done|done].
  - exact E1.
  - repeat constructor; vm_compute; intuition discriminate.
  - exact E2.
  - exists s1, s2, s3, (mkCheckpoint 0 0 0 0). split; [reflexivity|]. split; [exact E2|]. split; [exact E3|].
    split; [exact (rs_ok _ _ _ Hres)|exact (rs_current _ _ _ Hres)].
Defined.

(** C5: what [Arena::scope] does at its end, in builds without the lock-free and debug
    features, for any closure that returns or panics and leaves the arena well formed.
    If the checkpoint of the scope still names a place in the arena, the closure's
    outcome is passed on, the chunks are those the closure left, rewound to the
    checkpoint, the current chunk is that of before and no byte changes.  If moreover
    the closure made the arena only grow ([Step] and [Grows]: it allocated, and closed
    the frames it opened), the arena is back where it was ([Restored]): a panic leaves
    no allocation of the scope behind.  If the checkpoint does not name a place any
    more (the closure shrank the arena), the scope panics in its [Drop], and a closure
    that panicked itself aborts the process. *)
Theorem scope_restores `{cfg : Cfg} {ga : GlobalAlloc} `{!GlobalAllocOk ga} {R} (f : ArenaCheckpoint → M AW R) s cp s1 o s2 :
  feat_lockfree = false → feat_debug = false →
  Arena_ok s → tail_unused (a_inner (a_arena s)) → Arena_checkpoint s = (Ok cp, s1) →
  f cp s1 = (o, s2) → (match o with Ok _ | Panic _ => True | _ => False end) → Arena_ok s2 →
  (cp_valid cp (in_chunks (a_inner (a_arena s2))) →
     ∃ s3, Arena_scope f s = (o, s3) ∧ Arena_ok s3 ∧
       in_chunks (a_inner (a_arena s3)) = imap (rewind_chunk cp) (in_chunks (a_inner (a_arena s2))) ∧
       in_current_chunk (a_inner (a_arena s3)) = in_current_chunk (a_inner (a_arena s)) ∧
       w_mem (a_world s3) = w_mem (a_world s2)) ∧
  (Step (iw s1) (iw s2) → Grows (a_inner (a_arena s1)) (a_inner (a_arena s2)) →
     ∃ s3, Arena_scope f s = (o, s3) ∧ Restored s s2 s3 ∧ tail_unused (a_inner (a_arena s3))) ∧
  (¬ cp_valid cp (in_chunks (a_inner (a_arena s2))) →
     ∃ e, Arena_scope f s = (match o with Ok _ => Panic e | _ => Abort "panic in a destructor during cleanup" end, s2)).
Proof.
  intros Hlf Hdb Hok Ht Ecp Ef Ho Hok2.
  assert (∀ r s3, Arena_rewind_to_checkpoint cp s2 = (r, s3) → Arena_scope f s =
    match r with Ok _ => (o, s3) | Panic e => (match o with Ok _ => Panic e | _ => Abort "panic in a destructor during cleanup" end, s3)
    | Abort e => (Abort e, s3) | UB e => (UB e, s3) end) as Hscope.
  { intros r s3 E. unfold Arena_scope, Scope_new, Scope_drop, mbind, M_bind. rewrite Ecp. unfold with_drop. rewrite Ef.
    destruct o; try done; rewrite E; by destruct r. }
  destruct (checkpoint_eq s cp s1 Hok Ecp) as ((c & Hc & Hoff) & Hidx & _ & _ & _ & _).
  splits.
  - intros Hv. destruct (rewind_eq Hlf Hdb cp (iw s2) Hok2 Hv) as (x & E & H1 & H2 & _ & _ & _ & _ & H7 & _).
    pose proof (rewind_wf Hlf Hdb cp (iw s2) x Hok2 Hv E) as Hwf.
    destruct (with_inner_run _ _ _ _ E) as (s3 & E3 & <- & _). exists s3. split; [by rewrite (Hscope _ _ E3)|].
    simpl in H2. rewrite Hidx in H2. done.
  - intros Hst Hg. destruct (rewind_restored Hlf Hdb s cp s1 s2 Hok Ht Ecp Hst Hg) as (s3 & E3 & Hres & Ht3).
    exists s3. by rewrite (Hscope _ _ E3).
  - intros Hv. destruct (rewind_invalid cp s2) as [e E]; [|exact Hv|exists e; by rewrite (Hscope _ _ E)].
    destruct (current_chunk (iw s) Hok) as (d & Hd & Hdw). unfold current in Hc. simpl in Hd. rewrite Hc in Hd. injection Hd as <-.
    rewrite Hoff. by destruct Hdw as (_&_&_&_&_&[? _]).
Qed.

(** A scope whose closure allocates and then panics. *)
Lemma scope_restores_witness :
  let f := λ _ : ArenaCheckpoint,
    (_ ← @Arena_alloc cfg_release bump_alloc "bt" (mkLayout 4 4) [1;2;3;4]; lift (A := Z) (Panic "boom")) in
  ∃ s3, @Arena_scope cfg_release _ f demo_state = (Panic "boom", s3) ∧ Arena_ok s3 ∧
    Arena_chunk_usage (a_arena s3) = Arena_chunk_usage demo_arena.
Proof.
  intros f. pose (cp := mkCheckpoint 0 0 0 0). pose (o := mkObj (mkLayout 4 4) [1;2;3;4]).
  destruct (@Arena_checkpoint cfg_release demo_state) as [o1 s1] eqn:E1.
  assert (o1 = Ok cp) as -> by (change o1 with ((o1, s1).1); rewrite <- E1; reflexivity).
  pose proof (@checkpoint_step cfg_release demo_state cp s1 demo_ok E1) as Hst1.
  assert (@Obj_ok cfg_release o) as Ho by (repeat constructor; vm_compute; intuition discriminate).
  destruct (@alloc_step cfg_release bump_alloc bump_alloc_ok "bt" o s1 (step_wf _ _ Hst1) Ho) as (r & s2 & E2 & Hr).
  assert (r = Ok 65600) as ->.
  { change r with ((r, s2).1). rewrite <- E2. assert (s1 = (@Arena_checkpoint cfg_release demo_state).2) as -> by (by rewrite E1).
    vm_compute. reflexivity. }
  assert (f cp s1 = (Panic "boom", s2)) as Ef.
  { unfold f, mbind, M_bind, o in *. simpl in E2. rewrite E2. reflexivity. }
  destruct (@scope_restores cfg_release bump_alloc bump_alloc_ok Z f demo_state cp s1 (Panic "boom") s2) as (_ & Hgrow & _).
  - reflexivity.
  - reflexivity.
  - exact demo_ok.
  - intros [|[|j]] c Hj Hc; simpl in *; [lia|done|done].
  - exact E1.
  - exact Ef.
  - exact I.
  - exact (step_wf _ _ (proj1 Hr)).
  - destruct (current_chunk (iw s1) (step_wf _ _ Hst1)) as (c & Hc & _). destruct Hgrow as (s3 & E3 & Hres & _); [exact (proj1 Hr)| |].
    { exact (ex_grows _ _ (proj1 (@alloc_grows cfg_release bump_alloc bump_alloc_ok "bt" eq_refl eq_refl o s1 c 65600 s2 (step_wf _ _ Hst1) Ho Hc E2))). }
    exists s3. split; [exact E3|]. split; [exact (rs_ok _ _ _ Hres)|].
    assert (s3 = (@Arena_scope cfg_release _ f demo_state).2) as -> by (by rewrite E3). vm_compute. reflexivity.
Defined.

(** A scope opened in the second chunk of an arena that the closure then shrinks with the
    safe [reset_and_shrink_to_fit(&self)]: the scope's [Drop] panics. *)
Example scope_shrink_panics :
  let prog : M AW unit :=
    _ ← @Arena_alloc cfg_release bump_alloc "bt" (mkLayout 200 8) (replicate 200 1);
    @Arena_scope cfg_release _ (λ _, @Arena_reset_and_shrink_to_fit cfg_release) in
  (prog demo_state).1 = Panic "Invalid checkpoint: chunk index out of bounds".
Proof. vm_compute. reflexivity. Qed.

(** One frame of a loop that rewinds at its end: a scope that allocates one
    object. *)
Definition frame `{Cfg} `{GlobalAlloc} (bt : string) (o : Obj) : M AW Z :=
  Arena_scope (λ _, Arena_alloc bt (o_layout o) (o_value o)).

Fixpoint frames `{Cfg} `{GlobalAlloc} (bt : string) (n : nat) (o : Obj) : M AW unit :=
  match n with
  | O => mret tt
  | S n => _ ← frame bt o; frames bt n o
  end.

Section frames.
Context `{cfg : Cfg} {ga : GlobalAlloc} `{!GlobalAllocOk ga} (bt : string).
Hypothesis (Hlf : feat_lockfree = false) (Hdb : feat_debug = false).

Lemma frame_spec o s c r s' :
  Arena_ok s → tail_unused (a_inner (a_arena s)) → Obj_ok o → current s = Some c → ¬ Chunk_fits (o_layout o) c →
  frame bt o s = (Ok r, s') →
  Arena_ok s' ∧ tail_unused (a_inner (a_arena s')) ∧ current s' = Some c ∧
  length (in_chunks (a_inner (a_arena s'))) = S (length (in_chunks (a_inner (a_arena s)))).
Proof.
  intros Hok Ht Ho Hc Hnf (cp & s1 & Ecp & E)%M_bind_Ok. pose proof (checkpoint_step s cp s1 Hok Ecp) as Hst1.
  destruct (checkpoint_eq s cp s1 Hok Ecp) as (_ & _ & _ & _ & _ & n & Hi1).
  assert (current s1 = Some c) as Hc1 by (unfold current in *; by rewrite Hi1).
  destruct (alloc_step bt o s1 (step_wf _ _ Hst1) Ho) as (o' & s2 & E2 & Hr). unfold with_drop in E. rewrite E2 in E.
  destruct o' as [p|e|e|e]; [|done..].
  destruct (alloc_grows bt Hlf Hdb o s1 c p s2 (step_wf _ _ Hst1) Ho Hc1 E2) as [Hg%ex_grows Hlen]. rewrite decide_False in Hlen by done.
  destruct (rewind_restored Hlf Hdb s cp s1 s2 Hok Ht Ecp (proj1 Hr) Hg) as (s3 & E3 & Hres & Ht3).
  unfold Scope_drop in E. rewrite E3 in E. injection E as _ <-. destruct Hres as [Hok3 (extra & Hcs & Hl2 & _) Hcur _ _ _].
  splits; [done|done| |rewrite <- Hl2, Hlen, Hi1; done].
  unfold current in *. rewrite Hcur, Hcs. by apply lookup_app_l_Some.
Qed.
End frames.

(** A frame loop that spills grows without bound.  Chunks that a rewind emptied
    are never used again: a new chunk is appended instead.  If the object of one
    frame does not fit what is left of the current chunk, every frame of a loop of
    scopes adds one chunk, so [n] frames leave [n] more chunks allocated, although
    the arena is back at its checkpoint after each of them. *)
Theorem frame_loop_grows `{cfg : Cfg} {ga : GlobalAlloc} `{!GlobalAllocOk ga} bt n o s c s' :
  feat_lockfree = false → feat_debug = false →
  Arena_ok s → tail_unused (a_inner (a_arena s)) → Obj_ok o → current s = Some c → ¬ Chunk_fits (o_layout o) c →
  frames bt n o s = (Ok tt, s') →
  length (Arena_chunk_usage (a_arena s')) = (length (Arena_chunk_usage (a_arena s)) + n)%nat ∧ current s' = Some c.
Proof.
  intros Hlf Hdb. unfold Arena_chunk_usage. rewrite !length_fmap.
  revert s. induction n as [|n IH]; intros s Hok Ht Ho Hc Hnf; simpl.
  { intros [= <-]. split; [lia|done]. }
  intros (r & s1 & E1 & E2)%M_bind_Ok.
  destruct (frame_spec bt Hlf Hdb o s c r s1 Hok Ht Ho Hc Hnf E1) as (Hok1 & Ht1 & Hc1 & Hl1).
  destruct (IH s1 Hok1 Ht1 Ho Hc1 Hnf E2) as [Hl Hc']. split; [lia|done].
Qed.

Lemma frame_loop_grows_witness :
  let o := mkObj (mkLayout 200 8) (replicate 200 1) in
  ∃ s', @frames cfg_release bump_alloc "bt" 3 o demo_state = (Ok tt, s') ∧
    length (Arena_chunk_usage (a_arena s')) = (1 + 3)%nat.
Proof.
  intros o. destruct (@frames cfg_release bump_alloc "bt" 3 o demo_state) as [r s'] eqn:E.
  assert (r = Ok tt) as -> by (change r with ((r, s').1); rewrite <- E; vm_compute; reflexivity).
  exists s'. split; [reflexivity|].
  apply (@frame_loop_grows cfg_release bump_alloc bump_alloc_ok "bt" 3 o demo_state demo_chunk s').
  - reflexivity.
  - reflexivity.
  - exact demo_ok.
  - intros [|[|j]] c Hj Hc; simpl in *; [lia|done|done].
  - repeat constructor; vm_compute; intuition discriminate.
  - reflexivity.
  - vm_compute. intuition discriminate.
  - exact E.
Defined.
