(* ===== verification/Region.v ===== *)
(** * Region: the abstract specification of an arena with checkpoints

    A region is the list of the objects that are live, oldest first, and the list of
    the checkpoints its user holds, each with the number of objects that were live
    when it was taken.  Allocating appends an object, rewinding to a checkpoint keeps
    as many objects as it says and forgets the checkpoints taken after it, resetting
    forgets everything.  [RegionArena] is what an arena must do for its memory to
    hold such a region; [Region_rel] is the relation between the two, and the lemmas
    of this file show that every operation preserves it, for all implementations at
    once. *)
From S2P Require Import Prelude Memory Bump Chunk Slab ThreadLocal LockFree VirtualMemory Debug Inner InnerInv Objects Arena ArenaSafety ArenaCheckpoint.
Local Open Scope Z_scope.

(** ** The specification *)

(** A checkpoint: the value the arena returned, how many objects it keeps, and
    whether the arena holds it on its own stack. *)
Record Mark := mkMark { mk_cp : ArenaCheckpoint; mk_height : nat; mk_pushed : bool }.
Definition mk_view (m : Mark) : ArenaCheckpoint * nat := (mk_cp m, mk_height m).
Record Region := mkObjRegion { rg_live : list (Obj * Z); rg_marks : list Mark }.

Definition region_empty : Region := mkObjRegion [] [].
Definition region_alloc (o : Obj) (p : Z) (r : Region) : Region := mkObjRegion (rg_live r ++ [(o, p)]) (rg_marks r).
Definition region_mark (cp : ArenaCheckpoint) (pushed : bool) (r : Region) : Region :=
  mkObjRegion (rg_live r) (rg_marks r ++ [mkMark cp (length (rg_live r)) pushed]).
(** Rewinding to mark number [k] keeps the marks before it and [kept] of itself. *)
Definition region_rewind (k : nat) (m : Mark) (kept : list Mark) (r : Region) : Region :=
  mkObjRegion (take (mk_height m) (rg_live r)) (take k (rg_marks r) ++ kept).
Definition unpushed (m : Mark) : Mark := mkMark (mk_cp m) (mk_height m) false.

(** ** Programs *)

(** A call names a checkpoint by its number among those the program holds. *)
Inductive RegionCall :=
  | RAlloc (o : Obj)
  | RCheckpoint
  | RRewind (k : nat)
  | RPush
  | RPop
  | RClear
  | RReset
  | RShrink.
Inductive Reply := Address (p : Z) | Checkpoint (cp : ArenaCheckpoint) | Done | Panicked.

(** The newest checkpoint on the arena's stack, with its number. *)
Fixpoint last_pushed (ms : list Mark) : option (nat * Mark) :=
  match ms with
  | [] => None
  | m :: ms =>
      match last_pushed ms with
      | Some (k, x) => Some (S k, x)
      | None => if mk_pushed m then Some (0%nat, m) else None
      end
  end.

(** The reply to a call determines the next region; [None] if the specification does
    not allow it.  A new object has an aligned address of its own. *)
Definition address_ok (o : Obj) (p : Z) (live : list (Obj * Z)) : Prop :=
  p `mod` l_align (o_layout o) = 0 ∧ Forall (λ op, obj_range op ## obj_range (o, p)) live.
#[global] Instance address_ok_dec o p live : Decision (address_ok o p live).
Proof. unfold address_ok. apply _. Defined.

Definition region_next (c : RegionCall) (x : Reply) (r : Region) : option Region :=
  match c, x with
  | RAlloc o, Address p => guard (address_ok o p (rg_live r));; Some (region_alloc o p r)
  | RCheckpoint, Checkpoint cp => Some (region_mark cp false r)
  | RPush, Checkpoint cp => Some (region_mark cp true r)
  | RRewind k, Done => Some (match rg_marks r !! k with Some m => region_rewind k m [unpushed m] r | None => r end)
  | RPop, Done => '(k, m) ← last_pushed (rg_marks r); Some (region_rewind k m [] r)
  | RPop, Panicked => match last_pushed (rg_marks r) with None => Some r | Some _ => None end
  | RClear, Done => Some (mkObjRegion (rg_live r) (unpushed <$> rg_marks r))
  | RReset, Done | RShrink, Done => Some region_empty
  | _, _ => None
  end.

(** A program makes the calls one after the other on an arena with the methods
    [call]; a panic the specification allows is caught, any other ends it. *)
Fixpoint run_region {S} (call : Region → RegionCall → M S Reply) (calls : list RegionCall) (r : Region) : M S Region := λ s,
  match calls with
  | [] => (Ok r, s)
  | c :: calls =>
      match call r c s with
      | (Ok x, s') =>
          match region_next c x r with
          | Some r' => run_region call calls r' s'
          | None => (UB "a reply the specification does not allow", s')
          end
      | (Panic e, s') =>
          match region_next c Panicked r with
          | Some r' => run_region call calls r' s'
          | None => (Panic e, s')
          end
      | (Abort e, s') => (Abort e, s')
      | (UB e, s') => (UB e, s')
      end
  end.

(** If every call keeps [rel], with [n] more calls to come, or ends the program in a
    way and in a state that [ends] allows, so does the program. *)
Lemma run_region_rel {S} (call : Region → RegionCall → M S Reply) (rel : nat → Region → S → Prop) (ok : RegionCall → Prop)
    (ends : RegionCall → S → outcome unit → Prop) calls r s :
  (∀ n c r s, rel (Datatypes.S n) r s → ok c → ∃ x s', call r c s = (x, s') ∧
     match x with
     | Ok y => ∃ r', region_next c y r = Some r' ∧ rel n r' s'
     | Panic _ => (∃ r', region_next c Panicked r = Some r' ∧ rel n r' s') ∨ (region_next c Panicked r = None ∧ ends c s' (void x))
     | _ => ends c s' (void x)
     end) →
  Forall ok calls → rel (length calls) r s →
  ∃ x s', run_region call calls r s = (x, s') ∧
    match x with
    | Ok r' => rel 0%nat r' s'
    | _ => ∃ c, c ∈ calls ∧ ends c s' (void x)
    end.
Proof.
  intros Hstep Hcs. revert r s. induction Hcs as [|c calls Hc _ IH]; intros r s Hr; [by eexists _, s|].
  destruct (Hstep _ c r s Hr Hc) as (x & s1 & E & Hx).
  assert (∀ r', rel (length calls) r' s1 → ∃ x s', run_region call calls r' s1 = (x, s') ∧
    match x with Ok r' => rel 0%nat r' s' | _ => ∃ d, d ∈ c :: calls ∧ ends d s' (void x) end) as Hgo.
  { intros r' Hr'. destruct (IH r' s1 Hr') as (z & s2 & E2 & Hz). exists z, s2. split; [exact E2|].
    destruct z; try done; destruct Hz as (d & Hin & Hd); exists d; (split; [by constructor|exact Hd]). }
  assert (∀ o : outcome Region, ends c s1 (void o) → ∃ d, d ∈ c :: calls ∧ ends d s1 (void o)) as Hend
    by (intros o Ho; exists c; split; [constructor|done]).
  cbn [run_region]. rewrite E. destruct x as [y|e|e|e].
  - destruct Hx as (r' & -> & Hr'). by apply Hgo.
  - destruct Hx as [(r' & -> & Hr')|[-> Hx]]; [by apply Hgo|]. eexists _, s1. split; [reflexivity|]. by apply Hend.
  - eexists _, s1. split; [reflexivity|]. by apply Hend.
  - eexists _, s1. split; [reflexivity|]. by apply Hend.
Qed.

(** ** What the memory of an arena guarantees about a checkpoint *)

Definition lf_part (s : IW) (a : Z) : Prop :=
  ∃ b, in_lockfree_buffer (i_inner s) = Some b ∧ lf_buffer b ≠ 0 ∧ LF_avail (lf_state b (i_world s)) a.

(** The addresses an arena may hand out after rewinding to [cp]. *)
Definition avail_at (cp : ArenaCheckpoint) (s : IW) (a : Z) : Prop :=
  (∃ c, in_chunks (i_inner s) !! cp_chunk_index cp = Some c ∧ a ∈ Chunk_rest (Chunk_set_used (cp_chunk_offset cp) c)) ∨
  lf_part s a ∨ not_live (s_mem s) a.

(** [cp] is where the arena stands. *)
Definition cp_now (cp : ArenaCheckpoint) (s : IW) : Prop :=
  cp_chunk_index cp = in_current_chunk (i_inner s) ∧
  ∃ c, in_chunks (i_inner s) !! in_current_chunk (i_inner s) = Some c ∧ cp_chunk_offset cp = c_used c.

(** What rewinding does to the arena and to nothing else. *)
Record Rewound (cp : ArenaCheckpoint) (s s' : IW) : Prop := mkRewound {
  rw_wf : Inner_wf s';
  rw_chunks : in_chunks (i_inner s') = imap (rewind_chunk cp) (in_chunks (i_inner s));
  rw_current : in_current_chunk (i_inner s') = cp_chunk_index cp;
  rw_buffer : in_lockfree_buffer (i_inner s') = in_lockfree_buffer (i_inner s);
  rw_mem : s_mem s' = s_mem s;
  rw_slab : w_slab (i_world s') = w_slab (i_world s)
}.

(** Every checkpoint stays valid and keeps what it kept. *)
Definition Marks_kept (s s' : IW) : Prop :=
  ∀ cp, cp_valid cp (in_chunks (i_inner s)) →
    cp_valid cp (in_chunks (i_inner s')) ∧ ∀ a, avail_at cp s' a → avail_at cp s a.

(** Chunks keep their place and capacity. *)
Definition chunks_kept (s s' : IW) : Prop :=
  ∀ j c, in_chunks (i_inner s) !! j = Some c → ∃ c', in_chunks (i_inner s') !! j = Some c' ∧ same_chunk c c'.

Lemma marks_kept s s' :
  chunks_kept s s' → (∀ a, lf_part s' a → lf_part s a) → (∀ a, not_live (s_mem s') a → not_live (s_mem s) a) → Marks_kept s s'.
Proof.
  intros Hc Hl Hn cp (c & Hcp & Ho). destruct (Hc _ _ Hcp) as (c' & Hc' & Hp & Hcap).
  split; [exists c'; by rewrite Hcap|]. intros a [(d & Hd & Ha)|[Ha|Ha]]; [|by right; left; apply Hl|by right; right; apply Hn].
  left. exists c. split; [done|]. simplify_eq. unfold Chunk_rest, Chunk_set_used in *. simpl in *. by rewrite <- Hp, <- Hcap.
Qed.

(** The lock-free buffer only loses addresses in a step that does not replace it. *)
Lemma step_lf_part s s' a :
  Inner_wf s → Step s s' → in_lockfree_buffer (i_inner s') = in_lockfree_buffer (i_inner s) → lf_part s' a → lf_part s a.
Proof.
  intros Hw Hst Hb (b & Hb' & Hn & Ha). pose proof (lf_avail_range s' b a (step_wf _ _ Hst) Hb' Hn Ha) as Hr.
  rewrite Hb in Hb'. assert (Inner_avail s' a) as Hav by (right; left; exists b; by rewrite Hb).
  apply (step_avail _ _ Hst) in Hav as [(c & Hc & Hac)|[?|Hnl]]; [exfalso|done|exfalso].
  - pose proof Hw as (_ & _ & Hf & _). rewrite Forall_lookup in Hf. apply chunk_rest_range in Hac; [|by eapply Hf].
    exact (chunk_lf_disjoint s _ c b a Hw Hc Hb' Hn Hac Hr).
  - by eapply in_block_live; [eapply lf_live| |exact Hnl].
Qed.

Lemma step_marks_kept s s' : Inner_wf s → Step s s' → Grows (i_inner s) (i_inner s') → Marks_kept s s'.
Proof.
  intros Hw Hst Hg. apply marks_kept; [exact (g_prefix _ _ Hg)|by intros a; apply step_lf_part, (g_buffer _ _ Hg)|].
  intros a. destruct (step_heap _ _ Hst) as [new Hh]. unfold not_live. rewrite Hh. by intros [_ ?]%Forall_app.
Qed.

Lemma same_view_marks_kept s s' : same_view s s' → Marks_kept s s'.
Proof.
  intros [H1 H2 H3 H4]. apply marks_kept; unfold chunks_kept, lf_part, s_mem; rewrite ?H1, ?H3, ?H4; [|done|done].
  intros j c Hc. by exists c.
Qed.

Lemma rewound_marks_kept cp s s' : Rewound cp s s' → Marks_kept s s'.
Proof.
  intros [_ Hc _ Hb Hm Hs]. apply marks_kept.
  - intros j c Hj. rewrite Hc, list_lookup_imap, Hj. simpl. eexists. split; [reflexivity|]. unfold rewind_chunk.
    destruct (Nat.ltb _ _); [done|]. by destruct (Nat.eqb _ _).
  - unfold lf_part, lf_state. unfold s_mem in Hm. by rewrite Hb, Hm, Hs.
  - by rewrite Hm.
Qed.

(** What is available after rewinding is what the checkpoint says. *)
Lemma rewound_avail cp s s' a : cp_valid cp (in_chunks (i_inner s)) → Rewound cp s s' → Inner_avail s' a → avail_at cp s a.
Proof.
  intros (c & Hc & _) [_ Hcs Hcur Hb Hm Hs] [(d & Hd & Ha)|[Ha|Ha]].
  - left. exists c. split; [done|]. rewrite Hcs, Hcur, list_lookup_imap, Hc in Hd. simpl in Hd. unfold rewind_chunk in Hd.
    rewrite Nat.ltb_irrefl, Nat.eqb_refl in Hd. by injection Hd as <-.
  - right. left. unfold lf_part, lf_state in *. unfold s_mem in Hm. by rewrite Hb, Hm, Hs in Ha.
  - right. right. rewrite <- Hm. exact Ha.
Qed.

(** A checkpoint of the current place keeps everything that was handed out. *)
Lemma cp_now_avail cp s a : cp_now cp s → avail_at cp s a → Inner_avail s a.
Proof.
  intros [Hi (c & Hc & Ho)] [(d & Hd & Ha)|Ha]; [|by right]. left. exists c. split; [done|].
  rewrite Hi, Hc in Hd. injection Hd as <-. rewrite Ho in Ha. by destruct c.
Qed.

Lemma cp_now_valid cp s : Inner_wf s → cp_now cp s → cp_valid cp (in_chunks (i_inner s)).
Proof.
  intros (_ & _ & Hf & _) [Hi (c & Hc & Ho)]. exists c. rewrite Hi, Ho. split; [done|].
  rewrite Forall_lookup in Hf. by destruct (Hf _ _ Hc) as (_&_&_&_&_&?).
Qed.

(** ** The relation between an arena and the region it implements *)
Definition mark_ok (live : list (Obj * Z)) (s : IW) (m : Mark) : Prop :=
  cp_valid (mk_cp m) (in_chunks (i_inner s)) ∧ (mk_height m ≤ length live)%nat ∧
  Forall (λ op, ∀ a, a ∈ obj_range op → ¬ avail_at (mk_cp m) s a) (take (mk_height m) live).

Definition heights_sorted (marks : list Mark) : Prop :=
  ∀ i j m m', (i ≤ j)%nat → marks !! i = Some m → marks !! j = Some m' → (mk_height m ≤ mk_height m')%nat.

(** The live objects hold their values in disjoint memory that the arena will not
    hand out again; each checkpoint keeps the objects it counts. *)
Record Region_rel (r : Region) (s : IW) : Prop := mkRegionRel {
  rel_wf : Inner_wf s;
  rel_disjoint : pw_disjoint (obj_range <$> rg_live r);
  rel_stored : Forall (obj_stored (s_mem s)) (rg_live r);
  rel_sized : Forall (λ op, Z.of_nat (length (o_value op.1)) = l_size (o_layout op.1)) (rg_live r);
  rel_taken : Forall (λ op, ∀ a, a ∈ obj_range op → ¬ Inner_avail s a) (rg_live r);
  rel_marks : Forall (mark_ok (rg_live r) s) (rg_marks r);
  rel_sorted : heights_sorted (rg_marks r)
}.

Lemma region_empty_rel s : Inner_wf s → Region_rel region_empty s.
Proof. intros. split; simpl; [done|done|constructor..|]. by intros i j m m' _ Hi. Qed.

Lemma heights_sorted_sub f marks marks' :
  heights_sorted marks → (∀ i m, marks' !! i = Some m → ∃ m0, marks !! f i = Some m0 ∧ mk_height m = mk_height m0) →
  (∀ i j, (i ≤ j < length marks')%nat → (f i ≤ f j)%nat) → heights_sorted marks'.
Proof.
  intros Hs Hf Hm i j m m' Hij Hi Hj. destruct (Hf _ _ Hi) as (x & Hx & ->), (Hf _ _ Hj) as (y & Hy & ->).
  eapply Hs; [|exact Hx|exact Hy]. apply Hm. split; [done|]. by eapply lookup_lt_Some.
Qed.

Lemma heights_sorted_snoc marks m :
  heights_sorted marks → (∀ m', m' ∈ marks → (mk_height m' ≤ mk_height m)%nat) → heights_sorted (marks ++ [m]).
Proof.
  intros Hs Hm i j x y Hij Hi Hj. pose proof (lookup_lt_Some _ _ _ Hj) as Hlt. rewrite length_app in Hlt. simpl in Hlt.
  destruct (decide (j = length marks)) as [->|].
  - rewrite list_lookup_middle in Hj by done. injection Hj as <-. apply lookup_snoc_Some in Hi as [[_ Hi]|[_ ->]]; [|done].
    apply Hm. by eapply list_elem_of_lookup_2.
  - rewrite lookup_app_l in Hi, Hj by lia. by apply (Hs i j).
Qed.

(** Marks only need their objects and the addresses they keep. *)
Lemma mark_ok_kept live live' s s' m :
  Marks_kept s s' → (∀ n, (n ≤ length live)%nat → take n live' = take n live) → (length live ≤ length live')%nat →
  mark_ok live s m → mark_ok live' s' m.
Proof.
  intros Hk Ht Hlen (Hv & Hh & Hp). destruct (Hk _ Hv) as [Hv' Ha]. split; [done|]. split; [lia|].
  rewrite Ht by done. eapply Forall_impl; [exact Hp|]. intros op Hop a Hin Hav. by apply (Hop a Hin), Ha.
Qed.

(** ** What an arena does to implement regions *)
Class RegionArena {S} (view : S → IW) (alloc : Obj → M S Z) (valid : Obj → Prop) (fails : Obj → S → outcome unit → Prop)
    (checkpoint : M S ArenaCheckpoint) (rewind : ArenaCheckpoint → M S unit) (empties : M S unit → Prop) : Prop := {
  ra_alloc :: ArenaAlloc view alloc valid fails;
  ra_grows o s p s' : Inner_wf (view s) → valid o → alloc o s = (Ok p, s') → Grows (i_inner (view s)) (i_inner (view s'));
  ra_checkpoint s : Inner_wf (view s) →
    ∃ r s', checkpoint s = (r, s') ∧
      match r with
      | Ok cp => same_view (view s) (view s') ∧ cp_now cp (view s)
      | Panic _ => s' = s
      | _ => False
      end;
  ra_rewind cp s : Inner_wf (view s) → cp_valid cp (in_chunks (i_inner (view s))) →
    ∃ s', rewind cp s = (Ok tt, s') ∧ Rewound cp (view s) (view s');
  ra_empty m s : empties m → Inner_wf (view s) → ∃ s', m s = (Ok tt, s') ∧ Inner_wf (view s')
}.

(** The address of a new object is one the specification allows. *)
Lemma region_alloc_allowed o p r s :
  Region_rel (region_alloc o p r) s → region_next (RAlloc o) (Address p) r = Some (region_alloc o p r).
Proof.
  intros [_ Hd Hst _ _ _ _]. cbn [region_alloc rg_live] in Hd, Hst. rewrite fmap_app, pw_disjoint_app in Hd. destruct Hd as (_ & _ & Hd).
  apply Forall_app in Hst as [_ Hst]. rewrite Forall_singleton in Hst. destruct Hst as [_ Hal]. cbn [region_next].
  rewrite option_guard_True; [done|]. split; [exact Hal|]. rewrite Forall_fmap in Hd. eapply Forall_impl; [exact Hd|].
  intros op Hop. exact (Forall_inv Hop).
Qed.

Section region.
Context {S : Type} {view : S → IW} {alloc : Obj → M S Z} {valid : Obj → Prop} {fails : Obj → S → outcome unit → Prop}.
Context {checkpoint : M S ArenaCheckpoint} {rewind : ArenaCheckpoint → M S unit} {empties : M S unit → Prop}.
Context `{!RegionArena view alloc valid fails checkpoint rewind empties}.

Lemma region_alloc_step o r s :
  Region_rel r (view s) → valid o →
  ∃ x s', alloc o s = (x, s') ∧
    match x with
    | Ok p => Region_rel (region_alloc o p r) (view s')
    | _ => Step (view s) (view s') ∧ fails o s' (void x)
    end.
Proof.
  intros [Hw Hd Hs Hz Ht Hm Hso] Ho. destruct (alloc_law o s Hw Ho) as (x & s' & E & Hx). exists x, s'. split; [exact E|].
  destruct x as [p|e|e|e]; [|done..]. destruct Hx as (Hst & Hf & Hsto). pose proof (ra_grows o s p s' Hw Ho E) as Hg.
  pose proof (fresh_avail _ _ _ _ Hf) as Hav. split; cbn [rg_live rg_marks region_alloc].
  - exact (step_wf _ _ Hst).
  - rewrite fmap_app, pw_disjoint_app. split; [done|]. split; [done|]. apply Forall_fmap. eapply Forall_impl; [exact Ht|].
    intros op Hop. apply Forall_singleton, range_disjoint_spec. intros a Ha Hb. by apply (Hop a Ha), (Hav a).
  - apply Forall_app_2; [|by apply Forall_singleton]. rewrite Forall_forall in *. intros op Hin.
    apply (obj_stored_step _ _ _ Hst); [by apply Hs|]. rewrite (Hz op Hin). intros a. by apply Ht.
  - apply Forall_app_2; [done|]. by apply Forall_singleton, alloc_size.
  - apply Forall_app_2; [|apply Forall_singleton; intros a Ha; by apply (Hav a)]. eapply Forall_impl; [exact Ht|].
    intros op Hop a Ha Ha'. by apply (Hop a Ha), (step_avail _ _ Hst).
  - eapply Forall_impl; [exact Hm|]. intros m. apply mark_ok_kept; [by apply step_marks_kept|intros n Hn; by apply take_app_le|].
    rewrite length_app. lia.
  - done.
Qed.

(** The view changes in nothing that matters. *)
Lemma region_same_view r s s' : same_view s s' → Region_rel r s → Region_rel r s'.
Proof.
  intros Hv [Hw Hd Hs Hz Ht Hm Hso]. split; try done.
  - by eapply same_view_wf.
  - unfold s_mem. by rewrite (sv_world _ _ Hv).
  - eapply Forall_impl; [exact Ht|]. intros op Hop a Ha. by rewrite (same_view_avail _ _ _ Hv); apply Hop.
  - eapply Forall_impl; [exact Hm|]. intros m. by apply mark_ok_kept; [apply same_view_marks_kept| |].
Qed.

(** Whether a mark is pushed does not matter to the memory. *)
Lemma region_same_marks r marks s :
  mk_view <$> marks = mk_view <$> rg_marks r → Region_rel r s → Region_rel (mkObjRegion (rg_live r) marks) s.
Proof.
  intros E [Hw Hd Hs Hz Ht Hm Hso].
  assert (∀ i x, marks !! i = Some x → ∃ x0, rg_marks r !! i = Some x0 ∧ mk_view x = mk_view x0) as Hsub.
  { intros i x Hi. apply (f_equal (.!! i)) in E. rewrite !list_lookup_fmap, Hi in E. symmetry in E. apply fmap_Some in E as (x0 & ? & ?). by exists x0. }
  split; try done; cbn [rg_live rg_marks].
  - apply Forall_lookup. intros i x (x0 & Hi & [= Hc Hh])%Hsub. rewrite Forall_lookup in Hm. unfold mark_ok. rewrite Hc, Hh. by apply (Hm i).
  - apply (heights_sorted_sub (λ i, i) (rg_marks r)); [done| |lia]. intros i x (x0 & ? & [= ? ?])%Hsub. by exists x0.
Qed.

Lemma region_mark_rel cp pushed r s : Region_rel r s → cp_now cp s → Region_rel (region_mark cp pushed r) s.
Proof.
  intros [Hw Hd Hs Hz Ht Hm Hso] Hcp. split; try done; cbn [rg_live rg_marks region_mark].
  - apply Forall_app_2; [done|]. apply Forall_singleton. split; [by apply cp_now_valid|]. cbn [mk_height mk_cp]. split; [done|].
    rewrite firstn_all. eapply Forall_impl; [exact Ht|]. intros op Hop a Ha Hav. by apply (Hop a Ha), (cp_now_avail cp).
  - apply heights_sorted_snoc; [done|]. rewrite Forall_forall in Hm. intros m Hin. by destruct (Hm m Hin) as (_ & ? & _).
Qed.

Lemma region_checkpoint_step pushed r s :
  Region_rel r (view s) →
  ∃ x s', checkpoint s = (x, s') ∧
    match x with
    | Ok cp => Region_rel (region_mark cp pushed r) (view s') ∧ same_view (view s) (view s')
    | Panic _ => s' = s
    | _ => False
    end.
Proof.
  intros Hr. destruct (ra_checkpoint s (rel_wf _ _ Hr)) as (x & s' & E & Hx). exists x, s'. split; [exact E|].
  destruct x as [cp|e|e|e]; [|done..]. destruct Hx as [Hv Hcp]. split; [|done]. by eapply region_same_view, region_mark_rel.
Qed.

Lemma take_heights r m n :
  (mk_height m ≤ length (rg_live r))%nat → (n ≤ mk_height m)%nat →
  take n (take (mk_height m) (rg_live r)) = take n (rg_live r).
Proof. intros. rewrite take_take. f_equal. lia. Qed.

(** [kept] is the mark itself, pushed or not, or nothing. *)
Lemma region_rewound r k m kept s s' :
  Region_rel r s → rg_marks r !! k = Some m → Rewound (mk_cp m) s s' → (kept = [] ∨ kept = [unpushed m]) →
  Region_rel (region_rewind k m kept r) s'.
Proof.
  intros [Hw Hd Hs Hz Ht Hm Hso] Hk Hrw Hkept. rewrite Forall_forall in Hm.
  destruct (Hm m) as (Hv & Hh & Hp); [by eapply list_elem_of_lookup_2|].
  assert (∀ i x, (take k (rg_marks r) ++ kept) !! i = Some x →
            ∃ x0, rg_marks r !! i = Some x0 ∧ mk_height x = mk_height x0 ∧ mk_cp x = mk_cp x0 ∧ (i ≤ k)%nat) as Hsub.
  { pose proof (lookup_lt_Some _ _ _ Hk). intros i x [Hi|[Hi Hx]]%lookup_app_Some.
    - apply lookup_take_Some in Hi as [Hi ?]. exists x. splits; [done|done|done|lia].
    - rewrite length_take, Nat.min_l in Hi, Hx by lia. destruct Hkept as [->| ->]; [done|].
      destruct (i - k)%nat as [|n] eqn:En; [|done]. injection Hx as <-. assert (i = k) as -> by lia. by exists m. }
  split; cbn [rg_live rg_marks region_rewind].
  - exact (rw_wf _ _ _ Hrw).
  - rewrite fmap_take. eapply pw_disjoint_submseteq; [|exact Hd]. apply sublist_submseteq, sublist_take.
  - apply Forall_take. by rewrite (rw_mem _ _ _ Hrw).
  - by apply Forall_take.
  - eapply Forall_impl; [exact Hp|]. intros op Hop a Ha Hav. apply (Hop a Ha). by eapply rewound_avail.
  - apply Forall_lookup. intros i x (x0 & Hx0 & Hhx & Hcx & Hi)%Hsub. pose proof (Hso i k x0 m Hi Hx0 Hk) as Hle.
    destruct (Hm x0) as (Hv0 & Hh0 & Hp0); [by eapply list_elem_of_lookup_2|].
    unfold mark_ok. rewrite Hhx, Hcx. destruct (rewound_marks_kept _ _ _ Hrw _ Hv0) as [Hv' Ha']. split; [done|].
    split; [rewrite length_take; lia|]. rewrite take_heights by done. eapply Forall_impl; [exact Hp0|].
    intros op Hop a Ha Hav. by apply (Hop a Ha), Ha'.
  - apply (heights_sorted_sub (λ i, i) (rg_marks r)); [done| |lia]. intros i x (x0 & ? & ? & _)%Hsub. by exists x0.
Qed.

Lemma region_rewind_step r k m kept s :
  Region_rel r (view s) → rg_marks r !! k = Some m → (kept = [] ∨ kept = [unpushed m]) →
  ∃ s', rewind (mk_cp m) s = (Ok tt, s') ∧ Region_rel (region_rewind k m kept r) (view s').
Proof.
  intros Hr Hk Hkept. pose proof (rel_marks _ _ Hr) as Hm. rewrite Forall_lookup in Hm. destruct (Hm k m Hk) as (Hv & _).
  destruct (ra_rewind (mk_cp m) s (rel_wf _ _ Hr) Hv) as (s' & E & Hrw). exists s'. split; [exact E|]. by eapply region_rewound.
Qed.

Lemma region_empty_step m r s :
  empties m → Region_rel r (view s) → ∃ s', m s = (Ok tt, s') ∧ Region_rel region_empty (view s').
Proof.
  intros He Hr. destruct (ra_empty m s He (rel_wf _ _ Hr)) as (s' & E & Hw). exists s'. split; [exact E|]. by apply region_empty_rel.
Qed.
End region.
