(* ===== verification/BufferFrame.v ===== *)
(** * BufferFrame: the block of an arena's lock-free buffer

    No operation moves or resizes the lock-free buffer of an arena, and allocating in
    it leaves the chunks and the memory alone: two more applications of the frame rule
    [Keeps]. *)
From S2P Require Import Prelude Keeps Memory Bump Chunk Slab ThreadLocal LockFree VirtualMemory Debug Inner Arena.
Local Open Scope Z_scope.

(** Where the buffer lies. *)
Definition lf_id (o : option LockFreeBuffer) : option (Z * Z) := (λ b, (lf_buffer b, lf_capacity b)) <$> o.

(** A state that is read, and known to satisfy the property. *)
Lemma Keeps_get_bind {S A} (P : S → Prop) (f : S → M S A) : (∀ s, P s → Keeps P (f s)) → Keeps P (get ≫= f).
Proof. intros Hf s Hs. exact (Hf s Hs s Hs). Qed.
Lemma Keeps_gets_bind {S A B} (P : S → Prop) (g : S → B) (f : B → M S A) : (∀ s, P s → Keeps P (f (g s))) → Keeps P (gets g ≫= f).
Proof. intros Hf s Hs. exact (Hf s Hs s Hs). Qed.

(** ** The operations of the buffer *)
Section buffer.
Context `{cfg : Cfg} (p c : Z).
Definition lf_at (x : LF) : Prop := lf_buffer (x_buf x) = p ∧ lf_capacity (x_buf x) = c.

Section memory.
Context (m : Mem).
Definition lf_in (x : LF) : Prop := lf_at x ∧ x_mem x = m.
#[local] Hint Extern 1 (Keeps lf_in (on_buf _)) => (apply Keeps_modify; intros [[] ? ?] ?; assumption) : typeclass_instances.
#[local] Hint Extern 1 (Keeps lf_in (set_slab _)) => (apply Keeps_modify; intros [[] ? ?] ?; assumption) : typeclass_instances.
#[local] Instance lf_in_refill env q n size align : Keeps lf_in (LockFreeBuffer_refill_loop env q n size align).
Proof. induction env; simpl; apply _. Qed.
#[export] Instance lf_in_try_alloc env size align : Keeps lf_in (LockFreeBuffer_try_alloc env size align).
Proof. unfold LockFreeBuffer_try_alloc, LockFreeBuffer_try_thread_slab, LockFreeBuffer_refill_thread_slab_and_alloc. apply _. Qed.
End memory.

(** A reset writes in the buffer only. *)
Definition in_buffer (x : Z) : Prop := p ≠ 0 ∧ x ∈ mkRange p c.
Section reset.
Context (h : list Block) (bs : gmap Z Z).
Definition lf_off (x : LF) : Prop := lf_at x ∧ heap (x_mem x) = h ∧ ∀ a, ¬ in_buffer a → bytes (x_mem x) !! a = bs !! a.
#[local] Hint Extern 1 (Keeps lf_off (on_buf _)) => (apply Keeps_modify; intros [[] ? ?] ?; assumption) : typeclass_instances.
#[local] Hint Extern 1 (Keeps lf_off (set_slab _)) => (apply Keeps_modify; intros [[] ? ?] ?; assumption) : typeclass_instances.
#[export] Instance lf_off_reset : Keeps lf_off LockFreeBuffer_reset.
Proof.
  unfold LockFreeBuffer_reset. apply Keeps_bind; [apply _|]. intros _. apply Keeps_gets_bind. intros x [[Hp Hc] _].
  apply Keeps_bind; [apply _|]. intros g. apply Keeps_bind; [apply _|]. intros _. apply Keeps_bind; [|intros _; apply _].
  destruct (Z.eqb_spec (lf_buffer (x_buf x)) 0) as [|Hn]; [apply _|]. apply Keeps_modify. intros [b s' m] (Hat & Hh & Hb). split; [done|]. split; [done|].
  intros a Ha. simpl. rewrite lookup_write_bytes, decide_False; [by apply Hb|]. rewrite length_replicate, Hp, Hc. intros Hin. apply Ha.
  split; [congruence|]. range_solve.
Qed.
End reset.
End buffer.

(** ** The operations of the arena *)
Section arena.
Context `{cfg : Cfg} `{ga : GlobalAlloc} (bt : string) (k : option (Z * Z)).

Definition buffer_iw (s : IW) : Prop := lf_id (in_lockfree_buffer (i_inner s)) = k.
Definition buffer_aw (s : AW) : Prop := lf_id (in_lockfree_buffer (a_inner (a_arena s))) = k.

Lemma buffer_with_lockfree {A} b (m : M LF A) :
  lf_id (Some b) = k → (∀ p c, Keeps (lf_at p c) m) → Keeps buffer_iw (with_lockfree b m).
Proof.
  intros Hb Hm s _. unfold with_lockfree. pose proof (Hm (lf_buffer b) (lf_capacity b) (mkLF b (w_slab (i_world s)) (w_mem (i_world s))) (conj eq_refl eq_refl)) as H.
  destruct (m _) as [o x]. destruct H as [H1 H2]. unfold buffer_iw, lf_id. simpl in *. by rewrite H1, H2.
Qed.
#[local] Instance at_try_alloc p c env size align : Keeps (lf_at p c) (LockFreeBuffer_try_alloc env size align).
Proof. intros x Hx. exact (proj1 (lf_in_try_alloc p c (x_mem x) env size align x (conj Hx eq_refl))). Qed.
#[local] Instance at_reset p c : Keeps (lf_at p c) LockFreeBuffer_reset.
Proof. intros x Hx. exact (proj1 (lf_off_reset p c (heap (x_mem x)) (bytes (x_mem x)) x (conj Hx (conj eq_refl (λ _ _, eq_refl))))). Qed.

(** *** core.rs *)
#[local] Hint Extern 1 (Keeps buffer_iw (on_inner _)) => (apply Keeps_modify; intros [[[|??]] ?] ?; assumption) : typeclass_instances.
#[local] Instance buffer_in_world {A} (m : M World A) : Keeps buffer_iw (in_world m).
Proof. by apply Keeps_zoom_other. Qed.
#[local] Instance buffer_stats f : Keeps buffer_iw (stats_update f).
Proof. unfold stats_update. apply _. Qed.
#[local] Instance buffer_allocate l : Keeps buffer_iw (ArenaInner_allocate l).
Proof. unfold ArenaInner_allocate. apply _. Qed.
#[local] Instance buffer_add_chunk cap : Keeps buffer_iw (ArenaInner_add_chunk cap).
Proof. unfold ArenaInner_add_chunk. apply _. Qed.

(** *** arena.rs *)
#[local] Instance buffer_with_inner {A} (m : M IW A) : Keeps buffer_iw m → Keeps buffer_aw (with_inner m).
Proof. by apply Keeps_zoom. Qed.
#[local] Instance buffer_a_world {A} (m : M World A) : Keeps buffer_aw (a_on_world m).
Proof. by apply Keeps_zoom_other. Qed.
#[export] Instance buffer_a_mem {A} (m : M Mem A) : Keeps buffer_aw (a_on_mem m).
Proof. unfold a_on_mem. apply _. Qed.
#[local] Instance buffer_lf_stats f : Keeps buffer_aw (on_lockfree_stats f).
Proof. by apply Keeps_modify. Qed.
#[local] Instance buffer_guard_wrap q size : Keeps buffer_aw (guard_wrap bt q size).
Proof. unfold guard_wrap. apply _. Qed.
#[local] Instance buffer_alloc_lockfree size align : Keeps buffer_aw (alloc_lockfree bt size align).
Proof.
  unfold alloc_lockfree. apply Keeps_if; [|apply _]. apply Keeps_if; [|apply _]. apply Keeps_get_bind. intros s Hs.
  unfold buffer_aw in Hs. destruct (in_lockfree_buffer _) as [b|]; [|apply _]. apply Keeps_bind; [|apply _].
  apply buffer_with_inner, buffer_with_lockfree; [done|apply _].
Qed.
#[export] Instance buffer_raw l : Keeps buffer_aw (Arena_allocate_raw bt l).
Proof. unfold Arena_allocate_raw, alloc_thread_local, alloc_regular, alloc_new_chunk. apply _. Qed.
#[export] Instance buffer_alloc t value : Keeps buffer_aw (Arena_alloc bt t value).
Proof. unfold Arena_alloc. apply _. Qed.
#[export] Instance buffer_slice_copy t len data : Keeps buffer_aw (Arena_alloc_slice_copy bt t len data).
Proof. unfold Arena_alloc_slice_copy. apply _. Qed.
#[export] Instance buffer_slice_uninit t len : Keeps buffer_aw (Arena_alloc_slice_uninit bt t len).
Proof. unfold Arena_alloc_slice_uninit. apply _. Qed.
#[export] Instance buffer_shrink : Keeps buffer_aw Arena_reset_and_shrink_to_fit.
Proof. unfold Arena_reset_and_shrink_to_fit. apply _. Qed.
End arena.

(** ** Allocating in the buffer, without debug guards *)
Section calm.
Context `{cfg : Cfg} `{ga : GlobalAlloc} (bt : string) (cs : list Chunk) (m : Mem).
Hypothesis (Hdb : feat_debug = false).

Definition calm_iw (s : IW) : Prop := in_chunks (i_inner s) = cs ∧ w_mem (i_world s) = m.
Definition calm_aw (s : AW) : Prop := in_chunks (a_inner (a_arena s)) = cs ∧ w_mem (a_world s) = m.
#[local] Hint Extern 1 (Keeps calm_iw (on_inner _)) => (apply Keeps_modify; intros [[] ?] ?; assumption) : typeclass_instances.
#[local] Instance calm_stats f : Keeps calm_iw (stats_update f).
Proof. unfold stats_update. apply _. Qed.
#[local] Instance calm_try_alloc b env size align : Keeps calm_iw (with_lockfree b (LockFreeBuffer_try_alloc env size align)).
Proof.
  intros s [Hc Hm]. unfold with_lockfree. pose proof (lf_in_try_alloc (lf_buffer b) (lf_capacity b) m env size align (mkLF b (w_slab (i_world s)) (w_mem (i_world s)))) as H.
  destruct (LockFreeBuffer_try_alloc _ _ _ _) as [o x]. split; [done|]. apply H. by split.
Qed.
#[local] Instance calm_with_inner {A} (n : M IW A) : Keeps calm_iw n → Keeps calm_aw (with_inner n).
Proof. by apply Keeps_zoom. Qed.
#[local] Instance calm_lf_stats f : Keeps calm_aw (on_lockfree_stats f).
Proof. by apply Keeps_modify. Qed.
Lemma calm_alloc_lockfree size align : Keeps calm_aw (alloc_lockfree bt size align).
Proof. unfold alloc_lockfree, guard_wrap. rewrite Hdb. apply _. Qed.
End calm.

(** The rule, for a call that was seen to end. *)
Lemma kept_buffer {A} (m : M AW A) s o s' :
  (∀ k, Keeps (buffer_aw k) m) → m s = (o, s') → lf_id (in_lockfree_buffer (a_inner (a_arena s'))) = lf_id (in_lockfree_buffer (a_inner (a_arena s))).
Proof. intros Hm E. pose proof (Hm _ s eq_refl) as H. by rewrite E in H. Qed.
Lemma lf_id_None o : lf_id o = None ↔ o = None.
Proof. by destruct o. Qed.
