(* ===== verification/ArenaFrames.v ===== *)
(** * ArenaFrames: nested checkpoints

    Programs that allocate and open frames, by [push_checkpoint] and
    [pop_and_rewind] or by [scope], nested in any way.  Such a program is itself a
    step that only makes the arena grow, so frames compose: whatever happens
    inside a frame, closing it restores the arena and the checkpoint stack. *)
From S2P Require Import Prelude Memory Bump Chunk Slab ThreadLocal LockFree VirtualMemory Debug Inner InnerInv Objects Arena ArenaSafety ArenaCheckpoint.
Local Open Scope Z_scope.

Inductive Prog :=
  | PNil
  | PAlloc (o : Obj) (p : Prog)
  | PFrame (body p : Prog)
  | PScope (body p : Prog).

Definition in_frame `{Cfg} (m : M AW unit) : M AW unit :=
  _ ← Arena_push_checkpoint; _ ← m; _ ← Arena_pop_and_rewind; mret tt.
Definition in_scope `{Cfg} (m : M AW unit) : M AW unit := Arena_scope (λ _, m).

Fixpoint run_prog `{Cfg} `{GlobalAlloc} (bt : string) (p : Prog) : M AW unit :=
  match p with
  | PNil => mret tt
  | PAlloc o p => _ ← Arena_obj bt o; run_prog bt p
  | PFrame body p => _ ← in_frame (run_prog bt body); run_prog bt p
  | PScope body p => _ ← in_scope (run_prog bt body); run_prog bt p
  end.

Fixpoint Prog_ok `{Cfg} (p : Prog) : Prop :=
  match p with
  | PNil => True
  | PAlloc o p => Obj_ok o ∧ Prog_ok p
  | PFrame body p | PScope body p => Prog_ok body ∧ Prog_ok p
  end.

(** The values a program allocates, and the checkpoints it takes. *)
Fixpoint objs_of (p : Prog) : list Obj :=
  match p with
  | PNil => []
  | PAlloc o p => o :: objs_of p
  | PFrame body p | PScope body p => objs_of body ++ objs_of p
  end.

Fixpoint frames_of (p : Prog) : Z :=
  match p with
  | PNil => 0
  | PAlloc _ p => frames_of p
  | PFrame body p | PScope body p => 1 + frames_of body + frames_of p
  end.

Lemma frames_of_nonneg p : 0 ≤ frames_of p.
Proof. induction p; simpl; lia. Qed.

(** The identifiers on the stack are older than the next one. *)
Definition stack_ok (i : ArenaInner) : Prop :=
  Forall (λ cp, cp_checkpoint_id cp < in_current_checkpoint_id i) (in_checkpoints i) ∧ 0 ≤ in_current_checkpoint_id i.

(** What a balanced program does to the arena it runs in; [n] bounds the
    checkpoints it takes. *)
Record Balanced (n : Z) (s s' : AW) : Prop := mkBalanced {
  bl_step : Step (iw s) (iw s');
  bl_grows : Grows (a_inner (a_arena s)) (a_inner (a_arena s'));
  bl_tail : tail_unused (a_inner (a_arena s'));
  bl_id : in_current_checkpoint_id (a_inner (a_arena s)) ≤ in_current_checkpoint_id (a_inner (a_arena s'))
          ≤ in_current_checkpoint_id (a_inner (a_arena s)) + n
}.

Lemma Balanced_refl s : Arena_ok s → tail_unused (a_inner (a_arena s)) → Balanced 0 s s.
Proof. intros. split; [by apply Step_refl|apply Grows_refl|done|lia]. Qed.

Lemma Balanced_trans n1 n2 s1 s2 s3 : Balanced n1 s1 s2 → Balanced n2 s2 s3 → Balanced (n1 + n2) s1 s3.
Proof. intros [] []. split; [by eapply Step_trans|by eapply Grows_trans|done|lia]. Qed.

Lemma Balanced_stack n s s' : Balanced n s s' → stack_ok (a_inner (a_arena s)) → stack_ok (a_inner (a_arena s')).
Proof.
  intros [_ Hg _ Hid] [Hs H0]. split; [|lia]. rewrite (g_stack _ _ Hg). eapply Forall_impl; [exact Hs|]. simpl. intros; lia.
Qed.

Section frames.
Context `{cfg : Cfg} {ga : GlobalAlloc} `{!GlobalAllocOk ga} (bt : string).
Hypothesis (Hlf : feat_lockfree = false) (Hdb : feat_debug = false).

(** ** Opening a frame *)
Lemma checkpoint_run s :
  Arena_ok s → 0 ≤ in_current_checkpoint_id (a_inner (a_arena s)) < USIZE_MAX →
  ∃ cp s1, Arena_checkpoint s = (Ok cp, s1) ∧ cp_of s cp ∧
    cp_checkpoint_id cp = in_current_checkpoint_id (a_inner (a_arena s)) ∧ a_world s1 = a_world s ∧
    a_inner (a_arena s1) = set_checkpoint_id (in_current_checkpoint_id (a_inner (a_arena s)) + 1) (a_inner (a_arena s)).
Proof.
  intros Hok Hid. destruct (current_chunk (iw s) Hok) as (c & Hc & _). pose proof Hok as (_ & _ & _ & Hlt & _).
  unfold Arena_checkpoint, ArenaInner_checkpoint, with_inner, on_inner. mrun. unfold iw in *. simpl in *.
  rewrite clamped_current by done. unfold vec_index. rewrite Hc, usize_add_in by ulia. mrun.
  eexists _, _. split; [reflexivity|]. splits; try done. split; [by exists c|]. split; [done|]. by intros ->.
Qed.

Lemma push_run s :
  Arena_ok s → 0 ≤ in_current_checkpoint_id (a_inner (a_arena s)) < USIZE_MAX →
  ∃ cp s1, Arena_push_checkpoint s = (Ok cp, s1) ∧ cp_of s cp ∧
    cp_checkpoint_id cp = in_current_checkpoint_id (a_inner (a_arena s)) ∧ a_world s1 = a_world s ∧
    a_inner (a_arena s1) = set_checkpoints (vec_push cp (in_checkpoints (a_inner (a_arena s))))
      (set_checkpoint_id (in_current_checkpoint_id (a_inner (a_arena s)) + 1) (a_inner (a_arena s))).
Proof.
  intros Hok Hid. destruct (checkpoint_run s Hok Hid) as (cp & s1 & E & Hcp & Hi & Hw & Hin). exists cp.
  apply with_inner_inv in E. unfold Arena_push_checkpoint, ArenaInner_push_checkpoint, with_inner, on_inner. mrun. fold (iw s).
  rewrite E. mrun. eexists. split; [reflexivity|]. simpl. splits; try done. by rewrite Hin.
Qed.

(** A step sees neither the identifiers nor the stack. *)
Lemma cp_view_step s s1 :
  Arena_ok s → a_world s1 = a_world s →
  (∃ n stk, a_inner (a_arena s1) = set_checkpoints stk (set_checkpoint_id n (a_inner (a_arena s)))) → Step (iw s) (iw s1).
Proof. intros Hok Hw (n & stk & Hi). unfold iw. rewrite Hi, Hw. apply same_view_step; [by constructor|exact Hok]. Qed.

(** ** Closing a frame *)
Lemma Restored_step s s2 s3 : Restored s s2 s3 → Step (iw s) (iw s2) → Step (iw s) (iw s3).
Proof.
  intros [Hok _ _ Hav Hm _] [_ _ Hh Hb]. unfold s_mem, iw in *. simpl in *.
  split; [exact Hok|exact Hav| |]; unfold s_mem; simpl; rewrite Hm; [exact Hh|exact Hb].
Qed.

Lemma Restored_grows s s2 s3 :
  Restored s s2 s3 → in_virtual_region (a_inner (a_arena s3)) = in_virtual_region (a_inner (a_arena s)) →
  in_lockfree_buffer (a_inner (a_arena s3)) = in_lockfree_buffer (a_inner (a_arena s)) →
  in_checkpoints (a_inner (a_arena s3)) = in_checkpoints (a_inner (a_arena s)) →
  Grows (a_inner (a_arena s)) (a_inner (a_arena s3)).
Proof.
  intros [_ (extra & Hcs & _) Hcur _ _ _] Hr Hb Hs. split; [| |by left|done..].
  - intros j c Hc. exists c. split; [|done]. rewrite Hcs. by apply lookup_app_l_Some.
  - intros j Hj _. rewrite Hcs. by apply lookup_app_l.
Qed.

(** Whatever balanced work was done, rewinding to a checkpoint of [s] ends a
    balanced program; [s2] is the state after it, with the stack of [s] again. *)
Lemma close_frame n s cp s1 s2 :
  Arena_ok s → tail_unused (a_inner (a_arena s)) → stack_ok (a_inner (a_arena s)) → cp_of s cp →
  cp_checkpoint_id cp = in_current_checkpoint_id (a_inner (a_arena s)) →
  Step (iw s) (iw s1) →
  (∃ stk, a_inner (a_arena s1) =
     set_checkpoints stk (set_checkpoint_id (in_current_checkpoint_id (a_inner (a_arena s)) + 1) (a_inner (a_arena s)))) →
  Balanced n s1 s2 → ∀ s2', a_world s2' = a_world s2 →
  a_inner (a_arena s2') = set_checkpoints (in_checkpoints (a_inner (a_arena s))) (a_inner (a_arena s2)) →
  ∃ s3, Arena_rewind_to_checkpoint cp s2' = (Ok tt, s3) ∧ Restored s s2' s3 ∧ Balanced (1 + n) s s3.
Proof.
  intros Hok Ht [Hstk H0] Hcp Hid Hst1 [stk Hi1] [Hst2 Hg2 Ht2 Hid2] s2' Hw2 Hi2.
  assert (Step (iw s) (iw s2')) as Hst.
  { eapply Step_trans; [exact Hst1|]. eapply Step_trans; [exact Hst2|]. unfold iw. rewrite Hi2, Hw2.
    apply same_view_step; [by constructor|exact (step_wf _ _ Hst2)]. }
  assert (Grows (a_inner (a_arena s)) (set_checkpoints (in_checkpoints (a_inner (a_arena s))) (a_inner (a_arena s2')))) as Hg.
  { rewrite Hi2. rewrite Hi1 in Hg2. destruct Hg2. by split. }
  destruct (rewind_restored_gen Hlf Hdb s cp s2' _ Hok Ht Hcp Hst Hg) as (s3 & E & Hres & Ht3 & Hcps & Hid3 & Hvr & Hbuf).
  exists s3. split; [exact E|]. split; [done|]. rewrite Hi2 in Hcps, Hid3, Hvr, Hbuf. rewrite Hi1 in Hid2. simpl in *.
  rewrite Hid, filter_all in Hcps by done. split; [by eapply Restored_step| |done|rewrite Hid3; lia].
  apply (Restored_grows s s2'); [done| | |done]; rewrite ?Hvr, ?Hbuf.
  - by rewrite (g_region _ _ Hg2), Hi1.
  - by rewrite (g_buffer _ _ Hg2), Hi1.
Qed.

(** ** Commands *)
Lemma alloc_balanced o s p s' :
  Arena_ok s → tail_unused (a_inner (a_arena s)) → Obj_ok o → Arena_obj bt o s = (Ok p, s') → Balanced 0 s s'.
Proof.
  intros Hok Ht Ho E. destruct (current_chunk (iw s) Hok) as (c & Hc & _).
  destruct (alloc_step bt o s Hok Ho) as (r & s1 & E1 & Hr). unfold Arena_obj in E. rewrite E in E1. injection E1 as <- <-.
  destruct (alloc_grows bt Hlf Hdb o s c p s' Hok Ho Hc E) as [[Hg Htl Hi] _].
  split; [exact (proj1 Hr)|exact Hg|exact (Htl Ht)|lia].
Qed.

(** The state inside a frame just opened. *)
Lemma opened s s1 cp stk :
  Arena_ok s → tail_unused (a_inner (a_arena s)) → stack_ok (a_inner (a_arena s)) →
  cp_checkpoint_id cp = in_current_checkpoint_id (a_inner (a_arena s)) → a_world s1 = a_world s →
  stk = in_checkpoints (a_inner (a_arena s)) ∨ stk = vec_push cp (in_checkpoints (a_inner (a_arena s))) →
  a_inner (a_arena s1) =
    set_checkpoints stk (set_checkpoint_id (in_current_checkpoint_id (a_inner (a_arena s)) + 1) (a_inner (a_arena s))) →
  Step (iw s) (iw s1) ∧ tail_unused (a_inner (a_arena s1)) ∧ stack_ok (a_inner (a_arena s1)).
Proof.
  intros Hok Ht [Hs H0] Hid Hw Hstk Hi. assert (Step (iw s) (iw s1)) as Hst by (apply cp_view_step; eauto).
  split; [done|]. rewrite Hi. split; [exact Ht|]. split; simpl; [|lia].
  assert (Forall (λ c, cp_checkpoint_id c < in_current_checkpoint_id (a_inner (a_arena s)) + 1)
    (in_checkpoints (a_inner (a_arena s)))) as Hs' by (eapply Forall_impl; [exact Hs|]; simpl; intros; lia).
  destruct Hstk as [->| ->]; [done|]. apply Forall_app_2; [done|]. apply Forall_singleton. lia.
Qed.

(** How a balanced program ends: normally, or by aborting at a request the arena
    refuses. *)
Definition prog_post (n : Z) (os : list Obj) (s : AW) (r : outcome unit) (s' : AW) : Prop :=
  match r with
  | Ok _ => Balanced n s s'
  | Abort _ => Step (iw s) (iw s') ∧ ∃ o, o ∈ os ∧ refused (o_layout o) s'
  | _ => False
  end.

(** The states a program of [n] checkpoints may start in. *)
Record prog_pre (n : Z) (s : AW) : Prop := mkPre {
  pre_ok : Arena_ok s;
  pre_tail : tail_unused (a_inner (a_arena s));
  pre_stack : stack_ok (a_inner (a_arena s));
  pre_id : in_current_checkpoint_id (a_inner (a_arena s)) + n ≤ USIZE_MAX
}.

Lemma Balanced_pre n m s s' : prog_pre (n + m) s → 0 ≤ m → Balanced n s s' → prog_pre m s'.
Proof.
  intros [Hok Ht Hs Hid] Hm Hb. pose proof (Balanced_stack _ _ _ Hb Hs). destruct Hb as [Hst _ Htl Hi].
  split; [exact (step_wf _ _ Hst)|done|done|lia].
Qed.

Lemma prog_seq n m os os' s r s1 (k : M AW unit) :
  prog_pre (n + m) s → 0 ≤ m → prog_post n os s r s1 →
  (∀ s1, prog_pre m s1 → ∃ r s2, k s1 = (r, s2) ∧ prog_post m os' s1 r s2) →
  ∃ r' s2, match r with Ok _ => k s1 | Panic e => (Panic e, s1) | Abort e => (Abort e, s1) | UB e => (UB e, s1) end = (r', s2) ∧
    prog_post (n + m) (os ++ os') s r' s2.
Proof.
  intros Hpre Hm Hr Hk. destruct r as [[]|e|e|e]; [|done| |done].
  2:{ eexists _, _. split; [done|]. destruct Hr as (Hst & o & Ho & Hr). split; [done|]. exists o. split; [|done]. apply elem_of_app. by left. }
  destruct (Hk s1) as (r & s2 & E & Hr2); [by eapply Balanced_pre|]. exists r, s2. split; [exact E|].
  destruct r; try done; [by eapply Balanced_trans|]. destruct Hr2 as (Hst & o & Ho & Href).
  split; [eapply Step_trans; [exact (bl_step _ _ _ Hr)|exact Hst]|]. exists o. split; [|done]. apply elem_of_app. by right.
Qed.

(** An abort inside a frame just opened is one of the program that opens it. *)
Lemma abort_before n m os s s1 s2 e :
  Step (iw s) (iw s1) → prog_post n os s1 (Abort e) s2 →
  ∃ r s3, (Abort e, s2) = (r, s3) ∧ prog_post m os s r s3 ∧ (r = Ok tt → ∃ s2, Restored s s2 s3).
Proof.
  intros Hst (Hst' & Hr). eexists _, _. split; [done|]. split; [|done]. split; [by eapply Step_trans|done].
Qed.

Lemma in_frame_step n m os s :
  prog_pre (1 + n) s → 0 ≤ n → (∀ s1, prog_pre n s1 → ∃ r s2, m s1 = (r, s2) ∧ prog_post n os s1 r s2) →
  ∃ r s3, in_frame m s = (r, s3) ∧ prog_post (1 + n) os s r s3 ∧ (r = Ok tt → ∃ s2, Restored s s2 s3).
Proof.
  intros [Hok Ht Hs Hid] Hn Hm. pose proof Hs as [_ Hid0]. unfold in_frame.
  destruct (push_run s Hok) as (cp & s1 & E1 & Hcp & Hcid & Hw1 & Hi1); [lia|]. unfold mbind at 1, M_bind at 1. rewrite E1.
  destruct (opened s s1 cp _ Hok Ht Hs Hcid Hw1 (or_intror eq_refl) Hi1) as (Hst1 & Ht1 & Hs1).
  destruct (Hm s1) as (r & s2 & E2 & Hr); [split; [exact (step_wf _ _ Hst1)|done|done|rewrite Hi1; simpl; lia]|].
  unfold mbind at 1, M_bind at 1. rewrite E2. destruct r as [[]|e|e|e]; [|done|by eapply abort_before|done].
  unfold Arena_pop_and_rewind, with_inner, on_inner. mrun.
  rewrite (g_stack _ _ (bl_grows _ _ _ Hr)), Hi1. cbn [in_checkpoints set_checkpoints]. rewrite vec_pop_push. mrun.
  set (s2' := mkAW _ _).
  destruct (close_frame n s cp s1 s2 Hok Ht Hs Hcp Hcid Hst1 (ex_intro _ _ Hi1) Hr s2') as (s3 & E3 & Hres & Hb); [done|done|].
  rewrite E3. exists (Ok tt), s3. split; [done|]. split; [done|]. by exists s2'.
Qed.

Lemma in_scope_step n m os s :
  prog_pre (1 + n) s → 0 ≤ n → (∀ s1, prog_pre n s1 → ∃ r s2, m s1 = (r, s2) ∧ prog_post n os s1 r s2) →
  ∃ r s3, in_scope m s = (r, s3) ∧ prog_post (1 + n) os s r s3 ∧ (r = Ok tt → ∃ s2, Restored s s2 s3).
Proof.
  intros [Hok Ht Hs Hid] Hn Hm. pose proof Hs as [_ Hid0]. unfold in_scope, Arena_scope, Scope_new, Scope_drop.
  destruct (checkpoint_run s Hok) as (cp & s1 & E1 & Hcp & Hcid & Hw1 & Hi1); [lia|].
  assert (a_inner (a_arena s1) = set_checkpoints (in_checkpoints (a_inner (a_arena s)))
    (set_checkpoint_id (in_current_checkpoint_id (a_inner (a_arena s)) + 1) (a_inner (a_arena s)))) as Hi1' by (by rewrite Hi1).
  unfold mbind at 1, M_bind at 1. rewrite E1.
  destruct (opened s s1 cp _ Hok Ht Hs Hcid Hw1 (or_introl eq_refl) Hi1') as (Hst1 & Ht1 & Hs1).
  destruct (Hm s1) as (r & s2 & E2 & Hr); [split; [exact (step_wf _ _ Hst1)|done|done|rewrite Hi1; simpl; lia]|].
  unfold with_drop. rewrite E2. destruct r as [[]|e|e|e]; [|done|by eapply abort_before|done].
  destruct (close_frame n s cp s1 s2 Hok Ht Hs Hcp Hcid Hst1 (ex_intro _ _ Hi1') Hr s2) as (s3 & E3 & Hres & Hb); [done| |].
  { pose proof (g_stack _ _ (bl_grows _ _ _ Hr)) as Hst. rewrite Hi1' in Hst. simpl in Hst. rewrite <- Hst.
    by destruct (a_inner (a_arena s2)). }
  rewrite E3. exists (Ok tt), s3. split; [done|]. split; [done|]. by exists s2.
Qed.

(** Every balanced program runs to its end, or aborts at a request the arena
    refuses. *)
Lemma run_prog_step p s :
  prog_pre (frames_of p) s → Prog_ok p → ∃ r s', run_prog bt p s = (r, s') ∧ prog_post (frames_of p) (objs_of p) s r s'.
Proof.
  revert s. induction p as [|o p IH|body IHb p IH|body IHb p IH]; intros s Hpre Hp; simpl in *.
  - exists (Ok tt), s. split; [done|]. destruct Hpre. by apply Balanced_refl.
  - destruct Hp as [Ho Hp]. unfold mbind, M_bind. destruct (alloc_step bt o s (pre_ok _ _ Hpre) Ho) as (r & s1 & E & Hr).
    unfold Arena_obj. rewrite E. destruct r as [q|e|e|e]; [|done| |done].
    + apply (prog_seq 0 (frames_of p) [o] (objs_of p) s (Ok tt) s1); [done|apply frames_of_nonneg| |by auto].
      apply (alloc_balanced o s q s1); [exact (pre_ok _ _ Hpre)|exact (pre_tail _ _ Hpre)|done|exact E].
    + eexists _, s1. split; [done|]. destruct Hr as [Hst _ Href]. split; [done|]. exists o. split; [constructor|done].
  - destruct Hp as [Hpb Hp]. pose proof (frames_of_nonneg body). pose proof (frames_of_nonneg p).
    destruct (in_frame_step (frames_of body) (run_prog bt body) (objs_of body) s) as (r & s1 & E & Hr & _);
      [destruct Hpre; split; try done; lia|done|by auto|].
    unfold mbind, M_bind. rewrite E. apply (prog_seq (1 + frames_of body) _ (objs_of body)); [exact Hpre|done|exact Hr|by auto].
  - destruct Hp as [Hpb Hp]. pose proof (frames_of_nonneg body). pose proof (frames_of_nonneg p).
    destruct (in_scope_step (frames_of body) (run_prog bt body) (objs_of body) s) as (r & s1 & E & Hr & _);
      [destruct Hpre; split; try done; lia|done|by auto|].
    unfold mbind, M_bind. rewrite E. apply (prog_seq (1 + frames_of body) _ (objs_of body)); [exact Hpre|done|exact Hr|by auto].
Qed.
End frames.

(** ** Theorems *)

(** C14: frames nest.  Between [push_checkpoint] and [pop_and_rewind], run any program
    that allocates and opens further frames and scopes, to any depth: popping
    restores the chunks with their fill (followed only by empty ones), the current
    chunk and the checkpoint stack of before the push, makes nothing available that
    was not, and every older object keeps its value.  The one other outcome is the
    abort: then the arena, in the state the program ended in, refuses one of the
    values of the program.  For builds without the lock-free and debug features, in an
    arena whose thread cache is empty and whose chunks behind the current one are empty,
    values that satisfy [Obj_ok], and as long as the 64-bit checkpoint identifiers do
    not run out. *)
Theorem nested_frames_restore `{cfg : Cfg} {ga : GlobalAlloc} `{!GlobalAllocOk ga} bt body s :
  feat_lockfree = false → feat_debug = false →
  Arena_ok s → tail_unused (a_inner (a_arena s)) → stack_ok (a_inner (a_arena s)) → Prog_ok body →
  in_current_checkpoint_id (a_inner (a_arena s)) + 1 + frames_of body ≤ USIZE_MAX →
  ∃ r s', in_frame (run_prog bt body) s = (r, s') ∧
    match r with
    | Ok _ => Arena_ok s' ∧
        (∃ extra, in_chunks (a_inner (a_arena s')) = in_chunks (a_inner (a_arena s)) ++ extra ∧ Forall (λ c, c_used c = 0) extra) ∧
        in_current_chunk (a_inner (a_arena s')) = in_current_chunk (a_inner (a_arena s)) ∧
        in_checkpoints (a_inner (a_arena s')) = in_checkpoints (a_inner (a_arena s)) ∧
        (∀ a, Inner_avail (iw s') a → Inner_avail (iw s) a) ∧
        (∀ op, obj_stored (w_mem (a_world s)) op →
           (∀ a, a ∈ mkRange op.2 (Z.of_nat (length (o_value op.1))) → ¬ Inner_avail (iw s) a) →
           obj_stored (w_mem (a_world s')) op)
    | Abort _ => Step (iw s) (iw s') ∧ ∃ o, o ∈ objs_of body ∧ refused (o_layout o) s'
    | _ => False
    end.
Proof.
  intros Hlf Hdb Hok Ht Hs Hp Hid.
  destruct (in_frame_step Hlf Hdb (frames_of body) (run_prog bt body) (objs_of body) s) as (r & s' & E & Hr & Hres);
    [split; try done; lia|apply frames_of_nonneg|intros; by apply run_prog_step|].
  exists r, s'. split; [exact E|]. destruct r as [[]|e|e|e]; try done.
  destruct (Hres eq_refl) as [s2 [Hok' (extra & Hcs & _ & He) Hcur Hav _ _]]. destruct Hr as [Hst Hg _ _].
  splits; [done|by exists extra|done|exact (g_stack _ _ Hg)|done|]. intros op. exact (obj_stored_step (iw s) (iw s') op Hst).
Qed.

(** Two frames inside one another, the inner one spilling into a new chunk. *)
Lemma nested_frames_restore_witness :
  let big := mkObj (mkLayout 200 8) (replicate 200 1) in let small := mkObj (mkLayout 4 4) [1;2;3;4] in
  let body := PAlloc small (PFrame (PAlloc big (PScope (PAlloc small PNil) PNil)) (PAlloc small PNil)) in
  ∃ s', @in_frame cfg_dev (@run_prog cfg_dev bump_alloc "bt" body) demo_state = (Ok tt, s') ∧ Arena_ok s' ∧
    (∃ extra, in_chunks (a_inner (a_arena s')) = [demo_chunk] ++ extra ∧ Forall (λ c, c_used c = 0) extra) ∧
    in_checkpoints (a_inner (a_arena s')) = [].
Proof.
  intros big small body.
  destruct (@nested_frames_restore cfg_dev bump_alloc bump_alloc_ok "bt" body demo_state) as (r & s' & E & Hr).
  - reflexivity.
  - reflexivity.
  - exact demo_ok.
  - intros [|[|j]] c Hj Hc; simpl in *; [lia|done|done].
  - split; [constructor|vm_compute; discriminate].
  - repeat constructor; vm_compute; intuition discriminate.
  - vm_compute. discriminate.
  - assert (r = Ok tt) as -> by (change r with ((r, s').1); rewrite <- E; vm_compute; reflexivity).
    exists s'. destruct Hr as (Hok & Hcs & _ & Hst & _). split; [exact E|]. split; [exact Hok|]. split; [exact Hcs|exact Hst].
Defined.
