(* ===== verification/ArenaSlices.v ===== *)
(** * ArenaSlices: slices and strings in an [Arena]

    [alloc_slice_copy], [alloc_slice_uninit] and [alloc_str] of src/arena.rs on every
    branch: the empty slice, the layout that overflows, the request the arena
    refuses. *)
From S2P Require Import Prelude Memory Bump Chunk Slab ThreadLocal LockFree VirtualMemory Debug Inner InnerInv Objects Arena ArenaSafety.
Local Open Scope Z_scope.

(** The element types: values of at least one byte, of an alignment the arena honours. *)
Definition Elem_ok `{Cfg} (t : Layout) : Prop :=
  Layout_ok t ∧ 0 < l_size t ∧ l_align t ≤ (if feat_debug then 8 else 64).

(** The bytes of a slice fit in memory, as those of every slice of Rust do. *)
Definition slice_fits (t : Layout) (len : Z) : Prop := l_size t * len ≤ ISIZE_MAX + 1 - l_align t.
#[global] Instance slice_fits_dec t len : Decision (slice_fits t len).
Proof. unfold slice_fits. apply _. Defined.

Lemma Layout_array_fits t len :
  Layout_ok t → 0 < l_size t →
  match Layout_array t len with
  | Some l => slice_fits t len ∧ l = mkLayout (l_size t * len) (l_align t)
  | None => ¬ slice_fits t len
  end.
Proof.
  intros Ht Hs. unfold Layout_array, slice_fits. destruct (Z.eqb_spec (l_size t) 0); [lia|]. simpl.
  pose proof (Z.div_mod (ISIZE_MAX + 1 - l_align t) (l_size t) ltac:(lia)) as Hd.
  pose proof (Z.mod_pos_bound (ISIZE_MAX + 1 - l_align t) (l_size t) Hs) as Hm.
  destruct (Z.ltb_spec ((ISIZE_MAX + 1 - l_align t) `div` l_size t) len); [nia|]. split; [nia|done].
Qed.

(** The dangling pointer of the empty slice. *)
Lemma Fresh_empty s p : Inner_wf s → Fresh 0 s p s.
Proof. intros. split; [intros a Ha; range_solve|by left|lia]. Qed.

Section slices.
Context `{cfg : Cfg} {ga : GlobalAlloc} `{!GlobalAllocOk ga} (bt : string).

(** What a call that returns a slice at [p] with [n] elements promises. *)
Record slice_post (t : Layout) (len : Z) (s : AW) (p n : Z) (s' : AW) : Prop := mkSlicePost {
  sl_len : n = len;
  sl_aligned : p `mod` l_align t = 0;
  sl_step : Step (iw s) (iw s');
  sl_fresh : Fresh (l_size t * len) (iw s) p (iw s')
}.

Lemma slice_copy_step t len data s :
  Arena_ok s → Elem_ok t → 0 ≤ len → slice_fits t len → Z.of_nat (length data) = l_size t * len →
  ∃ r s', Arena_alloc_slice_copy bt t len data s = (r, s') ∧
    match r with
    | Ok (p, n) => slice_post t len s p n s' ∧ mem_load p (length data) (w_mem (a_world s')) = (Ok data, w_mem (a_world s'))
    | Abort _ => GaveUp (mkLayout (l_size t * len) (l_align t)) s s'
    | _ => False
    end.
Proof.
  intros Hok (Ht & Hsz & Hal) Hlen Hfit Hdata. unfold Arena_alloc_slice_copy. destruct (Z.eqb_spec len 0) as [->|Hne].
  { rewrite Z.mul_0_r in *. destruct data; [|simpl in Hdata; lia]. eexists _, s. split; [done|]. split.
    - split; [done|apply Z.mod_same; pose proof (Layout_align_pos t Ht); lia|by apply Step_refl|]. rewrite Z.mul_0_r. by apply Fresh_empty.
    - unfold mem_load. rewrite decide_True by (by left). done. }
  pose proof (Layout_array_fits t len Ht Hsz) as Ha. pose proof (Layout_array_ok t len) as Hlo.
  destruct (Layout_array t len) as [l|]; [|done]. destruct Ha as [_ ->]. destruct (Hlo _ Ht Hlen eq_refl) as (Hl & _ & _).
  set (l := mkLayout (l_size t * len) (l_align t)) in *.
  destruct (alloc_step bt (mkObj l data) s Hok) as (r & s' & E & Hr); [unfold Obj_ok, l; simpl; splits; [done|nia|done|done]|].
  simpl in E. unfold Arena_alloc, mbind, M_bind in E. unfold mbind, M_bind.
  destruct (Arena_allocate_raw bt l s) as [[p|e|e|e] s1]; [|injection E as <- <-; eexists _, _; split; [reflexivity|exact Hr]..].
  change (ptr_write p t data) with (ptr_write p l data).
  destruct (a_on_mem (ptr_write p l data) s1) as [[[]|e|e|e] s2]; injection E as <- <-; (eexists _, _; split; [reflexivity|]); [|exact Hr..].
  destruct Hr as (Hst & Hf & Hso & Hmod). split; [split; [done|exact Hmod|exact Hst|exact Hf]|exact Hso].
Qed.

Lemma slice_uninit_step t len s :
  Arena_ok s → Elem_ok t → 0 ≤ len → slice_fits t len →
  ∃ r s', Arena_alloc_slice_uninit bt t len s = (r, s') ∧
    match r with
    | Ok (p, n) => slice_post t len s p n s'
    | Abort _ => GaveUp (mkLayout (l_size t * len) (l_align t)) s s'
    | _ => False
    end.
Proof.
  intros Hok (Ht & Hsz & Hal) Hlen Hfit. unfold Arena_alloc_slice_uninit. destruct (Z.eqb_spec len 0) as [->|Hne].
  { eexists _, s. split; [done|]. split; [done|apply Z.mod_same; pose proof (Layout_align_pos t Ht); lia|by apply Step_refl|].
    rewrite Z.mul_0_r. by apply Fresh_empty. }
  pose proof (Layout_array_fits t len Ht Hsz) as Ha. pose proof (Layout_array_ok t len) as Hlo.
  destruct (Layout_array t len) as [l|]; [|done]. destruct Ha as [_ ->]. destruct (Hlo _ Ht Hlen eq_refl) as (Hl & _ & _).
  destruct (allocate_raw_step bt _ s Hok Hl) as (r & s1 & E & Hr); [simpl; nia|]. unfold mbind at 1, M_bind at 1. rewrite E.
  destruct r as [p|e|e|e]; [|done|by exists (Abort e), s1|done]. destruct Hr as (Hst & Hf & Hap). specialize (Hap Hal).
  unfold ptr_write, a_on_mem, a_on_world, w_on_mem. simpl in Hap. rewrite Hap. mrun.
  eexists _, _. split; [reflexivity|]. destruct s1 as [[] [[] ? ? ? ?]]. by split.
Qed.

(** A slice that does not fit in memory: the copy gives an empty slice, the other panics. *)
Lemma slice_overflow t len data s :
  Layout_ok t → 0 < l_size t → ¬ slice_fits t len →
  Arena_alloc_slice_copy bt t len data s = (Ok (l_align t, 0), s) ∧
  Arena_alloc_slice_uninit bt t len s = (Panic "Invalid layout", s).
Proof.
  intros Ht Hsz Hn. pose proof (Layout_array_fits t len Ht Hsz) as Ha. pose proof (Layout_align_pos t Ht).
  unfold Arena_alloc_slice_copy, Arena_alloc_slice_uninit.
  destruct (Z.eqb_spec len 0) as [->|]; [destruct Hn; destruct Ht as (_ & _ & ?); unfold slice_fits; lia|].
  by destruct (Layout_array t len) as [l|]; [destruct Ha|].
Qed.

(** [alloc_str]: the UTF-8 bytes of the string, one after the other. *)
Lemma alloc_str_step (w : list Z) s :
  Arena_ok s → Z.of_nat (length w) ≤ ISIZE_MAX →
  ∃ r s', Arena_alloc_str bt w s = (r, s') ∧
    match r with
    | Ok (p, n) => n = Z.of_nat (length w) ∧ Step (iw s) (iw s') ∧ Fresh n (iw s) p (iw s') ∧
        mem_load p (length w) (w_mem (a_world s')) = (Ok w, w_mem (a_world s'))
    | Abort _ => GaveUp (mkLayout (Z.of_nat (length w)) 1) s s'
    | _ => False
    end.
Proof.
  intros Hok Hlen. destruct (slice_copy_step (mkLayout 1 1) (Z.of_nat (length w)) w s Hok) as (r & s' & E & Hr).
  - split; [vm_compute; intuition discriminate|]. simpl. destruct feat_debug; lia.
  - lia.
  - unfold slice_fits. simpl. lia.
  - simpl. lia.
  - exists r, s'. split; [exact E|]. cbn [l_size l_align] in Hr. rewrite Z.mul_1_l in Hr.
    destruct r as [[p n]|e|e|e]; [|done..]. destruct Hr as [[-> _ Hst Hf] Hld]. cbn [l_size] in Hf. rewrite Z.mul_1_l in Hf. done.
Qed.
End slices.

(** C18: slices, for every element type of nonzero size, aligned to at most 64 bytes or
    to at most 8 when the debug feature adds its guards ([Elem_ok]), and every length,
    in an arena with an empty thread cache.  A slice that fits in memory is placed in
    memory the arena had available and will not hand out again, aligned for its elements, with the length asked for; nothing handed out
    before changes; [alloc_slice_copy] and [alloc_str] leave the elements given there.
    The empty slice takes nothing.  The one other outcome is the abort of a request
    the arena refuses.  A length that does not fit in memory makes
    [alloc_slice_uninit] panic and [alloc_slice_copy] return an empty slice, with the
    arena untouched. *)
Theorem arena_slices_spec `{cfg : Cfg} {ga : GlobalAlloc} `{!GlobalAllocOk ga} bt t len data s :
  Arena_ok s → Elem_ok t → 0 ≤ len → Z.of_nat (length data) = l_size t * len →
  let l := mkLayout (l_size t * len) (l_align t) in
  if decide (slice_fits t len) then
    (∃ r s', Arena_alloc_slice_copy bt t len data s = (r, s') ∧
       match r with
       | Ok (p, n) => slice_post t len s p n s' ∧ mem_load p (length data) (w_mem (a_world s')) = (Ok data, w_mem (a_world s'))
       | Abort _ => GaveUp l s s'
       | _ => False
       end) ∧
    (∃ r s', Arena_alloc_slice_uninit bt t len s = (r, s') ∧
       match r with
       | Ok (p, n) => slice_post t len s p n s'
       | Abort _ => GaveUp l s s'
       | _ => False
       end)
  else
    Arena_alloc_slice_copy bt t len data s = (Ok (l_align t, 0), s) ∧
    Arena_alloc_slice_uninit bt t len s = (Panic "Invalid layout", s).
Proof.
  intros Hok Ht Hlen Hd l. case_decide as Hfit.
  - split; [by apply slice_copy_step|by apply slice_uninit_step].
  - destruct Ht as (Hl & Hsz & _). by apply slice_overflow.
Qed.

(** Three 4-byte elements. *)
Lemma arena_slices_spec_witness :
  let data := [1; 0; 0; 0; 2; 0; 0; 0; 3; 0; 0; 0] in
  ∃ p s', @Arena_alloc_slice_copy cfg_dev bump_alloc "bt" (mkLayout 4 4) 3 data demo_state = (Ok (p, 3), s') ∧
    p `mod` 4 = 0 ∧ mem_load p 12 (w_mem (a_world s')) = (Ok data, w_mem (a_world s')).
Proof.
  intros data. pose proof (@arena_slices_spec cfg_dev bump_alloc bump_alloc_ok "bt" (mkLayout 4 4) 3 data demo_state) as H.
  cbv zeta in H. rewrite decide_True in H by (vm_compute; discriminate).
  destruct H as [(r & s' & E & Hr) _]; [exact demo_ok|vm_compute; intuition discriminate|lia|reflexivity|].
  assert (∃ p n, r = Ok (p, n)) as (p & n & ->) by (change r with ((r, s').1); rewrite <- E; vm_compute; eexists _, _; reflexivity).
  exists p, s'. destruct Hr as [[Hn Ha _ _] Hl]. split; [rewrite E, Hn; reflexivity|]. split; [exact Ha|exact Hl].
Defined.
