(* ===== verification/SyncArena.v ===== *)
(** * SyncArena: an arena behind a mutex

    [SyncArena] of lib.rs: threads run scopes on one arena, each holding the mutex
    for its whole scope.  A closure that panics poisons the mutex; the code ignores
    the poison ([unwrap_or_else(into_inner)]).  First the operations as a thread runs
    them to the end, then a transition system in which the threads are interleaved,
    and its refinement to the former. *)
From S2P Require Import Prelude Memory Bump Chunk Slab ThreadLocal LockFree VirtualMemory Debug Inner InnerInv Objects Arena ArenaSafety ArenaCheckpoint ArenaFrames.
Local Open Scope Z_scope.

(** The arena with the process it lives in, and the mutex's poison flag.  The cache
    and slab in [sy_aw] are those of the thread that ran last; [sy_locals] keeps
    them for every thread. *)
Record SyncArena := mkSync {
  sy_aw : AW;
  sy_locals : gmap nat (ThreadCache * ThreadSlab);
  sy_poisoned : bool
}.

Definition locals (t : nat) (y : SyncArena) : ThreadCache * ThreadSlab :=
  default (ThreadCache_new, ThreadSlab_new) (sy_locals y !! t).
Definition as_thread (t : nat) (y : SyncArena) : AW :=
  let w := a_world (sy_aw y) in
  mkAW (a_arena (sy_aw y)) (mkWorld (w_mem w) (locals t y).1 (locals t y).2 (w_debug w) (w_trace w)).
Definition put_thread (t : nat) (s : AW) (y : SyncArena) : SyncArena :=
  mkSync s (<[t := (w_cache (a_world s), w_slab (a_world s))]> (sy_locals y)) (sy_poisoned y).
Definition run_as {A} (t : nat) (m : M AW A) : M SyncArena A := zoom (as_thread t) (put_thread t) m.

(** ** The mutex *)

(** [lock] returns the guard in a [PoisonError] when the mutex is poisoned;
    [into_inner] takes it out again. *)
Definition Mutex_lock : M SyncArena (Result unit unit) := gets (λ y, if sy_poisoned y then RErr tt else ROk tt).
Definition lock : M SyncArena unit :=
  r ← Mutex_lock; match r with ROk guard => mret guard | RErr poison => mret poison end.
(** Dropping the guard; a thread that is unwinding poisons the mutex. *)
Definition unlock {A} (r : outcome A) (y : SyncArena) : SyncArena :=
  match r with Panic _ => mkSync (sy_aw y) (sy_locals y) true | _ => y end.
Definition guarded {A} (m : M SyncArena A) : M SyncArena A := λ y, let '(r, y) := m y in (r, unlock r y).
Definition with_lock {A} (m : M SyncArena A) : M SyncArena A := _ ← lock; guarded m.

Section sync.
Context `{cfg : Cfg} `{ga : GlobalAlloc}.

(** ** Operations *)
Definition SyncArena_with_capacity (t : nat) (self bytes : Z) (w : World) : outcome SyncArena :=
  let '(r, w) := Arena_with_capacity self bytes w in
  a ← r;
  Ok (put_thread t (mkAW a w) (mkSync (mkAW a w) ∅ false)).
Definition SyncArena_new (t : nat) (self : Z) (w : World) : outcome SyncArena :=
  SyncArena_with_capacity t self DEFAULT_CHUNK_SIZE w.

Definition SyncArena_scope {R} (t : nat) (f : ArenaCheckpoint → M AW R) : M SyncArena R :=
  with_lock (run_as t (Arena_scope f)).

Definition guard_stats (y : SyncArena) : ArenaStats := Arena_stats (a_arena (sy_aw y)).
Definition SyncArena_stats : M SyncArena ArenaStats :=
  with_lock (gets (λ y, mkStats (st_bytes_used (guard_stats y)) (st_bytes_allocated (guard_stats y))
    (st_allocation_count (guard_stats y)) (st_chunk_count (guard_stats y)))).
Definition SyncArena_bytes_allocated : M SyncArena Z := with_lock (gets (st_bytes_allocated ∘ guard_stats)).

(** The other [SyncArena], in arena.rs, is a [Mutex<Arena>] too; its [alloc] allocates,
    then panics. *)
Definition MutexArena_with_capacity (t : nat) (self capacity : Z) (w : World) : outcome SyncArena :=
  let '(r, w) := Arena_with_capacity self capacity w in
  a ← r;
  Ok (put_thread t (mkAW a w) (mkSync (mkAW a w) ∅ false)).
Definition MutexArena_new (t : nat) (self : Z) (w : World) : outcome SyncArena :=
  let '(r, w) := Arena_new self w in
  a ← r;
  Ok (put_thread t (mkAW a w) (mkSync (mkAW a w) ∅ false)).
Definition SyncArena_alloc (bt : string) (t : nat) (o : Obj) : M SyncArena Z :=
  with_lock (run_as t (_ ← Arena_obj bt o;
    lift (Panic "SyncArena::alloc API needs redesign - cannot return MutexGuard<T>"))).

(** ** Interleaved threads *)

(** The thread inside [scope]: the scope's checkpoint and what its closure has
    allocated. *)
Record Holder := mkHolder { h_thread : nat; h_scope : ArenaCheckpoint; h_objs : list Obj; h_ptrs : list Z }.
(** A call of [scope] that has ended: with the closure's pointers, or by a panic. *)
Record SyncCall := mkCall { k_thread : nat; k_objs : list Obj; k_result : option (list Z) }.
(** [z_halt]: how the process ended. *)
Record SyncSys := mkSyncSys {
  z_arena : SyncArena; z_owner : option Holder; z_calls : list SyncCall; z_halt : option (outcome unit)
}.

Inductive SyncEvent :=
  | YLock (t : nat)
  | YAlloc (t : nat) (o : Obj)
  | YEnd (t : nat) (panics : bool).

Context (bt : string).

(** The scope ends with the closure's result [r]: the scope is dropped, then the
    guard. *)
Definition sync_end (h : Holder) (r : outcome (list Z)) (z : SyncSys) : SyncSys :=
  let '(r, y) := run_as (h_thread h) (with_drop (lift r) (Scope_drop (h_scope h))) (z_arena z) in
  match r with
  | Ok ps => mkSyncSys (unlock r y) None (z_calls z ++ [mkCall (h_thread h) (h_objs h) (Some ps)]) None
  | Panic _ => mkSyncSys (unlock r y) None (z_calls z ++ [mkCall (h_thread h) (h_objs h) None]) None
  | _ => mkSyncSys y (Some h) (z_calls z) (Some (void r))
  end.

Definition closure_panic : string := "the closure panicked".

Definition sync_lock (t : nat) (z : SyncSys) : SyncSys :=
  let '(r, y) := (_ ← lock; run_as t Scope_new) (z_arena z) in
  match r with
  | Ok cp => mkSyncSys y (Some (mkHolder t cp [] [])) (z_calls z) None
  | Panic _ => mkSyncSys (unlock r y) None (z_calls z ++ [mkCall t [] None]) None
  | _ => mkSyncSys y None (z_calls z) (Some (void r))
  end.

Definition sync_alloc (h : Holder) (o : Obj) (z : SyncSys) : SyncSys :=
  let '(r, y) := run_as (h_thread h) (Arena_obj bt o) (z_arena z) in
  let h' ps := mkHolder (h_thread h) (h_scope h) (h_objs h ++ [o]) ps in
  match r with
  | Ok p => mkSyncSys y (Some (h' (h_ptrs h ++ [p]))) (z_calls z) None
  | Panic e => sync_end (h' (h_ptrs h)) (Panic e) (mkSyncSys y (z_owner z) (z_calls z) None)
  | _ => mkSyncSys y (Some h) (z_calls z) (Some (void r))
  end.

(** [None]: the event cannot happen in this state. *)
Definition Sync_step (e : SyncEvent) (z : SyncSys) : option SyncSys :=
  match z_halt z, z_owner z, e with
  | None, None, YLock t => Some (sync_lock t z)
  | None, Some h, YAlloc t o => if decide (h_thread h = t) then Some (sync_alloc h o z) else None
  | None, Some h, YEnd t panics =>
      if decide (h_thread h = t)
      then Some (sync_end h (if panics then Panic closure_panic else Ok (h_ptrs h)) z) else None
  | _, _, _ => None
  end.
Fixpoint Sync_steps (es : list SyncEvent) (z : SyncSys) : option SyncSys :=
  match es with
  | [] => Some z
  | e :: es => z' ← Sync_step e z; Sync_steps es z'
  end.

(** ** The calls one after the other *)
Definition closure (objs : list Obj) (panics : bool) (_ : ArenaCheckpoint) : M AW (list Z) :=
  ps ← Arena_run bt objs; if panics then lift (Panic closure_panic) else mret ps.
Definition sync_call (y : SyncArena) (k : SyncCall) : option SyncArena :=
  match SyncArena_scope (k_thread k) (closure (k_objs k) (bool_decide (k_result k = None))) y with
  | (Ok ps, y') => if decide (k_result k = Some ps) then Some y' else None
  | (Panic _, y') => if decide (k_result k = None) then Some y' else None
  | _ => None
  end.
Definition sync_calls (ks : list SyncCall) (y : SyncArena) : option SyncArena :=
  foldl (λ r k, y ← r; sync_call y k) (Some y) ks.
End sync.

(** ** Threads and their local state *)
Lemma as_put_thread t s y : as_thread t (put_thread t s y) = s.
Proof. unfold as_thread, put_thread, locals. simpl. rewrite lookup_insert_eq. by destruct s as [a []]. Qed.
Lemma put_put_thread t s s' y : put_thread t s' (put_thread t s y) = put_thread t s' y.
Proof. unfold put_thread. simpl. by rewrite insert_insert_eq. Qed.

Lemma run_as_eq {A} t (m : M AW A) y r s : m (as_thread t y) = (r, s) → run_as t m y = (r, put_thread t s y).
Proof. intros E. unfold run_as, zoom. by rewrite E. Qed.
Lemma run_as_inv {A} t (m : M AW A) y r y' :
  run_as t m y = (r, y') → ∃ s, m (as_thread t y) = (r, s) ∧ y' = put_thread t s y.
Proof. unfold run_as, zoom. destruct (m (as_thread t y)) as [r' s]. intros [= <- <-]. by exists s. Qed.

Lemma with_lock_eq {A} (m : M SyncArena A) y : with_lock m y = let '(r, y') := m y in (r, unlock r y').
Proof. unfold with_lock, lock, Mutex_lock, gets. mrun. by destruct (sy_poisoned y). Qed.

(** ** Running a scope *)

(** What a thread may rely on when it gets the mutex. *)
Record SyncOk (y : SyncArena) : Prop := mkSyncOk {
  so_ok : Arena_ok (sy_aw y);
  so_tail : tail_unused (a_inner (a_arena (sy_aw y)));
  so_buffer : in_lockfree_buffer (a_inner (a_arena (sy_aw y))) = None;
  so_cache t : tc_used (locals t y).1 = 0%nat
}.

(** The arena is as it was, up to empty chunks, and has touched nothing that was
    not available to it. *)
Record Kept `{Cfg} (s s' : AW) : Prop := mkKept {
  kp_step : Step (iw s) (iw s');
  kp_chunks : ∃ extra, in_chunks (a_inner (a_arena s')) = in_chunks (a_inner (a_arena s)) ++ extra ∧
                       Forall (λ c, c_used c = 0) extra;
  kp_current : in_current_chunk (a_inner (a_arena s')) = in_current_chunk (a_inner (a_arena s));
  kp_count : feat_stats = true →
    st_allocation_count (in_stats (a_inner (a_arena s'))) = st_allocation_count (in_stats (a_inner (a_arena s)));
  kp_tail : tail_unused (a_inner (a_arena s')) ;
  kp_buffer : in_lockfree_buffer (a_inner (a_arena s')) = in_lockfree_buffer (a_inner (a_arena s))
}.

Lemma Kept_trans `{Cfg} s1 s2 s3 : Kept s1 s2 → Kept s2 s3 → Kept s1 s3.
Proof.
  intros [H1 (e1 & C1 & F1) U1 N1 _ B1] [H2 (e2 & C2 & F2) U2 N2 T2 B2].
  split; [by eapply Step_trans| |congruence| |done|congruence].
  - exists (e1 ++ e2). rewrite C2, C1, app_assoc. split; [done|]. by apply Forall_app_2.
  - intros Hs. rewrite N2, N1 by done. done.
Qed.

(** A thread that takes over sees the same arena. *)
Lemma Kept_as_thread `{Cfg} t y : SyncOk y → Kept (sy_aw y) (as_thread t y).
Proof.
  intros [(Hm & Hb & Hf & Hc & Hl & _) Ht Hbuf Hcache]. simpl in *.
  assert (∀ a, Inner_avail (iw (as_thread t y)) a → Inner_avail (iw (sy_aw y)) a) as Hav.
  { intros a [Ha|[(b & E & _)|Ha]]; [by left| |by right; right]. simpl in E. by rewrite Hbuf in E. }
  split; try done; [|by exists []; rewrite app_nil_r]. split; [|done|by exists []|done].
  unfold Inner_wf. simpl. splits; try done. by rewrite Hbuf.
Qed.

(** A thread's work on the arena, seen from the next one. *)
Lemma SyncOk_put `{Cfg} t y s : SyncOk y → Kept (as_thread t y) s → SyncOk (put_thread t s y).
Proof.
  intros [Hok Ht Hbuf Hc] [Hst _ _ _ Htl Hb]. split; simpl; [exact (step_wf _ _ Hst)|done|by rewrite Hb|].
  intros t'. unfold locals. simpl. rewrite lookup_insert. case_decide; [|apply Hc]. simpl.
  by destruct (step_wf _ _ Hst) as (_ & _ & _ & _ & _ & ?).
Qed.
Lemma SyncOk_unlock {A} (r : outcome A) y : SyncOk y → SyncOk (unlock r y).
Proof. intros [? ? ? ?]. by destruct r; split. Qed.
Lemma unlock_aw {A} (r : outcome A) y : sy_aw (unlock r y) = sy_aw y.
Proof. by destruct r. Qed.

Section lemmas.
Context `{cfg : Cfg} {ga : GlobalAlloc} `{!GlobalAllocOk ga} (bt : string).
Hypothesis (Hlf : feat_lockfree = false) (Hdb : feat_debug = false).

(** What a thread that holds the mutex has done so far. *)
Lemma scope_body s cp s1 objs ps s2 :
  Arena_ok s → Arena_checkpoint s = (Ok cp, s1) → Forall Obj_ok objs → Arena_run bt objs s1 = (Ok ps, s2) →
  Step (iw s) (iw s2) ∧ Grows (a_inner (a_arena s)) (a_inner (a_arena s2)) ∧ cp_of s cp ∧
  pw_disjoint (obj_range <$> zip objs ps) ∧ Forall (obj_stored (w_mem (a_world s2))) (zip objs ps).
Proof.
  intros Hok Ecp Hobjs Erun. pose proof (checkpoint_step s cp s1 Hok Ecp) as Hst1.
  destruct (checkpoint_eq s cp s1 Hok Ecp) as (Hc & Hidx & _ & Hcnt & _ & n & Hi1).
  destruct (run_step bt objs s1 (step_wf _ _ Hst1) Hobjs) as (r & s2' & E & Hr). rewrite Erun in E. injection E as <- <-.
  destruct Hr as (_ & Hst2 & Hd & _ & Hs). pose proof (run_grows bt Hlf Hdb objs s1 ps s2 (step_wf _ _ Hst1) Hobjs Erun) as Hg.
  splits; [by eapply Step_trans| |done|done|done]. rewrite Hi1 in Hg. destruct Hg. by split.
Qed.

(** The scope's [Drop] gives the arena back as it was. *)
Lemma scope_end s cp s1 objs ps s2 (r : outcome (list Z)) :
  Arena_ok s → tail_unused (a_inner (a_arena s)) → Arena_checkpoint s = (Ok cp, s1) → Forall Obj_ok objs →
  Arena_run bt objs s1 = (Ok ps, s2) → (match r with Ok _ | Panic _ => True | _ => False end) →
  ∃ s3, with_drop (lift r) (Scope_drop cp) s2 = (r, s3) ∧ Kept s s3.
Proof.
  intros Hok Ht Ecp Hobjs Erun Hr. destruct (scope_body s cp s1 objs ps s2 Hok Ecp Hobjs Erun) as (Hst & Hg & Hcp & _).
  destruct (rewind_restored_gen Hlf Hdb s cp s2 (in_checkpoints (a_inner (a_arena s2))) Hok Ht Hcp Hst)
    as (s3 & E & Hres & Ht3 & _ & _ & _ & Hb); [destruct Hg; by split|].
  exists s3. split; [unfold with_drop, lift, Scope_drop; destruct r; by rewrite ?E|].
  pose proof (Restored_step s s2 s3 Hres Hst) as Hst3. destruct Hres as [_ (extra & Hcs & _ & He) Hcur _ _ Hcnt].
  split; [done|by exists extra|done|done|done|]. rewrite Hb. exact (g_buffer _ _ Hg).
Qed.

Lemma Arena_scope_eq {R} (f : ArenaCheckpoint → M AW R) s cp s1 r s2 :
  Arena_checkpoint s = (Ok cp, s1) → f cp s1 = (r, s2) → Arena_scope f s = with_drop (lift r) (Scope_drop cp) s2.
Proof. intros E1 E2. unfold Arena_scope, Scope_new, mbind, M_bind. rewrite E1. unfold with_drop, lift. by rewrite E2. Qed.

Lemma closure_eq objs (panics : bool) cp s1 ps s2 :
  Arena_run bt objs s1 = (Ok ps, s2) →
  closure bt objs panics cp s1 = (if panics then Panic closure_panic else Ok ps, s2).
Proof. intros E. unfold closure, mbind, M_bind. rewrite E. by destruct panics. Qed.

Lemma run_objs_snoc {S} (alloc : Obj → M S Z) objs o s ps s1 p s2 :
  run_objs alloc objs s = (Ok ps, s1) → alloc o s1 = (Ok p, s2) → run_objs alloc (objs ++ [o]) s = (Ok (ps ++ [p]), s2).
Proof.
  revert s ps. induction objs as [|o' objs IH]; intros s ps; simpl; unfold mbind, M_bind.
  - intros [= <- <-] E. rewrite E. done.
  - destruct (alloc o' s) as [[p'|e|e|e] s']; try done. destruct (run_objs alloc objs s') as [[ps'|e|e|e] s''] eqn:E1; try done.
    intros [= <- ->] E. by rewrite (IH s' ps' E1 E).
Qed.

(** ** The invariant of the interleaved system *)
Definition holds (y : SyncArena) (h : Holder) (y' : SyncArena) : Prop :=
  Forall Obj_ok (h_objs h) ∧ ∃ s1 s2, Arena_checkpoint (as_thread (h_thread h) y) = (Ok (h_scope h), s1) ∧
    Arena_run bt (h_objs h) s1 = (Ok (h_ptrs h), s2) ∧ y' = put_thread (h_thread h) s2 y.

(** The values the threads ask for. *)
Context (offered : Obj → Prop).

(** The process was aborted in a state in which the arena refuses one of them. *)
Definition SyncHalted (y0 : SyncArena) (r : outcome unit) (s : AW) : Prop :=
  ∃ o e, r = Abort e ∧ Obj_ok o ∧ offered o ∧ Step (iw (sy_aw y0)) (iw s) ∧ refused (o_layout o) s.

Definition SyncInv (y0 : SyncArena) (z : SyncSys) : Prop :=
  match z_halt z with
  | Some r => SyncHalted y0 r (sy_aw (z_arena z))
  | None => ∃ y, sync_calls bt (z_calls z) y0 = Some y ∧ SyncOk y ∧ Kept (sy_aw y0) (sy_aw y) ∧
      match z_owner z with None => z_arena z = y | Some h => holds y h (z_arena z) end
  end.

Lemma sync_calls_snoc ks k y0 y : sync_calls bt ks y0 = Some y → sync_calls bt (ks ++ [k]) y0 = sync_call bt y k.
Proof. unfold sync_calls. intros E. rewrite foldl_snoc. by rewrite E. Qed.

Lemma thread_ok t y : SyncOk y → Arena_ok (as_thread t y) ∧ tail_unused (a_inner (a_arena (as_thread t y))).
Proof. intros Hy. destruct (Kept_as_thread t y Hy) as [Hst _ _ _ Ht _]. split; [exact (step_wf _ _ Hst)|done]. Qed.

(** A call that has ended, appended to the sequence. *)
Lemma SyncInv_call y0 y ks t s3 objs res (r : outcome (list Z)) :
  sync_calls bt ks y0 = Some y → SyncOk y → Kept (sy_aw y0) (sy_aw y) → Kept (as_thread t y) s3 →
  Arena_scope (closure bt objs (bool_decide (res = None))) (as_thread t y) = (r, s3) →
  (match r with Ok ps => res = Some ps | Panic _ => res = None | _ => False end) →
  SyncInv y0 (mkSyncSys (unlock r (put_thread t s3 y)) None (ks ++ [mkCall t objs res]) None).
Proof.
  intros Hks Hy Hk Hk3 E Hr. exists (unlock r (put_thread t s3 y)). splits.
  - cbn [z_calls]. rewrite (sync_calls_snoc _ _ _ _ Hks). unfold sync_call, SyncArena_scope. cbn [k_thread k_objs k_result].
    rewrite with_lock_eq, (run_as_eq _ _ _ _ _ E). destruct r as [ps|e|e|e]; [| |done|done]; simplify_eq; cbv beta iota; by rewrite decide_True.
  - apply SyncOk_unlock. by apply SyncOk_put.
  - rewrite unlock_aw. simpl. eapply Kept_trans; [exact Hk|]. eapply Kept_trans; [by apply (Kept_as_thread t)|done].
  - done.
Qed.

Lemma sync_lock_inv y0 t z : z_halt z = None → z_owner z = None → SyncInv y0 z → SyncInv y0 (sync_lock t z).
Proof.
  intros Hz Ho. unfold SyncInv at 1. rewrite Hz, Ho. intros (y & Hks & Hy & Hk & Hzy). destruct (thread_ok t y Hy) as [Hok Ht].
  unfold sync_lock. rewrite Hzy. assert ((_ ← lock; run_as t Scope_new) y = run_as t Scope_new y) as ->.
  { unfold lock, Mutex_lock, gets. mrun. by destruct (sy_poisoned y). }
  destruct (checkpoint_cases _ Hok) as [(cp & s1 & E)|(e & E)]; rewrite (run_as_eq t Scope_new y _ _ E).
  - exists y. splits; [done..|]. split; [constructor|]. by exists s1, s1.
  - apply (SyncInv_call y0 y (z_calls z) t _ [] None (Panic e)); try done.
    + destruct (Kept_as_thread t y Hy) as [Hst _ _ _ _ _]. split; try done; [by apply Step_refl|by exists []; rewrite app_nil_r].
    + unfold Arena_scope, Scope_new, mbind, M_bind. by rewrite E.
Qed.

Lemma sync_end_inv y0 h (panics : bool) z :
  z_halt z = None → z_owner z = Some h → SyncInv y0 z →
  SyncInv y0 (sync_end h (if panics then Panic closure_panic else Ok (h_ptrs h)) z).
Proof.
  intros Hz Ho. unfold SyncInv at 1. rewrite Hz, Ho. intros (y & Hks & Hy & Hk & Hobjs & s1 & s2 & Ecp & Erun & Hzy).
  destruct (thread_ok (h_thread h) y Hy) as [Hok Ht]. set (r := if panics then _ else _).
  destruct (scope_end _ _ _ _ _ _ r Hok Ht Ecp Hobjs Erun) as (s3 & E3 & Hk3); [by destruct panics|].
  pose (res := if panics then None else Some (h_ptrs h)).
  assert (SyncInv y0 (mkSyncSys (unlock r (put_thread (h_thread h) s3 y)) None (z_calls z ++ [mkCall (h_thread h) (h_objs h) res]) None))
    as Hinv.
  { apply (SyncInv_call y0 y); try done; [|by destruct panics].
    rewrite (Arena_scope_eq _ _ _ _ r s2 Ecp); [done|].
    rewrite (closure_eq _ _ _ _ _ _ Erun). unfold r, res. by destruct panics. }
  unfold sync_end. rewrite Hzy.
  rewrite (run_as_eq _ _ (put_thread (h_thread h) s2 y) r s3) by (by rewrite as_put_thread). rewrite put_put_thread.
  unfold r, res in *. by destruct panics.
Qed.

Lemma sync_alloc_inv y0 h o z :
  z_halt z = None → z_owner z = Some h → Obj_ok o → offered o → SyncInv y0 z → SyncInv y0 (sync_alloc bt h o z).
Proof.
  intros Hz Ho Hobj Hoff. unfold SyncInv at 1. rewrite Hz, Ho. intros (y & Hks & Hy & Hk & Hobjs & s1 & s2 & Ecp & Erun & Hzy).
  destruct (thread_ok (h_thread h) y Hy) as [Hok _].
  destruct (scope_body _ _ _ _ _ _ Hok Ecp Hobjs Erun) as (Hst & _).
  destruct (alloc_step bt o s2 (step_wf _ _ Hst) Hobj) as (r & s3 & E & Hr).
  unfold sync_alloc. rewrite Hzy, (run_as_eq _ (Arena_obj bt o) (put_thread (h_thread h) s2 y) r s3), put_put_thread
    by (by rewrite as_put_thread).
  destruct r as [p|e|e|e]; try done.
  - exists y. splits; [done..|]. split; [apply Forall_app_2; [done|by apply Forall_singleton]|].
    exists s1, s3. splits; [done| |done]. by apply (run_objs_snoc _ _ _ _ _ s2).
  - destruct Hr as [Hst3 _ Href]. exists o, e. splits; [done..| |done]. eapply Step_trans; [exact (kp_step _ _ Hk)|].
    eapply Step_trans; [exact (kp_step _ _ (Kept_as_thread (h_thread h) y Hy))|]. by eapply Step_trans.
Qed.

Definition event_offered (e : SyncEvent) : Prop := match e with YAlloc _ o => Obj_ok o ∧ offered o | _ => True end.

Lemma Sync_step_inv y0 e z z' : event_offered e → Sync_step bt e z = Some z' → SyncInv y0 z → SyncInv y0 z'.
Proof.
  intros He Hs Hi. unfold Sync_step in Hs. destruct (z_halt z) eqn:Hz; [done|]. destruct (z_owner z) as [h|] eqn:Ho, e as [t|t o|t b]; try done.
  - case_decide; [|done]. injection Hs as <-. by destruct He; apply sync_alloc_inv.
  - case_decide; [|done]. injection Hs as <-. by apply sync_end_inv.
  - injection Hs as <-. by apply sync_lock_inv.
Qed.

Lemma Sync_steps_inv y0 es z z' : Forall event_offered es → Sync_steps bt es z = Some z' → SyncInv y0 z → SyncInv y0 z'.
Proof.
  intros Hes. revert z. induction Hes as [|e es He _ IH]; intros z; simpl; [by intros [= <-]|].
  destruct (Sync_step bt e z) as [z1|] eqn:E; simpl; [|done]. intros Hs Hi. eapply IH; [exact Hs|]. by eapply Sync_step_inv.
Qed.
End lemmas.

Definition event_ok `{Cfg} (e : SyncEvent) : Prop := match e with YAlloc _ o => Obj_ok o | _ => True end.
Lemma events_offered `{Cfg} es : Forall event_ok es → Forall (event_offered (λ o, ∃ t, YAlloc t o ∈ es)) es.
Proof.
  rewrite !Forall_forall. intros Hes e He. pose proof (Hes e He) as Hok. destruct e as [t|t o|t b]; [done| |done]. split; [exact Hok|by exists t].
Qed.

(** ** Creation *)
Section create.
Context `{cfg : Cfg} {ga : GlobalAlloc} `{!GlobalAllocOk ga}.

Lemma SyncArena_with_capacity_ok t self cap w y :
  feat_lockfree = false → World_ok self w → 0 < cap ≤ ISIZE_MAX - 63 → SyncArena_with_capacity t self cap w = Ok y →
  SyncOk y ∧ (∀ x, Inner_avail (iw (sy_aw y)) x → not_live (w_mem w) x) ∧
  (∀ x, ¬ not_live (w_mem w) x → bytes (w_mem (a_world (sy_aw y))) !! x = bytes (w_mem w) !! x).
Proof.
  intros Hlf Hw Hcap. unfold SyncArena_with_capacity. destruct (Arena_with_capacity self cap w) as [[a|e|e|e] w'] eqn:E; try done.
  intros [= <-]. destruct (Arena_with_capacity_try self cap w a w' Hcap E) as (Hb & cap' & Hcap' & E').
  destruct (Arena_try_with_capacity_ok self cap' w a w' Hw Hcap' E') as (Hok & Hav & Hbs & _ & c & Hcs & Hcur & Hu & _).
  split; [|done]. split; simpl; [done| |by apply Hb|].
  - intros j d Hj Hd. rewrite Hcs in Hd. apply list_lookup_singleton_Some in Hd as [-> <-]. done.
  - intros t'. unfold locals. simpl. rewrite lookup_insert. case_decide; [|done]. simpl.
    by destruct Hok as (_ & _ & _ & _ & _ & ?).
Qed.
End create.

(** The memory is what the steps of the system left of it. *)
Lemma SyncInv_step `{cfg : Cfg} {ga : GlobalAlloc} `{!GlobalAllocOk ga} bt offered y0 z :
  feat_lockfree = false → feat_debug = false → z_halt z = None → SyncInv bt offered y0 z → Step (iw (sy_aw y0)) (iw (sy_aw (z_arena z))).
Proof.
  intros Hlf Hdb Hz. unfold SyncInv. rewrite Hz. intros (y & _ & Hy & Hk & Ho).
  destruct (z_owner z) as [h|]; [|rewrite Ho; exact (kp_step _ _ Hk)].
  destruct Ho as (Hobjs & s1 & s2 & Ecp & Erun & ->). simpl.
  eapply Step_trans; [exact (kp_step _ _ Hk)|]. pose proof (kp_step _ _ (Kept_as_thread (h_thread h) y Hy)) as Hst.
  eapply Step_trans; [exact Hst|]. exact (proj1 (scope_body bt Hlf Hdb _ _ _ _ _ _ (step_wf _ _ Hst) Ecp Hobjs Erun)).
Qed.

(** ** Theorems *)

(** C15: scopes of a [SyncArena] are isolated.  In every interleaving of any number of
    threads that run scopes on one [SyncArena], allocating in them and returning or
    panicking, the scopes that ended are those of a sequential execution, in the
    order in which they got the mutex, and left the arena as it was created up to
    empty chunks, whether the mutex is poisoned or not; the objects of the running
    scope are disjoint and hold their values; and no byte that was live before the
    arena existed changed.  The process ends only by an abort, with the arena in a
    state in which it refuses one of the values asked for.  For builds without the
    lock-free and debug features, in a process whose thread caches are empty, and
    values that satisfy [Obj_ok]. *)
Theorem sync_scopes_serializable `{cfg : Cfg} {ga : GlobalAlloc} `{!GlobalAllocOk ga} bt t self cap w y0 es z :
  feat_lockfree = false → feat_debug = false →
  World_ok self w → 0 < cap ≤ ISIZE_MAX - 63 → SyncArena_with_capacity t self cap w = Ok y0 →
  Forall event_ok es → Sync_steps bt es (mkSyncSys y0 None [] None) = Some z →
  match z_halt z with
  | Some r => let s := sy_aw (z_arena z) in
      ∃ o e, r = Abort e ∧ Obj_ok o ∧ (∃ t, YAlloc t o ∈ es) ∧ Step (iw (sy_aw y0)) (iw s) ∧ refused (o_layout o) s
  | None =>
      (∀ x, ¬ not_live (w_mem w) x → bytes (w_mem (a_world (sy_aw (z_arena z)))) !! x = bytes (w_mem w) !! x) ∧
      ∃ y, sync_calls bt (z_calls z) y0 = Some y ∧ Arena_ok (sy_aw y) ∧
        (∃ extra, in_chunks (a_inner (a_arena (sy_aw y))) = in_chunks (a_inner (a_arena (sy_aw y0))) ++ extra ∧
                  Forall (λ c, c_used c = 0) extra) ∧
        in_current_chunk (a_inner (a_arena (sy_aw y))) = in_current_chunk (a_inner (a_arena (sy_aw y0))) ∧
        match z_owner z with
        | None => z_arena z = y
        | Some h => pw_disjoint (obj_range <$> zip (h_objs h) (h_ptrs h)) ∧
            Forall (obj_stored (w_mem (a_world (sy_aw (z_arena z))))) (zip (h_objs h) (h_ptrs h))
        end
  end.
Proof.
  intros Hlf Hdb Hw Hcap Hnew Hes Hz. destruct (SyncArena_with_capacity_ok t self cap w y0 Hlf Hw Hcap Hnew) as (Hy0 & Hav & Hbs).
  set (offered o := ∃ t, YAlloc t o ∈ es). assert (SyncInv bt offered y0 z) as Hi.
  { apply (Sync_steps_inv bt Hlf Hdb offered y0 es _ z (events_offered es Hes) Hz). exists y0. splits; [done|done| |done].
    destruct Hy0. split; try done; [by apply Step_refl|by exists []; rewrite app_nil_r]. }
  pose proof Hi as Hi'. unfold SyncInv in Hi. destruct (z_halt z) eqn:Hh; [done|].
  destruct Hi as (y & Hks & Hy & Hk & Ho). split.
  { intros x Hx. rewrite <- (Hbs x Hx). apply (step_bytes _ _ (SyncInv_step bt offered y0 z Hlf Hdb Hh Hi')). auto. }
  exists y. destruct Hk as [_ Hcs Hcur _ _ _]. splits; [done|apply Hy|done|done|]. destruct (z_owner z) as [h|]; [|done].
  destruct Ho as (Hobjs & s1 & s2 & Ecp & Erun & ->). simpl.
  exact (proj2 (proj2 (proj2 (scope_body bt Hlf Hdb _ _ _ _ _ _ (proj1 (thread_ok (h_thread h) y Hy)) Ecp Hobjs Erun)))).
Qed.

(** Thread 1 panics in its scope, thread 2 runs one that spills into a new chunk,
    thread 1 is inside a scope again. *)
Lemma sync_scopes_serializable_witness :
  let cfg := cfg_dev in let ga := bump_alloc in
  let small := mkObj (mkLayout 4 4) [1;2;3;4] in let big := mkObj (mkLayout 200 8) (replicate 200 1) in
  let es := [YLock 1; YAlloc 1 small; YEnd 1 true; YLock 2; YAlloc 2 small; YAlloc 2 big; YEnd 2 false; YLock 1; YAlloc 1 small] in
  let y0 := put_thread 0 demo_state (mkSync demo_state ∅ false) in
  ∃ z h, Sync_steps "bt" es (mkSyncSys y0 None [] None) = Some z ∧ z_owner z = Some h ∧ h_ptrs h = [65600] ∧
    sy_poisoned (z_arena z) = true ∧ z_calls z = [mkCall 1 [small] None; mkCall 2 [small; big] (Some [65600; 65728])] ∧
    Forall (obj_stored (w_mem (a_world (sy_aw (z_arena z))))) [(small, 65600)].
Proof.
  intros cfg ga small big es y0.
  pose (obs z := (z_halt z, h_objs <$> z_owner z, h_ptrs <$> z_owner z, sy_poisoned (z_arena z), z_calls z)).
  assert (obs <$> Sync_steps "bt" es (mkSyncSys y0 None [] None) =
    Some (None, Some [small], Some [65600], true, [mkCall 1 [small] None; mkCall 2 [small; big] (Some [65600; 65728])])) as Hobs
    by (vm_compute; reflexivity).
  destruct (Sync_steps "bt" es (mkSyncSys y0 None [] None)) as [z|] eqn:E; [|discriminate Hobs].
  unfold obs in Hobs. cbn [fmap option_fmap option_map] in Hobs. injection Hobs as Hh Hobjs Hptrs Hp Hc.
  pose proof (@sync_scopes_serializable cfg ga bump_alloc_ok "bt" 0 100 100 demo_world y0 es z) as H.
  rewrite Hh in H. destruct (z_owner z) as [h|] eqn:Ho; [|discriminate Hobjs].
  injection Hobjs as Hobjs. injection Hptrs as Hptrs. exists z, h.
  split; [reflexivity|]. split; [exact Ho|]. split; [exact Hptrs|]. split; [exact Hp|]. split; [exact Hc|].
  destruct H as (_ & y & _ & _ & _ & _ & _ & Hs).
  - reflexivity.
  - reflexivity.
  - exact demo_world_ok.
  - ulia.
  - unfold SyncArena_with_capacity, Arena_with_capacity, mbind, M_bind. by rewrite demo_new.
  - repeat constructor; vm_compute; intuition discriminate.
  - exact E.
  - rewrite Hobjs, Hptrs in Hs. exact Hs.
Defined.

(** [alloc] of arena.rs's [SyncArena] never returns: on a valid value it panics
    after allocating, or aborts, so it poisons the mutex and keeps the memory. *)
Lemma SyncArena_alloc_never_returns `{cfg : Cfg} {ga : GlobalAlloc} bt t o y p y' : SyncArena_alloc bt t o y ≠ (Ok p, y').
Proof.
  unfold SyncArena_alloc. rewrite with_lock_eq. destruct (run_as _ _ y) as [r y1] eqn:E. intros [= -> _].
  apply run_as_inv in E as (s & (q & s1 & _ & E)%M_bind_Ok & _). done.
Qed.
