(* ===== verification/ArenaRelease.v ===== *)
(** * ArenaRelease: reset, shrinking and dropping an arena

    Which blocks an arena gives back to the global allocator, and when.  [Accounts]
    states that an arena accounts for every block allocated since it was created. *)
From S2P Require Import Prelude Memory Bump Chunk Slab ThreadLocal LockFree VirtualMemory Debug Inner InnerInv Objects Arena ArenaSafety ArenaCheckpoint BufferFrame.
Local Open Scope Z_scope.

(** ** Dropping chunks *)
Lemma remove_block_perm b h h' : remove_block b h = Some h' → h ≡ₚ b :: h'.
Proof. intros (h1 & h2 & -> & ->)%remove_block_sub. symmetry. apply Permutation_middle. Qed.

Lemma drop_chunks_spec cs m :
  Forall Chunk_wf cs → (Chunk_block <$> cs) ⊆+ heap m →
  ∃ m', drop_chunks cs m = (Ok tt, m') ∧ heap m ≡ₚ (Chunk_block <$> cs) ++ heap m' ∧ bytes m' = bytes m.
Proof.
  intros Hf. revert m. induction Hf as [|c cs Hc Hf IH]; intros m Hsub; simpl in *; [by exists m|].
  assert (Chunk_block c ∈ heap m) as Hin by (eapply elem_of_submseteq; [|exact Hsub]; constructor).
  destruct (remove_block_elem _ _ Hin) as [h' Hr]. pose proof (remove_block_perm _ _ _ Hr) as Hp.
  assert (Chunk_drop c m = (Ok tt, mkMem h' (bytes m))) as Hdrop.
  { unfold Chunk_drop. destruct Hc as (_&_&_&Hcap&_). destruct (Z.ltb_spec 0 (c_capacity c)); [|lia].
    rewrite Layout_from_size_align_ok by (split_and!; simpl; [lia|reflexivity|lia]).
    unfold sys_dealloc. fold (Chunk_block c). by rewrite Hr. }
  destruct (IH (mkMem h' (bytes m))) as (m' & E & Hp' & Hb).
  { simpl. rewrite Hp in Hsub. by apply (submseteq_app_inv_l _ _ [Chunk_block c]) in Hsub. }
  exists m'. unfold mbind, M_bind. rewrite Hdrop, E. split; [done|]. simpl in *. split; [by rewrite Hp, Hp'|done].
Qed.

(** ** Accounting for blocks *)

(** Every block is a chunk of the arena or one of [outside]. *)
Definition Accounts (outside : list Block) (s : IW) : Prop :=
  heap (s_mem s) ≡ₚ (Chunk_block <$> in_chunks (i_inner s)) ++ outside.
(** The same, of an arena without a lock-free buffer. *)
Definition Owns (outside : list Block) (s : IW) : Prop :=
  heap (s_mem s) ≡ₚ (Chunk_block <$> in_chunks (i_inner s)) ++ outside ∧ in_lockfree_buffer (i_inner s) = None.

Lemma Accounts_same_view outside s s' : same_view s s' → Accounts outside s → Accounts outside s'.
Proof. intros [H1 H2 H3 H4]. unfold Accounts, s_mem. by rewrite H1, H4. Qed.

Lemma Accounts_with_current outside s c c' :
  in_chunks (i_inner s) !! in_current_chunk (i_inner s) = Some c → Chunk_block c' = Chunk_block c →
  Accounts outside s → Accounts outside (with_current c' s).
Proof.
  intros Hc Hb Hh. unfold Accounts in *. rewrite Hh. pose proof (with_current_blocks s c c' Hc Hb) as E.
  unfold Inner_blocks in E. simpl in *. apply app_inv_tail in E. by rewrite E.
Qed.

Lemma Accounts_with_new outside s c : Accounts outside s → Accounts outside (with_new c s).
Proof. unfold Accounts. simpl. intros ->. rewrite fmap_app. simpl. solve_Permutation. Qed.

Section accounts.
Context `{cfg : Cfg} {ga : GlobalAlloc} `{!GlobalAllocOk ga} (bt : string) (outside : list Block).
Hypothesis (Hdb : feat_debug = false).

Lemma ArenaInner_allocate_accounts l s r s' :
  Inner_wf s → Layout_ok l → ArenaInner_allocate l s = (Ok r, s') → Accounts outside s → Accounts outside s'.
Proof.
  intros Hw Hl E Ho. destruct (current_chunk s Hw) as (c & Hc & _).
  pose proof (ArenaInner_allocate_step l s c Hw Hl Hc) as Hal. destruct (decide (Chunk_fits l c)).
  - destruct Hal as (x & Ex & _ & _ & _ & Hv). rewrite Ex in E. injection E as _ <-.
    eapply Accounts_same_view; [exact Hv|]. by apply (Accounts_with_current _ _ c).
  - rewrite Hal in E. by injection E as _ <-.
Qed.

Lemma alloc_new_chunk_accounts l s p s' :
  Arena_ok s → Layout_ok l → alloc_new_chunk bt l s = (Ok p, s') → Accounts outside (iw s) → Accounts outside (iw s').
Proof.
  intros Hok Hl (cap & s3 & [= Hcap <-] & (idx & s4 & E4 & E5)%M_bind_Ok)%M_bind_Ok Ho.
  destruct idx as [idx|e]; [|done]. pose proof (add_chunk_ok l cap s idx s4 Hok Hcap E4) as Hok4.
  apply with_inner_inv in E4.
  destruct (next_chunk_capacity_eq (l_size l)) as (j & Hj & Hcap' & _). rewrite Hcap in Hcap'. injection Hcap' as ->.
  assert (2 ^ 0 ≤ 2 ^ j ≤ 2 ^ 12) as Hle by (split; apply Z.pow_le_mono_r; lia). change (2 ^ 12) with 4096 in Hle.
  destruct (add_chunk_eq (4096 * 2 ^ j) (iw s)) as [[_ Ea]|(d & x & _ & Ea & _ & _ & _ & _ & Hv)]; [ulia|done| |];
    rewrite Ea in E4; [done|]. injection E4 as _ Hx.
  apply M_bind_Ok in E5 as (r & s5 & E5%with_inner_inv & E6). destruct r as [q|]; [|done].
  unfold guard_wrap in E6. rewrite Hdb in E6. injection E6 as _ <-.
  eapply ArenaInner_allocate_accounts; [exact Hok4|exact Hl|exact E5|]. rewrite <- Hx.
  eapply Accounts_same_view; [exact Hv|]. by apply Accounts_with_new.
Qed.

Lemma alloc_regular_accounts l s p s' :
  Arena_ok s → Layout_ok l → alloc_regular bt l s = (Ok p, s') → Accounts outside (iw s) → Accounts outside (iw s').
Proof.
  intros Hok Hl (r & s2 & E2%with_inner_inv & E3)%M_bind_Ok Ho.
  pose proof (ArenaInner_allocate_accounts _ _ _ _ Hok Hl E2 Ho) as Ho2. destruct r as [q|].
  - unfold guard_wrap in E3. rewrite Hdb in E3. by injection E3 as _ <-.
  - eapply alloc_new_chunk_accounts; [|exact Hl|exact E3|exact Ho2].
    destruct (current_chunk (iw s) Hok) as (c & Hc & _).
    pose proof (ArenaInner_allocate_step _ (iw s) c Hok Hl Hc) as Hal. destruct (decide (Chunk_fits l c)).
    + destruct Hal as (y & Ey & _). by rewrite Ey in E2.
    + rewrite Hal in E2. injection E2 as Hi Hw. unfold Arena_ok, iw in *. by rewrite <- Hi, <- Hw.
Qed.

Lemma raw_accounts l s p s' :
  Arena_ok s → Layout_ok l → 0 < l_size l → Arena_allocate_raw bt l s = (Ok p, s') → Accounts outside (iw s) → Accounts outside (iw s').
Proof.
  intros Hok Hl Hsz E1 Ho. revert E1. unfold Arena_allocate_raw. destruct (Z.eqb_spec (l_size l) 0); [lia|].
  destruct (alloc_lockfree_step bt l s Hok Hl) as (r1 & s1 & E1 & Hst1 & _).
  pose proof (calm_alloc_lockfree bt (in_chunks (a_inner (a_arena s))) (w_mem (a_world s)) Hdb (l_size l) (l_align l) s (conj eq_refl eq_refl)) as Hc.
  unfold mbind at 1, M_bind at 1. rewrite E1 in Hc |- *. destruct Hc as [Hc1 Hm1]. cbn [snd] in Hc1, Hm1.
  assert (Accounts outside (iw s1)) as Ho1 by (unfold Accounts, s_mem, iw in *; simpl in *; by rewrite Hc1, Hm1).
  destruct r1 as [q1|]; [by intros [= _ <-]|]. pose proof (step_wf _ _ Hst1) as Hok1.
  destruct (alloc_thread_local_arena bt Hdb (l_size l) (l_align l) s1 Hok1) as (s0 & E0 & Ha).
  destruct (alloc_thread_local_step bt l s1 Hok1 Hl) as (s0' & E0' & [Hst0 (_ & _ & Hh)]).
  rewrite E0 in E0'. injection E0' as <-. unfold mbind at 1, M_bind at 1. rewrite E0. apply step_wf in Hst0.
  intros E. eapply alloc_regular_accounts; [exact Hst0|exact Hl|exact E|]. unfold Accounts, s_mem, iw in *. simpl in *. by rewrite Hh, Ha.
Qed.

(** Writing through a pointer changes no block. *)
Lemma write_accounts q t data s x s' :
  a_on_mem (ptr_write q t data) s = (x, s') → Accounts outside (iw s) → Accounts outside (iw s').
Proof.
  unfold a_on_mem, a_on_world, w_on_mem, ptr_write, zoom. intros E Ho. destruct (_ =? 0); [|by simplify_eq/=; destruct s as [? []]].
  unfold mem_store in E. case_decide; simplify_eq/=; [done|by destruct s as [? []]].
Qed.

Lemma alloc_accounts o s p s' :
  Arena_ok s → Obj_ok o → Arena_alloc bt (o_layout o) (o_value o) s = (Ok p, s') →
  Accounts outside (iw s) → Accounts outside (iw s').
Proof.
  intros Hok (Hl & Hsz & _) (q & s1 & E1 & (x & s2 & E2 & [= _ <-])%M_bind_Ok)%M_bind_Ok Ho.
  eapply write_accounts; [exact E2|]. by eapply raw_accounts.
Qed.

Lemma alloc_owns o s p s' :
  Arena_ok s → Obj_ok o → Arena_alloc bt (o_layout o) (o_value o) s = (Ok p, s') →
  Owns outside (iw s) → Owns outside (iw s').
Proof.
  intros Hok Ho E [Hh Hn]. split; [exact (alloc_accounts o s p s' Hok Ho E Hh)|]. simpl in *. apply lf_id_None.
  rewrite (kept_buffer (Arena_alloc bt (o_layout o) (o_value o)) s (Ok p) s' (λ k, buffer_alloc bt k _ _) E). by apply lf_id_None.
Qed.
End accounts.

(** ** The invariant when chunks are given back *)
Lemma chunks_replaced s cs m :
  Inner_wf s → Forall Chunk_wf cs → cs ≠ [] →
  (Chunk_block <$> cs) ++ lf_blocks (in_lockfree_buffer (i_inner s)) ⊆+ heap m → heap m ⊆+ heap (s_mem s) →
  ∀ w i, w_mem w = m → w_slab w = w_slab (i_world s) → tc_used (w_cache w) = 0%nat →
    in_chunks i = cs → in_current_chunk i = 0%nat → in_lockfree_buffer i = in_lockfree_buffer (i_inner s) →
    Inner_wf (mkIW i w).
Proof.
  intros (Hm & _ & _ & _ & Hlf & _) Hf Hne Hsub Hh w i Hwm Hws Htc Hcs Hcur Hb.
  unfold Inner_wf, Inner_blocks. cbn [i_inner i_world]. rewrite Hwm, Hcs, Hcur, Hb. splits; [|done|done| | |done].
  - eapply pw_disjoint_submseteq; [|exact Hm]. by apply fmap_submseteq.
  - destruct cs; simpl; [done|lia].
  - unfold lf_ok, lf_state, slab_matches, LF_wf in *. cbn [x_buf x_slab] in *. by rewrite Hws.
Qed.

Lemma Chunk_reset_wf c : Chunk_wf c → Chunk_wf (Chunk_reset c).
Proof. unfold Chunk_wf, Chunk_reset. simpl. lia. Qed.

Lemma Chunk_reset_blocks (cs : list Chunk) : Chunk_block <$> (Chunk_reset <$> cs) = Chunk_block <$> cs.
Proof. rewrite <- list_fmap_compose. by apply list_fmap_ext. Qed.

Section new_owns.
Context `{cfg : Cfg} {ga : GlobalAlloc} `{!GlobalAllocOk ga}.

(** A new arena without a lock-free buffer owns its first chunk. *)
Lemma Arena_new_owns self cap w a w' :
  feat_lockfree = false → 0 < cap ≤ ISIZE_MAX - 63 → Arena_try_with_capacity self cap w = (Ok (ROk a), w') →
  Owns (heap (w_mem w)) (iw (mkAW a w')) ∧ in_virtual_region (a_inner a) = None.
Proof.
  intros Hlf Hcap. unfold Arena_try_with_capacity, ArenaInner_new, w_on_mem. mrun. rewrite Hlf.
  pose proof (Chunk_new_wf cap (w_mem w)) as Hnew.
  destruct (Chunk_new cap (w_mem w)) as [[[c|e]|e|e|e] m1]; simpl; try done.
  destruct (Hnew c m1 Hcap eq_refl) as (_ & _ & _ & -> & _). clear Hnew.
  set (i := if feat_stats then _ else _). set (w1 := w_set_mem _ _).
  destruct (Arena_from_inner_same i w1) as (a0 & w0 & -> & Hai & Hmem & _). intros [= <- <-].
  unfold Owns, iw, s_mem. cbn [i_inner i_world a_arena a_world]. rewrite Hai, Hmem.
  unfold i, w1. by destruct feat_stats.
Qed.
End new_owns.

Lemma shrink_eq `{cfg : Cfg} c rest s m' :
  in_chunks (a_inner (a_arena s)) = c :: rest → drop_chunks rest (w_mem (a_world s)) = (Ok tt, m') →
  ∃ s', Arena_reset_and_shrink_to_fit s = (Ok tt, s') ∧ w_mem (a_world s') = m' ∧
    w_slab (a_world s') = w_slab (a_world s) ∧ w_cache (a_world s') = w_cache (a_world s) ∧
    in_chunks (a_inner (a_arena s')) = [Chunk_reset c] ∧ in_current_chunk (a_inner (a_arena s')) = 0%nat ∧
    in_checkpoints (a_inner (a_arena s')) = [] ∧
    in_lockfree_buffer (a_inner (a_arena s')) = in_lockfree_buffer (a_inner (a_arena s)).
Proof.
  intros Hcs E.
  unfold Arena_reset_and_shrink_to_fit, with_inner, on_inner, stats_update, a_on_mem, a_on_world, w_on_mem. mrun.
  rewrite Hcs. destruct rest as [|c2 rest]; cbn [length Nat.ltb Nat.leb drop].
  - simpl in E. injection E as <-. mrun. rewrite Hcs. destruct feat_stats; by eexists.
  - mrun. rewrite E. destruct feat_stats; by eexists.
Qed.

(** [reset] on a well-formed arena. *)
Lemma reset_step `{cfg : Cfg} s :
  feat_lockfree = false → Arena_ok s →
  ∃ s', Arena_reset s = (Ok tt, s') ∧ Arena_ok s' ∧
    in_chunks (a_inner (a_arena s')) = Chunk_reset <$> in_chunks (a_inner (a_arena s)) ∧
    in_current_chunk (a_inner (a_arena s')) = 0%nat ∧ in_checkpoints (a_inner (a_arena s')) = [] ∧
    w_mem (a_world s') = w_mem (a_world s) ∧
    in_lockfree_buffer (a_inner (a_arena s')) = in_lockfree_buffer (a_inner (a_arena s)) ∧
    (feat_stats = true → in_stats (a_inner (a_arena s')) = mkStats 0 0 0 (st_chunk_count (in_stats (a_inner (a_arena s))))).
Proof.
  intros Hlf Hok. pose proof Hok as (Hm & Hsub & Hf & Hcur & _ & Htc). unfold iw in *. cbn [i_inner i_world] in *.
  unfold Arena_reset, with_inner, on_inner, stats_update. mrun.
  assert (Forall Chunk_wf (Chunk_reset <$> in_chunks (a_inner (a_arena s)))) as Hf'.
  { apply Forall_fmap. eapply Forall_impl; [exact Hf|]. intros c. apply Chunk_reset_wf. }
  assert (∀ w i, w_mem w = w_mem (a_world s) → w_slab w = w_slab (a_world s) → tc_used (w_cache w) = 0%nat →
    in_chunks i = Chunk_reset <$> in_chunks (a_inner (a_arena s)) → in_current_chunk i = 0%nat →
    in_lockfree_buffer i = in_lockfree_buffer (a_inner (a_arena s)) → Inner_wf (mkIW i w)) as Hwf.
  { apply (chunks_replaced (iw s)); [exact Hok|exact Hf'| | |done].
    - intros [=E]%(f_equal length). rewrite length_fmap in E. lia.
    - rewrite Chunk_reset_blocks. exact Hsub. }
  destruct feat_stats; mrun; rewrite (reset_caches_eq Hlf); destruct feat_thread_local; cbn;
    (eexists; split; [reflexivity|]); cbn; splits; try done; by apply Hwf.
Qed.

(** [reset_and_shrink_to_fit] on a well-formed arena. *)
Lemma shrink_step `{cfg : Cfg} s :
  Arena_ok s →
  ∃ c rest s', in_chunks (a_inner (a_arena s)) = c :: rest ∧ Arena_reset_and_shrink_to_fit s = (Ok tt, s') ∧
    Arena_ok s' ∧ in_chunks (a_inner (a_arena s')) = [Chunk_reset c] ∧
    in_current_chunk (a_inner (a_arena s')) = 0%nat ∧ in_checkpoints (a_inner (a_arena s')) = [] ∧
    heap (w_mem (a_world s)) ≡ₚ (Chunk_block <$> rest) ++ heap (w_mem (a_world s')) ∧
    bytes (w_mem (a_world s')) = bytes (w_mem (a_world s)) ∧
    in_lockfree_buffer (a_inner (a_arena s')) = in_lockfree_buffer (a_inner (a_arena s)).
Proof.
  intros Hok. pose proof Hok as (Hm & Hsub & Hf & Hcur & _ & Htc). unfold iw in *. cbn [i_inner i_world] in *.
  destruct (in_chunks (a_inner (a_arena s))) as [|c rest] eqn:Hcs; [simpl in Hcur; lia|].
  apply Forall_cons in Hf as [Hc Hf]. unfold Inner_blocks in Hsub. rewrite Hcs in Hsub. simpl in Hsub.
  destruct (drop_chunks_spec rest (w_mem (a_world s)) Hf) as (m' & E & Hp & Hb).
  { etrans; [|exact Hsub]. apply submseteq_cons, submseteq_inserts_r. done. }
  assert (∀ w i, w_mem w = m' → w_slab w = w_slab (a_world s) → tc_used (w_cache w) = 0%nat →
    in_chunks i = [Chunk_reset c] → in_current_chunk i = 0%nat →
    in_lockfree_buffer i = in_lockfree_buffer (a_inner (a_arena s)) → Inner_wf (mkIW i w)) as Hwf.
  { apply (chunks_replaced (iw s)); [exact Hok|by constructor; [apply Chunk_reset_wf|]|done| |].
    - apply (submseteq_app_inv_l _ _ (Chunk_block <$> rest)). simpl. rewrite <- Hp.
      etrans; [|exact Hsub]. apply Permutation_submseteq. solve_Permutation.
    - unfold s_mem, iw. simpl. rewrite Hp. apply submseteq_inserts_l. done. }
  destruct (shrink_eq c rest s m' Hcs E) as (s' & E' & Hm' & Hs' & Hc' & Hcs' & Hcur' & Hcp' & Hl').
  exists c, rest, s'. splits; [done|exact E'| |done|done|done|by rewrite Hm'|by rewrite Hm'|done].
  unfold Arena_ok, iw. apply Hwf; try done. by rewrite Hc'.
Qed.

(** ** Theorems *)

(** C11: [Arena::reset] empties an arena and keeps its memory, in builds without the
    lock-free feature (whose buffer it zeroes).  It always returns;
    every chunk stays allocated with its capacity and is empty, the first chunk is
    current, the checkpoint stack is empty, the arena is well formed again, and
    the heap and its contents are those before.  Its documentation says that it
    deallocates all memory; and with [stats] it reports zero bytes allocated,
    though [bytes_allocated] counts the capacity of the chunks. *)
Theorem arena_reset_spec `{cfg : Cfg} s :
  feat_lockfree = false → Arena_ok s →
  ∃ s', Arena_reset s = (Ok tt, s') ∧ Arena_ok s' ∧ tail_unused (a_inner (a_arena s')) ∧
    Arena_chunk_usage (a_arena s') = (λ u, mkChunkUsage (cu_capacity u) 0) <$> Arena_chunk_usage (a_arena s) ∧
    in_current_chunk (a_inner (a_arena s')) = 0%nat ∧ Arena_checkpoint_count (a_arena s') = 0 ∧
    w_mem (a_world s') = w_mem (a_world s) ∧
    (feat_stats = true →
       Arena_stats (a_arena s') = mkStats 0 0 0 (st_chunk_count (in_stats (a_inner (a_arena s))))).
Proof.
  intros Hlf Hok. destruct (reset_step s Hlf Hok) as (s' & E & Hok' & Hcs & Hcur & Hcp & Hm & _ & Hst). exists s'.
  unfold Arena_stats, Arena_chunk_usage, Arena_checkpoint_count. rewrite Hcs, Hcp. splits; try done.
  - intros j c _. rewrite Hcs. intros (c0 & -> & _)%list_lookup_fmap_Some. done.
  - by rewrite <- !list_fmap_compose.
  - intros Hs. rewrite Hs. by apply Hst.
Qed.

Lemma arena_reset_spec_witness :
  ∃ s', @Arena_reset cfg_dev demo_state = (Ok tt, s') ∧ Arena_ok s' ∧
    Arena_chunk_usage (a_arena s') = [mkChunkUsage 128 0] ∧ heap (w_mem (a_world s')) = heap (w_mem (a_world demo_state)) ∧
    st_bytes_allocated (@Arena_stats cfg_dev (a_arena demo_state)) = 100 ∧ st_bytes_allocated (@Arena_stats cfg_dev (a_arena s')) = 0.
Proof.
  destruct (@arena_reset_spec cfg_dev demo_state) as (s' & E & Hok & _ & Hu & _ & _ & Hm & Hst);
    [reflexivity|exact demo_ok|].
  exists s'. splits; [exact E|exact Hok|exact Hu|by rewrite Hm|reflexivity|by rewrite Hst].
Defined.

(** C10: [reset_and_shrink_to_fit] gives back exactly the chunks beyond the first,
    each with the layout it was allocated with, and leaves the arena well formed
    with its first chunk empty and current and no checkpoints; for every
    combination of features. *)
Theorem reset_and_shrink_spec `{cfg : Cfg} s :
  Arena_ok s →
  ∃ c rest s', in_chunks (a_inner (a_arena s)) = c :: rest ∧ Arena_reset_and_shrink_to_fit s = (Ok tt, s') ∧
    Arena_ok s' ∧ in_chunks (a_inner (a_arena s')) = [Chunk_reset c] ∧
    in_current_chunk (a_inner (a_arena s')) = 0%nat ∧ Arena_checkpoint_count (a_arena s') = 0 ∧
    heap (w_mem (a_world s)) ≡ₚ (Chunk_block <$> rest) ++ heap (w_mem (a_world s')) ∧
    bytes (w_mem (a_world s')) = bytes (w_mem (a_world s)).
Proof.
  intros Hok. destruct (shrink_step s Hok) as (c & rest & s' & H1 & H2 & H3 & H4 & H5 & H6 & H7 & H8 & _). exists c, rest, s'.
  splits; try done. unfold Arena_checkpoint_count. by rewrite H6.
Qed.

Lemma reset_and_shrink_spec_witness :
  ∃ s c rest s', @Arena_run cfg_dev bump_alloc "bt" [mkObj (mkLayout 200 8) (replicate 200 1)] demo_state = (Ok [65728], s) ∧
    in_chunks (a_inner (a_arena s)) = c :: rest ∧ length rest = 1%nat ∧
    @Arena_reset_and_shrink_to_fit cfg_dev s = (Ok tt, s') ∧ Arena_ok s' ∧ in_chunks (a_inner (a_arena s')) = [Chunk_reset c].
Proof.
  pose (objs := [mkObj (mkLayout 200 8) (replicate 200 1)]).
  destruct (@Arena_run cfg_dev bump_alloc "bt" objs demo_state) as [o s] eqn:E.
  assert (o = Ok [65728]) as -> by (change o with ((o, s).1); rewrite <- E; vm_compute; reflexivity).
  assert (length (in_chunks (a_inner (a_arena s))) = 2%nat) as Hl
    by (change s with ((Ok [65728], s).2); rewrite <- E; vm_compute; reflexivity).
  destruct (@run_step cfg_dev bump_alloc bump_alloc_ok "bt" objs demo_state demo_ok) as (r & s0 & E0 & Hr).
  { repeat constructor; vm_compute; intuition discriminate. }
  rewrite E in E0. injection E0 as <- <-. destruct Hr as (_ & Hst & _).
  destruct (@reset_and_shrink_spec cfg_dev s) as (c & rest & s' & Hcs & Er & Hok' & Hcs' & _);
    [exact (step_wf _ _ Hst)|].
  exists s, c, rest, s'. rewrite Hcs in Hl. injection Hl as Hl.
  splits; [exact E|exact Hcs|exact Hl|exact Er|exact Hok'|exact Hcs'].
Defined.
