(* ===== verification/CacheReset.v ===== *)
(** * CacheReset: rewinding and resetting in builds with the lock-free buffer

    Rewinding and resetting an arena also reset its lock-free buffer: the arena itself
    stays well formed, but the objects in the buffer are destroyed ([Wiped]), also the
    ones older than the checkpoint.  The one exception is the increment of the
    generation counter in builds that combine the feature single_thread_fast with
    overflow checks, where it panics after 2^64 resets: those are left out
    ([generation_wraps]). *)
From S2P Require Import Prelude Memory Bump Chunk Slab ThreadLocal LockFree VirtualMemory Debug Inner InnerInv LockFreeRace Objects Arena ArenaSafety ArenaCheckpoint ArenaFrames ArenaRelease.
Local Open Scope Z_scope.

Definition generation_wraps `{Cfg} : Prop := feat_lockfree = true → feat_single_thread_fast = true → overflow_checks = false.

(** The same arena, but for the lock-free buffer and the thread's caches. *)
Record same_arena (s s' : IW) : Prop := mkSameArena {
  sa_chunks : in_chunks (i_inner s') = in_chunks (i_inner s);
  sa_current : in_current_chunk (i_inner s') = in_current_chunk (i_inner s);
  sa_stack : in_checkpoints (i_inner s') = in_checkpoints (i_inner s);
  sa_heap : heap (s_mem s') = heap (s_mem s)
}.

Lemma same_arena_trans s1 s2 s3 : same_arena s1 s2 → same_arena s2 s3 → same_arena s1 s3.
Proof. intros [] []. split; congruence. Qed.

(** Whatever lies in buffer [b] reads as zeros, and the buffer is empty. *)
Definition Wiped (b : LockFreeBuffer) (s : IW) : Prop :=
  (∀ a, a ∈ mkRange (lf_buffer b) LOCKFREE_BUFFER_SIZE → bytes (s_mem s) !! a = Some 0) ∧
  ∃ b', in_lockfree_buffer (i_inner s) = Some b' ∧ lf_buffer b' = lf_buffer b ∧ lf_offset b' = 0 ∧
    slab_matches (lf_state b' (i_world s)) = false.

(** With the feature, the buffer is wiped. *)
Definition wipes `{Cfg} (s s' : IW) : Prop :=
  ∀ b, feat_lockfree = true → in_lockfree_buffer (i_inner s) = Some b → lf_buffer b ≠ 0 → Wiped b s'.

Section reset.
Context `{cfg : Cfg}.

Lemma buffer_reset_wf b s :
  generation_wraps → feat_lockfree = true → Inner_wf s → in_lockfree_buffer (i_inner s) = Some b →
  ∃ s', with_lockfree b LockFreeBuffer_reset s = (Ok tt, s') ∧ Inner_wf s' ∧ same_arena s s' ∧ (lf_buffer b ≠ 0 → Wiped b s').
Proof.
  intros Hg Hlf (Hm & Hsub & Hf & Hlt & Hb & Htc) Eb. rewrite Eb in Hb. unfold Inner_blocks in Hsub. rewrite Eb in Hsub. cbn [lf_ok lf_blocks] in Hb, Hsub. unfold with_lockfree, LockFreeBuffer_reset. mrun.
  assert (∃ g, (if feat_single_thread_fast then usize_add (lf_generation b) 1 else Ok (fetch_add (lf_generation b) 1)) = Ok g) as [g ->].
  { destruct feat_single_thread_fast eqn:Es; [|by eexists]. unfold usize_add, usize_op. rewrite (Hg Hlf Es). repeat case_match; by eexists. }
  destruct (lf_buffer b =? 0) eqn:Ez; (eexists; split; [reflexivity|]); (split; [|split; [by split|]]).
  2:{ intros Hz. by apply Z.eqb_eq in Ez. }
  3:{ intros _. destruct Hb as (_ & _ & _ & _ & Hcap & _). simpl in Hcap. split.
      - intros a Ha. cbn. rewrite lookup_write_bytes, length_replicate, Hcap. rewrite decide_True by range_solve.
        apply lookup_replicate_2. unfold LOCKFREE_BUFFER_SIZE in *. range_solve.
      - eexists. split; [reflexivity|]. splits; try done. apply ThreadSlab_new_no_match. }
  all: unfold Inner_wf, Inner_blocks; simpl; rewrite Ez; splits; try done.
  - apply ThreadSlab_new_no_match.
  - destruct Hb as (? & ? & ? & ? & ? & ? & _). unfold LF_wf. simpl in *. unfold LOCKFREE_BUFFER_SIZE in *. splits; try (done || lia).
    by intros [=]%(eq_trans (eq_sym (ThreadSlab_new_no_match _ _))).
Qed.

Lemma reset_caches_wf s :
  generation_wraps → Inner_wf s → ∃ s', reset_caches s = (Ok tt, s') ∧ Inner_wf s' ∧ same_arena s s' ∧ wipes s s'.
Proof.
  intros Hg Hw. unfold reset_caches. unfold mbind at 1, M_bind at 1.
  assert (∃ s1, (if feat_thread_local then in_world (w_on_cache reset_thread_cache) else mret tt) s = (Ok tt, s1) ∧
    Inner_wf s1 ∧ same_arena s s1 ∧ i_inner s1 = i_inner s) as (s1 & -> & Hw1 & Hs1 & Hi).
  { destruct feat_thread_local; (eexists; split; [reflexivity|]); (split; [|by split]); [|done].
    destruct Hw as (? & ? & ? & ? & ? & ?). by unfold Inner_wf. }
  unfold wipes. rewrite <- Hi. destruct feat_lockfree eqn:Hlf; [|by exists s1]. unfold mbind, M_bind, gets.
  destruct (in_lockfree_buffer (i_inner s1)) as [b|] eqn:Eb; [|by exists s1].
  destruct (buffer_reset_wf b s1 Hg Hlf Hw1 Eb) as (s2 & -> & Hw2 & Hs2 & Hz). exists s2. split; [done|]. split; [done|].
  split; [by eapply same_arena_trans|]. by intros b' _ [= <-].
Qed.

(** Rewinding to a valid place, without debug guards. *)
Lemma rewind_any cp s :
  generation_wraps → feat_debug = false → Inner_wf s → cp_valid cp (in_chunks (i_inner s)) →
  ∃ s', ArenaInner_rewind_to_checkpoint cp s = (Ok tt, s') ∧ Inner_wf s' ∧
    in_checkpoints (i_inner s') = filter (λ c, cp_checkpoint_id c < cp_checkpoint_id cp) (in_checkpoints (i_inner s)) ∧ wipes s s'.
Proof.
  intros Hg Hdb Hw Hcp. pose proof Hcp as (c & Hc & Ho). pose proof (lookup_lt_Some _ _ _ Hc) as Hlt.
  unfold ArenaInner_rewind_to_checkpoint. mrun. destruct (Nat.ltb_spec (cp_chunk_index cp) (length (in_chunks (i_inner s)))); [|lia].
  unfold vec_index. rewrite Hc. destruct (Z.leb_spec (cp_chunk_offset cp) (c_capacity c)); [|lia]. unfold on_inner. mrun. rewrite Hdb.
  match goal with |- context [reset_caches ?x] => set (s1 := x) end.
  assert (Inner_wf s1) as Hw1.
  { destruct Hw as (Hm & Hsub & Hf & _ & Hlf & Htc). unfold Inner_wf, Inner_blocks in *. simpl. rewrite rewind_blocks.
    splits; try done; [by apply rewind_chunk_wf|by rewrite length_imap]. }
  destruct (reset_caches_wf s1 Hg Hw1) as (s2 & -> & Hw2 & [Hcs _ Hst _] & Hz).
  destruct feat_stats eqn:Hfs; [|by exists s2]. rewrite Hcs. simpl. rewrite (rewind_sum cp s Hw Hcp). unfold stats_update. rewrite Hfs.
  eexists. split; [reflexivity|]. split; [by eapply same_view_wf; [|exact Hw2]|]. by split; [exact Hst|].
Qed.

Lemma reset_any s :
  generation_wraps → Arena_ok s →
  ∃ s', Arena_reset s = (Ok tt, s') ∧ Arena_ok s' ∧ in_checkpoints (a_inner (a_arena s')) = [].
Proof.
  intros Hg Hok. pose proof Hok as (Hm & Hsub & Hf & Hcur & _ & Htc). unfold iw in *. cbn [i_inner i_world] in *.
  unfold Arena_reset, with_inner, on_inner. mrun. unfold stats_update.
  assert (∀ i, in_chunks i = Chunk_reset <$> in_chunks (a_inner (a_arena s)) → in_current_chunk i = 0%nat →
    in_lockfree_buffer i = in_lockfree_buffer (a_inner (a_arena s)) → Inner_wf (mkIW i (a_world s))) as Hwf.
  { intros i H1 H2 H3. apply (chunks_replaced (iw s) (Chunk_reset <$> in_chunks (a_inner (a_arena s))) (w_mem (a_world s))); try done.
    - apply Forall_fmap. eapply Forall_impl; [exact Hf|]. intros c. apply Chunk_reset_wf.
    - intros [=E]%(f_equal length). rewrite length_fmap in E. lia.
    - rewrite Chunk_reset_blocks. exact Hsub. }
  destruct feat_stats; mrun; match goal with |- context [reset_caches ?x] => destruct (reset_caches_wf x Hg) as (s2 & -> & Hw2 & [_ _ Hst _] & _) end;
    (try by apply Hwf); (eexists; split; [reflexivity|]); (split; [by destruct s2|exact Hst]).
Qed.

(** A run of zeros. *)
Lemma load_zeros p n m :
  mem_valid p (Z.of_nat n) m → (∀ a, a ∈ mkRange p (Z.of_nat n) → bytes m !! a = Some 0) → mem_load p n m = (Ok (replicate n 0), m).
Proof.
  intros Hv Hz. unfold mem_load. rewrite decide_True by done.
  assert (read_bytes (bytes m) p n = Some <$> replicate n 0) as ->; [|by rewrite mapM_fmap_Some by done].
  apply list_eq_same_length with n; [by rewrite length_fmap, length_replicate|apply length_read_bytes|].
  intros i x y Hi. rewrite lookup_read_bytes, list_lookup_fmap, lookup_replicate_2 by done. rewrite Hz by range_solve. naive_solver.
Qed.

(** An empty buffer grants its first bytes. *)
Lemma try_alloc_empty l x :
  LF_wf x → Layout_ok l → l_size l ≤ MAX_LOCKFREE_ALLOCATION → lf_offset (x_buf x) = 0 → slab_matches x = false →
  ∃ x', LockFreeBuffer_try_alloc [] (l_size l) (l_align l) x = (Ok (Some (lf_buffer (x_buf x))), x') ∧ x_mem x' = x_mem x.
Proof.
  intros Hw Hl Hsz Ho Hm. unfold LockFreeBuffer_try_alloc. destruct (Z.ltb_spec MAX_LOCKFREE_ALLOCATION (l_size l)); [lia|].
  unfold mbind, M_bind. rewrite try_thread_slab_eq, Hm. set (x1 := mkLF (x_buf x) ThreadSlab_new (x_mem x)).
  pose proof Hw as (Hb & Hmod & Hmax & Hoff & Hcap & Hom & _).
  assert (LF_wf x1) as Hw1.
  { unfold LF_wf. splits; try (apply Hoff || done). unfold x1. by rewrite ThreadSlab_new_no_match. }
  rewrite refill_eq by done. simpl. rewrite Ho, Hcap. pose proof Hl as (Hs0 & _).
  pose proof (slab_bytes_bounds l ltac:(lia)) as [Hge Hle]. unfold slab_bytes, LOCKFREE_ALIGNMENT in *.
  rewrite decide_True by (unfold LOCKFREE_BUFFER_SIZE; lia). rewrite ThreadSlab_try_alloc_eq by (simpl; done || lia || ulia). simpl.
  pose proof (Layout_align_pos l Hl). rewrite (align_to_id 0) by (done || by apply Z.mod_0_l; lia).
  rewrite decide_True by lia. eexists. split; [by rewrite Z.add_0_r|done].
Qed.

(** The next small allocation of a wiped arena gets the first bytes of the buffer. *)
Lemma alloc_wiped {ga : GlobalAlloc} `{!GlobalAllocOk ga} bt o b s :
  feat_lockfree = true → feat_debug = false → Arena_ok s → Wiped b (iw s) → Obj_ok o → lf_buffer b ≠ 0 →
  l_size (o_layout o) ≤ MAX_LOCKFREE_ALLOCATION → (Arena_alloc bt (o_layout o) (o_value o) s).1 = Ok (lf_buffer b).
Proof.
  intros Hlf Hdb Hok (_ & b' & Eb & Hbb & Ho & Hm) Hobj Hn Hsz. pose proof Hobj as (Hl & Hpos & _ & Hal). rewrite Hdb in Hal.
  pose proof Hok as (_ & _ & _ & _ & Hb & _). rewrite Eb in Hb. simpl in Hb, Eb. rewrite <- Hbb in Hn |- *.
  destruct (Z.eqb_spec (lf_buffer b') 0) as [|_]; [done|]. pose proof Hb as (_ & Hmod & _). simpl in Hmod.
  destruct (try_alloc_empty (o_layout o) _ Hb Hl Hsz Ho Hm) as (x' & E & _). simpl in E.
  assert (∃ s1, Arena_allocate_raw bt (o_layout o) s = (Ok (lf_buffer b'), s1)) as (s1 & E1).
  { unfold Arena_allocate_raw, alloc_lockfree, guard_wrap, MAX_LOCKFREE_ALLOCATION in *. rewrite Hlf, Hdb.
    destruct (Z.eqb_spec (l_size (o_layout o)) 0); [lia|]. destruct (Z.leb_spec (l_size (o_layout o)) 1024); [|lia].
    mrun. rewrite Eb. unfold with_inner, with_lockfree, zoom. cbn [i_world]. unfold lf_state, iw in E. simpl in E. rewrite E.
    unfold stats_update. destruct feat_stats; by eexists. }
  destruct (alloc_step bt o s Hok Hobj) as (r & s' & Es & Hr). rewrite Es. simpl.
  unfold Arena_alloc, mbind, M_bind in Es. rewrite E1 in Es. unfold a_on_mem, a_on_world, w_on_mem, ptr_write, mem_store in Es. mrun.
  repeat case_match; by simplify_eq/=.
Qed.
End reset.

(** C37: with the lock-free feature (and without debug guards) a rewind destroys objects
    older than its checkpoint.  [rewind_to_checkpoint] resets the whole lock-free buffer,
    zeroing it.  In any well-formed arena whose buffer was allocated, and whose
    checkpoint ids are not exhausted, even an empty scope, a safe operation, returns with
    every range of the buffer reading as zeros, whatever live object lies there, and the
    next allocation of at most 1024 bytes is given the first bytes of the buffer again.
    Left out are builds that count the generations with overflow checks. *)
Theorem scope_destroys_lockfree_objects `{cfg : Cfg} {ga : GlobalAlloc} `{!GlobalAllocOk ga} bt s b :
  feat_lockfree = true → feat_debug = false → generation_wraps → Arena_ok s →
  in_lockfree_buffer (a_inner (a_arena s)) = Some b → lf_buffer b ≠ 0 →
  0 ≤ in_current_checkpoint_id (a_inner (a_arena s)) < USIZE_MAX →
  ∃ s', Arena_scope (λ _, mret tt) s = (Ok tt, s') ∧ Arena_ok s' ∧
    (∀ p n, mkRange p (Z.of_nat n) ⊆ mkRange (lf_buffer b) LOCKFREE_BUFFER_SIZE →
       (a_on_mem (mem_load p n) s').1 = Ok (replicate n 0)) ∧
    (∀ o, Obj_ok o → l_size (o_layout o) ≤ MAX_LOCKFREE_ALLOCATION →
       (Arena_alloc bt (o_layout o) (o_value o) s').1 = Ok (lf_buffer b)).
Proof.
  intros Hlf Hdb Hg Hok Eb Hn Hid. destruct (checkpoint_run s Hok Hid) as (cp & s1 & E1 & _).
  destruct (checkpoint_eq s cp s1 Hok E1) as ((c & Hc & Hoff) & Hidx & _ & _ & Hw & n & Hi).
  pose proof (checkpoint_step s cp s1 Hok E1) as [Hok1 _ _ _].
  assert (cp_valid cp (in_chunks (i_inner (iw s1)))) as Hv.
  { exists c. simpl. rewrite Hi, Hidx, Hoff. split; [exact Hc|]. pose proof Hok as (_ & _ & Hf & _).
    destruct (proj1 (Forall_lookup _ _) Hf _ _ Hc) as (_ & _ & _ & _ & _ & Hu). exact Hu. }
  destruct (rewind_any cp (iw s1) Hg Hdb Hok1 Hv) as (x & E & Hx & _ & Hz).
  destruct (with_inner_run _ _ _ _ E) as (s' & E' & Hs' & _). assert (Wiped b (iw s')) as Hwp by (rewrite Hs'; apply Hz; [done|simpl; by rewrite Hi|done]).
  assert (Arena_ok s') as Hok' by (unfold Arena_ok; by rewrite Hs'). exists s'. split; [|split; [done|split]].
  - unfold Arena_scope, Scope_new, Scope_drop, mbind, M_bind. rewrite E1. unfold with_drop. simpl.
    change (Arena_rewind_to_checkpoint cp s1 = (Ok tt, s')) in E'. by rewrite E'.
  - intros p k Hr. destruct Hwp as (Hb0 & b' & Eb' & Hbb & _). unfold a_on_mem, a_on_world, w_on_mem, zoom. simpl.
    rewrite load_zeros; [done| |intros a Ha; by apply Hb0, (proj1 (range_subseteq_spec _ _) Hr)].
    right. apply Exists_exists. exists (LF_block b'). split; [apply (lf_live (iw s')); [done..|by rewrite Hbb]|].
    unfold block_range, LF_block. simpl. rewrite Hbb.
    destruct Hok' as (_ & _ & _ & _ & Hb & _). rewrite Eb' in Hb. simpl in Hb. rewrite Hbb in Hb.
    destruct (Z.eqb_spec (lf_buffer b) 0); [done|]. destruct Hb as (_ & _ & _ & _ & Hcap & _). simpl in Hcap. by rewrite Hcap.
  - intros o Ho Hsz. by apply alloc_wiped.
Qed.

(** A value 42 is stored at 8192, where the buffer begins; after an empty scope it reads
    as zeros, and the next value is stored there too. *)
Lemma scope_destroys_lockfree_objects_witness :
  let cfg := mkCfg true true true false false true false false false in
  let w := mkWorld Mem_empty ThreadCache_new ThreadSlab_new (mkDebug DebugState_new false false) [] in
  let t := mkLayout 4 4 in
  ∃ a w1 s1 s2, @Arena_try_with_capacity cfg bump_alloc 100 4096 w = (Ok (ROk a), w1) ∧
    @Arena_alloc cfg bump_alloc "bt" t [42; 0; 0; 0] (mkAW a w1) = (Ok 8192, s1) ∧
    (a_on_mem (mem_load 8192 4) s1).1 = Ok [42; 0; 0; 0] ∧
    @Arena_scope cfg unit (λ _, mret tt) s1 = (Ok tt, s2) ∧ (a_on_mem (mem_load 8192 4) s2).1 = Ok [0; 0; 0; 0] ∧
    (@Arena_alloc cfg bump_alloc "bt" t [1; 0; 0; 0] s2).1 = Ok 8192.
Proof.
  intros cfg w t. destruct (@Arena_try_with_capacity cfg bump_alloc 100 4096 w) as [r w1] eqn:E1.
  destruct r as [[a|]|e|e|e]; [|by vm_compute in E1..].
  destruct (@Arena_try_with_capacity_ok cfg bump_alloc bump_alloc_ok 100 4096 w a w1) as [Hok0 _];
    [repeat split; constructor || discriminate|ulia|exact E1|].
  destruct (@alloc_step cfg bump_alloc bump_alloc_ok "bt" (mkObj t [42; 0; 0; 0]) (mkAW a w1) Hok0) as (r & s1 & E2 & Hr);
    [vm_compute; intuition discriminate|].
  vm_compute in E1. injection E1 as <- <-. vm_compute in E2. injection E2 as <- <-. destruct Hr as ([Hok1 _ _ _] & _).
  match type of Hok1 with Inner_wf (iw ?x) => set (s1 := x) in * end.
  destruct (@scope_destroys_lockfree_objects cfg bump_alloc bump_alloc_ok "bt" s1
    (mkLockFreeBuffer 100 8192 256 4096 (lf_stats (default (mkLockFreeBuffer 0 0 0 0 LockFreeStats_new 0) (in_lockfree_buffer (a_inner (a_arena s1))))) 0))
    as (s2 & Es & _ & Hz & Ha).
  - reflexivity.
  - reflexivity.
  - intros _ [=].
  - exact Hok1.
  - reflexivity.
  - discriminate.
  - vm_compute. intuition discriminate.
  - eexists _, _, s1, s2. split; [reflexivity|]. split; [reflexivity|]. split; [reflexivity|]. split; [exact Es|].
    split; [apply (Hz 8192 4%nat); right; by vm_compute|]. apply (Ha (mkObj t [1; 0; 0; 0])); vm_compute; intuition discriminate.
Defined.
