(* ===== verification/StackFrame.v ===== *)
(** * StackFrame: which operations leave the checkpoint stack alone

    Allocating, resetting the caches and giving chunks back change neither the stack
    of checkpoints nor the next identifier, with any combination of features: an
    application of the frame rule [Keeps]. *)
From S2P Require Import Prelude Keeps Memory Bump Chunk Slab ThreadLocal LockFree VirtualMemory Debug Inner Arena.
Local Open Scope Z_scope.

Section frame.
Context `{cfg : Cfg} `{ga : GlobalAlloc} (bt : string) (stk : list ArenaCheckpoint) (next : Z).

Definition stack_is (i : ArenaInner) : Prop := in_checkpoints i = stk ∧ in_current_checkpoint_id i = next.
Definition stack_iw (s : IW) : Prop := stack_is (i_inner s).
Definition stack_aw (s : AW) : Prop := stack_is (a_inner (a_arena s)).
Definition next_iw (s : IW) : Prop := in_current_checkpoint_id (i_inner s) = next.
Definition next_aw (s : AW) : Prop := in_current_checkpoint_id (a_inner (a_arena s)) = next.

(** *** core.rs *)
#[local] Hint Extern 1 (Keeps stack_iw (on_inner _)) => (apply Keeps_modify; intros [[] ?] ?; assumption) : typeclass_instances.
#[local] Instance stack_in_world {A} (m : M World A) : Keeps stack_iw (in_world m).
Proof. by apply Keeps_zoom_other. Qed.
#[local] Instance stack_stats f : Keeps stack_iw (stats_update f).
Proof. unfold stats_update. apply _. Qed.
#[local] Instance stack_lockfree {A} b (m : M LF A) : Keeps stack_iw (with_lockfree b m).
Proof. intros s Hs. unfold with_lockfree. by destruct (m _) as [o x]. Qed.
#[local] Instance stack_allocate l : Keeps stack_iw (ArenaInner_allocate l).
Proof. unfold ArenaInner_allocate. apply _. Qed.
#[local] Instance stack_add_chunk c : Keeps stack_iw (ArenaInner_add_chunk c).
Proof. unfold ArenaInner_add_chunk. apply _. Qed.
#[export] Instance stack_reset_caches : Keeps stack_iw reset_caches.
Proof. unfold reset_caches. apply _. Qed.

(** *** arena.rs *)
#[local] Instance stack_with_inner {A} (m : M IW A) : Keeps stack_iw m → Keeps stack_aw (with_inner m).
Proof. by apply Keeps_zoom. Qed.
#[local] Instance stack_a_world {A} (m : M World A) : Keeps stack_aw (a_on_world m).
Proof. by apply Keeps_zoom_other. Qed.
#[export] Instance stack_a_mem {A} (m : M Mem A) : Keeps stack_aw (a_on_mem m).
Proof. unfold a_on_mem. apply _. Qed.
#[local] Instance stack_lf_stats f : Keeps stack_aw (on_lockfree_stats f).
Proof. by apply Keeps_modify. Qed.
#[local] Instance stack_guard_wrap p size : Keeps stack_aw (guard_wrap bt p size).
Proof. unfold guard_wrap. apply _. Qed.
#[export] Instance stack_raw l : Keeps stack_aw (Arena_allocate_raw bt l).
Proof. unfold Arena_allocate_raw, alloc_lockfree, alloc_thread_local, alloc_regular, alloc_new_chunk. apply _. Qed.
#[export] Instance stack_alloc t value : Keeps stack_aw (Arena_alloc bt t value).
Proof. unfold Arena_alloc. apply _. Qed.
#[export] Instance stack_slice_copy t len data : Keeps stack_aw (Arena_alloc_slice_copy bt t len data).
Proof. unfold Arena_alloc_slice_copy. apply _. Qed.
#[export] Instance stack_slice_uninit t len : Keeps stack_aw (Arena_alloc_slice_uninit bt t len).
Proof. unfold Arena_alloc_slice_uninit. apply _. Qed.

(** *** Resetting empties the stack and takes no identifier *)
#[local] Hint Extern 1 (Keeps next_iw (on_inner _)) => (apply Keeps_modify; intros [[[|??]] ?] ?; assumption) : typeclass_instances.
#[local] Instance next_stats f : Keeps next_iw (stats_update f).
Proof. unfold stats_update. apply _. Qed.
#[local] Instance next_in_world {A} (m : M World A) : Keeps next_iw (in_world m).
Proof. by apply Keeps_zoom_other. Qed.
#[local] Instance next_lockfree {A} b (m : M LF A) : Keeps next_iw (with_lockfree b m).
Proof. intros s Hs. unfold with_lockfree. by destruct (m _) as [o x]. Qed.
#[local] Instance next_with_inner {A} (m : M IW A) : Keeps next_iw m → Keeps next_aw (with_inner m).
Proof. by apply Keeps_zoom. Qed.
#[local] Instance next_a_mem {A} (m : M Mem A) : Keeps next_aw (a_on_mem m).
Proof. by apply Keeps_zoom_other. Qed.
#[export] Instance next_reset : Keeps next_aw Arena_reset.
Proof. unfold Arena_reset, reset_caches. apply _. Qed.
#[export] Instance next_shrink : Keeps next_aw Arena_reset_and_shrink_to_fit.
Proof. unfold Arena_reset_and_shrink_to_fit. apply _. Qed.
End frame.

(** The rule, for a call that was seen to end. *)
Lemma kept_stack {A} (m : M AW A) s o s' :
  (∀ stk next, Keeps (stack_aw stk next) m) → m s = (o, s') →
  in_checkpoints (a_inner (a_arena s')) = in_checkpoints (a_inner (a_arena s)) ∧
  in_current_checkpoint_id (a_inner (a_arena s')) = in_current_checkpoint_id (a_inner (a_arena s)).
Proof. intros Hm E. pose proof (Hm _ _ s (conj eq_refl eq_refl)) as H. by rewrite E in H. Qed.

Lemma kept_next {A} (m : M AW A) s o s' :
  (∀ next, Keeps (next_aw next) m) → m s = (o, s') →
  in_current_checkpoint_id (a_inner (a_arena s')) = in_current_checkpoint_id (a_inner (a_arena s)).
Proof. intros Hm E. pose proof (Hm _ s eq_refl) as H. by rewrite E in H. Qed.
