(* ===== verification/ArenaRegion.v ===== *)
(** * ArenaRegion: [Arena] implements regions

    A program that allocates in an [Arena], takes checkpoints and keeps them, rewinds
    to any of those it still holds, uses the arena's own stack of checkpoints, and
    resets it: after every call the memory of the arena is that of the abstract
    region of Region.v which the same calls make. *)
From S2P Require Import Prelude Memory Bump Chunk Slab ThreadLocal LockFree VirtualMemory Debug Inner InnerInv Objects Arena ArenaSafety ArenaCheckpoint Region ArenaFrames ArenaRelease StackFrame.
Local Open Scope Z_scope.

(** ** The methods *)

Definition Arena_call `{Cfg} `{GlobalAlloc} (bt : string) (r : Region) (c : RegionCall) : M AW Reply :=
  match c with
  | RAlloc o => p ← Arena_alloc bt (o_layout o) (o_value o); mret (Address p)
  | RCheckpoint => cp ← Arena_checkpoint; mret (Checkpoint cp)
  | RRewind k =>
      match rg_marks r !! k with
      | Some m => _ ← Arena_rewind_to_checkpoint (mk_cp m); mret Done
      | None => mret Done
      end
  | RPush => cp ← Arena_push_checkpoint; mret (Checkpoint cp)
  | RPop => _ ← Arena_pop_and_rewind; mret Done
  | RClear => _ ← Arena_clear_checkpoints; mret Done
  | RReset => _ ← Arena_reset; mret Done
  | RShrink => _ ← Arena_reset_and_shrink_to_fit; mret Done
  end.

(** ** The stack of checkpoints *)
Definition mk_id (m : Mark) : Z := cp_checkpoint_id (mk_cp m).
Definition pushed_marks (ms : list Mark) : list Mark := filter (λ m, mk_pushed m = true) ms.

(** Checkpoints are numbered in the order they are taken, below [next]. *)
Definition ids_sorted (ms : list Mark) (next : Z) : Prop :=
  ∀ ms1 m ms2, ms = ms1 ++ m :: ms2 → Forall (λ x, mk_id m < mk_id x) ms2 ∧ mk_id m < next.

Record Stack_rel (r : Region) (i : ArenaInner) : Prop := mkStackRel {
  sk_stack : in_checkpoints i = mk_cp <$> pushed_marks (rg_marks r);
  sk_ids : ids_sorted (rg_marks r) (in_current_checkpoint_id i)
}.

Lemma last_pushed_Some ms k m :
  last_pushed ms = Some (k, m) → ms !! k = Some m ∧ pushed_marks ms = pushed_marks (take k ms) ++ [m].
Proof.
  revert k. induction ms as [|x ms IH]; intros k; simpl; [done|]. destruct (last_pushed ms) as [[j y]|] eqn:E.
  - intros [= <- <-]. destruct (IH j eq_refl) as [Hl Hp]. split; [done|]. unfold pushed_marks in *. simpl.
    rewrite !filter_cons, Hp. by destruct (decide _).
  - destruct (mk_pushed x) eqn:Ex; intros [= <- <-]. split; [done|]. unfold pushed_marks. rewrite filter_cons, Ex. simpl. f_equal.
    clear IH. induction ms as [|y ms IH]; [done|]. simpl in E. destruct (last_pushed ms) as [[??]|]; [done|].
    destruct (mk_pushed y) eqn:Ey; [done|]. rewrite filter_cons, Ey. simpl. by apply IH.
Qed.

Lemma last_pushed_None ms : last_pushed ms = None → pushed_marks ms = [].
Proof.
  induction ms as [|y ms IH]; [done|]. simpl. destruct (last_pushed ms) as [[??]|]; [done|]. destruct (mk_pushed y) eqn:Ey; [done|].
  intros _. unfold pushed_marks. rewrite filter_cons, Ey. simpl. by apply IH.
Qed.

Lemma ids_sorted_weaken ms next next' : ids_sorted ms next → next ≤ next' → ids_sorted ms next'.
Proof. intros Hs Hle ms1 m ms2 E. destruct (Hs _ _ _ E). split; [done|lia]. Qed.

Lemma ids_sorted_snoc ms m next : ids_sorted ms (mk_id m) → mk_id m < next → ids_sorted (ms ++ [m]) next.
Proof.
  intros Hs Hn ms1 x ms2 E. destruct ms2 as [|y ms2 _] using rev_ind.
  - apply app_inj_tail in E as [_ <-]. split; [constructor|done].
  - rewrite app_comm_cons, app_assoc in E. apply app_inj_tail in E as [-> <-]. destruct (Hs _ _ _ eq_refl) as [Hf Hx].
    split; [|lia]. apply Forall_app_2; [done|]. by apply Forall_singleton.
Qed.

(** Same identifiers, mark for mark, possibly fewer. *)
Lemma ids_sorted_prefix ms ms' rest next :
  ids_sorted (ms ++ rest) next → mk_id <$> ms' = mk_id <$> ms → ids_sorted ms' next.
Proof.
  intros Hs E ms1 m ms2 ->. rewrite fmap_app, fmap_cons in E. symmetry in E.
  apply fmap_app_inv in E as (a & b & E1 & E2 & ->). apply symmetry, fmap_cons_inv in E2 as (x & c & Ex & Ec & ->).
  rewrite <- app_assoc in Hs. destruct (Hs a x (c ++ rest) eq_refl) as [Hf Hx]. rewrite Ex. split; [|done].
  apply Forall_app in Hf as [Hf _]. apply (Forall_fmap mk_id (λ z, mk_id x < z)). rewrite Ec. by apply Forall_fmap.
Qed.

(** Keeping the checkpoints numbered below [m] keeps those taken before it. *)
Lemma stack_filter ms1 m ms2 next :
  ids_sorted (ms1 ++ m :: ms2) next →
  filter (λ c, cp_checkpoint_id c < mk_id m) (mk_cp <$> pushed_marks (ms1 ++ m :: ms2)) = mk_cp <$> pushed_marks ms1.
Proof.
  intros Hs. unfold pushed_marks. rewrite filter_app, fmap_app, filter_app.
  rewrite (filter_all _ (mk_cp <$> filter _ ms1)), (filter_none _ (mk_cp <$> filter _ (m :: ms2))), app_nil_r; [done| |];
    apply Forall_fmap, Forall_forall; intros x [_ Hx]%list_elem_of_filter; simpl.
  - destruct (Hs ms1 m ms2 eq_refl) as [Hf _]. rewrite Forall_forall in Hf.
    apply elem_of_cons in Hx as [->|Hx]; [unfold mk_id; lia|]. specialize (Hf x Hx). unfold mk_id in *. lia.
  - apply list_elem_of_split in Hx as (a & b & ->). rewrite <- app_assoc in Hs. simpl in Hs.
    destruct (Hs a x (b ++ m :: ms2) eq_refl) as [Hf _].
    apply Forall_app in Hf as [_ Hf]. apply Forall_cons in Hf as [Hx _]. exact Hx.
Qed.

Lemma ids_sorted_nil next : ids_sorted [] next.
Proof. intros ms1 m ms2 E. by destruct ms1. Qed.

Lemma marks_split {A} (l : list A) k m : l !! k = Some m → l = take k l ++ m :: drop (S k) l.
Proof. intros. symmetry. by apply take_drop_middle. Qed.

(** ** [Arena] satisfies the interface *)
Definition Arena_empties `{Cfg} (m : M AW unit) : Prop := m = Arena_reset ∨ m = Arena_reset_and_shrink_to_fit.

Section arena.
Context `{cfg : Cfg} {ga : GlobalAlloc} `{!GlobalAllocOk ga} (bt : string).
Hypothesis (Hlf : feat_lockfree = false) (Hdb : feat_debug = false).

Lemma checkpoint_now s cp s' : Arena_ok s → Arena_checkpoint s = (Ok cp, s') → same_view (iw s) (iw s') ∧ cp_now cp (iw s).
Proof.
  intros Hok E. destruct (checkpoint_eq s cp s' Hok E) as ((c & Hc & Ho) & Hi & _ & _ & Hw & n & Hin).
  split; [unfold iw; constructor; simpl; by rewrite ?Hin, ?Hw|]. split; [done|]. by exists c.
Qed.

Lemma rewind_rewound cp s :
  Arena_ok s → cp_valid cp (in_chunks (i_inner (iw s))) →
  ∃ s', Arena_rewind_to_checkpoint cp s = (Ok tt, s') ∧ Rewound cp (iw s) (iw s') ∧
    in_checkpoints (a_inner (a_arena s')) =
      filter (λ c, cp_checkpoint_id c < cp_checkpoint_id cp) (in_checkpoints (a_inner (a_arena s))) ∧
    in_current_checkpoint_id (a_inner (a_arena s')) = in_current_checkpoint_id (a_inner (a_arena s)).
Proof.
  intros Hok Hv. destruct (rewind_eq Hlf Hdb cp (iw s) Hok Hv) as (x & E & H1 & H2 & H3 & H4 & H5 & _ & H7 & H8 & _).
  destruct (with_inner_run _ _ _ _ E) as (s' & E' & Hx & _). exists s'. rewrite <- Hx in *.
  split; [exact E'|]. split; [|done]. split; try done. exact (rewind_wf Hlf Hdb cp (iw s) (iw s') Hok Hv E).
Qed.

#[local] Instance Arena_RegionArena :
  RegionArena iw (Arena_obj bt) Obj_ok Arena_fails Arena_checkpoint Arena_rewind_to_checkpoint Arena_empties.
Proof.
  split.
  - apply _.
  - intros o s p s' Hok Ho E. destruct (current_chunk (iw s) Hok) as (c & Hc & _).
    exact (ex_grows _ _ (proj1 (alloc_grows bt Hlf Hdb o s c p s' Hok Ho Hc E))).
  - intros s Hok. destruct (checkpoint_cases s Hok) as [(cp & s' & E)|(e & E)]; [|by eexists _, s].
    eexists _, s'. split; [exact E|]. by apply checkpoint_now.
  - intros cp s Hok Hv. destruct (rewind_rewound cp s Hok Hv) as (s' & E & Hr & _). by exists s'.
  - intros m s [->| ->] Hok.
    + destruct (reset_step s Hlf Hok) as (s' & E & Hok' & _). by exists s'.
    + destruct (shrink_step s Hok) as (c & rest & s' & _ & E & Hok' & _). by exists s'.
Qed.

(** ** One call *)
Record Arena_region (r : Region) (s : AW) : Prop := mkArenaRegion {
  ar_region : Region_rel r (iw s);
  ar_stack : Stack_rel r (a_inner (a_arena s))
}.

(** How a program ends early, and the state it ends in. *)
Definition Arena_ends (c : RegionCall) (s : AW) (x : outcome unit) : Prop :=
  match x with Abort _ => Arena_ok s ∧ ∃ o, c = RAlloc o ∧ refused (o_layout o) s | _ => False end.

(** What a call leaves behind: a region the specification allows, at most one
    identifier taken. *)
Definition region_post (c : RegionCall) (r : Region) (s : AW) (x : outcome Reply) (s' : AW) : Prop :=
  let next y := ∃ r', region_next c y r = Some r' ∧ Arena_region r' s' ∧
    in_current_checkpoint_id (a_inner (a_arena s)) ≤ in_current_checkpoint_id (a_inner (a_arena s'))
      ≤ in_current_checkpoint_id (a_inner (a_arena s)) + 1 in
  match x with
  | Ok y => next y
  | Panic _ => next Panicked
  | _ => Arena_ends c s' (void x)
  end.

Lemma call_alloc o r s : Arena_region r s → Obj_ok o → ∃ x s', Arena_call bt r (RAlloc o) s = (x, s') ∧ region_post (RAlloc o) r s x s'.
Proof.
  intros [Hr [Hs Hi]] Ho. destruct (region_alloc_step o r s Hr Ho) as (x & s' & E & Hx). cbn [Arena_call].
  unfold Arena_obj in E. unfold mbind, M_bind. rewrite E.
  destruct x as [p|e|e|e]; (eexists _, s'; split; [reflexivity|]); [|by destruct Hx| |by destruct Hx].
  2:{ destruct Hx as [Hst Href]. split; [exact (step_wf _ _ Hst)|by exists o]. }
  destruct (current_chunk (iw s) (rel_wf _ _ Hr)) as (c & Hc & _).
  destruct (alloc_grows bt Hlf Hdb o s c p s' (rel_wf _ _ Hr) Ho Hc E) as [[Hg _ Hid] _].
  exists (region_alloc o p r). split; [|split; [split; [exact Hx|]|rewrite Hid; lia]].
  - by apply region_alloc_allowed in Hx.
  - split; cbn [region_alloc rg_marks]; [by rewrite (g_stack _ _ Hg)|by rewrite Hid].
Qed.

(** A checkpoint, on the stack or not. *)
Lemma stack_mark r cp pushed i i' :
  Stack_rel r i → cp_checkpoint_id cp = in_current_checkpoint_id i → in_current_checkpoint_id i' = in_current_checkpoint_id i + 1 →
  in_checkpoints i' = in_checkpoints i ++ (if pushed : bool then [cp] else []) → Stack_rel (region_mark cp pushed r) i'.
Proof.
  intros [Hs Hi] Hid Hn Hst. split; cbn [region_mark rg_marks].
  - rewrite Hst, Hs. unfold pushed_marks. rewrite filter_app, fmap_app. f_equal. rewrite filter_cons. by destruct pushed.
  - rewrite Hn. apply ids_sorted_snoc; unfold mk_id; cbn [mk_cp]; rewrite Hid; [exact Hi|lia].
Qed.

Lemma call_checkpoint r s :
  Arena_region r s → 0 ≤ in_current_checkpoint_id (a_inner (a_arena s)) < USIZE_MAX →
  ∃ x s', Arena_call bt r RCheckpoint s = (x, s') ∧ region_post RCheckpoint r s x s'.
Proof.
  intros [Hr Hs] Hb. destruct (checkpoint_run s (rel_wf _ _ Hr) Hb) as (cp & s' & E & _ & Hid & Hw & Hin).
  destruct (checkpoint_now s cp s' (rel_wf _ _ Hr) E) as [Hv Hcp]. cbn [Arena_call]. unfold mbind, M_bind. rewrite E.
  eexists _, s'. split; [reflexivity|]. eexists. split; [reflexivity|]. rewrite Hin. cbn [in_current_checkpoint_id set_checkpoint_id].
  split; [|lia]. split; [by eapply region_same_view, region_mark_rel|]. rewrite Hin.
  apply (stack_mark _ _ _ (a_inner (a_arena s))); try done. by rewrite app_nil_r.
Qed.

Lemma call_push r s :
  Arena_region r s → 0 ≤ in_current_checkpoint_id (a_inner (a_arena s)) < USIZE_MAX →
  ∃ x s', Arena_call bt r RPush s = (x, s') ∧ region_post RPush r s x s'.
Proof.
  intros [Hr Hs] Hb. destruct (push_run s (rel_wf _ _ Hr) Hb) as (cp & s' & E & ((c & Hc & Ho) & Hix & _) & Hid & Hw & Hin).
  cbn [Arena_call]. unfold mbind, M_bind. rewrite E. eexists _, s'. split; [reflexivity|]. eexists. split; [reflexivity|]. rewrite Hin.
  cbn [in_current_checkpoint_id set_checkpoint_id set_checkpoints]. split; [|lia]. split.
  - apply (region_same_view _ (iw s)); [unfold iw; constructor; simpl; by rewrite ?Hin, ?Hw|].
    apply region_mark_rel; [done|]. split; [done|]. by exists c.
  - rewrite Hin. by apply (stack_mark _ _ _ (a_inner (a_arena s))).
Qed.

(** Rewinding to mark [k]: the stack keeps what was pushed before it. *)
Lemma call_rewind_at r k m kept s :
  Arena_region r s → rg_marks r !! k = Some m → (kept = [] ∨ kept = [unpushed m]) →
  ∃ s', Arena_rewind_to_checkpoint (mk_cp m) s = (Ok tt, s') ∧ Arena_region (region_rewind k m kept r) s' ∧
    in_current_checkpoint_id (a_inner (a_arena s')) = in_current_checkpoint_id (a_inner (a_arena s)).
Proof.
  intros [Hr [Hs Hi]] Hk Hkept. pose proof (rel_marks _ _ Hr) as Hm. rewrite Forall_lookup in Hm. destruct (Hm k m Hk) as (Hv & _).
  destruct (rewind_rewound (mk_cp m) s (rel_wf _ _ Hr) Hv) as (s' & E & Hrw & Hst & Hid). exists s'. split; [exact E|].
  split; [|done]. split; [by eapply region_rewound|]. pose proof (marks_split _ _ _ Hk) as Hsplit. split; cbn [region_rewind rg_marks].
  - rewrite Hst, Hs. rewrite Hsplit in Hi |- * at 1. fold (mk_id m). rewrite (stack_filter _ _ _ _ Hi). unfold pushed_marks. rewrite filter_app, fmap_app.
    destruct Hkept as [->| ->]; by rewrite ?filter_cons, filter_nil, app_nil_r.
  - rewrite Hid. destruct Hkept as [->| ->].
    + apply (ids_sorted_prefix (take k (rg_marks r)) _ (m :: drop (S k) (rg_marks r))); [by rewrite take_drop_middle|by rewrite app_nil_r].
    + apply (ids_sorted_prefix (take k (rg_marks r) ++ [m]) _ (drop (S k) (rg_marks r))); [rewrite <- app_assoc; simpl; by rewrite take_drop_middle|].
      by rewrite !fmap_app.
Qed.

Lemma call_rewind r k s : Arena_region r s → ∃ x s', Arena_call bt r (RRewind k) s = (x, s') ∧ region_post (RRewind k) r s x s'.
Proof.
  intros Ha. cbn [Arena_call]. unfold region_post. cbn [region_next]. destruct (rg_marks r !! k) as [m|] eqn:Hk.
  - destruct (call_rewind_at r k m [unpushed m] s Ha Hk) as (s' & E & Ha' & Hid); [by right|]. unfold mbind, M_bind. rewrite E.
    eexists _, s'. split; [reflexivity|]. eexists. split; [reflexivity|]. split; [done|lia].
  - eexists _, s. split; [reflexivity|]. eexists. split; [reflexivity|]. split; [done|lia].
Qed.

(** The arena forgets the newest checkpoint of its stack; the program still has it. *)
Lemma pop_unpush r k m s :
  Arena_region r s → last_pushed (rg_marks r) = Some (k, m) →
  let rest := mk_cp <$> pushed_marks (take k (rg_marks r)) in
  in_checkpoints (a_inner (a_arena s)) = rest ++ [mk_cp m] ∧
  Arena_region (mkObjRegion (rg_live r) (take k (rg_marks r) ++ (unpushed <$> drop k (rg_marks r))))
    (mkAW (a_set_inner (set_checkpoints rest (a_inner (a_arena s))) (a_arena s)) (a_world s)).
Proof.
  intros [Hr [Hs Hi]] El rest. destruct (last_pushed_Some _ _ _ El) as [Hk Hp]. split; [by rewrite Hs, Hp, fmap_app|]. split.
  - apply (region_same_view _ (iw s)); [by constructor|]. apply region_same_marks; [|done].
    rewrite fmap_app, <- list_fmap_compose, <- (fmap_app _ (take k _)). f_equal. apply take_drop.
  - split; cbn [rg_marks].
    + unfold rest, pushed_marks. simpl. rewrite filter_app, (filter_none _ (unpushed <$> _)), app_nil_r; [done|].
      by apply Forall_fmap, Forall_true.
    + apply (ids_sorted_prefix (rg_marks r) _ []); [by rewrite app_nil_r|].
      rewrite fmap_app, <- list_fmap_compose, <- (fmap_app _ (take k _)). f_equal. apply take_drop.
Qed.

Lemma call_pop r s : Arena_region r s → ∃ x s', Arena_call bt r RPop s = (x, s') ∧ region_post RPop r s x s'.
Proof.
  intros Ha. cbn [Arena_call]. unfold region_post, Arena_pop_and_rewind. cbn [region_next].
  unfold mbind at 1 2, M_bind at 1 2, get. destruct (last_pushed (rg_marks r)) as [[k m]|] eqn:El.
  - destruct (pop_unpush r k m s Ha El) as [-> Ha1]. destruct (last_pushed_Some _ _ _ El) as [Hk _]. fold (vec_push (mk_cp m) (mk_cp <$> pushed_marks (take k (rg_marks r)))). rewrite vec_pop_push.
    set (r1 := mkObjRegion (rg_live r) _) in *. set (s1 := mkAW _ _) in *.
    assert (rg_marks r1 !! k = Some (unpushed m)) as Hk1.
    { unfold r1. cbn [rg_marks]. rewrite lookup_app_r; rewrite length_take_le by (apply lookup_lt_Some in Hk; lia); [|done].
      by rewrite list_lookup_fmap, lookup_drop, Nat.sub_diag, Nat.add_0_r, Hk. }
    destruct (call_rewind_at r1 k (unpushed m) [] s1 Ha1 Hk1) as (s' & E & Ha' & Hid); [by left|].
    unfold with_inner at 1, on_inner, zoom, modify, mbind, M_bind. simpl. fold s1. simpl in E. rewrite E.
    eexists _, s'. split; [reflexivity|]. eexists. split; [reflexivity|]. simpl in Hid. split; [|lia].
    replace (region_rewind k m [] r) with (region_rewind k (unpushed m) [] r1); [done|].
    unfold region_rewind, r1. cbn [rg_live rg_marks unpushed mk_height]. f_equal. f_equal. rewrite take_app_le; [by rewrite take_take, Nat.min_id|].
    rewrite length_take_le; [done|]. apply lookup_lt_Some in Hk. lia.
  - destruct Ha as [Hr [Hs Hi]]. rewrite Hs, (last_pushed_None _ El). eexists _, s. split; [reflexivity|]. exists r.
    split; [done|]. split; [done|lia].
Qed.
Lemma call_clear r s : Arena_region r s → ∃ x s', Arena_call bt r RClear s = (x, s') ∧ region_post RClear r s x s'.
Proof.
  intros [Hr [Hs Hi]]. eexists _, _. split; [reflexivity|]. eexists. split; [reflexivity|]. split; [|simpl; lia]. split.
  - apply (region_same_view _ (iw s)); [by constructor|]. apply region_same_marks; [|done]. by rewrite <- list_fmap_compose.
  - split; cbn [rg_marks].
    + unfold pushed_marks. rewrite filter_none; [done|]. by apply Forall_fmap, Forall_true.
    + apply (ids_sorted_prefix (rg_marks r) _ []); [by rewrite app_nil_r|]. by rewrite <- list_fmap_compose.
Qed.

Lemma empties_region r m s :
  Arena_region r s → Arena_empties m →
  ∃ s', m s = (Ok tt, s') ∧ Arena_region region_empty s' ∧
    in_current_checkpoint_id (a_inner (a_arena s')) = in_current_checkpoint_id (a_inner (a_arena s)).
Proof.
  intros [Hr _] Hm. destruct (region_empty_step m r s Hm Hr) as (s' & E & Hr'). exists s'. split; [exact E|].
  split; [|by apply (kept_next m s (Ok tt) s'); [destruct Hm as [->| ->]; apply _|exact E]]. split; [done|]. split; [|apply ids_sorted_nil].
  destruct Hm as [->| ->].
  - destruct (reset_step s Hlf (rel_wf _ _ Hr)) as (x & Ex & _ & _ & _ & Hcp & _). rewrite Ex in E. by injection E as <-.
  - destruct (shrink_step s (rel_wf _ _ Hr)) as (c & rest & x & _ & Ex & _ & _ & _ & Hcp & _). rewrite Ex in E. by injection E as <-.
Qed.

Definition region_call_ok (c : RegionCall) : Prop := match c with RAlloc o => Obj_ok o | _ => True end.

Lemma region_call_step c r s :
  Arena_region r s → region_call_ok c → 0 ≤ in_current_checkpoint_id (a_inner (a_arena s)) < USIZE_MAX →
  ∃ x s', Arena_call bt r c s = (x, s') ∧ region_post c r s x s'.
Proof.
  intros Ha Hc Hb. destruct c; [by apply call_alloc|by apply call_checkpoint|by apply call_rewind|by apply call_push|
    by apply call_pop|by apply call_clear|..].
  - destruct (empties_region r Arena_reset s Ha) as (s' & E & Ha' & Hid); [by left|]. cbn [Arena_call]. unfold mbind, M_bind. rewrite E.
    eexists _, s'. split; [reflexivity|]. eexists. split; [reflexivity|]. split; [done|lia].
  - destruct (empties_region r Arena_reset_and_shrink_to_fit s Ha) as (s' & E & Ha' & Hid); [by right|]. cbn [Arena_call].
    unfold mbind, M_bind. rewrite E. eexists _, s'. split; [reflexivity|]. eexists. split; [reflexivity|]. split; [done|lia].
Qed.
End arena.

(** ** Theorem *)

(** C3: an [Arena] refines the abstract region.  Any sequence of calls, where the program
    rewinds to checkpoints it holds, in any order and as often as it likes (also to
    those on the arena's stack), pushes, pops (panics caught), clears and resets: every
    reply is one the specification allows, and after every call the live objects of
    the region are in the arena's memory, aligned, pairwise disjoint and holding the
    values they were given, on memory the arena will not hand out again, and the
    arena's stack is that of the region.  The calls go on to the end unless the program
    is aborted, and then the arena, in the state the program ended in, refuses one of
    the values of the program: it fits neither the current chunk nor a new one.  For
    builds without the lock-free and debug features, values that satisfy [Obj_ok]
    (nonzero size, alignment at most 64), and as long as the 64-bit checkpoint
    identifiers do not run out. *)
Theorem arena_refines_region `{cfg : Cfg} {ga : GlobalAlloc} `{!GlobalAllocOk ga} bt calls r s :
  feat_lockfree = false → feat_debug = false → Arena_region r s → Forall region_call_ok calls →
  0 ≤ in_current_checkpoint_id (a_inner (a_arena s)) → in_current_checkpoint_id (a_inner (a_arena s)) + Z.of_nat (length calls) ≤ USIZE_MAX →
  ∃ x s', run_region (Arena_call bt) calls r s = (x, s') ∧
    match x with
    | Ok r' => Arena_region r' s'
    | Abort _ => Arena_ok s' ∧ ∃ o, RAlloc o ∈ calls ∧ refused (o_layout o) s'
    | _ => False
    end.
Proof.
  intros Hlf Hdb Ha Hcs H0 Hn.
  pose (id s := in_current_checkpoint_id (a_inner (a_arena s))).
  destruct (run_region_rel (Arena_call bt) (λ n r s, Arena_region r s ∧ 0 ≤ id s ∧ id s + Z.of_nat n ≤ USIZE_MAX)
    region_call_ok Arena_ends calls r s) as (x & s' & E & Hx); [|done|done|].
  - intros n c r1 s1 (Ha1 & H01 & Hn1) Hc. destruct (region_call_step bt Hlf Hdb c r1 s1 Ha1 Hc) as (x & s2 & E & Hx); [unfold id in *; lia|].
    exists x, s2. split; [exact E|]. unfold id in *. destruct x as [y|e|e|e]; try done;
      destruct Hx as (r' & Hr' & Ha' & Hid); [|left]; exists r'; (split; [done|]); (split; [done|]); lia.
  - exists x, s'. split; [exact E|]. destruct x as [r'|e|e|e]; [by destruct Hx|..]; destruct Hx as (c & Hin & He); try done.
    destruct He as (Hok & o & -> & He). split; [exact Hok|by exists o].
Qed.

(** A value that fills the first chunk, one that needs a second, and rewinding twice
    to the checkpoint between them. *)
Lemma arena_refines_region_witness :
  let v n x := mkObj (mkLayout n 8) (replicate (Z.to_nat n) x) in
  let calls := [RAlloc (v 16 1); RCheckpoint; RAlloc (v 200 2); RPush; RAlloc (v 8 3); RRewind 0; RAlloc (v 8 4); RPop; RRewind 0; RAlloc (v 24 5)] in
  ∃ r s', run_region (@Arena_call cfg_dev bump_alloc "bt") calls region_empty demo_state = (Ok r, s') ∧
    Arena_region r s' ∧ rg_live r = [(v 16 1, 65600); (v 24 5, 65616)].
Proof.
  intros v calls. destruct (@arena_refines_region cfg_dev bump_alloc bump_alloc_ok "bt" calls region_empty demo_state) as (x & s' & E & Hx).
  - reflexivity.
  - reflexivity.
  - split; [apply region_empty_rel; exact demo_ok|]. split; [reflexivity|apply ids_sorted_nil].
  - repeat constructor; vm_compute; intuition discriminate.
  - vm_compute. discriminate.
  - vm_compute. discriminate.
  - assert (∃ r, x = Ok r ∧ rg_live r = [(v 16 1, 65600); (v 24 5, 65616)]) as (r & -> & Hl)
      by (change x with ((x, s').1); rewrite <- E; vm_compute; eexists; split; reflexivity).
    exists r, s'. split; [exact E|]. split; [exact Hx|exact Hl].
Defined.
