(* ===== verification/ArenaCalls.v ===== *)
(** * ArenaCalls: the calls a program can make on an [Arena]

    One constructor per operation of the arena that changes its state; [after_calls]
    is the state after any sequence of them, whatever their outcomes (a panic leaves
    the arena where it was when it panicked). *)
From S2P Require Import Prelude Memory Chunk Slab ThreadLocal LockFree VirtualMemory Debug Inner Arena.
Local Open Scope Z_scope.

Inductive ArenaCall :=
  | CAlloc (t : Layout) (value : list Z)
  | CSliceCopy (t : Layout) (len : Z) (data : list Z)
  | CSliceUninit (t : Layout) (len : Z)
  | CCheckpoint
  | CRewind (cp : ArenaCheckpoint)
  | CPush
  | CPop
  | CClear
  | CReset
  | CResetAndShrink.
Definition run_call `{Cfg} `{GlobalAlloc} (bt : string) (c : ArenaCall) : M AW unit :=
  match c with
  | CAlloc t value => _ ← Arena_alloc bt t value; mret tt
  | CSliceCopy t len data => _ ← Arena_alloc_slice_copy bt t len data; mret tt
  | CSliceUninit t len => _ ← Arena_alloc_slice_uninit bt t len; mret tt
  | CCheckpoint => _ ← Arena_checkpoint; mret tt
  | CRewind cp => Arena_rewind_to_checkpoint cp
  | CPush => _ ← Arena_push_checkpoint; mret tt
  | CPop => _ ← Arena_pop_and_rewind; mret tt
  | CClear => Arena_clear_checkpoints
  | CReset => Arena_reset
  | CResetAndShrink => Arena_reset_and_shrink_to_fit
  end.
(** The state after the calls, whatever their outcomes. *)
Definition after_calls `{Cfg} `{GlobalAlloc} (bt : string) (calls : list ArenaCall) (s : AW) : AW := foldl (λ s c, (run_call bt c s).2) s calls.

