(* ===== verification/ArenaInvariant.v ===== *)
(** * ArenaInvariant: every call keeps an arena well formed

    All operations of the arena that change its state, in any order, panics caught
    and checkpoints used at any time and in any way: the invariant of InnerInv.v
    holds after each of them and none of them is undefined behaviour. *)
From S2P Require Import Prelude Keeps Memory Bump Chunk Slab ThreadLocal LockFree VirtualMemory Debug Inner InnerInv Objects Arena ArenaSafety ArenaCheckpoint ArenaSlices ArenaRelease CacheReset StackFrame ArenaCalls.
Local Open Scope Z_scope.

(** Calls with arguments of their Rust types: sizes that match, alignments the arena
    honours, unsigned offsets. *)
Definition call_ok `{Cfg} (c : ArenaCall) : Prop :=
  match c with
  | CAlloc t value => Obj_ok (mkObj t value)
  | CSliceCopy t len data => Elem_ok t ∧ 0 ≤ len ∧ Z.of_nat (length data) = l_size t * len
  | CSliceUninit t len => Elem_ok t ∧ 0 ≤ len
  | CRewind cp => 0 ≤ cp_chunk_offset cp
  | _ => True
  end.

(** The memory an allocating call asks the arena for. *)
Definition call_layout (c : ArenaCall) : option Layout :=
  match c with
  | CAlloc t _ => Some t
  | CSliceCopy t len _ | CSliceUninit t len => Some (mkLayout (l_size t * len) (l_align t))
  | _ => None
  end.

(** The calls one after the other, each panic caught; an abort ends the program. *)
Fixpoint run_calls `{Cfg} `{GlobalAlloc} (bt : string) (calls : list ArenaCall) : M AW unit := λ s,
  match calls with
  | [] => (Ok tt, s)
  | c :: calls =>
      match run_call bt c s with
      | (Ok _, s') | (Panic _, s') => run_calls bt calls s'
      | (r, s') => (r, s')
      end
  end.

Record Arena_inv (s : AW) : Prop := mkArenaInv {
  inv_ok : Arena_ok s;
  inv_stack : Forall (λ cp, 0 ≤ cp_chunk_offset cp) (in_checkpoints (a_inner (a_arena s)))
}.

Section calls.
Context `{cfg : Cfg} {ga : GlobalAlloc} `{!GlobalAllocOk ga} (bt : string).
Hypothesis (Hg : generation_wraps) (Hdb : feat_debug = false).

(** What a call that asks for [l], if it is an allocation, may do to the arena it leaves
    behind. *)
Definition call_post {A} (l : option Layout) (r : outcome A) (s' : AW) : Prop :=
  match r with
  | Ok _ | Panic _ => Arena_inv s'
  | Abort _ => Arena_ok s' ∧ ∃ x, l = Some x ∧ refused x s'
  | UB _ => False
  end.

(** The result of a call is dropped. *)
Lemma call_void {A} l (m : M AW A) s :
  (∃ r s', m s = (r, s') ∧ call_post l r s') → ∃ r s', (_ ← m; mret tt) s = (r, s') ∧ call_post l r s'.
Proof. intros (r & s' & E & Hr). unfold mbind, M_bind. rewrite E. destruct r as [x|e|e|e]; eexists _, s'; (split; [reflexivity|exact Hr]). Qed.

(** An allocation leaves the stack alone. *)
Lemma inv_alloc {A} (m : M AW A) s o s' :
  (∀ stk next, Keeps (stack_aw stk next) m) → m s = (o, s') → Arena_inv s → Arena_ok s' → Arena_inv s'.
Proof. intros Hm E [_ Hs] Hok. destruct (kept_stack m s o s' Hm E) as [Hk _]. split; [done|]. by rewrite Hk. Qed.

Lemma gave_up_post {A} l e s s' : GaveUp l s s' → call_post (A := A) (Some l) (Abort e) s'.
Proof. intros [Hst _ Href]. split; [exact (step_wf _ _ Hst)|by exists l]. Qed.

Lemma alloc_call t value s : Arena_inv s → Obj_ok (mkObj t value) → ∃ r s', Arena_alloc bt t value s = (r, s') ∧ call_post (Some t) r s'.
Proof.
  intros Hi Ho. pose proof Hi as [Hok _]. destruct (alloc_step bt (mkObj t value) s Hok Ho) as (r & s' & E & Hr).
  exists r, s'. split; [exact E|]. destruct r as [p|e|e|e]; [|done|by apply (gave_up_post _ _ s)|done].
  apply (inv_alloc (Arena_alloc bt t value) s (Ok p)); [apply _|exact E|done|exact (step_wf _ _ (proj1 Hr))].
Qed.

Lemma slice_copy_call t len data s :
  Arena_inv s → Elem_ok t → 0 ≤ len → Z.of_nat (length data) = l_size t * len →
  ∃ r s', Arena_alloc_slice_copy bt t len data s = (r, s') ∧ call_post (Some (mkLayout (l_size t * len) (l_align t))) r s'.
Proof.
  intros Hi Ht Hlen Hd. pose proof Hi as [Hok _]. pose proof Ht as (Hl & Hsz & _).
  destruct (decide (slice_fits t len)) as [Hfit|Hfit].
  2:{ destruct (slice_overflow bt t len data s Hl Hsz Hfit) as [-> _]. by eexists _, s. }
  destruct (slice_copy_step bt t len data s Hok Ht Hlen Hfit Hd) as (r & s' & E & Hr). exists r, s'. split; [exact E|].
  destruct r as [[p n]|e|e|e]; [|done|by apply (gave_up_post _ _ s)|done]. destruct Hr as [[_ _ Hst _] _].
  by apply (inv_alloc (Arena_alloc_slice_copy bt t len data) s (Ok (p, n))); [apply _| | |exact (step_wf _ _ Hst)].
Qed.

Lemma slice_uninit_call t len s :
  Arena_inv s → Elem_ok t → 0 ≤ len → ∃ r s', Arena_alloc_slice_uninit bt t len s = (r, s') ∧
    call_post (Some (mkLayout (l_size t * len) (l_align t))) r s'.
Proof.
  intros Hi Ht Hlen. pose proof Hi as [Hok _]. pose proof Ht as (Hl & Hsz & _).
  destruct (decide (slice_fits t len)) as [Hfit|Hfit].
  2:{ destruct (slice_overflow bt t len [] s Hl Hsz Hfit) as [_ ->]. by eexists _, s. }
  destruct (slice_uninit_step bt t len s Hok Ht Hlen Hfit) as (r & s' & E & Hr). exists r, s'. split; [exact E|].
  destruct r as [[p n]|e|e|e]; [|done|by apply (gave_up_post _ _ s)|done]. destruct Hr as [_ _ Hst _].
  by apply (inv_alloc (Arena_alloc_slice_uninit bt t len) s (Ok (p, n))); [apply _| | |exact (step_wf _ _ Hst)].
Qed.

(** Only the stack of checkpoints changed. *)
Lemma with_stack s s' :
  Arena_ok s → a_world s' = a_world s → (∃ n stk, a_inner (a_arena s') = set_checkpoints stk (set_checkpoint_id n (a_inner (a_arena s)))) → Arena_ok s'.
Proof.
  intros Hok Hw (n & stk & Hi). unfold Arena_ok, iw. rewrite Hi, Hw. eapply same_view_wf; [|exact Hok]. by constructor.
Qed.

Lemma checkpoint_call s :
  Arena_inv s → ∃ r s', Arena_checkpoint s = (r, s') ∧ call_post None r s' ∧ (∀ cp, r = Ok cp → 0 ≤ cp_chunk_offset cp).
Proof.
  intros Hi. pose proof Hi as [Hok _]. destruct (checkpoint_cases s Hok) as [(cp & s' & E)|(e & E)]; rewrite E; [|by eexists _, s].
  eexists _, s'. split; [reflexivity|]. destruct (checkpoint_eq s cp s' Hok E) as ((c & Hc & Hoff) & _ & _ & _ & Hw & n & Hin). split.
  - destruct Hi as [_ Hs]. split; [|by rewrite Hin]. apply (with_stack s); [done|done|]. exists n, (in_checkpoints (a_inner (a_arena s))). by rewrite Hin.
  - intros cp' [= <-]. destruct (current_chunk (iw s) Hok) as (c' & Hc' & Hcw). unfold current in Hc. simpl in Hc'. rewrite Hc in Hc'.
    injection Hc' as <-. rewrite Hoff. by destruct Hcw as (_&_&_&_&_&[? _]).
Qed.

Lemma push_call s : Arena_inv s → ∃ r s', Arena_push_checkpoint s = (r, s') ∧ call_post None r s'.
Proof.
  intros Hi. destruct (checkpoint_call s Hi) as (r & s1 & E & Hr & Hoff). apply with_inner_inv in E as E1.
  unfold Arena_push_checkpoint, ArenaInner_push_checkpoint, with_inner, on_inner, zoom. unfold mbind, M_bind. fold (iw s). rewrite E1.
  destruct r as [cp|e|e|e]; (eexists _, _; split; [reflexivity|]); [|destruct Hr as [Hok Hs]; by split|exact Hr|exact Hr].
  destruct Hr as [Hok Hs]. split; simpl; [by eapply same_view_wf; [|exact Hok]|]. apply Forall_app_2; [done|]. apply Forall_singleton. by apply Hoff.
Qed.

(** Rewinding, with any checkpoint: it panics and changes nothing, or the arena is
    well formed. *)
Lemma rewind_call cp s : Arena_inv s → 0 ≤ cp_chunk_offset cp → ∃ r s', Arena_rewind_to_checkpoint cp s = (r, s') ∧ call_post None r s'.
Proof.
  intros Hi Hoff. pose proof Hi as [Hok Hs].
  destruct (decide (cp_valid cp (in_chunks (i_inner (iw s))))) as [Hv|Hv];
    [|destruct (rewind_invalid cp s Hoff Hv) as [e E]; by eexists _, s].
  destruct (rewind_any cp (iw s) Hg Hdb Hok Hv) as (x & E & Hx & Hstk & _).
  destruct (with_inner_run _ _ _ _ E) as (s' & E' & Hs' & _). eexists _, s'. split; [exact E'|]. rewrite <- Hs' in *. split; [exact Hx|].
  simpl in Hstk. rewrite Hstk. rewrite Forall_forall in Hs |- *. by intros c' [_ Hin]%list_elem_of_filter; apply Hs.
Qed.

Lemma pop_call s : Arena_inv s → ∃ r s', Arena_pop_and_rewind s = (r, s') ∧ call_post None r s'.
Proof.
  intros Hi. pose proof Hi as [Hok Hs]. unfold Arena_pop_and_rewind. unfold mbind at 1, M_bind at 1, get.
  destruct (vec_pop (in_checkpoints (a_inner (a_arena s)))) as [[cp rest]|] eqn:Ep; [|by eexists _, s].
  apply vec_pop_Some in Ep. rewrite Ep in Hs. apply Forall_app in Hs as [Hrest Hcp]. rewrite Forall_singleton in Hcp.
  set (s1 := mkAW (a_set_inner (set_checkpoints rest (a_inner (a_arena s))) (a_arena s)) (a_world s)).
  assert (Arena_inv s1) as Hi1 by (split; [by eapply same_view_wf; [|exact Hok]|exact Hrest]).
  destruct (rewind_call cp s1 Hi1 Hcp) as (r & s' & E & Hr). unfold with_inner at 1, on_inner, zoom, modify, mbind, M_bind. simpl. fold s1.
  rewrite E. destruct r; (eexists _, _; split; [reflexivity|exact Hr]).
Qed.

(** One call. *)
Lemma call_step c s : Arena_inv s → call_ok c → ∃ r s', run_call bt c s = (r, s') ∧ call_post (call_layout c) r s'.
Proof.
  intros Hi Hc. destruct c; cbn [run_call call_layout]; cbn [call_ok] in Hc.
  - by apply call_void, alloc_call.
  - destruct Hc as (? & ? & ?). by apply call_void, slice_copy_call.
  - destruct Hc. by apply call_void, slice_uninit_call.
  - apply call_void. destruct (checkpoint_call s Hi) as (r & s' & E & Hr & _). by exists r, s'.
  - by apply rewind_call.
  - by apply call_void, push_call.
  - by apply call_void, pop_call.
  - eexists _, _. split; [reflexivity|]. destruct Hi as [Hok _]. split; [by eapply same_view_wf; [|exact Hok]|constructor].
  - destruct Hi as [Hok _]. destruct (reset_any s Hg Hok) as (s' & E & Hok' & Hcp). eexists _, s'. split; [exact E|].
    split; [done|]. rewrite Hcp. constructor.
  - destruct Hi as [Hok _]. destruct (shrink_step s Hok) as (c & rest & s' & _ & E & Hok' & _ & _ & Hcp & _). eexists _, s'. split; [exact E|].
    split; [done|]. rewrite Hcp. constructor.
Qed.
End calls.

(** C12: the type invariant of an arena.  Any sequence of calls with well-typed
    arguments (allocations, slices, checkpoints taken, pushed, popped, cleared and
    rewound to in any order, also checkpoints of another arena or never taken,
    resets and shrinking), a panic being caught and the next call made: the arena is
    well formed after each call and no call is undefined behaviour.  The calls go on
    to the end unless the program is aborted; then the state it ended in is well formed
    and the arena there refuses the memory that one of the calls, an allocation, asks
    for.  Well-typed are values and elements of nonzero size, aligned to at most 64
    ([call_ok]; ArenaSafety.v shows what zero-sized values do).  This holds with and without the
    lock-free buffer and the thread cache (which no arena fills); without debug
    guards, and without overflow checks where the generation counter of the buffer is
    not atomic ([generation_wraps]). *)
Theorem arena_calls_well_formed `{cfg : Cfg} {ga : GlobalAlloc} `{!GlobalAllocOk ga} bt calls s :
  generation_wraps → feat_debug = false → Arena_inv s → Forall call_ok calls →
  ∃ r s', run_calls bt calls s = (r, s') ∧
    match r with
    | Ok _ => Arena_inv s'
    | Abort _ => Arena_ok s' ∧ ∃ c l, c ∈ calls ∧ call_layout c = Some l ∧ refused l s'
    | _ => False
    end.
Proof.
  intros Hg Hdb Hi Hcs. revert s Hi. induction Hcs as [|c calls Hc _ IH]; intros s Hi; [by eexists _, s|]. simpl.
  destruct (call_step bt Hg Hdb c s Hi Hc) as (r & s1 & -> & Hr).
  assert (Arena_inv s1 → ∃ r s', run_calls bt calls s1 = (r, s') ∧ match r with
    | Ok _ => Arena_inv s'
    | Abort _ => Arena_ok s' ∧ ∃ c0 l, c0 ∈ c :: calls ∧ call_layout c0 = Some l ∧ refused l s'
    | _ => False end) as Hgo.
  { intros Hi1. destruct (IH s1 Hi1) as (r2 & s2 & E & Hr2). exists r2, s2. split; [exact E|]. destruct r2; try done.
    destruct Hr2 as (Hok & d & l & Hin & Hd). split; [done|]. exists d, l. split; [by constructor|done]. }
  destruct r as [x|e|e|e]; [by apply Hgo|by apply Hgo| |done]. eexists _, s1. split; [done|].
  destruct Hr as (Hok & l & Hl & Href). split; [done|]. exists c, l. split; [constructor|done].
Qed.

(** A forged checkpoint, a pop without a push and a reset among the allocations. *)
Lemma arena_calls_well_formed_witness :
  let calls := [CPush; CAlloc (mkLayout 4 4) [1; 2; 3; 4]; CRewind (mkCheckpoint 7 100 0 0); CSliceUninit (mkLayout 8 8) 30; CPop; CPop;
                CRewind (mkCheckpoint 0 64 3 1); CReset; CSliceCopy (mkLayout 1 1) 3 [7; 8; 9]; CResetAndShrink] in
  ∃ s', @run_calls cfg_dev bump_alloc "bt" calls demo_state = (Ok tt, s') ∧ Arena_inv s'.
Proof.
  intros calls. destruct (@arena_calls_well_formed cfg_dev bump_alloc bump_alloc_ok "bt" calls demo_state) as (r & s' & E & Hr).
  - intros [=].
  - reflexivity.
  - split; [exact demo_ok|constructor].
  - repeat constructor; vm_compute; intuition discriminate.
  - assert (r = Ok tt) as -> by (change r with ((r, s').1); rewrite <- E; vm_compute; reflexivity). exists s'. split; [exact E|exact Hr].
Defined.
