(* ===== verification/ArenaFootprint.v ===== *)
(** * ArenaFootprint: an arena touches only its own memory

    The blocks of the heap that an arena does not own are a frame: no sequence of
    calls on the arena frees one of them, hands out a part of it or changes a byte of
    it, and when the arena is dropped they are what is left.  So arenas do not
    interfere with each other, nor with anything else the program owns. *)
From S2P Require Import Prelude Keeps Memory Bump Chunk Slab ThreadLocal LockFree VirtualMemory Debug Inner InnerInv Objects Arena ArenaSafety ArenaCheckpoint Region BufferFrame ArenaFrames ArenaSlices ArenaRelease CacheReset StackFrame ArenaRegion ArenaCalls ArenaInvariant.
Local Open Scope Z_scope.

(** The addresses of some blocks. *)
Definition in_blocks (bs : list Block) (x : Z) : Prop := Exists (λ b, x ∈ block_range b) bs.

(** The heap is the arena's blocks, its lock-free buffer included, and [outside]. *)
Definition Held (outside : list Block) (s : IW) : Prop := heap (s_mem s) ≡ₚ Inner_blocks (i_inner s) ++ outside.

Lemma Held_accounts outside s : Held outside s ↔ Accounts (lf_blocks (in_lockfree_buffer (i_inner s)) ++ outside) s.
Proof. unfold Held, Accounts, Inner_blocks. by rewrite <- app_assoc. Qed.
Lemma Owns_Held outside s : Owns outside s → Held outside s.
Proof. intros [Hh Hn]. unfold Held, Inner_blocks. rewrite Hn. by rewrite app_nil_r. Qed.
Lemma lf_blocks_id o o' : lf_id o = lf_id o' → lf_blocks o = lf_blocks o'.
Proof. destruct o as [b|], o' as [b'|]; try done. unfold lf_id, LF_block, lf_blocks, LF_block. intros [= H1 H2]. by rewrite H1, H2. Qed.
Lemma Held_from outside s s' :
  lf_id (in_lockfree_buffer (i_inner s')) = lf_id (in_lockfree_buffer (i_inner s)) →
  (∀ out, Accounts out s → Accounts out s') → Held outside s → Held outside s'.
Proof. intros Hk Ha. rewrite !Held_accounts, (lf_blocks_id _ _ Hk). apply Ha. Qed.

(** From [s] to [s'] the arena kept to itself. *)
Record Confined (outside : list Block) (s s' : IW) : Prop := mkConfined {
  cf_held : Held outside s';
  cf_bytes x : in_blocks outside x → bytes (s_mem s') !! x = bytes (s_mem s) !! x
}.

Lemma Confined_refl outside s : Held outside s → Confined outside s s.
Proof. by split. Qed.
Lemma Confined_trans outside s1 s2 s3 : Confined outside s1 s2 → Confined outside s2 s3 → Confined outside s1 s3.
Proof. intros [_ Hb1] [Ho Hb2]. split; [done|]. intros x Hx. by rewrite Hb2, Hb1. Qed.

(** The blocks of the arena are apart from the others. *)
Lemma outside_apart outside s blk x : Inner_wf s → Held outside s → blk ∈ Inner_blocks (i_inner s) → in_blocks outside x → x ∉ block_range blk.
Proof.
  intros (Hm & _) Hh Hin Hx Hxb. assert (∃ b, b ∈ outside ∧ x ∈ block_range b) as (b & Hb & Hb') by (by apply Exists_exists).
  assert (pw_disjoint (block_range <$> (Inner_blocks (i_inner s) ++ outside))) as Hd.
  { eapply pw_disjoint_submseteq; [|exact Hm]. apply fmap_submseteq. fold (s_mem s). unfold Held in Hh. by rewrite Hh. }
  rewrite fmap_app, pw_disjoint_app in Hd. destruct Hd as (_ & _ & Hd). rewrite Forall_forall in Hd.
  specialize (Hd (block_range blk) (list_elem_of_fmap_2 _ _ _ Hin)). rewrite Forall_forall in Hd.
  specialize (Hd (block_range b) (list_elem_of_fmap_2 _ _ _ Hb)). rewrite range_disjoint_spec in Hd. by apply (Hd x).
Qed.

(** What is outside cannot be handed out. *)
Lemma outside_not_avail outside s x : Inner_wf s → Held outside s → in_blocks outside x → ¬ Inner_avail s x.
Proof.
  intros Hw Hh Hx. pose proof Hw as (_ & _ & Hf & _). intros [(c & Hc & Ha)|[(b & Hb & Hn & Ha)|Hnl]].
  - apply (outside_apart outside s (Chunk_block c) x Hw Hh); [|done|].
    + unfold Inner_blocks. apply elem_of_app. left. apply list_elem_of_fmap. exists c. split; [done|by eapply list_elem_of_lookup_2].
    + apply chunk_rest_range; [|done]. rewrite Forall_lookup in Hf. by eapply Hf.
  - apply (outside_apart outside s (LF_block b) x Hw Hh); [|done|exact (lf_avail_range s b x Hw Hb Hn Ha)].
    unfold Inner_blocks. apply elem_of_app. right. rewrite Hb. unfold lf_blocks. destruct (Z.eqb_spec (lf_buffer b) 0); [done|left].
  - assert (∃ b, b ∈ outside ∧ x ∈ block_range b) as (b & Hb & Hxb) by (by apply Exists_exists).
    eapply in_block_live; [|exact Hxb|exact Hnl]. unfold Held in Hh. rewrite Hh. apply elem_of_app. by right.
Qed.

Lemma step_confined outside s s' : Inner_wf s → Held outside s → Step s s' → Held outside s' → Confined outside s s'.
Proof. intros Hw Ho Hst Ho'. split; [done|]. intros x Hx. apply (step_bytes _ _ Hst). by apply (outside_not_avail outside). Qed.

(** ** What only moves the arena's own marks

    The blocks of the chunks, the heap and the buffer's place are kept, and the bytes
    outside of the buffer, by everything that neither allocates nor gives back. *)
Section footing.
Context `{cfg : Cfg} (k : option (Z * Z)) (bl h : list Block) (bs : gmap Z Z).
Hypothesis (Hdb : feat_debug = false).

Definition in_id (a : Z) : Prop := match k with Some (p, c) => in_buffer p c a | None => False end.
Record footing (i : ArenaInner) (m : Mem) : Prop := mkFooting {
  ft_id : lf_id (in_lockfree_buffer i) = k;
  ft_blocks : Chunk_block <$> in_chunks i = bl;
  ft_heap : heap m = h;
  ft_bytes a : ¬ in_id a → bytes m !! a = bs !! a
}.
Definition footing_iw (s : IW) : Prop := footing (i_inner s) (w_mem (i_world s)).
Definition footing_aw (s : AW) : Prop := footing (a_inner (a_arena s)) (w_mem (a_world s)).

#[local] Hint Extern 1 (Keeps footing_iw (on_inner _)) =>
  (apply Keeps_modify; intros [[] ?] [? ? ? ?]; split; simpl in *; rewrite ?rewind_blocks, ?Chunk_reset_blocks; assumption) : typeclass_instances.
#[local] Instance footing_stats f : Keeps footing_iw (stats_update f).
Proof. unfold stats_update. apply _. Qed.
#[local] Instance footing_cache {A} (m : M ThreadCache A) : Keeps footing_iw (in_world (w_on_cache m)).
Proof. intros s Hs. unfold in_world, w_on_cache, zoom. by destruct (m _). Qed.
#[local] Instance footing_reset_caches : Keeps footing_iw reset_caches.
Proof.
  unfold reset_caches. apply Keeps_bind; [apply _|]. intros _. apply Keeps_if; [|apply _]. apply Keeps_gets_bind. intros s0 H0.
  destruct (in_lockfree_buffer (i_inner s0)) as [b|] eqn:Eb; [|apply _]. pose proof (ft_id _ _ H0) as Hk. rewrite Eb in Hk.
  intros s [_ Hbl Hh Hb]. unfold with_lockfree.
  pose proof (lf_off_reset (lf_buffer b) (lf_capacity b) h bs (mkLF b (w_slab (i_world s)) (w_mem (i_world s)))) as H.
  destruct (LockFreeBuffer_reset _) as [o x]. destruct H as ([Hx1 Hx2] & Hxh & Hxb).
  { split; [done|]. split; [done|]. intros a Ha. apply Hb. unfold in_id. by rewrite <- Hk. }
  split; simpl in *; [unfold lf_id; simpl; by rewrite Hx1, Hx2|done|done|]. intros a Ha. apply Hxb. unfold in_id in Ha. by rewrite <- Hk in Ha.
Qed.
#[local] Instance footing_checkpoint : Keeps footing_iw ArenaInner_checkpoint.
Proof. unfold ArenaInner_checkpoint. apply _. Qed.
#[local] Instance footing_rewind cp : Keeps footing_iw (ArenaInner_rewind_to_checkpoint cp).
Proof. unfold ArenaInner_rewind_to_checkpoint. rewrite Hdb. apply _. Qed.
#[local] Instance footing_with_inner {A} (m : M IW A) : Keeps footing_iw m → Keeps footing_aw (with_inner m).
Proof. by apply Keeps_zoom. Qed.

(** The calls that are of this kind. *)
Definition moves_marks (c : ArenaCall) : bool :=
  match c with CAlloc _ _ | CSliceCopy _ _ _ | CSliceUninit _ _ | CResetAndShrink => false | _ => true end.
Lemma footing_call `{ga : GlobalAlloc} bt c : moves_marks c = true → Keeps footing_aw (run_call bt c).
Proof.
  destruct c; intros [=]; simpl; unfold Arena_checkpoint, Arena_rewind_to_checkpoint, Arena_push_checkpoint, ArenaInner_push_checkpoint,
    Arena_pop_and_rewind, Arena_clear_checkpoints, Arena_reset; apply _.
Qed.
End footing.

Section calls.
Context `{cfg : Cfg} {ga : GlobalAlloc} `{!GlobalAllocOk ga} (bt : string) (outside : list Block).
Hypothesis (Hg : generation_wraps) (Hdb : feat_debug = false).

(** What a call that did not end the program guarantees. *)
Definition confined_post {A} (s : AW) (r : outcome A) (s' : AW) : Prop :=
  match r with Ok _ | Panic _ => Confined outside (iw s) (iw s') | _ => True end.

Lemma confined_void {A} (m : M AW A) s :
  (∀ r s', m s = (r, s') → confined_post s r s') → ∀ r s', (_ ← m; mret tt) s = (r, s') → confined_post s r s'.
Proof.
  intros Hm r s'. unfold mbind, M_bind. destruct (m s) as [o s1] eqn:E. specialize (Hm o s1 eq_refl).
  destruct o; intros [= <- <-]; exact Hm.
Qed.

(** Moving marks. *)
Lemma marks_confined c s r s' : moves_marks c = true → Arena_ok s → Held outside (iw s) → run_call bt c s = (r, s') → Confined outside (iw s) (iw s').
Proof.
  intros Hc Hok Hh E.
  pose proof (footing_call (lf_id (in_lockfree_buffer (a_inner (a_arena s)))) (Chunk_block <$> in_chunks (a_inner (a_arena s)))
    (heap (w_mem (a_world s))) (bytes (w_mem (a_world s))) Hdb bt c Hc s) as H.
  rewrite E in H. destruct H as [Hk Hbl Hhp Hb]; [by split|]. cbn [snd] in *. split.
  - apply (Held_from outside (iw s)); [exact Hk| |exact Hh]. intros out. unfold Accounts, s_mem. simpl. by rewrite Hbl, Hhp.
  - intros x Hx. apply Hb. unfold in_id, lf_id. destruct (in_lockfree_buffer (a_inner (a_arena s))) as [b|] eqn:Eb; simpl; [|by intros []]. intros [Hn Hin].
    apply (outside_apart outside (iw s) (LF_block b) x Hok Hh); [|done|exact Hin]. unfold Inner_blocks. simpl. rewrite Eb.
    apply elem_of_app. right. unfold lf_blocks. destruct (Z.eqb_spec (lf_buffer b) 0); [done|left].
Qed.

(** Allocating. *)
Lemma alloc_confined t value s r s' :
  Arena_ok s → Obj_ok (mkObj t value) → Held outside (iw s) → Arena_alloc bt t value s = (r, s') → confined_post s r s'.
Proof.
  intros Hok Ho Hw E. destruct (alloc_step bt (mkObj t value) s Hok Ho) as (x & s1 & E1 & Hx). simpl in E1. rewrite E in E1. injection E1 as <- <-.
  destruct r as [p|e|e|e]; [|done..]. apply step_confined; [done|done|exact (proj1 Hx)|].
  apply (Held_from outside (iw s)); [exact (kept_buffer _ s (Ok p) s' (λ k, buffer_alloc bt k t value) E)| |done].
  intros out. by apply (alloc_accounts bt out Hdb (mkObj t value) s p).
Qed.

(** A slice takes its memory as a value of its layout does. *)
Lemma slice_accounts out t len data s x p s' :
  Arena_ok s → Elem_ok t → 0 < len → Layout_array t len = Some x → Accounts out (iw s) →
  (ptr ← Arena_allocate_raw bt x; _ ← a_on_mem (ptr_write ptr t data); mret (ptr, len)) s = (Ok p, s') → Accounts out (iw s').
Proof.
  intros Hok (Hl & Hsz & _) Hlen Ha Ho (q & s1 & E1 & (y & s2 & E2 & [= _ <-])%M_bind_Ok)%M_bind_Ok.
  destruct (Layout_array_ok t len x Hl ltac:(lia) Ha) as (Hx & Hs & _).
  eapply write_accounts; [exact E2|]. eapply (raw_accounts bt); [done|exact Hok|exact Hx| |exact E1|done]. nia.
Qed.

Lemma slice_copy_confined t len data s r s' :
  Arena_ok s → Elem_ok t → 0 ≤ len → Z.of_nat (length data) = l_size t * len → Held outside (iw s) →
  Arena_alloc_slice_copy bt t len data s = (r, s') → confined_post s r s'.
Proof.
  intros Hok Ht Hlen Hd Ho E. pose proof Ht as (Hl & Hsz & _). destruct (decide (slice_fits t len)) as [Hfit|Hfit].
  2:{ destruct (slice_overflow bt t len data s Hl Hsz Hfit) as [E1 _]. rewrite E1 in E. injection E as <- <-. by apply Confined_refl. }
  destruct (slice_copy_step bt t len data s Hok Ht Hlen Hfit Hd) as (x & s1 & E1 & Hx). rewrite E in E1. injection E1 as <- <-.
  destruct r as [[p n]|e|e|e]; [|done..]. destruct Hx as [[_ _ Hst _] _]. apply step_confined; [done|done|exact Hst|].
  apply (Held_from outside (iw s)); [exact (kept_buffer _ s _ s' (λ k, buffer_slice_copy bt k t len data) E)| |done]. intros out Hout.
  revert E. unfold Arena_alloc_slice_copy. destruct (Z.eqb_spec len 0); [by intros [= _ _ <-]|].
  destruct (Layout_array t len) as [l|] eqn:Ha; [|by intros [= _ _ <-]]. apply slice_accounts; [done|done|lia|done|done].
Qed.

Lemma slice_uninit_confined t len s r s' :
  Arena_ok s → Elem_ok t → 0 ≤ len → Held outside (iw s) → Arena_alloc_slice_uninit bt t len s = (r, s') → confined_post s r s'.
Proof.
  intros Hok Ht Hlen Ho E. pose proof Ht as (Hl & Hsz & _). destruct (decide (slice_fits t len)) as [Hfit|Hfit].
  2:{ destruct (slice_overflow bt t len [] s Hl Hsz Hfit) as [_ E1]. rewrite E1 in E. injection E as <- <-. by apply Confined_refl. }
  destruct (slice_uninit_step bt t len s Hok Ht Hlen Hfit) as (x & s1 & E1 & Hx). rewrite E in E1. injection E1 as <- <-.
  destruct r as [[p n]|e|e|e]; [|done..]. destruct Hx as [_ _ Hst _]. apply step_confined; [done|done|exact Hst|].
  apply (Held_from outside (iw s)); [exact (kept_buffer _ s _ s' (λ k, buffer_slice_uninit bt k t len) E)| |done]. intros out Hout.
  revert E. unfold Arena_alloc_slice_uninit. destruct (Z.eqb_spec len 0); [by intros [= _ _ <-]|].
  destruct (Layout_array t len) as [l|] eqn:Ha; [|done]. apply slice_accounts; [done|done|lia|done|done].
Qed.

(** Giving chunks back. *)
Lemma shrink_confined s r s' : Arena_ok s → Held outside (iw s) → Arena_reset_and_shrink_to_fit s = (r, s') → confined_post s r s'.
Proof.
  intros Hok Ho Er. destruct (shrink_step s Hok) as (c & rest & s1 & Hcs & E & _ & Hcs' & _ & _ & Hh & Hb & Hl). rewrite E in Er. injection Er as <- <-.
  split; [|by intros x _; unfold s_mem; simpl; rewrite Hb]. apply (Held_from outside (iw s)); [by simpl; rewrite Hl| |done]. intros out.
  unfold Accounts, s_mem. simpl. rewrite Hcs, Hcs', Hh. simpl. intros Hp. apply (Permutation_app_inv_l (Chunk_block <$> rest)). rewrite Hp. solve_Permutation.
Qed.

Lemma call_confined c s r s' : Arena_ok s → call_ok c → Held outside (iw s) → run_call bt c s = (r, s') → confined_post s r s'.
Proof.
  intros Hok Hc Ho. destruct (moves_marks c) eqn:Em.
  { intros E. pose proof (marks_confined c s r s' Em Hok Ho E). by destruct r. }
  destruct c; try done; cbn [run_call]; cbn [call_ok] in Hc; [apply confined_void..|].
  - intros. by eapply alloc_confined.
  - destruct Hc as (? & ? & ?). intros. by eapply slice_copy_confined.
  - destruct Hc. intros. by eapply slice_uninit_confined.
  - by apply shrink_confined.
Qed.

Lemma run_calls_confined calls s x s' :
  Arena_inv s → Forall call_ok calls → Held outside (iw s) → run_calls bt calls s = (Ok x, s') →
  Arena_inv s' ∧ Confined outside (iw s) (iw s').
Proof.
  intros Hi Hcs. revert s Hi. induction Hcs as [|c calls Hc _ IH]; intros s Hi Ho; simpl; [intros [= _ <-]; split; [done|by apply Confined_refl]|].
  destruct (call_step bt Hg Hdb c s Hi Hc) as (r & s1 & E & Hr). pose proof (call_confined c s r s1 (inv_ok _ Hi) Hc Ho E) as Hcf. rewrite E.
  destruct r as [y|e|e|e]; [| |done|done]; (intros E1; destruct (IH s1 Hr (cf_held _ _ _ Hcf) E1) as [Hi' Hcf']; split; [done|]; by eapply Confined_trans).
Qed.

(** A new arena has no checkpoints. *)
Lemma Arena_new_stack self cap w a w' : Arena_try_with_capacity self cap w = (Ok (ROk a), w') → in_checkpoints (a_inner a) = [].
Proof.
  intros (r & w1 & E1 & E)%M_bind_Ok. destruct r as [i|e]; [|done]. apply M_bind_Ok in E as (a1 & w2 & E2 & [= <- _]).
  destruct (Arena_from_inner_same i w1) as (a0 & w0 & E0 & Hi & _). rewrite E0 in E2. injection E2 as <- _. rewrite Hi.
  apply M_bind_Ok in E1 as (r & w3 & _ & E). destruct r as [c|e]; [|done]. apply M_bind_Ok in E as (b & w4 & _ & [= <- _]). by destruct feat_stats.
Qed.

(** A new arena accounts for its first chunk and its buffer. *)
Lemma Arena_new_held self cap w a w' :
  0 < cap ≤ ISIZE_MAX - 63 → Arena_try_with_capacity self cap w = (Ok (ROk a), w') → Held (heap (w_mem w)) (iw (mkAW a w')).
Proof.
  intros Hcap. unfold Arena_try_with_capacity, ArenaInner_new, w_on_mem. mrun.
  pose proof (Chunk_new_wf cap (w_mem w)) as Hnew. destruct (Chunk_new cap (w_mem w)) as [[[c|e]|e|e|e] m1]; simpl; try done.
  destruct (Hnew c m1 Hcap eq_refl) as (_ & _ & _ & -> & _). clear Hnew. set (m1 := mkMem _ _).
  assert (∀ i w1, in_chunks i = [c] → heap (w_mem w1) ≡ₚ lf_blocks (in_lockfree_buffer i) ++ heap m1 →
    match Arena_from_inner i w1 with (Ok a, w2) => (Ok (ROk a : Result Arena ArenaError), w2) | (Panic e, w2) => (Panic e, w2) | (Abort e, w2) => (Abort e, w2) | (UB e, w2) => (UB e, w2) end
      = (Ok (ROk a), w') → Held (heap (w_mem w)) (iw (mkAW a w'))) as Hrest.
  { intros i w1 Hc Hh. destruct (Arena_from_inner_same i w1) as (a0 & w2 & -> & Hi & Hm & _). intros [= -> ->].
    unfold Held, s_mem, iw. simpl. rewrite Hm, Hh, Hi. unfold Inner_blocks. rewrite Hc. simpl. by rewrite <- Permutation_middle. }
  destruct feat_lockfree; simpl.
  - destruct (LockFreeBuffer_new_eq self m1) as (b & m2 & E & _ & _ & _ & _ & _ & Hb). rewrite E. apply Hrest; [by destruct feat_stats|].
    destruct feat_stats; simpl; (destruct Hb as [[Hz ->]|(Hp & _ & _ & -> & _)]; [by rewrite Hz|destruct (Z.eqb_spec (lf_buffer b) 0); [lia|done]]).
  - apply Hrest; by destruct feat_stats.
Qed.

(** Dropping the arena gives back exactly its own blocks. *)
Lemma drop_buffer o w :
  lf_ok o w → lf_blocks o ⊆+ heap (w_mem w) →
  ∃ m', match o with Some b => w_on_mem (LockFreeBuffer_drop b) | None => mret tt end w = (Ok tt, w_set_mem m' w) ∧
    heap (w_mem w) ≡ₚ lf_blocks o ++ heap m' ∧ bytes m' = bytes (w_mem w).
Proof.
  destruct o as [b|]; cbn [lf_ok lf_blocks]; [|exists (w_mem w); by destruct w]. unfold w_on_mem, LockFreeBuffer_drop.
  destruct (lf_buffer b =? 0) eqn:Ez; [exists (w_mem w); by destruct w|]. intros Hw Hsub. pose proof (lf_wf_capacity _ Hw) as Hc. simpl in Hc.
  destruct (remove_block_elem (LF_block b) (heap (w_mem w))) as [h' Hr]; [eapply elem_of_submseteq; [|exact Hsub]; constructor|].
  exists (mkMem h' (bytes (w_mem w))). split; [|split; [exact (remove_block_perm _ _ _ Hr)|done]].
  mrun. rewrite Hc. simpl. replace (Layout_from_size_align 4096 LOCKFREE_ALIGNMENT) with (Some (mkLayout 4096 LOCKFREE_ALIGNMENT)) by reflexivity.
  unfold sys_dealloc. unfold LF_block in Hr. rewrite Hc in Hr. by rewrite Hr.
Qed.

Lemma drop_confined s :
  Arena_ok s → Held outside (iw s) →
  ∃ w', Arena_drop (a_arena s) (a_world s) = (Ok tt, w') ∧ heap (w_mem w') ≡ₚ outside ∧ bytes (w_mem w') = bytes (w_mem (a_world s)) ∧
    w_cache w' = w_cache (a_world s).
Proof.
  intros (_ & _ & Hf & _ & Hlf & _) Hh. unfold Held, Inner_blocks, s_mem, iw in *. cbn [i_inner i_world] in *. rewrite <- app_assoc in Hh.
  destruct (drop_chunks_spec (in_chunks (a_inner (a_arena s))) (w_mem (a_world s)) Hf) as (m1 & E1 & Hp1 & Hb1).
  { rewrite Hh. apply submseteq_inserts_r. done. }
  assert (heap m1 ≡ₚ lf_blocks (in_lockfree_buffer (a_inner (a_arena s))) ++ outside) as Hm1 by (rewrite Hp1 in Hh; by apply Permutation_app_inv_l in Hh).
  unfold Arena_drop, ArenaInner_drop. rewrite Hdb. unfold mbind, M_bind. unfold w_on_mem at 1, zoom at 1. rewrite E1. cbv beta iota.
  set (w1 := w_set_mem m1 (a_world s)).
  assert (∃ w2, match in_virtual_region (a_inner (a_arena s)) with Some r => w_on_trace (VirtualMemoryRegion_drop r) | None => mret tt end w1 = (Ok tt, w2) ∧
    w_mem w2 = m1 ∧ w_slab w2 = w_slab (a_world s) ∧ w_cache w2 = w_cache (a_world s)) as (w2 & -> & Hm2 & Hs2 & Hc2).
  { destruct (in_virtual_region _) as [v|]; [|by exists w1]. unfold w_on_trace, VirtualMemoryRegion_drop, zoom. destruct (vr_ptr v =? 0); by eexists. }
  destruct (drop_buffer (in_lockfree_buffer (a_inner (a_arena s))) w2) as (m3 & -> & Hp3 & Hb3).
  - destruct (in_lockfree_buffer _) as [b|]; [|done]. unfold lf_ok, lf_state in *. by rewrite Hs2.
  - rewrite Hm2, Hm1. by apply submseteq_inserts_r.
  - eexists. split; [reflexivity|]. simpl. rewrite Hm2 in Hp3, Hb3. split; [|split; [by rewrite Hb3, Hb1|done]].
    rewrite Hm1 in Hp3. symmetry. by apply Permutation_app_inv_l in Hp3.
Qed.
End calls.

(** ** Theorems *)



(** An arena is well formed in another world in which its blocks are still live. *)
Lemma other_world_ok b w w' :
  Arena_ok (mkAW b w) → in_lockfree_buffer (a_inner b) = None →
  Mem_wf (w_mem w') → tc_used (w_cache w') = 0%nat → Inner_blocks (a_inner b) ⊆+ heap (w_mem w') → Arena_ok (mkAW b w').
Proof. intros (_ & _ & Hf & Hlt & _ & _) Hn Hm Ht Hs. unfold Arena_ok, Inner_wf, iw in *. simpl in *. rewrite Hn. by splits. Qed.

(** C13: arenas do not interfere, in builds without the lock-free and debug features (the
    debug registry is shared by all arenas).  Two well-formed arenas live in one process,
    [b] owning blocks that [a] does not, and the thread cache is empty.  Whatever calls
    are made on [a], of nonzero-sized types aligned to at most 64 bytes (panics caught,
    no abort): [b] is still well formed, every object in its blocks still reads as it did,
    and nothing in its blocks is available to [b] that was not, so that its objects stay
    safe from its own later allocations too. *)
Theorem arenas_independent `{cfg : Cfg} {ga : GlobalAlloc} `{!GlobalAllocOk ga} bt outside calls a b w s :
  feat_lockfree = false → feat_debug = false →
  Arena_inv (mkAW a w) → Owns outside (iw (mkAW a w)) →
  Arena_ok (mkAW b w) → Inner_blocks (a_inner b) ⊆+ outside → in_lockfree_buffer (a_inner b) = None →
  Forall call_ok calls → run_calls bt calls (mkAW a w) = (Ok tt, s) →
  let own := Inner_blocks (a_inner b) in let b0 := iw (mkAW b w) in let b1 := iw (mkAW b (a_world s)) in
  Arena_ok (mkAW b (a_world s)) ∧
  (∀ op blk, blk ∈ own → mkRange op.2 (Z.of_nat (length (o_value op.1))) ⊆ block_range blk →
     obj_stored (w_mem w) op → obj_stored (w_mem (a_world s)) op) ∧
  (∀ x, in_blocks own x → Inner_avail b1 x → Inner_avail b0 x).
Proof.
  intros Hlf Hdb Hi Ho Hb Hsub Hnone Hcs E own b0 b1.
  assert (generation_wraps) as Hg by (intros ?; congruence).
  destruct (run_calls_confined bt outside Hg Hdb calls _ tt s Hi Hcs (Owns_Held _ _ Ho) E) as [[Hok' _] [Hh' Hbytes]].
  assert (own ⊆+ heap (w_mem (a_world s))) as Hsub'.
  { etrans; [exact Hsub|]. unfold Held, s_mem in Hh'. simpl in Hh'. rewrite Hh'. by apply submseteq_inserts_l. }
  assert (∀ x, in_blocks own x → bytes (w_mem (a_world s)) !! x = bytes (w_mem w) !! x) as Hown.
  { intros x Hx. apply Hbytes. unfold in_blocks in *. rewrite Exists_exists in Hx |- *. destruct Hx as (blk & Hin & Hx).
    exists blk. split; [|done]. by eapply elem_of_submseteq. }
  splits.
  - destruct Hok' as (Hm & _ & _ & _ & _ & Htc). by apply (other_world_ok b w).
  - intros op blk Hblk Hr [Hld Hal]. split; [|done]. unfold mem_load in *. case_decide as Hv; [|done].
    rewrite decide_True by (apply (mem_valid_block _ _ blk); [by eapply elem_of_submseteq|done]).
    rewrite (read_bytes_ext (bytes (w_mem (a_world s))) (bytes (w_mem w))); [by destruct (mapM _ _); simplify_eq|].
    intros x Hx. apply Hown. unfold in_blocks. rewrite Exists_exists. exists blk. split; [done|]. rewrite range_subseteq_spec in Hr. apply Hr. range_solve.
  - intros x Hx [Hc|[(lb & Hlb & _)|Hnl]]; [by left|simpl in Hlb; congruence|]. exfalso.
    unfold in_blocks in Hx. rewrite Exists_exists in Hx. destruct Hx as (blk & Hin & Hx).
    eapply in_block_live; [|exact Hx|exact Hnl]. by eapply elem_of_submseteq.
Qed.

Lemma arenas_independent_witness :
  let calls := [CAlloc (mkLayout 24 8) (replicate 24 1); CPush; CAlloc (mkLayout 200 8) (replicate 200 2); CPop; CResetAndShrink] in
  let o := mkObj (mkLayout 8 8) (replicate 8 9) in
  ∃ s1 a w s, @Arena_run cfg_dev bump_alloc "bt" [o] demo_state = (Ok [65600], s1) ∧
    @Arena_try_with_capacity cfg_dev bump_alloc 200 100 (a_world s1) = (Ok (ROk a), w) ∧
    @run_calls cfg_dev bump_alloc "bt" calls (mkAW a w) = (Ok tt, s) ∧
    Arena_ok (mkAW (a_arena s1) (a_world s)) ∧ obj_stored (w_mem (a_world s)) (o, 65600).
Proof.
  intros calls o. destruct (@Arena_run cfg_dev bump_alloc "bt" [o] demo_state) as [r1 s1] eqn:E1.
  assert (r1 = Ok [65600]) as -> by (change r1 with ((r1, s1).1); rewrite <- E1; vm_compute; reflexivity).
  assert (s1 = (@Arena_run cfg_dev bump_alloc "bt" [o] demo_state).2) as Hs1 by (by rewrite E1).
  destruct (@run_step cfg_dev bump_alloc bump_alloc_ok "bt" [o] demo_state demo_ok) as (r & s0 & E0 & Hr); [repeat constructor; vm_compute; intuition discriminate|].
  rewrite E1 in E0. injection E0 as <- <-. assert (Arena_ok s1) as Hok1 by exact (step_wf _ _ (proj1 (proj2 Hr))).
  destruct (@Arena_try_with_capacity cfg_dev bump_alloc 200 100 (a_world s1)) as [r2 w] eqn:E2.
  assert (∃ a, r2 = Ok (ROk a)) as [a ->] by (change r2 with ((r2, w).1); rewrite <- E2, Hs1; vm_compute; by eexists).
  assert (World_ok 200 (a_world s1)) as Hw by (split; [exact (proj1 Hok1)|]; rewrite Hs1; split; [vm_compute; reflexivity|vm_compute; discriminate]).
  destruct (@Arena_try_with_capacity_ok cfg_dev bump_alloc bump_alloc_ok 200 100 (a_world s1) a w Hw ltac:(ulia) E2) as (Ha & _ & _ & [new Hnew] & _).
  pose proof (@Arena_new_owns cfg_dev bump_alloc bump_alloc_ok 200 100 (a_world s1) a w eq_refl ltac:(ulia) E2) as [Ho _].
  assert (in_lockfree_buffer (a_inner (a_arena s1)) = None) as Hn by (rewrite Hs1; vm_compute; reflexivity).
  assert (Inner_blocks (a_inner (a_arena s1)) ⊆+ heap (w_mem (a_world s1))) as Hsub by exact (proj1 (proj2 Hok1)).
  destruct (@run_calls cfg_dev bump_alloc "bt" calls (mkAW a w)) as [r3 s] eqn:E3.
  assert (w = (@Arena_try_with_capacity cfg_dev bump_alloc 200 100 (a_world s1)).2) as Hw' by (by rewrite E2).
  assert (Ok (ROk a) = (@Arena_try_with_capacity cfg_dev bump_alloc 200 100 (a_world s1)).1) as Ha' by (by rewrite E2).
  rewrite Hs1 in Ha'. vm_compute in Ha'. injection Ha' as Ha'.
  assert (r3 = Ok tt) as -> by (change r3 with ((r3, s).1); rewrite <- E3, Hw', Hs1, Ha'; vm_compute; reflexivity).
  exists s1, a, w, s. splits; [reflexivity|exact E2|exact E3| |].
  all: destruct (@arenas_independent cfg_dev bump_alloc bump_alloc_ok "bt" (heap (w_mem (a_world s1))) calls a (a_arena s1) w s) as (H1 & H2 & _);
    [reflexivity|reflexivity|split; [exact Ha|cbn [a_arena]; by rewrite (@Arena_new_stack cfg_dev bump_alloc 200 100 (a_world s1) a w E2)]|exact Ho
    |apply (other_world_ok (a_arena s1) (a_world s1)); [by destruct s1|exact Hn|exact (proj1 Ha)|exact (proj2 (proj2 (proj2 (proj2 (proj2 Ha)))))|rewrite Hnew; by apply submseteq_inserts_l]
    |exact Hsub|exact Hn|repeat constructor; vm_compute; intuition discriminate|exact E3|].
  - exact H1.
  - apply (H2 (o, 65600) (Chunk_block demo_chunk)).
    + rewrite Hs1. vm_compute. by left.
    + rewrite range_subseteq_spec. intros x. unfold block_range. simpl. range_solve.
    + rewrite Hw', Hs1. split; vm_compute; reflexivity.
Defined.
