(* ===== verification/ArenaVirtual.v ===== *)
(** * ArenaVirtual: what becomes of an arena's virtual-memory region

    [Arena::with_virtual_memory] reserves a region beside the first chunk.  No other
    operation of the arena commits a page of it, allocates in it, decommits it or makes
    a system call at all: a second application of the frame rule [Keeps], with any
    combination of features.  The region is reserved, reported as having no committed
    byte, and unmapped when the arena is dropped. *)
From S2P Require Import Prelude Keeps Memory Bump Chunk Slab ThreadLocal LockFree VirtualMemory Debug Inner InnerInv Objects Arena ArenaSafety ArenaCalls.
Local Open Scope Z_scope.

Section frame.
Context `{cfg : Cfg} `{ga : GlobalAlloc} (bt : string) (region : option VirtualMemoryRegion) (tr : list Syscall).

Definition trace_is (w : World) : Prop := w_trace w = tr.
Definition region_iw (s : IW) : Prop := in_virtual_region (i_inner s) = region ∧ trace_is (i_world s).
Definition region_aw (s : AW) : Prop := in_virtual_region (a_inner (a_arena s)) = region ∧ trace_is (a_world s).

(** *** The process *)
#[local] Instance trace_mem {A} (m : M Mem A) : Keeps trace_is (w_on_mem m).
Proof. by apply Keeps_zoom_other. Qed.
#[local] Instance trace_cache {A} (m : M ThreadCache A) : Keeps trace_is (w_on_cache m).
Proof. by apply Keeps_zoom_other. Qed.
#[local] Instance trace_debug {A} (m : M DW A) : Keeps trace_is (w_on_debug m).
Proof. by apply Keeps_zoom_other. Qed.
#[local] Instance trace_inner_new self cap : Keeps trace_is (ArenaInner_new self cap).
Proof. unfold ArenaInner_new. apply _. Qed.
#[local] Instance trace_from_inner i : Keeps trace_is (Arena_from_inner i).
Proof. unfold Arena_from_inner. apply _. Qed.
#[export] Instance trace_try_with_capacity self cap : Keeps trace_is (Arena_try_with_capacity self cap).
Proof. unfold Arena_try_with_capacity. apply _. Qed.
#[export] Instance trace_with_capacity self cap : Keeps trace_is (Arena_with_capacity self cap).
Proof. unfold Arena_with_capacity. apply _. Qed.

(** *** core.rs *)
#[local] Hint Extern 1 (Keeps region_iw (on_inner _)) =>
  (apply Keeps_modify; intros [[[|??]] ?] ?; assumption) : typeclass_instances.
#[local] Instance region_in_world {A} (m : M World A) : Keeps trace_is m → Keeps region_iw (in_world m).
Proof. apply Keeps_zoom; [by intros s []|by intros t s []]. Qed.
#[local] Instance region_stats f : Keeps region_iw (stats_update f).
Proof. unfold stats_update. apply _. Qed.
#[local] Instance region_lockfree {A} b (m : M LF A) : Keeps region_iw (with_lockfree b m).
Proof. intros s Hs. unfold with_lockfree. by destruct (m _) as [o x]. Qed.
#[local] Instance region_allocate l : Keeps region_iw (ArenaInner_allocate l).
Proof. unfold ArenaInner_allocate. apply _. Qed.
#[local] Instance region_add_chunk c : Keeps region_iw (ArenaInner_add_chunk c).
Proof. unfold ArenaInner_add_chunk. apply _. Qed.
#[local] Instance region_reset_caches : Keeps region_iw reset_caches.
Proof. unfold reset_caches. apply _. Qed.
#[local] Instance region_checkpoint : Keeps region_iw ArenaInner_checkpoint.
Proof. unfold ArenaInner_checkpoint. apply _. Qed.
#[local] Instance region_rewind cp : Keeps region_iw (ArenaInner_rewind_to_checkpoint cp).
Proof. unfold ArenaInner_rewind_to_checkpoint. apply _. Qed.

(** *** arena.rs *)
#[local] Instance region_with_inner {A} (m : M IW A) : Keeps region_iw m → Keeps region_aw (with_inner m).
Proof. by apply Keeps_zoom. Qed.
#[local] Instance region_a_world {A} (m : M World A) : Keeps trace_is m → Keeps region_aw (a_on_world m).
Proof. apply Keeps_zoom; [by intros s []|by intros t s []]. Qed.
#[local] Instance region_a_mem {A} (m : M Mem A) : Keeps region_aw (a_on_mem m).
Proof. unfold a_on_mem. apply _. Qed.
#[local] Instance region_lf_stats f : Keeps region_aw (on_lockfree_stats f).
Proof. by apply Keeps_modify. Qed.
#[local] Instance region_raw l : Keeps region_aw (Arena_allocate_raw bt l).
Proof. unfold Arena_allocate_raw, alloc_lockfree, alloc_thread_local, alloc_regular, alloc_new_chunk, guard_wrap. apply _. Qed.
#[local] Instance region_call c : Keeps region_aw (run_call bt c).
Proof.
  destruct c; simpl; unfold Arena_alloc, Arena_alloc_slice_copy, Arena_alloc_slice_uninit, Arena_checkpoint, Arena_rewind_to_checkpoint,
    Arena_push_checkpoint, ArenaInner_push_checkpoint, Arena_pop_and_rewind, Arena_clear_checkpoints, Arena_reset, Arena_reset_and_shrink_to_fit; apply _.
Qed.
Lemma after_calls_region calls s : region_aw s → region_aw (after_calls bt calls s).
Proof. revert s. induction calls as [|c calls IH]; intros s Hs; [done|]. apply IH. by apply region_call. Qed.
End frame.

(** A creation that was seen to end made at most one call, the reservation. *)
Lemma with_virtual_memory_region `{cfg : Cfg} `{ga : GlobalAlloc} {os : OS} `{!OSOk os} self n w a w' :
  0 ≤ n < USIZE_MOD → Arena_with_virtual_memory self n w = (Ok a, w') →
  match in_virtual_region (a_inner a) with
  | Some r => 0 < vr_ptr r ∧ vr_committed_size r = 0 ∧ Z.min n MAX_RESERVE_SIZE ≤ vr_reserved_size r ∧
      w_trace w' = SMmap (vr_ptr r) (vr_reserved_size r) :: w_trace w
  | None => w_trace w' = w_trace w
  end.
Proof.
  intros Hn (m & w0 & E0 & E)%M_bind_Ok. assert (w0 = w ∧ 0 < m < USIZE_MOD ∧ n ≤ m) as (-> & Hm & Hle).
  { destruct (Z.eqb_spec n 0); [|injection E0 as <- <-; splits; [done|lia..]]. unfold usize_mul in E0. vm_compute in E0. injection E0 as <- <-. splits; [done|ulia..]. }
  apply M_bind_Ok in E as (a0 & w1 & E1 & E). pose proof (trace_with_capacity (w_trace w) self (Z.min m 65536) w eq_refl) as Ht. rewrite E1 in Ht. cbn in Ht.
  apply M_bind_Ok in E as (r & w2 & E2 & [= <- <-]). unfold w_on_trace, zoom in E2. rewrite VirtualMemoryRegion_new_eq in E2 by lia.
  destruct (reserve_bounds m ltac:(lia)) as [Hz1 Hz2]. unfold trace_is in Ht. rewrite Ht in E2.
  destruct (os_mmap _ _) as [p|] eqn:Hp; injection E2 as <- <-; simpl; [|done].
  apply os_mmap_ok in Hp as (? & _); [|unfold PAGE_SIZE in *; lia]. splits; [done|done|lia|done].
Qed.

(** C31: the region behind [Arena::with_virtual_memory] is never used.  Whatever is then
    done with the arena, whatever the features and the outcomes: the region is the one
    reserved, [virtual_memory_committed_bytes] still reports 0, the creation's [mmap]
    is the only system call made, so that not one byte more than before is accessible,
    and dropping the arena adds the one [munmap] of it.  Everything the arena hands
    out comes from the global allocator. *)
Theorem virtual_memory_unused `{cfg : Cfg} `{ga : GlobalAlloc} {os : OS} `{!OSOk os} self bt n w a w' calls :
  0 ≤ n < USIZE_MOD → Arena_with_virtual_memory self n w = (Ok a, w') →
  let s := after_calls bt calls (mkAW a w') in
  let r := in_virtual_region (a_inner a) in
  in_virtual_region (a_inner (a_arena s)) = r ∧
  Arena_virtual_memory_committed_bytes (a_arena s) = (λ _, 0) <$> r ∧
  w_trace (a_world s) = match r with Some r => [SMmap (vr_ptr r) (vr_reserved_size r)] | None => [] end ++ w_trace w ∧
  (∀ x, accessible (w_trace (a_world s)) x = true → accessible (w_trace w) x = true) ∧
  ∀ w'', Arena_drop (a_arena s) (a_world s) = (Ok tt, w'') →
    w_trace w'' = match r with Some r => [SMunmap (vr_ptr r) (vr_reserved_size r)] | None => [] end ++ w_trace (a_world s).
Proof.
  intros Hn E s r. pose proof (with_virtual_memory_region self n w a w' Hn E) as Hr.
  destruct (after_calls_region bt r (w_trace w') calls (mkAW a w') (conj eq_refl eq_refl)) as [Hs Ht]. fold s in Hs, Ht. unfold trace_is in Ht.
  fold r in Hr. splits; [done| | | |].
  - unfold Arena_virtual_memory_committed_bytes, VirtualMemoryRegion_committed_bytes. rewrite Hs. destruct r as [v|]; simpl; [|done]. by destruct Hr as (_ & -> & _).
  - rewrite Ht. destruct r as [v|]; [by destruct Hr as (_ & _ & _ & ->)|done].
  - intros x. rewrite Ht. destruct r as [v|]; [destruct Hr as (_ & _ & _ & ->)|by rewrite Hr]. simpl. by destruct (decide _).
  - intros w'' Ed. apply M_bind_Ok in Ed as ([] & w1 & E1 & Ed). apply M_bind_Ok in E1 as ([] & w2 & E2 & E1). apply M_bind_Ok in E1 as ([] & w3 & E3 & E1).
    pose proof (trace_mem (w_trace (a_world s)) (drop_chunks (in_chunks (a_inner (a_arena s)))) (a_world s) eq_refl) as H2. rewrite E2 in H2.
    assert (w_trace w'' = w_trace w3) as ->.
    { assert (w_trace w1 = w_trace w3) as H1.
      { destruct (in_lockfree_buffer _); [|by injection E1 as <-]. pose proof (trace_mem _ (LockFreeBuffer_drop l) w3 eq_refl) as H3. by rewrite E1 in H3. }
      rewrite <- H1. destruct feat_debug; [|by injection Ed as <-].
      pose proof (trace_debug _ (DebugAllocator_drop (a_debug_allocator (a_arena s))) w1 eq_refl) as H3. by rewrite Ed in H3. }
    rewrite Hs in E3. destruct r as [v|]; [|by injection E3 as <-]. destruct Hr as (Hp & _). unfold w_on_trace, zoom, VirtualMemoryRegion_drop in E3.
    destruct (Z.eqb_spec (vr_ptr v) 0); [lia|]. injection E3 as <-. simpl. by rewrite <- H2.
Qed.

(** A kernel that maps above the heap. *)
Definition high_os : OS := mkOS (λ _ size, if size <=? MAX_RESERVE_SIZE then Some 1099511627776 else None) (λ _ _ _ _, true).
#[global] Instance high_os_ok : OSOk high_os.
Proof.
  constructor. simpl. intros tr size p Hs. destruct (Z.leb_spec size MAX_RESERVE_SIZE); [|done].
  intros [= <-]. split; [done|]. split; [reflexivity|]. unfold MAX_RESERVE_SIZE in *. ulia.
Qed.

Lemma virtual_memory_unused_witness :
  let calls := [CAlloc (mkLayout 24 8) (replicate 24 1); CPush; CSliceUninit (mkLayout 8 8) 10000; CPop; CReset] in
  ∃ a w, @Arena_with_virtual_memory cfg_dev bump_alloc high_os 100 16777216 demo_world = (Ok a, w) ∧
    let s := @after_calls cfg_dev bump_alloc "bt" calls (mkAW a w) in
    length (in_chunks (a_inner (a_arena s))) = 2%nat ∧
    Arena_virtual_memory_committed_bytes (a_arena s) = Some 0 ∧ w_trace (a_world s) = [SMmap 1099511627776 16777216].
Proof.
  intros calls. destruct (@Arena_with_virtual_memory cfg_dev bump_alloc high_os 100 16777216 demo_world) as [o w] eqn:E.
  assert (∃ a, o = Ok a ∧ in_virtual_region (a_inner a) = Some (mkRegion 1099511627776 16777216 0) ∧
    length (in_chunks (a_inner (a_arena (@after_calls cfg_dev bump_alloc "bt" calls (mkAW a w))))) = 2%nat) as (a & -> & Hr & Hl).
  { assert (o = (@Arena_with_virtual_memory cfg_dev bump_alloc high_os 100 16777216 demo_world).1 ∧
      w = (@Arena_with_virtual_memory cfg_dev bump_alloc high_os 100 16777216 demo_world).2) as [-> ->] by (by rewrite E).
    eexists. split; [vm_compute; reflexivity|]. split; [reflexivity|]. vm_compute. reflexivity. }
  exists a, w. split; [reflexivity|].
  destruct (@virtual_memory_unused cfg_dev bump_alloc high_os high_os_ok 100 "bt" 16777216 demo_world a w calls) as (_ & H1 & H2 & _); [ulia|exact E|].
  rewrite Hr in H1, H2. intros s. splits; [exact Hl|exact H1|exact H2].
Defined.
