(* ===== verification/ArenaStats.v ===== *)
(** * ArenaStats: the statistics count what happened

    With the [stats] feature, the counters of [ArenaInner] follow the allocations of
    every path of [allocate_raw]. *)
From S2P Require Import Prelude Keeps Memory Bump Chunk Slab ThreadLocal LockFree VirtualMemory Debug Inner InnerInv Objects Arena ArenaSafety ArenaCheckpoint ArenaCalls.
Local Open Scope Z_scope.

(** Counters are [usize] values that wrap. *)
Definition same_usize (x y : Z) : Prop := usize_wrap x = usize_wrap y.

(** Between [i] and [i'], [n] allocations of [size] bytes in all were counted. *)
Record Counted (n size : Z) (i i' : ArenaInner) : Prop := mkCounted {
  cn_count : same_usize (st_allocation_count (in_stats i')) (st_allocation_count (in_stats i) + n);
  cn_used : same_usize (st_bytes_used (in_stats i')) (st_bytes_used (in_stats i) + size);
  cn_chunks : st_chunk_count (in_stats i) = Z.of_nat (length (in_chunks i)) →
              st_chunk_count (in_stats i') = Z.of_nat (length (in_chunks i'))
}.

Lemma same_usize_add x y z : same_usize x y → same_usize (x + z) (y + z).
Proof.
  unfold same_usize, usize_wrap. intros H. rewrite <- (Z.add_mod_idemp_l x), H, Z.add_mod_idemp_l; done.
Qed.
Lemma fetch_add_same x n : same_usize (fetch_add x n) (x + n).
Proof. unfold same_usize, fetch_add, usize_wrap. by apply Z.mod_mod. Qed.

Lemma Counted_refl i : Counted 0 0 i i.
Proof. split; [by rewrite Z.add_0_r..|done]. Qed.
Lemma Counted_same i i' : in_stats i' = in_stats i → length (in_chunks i') = length (in_chunks i) → Counted 0 0 i i'.
Proof. intros Hs Hl. split; rewrite ?Hs, ?Hl, ?Z.add_0_r; done. Qed.
Lemma Counted_trans n1 z1 n2 z2 i1 i2 i3 : Counted n1 z1 i1 i2 → Counted n2 z2 i2 i3 → Counted (n1 + n2) (z1 + z2) i1 i3.
Proof.
  intros [Hc1 Hu1 Hl1] [Hc2 Hu2 Hl2]. split; [| |by auto]; unfold same_usize in *; rewrite ?Hc2, ?Hu2, Z.add_assoc; by apply same_usize_add.
Qed.

(** Does the thread cache serve the request? *)
Definition cache_hit `{Cfg} `{GlobalAlloc} (bt : string) (l : Layout) (s : AW) : bool :=
  negb (l_size l =? 0) &&
  match alloc_lockfree bt (l_size l) (l_align l) s with
  | (Ok None, s1) => match (alloc_thread_local bt (l_size l) (l_align l) s1).1 with Ok (Some _) => true | _ => false end
  | _ => false
  end.
Definition raw_bytes `{Cfg} `{GlobalAlloc} (bt : string) (l : Layout) (s : AW) : Z := if cache_hit bt l s then 0 else l_size l.
(** The bytes of the values that the thread cache does not serve. *)
Fixpoint counted_bytes `{Cfg} `{GlobalAlloc} (bt : string) (objs : list Obj) (s : AW) : Z :=
  match objs with
  | [] => 0
  | o :: objs => raw_bytes bt (o_layout o) s + counted_bytes bt objs (Arena_obj bt o s).2
  end.
Definition total_size (objs : list Obj) : Z := foldr (λ o n, l_size (o_layout o) + n) 0 objs.

Section stats.
Context `{cfg : Cfg} {ga : GlobalAlloc} `{!GlobalAllocOk ga} (bt : string).
Hypothesis (Hst : feat_stats = true).

Lemma allocate_counted l s r s' :
  ArenaInner_allocate l s = (Ok r, s') →
  Counted (match r with Some _ => 1 | None => 0 end) (match r with Some _ => l_size l | None => 0 end) (i_inner s) (i_inner s').
Proof.
  unfold ArenaInner_allocate, on_inner. mrun. destruct (in_chunks (i_inner s) !! _) as [c|]; [|by intros [= <- <-]; apply Counted_refl].
  destruct (Chunk_allocate l c) as [[[p|] c']|e|e|e]; mrun; [| |done..].
  - unfold stats_update. rewrite Hst. unfold on_inner. mrun. intros [= <- <-]. split; simpl; [apply fetch_add_same..|by rewrite length_insert].
  - intros [= <- <-]. apply Counted_same; simpl; [done|by rewrite length_insert].
Qed.

Lemma add_chunk_counted cap s idx s' :
  ArenaInner_add_chunk cap s = (Ok (ROk idx), s') → Counted 0 0 (i_inner s) (i_inner s').
Proof.
  unfold ArenaInner_add_chunk, in_world, w_on_mem, on_inner, stats_update. rewrite Hst. mrun.
  destruct (Chunk_new cap _) as [[[c|e]|e|e|e] m]; try done; simpl. unfold on_inner. mrun. intros [= <- <-].
  split; simpl; [by rewrite Z.add_0_r..|]. intros _. unfold vec_push. rewrite length_app. simpl. lia.
Qed.

(** What leaves the arena alone. *)
Definition inner_is (i : ArenaInner) (s : AW) : Prop := a_inner (a_arena s) = i.
#[local] Instance keeps_a_world {A} i (m : M World A) : Keeps (inner_is i) (a_on_world m).
Proof. by apply Keeps_zoom_other. Qed.
#[local] Instance keeps_a_mem {A} i (m : M Mem A) : Keeps (inner_is i) (a_on_mem m).
Proof. unfold a_on_mem. apply _. Qed.
#[local] Instance keeps_lf_stats i f : Keeps (inner_is i) (on_lockfree_stats f).
Proof. by apply Keeps_modify. Qed.
#[local] Instance keeps_guard i p size : Keeps (inner_is i) (guard_wrap bt p size).
Proof. unfold guard_wrap. apply _. Qed.

(** [m] counts [n] allocations of [size] bytes whenever it returns. *)
Definition Counts {A} (n size : Z) (m : M AW A) : Prop :=
  ∀ s x s', m s = (Ok x, s') → Counted n size (a_inner (a_arena s)) (a_inner (a_arena s')).

Lemma Counts_kept {A} (m : M AW A) : (∀ i, Keeps (inner_is i) m) → Counts 0 0 m.
Proof.
  intros Hm s x s' E. specialize (Hm _ s eq_refl). rewrite E in Hm. unfold inner_is in Hm. simpl in Hm. rewrite Hm. apply Counted_refl.
Qed.
Lemma Counts_bind {A B} n1 z1 n2 z2 (m : M AW A) (k : A → M AW B) :
  Counts n1 z1 m → (∀ x, Counts n2 z2 (k x)) → Counts (n1 + n2) (z1 + z2) (m ≫= k).
Proof.
  intros Hm Hk s y s' (x & s1 & E1 & E2)%M_bind_Ok. eapply Counted_trans; [exact (Hm _ _ _ E1)|exact (Hk x _ _ _ E2)].
Qed.
(** ... where [m] counts nothing. *)
Lemma Counts_after {A B} n z (m : M AW A) (k : A → M AW B) :
  Counts 0 0 m → (∀ x, Counts n z (k x)) → Counts n z (m ≫= k).
Proof. exact (Counts_bind 0 0 n z m k). Qed.
Lemma Counts_then {A B} n z (m : M AW A) (k : A → M AW B) :
  Counts n z m → (∀ x, Counts 0 0 (k x)) → Counts n z (m ≫= k).
Proof. intros Hm Hk. rewrite <- (Z.add_0_r n), <- (Z.add_0_r z). by apply Counts_bind. Qed.

Lemma with_stats_counts {A} size (x : A) :
  Counts 1 size (_ ← with_inner (stats_update (stats_used size)); _ ← with_inner (stats_update (stats_count 1)); mret x).
Proof.
  intros s y s'. unfold stats_update. rewrite Hst. unfold with_inner, on_inner. mrun. intros [= _ <-].
  split; simpl; [apply fetch_add_same..|done].
Qed.

(** ** The paths *)
Lemma alloc_lockfree_counted size align s r s' :
  alloc_lockfree bt size align s = (Ok r, s') →
  Counted (match r with Some _ => 1 | None => 0 end) (match r with Some _ => size | None => 0 end)
    (a_inner (a_arena s)) (a_inner (a_arena s')).
Proof.
  unfold alloc_lockfree. destruct feat_lockfree; [|intros [= <- <-]; apply Counted_refl].
  destruct (size <=? 1024); [|intros [= <- <-]; apply Counted_refl].
  intros (s0 & s1 & [= <- <-] & E)%M_bind_Ok. destruct (in_lockfree_buffer _) as [b|]; [|injection E as <- <-; apply Counted_refl].
  apply M_bind_Ok in E as (o & s2 & E2 & E). apply with_inner_inv in E2. unfold with_lockfree in E2.
  destruct (LockFreeBuffer_try_alloc _ _ _ _) as [x y]. injection E2 as -> Hi _.
  assert (Counted 0 0 (a_inner (a_arena s)) (a_inner (a_arena s2))) as Hc2 by (apply Counted_same; by rewrite <- Hi).
  destruct o as [p|].
  - assert (∃ q, r = Some q) as [q ->].
    { apply M_bind_Ok in E as (? & ? & _ & E). apply M_bind_Ok in E as (? & ? & _ & E). apply M_bind_Ok in E as (q & ? & _ & E).
      apply M_bind_Ok in E as (? & ? & _ & E). apply M_bind_Ok in E as (? & ? & _ & [= <- _]). by exists q. }
    eapply (Counted_trans 0 0 1 size); [exact Hc2|]. revert E. generalize s2, (Some q), s'. fold (Counts (A := option Z) 1 size).
    change (Counts 1 size (_ ← on_lockfree_stats record_allocation; _ ← on_lockfree_stats record_cache_hit; guarded ← guard_wrap bt p size;
      _ ← with_inner (stats_update (stats_used size)); _ ← with_inner (stats_update (stats_count 1)); mret (Some guarded))).
    repeat (apply Counts_after; [apply Counts_kept; apply _|intros ?]). apply with_stats_counts.
  - apply M_bind_Ok in E as (? & s3 & [= _ <-] & E). apply M_bind_Ok in E as (? & s4 & [= _ <-] & [= <- <-]). exact Hc2.
Qed.

Lemma alloc_new_chunk_counts l : Counts 1 (l_size l) (alloc_new_chunk bt l).
Proof.
  intros s p s' (cap & s1 & [= _ <-] & E)%M_bind_Ok. apply M_bind_Ok in E as ([idx|e] & s2 & E2 & E); [|done].
  apply with_inner_inv, add_chunk_counted in E2 as Hc2. apply M_bind_Ok in E as ([q|] & s3 & E3 & E); [|done].
  apply with_inner_inv, allocate_counted in E3 as Hc3. simpl in Hc2, Hc3.
  eapply (Counted_trans 0 0 1 (l_size l)); [exact Hc2|]. rewrite <- (Z.add_0_r 1), <- (Z.add_0_r (l_size l)).
  eapply Counted_trans; [exact Hc3|]. exact (Counts_kept _ (λ i, keeps_guard i q (l_size l)) s3 p s' E).
Qed.

Lemma alloc_regular_counts l : Counts 1 (l_size l) (alloc_regular bt l).
Proof.
  intros s p s' (r & s1 & E1 & E)%M_bind_Ok. apply with_inner_inv, allocate_counted in E1 as Hc1. simpl in Hc1. destruct r as [q|].
  - rewrite <- (Z.add_0_r 1), <- (Z.add_0_r (l_size l)). eapply Counted_trans; [exact Hc1|].
    revert E. apply (Counts_kept (A := Z)). intros i. apply _.
  - eapply (Counted_trans 0 0 1 (l_size l)); [exact Hc1|]. exact (alloc_new_chunk_counts l s1 p s' E).
Qed.

(** A hit in the thread cache counts the allocation, not its bytes. *)
Lemma alloc_thread_local_counted size align s r s' :
  alloc_thread_local bt size align s = (Ok r, s') →
  Counted (match r with Some _ => 1 | None => 0 end) 0 (a_inner (a_arena s)) (a_inner (a_arena s')).
Proof.
  unfold alloc_thread_local. destruct feat_thread_local; [|intros [= <- <-]; apply Counted_refl].
  destruct (size <=? 512); [|intros [= <- <-]; apply Counted_refl]. intros (s0 & s1 & [= <- <-] & E)%M_bind_Ok.
  apply M_bind_Ok in E as (o & s2 & E2 & E). pose proof (Counts_kept _ (λ i, keeps_a_world i _) s o s2 E2) as H2.
  destruct o as [q|]; [|by injection E as <- <-]. apply M_bind_Ok in E as (g & s3 & E3 & E).
  pose proof (Counts_kept _ (λ i, keeps_guard i q size) s2 g s3 E3) as H3. apply M_bind_Ok in E as (u & s4 & E4 & [= <- <-]).
  apply with_inner_inv in E4. unfold stats_update in E4. rewrite Hst in E4. injection E4 as _ Hi _. simpl in Hi.
  eapply (Counted_trans 0 0 1 0); [exact H2|]. eapply (Counted_trans 0 0 1 0); [exact H3|]. rewrite <- Hi.
  split; simpl; [apply fetch_add_same|by rewrite Z.add_0_r|done].
Qed.

(** The bytes one allocation counts. *)
Lemma allocate_raw_counted l s p s' :
  Arena_allocate_raw bt l s = (Ok p, s') → Counted 1 (raw_bytes bt l s) (a_inner (a_arena s)) (a_inner (a_arena s')).
Proof.
  unfold Arena_allocate_raw, raw_bytes, cache_hit. destruct (Z.eqb_spec (l_size l) 0) as [Hz|_].
  { intros (x & s1 & E & [= _ <-])%M_bind_Ok. apply with_inner_inv in E. unfold stats_update in E. rewrite Hst in E.
    injection E as _ Hi _. rewrite Hz. simpl in Hi. rewrite <- Hi. split; simpl; [apply fetch_add_same|by rewrite Z.add_0_r|done]. }
  intros (r & s1 & E1 & E)%M_bind_Ok. rewrite E1. apply alloc_lockfree_counted in E1 as Hc1.
  destruct r as [q|]; [by injection E as _ <-|]. apply M_bind_Ok in E as (r & s2 & E2 & E). rewrite E2.
  apply alloc_thread_local_counted in E2 as Hc2. simpl.
  destruct r as [q|]; simpl.
  - injection E as _ <-. exact (Counted_trans 0 0 1 0 _ _ _ Hc1 Hc2).
  - eapply (Counted_trans 0 0 1 (l_size l)); [exact Hc1|]. eapply (Counted_trans 0 0 1 (l_size l)); [exact Hc2|].
    exact (alloc_regular_counts l s2 p s' E).
Qed.

Lemma alloc_counts_any o s p s' :
  Arena_obj bt o s = (Ok p, s') → Counted 1 (raw_bytes bt (o_layout o) s) (a_inner (a_arena s)) (a_inner (a_arena s')).
Proof.
  intros (q & s1 & E1 & E)%M_bind_Ok. rewrite <- (Z.add_0_r 1), <- (Z.add_0_r (raw_bytes _ _ _)).
  eapply Counted_trans; [exact (allocate_raw_counted _ s q s1 E1)|]. revert E. apply (Counts_kept (A := Z)). intros i. apply _.
Qed.

(** With an empty thread cache every byte is counted. *)
Lemma raw_bytes_empty l s : Arena_ok s → Layout_ok l → raw_bytes bt l s = l_size l.
Proof.
  intros Hok Hl. unfold raw_bytes, cache_hit. destruct (alloc_lockfree_step bt l s Hok Hl) as (r & s1 & -> & [Hs1 _]).
  destruct r; [by rewrite andb_false_r|]. destruct (alloc_thread_local_step bt l s1 (step_wf _ _ Hs1) Hl) as (s2 & -> & _). by rewrite andb_false_r.
Qed.
Lemma alloc_counts o s p s' :
  Arena_ok s → Obj_ok o → Arena_obj bt o s = (Ok p, s') → Counted 1 (l_size (o_layout o)) (a_inner (a_arena s)) (a_inner (a_arena s')).
Proof. intros Hok (Hl & _) E. rewrite <- (raw_bytes_empty _ s Hok Hl). by apply alloc_counts_any in E. Qed.
End stats.

(** C19: with the [stats] feature the statistics are exact on every path an allocation
    can take, for every combination of the other features, in any state of arena, thread
    cache and memory: after any sequence of allocations that returns, [allocation_count]
    has grown by their number and [bytes_used] by the sizes of the values that the
    thread cache did not serve (a hit in the cache does not count its bytes), both as
    [usize] counters that wrap; [chunk_count] is still the number of chunks.  While the
    thread cache is empty, as it is for every arena of this crate ([Arena_ok]), those are
    all the bytes requested. *)
Theorem arena_stats_exact `{cfg : Cfg} {ga : GlobalAlloc} `{!GlobalAllocOk ga} bt objs s ps s' :
  feat_stats = true → Arena_run bt objs s = (Ok ps, s') →
  let st := Arena_stats (a_arena s) in let st' := Arena_stats (a_arena s') in
  usize_wrap (st_allocation_count st') = usize_wrap (st_allocation_count st + Z.of_nat (length objs)) ∧
  usize_wrap (st_bytes_used st') = usize_wrap (st_bytes_used st + counted_bytes bt objs s) ∧
  (st_chunk_count st = Z.of_nat (length (Arena_chunk_usage (a_arena s))) →
   st_chunk_count st' = Z.of_nat (length (Arena_chunk_usage (a_arena s')))) ∧
  (Arena_ok s → Forall Obj_ok objs → counted_bytes bt objs s = total_size objs).
Proof.
  intros Hst E. cbv zeta. unfold Arena_stats, Arena_chunk_usage. rewrite Hst, !length_fmap.
  assert (Counted (Z.of_nat (length objs)) (counted_bytes bt objs s) (a_inner (a_arena s)) (a_inner (a_arena s')) ∧
    (Arena_ok s → Forall Obj_ok objs → counted_bytes bt objs s = total_size objs)) as [[H1 H2 H3] H4]; [|done].
  revert s ps E. induction objs as [|o objs IH]; intros s ps E; [injection E as _ <-; split; [apply Counted_refl|done]|].
  apply M_bind_Ok in E as (p & s1 & E1 & E). apply M_bind_Ok in E as (ps1 & s2 & E2 & [= _ <-]).
  destruct (IH s1 ps1 E2) as [Hc Ht]. cbn [counted_bytes total_size foldr]. fold (total_size objs). rewrite E1. cbn [snd]. split.
  - replace (Z.of_nat (length (o :: objs))) with (1 + Z.of_nat (length objs)) by (simpl; lia).
    exact (Counted_trans _ _ _ _ _ _ _ (alloc_counts_any bt Hst o s p s1 E1) Hc).
  - intros Hok [Ho Hobjs]%Forall_cons. destruct (alloc_step bt o s Hok Ho) as (r & s1' & E1' & Hr).
    unfold Arena_obj in E1. rewrite E1 in E1'. injection E1' as <- <-.
    rewrite (raw_bytes_empty bt _ s Hok (proj1 Ho)). f_equal. apply Ht; [exact (step_wf _ _ (proj1 Hr))|done].
Qed.

(** An arena of the crate counts every byte. *)
Lemma arena_stats_exact_witness :
  let objs := [mkObj (mkLayout 4 4) [1; 2; 3; 4]; mkObj (mkLayout 200 8) (replicate 200 1); mkObj (mkLayout 1 1) [9]] in
  ∃ ps s', @Arena_run cfg_dev bump_alloc "bt" objs demo_state = (Ok ps, s') ∧
    usize_wrap (st_bytes_used (@Arena_stats cfg_dev (a_arena s'))) = 205.
Proof.
  intros objs. destruct (@Arena_run cfg_dev bump_alloc "bt" objs demo_state) as [r s'] eqn:E.
  assert (∃ ps, r = Ok ps) as [ps ->] by (change r with ((r, s').1); rewrite <- E; vm_compute; eexists; reflexivity).
  exists ps, s'. split; [reflexivity|].
  destruct (@arena_stats_exact cfg_dev bump_alloc bump_alloc_ok "bt" objs demo_state ps s') as (_ & H & _ & Ht).
  - reflexivity.
  - exact E.
  - rewrite H, Ht; [vm_compute; reflexivity|exact demo_ok|]. repeat constructor; vm_compute; intuition discriminate.
Defined.

(** With a block of 16 bytes in the thread's cache, a value of 4 bytes is stored in it:
    it is counted, [bytes_used] does not see its bytes. *)
Example cache_hit_uncounted :
  let cfg := mkCfg false false true false true false false false false in
  let cache := mkThreadCache [mkCacheEntry 65536 16 0] 1 16 0 in
  let w := mkWorld (w_mem demo_world') cache ThreadSlab_new (w_debug demo_world') [] in
  let '(r, s') := @Arena_run cfg bump_alloc "bt" [mkObj (mkLayout 4 4) [1; 2; 3; 4]] (mkAW demo_arena w) in
  r = Ok [65536] ∧ st_allocation_count (@Arena_stats cfg (a_arena s')) = 1 ∧ st_bytes_used (@Arena_stats cfg (a_arena s')) = 0.
Proof. vm_compute. done. Qed.

(** ** The lock-free statistics of an arena

    Of the four counters two repeat the others: every hit is an allocation, and every
    miss is recorded as contention, though one thread at a time uses the arena. *)
Section lockfree_stats.
Context `{cfg : Cfg} `{ga : GlobalAlloc} (bt : string).

Definition doubled (s : AW) : Prop :=
  let st := a_lockfree_stats (a_arena s) in ls_allocations st = ls_cache_hits st ∧ ls_contention_events st = ls_cache_misses st.
#[local] Instance keeps_doubled_inner {A} (m : M IW A) : Keeps doubled (with_inner m).
Proof. by apply Keeps_zoom_other. Qed.
#[local] Instance keeps_doubled_world {A} (m : M World A) : Keeps doubled (a_on_world m).
Proof. by apply Keeps_zoom_other. Qed.
#[local] Instance keeps_doubled_guard p size : Keeps doubled (guard_wrap bt p size).
Proof. unfold guard_wrap. apply _. Qed.
(** Two counters are raised together. *)
Lemma keeps_doubled_both {A} f g (k : M AW A) :
  (∀ st, ls_allocations st = ls_cache_hits st → ls_contention_events st = ls_cache_misses st →
     ls_allocations (g (f st)) = ls_cache_hits (g (f st)) ∧ ls_contention_events (g (f st)) = ls_cache_misses (g (f st))) →
  Keeps doubled k → Keeps doubled (_ ← on_lockfree_stats f; _ ← on_lockfree_stats g; k).
Proof. intros Hfg Hk s [H1 H2]. apply Hk. exact (Hfg _ H1 H2). Qed.

#[local] Instance keeps_doubled_lockfree size align : Keeps doubled (alloc_lockfree bt size align).
Proof.
  unfold alloc_lockfree. apply Keeps_if; [|apply _]. apply Keeps_if; [|apply _]. apply Keeps_bind; [apply _|]. intros s.
  apply Keeps_option; [|apply _]. intros b. apply Keeps_bind; [apply _|]. intros [p|]; apply keeps_doubled_both; try apply _;
    intros st Ha Hc; simpl; by rewrite ?Ha, ?Hc.
Qed.
#[local] Instance keeps_doubled_raw l : Keeps doubled (Arena_allocate_raw bt l).
Proof. unfold Arena_allocate_raw, alloc_thread_local, alloc_regular, alloc_new_chunk. apply _. Qed.
Lemma keeps_doubled_alloc t value : Keeps doubled (Arena_alloc bt t value).
Proof. unfold Arena_alloc. apply _. Qed.
#[local] Instance keeps_doubled_call c : Keeps doubled (run_call bt c).
Proof. destruct c; unfold run_call; apply _. Qed.

Lemma lockfree_stats_doubled calls s :
  a_lockfree_stats (a_arena s) = LockFreeStats_new →
  ∃ hits misses, Arena_lockfree_stats (a_arena (after_calls bt calls s)) = (hits, hits, misses, misses).
Proof.
  intros Hs. assert (doubled s) as Hd by (unfold doubled; by rewrite Hs). clear Hs.
  assert (doubled (after_calls bt calls s)) as [H1 H2].
  { revert s Hd. induction calls as [|c calls IH]; intros s Hd; [done|]. apply IH. by apply keeps_doubled_call. }
  unfold Arena_lockfree_stats, LockFreeStats_get. rewrite H1, H2. by eexists _, _.
Qed.
End lockfree_stats.
