(* ===== verification/DebugRegistry.v ===== *)
(** * DebugRegistry: the debug entry points of [Arena]

    An arena registers its allocations under the identifier of its [DebugAllocator],
    but [check_valid], [validate_debug_state] and [debug_stats] look them up under the
    address of the arena.  The frame rule [Keeps] follows the registry through every
    operation of the arena. *)
From S2P Require Import Prelude Keeps Memory Bump Chunk Slab ThreadLocal LockFree VirtualMemory Debug Inner InnerInv Objects Arena ArenaSafety ArenaCalls.
Local Open Scope Z_scope.

(** ** The registry has nothing under the address [self] *)
Section registry.
Context `{cfg : Cfg} `{ga : GlobalAlloc} (self : Z) (bt : string).

Definition unlisted (d : Debug) : Prop :=
  ds_allocations (db_state d) !! self = None ∧ ds_arena_checkpoints (db_state d) !! self = None.
Definition unlisted_dw (w : DW) : Prop := unlisted (dw_debug w).
Definition unlisted_w (w : World) : Prop := unlisted (w_debug w).
Definition unlisted_iw (s : IW) : Prop := unlisted_w (i_world s).
Definition unlisted_aw (s : AW) : Prop := unlisted_w (a_world s) ∧ da_arena_id (a_debug_allocator (a_arena s)) ≠ self.

(** *** debug.rs *)
#[local] Instance keeps_on_mem {A} (m : M Mem A) : Keeps unlisted_dw (on_mem m).
Proof. by apply Keeps_zoom_other. Qed.
#[local] Instance keeps_poisoned : Keeps unlisted_dw ds_poisoned.
Proof. apply _. Qed.

Lemma keeps_register id p size cid : id ≠ self → Keeps unlisted_dw (register_allocation bt id p size cid).
Proof.
  intros Hid w [Ha Hc]. unfold register_allocation, ds_poisoned. mrun. destruct (db_poisoned _); [by split|].
  split; simpl; by rewrite lookup_insert_ne.
Qed.

Lemma keeps_guard a p size cid : da_arena_id a ≠ self → Keeps unlisted_dw (allocate_with_guard bt a p size cid).
Proof.
  intros Hid. unfold allocate_with_guard. pose proof (λ p size cid, keeps_register (da_arena_id a) p size cid Hid). apply _.
Qed.

Lemma keeps_rewind_one id cid : id ≠ self → Keeps unlisted_dw (DebugState_rewind_to_checkpoint id cid).
Proof.
  intros Hid w [Ha Hc]. unfold DebugState_rewind_to_checkpoint, ds_get, ds_put. mrun.
  assert (unlisted_dw (mkDW (mkDebug (mkDebugState (ds_allocations (db_state (dw_debug w)))
    (<[id := cid]> (ds_arena_checkpoints (db_state (dw_debug w)))) (ds_next_arena_id (db_state (dw_debug w)))
    (ds_corrupted_allocations (db_state (dw_debug w))) (ds_leak_reports (db_state (dw_debug w))) (ds_backtraces_enabled (db_state (dw_debug w))))
    (db_poisoned (dw_debug w)) (db_validation (dw_debug w))) (dw_mem w))) as Hu by (split; simpl; rewrite ?lookup_insert_ne by done; done).
  destruct (ds_allocations (db_state (dw_debug w)) !! id); [|exact Hu]. exact (keeps_on_mem _ _ Hu).
Qed.

Lemma keeps_rewind_each ids cid : Forall (.≠ self) ids → Keeps unlisted_dw (rewind_each ids cid).
Proof.
  induction 1 as [|id ids Hid _ IH]; simpl; [apply _|]. apply Keeps_bind; [by apply keeps_rewind_one|done].
Qed.
Lemma keeps_rewind cid : Keeps unlisted_dw (rewind_to_checkpoint cid).
Proof.
  intros w Hw. unfold rewind_to_checkpoint, mbind, M_bind, get. destruct (db_poisoned _); [done|].
  apply keeps_rewind_each; [|done]. apply Forall_fmap, Forall_forall. intros [id c] Hin%elem_of_map_to_list. simpl. intros ->.
  destruct Hw as [_ Hc]. congruence.
Qed.

(** *** core.rs *)
#[local] Instance keeps_w_mem {A} (m : M Mem A) : Keeps unlisted_w (w_on_mem m).
Proof. by apply Keeps_zoom_other. Qed.
#[local] Instance keeps_w_cache {A} (m : M ThreadCache A) : Keeps unlisted_w (w_on_cache m).
Proof. by apply Keeps_zoom_other. Qed.
Lemma keeps_w_debug {A} (m : M DW A) : Keeps unlisted_dw m → Keeps unlisted_w (w_on_debug m).
Proof. by apply Keeps_zoom. Qed.
#[local] Instance keeps_in_world {A} (m : M World A) : Keeps unlisted_w m → Keeps unlisted_iw (in_world m).
Proof. by apply Keeps_zoom. Qed.
#[local] Instance keeps_on_inner f : Keeps unlisted_iw (on_inner f).
Proof. by apply Keeps_modify. Qed.
#[local] Instance keeps_stats f : Keeps unlisted_iw (stats_update f).
Proof. unfold stats_update. apply _. Qed.
#[local] Instance keeps_lockfree {A} b (m : M LF A) : Keeps unlisted_iw (with_lockfree b m).
Proof. intros s Hs. unfold with_lockfree. by destruct (m _) as [o x]. Qed.

#[local] Instance keeps_allocate l : Keeps unlisted_iw (ArenaInner_allocate l).
Proof. unfold ArenaInner_allocate. apply _. Qed.
#[local] Instance keeps_add_chunk c : Keeps unlisted_iw (ArenaInner_add_chunk c).
Proof. unfold ArenaInner_add_chunk. apply _. Qed.
#[local] Instance keeps_reset_caches : Keeps unlisted_iw reset_caches.
Proof. unfold reset_caches. apply _. Qed.
#[local] Instance keeps_checkpoint : Keeps unlisted_iw ArenaInner_checkpoint.
Proof. unfold ArenaInner_checkpoint. apply _. Qed.
#[local] Instance keeps_inner_rewind cp : Keeps unlisted_iw (ArenaInner_rewind_to_checkpoint cp).
Proof.
  unfold ArenaInner_rewind_to_checkpoint. pose proof (keeps_w_debug _ (keeps_rewind (cp_checkpoint_id cp))). apply _.
Qed.
#[local] Instance keeps_push : Keeps unlisted_iw ArenaInner_push_checkpoint.
Proof. unfold ArenaInner_push_checkpoint. apply _. Qed.

(** *** arena.rs *)
#[local] Instance keeps_with_inner {A} (m : M IW A) : Keeps unlisted_iw m → Keeps unlisted_aw (with_inner m).
Proof. apply Keeps_zoom; [by intros s [Hs _]|]. intros t s [_ Hid] Ht. by split. Qed.
#[local] Instance keeps_a_world {A} (m : M World A) : Keeps unlisted_w m → Keeps unlisted_aw (a_on_world m).
Proof. apply Keeps_zoom; [by intros s [Hs _]|]. intros t s [_ Hid] Ht. by split. Qed.
#[local] Instance keeps_a_mem {A} (m : M Mem A) : Keeps unlisted_aw (a_on_mem m).
Proof. unfold a_on_mem. apply _. Qed.
#[local] Instance keeps_lf_stats f : Keeps unlisted_aw (on_lockfree_stats f).
Proof. by apply Keeps_modify. Qed.

(** The registry is written under the identifier of the arena, which is not [self]. *)
#[local] Instance keeps_guard_wrap p size : Keeps unlisted_aw (guard_wrap bt p size).
Proof.
  intros s Hs. pose proof Hs as [_ Hid]. unfold guard_wrap. destruct feat_debug; [|done]. unfold mbind, M_bind, get.
  apply keeps_a_world; [|done]. apply keeps_w_debug, keeps_guard, Hid.
Qed.
#[local] Instance keeps_raw l : Keeps unlisted_aw (Arena_allocate_raw bt l).
Proof.
  assert (Keeps unlisted_aw (alloc_regular bt l)) as Hr.
  { unfold alloc_regular, alloc_new_chunk. apply Keeps_bind; [apply _|]. intros [p|]; [|apply _]. apply Keeps_bind; [apply _|]. intros q.
    apply Keeps_bind; [|apply _]. intros s Hs. pose proof Hs as [_ Hid]. destruct feat_debug; [|done]. unfold mbind, M_bind, get.
    apply keeps_a_world; [|done]. by apply keeps_w_debug, keeps_register. }
  unfold Arena_allocate_raw, alloc_lockfree, alloc_thread_local. apply _.
Qed.

(** *** Any sequence of calls *)
#[local] Instance keeps_call c : Keeps unlisted_aw (run_call bt c).
Proof.
  destruct c; unfold run_call; apply _.
Qed.
Lemma after_calls_unlisted calls s : unlisted_aw s → unlisted_aw (after_calls bt calls s).
Proof. revert s. induction calls as [|c calls IH]; intros s Hs; [done|]. apply IH. by apply keeps_call. Qed.

(** *** A new arena *)

(** The identifier the next arena gets. *)
Definition next_id (d : Debug) : Z := if db_poisoned d then 1 else ds_next_arena_id (db_state d).

Lemma from_inner_unlisted inner w a w' :
  feat_debug = true → unlisted_w w → next_id (w_debug w) ≠ self → Arena_from_inner inner w = (Ok a, w') → unlisted_aw (mkAW a w').
Proof.
  intros Hdb [Ha Hc] Hid. unfold Arena_from_inner, w_on_debug, DebugAllocator_new, ds_get, ds_put, next_id in *. mrun. rewrite Hdb. mrun.
  destruct (db_poisoned (w_debug w)); intros [= <- <-]; split; simpl; try done; by split.
Qed.

Lemma ArenaInner_new_debug cap w r w' : ArenaInner_new self cap w = (r, w') → w_debug w' = w_debug w.
Proof.
  intros E. pose (P w1 := w_debug w1 = w_debug w).
  assert (∀ A (m : M Mem A), Keeps P (w_on_mem m)) as Hm by (intros A m; by apply Keeps_zoom_other).
  assert (Keeps P (ArenaInner_new self cap)) as Hk by (unfold ArenaInner_new; apply _).
  specialize (Hk w eq_refl). by rewrite E in Hk.
Qed.

Lemma Arena_with_capacity_unlisted cap w a w' :
  feat_debug = true → unlisted_w w → next_id (w_debug w) ≠ self →
  Arena_with_capacity self cap w = (Ok a, w') → unlisted_aw (mkAW a w').
Proof.
  intros Hdb Hu Hid. unfold Arena_with_capacity, Arena_try_with_capacity, mbind, M_bind.
  destruct (ArenaInner_new self cap w) as [[[i|e]|e|e|e] w1] eqn:E1; try done; apply ArenaInner_new_debug in E1 as Hd1.
  - destruct (Arena_from_inner i w1) as [[a1|e|e|e] w2] eqn:E2; try done. intros [= <- <-].
    apply (from_inner_unlisted i w1); unfold unlisted_w; by rewrite ?Hd1.
  - simpl. destruct (ArenaInner_new self DEFAULT_CHUNK_SIZE w1) as [[[i|e']|e'|e'|e'] w2] eqn:E2; try done.
    apply ArenaInner_new_debug in E2 as Hd2. intros E. apply (from_inner_unlisted i w2 a w'); unfold unlisted_w; rewrite ?Hd2, ?Hd1; done.
Qed.
End registry.

(** C36: the debug entry points of an arena never find its allocations.  [check_valid]
    and [debug_stats] look under the address of the arena, while allocations are
    registered under a counter.  Whatever calls are made on a new arena whose
    identifier is not its own address: [check_valid] fails with the message of an
    unknown allocation for every pointer, live objects included, so a value is
    reported invalid before a rewind as after it, and [debug_stats] counts no
    allocation and no checkpoint. *)
Theorem check_valid_never_finds `{cfg : Cfg} `{ga : GlobalAlloc} self bt cap w a w' calls :
  feat_debug = true → unlisted_w self w → next_id (w_debug w) ≠ self → Arena_with_capacity self cap w = (Ok a, w') →
  let s := after_calls bt calls (mkAW a w') in
  (∀ ptr, Arena_check_valid self ptr s = (Ok (RErr "Allocation not found"), s)) ∧
  dst_total_allocations (Arena_debug_stats self s) = 0 ∧ dst_active_checkpoints (Arena_debug_stats self s) = 0 ∧
  dst_current_checkpoint_id (Arena_debug_stats self s) = 0.
Proof.
  intros Hdb Hu Hid E s. pose proof (Arena_with_capacity_unlisted self cap w a w' Hdb Hu Hid E) as H0.
  pose proof (after_calls_unlisted self bt calls _ H0) as [[Ha Hc] _]. fold s in Ha, Hc. split.
  - intros ptr. unfold Arena_check_valid, DebugState_check_use_after_rewind, DebugState_validate_allocation. mrun.
    rewrite Ha. unfold a_on_mem, a_on_world, w_on_mem. mrun. by destruct s as [? []].
  - unfold Arena_debug_stats, DebugState_get_stats, DebugState_get_current_checkpoint_id. simpl. by rewrite Ha, Hc.
Qed.

(** The demonstration of examples/v0_5_features.rs: a value is allocated and checked. *)
Definition cfg_debug : Cfg := mkCfg true true true false false false true false false.
Lemma check_valid_never_finds_witness :
  ∃ a w', @Arena_with_capacity cfg_debug bump_alloc 140000 65536 demo_world = (Ok a, w') ∧
    let s := @after_calls cfg_debug bump_alloc "bt" [CCheckpoint; CAlloc (mkLayout 4 4) [42; 0; 0; 0]] (mkAW a w') in
    ∀ ptr, Arena_check_valid 140000 ptr s = (Ok (RErr "Allocation not found"), s).
Proof.
  destruct (@Arena_with_capacity cfg_debug bump_alloc 140000 65536 demo_world) as [r w'] eqn:E.
  assert (∃ a, r = Ok a) as [a ->] by (change r with ((r, w').1); rewrite <- E; vm_compute; eexists; reflexivity).
  exists a, w'. split; [reflexivity|].
  destruct (@check_valid_never_finds cfg_debug bump_alloc 140000 "bt" 65536 demo_world a w' [CCheckpoint; CAlloc (mkLayout 4 4) [42; 0; 0; 0]])
    as [H _].
  - reflexivity.
  - split; reflexivity.
  - vm_compute. discriminate.
  - exact E.
  - exact H.
Defined.

(** ** Allocations without a guard *)

(** A global allocator that has no blocks of alignment 16 left, which is how guarded
    blocks are asked for; chunks are aligned to 64. *)
Definition no_guard_alloc : GlobalAlloc := λ live l, if l_align l =? 16 then None else @ga_alloc bump_alloc live l.
#[global] Instance no_guard_alloc_ok : GlobalAllocOk no_guard_alloc.
Proof.
  constructor. intros live l p Hl Hs. unfold ga_alloc, no_guard_alloc. destruct (l_align l =? 16); [done|]. by apply bump_alloc_ok.
Qed.

(** A program on an arena just created with this allocator. *)
Definition on_unguarded {A} (prog : M AW A) : outcome A :=
  match @Arena_with_capacity cfg_debug no_guard_alloc 140000 100 demo_world with
  | (Ok a, w) => (prog (mkAW a w)).1
  | (_, _) => Panic "no arena"
  end.

(** When the system refuses the block of a guard, [allocate_with_guard] falls back to
    the address in the chunk, and [allocate_raw] registers that address like a guarded
    one.  Rewinding then taints the byte 16 before it.  At the start of the first
    chunk that byte lies in no live block: a checkpoint, one allocation and a rewind
    are undefined behaviour.  Further on it belongs to an older object, live at the
    checkpoint, which no longer holds its value. *)
Theorem unguarded_rewind_corrupts :
  let cfg : Cfg := cfg_debug in let ga : GlobalAlloc := no_guard_alloc in
  let alloc n v := Arena_alloc "bt" (mkLayout n 8) (replicate (Z.to_nat n) v) in
  on_unguarded (cp ← Arena_checkpoint; _ ← alloc 8 1; Arena_rewind_to_checkpoint cp) = UB "write outside of a live block" ∧
  on_unguarded (p ← alloc 16 7; cp ← Arena_checkpoint; _ ← alloc 8 1; _ ← Arena_rewind_to_checkpoint cp; a_on_mem (mem_load p 16)) =
    Ok (0 :: replicate 15 7).
Proof. split; vm_compute; reflexivity. Qed.
