(* ===== verification/ScopeReuse.v ===== *)
(** * ScopeReuse: scopes whose work fits the current chunk

    The other side of [frame_loop_grows]: a scope that stays inside the current
    chunk gives back exactly the arena it found, without a system call, and the next
    scope is handed the same addresses again. *)
From S2P Require Import Prelude Memory Bump Chunk Slab ThreadLocal LockFree VirtualMemory Debug Inner InnerInv Objects Arena ArenaSafety ArenaCheckpoint ArenaFrames.
Local Open Scope Z_scope.

(** What work inside the current chunk does to the arena. *)
Record Within (s s' : AW) : Prop := mkWithin {
  wi_step : Step (iw s) (iw s');
  wi_extends : Extends (a_inner (a_arena s)) (a_inner (a_arena s'));
  wi_length : length (in_chunks (a_inner (a_arena s'))) = length (in_chunks (a_inner (a_arena s)));
  wi_heap : heap (w_mem (a_world s')) = heap (w_mem (a_world s))
}.

(** The arena is as it was; only memory it had available may have been written. *)
Record Stable (s s' : AW) : Prop := mkStable {
  sb_step : Step (iw s) (iw s');
  sb_tail : tail_unused (a_inner (a_arena s'));
  sb_chunks : in_chunks (a_inner (a_arena s')) = in_chunks (a_inner (a_arena s));
  sb_current : in_current_chunk (a_inner (a_arena s')) = in_current_chunk (a_inner (a_arena s));
  sb_heap : heap (w_mem (a_world s')) = heap (w_mem (a_world s))
}.

Lemma Stable_refl s : Arena_ok s → tail_unused (a_inner (a_arena s)) → Stable s s.
Proof. intros. split; [by apply Step_refl|done..]. Qed.
Lemma Stable_trans s1 s2 s3 : Stable s1 s2 → Stable s2 s3 → Stable s1 s3.
Proof. intros [] []. split; [by eapply Step_trans|done|congruence..]. Qed.
Lemma Stable_chunk s s' : Stable s s' → current s' = current s.
Proof. intros [_ _ H1 H2 _]. unfold current. by rewrite H1, H2. Qed.

Lemma Within_trans s1 s2 s3 : Within s1 s2 → Within s2 s3 → Within s1 s3.
Proof. intros [] []. split; [by eapply Step_trans|by eapply Extends_trans|congruence..]. Qed.

Section fits.
Context `{cfg : Cfg} {ga : GlobalAlloc} `{!GlobalAllocOk ga} (bt : string).
Hypothesis (Hlf : feat_lockfree = false) (Hdb : feat_debug = false).

(** The address a request gets when it fits. *)
Lemma allocate_raw_fits l s c :
  Arena_ok s → Layout_ok l → 0 < l_size l → current s = Some c → Chunk_fits l c →
  ∃ s', Arena_allocate_raw bt l s = (Ok (c_ptr c + Chunk_start l c), s') ∧ heap (w_mem (a_world s')) = heap (w_mem (a_world s)).
Proof.
  intros Hok Hl Hsz Hc Hfit. unfold Arena_allocate_raw. destruct (Z.eqb_spec (l_size l) 0); [lia|].
  unfold alloc_lockfree. rewrite Hlf. unfold mbind at 1, M_bind at 1, mret at 1, M_ret at 1. cbv beta iota.
  destruct (alloc_thread_local_arena bt Hdb (l_size l) (l_align l) s Hok) as (s1 & E1 & Ha).
  destruct (alloc_thread_local_step bt l s Hok Hl) as (s1' & E1' & [Hst1 (_ & _ & Hh)]). rewrite E1 in E1'. injection E1' as <-.
  unfold mbind at 1, M_bind at 1. rewrite E1. unfold alloc_regular.
  pose proof (ArenaInner_allocate_step l (iw s1) c (step_wf _ _ Hst1) Hl) as Hal. simpl in Hal. rewrite Ha in Hal. specialize (Hal Hc).
  rewrite decide_True in Hal by done. destruct Hal as (x & E & _ & _ & _ & Hv).
  destruct (with_inner_run _ _ _ _ E) as (s2 & E2 & <- & _). unfold mbind at 1, M_bind at 1. rewrite E2.
  unfold guard_wrap. rewrite Hdb. eexists. split; [reflexivity|]. rewrite <- Hh. f_equal. f_equal. exact (sv_world _ _ Hv).
Qed.

Lemma allocate_raw_within l s c :
  Arena_ok s → Layout_ok l → 0 < l_size l → l_align l ≤ 64 → current s = Some c → Chunk_fits l c →
  let p := c_ptr c + Chunk_start l c in
  ∃ s', Arena_allocate_raw bt l s = (Ok p, s') ∧ Within s s' ∧ Fresh (l_size l) (iw s) p (iw s') ∧ p `mod` l_align l = 0.
Proof.
  intros Hok Hl Hsz Hal Hc Hfit p. destruct (allocate_raw_fits l s c Hok Hl Hsz Hc Hfit) as (s' & E & Hh).
  destruct (allocate_raw_step bt l s Hok Hl Hsz) as (r & s1 & E1 & Hr). rewrite E in E1. injection E1 as <- <-.
  destruct Hr as (Hst & Hf & Hap). destruct (allocate_raw_grows bt Hlf Hdb l s c _ s' Hok Hl Hsz Hc E) as [Hx Hlen].
  rewrite decide_True in Hlen by done. exists s'. split; [done|]. split; [by split|]. split; [done|]. apply Hap. by rewrite Hdb.
Qed.

(** A scope whose body stays inside the current chunk. *)
Lemma scope_within {R} (f : ArenaCheckpoint → M AW R) (Q : outcome R → AW → Prop) s :
  Arena_ok s → tail_unused (a_inner (a_arena s)) → 0 ≤ in_current_checkpoint_id (a_inner (a_arena s)) < USIZE_MAX →
  (∀ cp s1, Arena_ok s1 → current s1 = current s →
     ∃ r s2, f cp s1 = (r, s2) ∧ Within s1 s2 ∧ Q r s2 ∧ match r with Ok _ | Panic _ => True | _ => False end) →
  ∃ r s2 s3, Arena_scope f s = (r, s3) ∧ Q r s2 ∧ Stable s s3 ∧
    w_mem (a_world s3) = w_mem (a_world s2) ∧
    in_current_checkpoint_id (a_inner (a_arena s3)) = in_current_checkpoint_id (a_inner (a_arena s)) + 1.
Proof.
  intros Hok Ht Hid Hf. destruct (checkpoint_run s Hok Hid) as (cp & s1 & E1 & Hcp & _ & Hw1 & Hi1).
  pose proof (checkpoint_step s cp s1 Hok E1) as Hst1.
  assert (current s1 = current s) as Hc1 by (unfold current; by rewrite Hi1).
  destruct (Hf cp s1 (step_wf _ _ Hst1) Hc1) as (r & s2 & E2 & [Hst2 [Hg Htl Hid2] Hlen Hh] & HQ & Hr).
  pose proof (Step_trans _ _ _ Hst1 Hst2) as Hst.
  destruct (rewind_restored_gen Hlf Hdb s cp s2 (in_checkpoints (a_inner (a_arena s2))) Hok Ht Hcp Hst)
    as (s3 & E3 & Hres & Ht3 & _ & Hid3 & _ & _).
  { rewrite Hi1 in Hg. destruct Hg. by split. }
  exists r, s2, s3. split.
  { unfold Arena_scope, Scope_new, Scope_drop, mbind, M_bind. rewrite E1. unfold with_drop. rewrite E2. by destruct r; rewrite ?E3. }
  split; [exact HQ|].
  pose proof (Restored_step _ _ _ Hres Hst) as Hst3. destruct Hres as [Hok3 (extra & Hcs & Hl & _) Hcur _ Hmem _].
  split; [|split; [done|rewrite Hid3, Hid2, Hi1; done]]. split; [done|done| |done|].
  - rewrite Hcs in Hl |- *. rewrite Hlen, Hi1, length_app in Hl. simpl in Hl. destruct extra; [by rewrite app_nil_r|simpl in Hl; lia].
  - by rewrite Hmem, Hh, Hw1.
Qed.
End fits.

(** ** References that outlive a rewind *)
Section alias.
Context `{cfg : Cfg} {ga : GlobalAlloc} `{!GlobalAllocOk ga} (bt : string).

(** [let p = scope.alloc(v1); scope.reset(); let q = scope.alloc(v2);] and a read
    through [p]. *)
Definition reset_twice (t : Layout) (v1 v2 : list Z) (scope : ArenaCheckpoint) : M AW (Z * Z * list Z) :=
  p ← Scope_alloc bt scope t v1;
  _ ← Scope_reset scope;
  q ← Scope_alloc bt scope t v2;
  v ← a_on_mem (mem_load p (length v1));
  mret (p, q, v).

(** [let p = arena.scope(|_| arena.alloc(v1)); let q = arena.alloc(v2);] and a read
    through [p]. *)
Definition scope_then_alloc (t : Layout) (v1 v2 : list Z) : M AW (Z * Z * list Z) :=
  p ← Arena_scope (λ _, Arena_alloc bt t v1);
  q ← Arena_alloc bt t v2;
  v ← a_on_mem (mem_load p (length v1));
  mret (p, q, v).

Hypothesis (Hlf : feat_lockfree = false) (Hdb : feat_debug = false).

(** [alloc] of a value that fits. *)
Lemma alloc_fits o s c :
  Arena_ok s → Obj_ok o → current s = Some c → Chunk_fits (o_layout o) c →
  let p := c_ptr c + Chunk_start (o_layout o) c in
  ∃ s', Arena_alloc bt (o_layout o) (o_value o) s = (Ok p, s') ∧ Within s s' ∧ obj_stored (w_mem (a_world s')) (o, p).
Proof.
  intros Hok Ho Hc Hfit p. pose proof Ho as (Hl & Hsz & _ & Hal). rewrite Hdb in Hal.
  destruct (allocate_raw_within bt Hlf Hdb (o_layout o) s c Hok Hl Hsz Hal Hc Hfit) as (s1 & E1 & Hw & Hf & Hmod).
  destruct (alloc_step bt o s Hok Ho) as (r & s' & E & Hr). exists s'.
  assert (a_inner (a_arena s') = a_inner (a_arena s1) ∧ heap (w_mem (a_world s')) = heap (w_mem (a_world s1)) ∧ r = Ok p) as (Hi & Hh & ->).
  { unfold Arena_alloc, mbind, M_bind in E. rewrite E1 in E. unfold a_on_mem, a_on_world, w_on_mem, ptr_write in E.
    fold p in Hmod. mrun. fold p in E. rewrite Hmod in E. simpl in E. unfold mem_store in E.
    case_decide; simplify_eq/=; done. }
  destruct Hr as (Hst & _ & Hso). split; [done|]. split; [|done]. destruct Hw as [_ Hx Hlen Hh1]. split; rewrite ?Hi; congruence || done.
Qed.

(** Back at the checkpoint, the value gets the address it had. *)
Lemma alloc_again o s cp s1 s2 c :
  Arena_ok s → tail_unused (a_inner (a_arena s)) → Obj_ok o → current s = Some c → Chunk_fits (o_layout o) c →
  Arena_checkpoint s = (Ok cp, s1) → Step (iw s1) (iw s2) → Grows (a_inner (a_arena s1)) (a_inner (a_arena s2)) →
  let p := c_ptr c + Chunk_start (o_layout o) c in
  ∃ s3 s4, Arena_rewind_to_checkpoint cp s2 = (Ok tt, s3) ∧ Arena_alloc bt (o_layout o) (o_value o) s3 = (Ok p, s4) ∧
    obj_stored (w_mem (a_world s4)) (o, p).
Proof.
  intros Hok Ht Ho Hc Hfit E1 Hst Hg p.
  destruct (rewind_restored Hlf Hdb s cp s1 s2 Hok Ht E1 Hst Hg) as (s3 & E3 & [Hok3 (extra & Hcs & _) Hcur _ _ _] & _).
  assert (current s3 = Some c) as Hc3 by (unfold current in *; rewrite Hcur, Hcs; by apply lookup_app_l_Some).
  destruct (alloc_fits o s3 c Hok3 Ho Hc3 Hfit) as (s4 & E4 & _ & Hso). by exists s3, s4.
Qed.
End alias.


