(* ===== verification/Legacy.v ===== *)
(** * Legacy: the arena of builds without [arena_module]

    [Arena], [ArenaBuilder], [FeatureBundle] and [Scope] of src/legacy_arena.rs:
    the same [ArenaInner] without caches, guards or statistics, an allocation
    counter of its own, chunks that grow with the request, and scopes that rewind
    only when their closure returns. *)
From S2P Require Import Prelude Memory Chunk Slab ThreadLocal LockFree VirtualMemory Debug Inner Arena.
Local Open Scope Z_scope.

(** ** Data *)
Record LegacyArena := mkLegacyArena { la_inner : ArenaInner; la_allocation_counter : Z }.
Record LW := mkLW { lw_arena : LegacyArena; lw_world : World }.

Definition l_inner {A} (m : M IW A) : M LW A :=
  zoom (λ s, mkIW (la_inner (lw_arena s)) (lw_world s))
    (λ x s, mkLW (mkLegacyArena (i_inner x) (la_allocation_counter (lw_arena s))) (i_world x)) m.
Definition l_on_mem {A} (m : M Mem A) : M LW A := l_inner (in_world (w_on_mem m)).
Definition on_counter (f : Z → Z) : M LW unit :=
  modify (λ s, mkLW (mkLegacyArena (la_inner (lw_arena s)) (f (la_allocation_counter (lw_arena s)))) (lw_world s)).

Section legacy.
Context `{cfg : Cfg} `{ga : GlobalAlloc} (self : Z).

(** ** Construction *)
Definition Legacy_DEFAULT_CAPACITY : Z := DEFAULT_CHUNK_SIZE.

Definition Legacy_with_capacity (capacity : Z) : M World LegacyArena :=
  r ← ArenaInner_new self capacity;
  match r with
  | RErr _ => lift (Panic "Failed to create arena")
  | ROk inner => mret (mkLegacyArena inner 0)
  end.
Definition Legacy_new : M World LegacyArena := Legacy_with_capacity Legacy_DEFAULT_CAPACITY.

(** ** Allocation *)

(** A new chunk that turns out too small is dropped when the panic unwinds. *)
Definition Legacy_alloc_layout (layout : Layout) : M IW Z :=
  i ← gets i_inner;
  let chunk_idx := clamped_chunk i in
  chunk ← lift (vec_index chunk_idx (in_chunks i));
  '(r, chunk) ← lift (Chunk_allocate layout chunk);
  _ ← on_inner (set_chunks (<[chunk_idx := chunk]> (in_chunks i)));
  match r with
  | Some ptr => mret ptr
  | None =>
      let new_capacity := Z.max (saturating_mul (l_size layout) 2) MIN_CHUNK_SIZE in
      r ← in_world (w_on_mem (Chunk_new new_capacity));
      match r with
      | RErr _ => lift (Panic "Failed to allocate new chunk")
      | ROk new_chunk =>
          '(r, new_chunk) ← lift (Chunk_allocate layout new_chunk);
          match r with
          | Some ptr =>
              _ ← on_inner (λ i, set_chunks (vec_push new_chunk (in_chunks i)) i);
              _ ← on_inner (λ i, set_current_chunk (length (in_chunks i) - 1) i);
              mret ptr
          | None =>
              _ ← in_world (w_on_mem (Chunk_drop new_chunk));
              lift (Panic "Failed to allocate in new chunk")
          end
      end
  end.

Definition Legacy_alloc (t : Layout) (value : list Z) : M LW Z :=
  ptr ← l_inner (Legacy_alloc_layout t);
  _ ← on_counter (λ n, fetch_add n 1);
  _ ← l_on_mem (ptr_write ptr t value);
  mret ptr.
(** [alloc_default]: the bytes of [T::default()]. *)
Definition Legacy_alloc_default (t : Layout) (default : list Z) : M LW Z := Legacy_alloc t default.

(** Slices: the address and the length. *)
Definition Legacy_alloc_slice_copy (t : Layout) (len : Z) (data : list Z) : M LW (Z * Z) :=
  match Layout_array t len with
  | None => mret (l_align t, 0)
  | Some layout =>
      ptr ← l_inner (Legacy_alloc_layout layout);
      _ ← l_on_mem (ptr_write ptr t data);
      mret (ptr, len)
  end.
Definition Legacy_alloc_slice_uninit (t : Layout) (len : Z) : M LW (Z * Z) :=
  match Layout_array t len with
  | None => mret (l_align t, 0)
  | Some layout =>
      ptr ← l_inner (Legacy_alloc_layout layout);
      _ ← l_on_mem (ptr_write ptr t []);
      mret (ptr, len)
  end.
Definition Legacy_alloc_str (s : list Z) : M LW (Z * Z) :=
  Legacy_alloc_slice_copy (mkLayout 1 1) (Z.of_nat (length s)) s.

(** ** Checkpoints: the identifier advances only when a checkpoint is pushed *)
Definition Legacy_checkpoint : M LW ArenaCheckpoint :=
  s ← get;
  let i := la_inner (lw_arena s) in
  current_chunk ← lift (vec_index (in_current_chunk i) (in_chunks i));
  mret (mkCheckpoint (in_current_chunk i) (c_used current_chunk) (in_current_checkpoint_id i)
          (la_allocation_counter (lw_arena s))).

Definition Legacy_push_checkpoint : M LW ArenaCheckpoint :=
  checkpoint ← Legacy_checkpoint;
  _ ← l_inner (on_inner (λ i, set_checkpoints (vec_push checkpoint (in_checkpoints i)) i));
  i ← l_inner (gets i_inner);
  next ← lift (usize_add (in_current_checkpoint_id i) 1);
  _ ← l_inner (on_inner (set_checkpoint_id next));
  mret checkpoint.
Definition Legacy_checkpoint_count (a : LegacyArena) : Z := Z.of_nat (length (in_checkpoints (la_inner a))).
Definition Legacy_clear_checkpoints : M LW unit := l_inner (on_inner (set_checkpoints [])).

(** The chunks behind the checkpoint's are emptied before its index is checked. *)
Definition Legacy_rewind_to_checkpoint (cp : ArenaCheckpoint) : M LW unit :=
  _ ← l_inner (on_inner (λ i, set_chunks
        (imap (λ idx c, if (cp_chunk_index cp + 1 <=? idx)%nat then Chunk_reset c else c) (in_chunks i)) i));
  i ← l_inner (gets i_inner);
  chunk ← lift (vec_index (cp_chunk_index cp) (in_chunks i));
  _ ← l_inner (on_inner (set_chunks (<[cp_chunk_index cp := Chunk_set_used (cp_chunk_offset cp) chunk]> (in_chunks i))));
  l_inner (on_inner (set_current_chunk (cp_chunk_index cp))).

(** A panic of [f] passes through: there is no guard. *)
Definition Legacy_scope {R} (f : M LW R) : M LW R :=
  checkpoint ← Legacy_checkpoint;
  s ← get;
  let allocation_count_before := la_allocation_counter (lw_arena s) in
  result ← f;
  _ ← Legacy_rewind_to_checkpoint checkpoint;
  _ ← on_counter (λ _, allocation_count_before);
  mret result.

(** A [Scope] is a reference to the arena. *)
Definition LegacyScope_alloc (t : Layout) (value : list Z) : M LW Z := Legacy_alloc t value.
Definition LegacyScope_alloc_default (t : Layout) (default : list Z) : M LW Z := Legacy_alloc_default t default.

(** ** Reset *)
Definition Legacy_reset : M LW unit :=
  _ ← l_inner (on_inner (λ i, set_chunks (Chunk_reset <$> in_chunks i) i));
  _ ← l_inner (on_inner (set_current_chunk 0));
  _ ← l_inner (on_inner (set_checkpoints []));
  on_counter (λ _, 0).

Definition Legacy_reset_and_shrink_to_fit : M LW unit :=
  _ ← l_inner (on_inner (λ i, set_chunks (Chunk_reset <$> in_chunks i) i));
  i ← l_inner (gets i_inner);
  _ ← (if (1 <? length (in_chunks i))%nat then
         _ ← l_inner (on_inner (set_chunks (take 1 (in_chunks i))));
         l_on_mem (drop_chunks (drop 1 (in_chunks i)))
       else mret tt);
  _ ← l_inner (on_inner (set_current_chunk 0));
  _ ← l_inner (on_inner (set_checkpoints []));
  on_counter (λ _, 0).

(** ** Information: the sums are computed from the chunks, not kept *)
Fixpoint sum_capacity (acc : Z) (cs : list Chunk) : outcome Z :=
  match cs with
  | [] => Ok acc
  | c :: cs => acc ← usize_add acc (c_capacity c); sum_capacity acc cs
  end.
Definition Legacy_bytes_allocated (a : LegacyArena) : outcome Z := sum_capacity 0 (in_chunks (la_inner a)).
Definition Legacy_stats (a : LegacyArena) : outcome ArenaStats :=
  bytes_allocated ← sum_capacity 0 (in_chunks (la_inner a));
  bytes_used ← sum_used 0 (in_chunks (la_inner a));
  Ok (mkStats bytes_used bytes_allocated (la_allocation_counter a) (Z.of_nat (length (in_chunks (la_inner a))))).
Definition Legacy_feature_status : FeatureStatus :=
  mkFeatureStatus feat_lockfree feat_thread_local feat_slab feat_virtual_memory feat_debug feat_stats.
Definition Legacy_build_config : ArenaConfig :=
  mkArenaConfig Legacy_DEFAULT_CAPACITY DEFAULT_CHUNK_SIZE None None 1024 8 Legacy_feature_status.
End legacy.

(** ** [ArenaBuilder] and [FeatureBundle] *)
Inductive FeatureBundle := Perf | Safety | Debuggable | Server.

Record LegacyBuilder := mkLegacyBuilder {
  lb_initial_capacity : Z; lb_chunk_size : Z; lb_reserve_size : option Z; lb_max_chunks : option Z;
  lb_fast_path_threshold : Z; lb_prefetch_distance : Z;
  lb_enable_stats : bool; lb_enable_debug : bool; lb_enable_lockfree : bool; lb_enable_thread_local : bool;
  lb_enable_virtual_memory : bool;
  lb_feature_bundle : option FeatureBundle;
  lb_diagnostics_sink : bool
}.

Section builder.
Context `{cfg : Cfg} `{ga : GlobalAlloc}.

Definition LegacyBuilder_new : LegacyBuilder :=
  mkLegacyBuilder 0 DEFAULT_CHUNK_SIZE None None 1024 8 feat_stats feat_debug feat_lockfree feat_thread_local
    feat_virtual_memory None false.

(** One setter per field of the builder. *)
Definition LegacyBuilder_initial_capacity (n : Z) (b : LegacyBuilder) : LegacyBuilder :=
  let 'mkLegacyBuilder _ cs rs mc fp pd st db lf tl vm fb ds := b in mkLegacyBuilder n cs rs mc fp pd st db lf tl vm fb ds.
Definition LegacyBuilder_reserve_size (n : Z) (b : LegacyBuilder) : LegacyBuilder :=
  let 'mkLegacyBuilder ic cs _ mc fp pd st db lf tl vm fb ds := b in mkLegacyBuilder ic cs (Some n) mc fp pd st db lf tl vm fb ds.
Definition LegacyBuilder_fast_path_threshold (n : Z) (b : LegacyBuilder) : LegacyBuilder :=
  let 'mkLegacyBuilder ic cs rs mc _ pd st db lf tl vm fb ds := b in mkLegacyBuilder ic cs rs mc n pd st db lf tl vm fb ds.
Definition LegacyBuilder_prefetch_distance (n : Z) (b : LegacyBuilder) : LegacyBuilder :=
  let 'mkLegacyBuilder ic cs rs mc fp _ st db lf tl vm fb ds := b in mkLegacyBuilder ic cs rs mc fp n st db lf tl vm fb ds.
Definition LegacyBuilder_enable_stats (x : bool) (b : LegacyBuilder) : LegacyBuilder :=
  let 'mkLegacyBuilder ic cs rs mc fp pd _ db lf tl vm fb ds := b in mkLegacyBuilder ic cs rs mc fp pd x db lf tl vm fb ds.
Definition LegacyBuilder_enable_debug (x : bool) (b : LegacyBuilder) : LegacyBuilder :=
  let 'mkLegacyBuilder ic cs rs mc fp pd st _ lf tl vm fb ds := b in mkLegacyBuilder ic cs rs mc fp pd st x lf tl vm fb ds.
Definition LegacyBuilder_enable_lockfree (x : bool) (b : LegacyBuilder) : LegacyBuilder :=
  let 'mkLegacyBuilder ic cs rs mc fp pd st db _ tl vm fb ds := b in mkLegacyBuilder ic cs rs mc fp pd st db x tl vm fb ds.
Definition LegacyBuilder_enable_thread_local (x : bool) (b : LegacyBuilder) : LegacyBuilder :=
  let 'mkLegacyBuilder ic cs rs mc fp pd st db lf _ vm fb ds := b in mkLegacyBuilder ic cs rs mc fp pd st db lf x vm fb ds.
Definition LegacyBuilder_enable_virtual_memory (x : bool) (b : LegacyBuilder) : LegacyBuilder :=
  let 'mkLegacyBuilder ic cs rs mc fp pd st db lf tl _ fb ds := b in mkLegacyBuilder ic cs rs mc fp pd st db lf tl x fb ds.
Definition LegacyBuilder_set_bundle (x : FeatureBundle) (b : LegacyBuilder) : LegacyBuilder :=
  let 'mkLegacyBuilder ic cs rs mc fp pd st db lf tl vm _ ds := b in mkLegacyBuilder ic cs rs mc fp pd st db lf tl vm (Some x) ds.
Definition LegacyBuilder_diagnostics_sink (b : LegacyBuilder) : LegacyBuilder :=
  let 'mkLegacyBuilder ic cs rs mc fp pd st db lf tl vm fb _ := b in mkLegacyBuilder ic cs rs mc fp pd st db lf tl vm fb true.

Definition FeatureBundle_apply_to_builder (f : FeatureBundle) (b : LegacyBuilder) : LegacyBuilder :=
  match f with
  | Perf =>
      LegacyBuilder_fast_path_threshold 1024 (LegacyBuilder_enable_stats feat_stats
        (LegacyBuilder_enable_thread_local feat_thread_local (LegacyBuilder_enable_lockfree feat_lockfree b)))
  | Safety => LegacyBuilder_enable_stats feat_stats (LegacyBuilder_enable_debug feat_debug b)
  | Debuggable => LegacyBuilder_enable_stats feat_stats (LegacyBuilder_enable_debug feat_debug b)
  | Server =>
      LegacyBuilder_reserve_size (64 * 1024 * 1024) (LegacyBuilder_enable_stats feat_stats
        (LegacyBuilder_enable_virtual_memory feat_virtual_memory
          (LegacyBuilder_enable_thread_local feat_thread_local (LegacyBuilder_enable_lockfree feat_lockfree b))))
  end.
Definition LegacyBuilder_with_bundle (f : FeatureBundle) (b : LegacyBuilder) : LegacyBuilder :=
  FeatureBundle_apply_to_builder f (LegacyBuilder_set_bundle f b).

(** [build]: the arena, and the message handed to the sink if there is one. *)
Definition LegacyBuilder_build (self : Z) (b : LegacyBuilder) : M World (LegacyArena * option string) :=
  let capacity := if lb_initial_capacity b =? 0 then Legacy_DEFAULT_CAPACITY else lb_initial_capacity b in
  let msg := if lb_diagnostics_sink b then
      Some ("Building arena with capacity: " +:+ fmt_usize capacity +:+ ", chunk_size: " +:+ fmt_usize (lb_chunk_size b))
    else None in
  a ← Legacy_with_capacity self capacity;
  mret (a, msg).
End builder.
