(* ===== verification/LegacySafety.v ===== *)
(** * LegacySafety: what the legacy arena guarantees

    The allocations of src/legacy_arena.rs satisfy the interface of Objects.v
    under weaker conditions than those of arena.rs: zero-sized values are placed
    like any other, and a new chunk is sized by the request, so no size is refused
    as long as the system has memory.  Scopes restore the arena when their closure
    returns. *)
From S2P Require Import Prelude Memory Bump Chunk Slab ThreadLocal LockFree VirtualMemory Debug Inner InnerInv Objects Arena ArenaSafety ArenaCheckpoint Legacy.
Local Open Scope Z_scope.

(** ** Safety *)
Definition lw (s : LW) : IW := mkIW (la_inner (lw_arena s)) (lw_world s).
Definition Legacy_ok (s : LW) : Prop := Inner_wf (lw s).

Definition legacy_capacity (l : Layout) : Z := Z.max (2 * l_size l) MIN_CHUNK_SIZE.

(** The values the legacy arena serves: of any size that can be doubled, zero
    included, aligned to at most 64. *)
Definition LObj_ok (o : Obj) : Prop :=
  Layout_ok (o_layout o) ∧ 2 * l_size (o_layout o) ≤ ISIZE_MAX - 63 ∧
  Z.of_nat (length (o_value o)) = l_size (o_layout o) ∧ l_align (o_layout o) ≤ 64.

Definition Legacy_obj `{Cfg} `{GlobalAlloc} (o : Obj) : M LW Z := Legacy_alloc (o_layout o) (o_value o).
Definition Legacy_run `{Cfg} `{GlobalAlloc} (objs : list Obj) : M LW (list Z) := run_objs Legacy_obj objs.

(** It gives up only by panicking, and is left with a heap for which the system refuses
    the chunk it asked for. *)
Definition Legacy_fails `{GlobalAlloc} (o : Obj) (s : LW) (r : outcome unit) : Prop :=
  match r with
  | Panic _ => ga_alloc (heap (w_mem (lw_world s))) (mkLayout (align_to (legacy_capacity (o_layout o)) 64) 64) = None
  | _ => False
  end.

Section safety.
Context `{cfg : Cfg} {ga : GlobalAlloc} `{!GlobalAllocOk ga}.

Lemma with_new_allocated l c s :
  with_current (Chunk_set_used (Chunk_start l c + l_size l) c) (with_new c s) =
  mkIW (set_current_chunk (length (in_chunks (i_inner s)))
          (set_chunks (in_chunks (i_inner s) ++ [Chunk_set_used (Chunk_start l c + l_size l) c]) (i_inner s)))
    (i_world (with_new c s)).
Proof.
  unfold with_current, with_new. simpl. f_equal. f_equal.
  rewrite <- (Nat.add_0_r (length (in_chunks (i_inner s)))). by rewrite insert_app_r.
Qed.

(** [alloc_layout]: the current chunk, or a new one twice the size. *)
Lemma Legacy_alloc_layout_step l s :
  Inner_wf s → Layout_ok l → 2 * l_size l ≤ ISIZE_MAX - 63 →
  ∃ r s', Legacy_alloc_layout l s = (r, s') ∧
    match r with
    | Ok p => Step s s' ∧ Fresh (l_size l) s p s' ∧ (l_align l ≤ 64 → p `mod` l_align l = 0) ∧ Grows (i_inner s) (i_inner s')
    | Panic _ => s' = s ∧ ga_alloc (heap (s_mem s)) (mkLayout (align_to (legacy_capacity l) 64) 64) = None
    | _ => False
    end.
Proof.
  intros Hw Hl Hbig. destruct (current_chunk s Hw) as (c & Hc & Hcw). pose proof Hw as (_ & _ & _ & Hlt & _).
  pose proof Hl as (Hsz & _). unfold Legacy_alloc_layout, on_inner, in_world, w_on_mem. mrun. rewrite clamped_current by done.
  unfold vec_index. rewrite Hc. mrun. rewrite Chunk_allocate_eq by done. destruct (decide (Chunk_fits l c)) as [Hfit|Hfit].
  { mrun. eexists _, _. split; [reflexivity|]. destruct (chunk_alloc_step l s c Hw Hl Hc Hfit) as (? & ? & ?).
    splits; [done..|]. by apply (Grows_with_current c). }
  mrun. rewrite list_insert_id by done.
  assert (Z.max (saturating_mul (l_size l) 2) MIN_CHUNK_SIZE = legacy_capacity l) as ->
    by (unfold saturating_mul, legacy_capacity; rewrite Z.min_r by ulia; f_equal; lia).
  set (cap := legacy_capacity l). assert (0 < cap ≤ ISIZE_MAX - 63) as Hcap
    by (unfold cap, legacy_capacity, MIN_CHUNK_SIZE; ulia).
  unfold s_mem. destruct (Chunk_new_cases cap (w_mem (i_world s)) Hcap) as [[Hg ->]|(d & Hg & -> & Hdw & Hdu & Hdc & Hdd)].
  { mrun. eexists _, _. split; [reflexivity|]. split; [|done]. by destruct s as [[] []]. }
  mrun. rewrite Chunk_allocate_eq by done.
  assert (Chunk_fits l d) as Hfd.
  { apply Chunk_fits_fresh; [done|done|]. rewrite Hdc. pose proof (align_to_ge cap 64 ltac:(done)). unfold cap, legacy_capacity in *. lia. }
  rewrite decide_True by done. mrun. eexists _, _. split; [reflexivity|].
  pose proof (with_new_step d s Hw Hdw Hdd) as Hst1.
  destruct (chunk_alloc_step l (with_new d s) d (step_wf _ _ Hst1) Hl (with_new_current d s) Hfd) as (Hst2 & Hf2 & Hal).
  pose proof (Grows_trans _ _ _ (Grows_with_new d s) (Grows_with_current d (Chunk_set_used (Chunk_start l d + l_size l) d)
    (with_new d s) (with_new_current d s) (conj eq_refl eq_refl))) as Hg2.
  rewrite with_new_allocated in Hst2, Hf2, Hg2.
  match goal with |- Step _ ?x ∧ _ => assert (x = mkIW (set_current_chunk (length (in_chunks (i_inner s)))
          (set_chunks (in_chunks (i_inner s) ++ [Chunk_set_used (Chunk_start l d + l_size l) d]) (i_inner s)))
    (i_world (with_new d s))) as -> end.
  { unfold set_chunks, set_current_chunk, vec_push. simpl. rewrite length_app. simpl. by replace (_ + 1 - 1)%nat with (length (in_chunks (i_inner s))) by lia. }
  splits; [by eapply Step_trans|by eapply Fresh_pre|done|exact Hg2].
Qed.

Lemma Legacy_alloc_step o s :
  Legacy_ok s → LObj_ok o →
  ∃ r s', Legacy_alloc (o_layout o) (o_value o) s = (r, s') ∧
    match r with
    | Ok p => Step (lw s) (lw s') ∧ Fresh (l_size (o_layout o)) (lw s) p (lw s') ∧ obj_stored (s_mem (lw s')) (o, p) ∧
        Grows (la_inner (lw_arena s)) (la_inner (lw_arena s')) ∧
        la_allocation_counter (lw_arena s') = fetch_add (la_allocation_counter (lw_arena s)) 1
    | Panic e => Step (lw s) (lw s') ∧ Legacy_fails o s' (Panic e)
    | _ => False
    end.
Proof.
  intros Hok (Hl & Hbig & Hlen & Hal). unfold Legacy_alloc, l_inner, on_counter, l_on_mem. mrun. fold (lw s).
  destruct (Legacy_alloc_layout_step (o_layout o) (lw s) Hok Hl Hbig) as (r & x & E & Hr). rewrite E.
  destruct r as [p|e|e|e]; [| |done|done].
  2:{ destruct Hr as [-> Hg]. eexists _, _. split; [reflexivity|]. split; [by apply Step_refl|exact Hg]. }
  destruct Hr as (Hst & Hf & Ha & Hg). specialize (Ha Hal). destruct x as [i w].
  destruct (fresh_store o i p w Hlen (lw s) Hst Hf Ha) as (E2 & Hst2 & Hf2 & Hso).
  unfold l_inner, in_world, w_on_mem, ptr_write. rewrite Ha. mrun. rewrite E2. eexists _, _. split; [reflexivity|]. done.
Qed.

#[export] Instance Legacy_ArenaAlloc : ArenaAlloc lw Legacy_obj LObj_ok Legacy_fails.
Proof.
  split; [by intros o (_ & _ & ? & _)|]. intros o s Hok Ho. destruct (Legacy_alloc_step o s Hok Ho) as (r & s' & E & Hr).
  exists r, s'. split; [exact E|]. destruct r; try done. by destruct Hr as (? & ? & ? & _).
Qed.

(** An arena just created is well formed and owns only fresh memory. *)
Lemma Legacy_with_capacity_ok self cap w a w' :
  World_ok self w → 0 < cap ≤ ISIZE_MAX - 63 → Legacy_with_capacity self cap w = (Ok a, w') →
  let s := mkLW a w' in
  Legacy_ok s ∧ (∀ x, Inner_avail (lw s) x → not_live (w_mem w) x) ∧
  (∀ x, ¬ not_live (w_mem w) x → bytes (w_mem w') !! x = bytes (w_mem w) !! x).
Proof.
  intros Hw Hcap. unfold Legacy_with_capacity, mbind, M_bind.
  destruct (ArenaInner_new self cap w) as [[[i|e]|e|e|e] w1] eqn:E; [|done..]. intros [= <- <-].
  destruct (ArenaInner_new_wf self cap w i w1 Hw Hcap E) as (c & s0 & Hs0 & [Hwf Hav0 _ Hb] & Hav & _).
  cbv zeta. splits; [exact Hwf|by intros x Hx; apply Hav, Hav0|].
  intros x Hx. rewrite Hs0 in Hb. apply (Hb x). intros Hx'. apply Hx, Hav. by rewrite Hs0.
Qed.
End safety.

(** ** Scopes *)

(** Emptying the chunks behind the checkpoint and then setting its own is what
    [ArenaInner::rewind_to_checkpoint] does in one pass. *)
Lemma legacy_rewind_chunks cp cs c :
  cs !! cp_chunk_index cp = Some c →
  let cs' := imap (λ idx c, if (cp_chunk_index cp + 1 <=? idx)%nat then Chunk_reset c else c) cs in
  cs' !! cp_chunk_index cp = Some c ∧
  <[cp_chunk_index cp := Chunk_set_used (cp_chunk_offset cp) c]> cs' = imap (rewind_chunk cp) cs.
Proof.
  intros Hc cs'. assert (cs' !! cp_chunk_index cp = Some c) as Hc'.
  { unfold cs'. rewrite list_lookup_imap, Hc. simpl. by destruct (Nat.leb_spec (cp_chunk_index cp + 1) (cp_chunk_index cp)); [lia|]. }
  split; [done|]. apply list_eq. intros j. rewrite list_lookup_imap. destruct (decide (j = cp_chunk_index cp)) as [->|Hn].
  - rewrite list_lookup_insert_eq by (by apply lookup_lt_Some in Hc'). rewrite Hc. simpl. unfold rewind_chunk.
    by rewrite Nat.ltb_irrefl, Nat.eqb_refl.
  - rewrite list_lookup_insert_ne by done. unfold cs'. rewrite list_lookup_imap. destruct (cs !! j); [|done]. simpl. f_equal.
    unfold rewind_chunk. destruct (Nat.leb_spec (cp_chunk_index cp + 1) j), (Nat.ltb_spec j (cp_chunk_index cp)),
      (Nat.eqb_spec j (cp_chunk_index cp)); try lia; done.
Qed.

Lemma Legacy_rewind_eq cp s c :
  in_chunks (la_inner (lw_arena s)) !! cp_chunk_index cp = Some c →
  Legacy_rewind_to_checkpoint cp s =
    (Ok tt, mkLW (mkLegacyArena (set_current_chunk (cp_chunk_index cp)
       (set_chunks (imap (rewind_chunk cp) (in_chunks (la_inner (lw_arena s)))) (la_inner (lw_arena s))))
       (la_allocation_counter (lw_arena s))) (lw_world s)).
Proof.
  intros Hc. destruct (legacy_rewind_chunks cp _ c Hc) as [Hc' Hcs].
  unfold Legacy_rewind_to_checkpoint, l_inner, on_inner. mrun. unfold vec_index. simpl. rewrite Hc'. mrun. simpl.
  unfold set_chunks, set_current_chunk. simpl. by rewrite Hcs.
Qed.

(** ** Theorems *)

(** Memory safety of the legacy arena.  Created in any well-formed world and
    asked for any sequence of values, of any size whose double fits [isize], zero
    included, and aligned to at most 64: the objects are pairwise disjoint, none
    overlaps memory that was live before, each is aligned, in a live block and
    reads back as the value stored after the whole sequence, and no other byte of
    the program's memory changed.  The one other outcome is the panic when the
    global allocator, with the heap the program ended with, refuses a new chunk for
    one of the values. *)
Theorem legacy_allocs_safe `{cfg : Cfg} {ga : GlobalAlloc} `{!GlobalAllocOk ga} self cap w a w' objs :
  World_ok self w → 0 < cap ≤ ISIZE_MAX - 63 → Legacy_with_capacity self cap w = (Ok a, w') → Forall LObj_ok objs →
  ∃ r s', Legacy_run objs (mkLW a w') = (r, s') ∧
    match r with
    | Ok ps => length ps = length objs ∧ pw_disjoint (obj_range <$> zip objs ps) ∧
        Forall (λ op, ∀ x, x ∈ obj_range op → not_live (w_mem w) x) (zip objs ps) ∧
        Forall (obj_stored (w_mem (lw_world s'))) (zip objs ps) ∧
        (∀ x, ¬ not_live (w_mem w) x → bytes (w_mem (lw_world s')) !! x = bytes (w_mem w) !! x)
    | Panic _ => Step (lw (mkLW a w')) (lw s') ∧ ∃ o, o ∈ objs ∧
        ga_alloc (heap (w_mem (lw_world s'))) (mkLayout (align_to (legacy_capacity (o_layout o)) 64) 64) = None
    | _ => False
    end.
Proof.
  intros Hw Hcap Hnew Hobjs. destruct (Legacy_with_capacity_ok self cap w a w' Hw Hcap Hnew) as (Hok & Hav & Hbs).
  destruct (run_objs_safe lw Legacy_obj LObj_ok Legacy_fails (w_mem w) objs (mkLW a w') Hok Hobjs Hav Hbs) as (r & s' & E & Hr).
  exists r, s'. split; [exact E|]. destruct r as [ps|e|e|e]; [exact Hr|exact Hr| |]; by destruct Hr as (_ & ? & _ & ?).
Qed.

Definition demo_legacy : LW := mkLW (mkLegacyArena (a_inner demo_arena) 0) demo_world'.

Lemma legacy_allocs_safe_witness :
  let objs := [mkObj (mkLayout 0 8) []; mkObj (mkLayout 3 1) [5;6;7]; mkObj (mkLayout 200 64) (replicate 200 1)] in
  ∃ s', @Legacy_run cfg_release bump_alloc objs demo_legacy = (Ok [65600; 65600; 65728], s') ∧
    Forall (obj_stored (w_mem (lw_world s'))) (zip objs [65600; 65600; 65728]).
Proof.
  intros objs. destruct (@legacy_allocs_safe cfg_release bump_alloc bump_alloc_ok 100 100 demo_world
    (lw_arena demo_legacy) demo_world' objs) as (r & s' & E & Hr).
  - exact demo_world_ok.
  - ulia.
  - vm_compute. reflexivity.
  - repeat constructor; vm_compute; intuition discriminate.
  - assert (r = Ok [65600; 65600; 65728]) as ->.
    { change r with ((r, s').1). rewrite <- E. vm_compute. reflexivity. }
    exists s'. split; [exact E|]. by destruct Hr as (_ & _ & _ & ? & _).
Defined.

(** C27: what a legacy scope does at its end, for any closure.  If the closure returns
    and the chunk that was current before still exists, the chunks are those the closure
    left, rewound to the checkpoint taken before, the current chunk and the allocation
    counter are those of before and no byte changes; if the chunk is gone (the closure
    shrank the arena), the scope panics.  If the closure made the arena only grow
    ([Grows]: it allocated, and called no [reset]), the chunks and their fill are those of
    before, followed only by empty chunks.  If the closure panics, nothing is rewound:
    the arena is as the closure left it, although the README promises that scopes roll
    back even if the closure unwinds. *)
Theorem legacy_scope_spec {R} (f : M LW R) s o s2 :
  Legacy_ok s → tail_unused (la_inner (lw_arena s)) → f s = (o, s2) →
  let idx := in_current_chunk (la_inner (lw_arena s)) in
  match o with
  | Ok r =>
      (∀ c2, in_chunks (la_inner (lw_arena s2)) !! idx = Some c2 →
         ∃ cp s3, Legacy_checkpoint s = (Ok cp, s) ∧ Legacy_scope f s = (Ok r, s3) ∧
           in_chunks (la_inner (lw_arena s3)) = imap (rewind_chunk cp) (in_chunks (la_inner (lw_arena s2))) ∧
           in_current_chunk (la_inner (lw_arena s3)) = idx ∧
           la_allocation_counter (lw_arena s3) = la_allocation_counter (lw_arena s) ∧ w_mem (lw_world s3) = w_mem (lw_world s2) ∧
           (Grows (la_inner (lw_arena s)) (la_inner (lw_arena s2)) → ∃ extra,
              in_chunks (la_inner (lw_arena s3)) = in_chunks (la_inner (lw_arena s)) ++ extra ∧ Forall (λ c, c_used c = 0) extra)) ∧
      (Grows (la_inner (lw_arena s)) (la_inner (lw_arena s2)) → is_Some (in_chunks (la_inner (lw_arena s2)) !! idx)) ∧
      (in_chunks (la_inner (lw_arena s2)) !! idx = None → ∃ e s3, Legacy_scope f s = (Panic e, s3))
  | _ => Legacy_scope f s = (o, s2)
  end.
Proof.
  intros Hok Ht Ef idx. destruct (current_chunk (lw s) Hok) as (c & Hc & _). simpl in Hc.
  pose (cp := mkCheckpoint idx (c_used c) (in_current_checkpoint_id (la_inner (lw_arena s))) (la_allocation_counter (lw_arena s))).
  assert (Legacy_checkpoint s = (Ok cp, s)) as Ecp.
  { unfold Legacy_checkpoint. mrun. unfold vec_index. by rewrite Hc. }
  assert (Legacy_scope f s = match o with
    | Ok r => (_ ← Legacy_rewind_to_checkpoint cp; _ ← on_counter (λ _, la_allocation_counter (lw_arena s)); mret r) s2
    | Panic e => (Panic e, s2) | Abort e => (Abort e, s2) | UB e => (UB e, s2) end) as ->.
  { unfold Legacy_scope, mbind, M_bind. rewrite Ecp. simpl. by rewrite Ef. }
  destruct o as [r|e|e|e]; [|done..]. splits.
  - intros c2 Hc2. unfold mbind, M_bind. rewrite (Legacy_rewind_eq cp s2 c2 Hc2). eexists cp, _. split; [done|].
    split; [reflexivity|]. do 4 (split; [done|]). intros Hg. cbn [lw_arena la_inner in_chunks set_chunks set_current_chunk].
    rewrite (rewind_chunks_restored _ _ cp c Hg Ht Hc eq_refl eq_refl). eexists. split; [reflexivity|]. by apply Forall_fmap, Forall_true.
  - intros Hg. destruct (g_prefix _ _ Hg _ _ Hc) as (c2 & ? & _). by exists c2.
  - intros Hn. unfold Legacy_rewind_to_checkpoint, l_inner, on_inner. mrun. unfold vec_index. simpl.
    rewrite list_lookup_imap, Hn. simpl. by eexists _, _.
Qed.

(** A closure that returns and one that panics, both after an allocation. *)
Lemma legacy_scope_spec_witness :
  let alloc := @Legacy_alloc cfg_dev bump_alloc (mkLayout 4 4) [1;2;3;4] in
  (∃ s3 extra, Legacy_scope alloc demo_legacy = (Ok 65600, s3) ∧ in_chunks (la_inner (lw_arena s3)) = [demo_chunk] ++ extra ∧
     Forall (λ c, c_used c = 0) extra ∧ la_allocation_counter (lw_arena s3) = 0) ∧
  (∃ s2, Legacy_scope (_ ← alloc; lift (A := unit) (Panic "boom")) demo_legacy = (Panic "boom", s2) ∧
     (c_used <$> in_chunks (la_inner (lw_arena s2))) = [4] ∧ la_allocation_counter (lw_arena s2) = 1).
Proof.
  intros alloc.
  destruct (@Legacy_alloc_step cfg_dev bump_alloc bump_alloc_ok (mkObj (mkLayout 4 4) [1;2;3;4]) demo_legacy)
    as (r & s1 & E & Hr); [exact demo_ok|repeat constructor; vm_compute; intuition discriminate|].
  cbn [o_layout o_value] in E. fold alloc in E.
  assert (r = Ok 65600) as -> by (change r with ((r, s1).1); rewrite <- E; vm_compute; reflexivity).
  destruct Hr as (_ & _ & _ & Hg & _).
  assert (tail_unused (la_inner (lw_arena demo_legacy))) as Ht by (intros [|[|j]] c Hj Hc; simpl in *; [lia|done|done]).
  split.
  - destruct (@legacy_scope_spec Z alloc demo_legacy (Ok 65600) s1 demo_ok Ht E) as (H1 & H2 & _).
    destruct (H2 Hg) as [c2 Hc2]. destruct (H1 c2 Hc2) as (cp & s3 & _ & Es & _ & _ & Hn & _ & Hgr).
    destruct (Hgr Hg) as (extra & Hcs & He). exists s3, extra. split; [exact Es|]. split; [exact Hcs|]. split; [exact He|exact Hn].
  - exists s1. split.
    + refine (@legacy_scope_spec unit _ demo_legacy (Panic "boom") s1 demo_ok Ht _). unfold mbind, M_bind. by rewrite E.
    + change s1 with ((Ok 65600, s1).2). rewrite <- E. split; vm_compute; reflexivity.
Defined.

(** A safe call of the legacy arena reaches undefined behaviour in a release
    build.  [alloc_slice_uninit::<u8>(isize::MAX)] asks for a new chunk of twice
    the size; rounding it up wraps to zero and the global allocator is called with
    a zero-sized layout.  A build with overflow checks panics instead. *)
Theorem legacy_huge_slice :
  (@Legacy_alloc_slice_uninit cfg_release bump_alloc (mkLayout 1 1) ISIZE_MAX demo_legacy).1 = UB "alloc: zero-sized layout" ∧
  (@Legacy_alloc_slice_uninit cfg_dev bump_alloc (mkLayout 1 1) ISIZE_MAX demo_legacy).1 =
    Panic "attempt to add with overflow".
Proof. split; vm_compute; reflexivity. Qed.
