(* ===== verification/LegacyRegion.v ===== *)
(** * LegacyRegion: the legacy arena implements regions

    The arena of src/legacy_arena.rs meets the interface of Region.v as the one of
    arena.rs does, in every build.  It has no method that pops a checkpoint, and
    rewinding does not shorten its stack, so the stack is not part of the relation. *)
From S2P Require Import Prelude Memory Bump Chunk Slab ThreadLocal LockFree VirtualMemory Debug Inner InnerInv Objects Arena ArenaSafety ArenaCheckpoint Region ArenaRelease Legacy LegacySafety.
Local Open Scope Z_scope.

(** ** The methods; popping is not one of them *)
Definition Legacy_call `{Cfg} `{GlobalAlloc} (r : Region) (c : RegionCall) : M LW Reply :=
  match c with
  | RAlloc o => p ← Legacy_alloc (o_layout o) (o_value o); mret (Address p)
  | RCheckpoint => cp ← Legacy_checkpoint; mret (Checkpoint cp)
  | RRewind k =>
      match rg_marks r !! k with
      | Some m => _ ← Legacy_rewind_to_checkpoint (mk_cp m); mret Done
      | None => mret Done
      end
  | RPush => cp ← Legacy_push_checkpoint; mret (Checkpoint cp)
  | RPop => lift (UB "not a method of the legacy arena")
  | RClear => _ ← Legacy_clear_checkpoints; mret Done
  | RReset => _ ← Legacy_reset; mret Done
  | RShrink => _ ← Legacy_reset_and_shrink_to_fit; mret Done
  end.
Definition legacy_call_ok (c : RegionCall) : Prop :=
  match c with RAlloc o => LObj_ok o | RPop => False | _ => True end.

(** ** Resetting *)
Definition Legacy_empties (m : M LW unit) : Prop := m = Legacy_reset ∨ m = Legacy_reset_and_shrink_to_fit.

Lemma Legacy_reset_wf s : Legacy_ok s →
  ∃ s', Legacy_reset s = (Ok tt, s') ∧ Legacy_ok s' ∧
    in_chunks (la_inner (lw_arena s')) = Chunk_reset <$> in_chunks (la_inner (lw_arena s)) ∧
    lw_world s' = lw_world s ∧ la_allocation_counter (lw_arena s') = 0 ∧
    in_current_checkpoint_id (la_inner (lw_arena s')) = in_current_checkpoint_id (la_inner (lw_arena s)).
Proof.
  intros Hok. pose proof Hok as (Hm & Hsub & Hf & Hcur & _ & Htc). eexists. split; [reflexivity|]. split; [|done].
  apply (chunks_replaced (lw s) (Chunk_reset <$> in_chunks (la_inner (lw_arena s))) (w_mem (lw_world s))); try done.
  - apply Forall_fmap. eapply Forall_impl; [exact Hf|]. intros c. apply Chunk_reset_wf.
  - intros [=E]%(f_equal length). rewrite length_fmap in E. simpl in *. lia.
  - rewrite Chunk_reset_blocks. exact Hsub.
Qed.

Lemma Legacy_shrink_wf s : Legacy_ok s →
  ∃ c rest s', in_chunks (la_inner (lw_arena s)) = c :: rest ∧ Legacy_reset_and_shrink_to_fit s = (Ok tt, s') ∧ Legacy_ok s' ∧
    in_chunks (la_inner (lw_arena s')) = [Chunk_reset c] ∧
    heap (w_mem (lw_world s)) ≡ₚ (Chunk_block <$> rest) ++ heap (w_mem (lw_world s')) ∧
    la_allocation_counter (lw_arena s') = 0 ∧
    in_current_checkpoint_id (la_inner (lw_arena s')) = in_current_checkpoint_id (la_inner (lw_arena s)).
Proof.
  intros Hok. pose proof Hok as (Hm & Hsub & Hf & Hcur & _ & Htc). unfold lw in *. cbn [i_inner i_world] in *.
  destruct (in_chunks (la_inner (lw_arena s))) as [|c rest] eqn:Hcs; [simpl in Hcur; lia|].
  apply Forall_cons in Hf as [Hc Hf]. unfold Inner_blocks in Hsub. rewrite Hcs in Hsub. simpl in Hsub.
  destruct (drop_chunks_spec (Chunk_reset <$> rest) (w_mem (lw_world s))) as (m' & E & Hp & Hb).
  { apply Forall_fmap. eapply Forall_impl; [exact Hf|]. intros d. apply Chunk_reset_wf. }
  { rewrite Chunk_reset_blocks. etrans; [|exact Hsub]. apply submseteq_cons, submseteq_inserts_r. done. }
  rewrite Chunk_reset_blocks in Hp.
  assert (∀ i w, w_mem w = m' → w_slab w = w_slab (lw_world s) → w_cache w = w_cache (lw_world s) → in_chunks i = [Chunk_reset c] →
    in_current_chunk i = 0%nat → in_lockfree_buffer i = in_lockfree_buffer (la_inner (lw_arena s)) → Inner_wf (mkIW i w)) as Hwf.
  { intros i w Hwm Hws Hwc Hi1 Hi2 Hi3.
    apply (chunks_replaced (lw s) [Chunk_reset c] m'); try done; [by constructor; [apply Chunk_reset_wf|]| | |by rewrite Hwc].
    - apply (submseteq_app_inv_l _ _ (Chunk_block <$> rest)). simpl. rewrite <- Hp.
      etrans; [|exact Hsub]. apply Permutation_submseteq. solve_Permutation.
    - unfold s_mem, lw. simpl. rewrite Hp. apply submseteq_inserts_l. done. }
  exists c, rest. unfold Legacy_reset_and_shrink_to_fit, l_on_mem, l_inner, in_world, w_on_mem, on_inner, on_counter. mrun. rewrite Hcs.
  destruct rest as [|c2 rest]; cbn [fmap list_fmap length Nat.ltb Nat.leb drop take] in *.
  - simpl in E. injection E as <-. mrun. eexists. split; [done|]. split; [reflexivity|].
    split; [by apply Hwf|]. simpl. by rewrite ?Hcs.
  - mrun. simpl. rewrite E. eexists. split; [done|]. split; [reflexivity|]. split; [by apply Hwf|]. simpl. done.
Qed.

Section legacy.
Context `{cfg : Cfg} {ga : GlobalAlloc} `{!GlobalAllocOk ga}.

Lemma Legacy_checkpoint_eq s : Legacy_ok s → ∃ cp, Legacy_checkpoint s = (Ok cp, s) ∧ cp_now cp (lw s).
Proof.
  intros Hok. destruct (current_chunk (lw s) Hok) as (c & Hc & _). simpl in Hc. unfold Legacy_checkpoint. mrun.
  unfold vec_index. rewrite Hc. eexists. split; [reflexivity|]. split; [done|]. by exists c.
Qed.

Lemma Legacy_rewound cp s :
  Legacy_ok s → cp_valid cp (in_chunks (la_inner (lw_arena s))) →
  ∃ s', Legacy_rewind_to_checkpoint cp s = (Ok tt, s') ∧ Rewound cp (lw s) (lw s') ∧
    in_current_checkpoint_id (la_inner (lw_arena s')) = in_current_checkpoint_id (la_inner (lw_arena s)).
Proof.
  intros Hok Hv. pose proof Hv as (c & Hc & _). rewrite (Legacy_rewind_eq cp s c Hc). eexists. split; [reflexivity|]. split; [|done].
  split; try done. pose proof Hok as (Hm & Hsub & Hf & Hlt & Hlf & Htc). unfold Inner_wf, Inner_blocks, lw in *. simpl in *.
  rewrite rewind_blocks. splits; try done; [by apply rewind_chunk_wf|]. rewrite length_imap. by eapply lookup_lt_Some.
Qed.

#[export] Instance Legacy_RegionArena :
  RegionArena lw Legacy_obj LObj_ok Legacy_fails Legacy_checkpoint Legacy_rewind_to_checkpoint Legacy_empties.
Proof.
  split.
  - apply _.
  - intros o s p s' Hok Ho E. destruct (Legacy_alloc_step o s Hok Ho) as (r & s1 & E1 & Hr). unfold Legacy_obj in E. rewrite E in E1.
    injection E1 as <- <-. by destruct Hr as (_ & _ & _ & ? & _).
  - intros s Hok. destruct (Legacy_checkpoint_eq s Hok) as (cp & E & Hcp). eexists _, s. split; [exact E|]. by split; [constructor|].
  - intros cp s Hok Hv. destruct (Legacy_rewound cp s Hok Hv) as (s' & E & Hr & _). by exists s'.
  - intros m s [->| ->] Hok.
    + destruct (Legacy_reset_wf s Hok) as (s' & E & Hok' & _). by exists s'.
    + destruct (Legacy_shrink_wf s Hok) as (c & rest & s' & _ & E & Hok' & _). by exists s'.
Qed.
(** A program ends early in a state in which the system refuses a chunk, or in which the
    counter of pushed checkpoints is exhausted. *)
Definition Legacy_ends (c : RegionCall) (s : LW) (x : outcome unit) : Prop :=
  match x with
  | Panic _ => Legacy_ok s ∧ ((∃ o, c = RAlloc o ∧ Legacy_fails o s x) ∨
      (c = RPush ∧ ¬ 0 ≤ in_current_checkpoint_id (la_inner (lw_arena s)) + 1 < USIZE_MOD))
  | _ => False
  end.

Definition legacy_post (c : RegionCall) (r : Region) (s : LW) (x : outcome Reply) (s' : LW) : Prop :=
  match x with
  | Ok y => ∃ r', region_next c y r = Some r' ∧ Region_rel r' (lw s')
  | Panic _ => (∃ r', region_next c Panicked r = Some r' ∧ Region_rel r' (lw s')) ∨
      (region_next c Panicked r = None ∧ Legacy_ends c s' (void x))
  | _ => Legacy_ends c s' (void x)
  end.

Lemma legacy_alloc_call o r s :
  Region_rel r (lw s) → LObj_ok o → ∃ x s', Legacy_call r (RAlloc o) s = (x, s') ∧ legacy_post (RAlloc o) r s x s'.
Proof.
  intros Hr Ho. destruct (region_alloc_step o r s Hr Ho) as (x & s' & E & Hx). cbn [Legacy_call].
  unfold Legacy_obj in E. unfold mbind, M_bind. rewrite E.
  destruct x as [p|e|e|e]; (eexists _, s'; split; [reflexivity|]); [|destruct Hx as [Hst Hf]; right; split; [done|]; split; [exact (step_wf _ _ Hst)|left; by exists o]|by destruct Hx..].
  exists (region_alloc o p r). split; [|exact Hx]. by apply region_alloc_allowed in Hx.
Qed.

Lemma legacy_push_call r s : Region_rel r (lw s) → ∃ x s', Legacy_call r RPush s = (x, s') ∧ legacy_post RPush r s x s'.
Proof.
  intros Hr. destruct (Legacy_checkpoint_eq s (rel_wf _ _ Hr)) as (cp & E & Hcp). cbn [Legacy_call].
  unfold Legacy_push_checkpoint, l_inner, on_inner. mrun. rewrite E. mrun. simpl.
  unfold usize_add, usize_op. destruct (decide (0 ≤ in_current_checkpoint_id (la_inner (lw_arena s)) + 1 < USIZE_MOD)) as [Hb|Hb].
  all: repeat case_match; simplify_eq/=; try (exfalso; lia).
  all: eexists _, _; (split; [reflexivity|]); try (right; split; [done|]; split; [exact (rel_wf _ _ Hr)|by right]).
  all: eexists; (split; [reflexivity|]); apply (region_same_view _ (lw s)); [by constructor|]; by apply region_mark_rel.
Qed.

Lemma legacy_call_step c r s :
  Region_rel r (lw s) → legacy_call_ok c → ∃ x s', Legacy_call r c s = (x, s') ∧ legacy_post c r s x s'.
Proof.
  intros Hr Hc. destruct c as [o| |k| | | | |].
  - by apply legacy_alloc_call.
  - destruct (region_checkpoint_step false r s Hr) as (x & s' & E & Hx). destruct (Legacy_checkpoint_eq s (rel_wf _ _ Hr)) as (cp & E' & _).
    rewrite E in E'. injection E' as -> ->. cbn [Legacy_call]. unfold mbind, M_bind. rewrite E. eexists _, s. split; [reflexivity|].
    eexists. split; [reflexivity|exact (proj1 Hx)].
  - cbn [Legacy_call]. destruct (rg_marks r !! k) as [m|] eqn:Hk.
    + destruct (region_rewind_step r k m [unpushed m] s Hr Hk) as (s' & E & Hr'); [by right|]. unfold mbind, M_bind. rewrite E.
      eexists _, s'. split; [reflexivity|]. eexists. cbn [region_next]. rewrite Hk. by split.
    + eexists _, s. split; [reflexivity|]. exists r. cbn [region_next]. by rewrite Hk.
  - by apply legacy_push_call.
  - done.
  - eexists _, _. split; [reflexivity|]. eexists. split; [reflexivity|]. apply (region_same_view _ (lw s)); [by constructor|].
    apply region_same_marks; [|done]. by rewrite <- list_fmap_compose.
  - destruct (region_empty_step Legacy_reset r s) as (s' & E & Hr'); [by left|done|]. cbn [Legacy_call]. unfold mbind, M_bind. rewrite E.
    eexists _, s'. split; [reflexivity|]. by eexists.
  - destruct (region_empty_step Legacy_reset_and_shrink_to_fit r s) as (s' & E & Hr'); [by right|done|]. cbn [Legacy_call].
    unfold mbind, M_bind. rewrite E. eexists _, s'. split; [reflexivity|]. by eexists.
Qed.
End legacy.

(** C26: the legacy arena refines the abstract region, in every build.  Any sequence of
    allocations (zero-sized values included), checkpoints, rewinds to checkpoints the
    program holds, resets and shrinking: every reply is one the specification allows,
    and after every call the live objects of the region are in live memory, aligned,
    pairwise disjoint and hold the values they were given.  The program ends early
    only by the panic of a request for which the system has no memory, or of pushing
    the 2^64th checkpoint, as the state it ended in shows.  Values are aligned to at
    most 64 bytes and of a size whose double fits [isize]. *)
Theorem legacy_refines_region `{cfg : Cfg} {ga : GlobalAlloc} `{!GlobalAllocOk ga} calls r s :
  Region_rel r (lw s) → Forall legacy_call_ok calls →
  ∃ x s', run_region Legacy_call calls r s = (x, s') ∧
    match x with
    | Ok r' => Region_rel r' (lw s')
    | Panic e => ∃ c, c ∈ calls ∧ Legacy_ends c s' (Panic e)
    | _ => False
    end.
Proof.
  intros Hr Hcs. destruct (run_region_rel Legacy_call (λ _ r s, Region_rel r (lw s)) legacy_call_ok Legacy_ends calls r s)
    as (x & s' & E & Hx); [by intros _; apply legacy_call_step|done|done|].
  exists x, s'. split; [exact E|]. destruct x as [r'|e|e|e]; [done|..]; destruct Hx as (c & Hin & He); try done. by exists c.
Qed.

(** A zero-sized value, two chunks, and a rewind past both. *)
Lemma legacy_refines_region_witness :
  let v n x := mkObj (mkLayout n 8) (replicate (Z.to_nat n) x) in
  let calls := [RAlloc (v 0 0); RAlloc (v 16 1); RCheckpoint; RAlloc (v 200 2); RPush; RAlloc (v 8 3); RRewind 0; RAlloc (v 24 5)] in
  ∃ r s', run_region (@Legacy_call cfg_dev bump_alloc) calls region_empty demo_legacy = (Ok r, s') ∧
    Region_rel r (lw s') ∧ rg_live r = [(v 0 0, 65600); (v 16 1, 65600); (v 24 5, 65616)].
Proof.
  intros v calls. destruct (@legacy_refines_region cfg_dev bump_alloc bump_alloc_ok calls region_empty demo_legacy) as (x & s' & E & Hx).
  - apply region_empty_rel. exact demo_ok.
  - repeat constructor; vm_compute; intuition discriminate.
  - assert (∃ r, x = Ok r ∧ rg_live r = [(v 0 0, 65600); (v 16 1, 65600); (v 24 5, 65616)]) as (r & -> & Hl)
      by (change x with ((x, s').1); rewrite <- E; vm_compute; eexists; split; reflexivity).
    exists r, s'. split; [exact E|]. split; [exact Hx|exact Hl].
Defined.
