(* ===== verification/ExprGrammar.v ===== *)
(** * ExprGrammar: arithmetic expressions, as a grammar and as a reference parser

    The language that examples/parser_expr.rs reads: numbers, the four operators
    with the usual precedence and left association, parentheses, blanks.  [derives]
    is the grammar; [ref_add] is a recursive-descent parser on byte lists that
    returns trees.  They are proved equivalent; ParserExpr.v shows that the parser
    of the example, which builds its tree in an arena, does what [ref_add] does. *)
From S2P Require Import Prelude.
Local Open Scope Z_scope.

Inductive Expr :=
  | ENumber (n : Z)
  | EBinary (op : Z) (left right : Expr).

Definition I64_MAX : Z := 9223372036854775807.

(** ** Bytes *)
Definition is_ws (c : Z) : bool := (c =? 32) || (c =? 9) || (c =? 10).
Definition is_digit (c : Z) : bool := (48 <=? c) && (c <=? 57).
Definition is_mul (c : Z) : bool := (c =? 42) || (c =? 47).
Definition is_add (c : Z) : bool := (c =? 43) || (c =? 45).

Definition blanks (w : list Z) : Prop := Forall (λ c, is_ws c = true) w.
Definition digits (ds : list Z) : Prop := Forall (λ c, is_digit c = true) ds.
Definition value (ds : list Z) : Z := foldl (λ v d, v * 10 + (d - 48)) 0 ds.

Fixpoint drop_ws (s : list Z) : list Z :=
  match s with
  | c :: s' => if is_ws c then drop_ws s' else s
  | [] => []
  end.
Fixpoint span_digits (s : list Z) : list Z * list Z :=
  match s with
  | c :: s' => if is_digit c then let '(ds, r) := span_digits s' in (c :: ds, r) else ([], s)
  | [] => ([], [])
  end.

(** ** The grammar *)
Inductive level := LPrimary | LMul | LAdd.

Inductive derives : level → list Z → Expr → Prop :=
  | d_number w ds :
      blanks w → digits ds → ds ≠ [] → value ds ≤ I64_MAX → derives LPrimary (w ++ ds) (ENumber (value ds))
  | d_paren w s w' e :
      blanks w → derives LAdd s e → blanks w' → derives LPrimary (w ++ 40 :: s ++ w' ++ [41]) e
  | d_mul_one s e : derives LPrimary s e → derives LMul s e
  | d_mul s e w op s' e' :
      derives LMul s e → blanks w → is_mul op = true → derives LPrimary s' e' →
      derives LMul (s ++ w ++ op :: s') (EBinary op e e')
  | d_add_one s e : derives LMul s e → derives LAdd s e
  | d_add s e w op s' e' :
      derives LAdd s e → blanks w → is_add op = true → derives LMul s' e' →
      derives LAdd (s ++ w ++ op :: s') (EBinary op e e').

(** ** The reference parser

    [fuel] bounds the recursion; every call consumes a byte first, so any fuel above
    the length of the input is enough. *)
Definition out_of_fuel : string := "fuel exhausted".
Definition Parse : Type := list Z → outcome (Expr * list Z).

Fixpoint ref_loop (fuel : nat) (is_op : Z → bool) (operand : Parse) (e : Expr) (s : list Z) : outcome (Expr * list Z) :=
  match fuel with
  | O => Panic out_of_fuel
  | S fuel =>
      match drop_ws s with
      | c :: s1 =>
          if is_op c then '(r, s2) ← operand s1; ref_loop fuel is_op operand (EBinary c e r) s2
          else Ok (e, c :: s1)
      | [] => Ok (e, [])
      end
  end.
Definition ref_chain (fuel : nat) (is_op : Z → bool) (operand : Parse) : Parse := λ s,
  '(e, s) ← operand s; ref_loop fuel is_op operand e s.

Definition ref_number : Parse := λ s,
  let '(ds, rest) := span_digits s in
  if value ds <=? I64_MAX then Ok (ENumber (value ds), rest) else Panic "ParseIntError { kind: PosOverflow }".

Fixpoint ref_primary (fuel : nat) : Parse := λ s,
  match fuel with
  | O => Panic out_of_fuel
  | S fuel =>
      match drop_ws s with
      | c :: s1 =>
          if is_digit c then ref_number (c :: s1)
          else if c =? 40 then
            '(e, s2) ← ref_chain fuel is_add (ref_chain fuel is_mul (ref_primary fuel)) s1;
            match drop_ws s2 with
            | 41 :: s3 => Ok (e, s3)
            | _ => Panic "expected ')'"
            end
          else Panic "unexpected character in input"
      | [] => Panic "unexpected character in input"
      end
  end.
Definition ref_mul (fuel : nat) : Parse := ref_chain fuel is_mul (ref_primary fuel).
Definition ref_add (fuel : nat) : Parse := ref_chain fuel is_add (ref_mul fuel).

(** A whole input, blanks at its end included. *)
Definition ref_parse (s : list Z) : outcome (Expr * list Z) := ref_add (S (length s)) s.

(** ** Lexical lemmas *)
Lemma drop_ws_split s : ∃ w, blanks w ∧ s = w ++ drop_ws s.
Proof.
  assert (blanks []) by constructor.
  induction s as [|c s (w & Hw & IH)]; [by exists []|]. simpl. destruct (is_ws c) eqn:Hc; [|by exists []].
  exists (c :: w). split; [by constructor|]. simpl. by rewrite <- IH.
Qed.
Lemma drop_ws_head s c s' : drop_ws s = c :: s' → is_ws c = false.
Proof. induction s as [|d s IH]; simpl; [done|]. destruct (is_ws d) eqn:Hd; [done|]. by intros [= -> _]. Qed.
Lemma drop_ws_app w s : blanks w → drop_ws (w ++ s) = drop_ws s.
Proof. induction 1 as [|c w Hc _ IH]; simpl; [done|]. by rewrite Hc. Qed.
Lemma drop_ws_nonblank c s : is_ws c = false → drop_ws (c :: s) = c :: s.
Proof. intros Hc. simpl. by rewrite Hc. Qed.
Lemma drop_ws_idem s : drop_ws (drop_ws s) = drop_ws s.
Proof. destruct (drop_ws s) as [|c s'] eqn:E; [done|]. apply drop_ws_nonblank. by eapply drop_ws_head. Qed.
Lemma drop_ws_length s : (length (drop_ws s) ≤ length s)%nat.
Proof. destruct (drop_ws_split s) as (w & _ & E). rewrite E at 2. rewrite length_app. lia. Qed.

Lemma span_digits_spec s ds r :
  span_digits s = (ds, r) → s = ds ++ r ∧ digits ds ∧ (∀ c r', r = c :: r' → is_digit c = false).
Proof.
  revert ds r. induction s as [|c s IH]; intros ds r; simpl; [intros [= <- <-]; by repeat constructor|].
  destruct (is_digit c) eqn:Hc.
  - destruct (span_digits s) as [ds1 r1]. intros [= <- <-]. destruct (IH ds1 r1 eq_refl) as (-> & Hd & Hr).
    split; [done|]. split; [by constructor|done].
  - intros [= <- <-]. split; [done|]. split; [constructor|]. intros c' r' [= -> _]. done.
Qed.

(** The next byte is none of those that would continue a number. *)
Definition no_digit (s : list Z) : Prop := match s with c :: _ => is_digit c = false | [] => True end.
(** The next byte after blanks is not an operator of [is_op]. *)
Definition no_op (is_op : Z → bool) (s : list Z) : Prop := match drop_ws s with c :: _ => is_op c = false | [] => True end.

Lemma span_digits_app ds r : digits ds → no_digit r → span_digits (ds ++ r) = (ds, r).
Proof.
  intros Hd Hr. induction Hd as [|c ds Hc _ IH]; simpl.
  - destruct r as [|c r]; [done|]. simpl in *. by rewrite Hr.
  - by rewrite Hc, IH.
Qed.

Lemma ws_byte c : is_ws c = true → is_digit c = false ∧ is_mul c = false ∧ is_add c = false ∧ c ≠ 40 ∧ c ≠ 41.
Proof. unfold is_ws, is_digit, is_mul, is_add. rewrite !orb_true_iff, !Z.eqb_eq. intros [[-> | ->]| ->]; done. Qed.
Lemma op_byte c : is_mul c = true ∨ is_add c = true → is_ws c = false ∧ is_digit c = false ∧ c ≠ 40 ∧ c ≠ 41.
Proof. unfold is_ws, is_digit, is_mul, is_add. rewrite !orb_true_iff, !Z.eqb_eq. intros [[-> | ->]|[-> | ->]]; done. Qed.
Lemma mul_not_add c : is_add c = true → is_mul c = false.
Proof. unfold is_mul, is_add. rewrite orb_true_iff, !Z.eqb_eq. intros [-> | ->]; done. Qed.
Lemma digit_byte c : is_digit c = true → is_ws c = false.
Proof. intros Hd. destruct (is_ws c) eqn:Hw; [|done]. apply ws_byte in Hw as [? _]. congruence. Qed.

Lemma no_digit_blanks w s : blanks w → no_digit s → no_digit (w ++ s).
Proof. intros [|c w' Hc _] Hs; simpl; [done|]. by apply ws_byte in Hc as [? _]. Qed.
Lemma no_op_blanks is_op w s : blanks w → no_op is_op (w ++ s) ↔ no_op is_op s.
Proof. intros Hw. unfold no_op. by rewrite drop_ws_app. Qed.

(** ** Termination: enough fuel *)
Definition shrinks (P : Parse) : Prop := ∀ s e s', P s = Ok (e, s') → (length s' < length s)%nat.
(** Two parsers agree, or one never runs out of fuel, on inputs shorter than [n]. *)
Definition agree (n : nat) (P Q : Parse) : Prop := ∀ s, (length s < n)%nat → P s = Q s.
Definition fuelled (n : nat) (P : Parse) : Prop := ∀ s, (length s < n)%nat → P s ≠ Panic out_of_fuel.

Lemma ref_loop_le f is_op P e s e' s' :
  shrinks P → ref_loop f is_op P e s = Ok (e', s') → (length s' ≤ length s)%nat.
Proof.
  intros HP. revert e s. induction f as [|f IH]; intros e s; simpl; [done|].
  pose proof (drop_ws_length s) as Hd. destruct (drop_ws s) as [|c s1]; simpl in Hd; [intros [= _ <-]; simpl; lia|].
  destruct (is_op c); [|intros [= _ <-]; simpl; lia].
  destruct (P s1) as [[r s2]|?|?|?] eqn:E; try done. intros H%IH. apply HP in E. lia.
Qed.
Lemma ref_chain_shrinks f is_op P : shrinks P → shrinks (ref_chain f is_op P).
Proof.
  intros HP s e s'. unfold ref_chain. destruct (P s) as [[e1 s1]|?|?|?] eqn:E; try done. simpl.
  intros H%ref_loop_le; [|done]. apply HP in E. lia.
Qed.
Lemma ref_number_shrinks c s e s' : is_digit c = true → ref_number (c :: s) = Ok (e, s') → (length s' ≤ length s)%nat.
Proof.
  intros Hc. unfold ref_number. destruct (span_digits (c :: s)) as [ds r] eqn:E. apply span_digits_spec in E as (Es & _ & Hr).
  destruct (value ds <=? I64_MAX); [|done]. intros [= _ <-]. destruct ds as [|d ds]; simpl in Es.
  - exfalso. specialize (Hr c s (eq_sym Es)). congruence.
  - injection Es as _ ->. rewrite length_app. lia.
Qed.
Lemma ref_primary_shrinks f : shrinks (ref_primary f).
Proof.
  induction f as [|f IH]; intros s e s'; simpl; [done|].
  pose proof (drop_ws_length s) as Hd. destruct (drop_ws s) as [|c s1]; [done|]. simpl in Hd.
  destruct (is_digit c) eqn:Hc; [intros H%ref_number_shrinks; [lia|done]|]. destruct (c =? 40); [|done].
  destruct (ref_chain _ _ _ s1) as [[e1 s2]|?|?|?] eqn:E; try done. simpl.
  apply ref_chain_shrinks in E; [|by apply ref_chain_shrinks]. pose proof (drop_ws_length s2) as Hd2.
  destruct (drop_ws s2) as [|x s3]; [done|]. simpl in Hd2. intros H.
  assert (s' = s3) as -> by (repeat case_match; by simplify_eq). lia.
Qed.
Lemma ref_mul_shrinks f : shrinks (ref_mul f).
Proof. apply ref_chain_shrinks, ref_primary_shrinks. Qed.

Lemma ref_loop_agree n f f' is_op P Q e s :
  shrinks P → agree n P Q → (length s ≤ n)%nat → (length s < f)%nat → (length s < f')%nat →
  ref_loop f is_op P e s = ref_loop f' is_op Q e s.
Proof.
  intros HP HPQ. revert f' e s. induction f as [|f IH]; intros [|f'] e s Hn Hf Hf'; [lia..|]. simpl.
  pose proof (drop_ws_length s) as Hd. destruct (drop_ws s) as [|c s1]; [done|]. simpl in Hd.
  destruct (is_op c); [|done]. rewrite <- (HPQ s1) by lia.
  destruct (P s1) as [[r s2]|?|?|?] eqn:E; try done. simpl. apply HP in E. apply IH; lia.
Qed.
Lemma ref_chain_agree n f f' is_op P Q :
  shrinks P → agree n P Q → (n ≤ f)%nat → (n ≤ f')%nat → agree n (ref_chain f is_op P) (ref_chain f' is_op Q).
Proof.
  intros HP HPQ Hf Hf' s Hs. unfold ref_chain. rewrite <- (HPQ s Hs).
  destruct (P s) as [[e s1]|?|?|?] eqn:E; try done. simpl. apply HP in E. apply (ref_loop_agree n); (done || lia).
Qed.
Lemma ref_primary_agree n f f' : (n ≤ f)%nat → (n ≤ f')%nat → agree n (ref_primary f) (ref_primary f').
Proof.
  revert f f'. induction n as [|n IH]; intros [|f] [|f'] Hf Hf' s Hs; try lia. simpl.
  pose proof (drop_ws_length s) as Hd. destruct (drop_ws s) as [|c s1]; [done|]. simpl in Hd.
  destruct (is_digit c); [done|]. destruct (c =? 40); [|done].
  assert (agree n (ref_chain f is_add (ref_chain f is_mul (ref_primary f)))
    (ref_chain f' is_add (ref_chain f' is_mul (ref_primary f')))) as Ha.
  { apply ref_chain_agree; [apply ref_chain_shrinks, ref_primary_shrinks| |lia|lia].
    apply ref_chain_agree; [apply ref_primary_shrinks|apply IH; lia|lia|lia]. }
  by rewrite Ha by lia.
Qed.
Lemma ref_add_agree n f f' : (n ≤ f)%nat → (n ≤ f')%nat → agree n (ref_add f) (ref_add f').
Proof.
  intros Hf Hf'. apply ref_chain_agree; [apply ref_mul_shrinks| |done|done].
  apply ref_chain_agree; [apply ref_primary_shrinks|by apply ref_primary_agree|done|done].
Qed.

Lemma ref_chain_fuelled n f is_op P : shrinks P → fuelled n P → (n ≤ f)%nat → fuelled n (ref_chain f is_op P).
Proof.
  intros HP HF Hf s Hs. unfold ref_chain. specialize (HF s Hs) as H0. destruct (P s) as [[e s1]|m|?|?] eqn:E; try done. simpl.
  apply HP in E. assert (length s1 < n)%nat as Hs1 by lia. assert (length s1 < f)%nat as Hf1 by lia. clear E H0 Hs Hf.
  revert e s1 Hs1 Hf1. induction f as [|f IH]; intros e s1 Hs1 Hf1; [lia|]. simpl.
  pose proof (drop_ws_length s1) as Hd. destruct (drop_ws s1) as [|c s2]; [done|]. simpl in Hd.
  destruct (is_op c); [|done]. assert (length s2 < n)%nat as Hs2 by lia. specialize (HF s2 Hs2) as H0.
  destruct (P s2) as [[r s3]|?|?|?] eqn:E; try done. simpl. apply HP in E. apply IH; lia.
Qed.
Lemma ref_primary_fuelled n f : (n ≤ f)%nat → fuelled n (ref_primary f).
Proof.
  revert f. induction n as [|n IH]; intros [|f] Hf s Hs; try lia. simpl.
  pose proof (drop_ws_length s) as Hd. destruct (drop_ws s) as [|c s1]; [done|]. simpl in Hd.
  destruct (is_digit c); [unfold ref_number; destruct (span_digits _); by case_match|]. destruct (c =? 40); [|done].
  assert (fuelled n (ref_chain f is_add (ref_chain f is_mul (ref_primary f)))) as HF.
  { apply ref_chain_fuelled; [apply ref_chain_shrinks, ref_primary_shrinks| |lia].
    apply ref_chain_fuelled; [apply ref_primary_shrinks|apply IH; lia|lia]. }
  specialize (HF s1 ltac:(lia)). destruct (ref_chain _ _ _ s1) as [[e s2]|?|?|?]; try done. simpl. repeat case_match; done.
Qed.
Lemma ref_add_fuelled n f : (n ≤ f)%nat → fuelled n (ref_add f).
Proof.
  intros Hf. apply ref_chain_fuelled; [apply ref_mul_shrinks| |done].
  apply ref_chain_fuelled; [apply ref_primary_shrinks|by apply ref_primary_fuelled|done].
Qed.

(** ** Soundness: what is returned was derived *)
Definition sound (D : list Z → Expr → Prop) (P : Parse) : Prop :=
  ∀ s e s', P s = Ok (e, s') → ∃ u w, s = u ++ w ++ s' ∧ blanks w ∧ D u e.

Lemma ref_loop_sound f is_op P (D D' : list Z → Expr → Prop) :
  sound D' P →
  (∀ u e w op u' e', D u e → blanks w → is_op op = true → D' u' e' → D (u ++ w ++ op :: u') (EBinary op e e')) →
  ∀ u w e s e' s', D u e → blanks w → ref_loop f is_op P e s = Ok (e', s') →
    ∃ u' w', u ++ w ++ s = u' ++ w' ++ s' ∧ blanks w' ∧ D u' e'.
Proof.
  intros HP Hstep. induction f as [|f IH]; intros u w e s e' s' Hu Hw; simpl; [done|].
  destruct (drop_ws_split s) as (w1 & Hw1 & Es). destruct (drop_ws s) as [|c s1].
  { intros [= <- <-]. exists u, (w ++ w1). rewrite Es, <- app_assoc. split; [done|]. split; [by apply Forall_app_2|done]. }
  destruct (is_op c) eqn:Hc.
  2:{ intros [= <- <-]. exists u, (w ++ w1). rewrite Es, <- app_assoc. split; [done|]. split; [by apply Forall_app_2|done]. }
  destruct (P s1) as [[r s2]|?|?|?] eqn:E; try done. simpl. apply HP in E as (u2 & w2 & -> & Hw2 & Hu2).
  intros (u' & w' & Eq & Hw' & Hu')%(IH (u ++ (w ++ w1) ++ c :: u2) w2); [|apply Hstep; [done|by apply Forall_app_2|done..]|done].
  exists u', w'. split; [|done]. rewrite <- Eq, Es. by rewrite <- !app_assoc.
Qed.
Lemma ref_chain_sound f is_op P (D D' : list Z → Expr → Prop) :
  sound D' P → (∀ u e, D' u e → D u e) →
  (∀ u e w op u' e', D u e → blanks w → is_op op = true → D' u' e' → D (u ++ w ++ op :: u') (EBinary op e e')) →
  sound D (ref_chain f is_op P).
Proof.
  intros HP Hone Hstep s e s'. unfold ref_chain. destruct (P s) as [[e1 s1]|?|?|?] eqn:E; try done. simpl.
  apply HP in E as (u & w & -> & Hw & Hu). by apply (ref_loop_sound f is_op P D D'); auto.
Qed.

Lemma ref_primary_sound f : sound (derives LPrimary) (ref_primary f).
Proof.
  induction f as [|f IH]; intros s e s'; simpl; [done|].
  destruct (drop_ws_split s) as (w & Hw & Es). destruct (drop_ws s) as [|c s1]; [done|]. destruct (is_digit c) eqn:Hc.
  { unfold ref_number. destruct (span_digits (c :: s1)) as [ds r] eqn:E. apply span_digits_spec in E as (Ed & Hd & Hr).
    destruct (Z.leb_spec (value ds) I64_MAX); [|done]. intros [= <- <-]. exists (w ++ ds), []. rewrite Es, Ed, <- app_assoc.
    split; [done|]. split; [constructor|]. apply d_number; [done|done| |done]. intros ->. specialize (Hr c s1 (eq_sym Ed)). congruence. }
  destruct (Z.eqb_spec c 40) as [->|]; [|done].
  destruct (ref_chain _ _ _ s1) as [[e1 s2]|?|?|?] eqn:E; try done. simpl.
  apply (ref_chain_sound f is_add _ (derives LAdd) (derives LMul)) in E as (u & w1 & -> & Hw1 & Hu);
    [|apply (ref_chain_sound f is_mul _ (derives LMul) (derives LPrimary)); [done|apply d_mul_one|apply d_mul]|apply d_add_one|apply d_add].
  destruct (drop_ws_split s2) as (w2 & Hw2 & Es2). destruct (drop_ws s2) as [|x s3]; [done|]. intros H.
  assert (x = 41 ∧ s3 = s' ∧ e1 = e) as (-> & -> & ->) by (repeat case_match; by simplify_eq).
  exists (w ++ 40 :: u ++ (w1 ++ w2) ++ [41]), []. rewrite Es, Es2. split; [by rewrite <- !app_assoc; simpl; rewrite <- !app_assoc|].
  split; [constructor|]. apply d_paren; [done|done|by apply Forall_app_2].
Qed.
Lemma ref_add_sound f : sound (derives LAdd) (ref_add f).
Proof.
  apply (ref_chain_sound f is_add _ (derives LAdd) (derives LMul)); [|apply d_add_one|apply d_add].
  apply (ref_chain_sound f is_mul _ (derives LMul) (derives LPrimary)); [apply ref_primary_sound|apply d_mul_one|apply d_mul].
Qed.

(** ** Completeness: what is derived is returned *)
Lemma ref_loop_drop_ws f is_op P e s : ref_loop f is_op P e (drop_ws s) = ref_loop f is_op P e s.
Proof. destruct f; simpl; [done|]. by rewrite drop_ws_idem. Qed.
(** No operator follows: the loop ends. *)
Lemma ref_loop_stop f is_op P e s : no_op is_op s → (0 < f)%nat → ref_loop f is_op P e s = Ok (e, drop_ws s).
Proof. intros Hs Hf. destruct f; [lia|]. simpl. unfold no_op in Hs. destruct (drop_ws s); [done|]. by rewrite Hs. Qed.
(** One turn of the loop; the fuel spent is not missed. *)
Lemma ref_loop_turn f is_op P e w op s r s' :
  shrinks P → blanks w → is_op op = true → is_ws op = false → P s = Ok (r, s') → (length (w ++ op :: s) < f)%nat →
  ref_loop f is_op P e (w ++ op :: s) = ref_loop f is_op P (EBinary op e r) s'.
Proof.
  intros HP Hw Hop Hws E Hf. destruct f as [|f]; [lia|]. cbn [ref_loop].
  rewrite drop_ws_app, drop_ws_nonblank, Hop, E by done. cbn [mbind outcome_bind].
  rewrite length_app in Hf. simpl in Hf. apply HP in E.
  apply (ref_loop_agree (length s') f (S f)); [done|by intros ?|lia..].
Qed.

(** What the parser of each level does with a derived prefix. *)
Definition accepts (l : level) (u : list Z) (e : Expr) : Prop := ∀ f rest,
  (length (u ++ rest) < f)%nat → no_digit rest →
  match l with
  | LPrimary => ref_primary f (u ++ rest) = Ok (e, rest)
  | LMul => ref_mul f (u ++ rest) = ref_loop f is_mul (ref_primary f) e rest
  | LAdd => no_op is_mul rest → ref_add f (u ++ rest) = ref_loop f is_add (ref_mul f) e rest
  end.

Lemma accepts_mul_stop u e f rest :
  accepts LMul u e → (length (u ++ rest) < f)%nat → no_digit rest → no_op is_mul rest → ref_mul f (u ++ rest) = Ok (e, drop_ws rest).
Proof. intros Ha Hf Hd Hm. rewrite (Ha f rest Hf Hd). apply ref_loop_stop; [done|lia]. Qed.

Lemma no_digit_op w op s : blanks w → is_mul op = true ∨ is_add op = true → no_digit (w ++ op :: s).
Proof. intros Hw Hop. apply no_digit_blanks; [done|]. by apply op_byte in Hop as (_ & ? & _). Qed.

Lemma accepts_number w ds : blanks w → digits ds → ds ≠ [] → value ds ≤ I64_MAX → accepts LPrimary (w ++ ds) (ENumber (value ds)).
Proof.
  intros Hw Hd Hne Hv f rest Hf Hr. destruct f as [|f]; [lia|]. simpl. rewrite <- app_assoc, drop_ws_app by done.
  destruct ds as [|d ds]; [done|]. pose proof Hd as [Hd1 _]%Forall_cons. simpl. rewrite digit_byte, Hd1 by done.
  unfold ref_number. change (d :: ds ++ rest) with ((d :: ds) ++ rest). rewrite span_digits_app by done. destruct (Z.leb_spec (value (d :: ds)) I64_MAX); [done|lia].
Qed.

Lemma accepts_paren w s w' e : blanks w → accepts LAdd s e → blanks w' → accepts LPrimary (w ++ 40 :: s ++ w' ++ [41]) e.
Proof.
  intros Hw IH Hw' f rest Hf Hr. destruct f as [|f]; [lia|]. cbn [ref_primary].
  replace ((w ++ 40 :: s ++ w' ++ [41]) ++ rest) with (w ++ 40 :: s ++ (w' ++ 41 :: rest)) in * by (simpl; rewrite <- !app_assoc; simpl; by rewrite <- !app_assoc).
  rewrite length_app in Hf. simpl in Hf. rewrite drop_ws_app, drop_ws_nonblank by done. simpl.
  assert (no_op is_mul (w' ++ 41 :: rest)) as Hm by (by apply no_op_blanks).
  assert (no_op is_add (w' ++ 41 :: rest)) as Ha by (by apply no_op_blanks).
  change (ref_chain f is_add (ref_chain f is_mul (ref_primary f))) with (ref_add f).
  rewrite (IH f (w' ++ 41 :: rest)); [|lia|by apply no_digit_blanks|done].
  rewrite ref_loop_stop by (done || lia). simpl. by rewrite drop_ws_idem, drop_ws_app.
Qed.

Lemma accepts_mul s e w op s' e' :
  accepts LMul s e → blanks w → is_mul op = true → accepts LPrimary s' e' → accepts LMul (s ++ w ++ op :: s') (EBinary op e e').
Proof.
  intros IH1 Hw Hop IH2 f rest Hf Hr. replace ((s ++ w ++ op :: s') ++ rest) with (s ++ (w ++ op :: s' ++ rest)) in * by (by rewrite <- !app_assoc).
  rewrite (IH1 f) by (done || apply no_digit_op; auto). rewrite !length_app in Hf. simpl in Hf. rewrite length_app in Hf.
  apply ref_loop_turn; [apply ref_primary_shrinks|done|done|apply op_byte; auto| |].
  - apply IH2; [rewrite length_app; lia|done].
  - rewrite !length_app. simpl. rewrite length_app. lia.
Qed.

Lemma accepts_add_one s e : accepts LMul s e → accepts LAdd s e.
Proof.
  intros IH f rest Hf Hr Hm. unfold ref_add, ref_chain at 1. rewrite (accepts_mul_stop s e) by done. simpl. apply ref_loop_drop_ws.
Qed.

Lemma accepts_add s e w op s' e' :
  accepts LAdd s e → blanks w → is_add op = true → accepts LMul s' e' → accepts LAdd (s ++ w ++ op :: s') (EBinary op e e').
Proof.
  intros IH1 Hw Hop IH2 f rest Hf Hr Hm. replace ((s ++ w ++ op :: s') ++ rest) with (s ++ (w ++ op :: s' ++ rest)) in * by (by rewrite <- !app_assoc).
  assert (is_ws op = false) as Hws by (apply op_byte; auto).
  rewrite (IH1 f); [|done|apply no_digit_op; auto|].
  2:{ apply no_op_blanks; [done|]. unfold no_op. rewrite drop_ws_nonblank by done. by apply mul_not_add. }
  rewrite !length_app in Hf. simpl in Hf. rewrite length_app in Hf. rewrite <- ref_loop_drop_ws with (s := rest).
  apply ref_loop_turn; [apply ref_mul_shrinks|done|done|done| |].
  - apply accepts_mul_stop; [done|rewrite length_app; lia|done|done].
  - rewrite !length_app. simpl. rewrite length_app. lia.
Qed.

Lemma derives_accepts l u e : derives l u e → accepts l u e.
Proof.
  induction 1 as [w ds|w s w' e|s e _ IH|s e w op s' e' _ IH1 ? ? _ IH2|s e _ IH|s e w op s' e' _ IH1 ? ? _ IH2].
  - by apply accepts_number.
  - by apply accepts_paren.
  - intros f rest Hf Hr. unfold ref_mul, ref_chain. by rewrite (IH f rest).
  - by apply accepts_mul.
  - by apply accepts_add_one.
  - by apply accepts_add.
Qed.

(** The parser accepts exactly the language, and the tree is the derived one. *)
Lemma ref_parse_iff s e : ref_parse s = Ok (e, []) ↔ ∃ u w, s = u ++ w ∧ blanks w ∧ derives LAdd u e.
Proof.
  unfold ref_parse. split.
  - intros (u & w & -> & Hw & Hu)%ref_add_sound. exists u, w. by rewrite app_nil_r.
  - intros (u & w & -> & Hw & Hu). assert (drop_ws w = []) as Ew by (by rewrite <- (app_nil_r w), drop_ws_app).
    assert (no_op is_mul w ∧ no_op is_add w) as [Hm Ha] by (unfold no_op; by rewrite Ew).
    assert (no_digit w) as Hd by (rewrite <- (app_nil_r w); by apply no_digit_blanks).
    rewrite (derives_accepts _ _ _ Hu) by (done || lia). rewrite ref_loop_stop by (done || lia). by rewrite Ew.
Qed.

(** ** Printing, with as few parentheses as possible *)
Fixpoint decimal (fuel : nat) (n : Z) : list Z :=
  match fuel with
  | O => []
  | S fuel => (if n <? 10 then [] else decimal fuel (n `div` 10)) ++ [48 + n `mod` 10]
  end.
Fixpoint print (l : level) (e : Expr) : list Z :=
  match e with
  | ENumber n => decimal 19 n
  | EBinary op a b =>
      let paren s := [40] ++ s ++ [41] in
      if is_mul op then
        let s := print LMul a ++ [32] ++ op :: [32] ++ print LPrimary b in
        match l with LPrimary => paren s | _ => s end
      else
        let s := print LAdd a ++ [32] ++ op :: [32] ++ print LMul b in
        match l with LAdd => s | _ => paren s end
  end.
(** The trees that have a text. *)
Fixpoint printable (e : Expr) : Prop :=
  match e with
  | ENumber n => 0 ≤ n ≤ I64_MAX
  | EBinary op a b => (is_mul op || is_add op = true) ∧ printable a ∧ printable b
  end.

Lemma decimal_spec f n :
  0 ≤ n < 10 ^ Z.of_nat f → (0 < f)%nat → digits (decimal f n) ∧ value (decimal f n) = n ∧ decimal f n ≠ [].
Proof.
  revert n. induction f as [|f IH]; intros n Hn Hf; [lia|]. cbn [decimal].
  pose proof (Z.mod_pos_bound n 10 ltac:(lia)) as Hm. pose proof (Z.div_mod n 10 ltac:(lia)) as Hdm.
  assert (digits [48 + n `mod` 10]) as Hd.
  { apply Forall_singleton. unfold is_digit. destruct (Z.leb_spec 48 (48 + n `mod` 10)), (Z.leb_spec (48 + n `mod` 10) 57); simpl; lia. }
  assert (∀ l, value (l ++ [48 + n `mod` 10]) = value l * 10 + n `mod` 10) as Hv.
  { intros l. unfold value. rewrite foldl_app. simpl. lia. }
  rewrite Hv. destruct (Z.ltb_spec n 10).
  - split; [done|]. split; [|done]. unfold value. simpl. rewrite Z.mod_small; lia.
  - rewrite Nat2Z.inj_succ, Z.pow_succ_r in Hn by lia.
    destruct (decide (f = 0)%nat) as [->|]; [simpl in Hn; lia|].
    destruct (IH (n `div` 10)) as (H1 & H2 & _); [split; [apply Z.div_pos; lia|apply Z.div_lt_upper_bound; lia]|lia|].
    split; [by apply Forall_app_2|]. split; [rewrite H2; lia|]. by destruct (decimal f (n `div` 10)).
Qed.

Lemma derives_blanks l w u e : blanks w → derives l u e → derives l (w ++ u) e.
Proof.
  intros Hw. induction 1 as [w0 ds|w0 s w' e|s e _ IH|s e w0 op s' e' _ IH|s e _ IH|s e w0 op s' e' _ IH].
  - rewrite app_assoc. apply d_number; [by apply Forall_app_2|done..].
  - rewrite app_assoc. apply d_paren; [by apply Forall_app_2|done..].
  - by apply d_mul_one.
  - rewrite app_assoc. by apply d_mul.
  - by apply d_add_one.
  - rewrite app_assoc. by apply d_add.
Qed.

Lemma print_derives e l : printable e → derives l (print l e) e.
Proof.
  assert (blanks []) as Hnil by constructor. assert (blanks [32]) as Hsp by (by repeat constructor).
  revert l. induction e as [n|op a IHa b IHb]; intros l; cbn [print printable].
  - intros Hn. destruct (decimal_spec 19 n) as (H1 & H2 & H3); [unfold I64_MAX in *; lia|lia|].
    assert (derives LPrimary (decimal 19 n) (ENumber n)) as Hp.
    { rewrite <- H2 at 2. apply (d_number []); [done|done|done|]. rewrite H2. lia. }
    destruct l; [done|by apply d_mul_one|by apply d_add_one, d_mul_one].
  - intros (Hop & Ha & Hb). destruct (is_mul op) eqn:Hm.
    + assert (derives LMul (print LMul a ++ [32] ++ op :: [32] ++ print LPrimary b) (EBinary op a b)) as Hd.
      { apply d_mul; auto. by apply (derives_blanks _ [32]); auto. }
      destruct l; [|done|by apply d_add_one]. apply (d_paren [] _ []); [done|by apply d_add_one|done].
    + simpl in Hop. assert (derives LAdd (print LAdd a ++ [32] ++ op :: [32] ++ print LMul b) (EBinary op a b)) as Hd.
      { apply d_add; auto. by apply (derives_blanks _ [32]); auto. }
      destruct l; [| |done]; [|apply d_mul_one]; by apply (d_paren [] _ []).
Qed.

(** Every tree the parser returns is printable. *)
Lemma derives_printable l u e : derives l u e → printable e.
Proof.
  assert (∀ ds, digits ds → ∀ v, 0 ≤ v → 0 ≤ foldl (λ v d, v * 10 + (d - 48)) v ds) as Hpos.
  { induction 1 as [|d ds Hd _ IH]; intros v Hv; simpl; [done|]. apply IH. unfold is_digit in Hd.
    apply andb_true_iff in Hd as [Hd _]. apply Z.leb_le in Hd. lia. }
  induction 1 as [w ds ? Hd ? Hv| | |? ? ? ? ? ? ? ? ? Hop| |? ? ? ? ? ? ? ? ? Hop]; simpl; try done.
  - split; [by apply Hpos|done].
  - by rewrite Hop.
  - rewrite Hop. by rewrite orb_true_r.
Qed.
