(* ===== verification/ParserExpr.v ===== *)
(** * ParserExpr: the expression parser of examples/parser_expr.rs

    A client of the arena: a recursive-descent parser whose nodes are values in an
    arena that refer to each other, and an evaluator that follows the references.
    A reference is the address of the node; how the compiler lays out an [Expr] is
    not in the source, so the representation is a parameter ([ExprRepr]). *)
From S2P Require Import Prelude Memory Bump Chunk Slab ThreadLocal LockFree VirtualMemory Debug Inner InnerInv Objects Arena ArenaSafety ExprGrammar.
Local Open Scope Z_scope.

(** ** Data *)

(** [Expr<'a>], with the addresses of its subexpressions. *)
Inductive Node :=
  | NNumber (n : Z)
  | NBinary (op left right : Z).

(** The range of the fields: an [i64], a [char] made from a byte, two references. *)
Definition Node_ok (n : Node) : Prop :=
  match n with
  | NNumber n => - I64_MAX - 1 ≤ n ≤ I64_MAX
  | NBinary op l r => 0 ≤ op < 256 ∧ 0 ≤ l ≤ USIZE_MAX ∧ 0 ≤ r ≤ USIZE_MAX
  end.

(** The layout of [Expr], the bytes of a value, and the value that bytes represent. *)
Class ExprRepr := {
  expr_layout : Layout;
  expr_bytes : Node → list Z;
  expr_node : list Z → option Node
}.
(** Values of a type have its size, and a value stored can be read back. *)
Class ExprReprOk `{Cfg} (er : ExprRepr) : Prop := {
  expr_layout_ok : Layout_ok expr_layout ∧ 0 < l_size expr_layout ∧ l_align expr_layout ≤ (if feat_debug then 8 else 64);
  expr_bytes_length n : Z.of_nat (length (expr_bytes n)) = l_size expr_layout;
  expr_node_bytes n : Node_ok n → expr_node (expr_bytes n) = Some n
}.

(** [Parser<'a>], with the arena it borrows. *)
Record Parser := mkParser { pa_input : list Z; pa_pos : Z; pa_aw : AW }.

(** [i64] arithmetic. *)
Definition i64_wrap (z : Z) : Z := (z + (I64_MAX + 1)) `mod` USIZE_MOD - (I64_MAX + 1).
Definition i64_in (z : Z) : bool := (- I64_MAX - 1 <=? z) && (z <=? I64_MAX).
Definition i64_op `{Cfg} (msg : string) (z : Z) : outcome Z :=
  if i64_in z then Ok z else if overflow_checks then Panic msg else Ok (i64_wrap z).
Definition i64_div (l r : Z) : outcome Z :=
  if r =? 0 then Panic "attempt to divide by zero"
  else if (l =? - I64_MAX - 1) && (r =? -1) then Panic "attempt to divide with overflow"
  else Ok (Z.quot l r).

(** [str::parse::<i64>] on a string of digits. *)
Definition i64_from_digits (ds : list Z) : outcome Z :=
  match ds with
  | [] => Panic "ParseIntError { kind: Empty }"
  | _ => if value ds <=? I64_MAX then Ok (value ds) else Panic "ParseIntError { kind: PosOverflow }"
  end.

(** [&input[start..end]]. *)
Definition slice_range (start end_ : Z) (l : list Z) : outcome (list Z) :=
  if (start <=? end_) && (end_ <=? Z.of_nat (length l))
  then Ok (take (Z.to_nat (end_ - start)) (drop (Z.to_nat start) l))
  else Panic "range end index out of range for slice".

Section parser.
Context `{cfg : Cfg} `{ga : GlobalAlloc} `{er : ExprRepr} (bt : string).

(** ** Reading the input *)
Definition Parser_new (src : list Z) (arena : AW) : Parser := mkParser src 0 arena.
Definition peek : M Parser (option Z) := gets (λ p, pa_input p !! Z.to_nat (pa_pos p)).
Definition bump : M Parser (option Z) :=
  ch ← peek;
  match ch with
  | None => mret None
  | Some ch =>
      pos ← gets pa_pos;
      pos ← lift (usize_add pos 1);
      _ ← modify (λ p, mkParser (pa_input p) pos (pa_aw p));
      mret (Some ch)
  end.

(** [while matches!(self.peek(), Some(c) if test(c)) { self.bump(); }]; it runs at
    most once for every byte of the input. *)
Fixpoint bump_while (fuel : nat) (test : Z → bool) : M Parser unit :=
  match fuel with
  | O => lift (Panic out_of_fuel)
  | S fuel =>
      c ← peek;
      if match c with Some c => test c | None => false end
      then _ ← bump; bump_while fuel test
      else mret tt
  end.
Definition input_fuel (p : Parser) : nat := S (length (pa_input p)).
Definition skip_ws : M Parser unit := fuel ← gets input_fuel; bump_while fuel is_ws.

(** ** Building the tree *)
Definition alloc_expr (n : Node) : M Parser Z :=
  zoom pa_aw (λ s p, mkParser (pa_input p) (pa_pos p) s) (Arena_alloc bt expr_layout (expr_bytes n)).

(** The digits are ASCII, so [from_utf8] does not fail. *)
Definition parse_number : M Parser Z :=
  _ ← skip_ws;
  start ← gets pa_pos;
  fuel ← gets input_fuel;
  _ ← bump_while fuel is_digit;
  end_ ← gets pa_pos;
  input ← gets pa_input;
  s ← lift (slice_range start end_ input);
  v ← lift (i64_from_digits s);
  alloc_expr (NNumber v).

(** The loop of [parse_add_sub] and of [parse_mul], for the operators [is_op]. *)
Fixpoint binary_loop (fuel : nat) (is_op : Z → bool) (operand : M Parser Z) (node : Z) : M Parser Z :=
  match fuel with
  | O => lift (Panic out_of_fuel)
  | S fuel =>
      _ ← skip_ws;
      c ← peek;
      if match c with Some c => is_op c | None => false end
      then
        r ← bump;
        match r with
        | None => lift (Panic "called `Option::unwrap()` on a `None` value")
        | Some op =>
            right_ ← operand;
            node ← alloc_expr (NBinary op node right_);
            binary_loop fuel is_op operand node
        end
      else mret node
  end.
Definition parse_binary (fuel : nat) (is_op : Z → bool) (operand : M Parser Z) : M Parser Z :=
  node ← operand; binary_loop fuel is_op operand node.

(** [parse_primary]; [parse_expr] is [parse_add_sub], which calls [parse_mul], which
    calls [parse_primary]. *)
Fixpoint parse_primary (fuel : nat) : M Parser Z :=
  match fuel with
  | O => lift (Panic out_of_fuel)
  | S fuel =>
      _ ← skip_ws;
      c ← peek;
      match c with
      | Some c =>
          if is_digit c then parse_number
          else if c =? 40 then
            _ ← bump;
            expr ← parse_binary fuel is_add (parse_binary fuel is_mul (parse_primary fuel));
            _ ← skip_ws;
            r ← bump;
            match r with
            | Some 41 => mret expr
            | _ => lift (Panic "expected ')'")
            end
          else lift (Panic "unexpected character in input")
      | None => lift (Panic "unexpected character in input")
      end
  end.
Definition parse_mul (fuel : nat) : M Parser Z := parse_binary fuel is_mul (parse_primary fuel).
Definition parse_add_sub (fuel : nat) : M Parser Z := parse_binary fuel is_add (parse_mul fuel).
Definition parse_expr : M Parser Z := fuel ← gets input_fuel; parse_add_sub fuel.

(** ** Evaluation *)
Definition eval_op (op l r : Z) : outcome Z :=
  if op =? 43 then i64_op "attempt to add with overflow" (l + r)
  else if op =? 45 then i64_op "attempt to subtract with overflow" (l - r)
  else if op =? 42 then i64_op "attempt to multiply with overflow" (l * r)
  else if op =? 47 then i64_div l r
  else Panic "unknown operator".

(** [*expr]: the bytes must represent an [Expr]. *)
Definition load_node (p : Z) : M Mem Node :=
  bs ← mem_load p (Z.to_nat (l_size expr_layout));
  match expr_node bs with
  | Some n => mret n
  | None => lift (UB "invalid value of an enum")
  end.

Fixpoint eval (fuel : nat) (p : Z) : M Mem Z :=
  match fuel with
  | O => lift (Panic out_of_fuel)
  | S fuel =>
      n ← load_node p;
      match n with
      | NNumber n => mret n
      | NBinary op left_ right_ =>
          l ← eval fuel left_;
          r ← eval fuel right_;
          lift (eval_op op l r)
      end
  end.

(** [main]: the value printed at the end. *)
Definition parse_and_eval (src : list Z) (a : Arena) : M World Z := λ w,
  let '(r, p) := parse_expr (Parser_new src (mkAW a w)) in
  let w := a_world (pa_aw p) in
  match r with
  | Ok expr => let '(v, m) := eval (input_fuel p) expr (w_mem w) in (v, w_set_mem m w)
  | Panic e => (Panic e, w) | Abort e => (Abort e, w) | UB e => (UB e, w)
  end.
Definition parser_main (self : Z) (src : list Z) : M World Z :=
  arena ← Arena_with_capacity self (16 * 1024);
  parse_and_eval src arena.
End parser.

(** ** A representation *)
(** The one a compiler might choose: three words, the first 0 for a number. *)
Definition word_repr : ExprRepr := {|
  expr_layout := mkLayout 24 8;
  expr_bytes := λ n, match n with
    | NNumber n => le_bytes 8 0 ++ le_bytes 8 (n + (I64_MAX + 1)) ++ le_bytes 8 0
    | NBinary op l r => le_bytes 8 (op + 1) ++ le_bytes 8 l ++ le_bytes 8 r
    end;
  expr_node := λ bs,
    let tag := le_value (take 8 bs) in
    let x := le_value (take 8 (drop 8 bs)) in
    let y := le_value (take 8 (drop 16 bs)) in
    Some (if tag =? 0 then NNumber (x - (I64_MAX + 1)) else NBinary (tag - 1) x y)
|}.

Lemma words_read a b c :
  let bs := le_bytes 8 a ++ le_bytes 8 b ++ le_bytes 8 c in
  0 ≤ a ≤ USIZE_MAX → 0 ≤ b ≤ USIZE_MAX → 0 ≤ c ≤ USIZE_MAX →
  le_value (take 8 bs) = a ∧ le_value (take 8 (drop 8 bs)) = b ∧ le_value (take 8 (drop 16 bs)) = c.
Proof.
  intros bs Ha Hb Hc. unfold bs. unfold USIZE_MAX in *.
  assert (∀ z, 0 ≤ z ≤ 18446744073709551615 → le_value (le_bytes 8 z) = z) as Hv by (intros; apply le_value_le_bytes; lia).
  rewrite take_app_length', drop_app_length', take_app_length' by (by rewrite length_le_bytes).
  replace (drop 16 (le_bytes 8 a ++ le_bytes 8 b ++ le_bytes 8 c)) with (le_bytes 8 c).
  - rewrite take_ge by (by rewrite length_le_bytes). by rewrite !Hv.
  - by rewrite app_assoc, drop_app_length' by (by rewrite length_app, !length_le_bytes).
Qed.

#[export] Instance word_repr_ok `{Cfg} : ExprReprOk word_repr.
Proof.
  split.
  - split; [vm_compute; intuition discriminate|]. simpl. destruct feat_debug; lia.
  - intros []; cbn [expr_bytes expr_layout word_repr]; rewrite !length_app, !length_le_bytes; done.
  - intros [n|op l r] Hn; cbn [Node_ok] in Hn; cbn [expr_bytes expr_node word_repr]; unfold I64_MAX in *; cbv zeta.
    + destruct (words_read 0 (n + (9223372036854775807 + 1)) 0) as (-> & -> & _); [ulia..|]. simpl. do 2 f_equal. lia.
    + destruct (words_read (op + 1) l r) as (-> & -> & ->); [ulia..|].
      destruct (Z.eqb_spec (op + 1) 0); [lia|]. do 2 f_equal. lia.
Qed.

(** ** The tree in memory *)
Section tree.
Context `{er : ExprRepr}.

(** A node that was allocated: its bytes are there and the arena will not hand them
    out again. *)
Record node_at (s : IW) (p : Z) (n : Node) : Prop := mkNodeAt {
  na_stored : obj_stored (s_mem s) (mkObj expr_layout (expr_bytes n), p);
  na_taken a : a ∈ mkRange p (Z.of_nat (length (expr_bytes n))) → ¬ Inner_avail s a;
  na_ok : Node_ok n;
  na_addr : 0 ≤ p ≤ USIZE_MAX
}.
Fixpoint tree_at (s : IW) (p : Z) (e : Expr) : Prop :=
  match e with
  | ENumber n => node_at s p (NNumber n)
  | EBinary op a b => ∃ l r, node_at s p (NBinary op l r) ∧ tree_at s l a ∧ tree_at s r b
  end.

Lemma node_at_step s s' p n : Step s s' → node_at s p n → node_at s' p n.
Proof.
  intros Hst [Hs Ht Ho Ha]. split; [by eapply obj_stored_step| |done|done].
  intros a Hin Hav. apply (Ht a Hin). by apply (step_avail _ _ Hst).
Qed.
Lemma tree_at_step s s' p e : Step s s' → tree_at s p e → tree_at s' p e.
Proof.
  intros Hst. revert p. induction e as [n|op a IHa b IHb]; intros p; simpl; [by apply node_at_step|].
  intros (l & r & Hn & Hl & Hr). exists l, r. split; [by eapply node_at_step|]. auto.
Qed.
Lemma tree_at_addr s p e : tree_at s p e → 0 ≤ p ≤ USIZE_MAX.
Proof. destruct e; simpl; [by intros [_ _ _ ?]|]. by intros (l & r & [_ _ _ ?] & _). Qed.
End tree.

(** ** Reading the input *)

(** The parser stands before [s]. *)
Definition at_input (p : Parser) (s : list Z) : Prop :=
  ∃ pre, pa_input p = pre ++ s ∧ pa_pos p = Z.of_nat (length pre).
Definition moved (n : nat) (p : Parser) : Parser := mkParser (pa_input p) (pa_pos p + Z.of_nat n) (pa_aw p).
Definition Parser_ok (p : Parser) : Prop := Arena_ok (pa_aw p) ∧ Z.of_nat (length (pa_input p)) ≤ ISIZE_MAX.

Lemma at_input_moved p w s : at_input p (w ++ s) → at_input (moved (length w) p) s.
Proof.
  intros (pre & Hi & Hp). exists (pre ++ w). simpl. rewrite Hi, Hp, length_app, <- app_assoc. split; [done|lia].
Qed.
Lemma moved_moved n m p : moved m (moved n p) = moved (n + m) p.
Proof. unfold moved. simpl. f_equal. lia. Qed.
Lemma moved_0 p : moved 0 p = p.
Proof. destruct p. unfold moved. simpl. f_equal. lia. Qed.

Section reading.
Context `{cfg : Cfg}.

Lemma peek_eq p s : at_input p s → peek p = (Ok (head s), p).
Proof.
  intros (pre & Hi & Hp). unfold peek, gets. rewrite Hi, Hp, Nat2Z.id, lookup_app_r, Nat.sub_diag by lia. by destruct s.
Qed.
Lemma bump_eq p c s : Parser_ok p → at_input p (c :: s) → bump p = (Ok (Some c), moved 1 p).
Proof.
  intros [_ Hlen] Ha. unfold bump, mbind, M_bind. rewrite (peek_eq p _ Ha). simpl.
  destruct Ha as (pre & Hi & Hp). rewrite Hi, length_app in Hlen. simpl in Hlen.
  unfold lift. rewrite usize_add_in by ulia. done.
Qed.
Lemma bump_nil p : at_input p [] → bump p = (Ok None, p).
Proof. intros Ha. unfold bump, mbind, M_bind. by rewrite (peek_eq p _ Ha). Qed.

Lemma bump_while_eq fuel (test : Z → bool) p w s :
  Parser_ok p → at_input p (w ++ s) → Forall (λ c, test c = true) w →
  (∀ c s', s = c :: s' → test c = false) → (length w < fuel)%nat →
  bump_while fuel test p = (Ok tt, moved (length w) p).
Proof.
  revert p w. induction fuel as [|fuel IH]; intros p w Hok Ha Hw Hs Hf; [lia|]. cbn [bump_while].
  unfold mbind, M_bind. rewrite (peek_eq p _ Ha). destruct Hw as [|c w Hc Hw]; simpl in *.
  - destruct s as [|c s]; simpl; [|rewrite (Hs c s eq_refl)]; by rewrite moved_0.
  - rewrite Hc, (bump_eq p c (w ++ s)) by done. rewrite (IH (moved 1 p) w); [|done|by apply (at_input_moved p [c])|done|done|lia].
    by rewrite moved_moved.
Qed.

(** The fuel of the reading loops is enough. *)
Lemma input_fuel_enough p w s : at_input p (w ++ s) → (length w < input_fuel p)%nat.
Proof. intros (pre & Hi & _). unfold input_fuel. rewrite Hi, !length_app. lia. Qed.

Lemma skip_ws_eq p s : Parser_ok p → at_input p s →
  ∃ n, skip_ws p = (Ok tt, moved n p) ∧ at_input (moved n p) (drop_ws s).
Proof.
  intros Hok Ha. destruct (drop_ws_split s) as (w & Hw & Es). exists (length w). rewrite Es in Ha. split.
  - unfold skip_ws, mbind, M_bind, gets. apply (bump_while_eq _ _ _ w (drop_ws s)); [done|done|done| |by eapply input_fuel_enough].
    intros c s' E. by eapply drop_ws_head.
  - by apply at_input_moved.
Qed.
End reading.

(** ** The parser does what the reference parser does *)
Section sim.
Context `{cfg : Cfg} {ga : GlobalAlloc} `{!GlobalAllocOk ga} {er : ExprRepr} `{!ExprReprOk er} (bt : string).

Definition unread (p p' : Parser) : Prop := Step (iw (pa_aw p)) (iw (pa_aw p')) ∧ pa_input p' = pa_input p.

(** How a call ended in [r], when the reference ended in [o]. *)
Definition result (p : Parser) (o : outcome (Expr * list Z)) (r : outcome Z) (p' : Parser) : Prop :=
  match r with
  | Ok q => unread p p' ∧ ∃ e s', o = Ok (e, s') ∧ at_input p' s' ∧ tree_at (iw (pa_aw p')) q e
  | Panic m => unread p p' ∧ o = Panic m
  | Abort _ => Step (iw (pa_aw p)) (iw (pa_aw p')) ∧ refused expr_layout (pa_aw p')
  | UB _ => False
  end.
Definition sim (m : M Parser Z) (P : Parse) : Prop := ∀ p s, Parser_ok p → at_input p s →
  ∃ r p', m p = (r, p') ∧ result p (P s) r p'.

Lemma unread_refl p : Parser_ok p → unread p p.
Proof. intros [Hok _]. split; [by apply Step_refl|done]. Qed.
Lemma unread_ok p p' : Parser_ok p → unread p p' → Parser_ok p'.
Proof. intros [_ Hl] [Hst Hi]. split; [exact (step_wf _ _ Hst)|by rewrite Hi]. Qed.
Lemma result_trans p p1 o r p' : unread p p1 → result p1 o r p' → result p o r p'.
Proof.
  assert (∀ p2, unread p p1 → unread p1 p2 → unread p p2) as Htr.
  { intros p2 [Hs1 H1] [Hs2 H2]. split; [by eapply Step_trans|congruence]. }
  intros Hu. destruct r; simpl; [intros [? ?]; split; eauto..| |done].
  intros (Hst & Hr). split; [|done]. eapply Step_trans; [exact (proj1 Hu)|done].
Qed.

(** A bind whose first part ended like a reference computation. *)
Lemma sim_bind (m : M Parser Z) (k : Z → M Parser Z) p r p1 (o : outcome (Expr * list Z)) o' :
  m p = (r, p1) → result p o r p1 →
  (∀ m, o = Panic m → o' = Panic m) →
  (∀ q e s', o = Ok (e, s') → unread p p1 → at_input p1 s' → tree_at (iw (pa_aw p1)) q e →
     ∃ r' p', k q p1 = (r', p') ∧ result p1 o' r' p') →
  ∃ r' p', (m ≫= k) p = (r', p') ∧ result p o' r' p'.
Proof.
  intros E Hr Hp Hk. unfold mbind, M_bind. rewrite E. destruct r as [q|e|e|e]; [| | |done].
  - destruct Hr as (Hu & e & s' & -> & Ha & Ht). destruct (Hk q e s' eq_refl Hu Ha Ht) as (r' & p' & E' & Hr').
    exists r', p'. split; [done|]. by eapply result_trans.
  - destruct Hr as [Hu Ho]. eexists _, _. split; [done|]. split; [done|]. by apply Hp.
  - by eexists _, _.
Qed.

Lemma alloc_expr_sim n p :
  Parser_ok p → Node_ok n →
  ∃ r p', alloc_expr bt n p = (r, p') ∧
    match r with
    | Ok q => unread p p' ∧ pa_pos p' = pa_pos p ∧ node_at (iw (pa_aw p')) q n
    | Abort _ => GaveUp expr_layout (pa_aw p) (pa_aw p')
    | _ => False
    end.
Proof.
  intros [Hok _] Hn. destruct expr_layout_ok as (Hl & Hsz & Hal). pose proof (expr_bytes_length n) as Hlen.
  destruct (alloc_step bt (mkObj expr_layout (expr_bytes n)) (pa_aw p) Hok) as (r & s' & E & Hr); [by split|].
  simpl in E. unfold alloc_expr, zoom. rewrite E. exists r. eexists. split; [reflexivity|].
  destruct r as [q|e|e|e]; try done. destruct Hr as (Hst & [Hf _ Hb] & Hs). split; [done|]. split; [done|].
  split; [exact Hs| |done|]; simpl in *.
  - rewrite Hlen. intros a Ha. by apply Hf.
  - destruct (Hb Hsz). ulia.
Qed.

(** Allocating the last node of a tree. *)
Lemma alloc_tree_sim n p e s :
  Parser_ok p → Node_ok n → at_input p s → (∀ p' q, unread p p' → node_at (iw (pa_aw p')) q n → tree_at (iw (pa_aw p')) q e) →
  ∃ r p', alloc_expr bt n p = (r, p') ∧ result p (Ok (e, s)) r p'.
Proof.
  intros Hok Hn Ha Ht. destruct (alloc_expr_sim n p Hok Hn) as (r & p' & E & Hr). exists r, p'. split; [exact E|].
  destruct r as [q|m|m|m]; try done.
  - destruct Hr as (Hu & Hp & Hq). split; [done|]. exists e, s. split; [done|]. split; [|by apply (Ht p')].
    destruct Ha as (pre & Hi & Hpp), Hu as [_ Hi']. exists pre. by rewrite Hi', Hp.
  - by destruct Hr.
Qed.

Lemma skip_ws_bind {A} (k : unit → M Parser A) p s :
  Parser_ok p → at_input p s → ∃ n, (skip_ws ≫= k) p = k tt (moved n p) ∧ at_input (moved n p) (drop_ws s).
Proof.
  intros Hok Ha. destruct (skip_ws_eq p s Hok Ha) as (n & E & Hn). exists n. split; [|done].
  unfold mbind, M_bind. by rewrite E.
Qed.

Lemma parse_number_sim p c s :
  Parser_ok p → at_input p (c :: s) → is_digit c = true →
  ∃ r p', parse_number bt p = (r, p') ∧ result p (ref_number (c :: s)) r p'.
Proof.
  intros Hok Ha Hc. unfold parse_number.
  destruct (skip_ws_bind (λ _, start ← gets pa_pos; fuel ← gets input_fuel; _ ← bump_while fuel is_digit;
    end_ ← gets pa_pos; input ← gets pa_input; s ← lift (slice_range start end_ input);
    v ← lift (i64_from_digits s); alloc_expr bt (NNumber v)) p (c :: s) Hok Ha) as (n & -> & Hn).
  rewrite drop_ws_nonblank in Hn by (by apply digit_byte). set (p1 := moved n p) in *.
  assert (Parser_ok p1) as Hok1 by exact Hok.
  unfold ref_number. destruct (span_digits (c :: s)) as [ds rest] eqn:E. apply span_digits_spec in E as (Es & Hds & Hrest).
  rewrite Es in Hn.
  unfold mbind, M_bind, gets.
  rewrite (bump_while_eq _ is_digit p1 ds rest Hok1 Hn Hds) by (done || by eapply input_fuel_enough).
  pose proof (at_input_moved p1 ds rest Hn) as Hm. destruct Hn as (pre & Hi & Hp).
  assert (slice_range (pa_pos p1) (pa_pos (moved (length ds) p1)) (pa_input (moved (length ds) p1)) = Ok ds) as Hsl.
  { unfold slice_range. simpl pa_pos. simpl pa_input. unfold moved in Hi, Hp |- *. simpl in Hi, Hp |- *. rewrite Hi, Hp, !length_app.
    destruct (Z.leb_spec (Z.of_nat (length pre)) (Z.of_nat (length pre) + Z.of_nat (length ds))); [|lia].
    destruct (Z.leb_spec (Z.of_nat (length pre) + Z.of_nat (length ds)) (Z.of_nat (length pre + (length ds + length rest)))); [|lia].
    simpl. f_equal. rewrite Nat2Z.id, drop_app_length. replace (Z.to_nat _) with (length ds) by lia. apply take_app_length. }
  unfold lift. rewrite Hsl.
  assert (ds ≠ []) as Hne. { intros ->. specialize (Hrest c s (eq_sym Es)). congruence. }
  assert (0 ≤ value ds ∨ I64_MAX < value ds) as Hv.
  { destruct (decide (I64_MAX < value ds)); [by right|]. left.
    pose proof (derives_printable LPrimary ([] ++ ds) _ (d_number [] ds ltac:(constructor) Hds Hne ltac:(lia))) as Hpr. simpl in Hpr. lia. }
  unfold i64_from_digits. destruct ds as [|d ds]; [done|]. destruct (Z.leb_spec (value (d :: ds)) I64_MAX).
  - destruct (alloc_tree_sim (NNumber (value (d :: ds))) (moved (length (d :: ds)) p1) (ENumber (value (d :: ds))) rest)
      as (r & p' & E & Hr); [exact Hok1|cbn [Node_ok]; unfold I64_MAX in *; lia|exact Hm|done|]. by exists r, p'.
  - eexists _, _. split; [reflexivity|]. split; [exact (unread_refl p Hok)|done].
Qed.
Definition bytes_op (is_op : Z → bool) : Prop := ∀ c, is_op c = true → 0 ≤ c < 256.

Lemma binary_loop_sim fuel is_op operand P :
  sim operand P → bytes_op is_op → ∀ p s node e,
  Parser_ok p → at_input p s → tree_at (iw (pa_aw p)) node e →
  ∃ r p', binary_loop bt fuel is_op operand node p = (r, p') ∧ result p (ref_loop fuel is_op P e s) r p'.
Proof.
  intros HP Hop. induction fuel as [|fuel IH]; intros p s node e Hok Ha Ht.
  { eexists _, _. split; [reflexivity|]. split; [by apply unread_refl|done]. }
  cbn [binary_loop ref_loop].
  match goal with |- context [(skip_ws ≫= ?k) p] => destruct (skip_ws_bind k p s Hok Ha) as (n & -> & Hn) end.
  assert (Parser_ok (moved n p)) as Hok1 by exact Hok.
  unfold mbind at 1, M_bind at 1. rewrite (peek_eq _ _ Hn).
  assert (∀ s', at_input (moved n p) s' → result p (Ok (e, s')) (Ok node) (moved n p)) as Hstop.
  { intros s' Hs'. split; [exact (unread_refl p Hok)|]. by exists e, s'. }
  destruct (drop_ws s) as [|c s1]; cbn [head]; [eexists _, _; split; [reflexivity|by apply Hstop]|].
  destruct (is_op c) eqn:Hc; [|eexists _, _; split; [reflexivity|by apply Hstop]].
  unfold mbind at 1, M_bind at 1. rewrite (bump_eq _ c s1 Hok1 Hn), moved_moved.
  apply (at_input_moved _ [c]) in Hn. rewrite moved_moved in Hn. cbn [length] in Hn. set (p1 := moved (n + 1) p) in *.
  assert (Parser_ok p1) as Hok2 by exact Hok.
  destruct (HP p1 s1 Hok2 Hn) as (r & p2 & E & Hr).
  destruct (sim_bind operand (λ right_, node ← alloc_expr bt (NBinary c node right_); binary_loop bt fuel is_op operand node)
    p1 r p2 (P s1) ('(r, s2) ← P s1; ref_loop fuel is_op P (EBinary c e r) s2) E Hr) as (r' & p' & E' & Hr');
    [by intros ? ->| |exists r', p'; split; [exact E'|exact Hr']].
  intros q e2 s2 -> Hu Ha2 Ht2. cbn [mbind outcome_bind]. pose proof (unread_ok _ _ Hok2 Hu) as Hok3.
  pose proof (tree_at_step _ _ _ _ (proj1 Hu) Ht) as Ht'.
  destruct (alloc_tree_sim (NBinary c node q) p2 (EBinary c e e2) s2) as (r3 & p3 & E3 & Hr3);
    [done|split; [by apply Hop|split; by eapply tree_at_addr]|done| |].
  { intros p4 q4 [Hst _] Hq. exists node, q. split; [done|]. split; by eapply tree_at_step. }
  apply (sim_bind _ _ p2 r3 p3 (Ok (EBinary c e e2, s2)) _ E3 Hr3); [done|].
  intros q' e' s' [= <- <-] Hu3 Ha3 Ht3. apply IH; [by eapply unread_ok|done|done].
Qed.

Lemma parse_binary_sim fuel is_op operand P :
  sim operand P → bytes_op is_op → sim (parse_binary bt fuel is_op operand) (ref_chain fuel is_op P).
Proof.
  intros HP Hop p s Hok Ha. destruct (HP p s Hok Ha) as (r & p1 & E & Hr). unfold parse_binary, ref_chain.
  apply (sim_bind operand _ p r p1 (P s) _ E Hr); [by intros ? ->|].
  intros q e s' -> Hu Ha' Ht. apply (binary_loop_sim fuel is_op operand P); [done|done|by eapply unread_ok|done|done].
Qed.

Lemma bytes_op_mul : bytes_op is_mul.
Proof. intros c. unfold is_mul. rewrite orb_true_iff, !Z.eqb_eq. lia. Qed.
Lemma bytes_op_add : bytes_op is_add.
Proof. intros c. unfold is_add. rewrite orb_true_iff, !Z.eqb_eq. lia. Qed.

(** [p1] is [p] further on in the input. *)
Ltac enter_at p1 :=
  match goal with |- ∃ ra pa, ?m p1 = _ ∧ result _ ?o _ _ =>
    enough (∃ ra pa, m p1 = (ra, pa) ∧ result p1 o ra pa) as (? & ? & ? & ?);
    [eexists _, _; split; eassumption|]
  end.

Lemma parse_primary_sim fuel : sim (parse_primary bt fuel) (ref_primary fuel).
Proof.
  induction fuel as [|fuel IH]; intros p s Hok Ha.
  { eexists _, _. split; [reflexivity|]. split; [by apply unread_refl|done]. }
  cbn [parse_primary ref_primary].
  match goal with |- context [(skip_ws ≫= ?k) p] => destruct (skip_ws_bind k p s Hok Ha) as (n & -> & Hn) end.
  assert (Parser_ok (moved n p)) as Hok1 by exact Hok.
  unfold mbind at 1, M_bind at 1. rewrite (peek_eq _ _ Hn).
  assert (∀ m q, unread p q → result p (Panic m) (Panic m) q) as Hpanic by done.
  destruct (drop_ws s) as [|c s1]; cbn [head]; [eexists _, _; split; [reflexivity|exact (Hpanic _ _ (unread_refl p Hok))]|].
  destruct (is_digit c) eqn:Hd; [exact (parse_number_sim _ c s1 Hok1 Hn Hd)|].
  destruct (c =? 40); [|eexists _, _; split; [reflexivity|exact (Hpanic _ _ (unread_refl p Hok))]].
  unfold mbind at 1, M_bind at 1. rewrite (bump_eq _ c s1 Hok1 Hn), moved_moved.
  apply (at_input_moved _ [c]) in Hn. rewrite moved_moved in Hn. cbn [length] in Hn. set (p1 := moved (n + 1) p) in *.
  assert (Parser_ok p1) as Hok2 by exact Hok.
  destruct (parse_binary_sim fuel is_add _ _ (parse_binary_sim fuel is_mul _ _ IH bytes_op_mul) bytes_op_add p1 s1 Hok2 Hn)
    as (r & p2 & E & Hr).
  enter_at p1. apply (sim_bind _ _ p1 r p2 _ _ E Hr); [by intros ? ->|].
  intros q e s2 -> Hu Ha2 Ht2. cbn [mbind outcome_bind]. pose proof (unread_ok _ _ Hok2 Hu) as Hok3.
  match goal with |- context [(skip_ws ≫= ?k) p2] => destruct (skip_ws_bind k p2 s2 Hok3 Ha2) as (n2 & -> & Hn2) end.
  assert (Parser_ok (moved n2 p2)) as Hok4 by exact Hok3. pose proof (unread_refl p2 Hok3) as Hu2.
  unfold mbind at 1, M_bind at 1. destruct (drop_ws s2) as [|x s3].
  - rewrite (bump_nil _ Hn2). by eexists _, _.
  - rewrite (bump_eq _ x s3 Hok4 Hn2), moved_moved. apply (at_input_moved _ [x]) in Hn2. rewrite moved_moved in Hn2. cbn [length] in Hn2.
    destruct (decide (x = 41)) as [->|Hx].
    + eexists _, _. split; [reflexivity|]. split; [exact Hu2|]. by exists e, s3.
    + exists (Panic "expected ')'"), (moved (n2 + 1) p2). split; [repeat case_match; done|].
      split; [exact Hu2|]. repeat case_match; done.
Qed.

(** [parse_expr] from any place in the input. *)
Lemma parse_add_sub_sim fuel : sim (parse_add_sub bt fuel) (ref_add fuel).
Proof. apply parse_binary_sim; [|apply bytes_op_add]. apply parse_binary_sim; [apply parse_primary_sim|apply bytes_op_mul]. Qed.

Lemma parse_expr_sim src s : Arena_ok s → Z.of_nat (length src) ≤ ISIZE_MAX →
  ∃ r p', parse_expr bt (Parser_new src s) = (r, p') ∧ result (Parser_new src s) (ref_parse src) r p'.
Proof. intros Hok Hlen. apply (parse_add_sub_sim (S (length src))); [done|]. by exists []. Qed.
End sim.

(** ** Evaluation *)

(** The value of a tree, with the arithmetic of the build. *)
Fixpoint eval_expr `{Cfg} (e : Expr) : outcome Z :=
  match e with
  | ENumber n => Ok n
  | EBinary op a b => l ← eval_expr a; r ← eval_expr b; eval_op op l r
  end.
(** The value in the integers, when no step leaves [i64] or divides by zero. *)
Definition op_Z (op l r : Z) : option Z :=
  if op =? 43 then Some (l + r) else if op =? 45 then Some (l - r) else if op =? 42 then Some (l * r)
  else if r =? 0 then None else Some (Z.quot l r).
Fixpoint eval_Z (e : Expr) : option Z :=
  match e with
  | ENumber n => Some n
  | EBinary op a b => l ← eval_Z a; r ← eval_Z b; v ← op_Z op l r; if i64_in v then Some v else None
  end.
(** The value in the integers of a tree without division. *)
Fixpoint ring_value (e : Expr) : Z :=
  match e with
  | ENumber n => n
  | EBinary op a b =>
      if op =? 43 then ring_value a + ring_value b
      else if op =? 45 then ring_value a - ring_value b else ring_value a * ring_value b
  end.
Fixpoint no_division (e : Expr) : Prop :=
  match e with ENumber _ => True | EBinary op a b => op ≠ 47 ∧ no_division a ∧ no_division b end.
Fixpoint depth (e : Expr) : nat :=
  match e with ENumber _ => 1 | EBinary _ a b => S (depth a `max` depth b) end.

Lemma derives_depth l u e : derives l u e → (depth e ≤ length u)%nat.
Proof.
  induction 1 as [w ds _ _ Hne _|w s w' e|s e _ IH|s e w op s' e' H1 IH1 _ _ H2 IH2|s e _ IH|s e w op s' e' H1 IH1 _ _ H2 IH2];
    rewrite ?length_app; simpl; rewrite ?length_app; try lia.
  destruct ds; [done|simpl; lia].
Qed.

Lemma i64_in_iff z : i64_in z = true ↔ - I64_MAX - 1 ≤ z ≤ I64_MAX.
Proof. unfold i64_in. rewrite andb_true_iff, !Z.leb_le. done. Qed.
Lemma i64_wrap_in z : - I64_MAX - 1 ≤ z ≤ I64_MAX → i64_wrap z = z.
Proof. intros H. unfold i64_wrap, I64_MAX, USIZE_MOD in *. rewrite Z.mod_small by lia. lia. Qed.
Lemma i64_wrap_range z : - I64_MAX - 1 ≤ i64_wrap z ≤ I64_MAX.
Proof. unfold i64_wrap. pose proof (Z.mod_pos_bound (z + (I64_MAX + 1)) USIZE_MOD eq_refl). unfold I64_MAX, USIZE_MOD in *. lia. Qed.
(** Numbers with the same wrapped value differ by a multiple of 2^64. *)
Lemma i64_wrap_eq z z' : i64_wrap z = i64_wrap z' ↔ ∃ k, z = z' + k * USIZE_MOD.
Proof.
  unfold i64_wrap. assert (USIZE_MOD ≠ 0) as Hm by done. split.
  - intros H. pose proof (Z.div_mod (z + (I64_MAX + 1)) USIZE_MOD Hm). pose proof (Z.div_mod (z' + (I64_MAX + 1)) USIZE_MOD Hm).
    exists ((z + (I64_MAX + 1)) `div` USIZE_MOD - (z' + (I64_MAX + 1)) `div` USIZE_MOD). lia.
  - intros [k ->]. f_equal. replace (z' + k * USIZE_MOD + (I64_MAX + 1)) with (z' + (I64_MAX + 1) + k * USIZE_MOD) by lia.
    by apply Z.mod_add.
Qed.
Lemma i64_wrap_idem z : ∃ k, i64_wrap z = z + k * USIZE_MOD.
Proof. apply i64_wrap_eq, i64_wrap_in, i64_wrap_range. Qed.

Section eval.
Context `{cfg : Cfg} {er : ExprRepr} `{!ExprReprOk er}.

Lemma load_node_eq s p n : node_at s p n → load_node p (s_mem s) = (Ok n, s_mem s).
Proof.
  intros [[Hs _] _ Hok _]. unfold load_node, mbind, M_bind. pose proof (expr_bytes_length n) as Hl. simpl in Hs.
  replace (Z.to_nat (l_size expr_layout)) with (length (expr_bytes n)) by lia. rewrite Hs. by rewrite expr_node_bytes.
Qed.

(** Following the references computes the value of the tree. *)
Lemma eval_tree s p e fuel : tree_at s p e → (depth e ≤ fuel)%nat → eval fuel p (s_mem s) = (eval_expr e, s_mem s).
Proof.
  revert p fuel. induction e as [n|op a IHa b IHb]; intros p fuel Ht Hf; (destruct fuel as [|fuel]; [simpl in Hf; lia|]);
    cbn [eval]; unfold mbind at 1, M_bind at 1.
  - by rewrite (load_node_eq s p _ Ht).
  - destruct Ht as (l & r & Hn & Hl & Hr). rewrite (load_node_eq s p _ Hn). simpl in Hf.
    unfold mbind at 1, M_bind at 1. rewrite IHa by (done || lia). cbn [eval_expr].
    destruct (eval_expr a) as [va|?|?|?]; try done. unfold mbind at 1, M_bind at 1. rewrite IHb by (done || lia).
    by destruct (eval_expr b) as [vb|?|?|?].
Qed.

(** Division stays in [i64], except for the least number by -1. *)
Lemma i64_div_in l r :
  - I64_MAX - 1 ≤ l ≤ I64_MAX → r ≠ 0 → i64_in (Z.quot l r) = negb ((l =? - I64_MAX - 1) && (r =? -1)).
Proof.
  intros Hl Hr. apply eq_true_iff_eq. rewrite i64_in_iff, negb_true_iff, andb_false_iff, !Z.eqb_neq.
  destruct (decide (r = 1)) as [->|]; [rewrite Z.quot_1_r; lia|].
  destruct (decide (r = -1)) as [->|]; [pose proof (Z.quot_opp_r l 1 ltac:(lia)) as E; rewrite Z.quot_1_r in E; change (- (1)) with (-1) in E; lia|].
  split; [intros _; by right|]. intros _.
  pose proof (Z.quot_abs l r Hr) as Ha. pose proof (Z.quot_le_compat_l (Z.abs l) 2 (Z.abs r)) as Hle.
  pose proof (Z.quot_lt (Z.abs l) 2). unfold I64_MAX in *. destruct (decide (l = 0)) as [->|]; [rewrite Z.quot_0_l in * by done; lia|]. lia.
Qed.

(** One operation: exact, or an error of the build. *)
Lemma eval_op_exact op l r :
  is_mul op || is_add op = true → - I64_MAX - 1 ≤ l ≤ I64_MAX →
  match op_Z op l r ≫= λ v, if i64_in v then Some v else None with
  | Some v => eval_op op l r = Ok v
  | None => overflow_checks = true → ∃ m, eval_op op l r = Panic m
  end.
Proof.
  unfold is_mul, is_add, op_Z, eval_op, i64_op. rewrite !orb_true_iff, !Z.eqb_eq. intros Hop Hl.
  destruct (Z.eqb_spec op 43); [cbn; destruct (i64_in _); [done|intros ->; eauto]|].
  destruct (Z.eqb_spec op 45); [cbn; destruct (i64_in _); [done|intros ->; eauto]|].
  destruct (Z.eqb_spec op 42); [cbn; destruct (i64_in _); [done|intros ->; eauto]|].
  destruct (Z.eqb_spec op 47); [|lia]. unfold i64_div. destruct (Z.eqb_spec r 0) as [|Hr]; [by intros _; eexists|].
  cbn [mbind option_bind]. rewrite i64_div_in by done. destruct ((l =? _) && _); simpl; eauto.
Qed.

Lemma eval_Z_in e v : printable e → eval_Z e = Some v → - I64_MAX - 1 ≤ v ≤ I64_MAX.
Proof.
  destruct e as [n|op a b]; simpl; [intros ? [= <-]; unfold I64_MAX in *; lia|]. intros _.
  destruct (eval_Z a), (eval_Z b); simpl; try done. destruct (op_Z _ _ _); simpl; [|done].
  destruct (i64_in _) eqn:Hi; [|done]. intros [= <-]. by apply i64_in_iff.
Qed.

(** In a build with overflow checks the evaluator computes the exact value, or
    panics when there is none; without them it still computes every exact value. *)
Lemma eval_expr_exact e :
  printable e →
  match eval_Z e with
  | Some v => eval_expr e = Ok v
  | None => overflow_checks = true → ∃ m, eval_expr e = Panic m
  end.
Proof.
  induction e as [n|op a IHa b IHb]; simpl; [done|]. intros (Hop & Ha & Hb). specialize (IHa Ha). specialize (IHb Hb).
  pose proof (eval_Z_in a) as Hin.
  destruct (eval_Z a) as [va|]; simpl; [|intros Hc; destruct (IHa Hc) as [m ->]; by exists m]. rewrite IHa. simpl.
  destruct (eval_Z b) as [vb|]; simpl; [|intros Hc; destruct (IHb Hc) as [m ->]; by exists m]. rewrite IHb. simpl.
  exact (eval_op_exact op va vb Hop (Hin va Ha eq_refl)).
Qed.

Lemma eval_expr_returns e : match eval_expr e with Ok _ | Panic _ => True | _ => False end.
Proof.
  induction e as [n|op a IHa b IHb]; simpl; [done|]. destruct (eval_expr a); try done. destruct (eval_expr b); try done.
  simpl. unfold eval_op, i64_op, i64_div. by repeat case_match.
Qed.

(** Without overflow checks, sums and products are those of the integers modulo
    2^64. *)
Lemma eval_expr_wraps e :
  overflow_checks = false → printable e → no_division e → eval_expr e = Ok (i64_wrap (ring_value e)).
Proof.
  intros Hc. assert (∀ m z, i64_op m z = Ok (i64_wrap z)) as Hop.
  { intros m z. unfold i64_op. destruct (i64_in z) eqn:Hi; [by rewrite i64_wrap_in by (by apply i64_in_iff)|by rewrite Hc]. }
  induction e as [n|op a IHa b IHb]; cbn [eval_expr ring_value printable no_division].
  { intros Hn _. rewrite i64_wrap_in; [done|unfold I64_MAX in *; lia]. }
  intros (Ho & Ha & Hb) (Hd & Hda & Hdb). rewrite IHa, IHb by done. cbn [mbind outcome_bind].
  destruct (i64_wrap_idem (ring_value a)) as [k Ek], (i64_wrap_idem (ring_value b)) as [j Ej].
  unfold is_mul, is_add in Ho. rewrite !orb_true_iff, !Z.eqb_eq in Ho. unfold eval_op. rewrite !Hop, Ek, Ej.
  destruct (Z.eqb_spec op 43); [f_equal; apply i64_wrap_eq; exists (k + j); lia|].
  destruct (Z.eqb_spec op 45); [f_equal; apply i64_wrap_eq; exists (k - j); lia|].
  destruct (Z.eqb_spec op 42); [|lia]. f_equal. apply i64_wrap_eq.
  exists (k * ring_value b + j * ring_value a + k * j * USIZE_MOD). lia.
Qed.
End eval.

(** ** Theorems *)

(** C20: the parser of examples/parser_expr.rs accepts exactly the language of the
    grammar and builds the tree of the derivation in the arena.  On any input it
    ends; when it returns, it has read a derivable prefix with the blanks after it,
    and the reference returned leads to the nodes of the derived tree, in memory the
    arena will not hand out again; when it panics, the input as a whole has no
    derivation; a derivable input is read to its end with its own tree.  Nothing
    else of the arena changed.  The one other outcome is the abort, in a state in which
    the arena refuses the memory of a node.  (The arena's thread cache is empty.) *)
Theorem parse_expr_grammar `{cfg : Cfg} {ga : GlobalAlloc} `{!GlobalAllocOk ga} {er : ExprRepr} `{!ExprReprOk er} bt src s :
  Arena_ok s → Z.of_nat (length src) ≤ ISIZE_MAX →
  ∃ r p', parse_expr bt (Parser_new src s) = (r, p') ∧
    match r with
    | Ok q => Step (iw s) (iw (pa_aw p')) ∧ ∃ u w rest e, src = u ++ w ++ rest ∧ blanks w ∧ derives LAdd u e ∧
        pa_pos p' = Z.of_nat (length (u ++ w)) ∧ tree_at (iw (pa_aw p')) q e
    | Panic m => Step (iw s) (iw (pa_aw p')) ∧ m ≠ out_of_fuel ∧ ¬ ∃ u w e, src = u ++ w ∧ blanks w ∧ derives LAdd u e
    | Abort _ => Step (iw s) (iw (pa_aw p')) ∧ refused expr_layout (pa_aw p')
    | UB _ => False
    end ∧
    ∀ u w e, src = u ++ w → blanks w → derives LAdd u e →
      match r with
      | Ok q => pa_pos p' = Z.of_nat (length src) ∧ tree_at (iw (pa_aw p')) q e
      | Abort _ => True
      | _ => False
      end.
Proof.
  intros Hok Hlen. destruct (parse_expr_sim bt src s Hok Hlen) as (r & p' & E & Hr). exists r, p'. split; [exact E|].
  assert (∀ u w e, src = u ++ w → blanks w → derives LAdd u e → ref_parse src = Ok (e, [])) as Hder
    by (intros u w e -> Hw Hd; apply ref_parse_iff; by exists u, w).
  destruct r as [q|m|m|m]; [| |by split|done]; destruct Hr as [[Hst Hi] Hr]; simpl in Hst, Hi.
  - destruct Hr as (e & s' & Ho & (pre & Hpre & Hpos) & Ht). split.
    + split; [done|]. unfold ref_parse in Ho. apply ref_add_sound in Ho as (u & w & Es & Hw & Hd). exists u, w, s', e.
      splits; [done..| |done]. rewrite Hi, Es, app_assoc in Hpre. apply (inj (.++ s')) in Hpre. by rewrite Hpos, Hpre.
    + intros u w e' Es Hw Hd. rewrite (Hder u w e' Es Hw Hd) in Ho. injection Ho as <- <-. split; [|done].
      rewrite Hi, app_nil_r in Hpre. by rewrite Hpos, Hpre.
  - split; [|by intros u w e Es Hw Hd; rewrite (Hder u w e Es Hw Hd) in Hr]. split; [done|]. split.
    + intros ->. by apply (ref_add_fuelled (S (length src)) (S (length src)) (le_n _) src (Nat.lt_succ_diag_r _)).
    + intros (u & w & e & Es & Hw & Hd). by rewrite (Hder u w e Es Hw Hd) in Hr.
Qed.

Lemma parse_expr_grammar_witness :
  let src := [49; 32; 43; 32; 50; 42; 40; 51; 45; 52; 41; 32; 41] in
  ∃ q p', @parse_expr cfg_dev bump_alloc word_repr "bt" (Parser_new src demo_state) = (Ok q, p') ∧
    pa_pos p' = 12 ∧ ∃ e, @tree_at word_repr (iw (pa_aw p')) q e.
Proof.
  intros src. pose proof (@parse_expr_grammar cfg_dev bump_alloc bump_alloc_ok word_repr word_repr_ok "bt" src demo_state) as H.
  destruct H as (r & p' & E & Hr & _); [exact demo_ok|simpl; ulia|].
  assert (r = Ok 65752) as -> by (change r with ((r, p').1); rewrite <- E; vm_compute; reflexivity).
  exists 65752, p'. split; [exact E|]. destruct Hr as (_ & u & w & rest & e & _ & _ & _ & _ & Ht).
  split; [|by exists e]. change p' with ((@Ok Z 65752, p').2). rewrite <- E. vm_compute. reflexivity.
Defined.

(** C21: printing and parsing round-trip.  The text of any tree (operators [+ - * /],
    numbers of an [i64], parentheses only where precedence asks for them) is parsed
    to its end into that very tree, unless the arena is out of memory: the parser aborts
    in a state in which the arena refuses the memory of a node. *)
Theorem parse_print_roundtrip `{cfg : Cfg} {ga : GlobalAlloc} `{!GlobalAllocOk ga} {er : ExprRepr} `{!ExprReprOk er} bt e s :
  Arena_ok s → printable e → Z.of_nat (length (print LAdd e)) ≤ ISIZE_MAX →
  ∃ r p', parse_expr bt (Parser_new (print LAdd e) s) = (r, p') ∧
    match r with
    | Ok q => pa_pos p' = Z.of_nat (length (print LAdd e)) ∧ tree_at (iw (pa_aw p')) q e
    | Abort _ => Step (iw s) (iw (pa_aw p')) ∧ refused expr_layout (pa_aw p')
    | _ => False
    end.
Proof.
  intros Hok Hp Hlen. destruct (parse_expr_sim bt _ s Hok Hlen) as (r & p' & E & Hr). exists r, p'. split; [exact E|].
  assert (ref_parse (print LAdd e) = Ok (e, [])) as Href.
  { apply ref_parse_iff. exists (print LAdd e), []. split; [by rewrite app_nil_r|]. split; [constructor|by apply print_derives]. }
  rewrite Href in Hr. destruct r as [q|m|m|m]; [|by destruct Hr|done|done].
  destruct Hr as ((_ & Hi) & e' & s' & [= <- <-] & (pre & Hpre & Hpos) & Ht). split; [|done].
  simpl in Hi. rewrite Hi, app_nil_r in Hpre. by rewrite Hpos, Hpre.
Qed.

Lemma parse_print_roundtrip_witness :
  let e := EBinary 45 (EBinary 45 (ENumber 10) (ENumber 4)) (EBinary 42 (EBinary 43 (ENumber 1) (ENumber 2)) (ENumber 3)) in
  ∃ q p', @parse_expr cfg_release bump_alloc word_repr "bt" (Parser_new (print LAdd e) demo_state) = (Ok q, p') ∧
    @tree_at word_repr (iw (pa_aw p')) q e.
Proof.
  intros e. pose proof (@parse_print_roundtrip cfg_release bump_alloc bump_alloc_ok word_repr word_repr_ok "bt" e demo_state) as H.
  destruct H as (r & p' & E & Hr); [exact demo_ok|vm_compute; intuition discriminate|vm_compute; discriminate|].
  assert (r = Ok 65800) as -> by (change r with ((r, p').1); rewrite <- E; vm_compute; reflexivity).
  exists 65800, p'. split; [exact E|]. by destruct Hr.
Defined.

(** C22: what the example prints.  On a derivable input, [main] computes the value of
    the expression: exactly the integer it denotes whenever no step overflows or
    divides by zero; otherwise a build with overflow checks panics, and one without
    computes sums and products modulo 2^64.  The evaluator's recursion ends within
    the length of the input.  The one other outcome is the abort of the parser. *)
Theorem parser_main_value `{cfg : Cfg} {ga : GlobalAlloc} `{!GlobalAllocOk ga} {er : ExprRepr} `{!ExprReprOk er} bt self src w0 a w1 u w e :
  World_ok self w0 → Arena_with_capacity self (16 * 1024) w0 = (Ok a, w1) → Z.of_nat (length src) ≤ ISIZE_MAX →
  src = u ++ w → blanks w → derives LAdd u e →
  ∃ r w2, parser_main bt self src w0 = (r, w2) ∧
    match r with
    | Abort _ => ∃ a', let s := mkAW a' w2 in Step (iw (mkAW a w1)) (iw s) ∧ refused expr_layout s
    | _ => match eval_Z e with Some v => r = Ok v | None => overflow_checks = true → ∃ m, r = Panic m end ∧
           (overflow_checks = false → no_division e → r = Ok (i64_wrap (ring_value e)))
    end.
Proof.
  intros Hw0 Hnew Hlen Es Hw Hd.
  destruct (Arena_with_capacity_try self (16 * 1024) w0 a w1 ltac:(ulia) Hnew) as (_ & cap & Hcap & Htry).
  destruct (Arena_try_with_capacity_ok self cap w0 a w1 Hw0 Hcap Htry) as (Hok & _).
  destruct (parse_expr_sim bt src (mkAW a w1) Hok Hlen) as (r & p' & E & Hr).
  unfold parser_main, mbind, M_bind. rewrite Hnew. unfold parse_and_eval. rewrite E.
  rewrite (proj2 (ref_parse_iff src e)) in Hr by (by exists u, w).
  destruct r as [q|m|m|m]; [|by destruct Hr| |done].
  2:{ destruct p' as [? ? [a' w']]. eexists _, _. split; [reflexivity|]. exists a'. exact Hr. }
  destruct Hr as ((_ & Hi) & e' & s' & [= <- <-] & _ & Ht). simpl in Hi.
  assert (depth e ≤ input_fuel p')%nat as Hf.
  { pose proof (derives_depth _ _ _ Hd). unfold input_fuel. rewrite Hi, Es, length_app. lia. }
  pose proof (eval_tree (iw (pa_aw p')) q e (input_fuel p') Ht Hf) as Hev.
  change (s_mem (iw (pa_aw p'))) with (w_mem (a_world (pa_aw p'))) in Hev. rewrite Hev.
  eexists _, _. split; [reflexivity|]. pose proof (derives_printable _ _ _ Hd) as Hp.
  pose proof (eval_expr_exact e Hp) as Hex. pose proof (eval_expr_wraps e) as Hwr.
  pose proof (eval_expr_returns e) as Hret.
  destruct (eval_expr e) as [v|m|m|m]; [|..|done|done]; (split; [exact Hex|by intros; apply Hwr]).
Qed.

(** The input of the example. *)
Lemma parser_main_value_witness :
  let src := [49; 32; 43; 32; 50; 32; 42; 32; 40; 51; 32; 43; 32; 52; 41] in
  ∃ w2, @parser_main cfg_dev bump_alloc word_repr "bt" 100 src demo_world = (Ok 15, w2).
Proof.
  intros src.
  pose (e := EBinary 43 (ENumber 1) (EBinary 42 (ENumber 2) (EBinary 43 (ENumber 3) (ENumber 4)))).
  destruct (@Arena_with_capacity cfg_dev bump_alloc 100 (16 * 1024) demo_world) as [r0 w1] eqn:E0.
  assert (∃ a, r0 = Ok a) as [a ->] by (change r0 with ((r0, w1).1); rewrite <- E0; vm_compute; eexists; reflexivity).
  assert (derives LAdd src e) as Hd.
  { apply (print_derives e LAdd). vm_compute. intuition discriminate. }
  destruct (@parser_main_value cfg_dev bump_alloc bump_alloc_ok word_repr word_repr_ok "bt" 100 src demo_world a w1 src [] e)
    as (r & w2 & E & Hr).
  - exact demo_world_ok.
  - exact E0.
  - simpl. ulia.
  - by rewrite app_nil_r.
  - constructor.
  - exact Hd.
  - exists w2. rewrite E. f_equal.
    assert (match r with Abort _ => False | _ => True end) as Hna.
    { change r with ((r, w2).1). rewrite <- E. vm_compute. exact I. }
    assert (eval_Z e = Some 15) as Hz by (vm_compute; reflexivity). rewrite Hz in Hr. clear E E0.
    destruct r; [exact (proj1 Hr)|exact (proj1 Hr)|destruct Hna|exact (proj1 Hr)].
Defined.
