(* ===== verification/GraphPool.v ===== *)
(** * GraphPool: breadth-first search over pooled nodes, of examples/graph_pool.rs

    A client of [Pool<T>]: the nodes of a graph live in a pool, [nodes] is the vector
    of their handles, and edges are indices into it. *)
From S2P Require Import Prelude Pools.
From stdpp Require Import relations.
Local Open Scope nat_scope.

Record GNode := mkGNode { gn_value : Z; gn_neighbors : list nat }.

Section bfs.
Context `{cfg : Cfg}.

(** The loop over [&node.neighbors]. *)
Fixpoint visit_neighbors (ns : list nat) (visited : list bool) (queue : list nat) : outcome (list bool * list nat) :=
  match ns with
  | [] => Ok (visited, queue)
  | n :: ns =>
      seen ← vec_index n visited;
      if negb seen then
        visited ← vec_set n true visited;
        visit_neighbors ns visited (queue ++ [n])
      else visit_neighbors ns visited queue
  end.

(** [while let Some(idx) = queue.pop_front()]; every index is queued at most once. *)
Fixpoint bfs_loop (fuel : nat) (nodes : list nat) (pool : Pool GNode) (visited : list bool) (order : list Z) (queue : list nat) : outcome (list Z) :=
  match fuel with
  | O => Panic "fuel exhausted"
  | S fuel =>
      match queue with
      | [] => Ok order
      | idx :: queue =>
          handle ← vec_index idx nodes;
          node ← Pooled_deref handle pool;
          '(visited, queue) ← visit_neighbors (gn_neighbors node) visited queue;
          bfs_loop fuel nodes pool visited (order ++ [gn_value node]) queue
      end
  end.

Definition bfs (start : nat) (nodes : list nat) (pool : Pool GNode) : outcome (list Z) :=
  let visited := replicate (length nodes) false in
  visited ← vec_set start true visited;
  bfs_loop (S (length nodes)) nodes pool visited [] [start].

(** [nodes[i].neighbors.push(n)], through [DerefMut]. *)
Definition push_neighbor (i n : nat) (nodes : list nat) (pool : Pool GNode) : outcome (Pool GNode) :=
  handle ← vec_index i nodes;
  node ← Pooled_deref handle pool;
  Pooled_deref_mut handle (mkGNode (gn_value node) (gn_neighbors node ++ [n])) pool.

(** Dropping the vector of handles. *)
Fixpoint drop_handles (nodes : list nat) (pool : Pool GNode) : outcome (Pool GNode) :=
  match nodes with
  | [] => Ok pool
  | h :: nodes => pool ← Pool_put_back h pool; drop_handles nodes pool
  end.

(** [main]: what it prints, and the pool when the handles are gone. *)
Definition graph_main : outcome (list Z * PoolStats * Pool GNode) :=
  let pool := Pool_with_capacity 8 in
  '(a, pool) ← Pool_alloc (mkGNode 1 []) pool;
  '(b, pool) ← Pool_alloc (mkGNode 2 []) pool;
  '(c, pool) ← Pool_alloc (mkGNode 3 []) pool;
  let nodes := [a; b; c] in
  pool ← push_neighbor 0 1 nodes pool;
  pool ← push_neighbor 1 2 nodes pool;
  order ← bfs 0 nodes pool;
  let stats := Pool_stats pool in
  pool ← drop_handles nodes pool;
  Ok (order, stats, pool).
End bfs.

(** ** The graph *)
Definition node_of (nodes : list nat) (pool : Pool GNode) (i : nat) : option GNode := nodes !! i ≫= λ h, Pool_abs pool !! h.
Definition edge (nodes : list nat) (pool : Pool GNode) (i j : nat) : Prop :=
  ∃ nd, node_of nodes pool i = Some nd ∧ j ∈ gn_neighbors nd.
(** Every handle is live and every edge leads to a node. *)
Definition graph_ok (nodes : list nat) (pool : Pool GNode) : Prop :=
  (∀ i, i < length nodes → is_Some (node_of nodes pool i)) ∧ (∀ i j, edge nodes pool i j → j < length nodes).
(** [n] is the length of the shortest paths from [start] to [i]. *)
Definition at_dist (nodes : list nat) (pool : Pool GNode) (start n i : nat) : Prop :=
  nsteps (edge nodes pool) n start i ∧ ∀ m, nsteps (edge nodes pool) m start i → n ≤ m.

(** ** The loop over the neighbours *)
Definition marks (visited : list bool) (l : list nat) : Prop := ∀ i, visited !! i = Some true ↔ i ∈ l.

Lemma visit_neighbors_spec ns visited l queue :
  marks visited l → Forall (λ n, n < length visited) ns →
  ∃ visited' new, visit_neighbors ns visited queue = Ok (visited', queue ++ new) ∧
    length visited' = length visited ∧ marks visited' (l ++ new) ∧ NoDup new ∧
    (∀ j, j ∈ new → j ∈ ns ∧ j ∉ l) ∧ (∀ j, j ∈ ns → j ∈ l ++ new).
Proof.
  intros Hm Hns. revert visited l queue Hm Hns. induction ns as [|n ns IH]; intros visited l queue Hm Hns; simpl.
  { exists visited, []. rewrite !app_nil_r. split; [done|]. split; [done|]. split; [done|]. split; [constructor|]. split; by intros j ?%elem_of_nil. }
  apply Forall_cons in Hns as [Hn Hns]. destruct (lookup_lt_is_Some_2 visited n Hn) as [seen Hs].
  unfold vec_index. rewrite Hs. simpl. destruct seen; simpl.
  - destruct (IH visited l queue Hm Hns) as (v' & new & E & Hl & Hm' & Hnd & Hnew & Hall). exists v', new.
    split; [done|]. split; [done|]. split; [done|]. split; [done|]. split.
    + intros j Hj. destruct (Hnew j Hj). split; [by right|done].
    + intros j [->|Hj]%elem_of_cons; [|by apply Hall]. apply elem_of_app. left. by apply Hm.
  - unfold vec_set. rewrite Hs. simpl.
    assert (n ∉ l) as Hnl by (intros Hin%Hm; congruence).
    destruct (IH (<[n := true]> visited) (l ++ [n]) (queue ++ [n])) as (v' & new & E & Hl & Hm' & Hnd & Hnew & Hall).
    + intros i. rewrite elem_of_app, list_elem_of_singleton, list_lookup_insert. case_decide as Hc.
      * destruct Hc as [-> _]. naive_solver.
      * rewrite (Hm i). naive_solver.
    + by rewrite length_insert.
    + exists v', (n :: new). rewrite <- app_assoc in E. rewrite <- app_assoc in Hm'. rewrite length_insert in Hl.
      split; [done|]. split; [done|]. split; [done|]. split; [|split].
      * constructor; [|done]. intros Hin%Hnew. destruct Hin as [_ Hin]. apply Hin, elem_of_app. right. by apply list_elem_of_singleton.
      * intros j [->|Hj]%elem_of_cons; [by split; [left|]|]. destruct (Hnew j Hj) as [H1 H2]. split; [by right|].
        intros Hin. apply H2, elem_of_app. by left.
      * intros j [->|Hj]%elem_of_cons; [apply elem_of_app; right; by left|]. apply Hall in Hj.
        by rewrite <- app_assoc in Hj.
Qed.

(** ** The main loop *)
Section search.
Context (nodes : list nat) (pool : Pool GNode) (start : nat).
Hypothesis (Hok : graph_ok nodes pool).

Abbreviation edge' := (edge nodes pool).
Abbreviation dist := (at_dist nodes pool start).

(** [dn]: the indices taken from the queue so far; [lv]: the distances of all
    indices queued so far.  They grow along the queue, by at most one. *)
Record BfsInv (dn queue : list nat) (visited : list bool) (order : list Z) (lv : list nat) : Prop := mkBfsInv {
  bv_marks : marks visited (dn ++ queue);
  bv_nodup : NoDup (dn ++ queue);
  bv_length : length visited = length nodes;
  bv_bound : Forall (λ i, i < length nodes) (dn ++ queue);
  bv_order : Forall2 (λ v i, gn_value <$> node_of nodes pool i = Some v) order dn;
  bv_dist : Forall2 dist lv (dn ++ queue);
  bv_sorted a b x y : a ≤ b → lv !! a = Some x → lv !! b = Some y → x ≤ y;
  bv_near k : lv !! length dn = Some k → Forall (λ x, x ≤ S k) lv;
  bv_closed i j : i ∈ dn → edge' i j → j ∈ dn ++ queue;
  bv_start : start ∈ dn ++ queue
}.

(** Everything nearer than the head of the queue was queued. *)
Lemma near_queued dn queue visited order lv k m i :
  BfsInv dn queue visited order lv → lv !! length dn = Some k → m ≤ k → nsteps edge' m start i → i ∈ dn ++ queue.
Proof.
  intros [_ _ _ _ _ Hd Hs _ Hc Hst] Hk. revert i. induction m as [|m IH]; intros i Hm Hn.
  { by inv Hn. }
  apply nsteps_inv_r in Hn as (y & Hn & He). assert (y ∈ dn ++ queue) as Hy by (apply IH; [lia|done]).
  apply list_elem_of_lookup in Hy as [a Ha]. destruct (Forall2_lookup_r _ _ _ _ _ Hd Ha) as (x & Hx & _ & Hmin).
  specialize (Hmin m Hn). assert (a < length dn) as Hlt.
  { destruct (decide (a < length dn)); [done|]. assert (k ≤ x) by (apply (Hs (length dn) a); [lia|done..]). lia. }
  rewrite lookup_app_l in Ha by done. apply (Hc y i); [by eapply list_elem_of_lookup_2|done].
Qed.

(** An index not queued before, next to the head at distance [k], is at distance
    [S k]. *)
Lemma next_dist dn queue visited order lv k idx j :
  BfsInv dn queue visited order lv → lv !! length dn = Some k → dist k idx → edge' idx j → j ∉ dn ++ queue → dist (S k) j.
Proof.
  intros Hi Hk [Hn _] He Hj. split; [by eapply nsteps_r|]. intros m Hm. destruct (decide (S k ≤ m)); [done|].
  exfalso. apply Hj. apply (near_queued dn queue visited order lv k m); [done|done|lia|done].
Qed.

Lemma bfs_turn dn idx queue visited order lv :
  BfsInv dn (idx :: queue) visited order lv →
  ∃ h nd visited' new lv', nodes !! idx = Some h ∧ Pooled_deref h pool = Ok nd ∧
    visit_neighbors (gn_neighbors nd) visited queue = Ok (visited', queue ++ new) ∧
    BfsInv (dn ++ [idx]) (queue ++ new) visited' (order ++ [gn_value nd]) lv'.
Proof.
  intros Hi. pose proof Hi as [Hm Hnd Hl Hb Ho Hd Hs Hnear Hc Hst]. destruct Hok as [Hlive Hedge].
  assert (idx < length nodes) as Hidx by (rewrite Forall_forall in Hb; apply Hb, elem_of_app; right; by left).
  destruct (Hlive idx Hidx) as [nd Hnode]. pose proof Hnode as (h & Hh & Habs)%bind_Some.
  assert (Pooled_deref h pool = Ok nd) as Hderef.
  { unfold Pooled_deref, vec_index. rewrite Pool_abs_lookup in Habs. destruct (pl_storage pool !! h) as [[v|]|]; by simplify_eq/=. }
  assert (∀ j, j ∈ gn_neighbors nd → edge' idx j) as Hnb by (intros j Hj; by exists nd).
  destruct (visit_neighbors_spec (gn_neighbors nd) visited (dn ++ idx :: queue) queue Hm) as (v' & new & E & Hl' & Hm' & Hnd' & Hnew & Hall).
  { apply Forall_forall. intros j Hj. rewrite Hl. by apply (Hedge idx), Hnb. }
  assert ((dn ++ idx :: queue) !! length dn = Some idx) as Hat by (by rewrite lookup_app_r, Nat.sub_diag by lia).
  destruct (Forall2_lookup_r _ _ _ _ _ Hd Hat) as (k & Hk & Hdist). specialize (Hnear k Hk).
  exists h, nd, v', new, (lv ++ replicate (length new) (S k)). do 3 (split; [done|]).
  assert (Heq : (dn ++ [idx]) ++ queue ++ new = (dn ++ idx :: queue) ++ new) by (by rewrite <- !app_assoc).
  assert (Forall (λ x, x ≤ S k) (lv ++ replicate (length new) (S k))) as Hle by (apply Forall_app_2; [done|by apply Forall_replicate]).
  assert (∀ a b x y, a ≤ b → (lv ++ replicate (length new) (S k)) !! a = Some x →
    (lv ++ replicate (length new) (S k)) !! b = Some y → x ≤ y) as Hsort.
  { intros a b x y Hab Hx Hy. apply lookup_app_Some in Hy as [Hy|[Hbl Hy]].
    - apply (Hs a b); [done| |done]. rewrite lookup_app_l in Hx; [done|]. apply lookup_lt_Some in Hy. lia.
    - apply lookup_replicate in Hy as [-> _]. rewrite Forall_lookup in Hle. by apply (Hle a). }
  split; rewrite ?Heq; try done.
  - apply NoDup_app. split; [done|]. split; [|done]. intros j Hj Hj'. by apply (Hnew j Hj').
  - lia.
  - apply Forall_app_2; [done|]. apply Forall_forall. intros j [Hj _]%Hnew. by apply (Hedge idx), Hnb.
  - apply Forall2_app; [done|]. constructor; [by rewrite Hnode|constructor].
  - apply Forall2_app; [done|]. apply Forall2_replicate_l; [done|]. apply Forall_forall. intros j [Hj Hnj]%Hnew.
    by apply (next_dist dn (idx :: queue) visited order lv k idx); auto.
  - intros k' Hk'. rewrite length_app in Hk'. simpl in Hk'.
    assert (k ≤ k') by (apply (Hsort (length dn) (length dn + 1)); [lia| |done]; apply lookup_app_Some; by left).
    eapply Forall_impl; [exact Hle|]. simpl. intros; lia.
  - intros i j Hij He. apply elem_of_app in Hij as [Hij| ->%list_elem_of_singleton].
    + apply elem_of_app. left. by apply (Hc i).
    + destruct He as (nd' & Hn' & Hj). rewrite Hnode in Hn'. injection Hn' as <-. by apply Hall.
  - apply elem_of_app. by left.
Qed.

(** Distinct indices of [nodes]: at most [length nodes] turns. *)
Lemma queued_bound dn queue visited order lv :
  BfsInv dn queue visited order lv → length dn + length queue ≤ length nodes.
Proof.
  intros [_ Hnd _ Hb _ _ _ _ _ _]. rewrite <- length_app, <- (length_seq (length nodes) 0).
  apply submseteq_length, NoDup_submseteq; [done|]. intros x Hx. rewrite Forall_forall in Hb. apply elem_of_seq.
  specialize (Hb x Hx). simpl in Hb. lia.
Qed.

Lemma bfs_loop_spec fuel dn queue visited order lv :
  BfsInv dn queue visited order lv → length nodes < fuel + length dn →
  ∃ order' idxs visited' lv', bfs_loop fuel nodes pool visited order queue = Ok order' ∧ BfsInv idxs [] visited' order' lv'.
Proof.
  revert dn queue visited order lv. induction fuel as [|fuel IH]; intros dn queue visited order lv Hi Hf; simpl.
  { pose proof (queued_bound _ _ _ _ _ Hi). lia. }
  destruct queue as [|idx queue]; [by exists order, dn, visited, lv|].
  destruct (bfs_turn dn idx queue visited order lv Hi) as (h & nd & visited' & new & lv' & Hh & Hd & Hv & Hi').
  unfold vec_index. rewrite Hh. simpl. rewrite Hd. simpl. rewrite Hv. simpl.
  apply (IH (dn ++ [idx]) _ _ _ lv'); [done|]. rewrite length_app. simpl. lia.
Qed.

Lemma bfs_start : start < length nodes → BfsInv [] [start] (<[start := true]> (replicate (length nodes) false)) [] [0].
Proof.
  intros Hs. split; simpl.
  - intros i. rewrite list_lookup_insert, list_elem_of_singleton, length_replicate. case_decide; [naive_solver|].
    rewrite lookup_replicate. naive_solver.
  - apply NoDup_singleton.
  - by rewrite length_insert, length_replicate.
  - by repeat constructor.
  - constructor.
  - repeat constructor. intros; lia.
  - intros a b x y _ Hx Hy. apply list_lookup_singleton_Some in Hx as [_ <-]. lia.
  - intros k _. repeat constructor. lia.
  - by intros i j ?%elem_of_nil.
  - by left.
Qed.

(** What is left when the queue is empty: the indices reachable from [start]. *)
Lemma bfs_done idxs visited order lv : BfsInv idxs [] visited order lv → ∀ i, i ∈ idxs ↔ rtc edge' start i.
Proof.
  intros [_ _ _ _ _ Hd _ _ Hc Hst] i. setoid_rewrite app_nil_r in Hc. rewrite app_nil_r in Hd, Hst. split.
  - intros [a Ha]%list_elem_of_lookup. destruct (Forall2_lookup_r _ _ _ _ _ Hd Ha) as (x & _ & Hn & _).
    apply rtc_nsteps. by exists x.
  - apply (rtc_ind_r (λ z, z ∈ idxs) start); [done|]. intros y z _ Hyz Hy. by apply (Hc y).
Qed.
End search.

(** C23: over live handles whose edges stay inside the vector, [bfs] returns: it pushes
    the value of every node reachable from [start] exactly once, and nothing else, in
    the order of the distance from [start] (the length of the shortest paths). *)
Theorem bfs_correct (nodes : list nat) (pool : Pool GNode) (start : nat) :
  graph_ok nodes pool → start < length nodes →
  ∃ order idxs, bfs start nodes pool = Ok order ∧
    Forall2 (λ v i, gn_value <$> node_of nodes pool i = Some v) order idxs ∧
    NoDup idxs ∧ (∀ i, i ∈ idxs ↔ rtc (edge nodes pool) start i) ∧
    (∀ a b i j m n, a ≤ b → idxs !! a = Some i → idxs !! b = Some j →
       at_dist nodes pool start m i → at_dist nodes pool start n j → m ≤ n).
Proof.
  intros Hok Hs. destruct (bfs_loop_spec nodes pool start Hok (S (length nodes)) [] [start] _ [] [0] (bfs_start nodes pool start Hs))
    as (order & idxs & visited & lv & E & Hi); [simpl; lia|]. exists order, idxs.
  split; [unfold bfs, vec_set; by rewrite lookup_replicate_2|]. pose proof (bfs_done _ _ _ _ _ _ _ Hi) as Hr.
  destruct Hi as [_ Hnd _ _ Ho Hd Hsort _ _ _]. rewrite app_nil_r in *. do 3 (split; [done|]).
  intros a b i j m n Hab Ha Hb Hm Hn.
  destruct (Forall2_lookup_r _ _ _ _ _ Hd Ha) as (x & Hx & Hdx). destruct (Forall2_lookup_r _ _ _ _ _ Hd Hb) as (y & Hy & Hdy).
  specialize (Hsort a b x y Hab Hx Hy). destruct Hm as [Hm1 Hm2], Hn as [Hn1 Hn2], Hdx as [Hx1 Hx2], Hdy as [Hy1 Hy2].
  specialize (Hm2 x Hx1). specialize (Hy2 n Hn1). lia.
Qed.

(** A pool whose slot 2 is free, and a graph with a cycle and a node nobody reaches:
    0 -> 1, 2; 1 -> 3; 2 -> 3; 3 -> 0; 4 -> 0. *)
Definition bfs_ex_nodes : list nat := [5; 0; 1; 4; 3].
Definition bfs_ex_pool : Pool GNode :=
  mkPool [Some (mkGNode 20 [3]); Some (mkGNode 30 [3]); None; Some (mkGNode 50 [0]); Some (mkGNode 40 [0]); Some (mkGNode 10 [1; 2])] [2] 5.

Example bfs_ex_order : bfs 0 bfs_ex_nodes bfs_ex_pool = Ok [10; 20; 30; 40]%Z.
Proof. reflexivity. Qed.

Lemma bfs_ex_ok : graph_ok bfs_ex_nodes bfs_ex_pool.
Proof.
  split.
  - intros i Hi. do 5 (destruct i as [|i]; [by eexists|]). simpl in Hi. lia.
  - intros i j (nd & Hn & Hj). do 5 (destruct i as [|i]; [vm_compute in Hn; injection Hn as <-; set_unfold in Hj; simpl; lia|]).
    by vm_compute in Hn.
Qed.

Lemma bfs_correct_witness :
  ∃ order idxs, bfs 0 bfs_ex_nodes bfs_ex_pool = Ok order ∧ length order = length idxs ∧
    NoDup idxs ∧ ∀ i, i ∈ idxs ↔ rtc (edge bfs_ex_nodes bfs_ex_pool) 0 i.
Proof.
  destruct (bfs_correct bfs_ex_nodes bfs_ex_pool 0 bfs_ex_ok) as (order & idxs & E & Hv & Hnd & Hr & _); [simpl; lia|].
  exists order, idxs. split; [exact E|]. split; [exact (Forall2_length _ _ _ Hv)|]. split; [exact Hnd|exact Hr].
Defined.

(** What [main] prints; after it the pool is empty again. *)
Example graph_main_output : ∃ pool, @graph_main cfg_dev = Ok ([1; 2; 3]%Z, mkPoolStats 8 3 5, pool) ∧ Pool_abs pool = ∅.
Proof. eexists. split; [vm_compute; reflexivity|]. by vm_compute. Qed.
