(* ===== verification/StringIntern.v ===== *)
(** * StringIntern: the string interner of examples/string_intern.rs

    A client of the arena: the strings live in the arena, a [HashSet<&str>] of
    references to them finds a string that was interned before.  The set compares
    strings by their contents, which it reads through the references; of its order
    nothing is used, so it is the list of its elements. *)
From S2P Require Import Prelude Memory Bump Chunk Slab ThreadLocal LockFree VirtualMemory Debug Inner InnerInv Objects Arena ArenaSafety ArenaSlices.
Local Open Scope Z_scope.

(** [&str]: the address and the length. *)
Definition StrRef : Type := Z * Z.

Section intern.
Context `{cfg : Cfg} `{ga : GlobalAlloc} (bt : string).

Definition str_load (r : StrRef) : M AW (list Z) := a_on_mem (mem_load r.1 (Z.to_nat r.2)).

(** [HashSet::get::<str>] and [HashSet::insert]. *)
Fixpoint HashSet_get (interns : list StrRef) (w : list Z) : M AW (option StrRef) :=
  match interns with
  | [] => mret None
  | r :: interns =>
      text ← str_load r;
      if decide (text = w) then mret (Some r) else HashSet_get interns w
  end.
Definition HashSet_insert (r : StrRef) (interns : list StrRef) : M AW (list StrRef) :=
  text ← str_load r;
  o ← HashSet_get interns text;
  mret (match o with Some _ => interns | None => vec_push r interns end).

(** The body of the loop: the reference, and the text printed. *)
Definition intern (w : list Z) (interns : list StrRef) : M AW (StrRef * list Z * list StrRef) :=
  o ← HashSet_get interns w;
  '(interned, interns) ← match o with
    | Some r => mret (r, interns)
    | None =>
        r ← Arena_alloc_str bt w;
        interns ← HashSet_insert r interns;
        mret (r, interns)
    end;
  text ← str_load interned;
  mret (interned, text, interns).

Fixpoint intern_words (words : list (list Z)) (interns : list StrRef) : M AW (list (StrRef * list Z) * list StrRef) :=
  match words with
  | [] => mret ([], interns)
  | w :: words =>
      '(interned, text, interns) ← intern w interns;
      '(out, interns) ← intern_words words interns;
      mret ((interned, text) :: out, interns)
  end.

(** [main] for any array of words: the lines it prints and [interns.len()]. *)
Definition intern_main (self : Z) (words : list (list Z)) : M World (list (StrRef * list Z) * nat) := λ w,
  match Arena_with_capacity self (64 * 1024) w with
  | (Ok arena, w) =>
      let '(r, s) := intern_words words [] (mkAW arena w) in
      (('(out, interns) ← r; Ok (out, length interns)), a_world s)
  | (Panic e, w) => (Panic e, w) | (Abort e, w) => (Abort e, w) | (UB e, w) => (UB e, w)
  end.
End intern.

(** ** The invariant *)

(** The reference leads to the string, in memory the arena will not hand out. *)
Record str_at (s : AW) (r : StrRef) (w : list Z) : Prop := mkStrAt {
  sa_len : r.2 = Z.of_nat (length w);
  sa_text : mem_load r.1 (length w) (w_mem (a_world s)) = (Ok w, w_mem (a_world s));
  sa_taken a : a ∈ mkRange r.1 r.2 → ¬ Inner_avail (iw s) a
}.
Definition str_range (r : StrRef) : Range := mkRange r.1 r.2.

(** [tbl]: the references of the set with their strings. *)
Record InternInv (s : AW) (tbl : list (StrRef * list Z)) : Prop := mkInternInv {
  iv_ok : Arena_ok s;
  iv_at : Forall (λ rw, str_at s rw.1 rw.2) tbl;
  iv_nodup : NoDup tbl.*2;
  iv_disjoint : pw_disjoint (str_range <$> tbl.*1)
}.

Lemma str_at_step s s' r w : Step (iw s) (iw s') → str_at s r w → str_at s' r w.
Proof.
  intros Hst [Hl Ht Ha]. split; [done| |].
  - destruct (obj_stored_step _ _ (mkObj (mkLayout r.2 1) w, r.1) Hst) as [H _]; [split; [exact Ht|apply Z.mod_1_r]| |exact H].
    simpl. rewrite <- Hl. exact Ha.
  - intros a Hin Hav. apply (Ha a Hin). by apply (step_avail _ _ Hst).
Qed.
Lemma table_at_step s s' (tbl : list (StrRef * list Z)) :
  Step (iw s) (iw s') → Forall (λ rw, str_at s rw.1 rw.2) tbl → Forall (λ rw, str_at s' rw.1 rw.2) tbl.
Proof. intros Hst Hat. eapply Forall_impl; [exact Hat|]. intros rw. by apply str_at_step. Qed.

(** A string has one reference, a reference one string. *)
Lemma intern_functional s tbl r r' w : InternInv s tbl → (r, w) ∈ tbl → (r', w) ∈ tbl → r = r'.
Proof.
  intros [_ _ Hnd _] [i Hi]%list_elem_of_lookup [j Hj]%list_elem_of_lookup.
  assert (tbl.*2 !! i = Some w) as Hi2 by (by rewrite list_lookup_fmap, Hi).
  assert (tbl.*2 !! j = Some w) as Hj2 by (by rewrite list_lookup_fmap, Hj).
  assert (i = j) as -> by (by eapply NoDup_lookup). congruence.
Qed.
Lemma str_at_functional s r w w' : str_at s r w → str_at s r w' → w = w'.
Proof.
  intros [Hl Ht _] [Hl' Ht' _]. assert (length w = length w') as E by lia. rewrite <- E, Ht in Ht'. congruence.
Qed.

Section proofs.
Context `{cfg : Cfg} {ga : GlobalAlloc} `{!GlobalAllocOk ga} (bt : string).

Lemma str_load_eq s r w : str_at s r w → str_load r s = (Ok w, s).
Proof.
  intros [Hl Ht _]. unfold str_load, a_on_mem, a_on_world, w_on_mem, zoom. rewrite Hl, Nat2Z.id, Ht. by destruct s as [? []].
Qed.

Lemma HashSet_get_eq s (tbl : list (StrRef * list Z)) w :
  Forall (λ rw, str_at s rw.1 rw.2) tbl →
  ∃ o, HashSet_get tbl.*1 w s = (Ok o, s) ∧
    match o with Some r => (r, w) ∈ tbl | None => w ∉ tbl.*2 end.
Proof.
  induction 1 as [|[r t] tbl Hrw _ IH]; [exists None; split; [done|apply not_elem_of_nil]|]. csimpl. unfold mbind, M_bind.
  rewrite (str_load_eq s r t Hrw). destruct (decide (t = w)) as [->|Hne]; [exists (Some r); split; [done|left]|].
  destruct IH as (o & -> & Ho). exists o. split; [done|]. destruct o as [r'|]; [by right|]. rewrite not_elem_of_cons. naive_solver.
Qed.

(** Interning one string. *)
Definition intern_post (s : AW) (tbl : list (StrRef * list Z)) (w : list Z) (r : outcome (StrRef * list Z * list StrRef)) (s' : AW) : Prop :=
  match r with
  | Ok (ref, text, interns) => text = w ∧ Step (iw s) (iw s') ∧
      ∃ tbl', interns = (tbl ++ tbl').*1 ∧ InternInv s' (tbl ++ tbl') ∧ (ref, w) ∈ tbl ++ tbl' ∧ (∀ w', w' ∈ (tbl ++ tbl').*2 ↔ w' ∈ tbl.*2 ∨ w' = w)
  | Abort _ => GaveUp (mkLayout (Z.of_nat (length w)) 1) s s'
  | _ => False
  end.

(** A string just allocated joins the table. *)
Lemma intern_new s tbl w p s1 :
  InternInv s tbl → w ∉ tbl.*2 → Step (iw s) (iw s1) → Fresh (Z.of_nat (length w)) (iw s) p (iw s1) →
  mem_load p (length w) (w_mem (a_world s1)) = (Ok w, w_mem (a_world s1)) →
  InternInv s1 (tbl ++ [((p, Z.of_nat (length w)), w)]).
Proof.
  intros [Hok Hat Hnd Hd] Hnew Hst [Hf _ _] Hld. split.
  - exact (step_wf _ _ Hst).
  - apply Forall_app_2; [by apply (table_at_step s)|]. apply Forall_singleton. split; [done|exact Hld|]. intros a Ha. by apply Hf.
  - rewrite fmap_app. apply NoDup_app. split; [done|]. split; [|apply NoDup_singleton].
    intros x Hx ->%list_elem_of_singleton. done.
  - rewrite !fmap_app. apply pw_disjoint_app. split; [done|]. split; [simpl; done|].
    rewrite Forall_fmap, Forall_fmap. eapply Forall_impl; [exact Hat|]. intros [r t] [_ _ Ht]. simpl in *.
    apply Forall_singleton, range_disjoint_spec. intros a Ha Hb. apply (Ht a Ha). by apply Hf.
Qed.

Lemma intern_step s tbl w :
  InternInv s tbl → Z.of_nat (length w) ≤ ISIZE_MAX →
  ∃ r s', intern bt w tbl.*1 s = (r, s') ∧ intern_post s tbl w r s'.
Proof.
  intros Hi Hlen. pose proof Hi as [Hok Hat Hnd Hd]. unfold intern. unfold mbind at 1, M_bind at 1.
  destruct (HashSet_get_eq s tbl w Hat) as ([r|] & -> & Ho).
  - unfold mbind at 1, M_bind at 1, mret at 1, M_ret at 1. unfold mbind at 1, M_bind at 1.
    rewrite Forall_forall in Hat. pose proof (Hat _ Ho) as Hr. rewrite (str_load_eq s r w Hr).
    eexists _, s. split; [reflexivity|]. split; [done|]. split; [by apply Step_refl|]. exists []. rewrite app_nil_r. splits; [done..|].
    intros w'. split; [by left|]. intros [?| ->]; [done|]. apply list_elem_of_fmap. by exists (r, w).
  - destruct (alloc_str_step bt w s Hok Hlen) as (o & s1 & E & Hr).
    assert (∀ A (k : StrRef → M AW A), (r ← Arena_alloc_str bt w; k r) s =
      match o with Ok r => k r s1 | Panic e => (Panic e, s1) | Abort e => (Abort e, s1) | UB e => (UB e, s1) end) as Eb
      by (intros A k; unfold mbind, M_bind; by rewrite E).
    unfold mbind at 1, M_bind at 1. rewrite Eb. destruct o as [[p n]|e|e|e]; [|done|by eexists _, _|done].
    destruct Hr as (-> & Hst & Hf & Hld). set (r := (p, Z.of_nat (length w))).
    pose proof (intern_new s tbl w p s1 Hi Ho Hst Hf Hld) as Hi1. fold r in Hi1.
    pose proof (iv_at _ _ Hi1) as Hat1. rewrite Forall_app, Forall_singleton in Hat1. destruct Hat1 as [Hat1 Hr1]. simpl in Hr1.
    unfold HashSet_insert. unfold mbind at 1, M_bind at 1. unfold mbind at 1, M_bind at 1. rewrite (str_load_eq s1 r w Hr1).
    unfold mbind at 1, M_bind at 1. destruct (HashSet_get_eq s1 tbl w Hat1) as ([r'|] & -> & Ho').
    { exfalso. apply Ho, list_elem_of_fmap. by exists (r', w). }
    unfold mret, M_ret, mbind, M_bind. rewrite (str_load_eq s1 r w Hr1).
    eexists _, s1. split; [reflexivity|]. split; [done|]. split; [done|]. exists [(r, w)]. splits.
    + by rewrite fmap_app.
    + done.
    + apply elem_of_app. right. by apply list_elem_of_singleton.
    + intros w'. rewrite fmap_app, elem_of_app. simpl. by rewrite list_elem_of_singleton.
Qed.

Lemma intern_words_step words s tbl :
  InternInv s tbl → Forall (λ w, Z.of_nat (length w) ≤ ISIZE_MAX) words →
  ∃ r s', intern_words bt words tbl.*1 s = (r, s') ∧
    match r with
    | Ok (out, interns) => Step (iw s) (iw s') ∧ out.*2 = words ∧
        ∃ tbl', interns = (tbl ++ tbl').*1 ∧ InternInv s' (tbl ++ tbl') ∧ Forall (λ rw, rw ∈ tbl ++ tbl') out ∧
          ∀ w, w ∈ (tbl ++ tbl').*2 ↔ w ∈ tbl.*2 ∨ w ∈ words
    | Abort _ => Step (iw s) (iw s') ∧ ∃ w, w ∈ words ∧ refused (mkLayout (Z.of_nat (length w)) 1) s'
    | _ => False
    end.
Proof.
  intros Hi Hw. revert s tbl Hi. induction Hw as [|w words Hlen Hw IH]; intros s tbl Hi.
  { eexists _, s. split; [done|]. split; [by apply Step_refl, Hi|]. split; [done|]. exists []. rewrite app_nil_r.
    splits; [done|done|constructor|]. intros w. rewrite elem_of_nil. tauto. }
  simpl. unfold mbind at 1, M_bind at 1. destruct (intern_step s tbl w Hi Hlen) as (r & s1 & -> & Hr).
  destruct r as [[[ref text] interns]|e|e|e]; [|done| |done].
  2:{ eexists _, _. split; [reflexivity|]. destruct Hr as [Hst _ Href]. split; [done|]. exists w. split; [left|done]. }
  destruct Hr as (-> & Hst & tbl1 & -> & Hi1 & Href & Hws). unfold mbind at 1, M_bind at 1.
  destruct (IH s1 (tbl ++ tbl1) Hi1) as (r & s2 & -> & Hr). destruct r as [[out interns]|e|e|e]; [|done| |done].
  - destruct Hr as (Hst2 & <- & tbl2 & -> & Hi2 & Hout & Hws2). eexists _, _. split; [reflexivity|].
    split; [by eapply Step_trans|]. split; [done|]. exists (tbl1 ++ tbl2). rewrite !app_assoc. splits; [done|done| |].
    + constructor; [|done]. apply elem_of_app. by left.
    + intros w'. rewrite Hws2, Hws, elem_of_cons. tauto.
  - eexists _, _. split; [reflexivity|]. destruct Hr as (Hst' & w' & Hin & Hre).
    split; [by eapply Step_trans|]. exists w'. split; [by right|done].
Qed.
End proofs.

(** C24: interning.  For any words, each line printed carries the word itself; two
    occurrences get the same reference exactly when the words are equal; references
    to different words do not overlap; the set ends with one element per distinct
    word.  At the end every reference still reads as its word, in memory the arena
    will not hand out again.  The one other outcome is the abort, in a state in which
    the arena refuses the memory of one of the words.  (Words of at most [isize::MAX]
    bytes; the arena's thread cache is empty.) *)
Theorem intern_words_spec `{cfg : Cfg} {ga : GlobalAlloc} `{!GlobalAllocOk ga} bt (words : list (list Z)) s :
  Arena_ok s → Forall (λ w, Z.of_nat (length w) ≤ ISIZE_MAX) words →
  ∃ r s', intern_words bt words [] s = (r, s') ∧
    match r with
    | Ok (out, interns) => Step (iw s) (iw s') ∧ out.*2 = words ∧
        Forall (λ rw, rw.1 ∈ interns ∧ str_at s' rw.1 rw.2) out ∧
        (∀ i j r1 w1 r2 w2, out !! i = Some (r1, w1) → out !! j = Some (r2, w2) → (r1 = r2 ↔ w1 = w2)) ∧
        pw_disjoint (str_range <$> interns) ∧
        length interns = length (remove_dups words)
    | Abort _ => Step (iw s) (iw s') ∧ ∃ w, w ∈ words ∧ refused (mkLayout (Z.of_nat (length w)) 1) s'
    | _ => False
    end.
Proof.
  intros Hok Hw. destruct (intern_words_step bt words s [] ltac:(split; [done|constructor|constructor|done]) Hw) as (r & s' & E & Hr).
  exists r, s'. split; [exact E|]. destruct r as [[out interns]|e|e|e]; try done.
  destruct Hr as (Hst & Hws & tbl & -> & Hi & Hout & Hall). simpl in *. pose proof Hi as [_ Hat Hnd Hd]. rewrite Forall_forall in Hat, Hout.
  splits; [done|done| | |done|].
  - apply Forall_forall. intros [r1 w1] Hin%Hout. split; [|by apply (Hat (r1, w1))]. apply list_elem_of_fmap. by exists (r1, w1).
  - intros i j r1 w1 r2 w2 H1%list_elem_of_lookup_2%Hout H2%list_elem_of_lookup_2%Hout. split; intros ->.
    + apply (str_at_functional s' r2); [by apply (Hat (r2, w1))|by apply (Hat (r2, w2))].
    + by apply (intern_functional s' tbl _ _ w2).
  - rewrite length_fmap, <- (length_fmap snd). apply Permutation_length, NoDup_Permutation; [done|apply NoDup_remove_dups|].
    intros w. rewrite Hall, elem_of_remove_dups, elem_of_nil. tauto.
Qed.

(** The words of the example. *)
Definition intern_ex : list (list Z) :=
  [[97; 112; 112; 108; 101]; [98; 97; 110; 97; 110; 97]; [97; 112; 112; 108; 101]; [111; 114; 97; 110; 103; 101];
   [98; 97; 110; 97; 110; 97]; [112; 101; 97; 114]].

Lemma intern_words_spec_witness :
  ∃ out interns s', @intern_words cfg_dev bump_alloc "bt" intern_ex [] demo_state = (Ok (out, interns), s') ∧
    out.*2 = intern_ex ∧ length interns = 4%nat.
Proof.
  destruct (@intern_words_spec cfg_dev bump_alloc bump_alloc_ok "bt" intern_ex demo_state) as (r & s' & E & Hr).
  - exact demo_ok.
  - repeat constructor; vm_compute; discriminate.
  - assert (∃ out interns, r = Ok (out, interns)) as (out & interns & ->)
      by (change r with ((r, s').1); rewrite <- E; vm_compute; eexists _, _; reflexivity).
    exists out, interns, s'. destruct Hr as (_ & Hw & _ & _ & _ & Hl). split; [exact E|]. split; [exact Hw|exact Hl].
Defined.

Example intern_main_output :
  ∃ lines, (@intern_main cfg_dev bump_alloc "bt" 100 intern_ex demo_world).1 = Ok (lines, 4%nat) ∧ lines.*2 = intern_ex.
Proof. eexists. split; [vm_compute; reflexivity|reflexivity]. Qed.
