(* ===== verification/GameLoop.v ===== *)
(** * GameLoop: the frame loop of examples/game_loop.rs

    A client of scopes: every frame takes an uninitialised slice of 256 vectors from
    a scope, writes it slot by slot and leaves the scope.  [f32] arithmetic is that
    of IEEE 754 binary32, [Stdlib.Floats.SpecFloat] with 24 bits of precision and
    the maximal exponent 128. *)
From Stdlib Require Import Floats.SpecFloat.
From S2P Require Import Prelude Memory Bump Chunk Slab ThreadLocal LockFree VirtualMemory Debug Inner InnerInv Objects Arena ArenaSafety ArenaCheckpoint ArenaFrames ArenaSlices ScopeReuse.
Local Open Scope Z_scope.

(** ** [f32] *)
Definition f32 : Type := spec_float.
Definition f32_of (n : Z) : f32 := binary_normalize 24 128 n 0 false.
Definition f32_mul : f32 → f32 → f32 := SFmul 24 128.
(** The literals [0.01] and [0.1]: the nearest values. *)
Definition f32_0_01 : f32 := S754_finite false 10737418 (-30).
Definition f32_0_1 : f32 := S754_finite false 13421773 (-27).

Definition f32_bits (x : f32) : Z :=
  match x with
  | S754_zero s => if s then 2147483648 else 0
  | S754_infinity s => (if s then 2147483648 else 0) + 2139095040
  | S754_nan => 2143289344
  | S754_finite s m e =>
      (if s then 2147483648 else 0) +
      (if Z.pos m <? 8388608 then Z.pos m else (e + 150) * 8388608 + (Z.pos m - 8388608))
  end.
Definition f32_bytes (x : f32) : list Z := le_bytes 4 (f32_bits x).

Example f32_literals : SFdiv 24 128 (f32_of 1) (f32_of 100) = f32_0_01 ∧ SFdiv 24 128 (f32_of 1) (f32_of 10) = f32_0_1.
Proof. split; reflexivity. Qed.

(** ** The program *)
Definition Vec3 : Layout := mkLayout 12 4.

(** [[x, y, 0.0]] of slot [i] in frame [frame]. *)
Definition position (frame i : Z) : list Z :=
  f32_bytes (f32_mul (f32_of frame) f32_0_01) ++ f32_bytes (f32_mul (f32_of i) f32_0_1) ++ f32_bytes (f32_of 0).

Section game.
Context `{cfg : Cfg} `{ga : GlobalAlloc} (bt : string).

(** [for (i, slot) in positions.iter_mut().enumerate() { slot.write(..) }], from slot
    [i] on. *)
Fixpoint fill_positions (n : nat) (i p frame : Z) : M AW unit :=
  match n with
  | O => mret tt
  | S n =>
      _ ← a_on_mem (ptr_write (p + 12 * i) Vec3 (position frame i));
      fill_positions n (i + 1) p frame
  end.

(** The closure of [simulate_frame]. *)
Definition frame_closure (frame : Z) (scope : ArenaCheckpoint) : M AW unit :=
  '(p, len) ← Scope_alloc_slice_uninit bt scope Vec3 256;
  fill_positions (Z.to_nat len) 0 p frame.
Definition simulate_frame (frame : Z) : M AW unit := Arena_scope (frame_closure frame).

(** [for frame in k..k + n { simulate_frame(&arena, frame) }]. *)
Fixpoint simulate_frames (n : nat) (k : Z) : M AW unit :=
  match n with
  | O => mret tt
  | S n => _ ← simulate_frame k; simulate_frames n (k + 1)
  end.

Definition game_main (self : Z) : M World unit := λ w,
  match Arena_with_capacity self (64 * 1024) w with
  | (Ok arena, w) => let '(r, s) := simulate_frames 1000 0 (mkAW arena w) in (r, a_world s)
  | (Panic e, w) => (Panic e, w) | (Abort e, w) => (Abort e, w) | (UB e, w) => (UB e, w)
  end.
End game.

(** The bytes of the first [n] slots. *)
Definition positions (frame : Z) (n : nat) : list Z := concat (position frame <$> seqZ 0 (Z.of_nat n)).

Lemma length_position frame i : length (position frame i) = 12%nat.
Proof. unfold position, f32_bytes. by rewrite !length_app, !length_le_bytes. Qed.
Lemma positions_S frame n : positions frame (S n) = positions frame n ++ position frame (Z.of_nat n).
Proof.
  unfold positions. rewrite seqZ_S, fmap_app, concat_app. cbn [fmap list_fmap concat]. by rewrite app_nil_r, Z.add_0_l.
Qed.
Lemma length_positions frame n : length (positions frame n) = (12 * n)%nat.
Proof. induction n as [|n IH]; [done|]. rewrite positions_S, length_app, IH, length_position. lia. Qed.

Lemma read_bytes_app bs p n m : read_bytes bs p (n + m) = read_bytes bs p n ++ read_bytes bs (p + Z.of_nat n) m.
Proof.
  revert p. induction n as [|n IH]; intros p; simpl; [by rewrite Z.add_0_r|]. rewrite IH. do 2 f_equal. f_equal. lia.
Qed.

(** ** A frame *)
Section proofs.
Context `{cfg : Cfg} {ga : GlobalAlloc} `{!GlobalAllocOk ga} (bt : string).
Hypothesis (Hlf : feat_lockfree = false) (Hdb : feat_debug = false).

(** While the slots are written: [s0] is the state before the slice was taken. *)
Record Filling (s0 s : AW) (p frame : Z) (n : nat) : Prop := mkFilling {
  fl_within : Within s0 s;
  fl_fresh : Fresh 3072 (iw s0) p (iw s);
  fl_aligned : p `mod` 4 = 0;
  fl_filled : read_bytes (bytes (w_mem (a_world s))) p (12 * n) = Some <$> positions frame n
}.

(** One slot. *)
Lemma slot_write s0 s p frame n :
  Filling s0 s p frame n → (n < 256)%nat →
  ∃ s', a_on_mem (ptr_write (p + 12 * Z.of_nat n) Vec3 (position frame (Z.of_nat n))) s = (Ok tt, s') ∧ Filling s0 s' p frame (S n).
Proof.
  intros [[[Hw Ha Hh Hb] Hx Hlen Hheap] [Hf Hv Hbd] Hal Hr] Hn.
  pose proof (length_position frame (Z.of_nat n)) as Hd. remember (position frame (Z.of_nat n)) as data eqn:Edata.
  set (q := p + 12 * Z.of_nat n). set (m := w_mem (a_world s)).
  assert (mem_valid q (Z.of_nat (length data)) m) as Hvq.
  { destruct Hv as [Hv|Hv]; [lia|]. right. rewrite Hd. eapply Exists_impl; [exact Hv|]. simpl. intros b Hsub.
    apply range_subseteq_spec. rewrite range_subseteq_spec in Hsub. intros a Hq. apply Hsub. unfold q in Hq. range_solve. }
  assert (q `mod` l_align Vec3 = 0) as Hq.
  { unfold q. simpl. replace (12 * Z.of_nat n) with (3 * Z.of_nat n * 4) by lia. by rewrite Z.mod_add. }
  unfold a_on_mem, a_on_world, w_on_mem, ptr_write. rewrite Hq. mrun. fold m. rewrite mem_store_ok by done.
  eexists. split; [reflexivity|].
  assert (∀ a, a ∈ mkRange q 12 → a ∈ mkRange p 3072) as Hsub by (intros a Hin; unfold q in Hin; range_solve).
  split; [split| | |]; [|exact Hx|exact Hlen|exact Hheap|split; [exact Hf|exact Hv|exact Hbd]|done|].
  - split; [exact Hw|exact Ha|exact Hh|]. intros a Hna. unfold s_mem. cbn [a_world iw i_world w_mem w_set_mem bytes]. rewrite lookup_write_bytes, decide_False; [exact (Hb a Hna)|].
    intros Hin. apply Hna. apply (Hf a), Hsub. rewrite Hd in Hin. range_solve.
  - cbn [a_world w_mem w_set_mem bytes]. replace (12 * S n)%nat with (12 * n + 12)%nat by lia. rewrite read_bytes_app, positions_S, <- Edata, fmap_app. f_equal.
    + fold m in Hr. rewrite <- Hr. apply read_write_disjoint, range_disjoint_spec. intros a Ha1 Ha2. rewrite Hd in Ha1. unfold q in Ha1. range_solve.
    + replace (p + Z.of_nat (12 * n)) with q by (unfold q; lia). rewrite <- Hd. apply read_write_same.
Qed.

Lemma fill_positions_step k s0 s p frame n :
  Filling s0 s p frame n → (n + k = 256)%nat →
  ∃ s', fill_positions k (Z.of_nat n) p frame s = (Ok tt, s') ∧ Filling s0 s' p frame 256.
Proof.
  revert s n. induction k as [|k IH]; intros s n Hf Hn; [exists s; split; [done|]; by replace 256%nat with n by lia|].
  cbn [fill_positions]. unfold mbind, M_bind. destruct (slot_write s0 s p frame n Hf) as (s1 & -> & Hf1); [lia|].
  destruct (IH s1 (S n) Hf1) as (s' & E & Hf'); [lia|]. exists s'. split; [|done]. by replace (Z.of_nat n + 1) with (Z.of_nat (S n)) by lia.
Qed.

(** The body of a frame: all slots are initialised, with the values of the frame. *)
Lemma frame_body frame s c :
  Arena_ok s → current s = Some c → Chunk_fits (mkLayout 3072 4) c →
  ∃ p s', Arena_alloc_slice_uninit bt Vec3 256 s = (Ok (p, 256), s') ∧
    ∃ s2, fill_positions 256 0 p frame s' = (Ok tt, s2) ∧ Within s s2 ∧
      mem_load p 3072 (w_mem (a_world s2)) = (Ok (positions frame 256), w_mem (a_world s2)).
Proof.
  intros Hok Hc Hfit.
  destruct (allocate_raw_within bt Hlf Hdb (mkLayout 3072 4) s c Hok) as (s1 & E & Hw & Hf & Hal); [vm_compute; intuition discriminate|simpl; lia|simpl; lia|done|done|].
  set (p := c_ptr c + _) in *. simpl in Hal, Hf.
  assert (Arena_alloc_slice_uninit bt Vec3 256 s = (Ok (p, 256), s1)) as Ea.
  { unfold Arena_alloc_slice_uninit. change (Layout_array Vec3 256) with (Some (mkLayout 3072 4)). cbn [Z.eqb].
    unfold mbind at 1, M_bind at 1. rewrite E. unfold a_on_mem, a_on_world, w_on_mem, ptr_write. cbn [l_align Vec3]. rewrite Hal. mrun.
    by destruct s1 as [? [[] ? ? ? ?]]. }
  exists p, s1. split; [exact Ea|].
  destruct (fill_positions_step 256 s s1 p frame 0) as (s2 & E2 & [Hw2 [_ Hv _] _ Hr]); [by split|done|].
  exists s2. split; [exact E2|]. split; [done|].
  assert (length (positions frame 256) = 3072%nat) as Hlen by apply length_positions.
  destruct (w_mem (a_world s2)) as [h bs] eqn:Em. rewrite <- Hlen. apply mem_load_written.
  - rewrite Hlen. unfold s_mem in Hv. simpl in Hv. by rewrite Em in Hv.
  - rewrite Hlen. exact Hr.
Qed.

Lemma simulate_frame_step frame s c :
  Arena_ok s → tail_unused (a_inner (a_arena s)) → 0 ≤ in_current_checkpoint_id (a_inner (a_arena s)) < USIZE_MAX →
  current s = Some c → Chunk_fits (mkLayout 3072 4) c →
  ∃ s', simulate_frame bt frame s = (Ok tt, s') ∧ Stable s s' ∧
    in_current_checkpoint_id (a_inner (a_arena s')) = in_current_checkpoint_id (a_inner (a_arena s)) + 1.
Proof.
  intros Hok Ht Hid Hc Hfit. unfold simulate_frame.
  destruct (scope_within Hlf Hdb (frame_closure bt frame) (λ r _, r = Ok tt) s Hok Ht Hid) as (r & s2 & s3 & E3 & -> & Hs & _ & Hid3); [|by exists s3].
  intros cp s1 Hok1 Hc1. rewrite Hc in Hc1. destruct (frame_body frame s1 c Hok1 Hc1 Hfit) as (p & s' & E & s2 & E2 & Hw & _).
  exists (Ok tt), s2. split; [|done]. unfold frame_closure, Scope_alloc_slice_uninit, mbind, M_bind. by rewrite E.
Qed.

Lemma simulate_frames_step n k s c :
  Arena_ok s → tail_unused (a_inner (a_arena s)) → 0 ≤ in_current_checkpoint_id (a_inner (a_arena s)) →
  in_current_checkpoint_id (a_inner (a_arena s)) + Z.of_nat n ≤ USIZE_MAX →
  current s = Some c → Chunk_fits (mkLayout 3072 4) c →
  ∃ s', simulate_frames bt n k s = (Ok tt, s') ∧ Stable s s'.
Proof.
  revert k s. induction n as [|n IH]; intros k s Hok Ht H0 Hid Hc Hfit; [exists s; split; [done|by apply Stable_refl]|].
  cbn [simulate_frames]. unfold mbind, M_bind.
  destruct (simulate_frame_step k s c Hok Ht) as (s1 & -> & Hs & Hid1); [lia|done|done|].
  destruct (IH (k + 1) s1) as (s' & E & Hs');
    [exact (step_wf _ _ (sb_step _ _ Hs))|exact (sb_tail _ _ Hs)|lia|lia|by rewrite (Stable_chunk _ _ Hs)|done|].
  exists s'. split; [exact E|by eapply Stable_trans].
Qed.
End proofs.

(** C25: the frame loop runs in constant memory, in builds without the lock-free and debug
    features.  Started in a well-formed arena whose current chunk has room for one frame
    (256 vectors), whose later chunks are empty, and whose 64-bit checkpoint
    identifiers last for the frames, any number of frames runs to its end without a
    failure: the chunks, their fill and the current chunk are those of before the loop,
    the global allocator was not called, and every object that was in the arena still
    holds its value. *)
Theorem frames_reuse_chunk `{cfg : Cfg} {ga : GlobalAlloc} `{!GlobalAllocOk ga} bt n k s c :
  feat_lockfree = false → feat_debug = false →
  Arena_ok s → tail_unused (a_inner (a_arena s)) → 0 ≤ in_current_checkpoint_id (a_inner (a_arena s)) →
  in_current_checkpoint_id (a_inner (a_arena s)) + Z.of_nat n ≤ USIZE_MAX →
  current s = Some c → Chunk_fits (mkLayout 3072 4) c →
  ∃ s', simulate_frames bt n k s = (Ok tt, s') ∧ Arena_ok s' ∧
    in_chunks (a_inner (a_arena s')) = in_chunks (a_inner (a_arena s)) ∧
    in_current_chunk (a_inner (a_arena s')) = in_current_chunk (a_inner (a_arena s)) ∧
    heap (w_mem (a_world s')) = heap (w_mem (a_world s)) ∧
    ∀ op, obj_stored (w_mem (a_world s)) op →
      (∀ a, a ∈ mkRange op.2 (Z.of_nat (length (o_value op.1))) → ¬ Inner_avail (iw s) a) →
      obj_stored (w_mem (a_world s')) op.
Proof.
  intros Hlf Hdb Hok Ht H0 Hid Hc Hfit.
  destruct (simulate_frames_step bt Hlf Hdb n k s c Hok Ht H0 Hid Hc Hfit) as (s' & E & [Hst _ Hcs Hcur Hh]).
  exists s'. splits; [exact E|exact (step_wf _ _ Hst)|done|done|done|]. intros op. exact (obj_stored_step (iw s) (iw s') op Hst).
Qed.

(** The first frame of an arena of 4096 bytes. *)
Definition game_state : AW :=
  match @Arena_with_capacity cfg_release bump_alloc 100 4096 demo_world with
  | (Ok a, w) => mkAW a w
  | _ => demo_state
  end.
Lemma game_state_ok : Arena_ok game_state.
Proof.
  unfold game_state.
  destruct (@Arena_with_capacity cfg_release bump_alloc 100 4096 demo_world) as [[a|e|e|e] w] eqn:E; [|exact demo_ok..].
  destruct (@Arena_with_capacity_try cfg_release bump_alloc bump_alloc_ok 100 4096 demo_world a w ltac:(ulia) E) as (_ & cap & Hcap & Ht).
  exact (proj1 (@Arena_try_with_capacity_ok cfg_release bump_alloc bump_alloc_ok 100 cap demo_world a w demo_world_ok Hcap Ht)).
Qed.

Lemma frames_reuse_chunk_witness :
  ∃ s', @simulate_frames cfg_release bump_alloc "bt" 1000 0 game_state = (Ok tt, s') ∧ Arena_ok s' ∧
    heap (w_mem (a_world s')) = heap (w_mem (a_world game_state)).
Proof.
  destruct (@frames_reuse_chunk cfg_release bump_alloc bump_alloc_ok "bt" 1000 0 game_state (mkChunk 65600 4096 0)) as (s' & E & Hok & _ & _ & Hh & _).
  - reflexivity.
  - reflexivity.
  - exact game_state_ok.
  - intros [|[|j]] c Hj Hc; [lia|vm_compute in Hc; discriminate|vm_compute in Hc; discriminate].
  - vm_compute. discriminate.
  - vm_compute. discriminate.
  - vm_compute. reflexivity.
  - vm_compute. discriminate.
  - exists s'. split; [exact E|]. split; [exact Hok|exact Hh].
Defined.
