(* ===== verification/Features.v ===== *)
(** * Features: the demonstrations of examples/v0_5_features.rs

    Clients of the checkpoint, debug and statistics interfaces, in the order of the
    source; what they print is what the definitions return.  [i32] literals are four
    bytes.  [f64] is that of LockFreeTelemetry.v. *)
From Stdlib Require Import Floats.SpecFloat.
From S2P Require Import Prelude Keeps Memory Bump Chunk Slab ThreadLocal LockFree LockFreeTelemetry VirtualMemory Debug Inner InnerInv Objects Arena ArenaSafety ArenaCheckpoint ArenaFrames ArenaCalls ArenaStats DebugRegistry.
Local Open Scope Z_scope.

Section demos.
Context `{cfg : Cfg} `{ga : GlobalAlloc} (self : Z) (bt : string).

(** [arena.alloc(i)] for an [i32]. *)
Definition i32_obj (i : Z) : Obj := mkObj (mkLayout 4 4) (le_bytes 4 i).
Definition alloc_i32 (i : Z) : M AW Z := Arena_alloc bt (mkLayout 4 4) (le_bytes 4 i).

(** [for i in from..from + n { arena.alloc(i); }] *)
Fixpoint alloc_range (n : nat) (from : Z) : M AW unit :=
  match n with
  | O => mret tt
  | S n => _ ← alloc_i32 from; alloc_range n (from + 1)
  end.

(** The values behind the three references, and the statistics printed. *)
Definition basic_arena_demo : M AW (list Z * list Z * list Z * (Z * Z)) :=
  number ← Arena_alloc bt (mkLayout 4 4) (le_bytes 4 42);
  text ← Arena_alloc_str bt [72; 101; 108; 108; 111; 44; 32; 97; 114; 101; 110; 97; 45; 98; 33];
  slice ← Arena_alloc_slice_copy bt (mkLayout 4 4) 5 (concat (le_bytes 4 <$> [1; 2; 3; 4; 5]));
  number ← a_on_mem (mem_load number 4);
  text ← a_on_mem (mem_load text.1 (Z.to_nat text.2));
  slice ← a_on_mem (mem_load slice.1 (Z.to_nat (4 * slice.2)));
  s ← get;
  let st := Arena_stats (a_arena s) in
  mret (number, text, slice, (st_bytes_used st, st_allocation_count st)).

Definition fast_reset_demo : M AW unit :=
  checkpoint1 ← Arena_checkpoint;
  _ ← alloc_range 100 0;
  checkpoint2 ← Arena_checkpoint;
  _ ← alloc_range 100 100;
  _ ← Arena_rewind_to_checkpoint checkpoint2;
  _ ← Arena_rewind_to_checkpoint checkpoint1;
  _ ← Arena_push_checkpoint;
  _ ← alloc_i32 1;
  _ ← Arena_push_checkpoint;
  _ ← alloc_i32 2;
  _ ← alloc_i32 3;
  _ ← Arena_pop_and_rewind;
  _ ← Arena_pop_and_rewind;
  mret tt.

(** The two results of [check_valid] and the statistics. *)
Definition memory_safety_demo : M AW (Result unit string * Result unit string * DebugStats) :=
  checkpoint ← Arena_checkpoint;
  value ← Arena_alloc bt (mkLayout 4 4) (le_bytes 4 42);
  before ← Arena_check_valid self value;
  _ ← Arena_rewind_to_checkpoint checkpoint;
  after ← Arena_check_valid self value;
  s ← get;
  mret (before, after, Arena_debug_stats self s).

(** [for i in from..from + n { let value = arena.alloc(i); if i % 200 == 0 { print } }]:
    the values printed. *)
Fixpoint alloc_print (n : nat) (from : Z) : M AW (list (list Z)) :=
  match n with
  | O => mret []
  | S n =>
      value ← alloc_i32 from;
      printed ← (if Z.rem from 200 =? 0 then v ← a_on_mem (mem_load value 4); mret [v] else mret []);
      rest ← alloc_print n (from + 1);
      mret (printed ++ rest)
  end.

(** The values printed, and the statistics. *)
Definition thread_local_demo : M AW (list (list Z) * (Z * Z)) :=
  printed ← alloc_print 1000 0;
  large_data ← Arena_alloc bt (mkLayout 10000 1) (replicate (Z.to_nat 10000) 0);
  _ ← alloc_range 200 1000;
  s ← get;
  let st := Arena_stats (a_arena s) in
  mret (printed, (st_bytes_used st, st_allocation_count st)).

(** [(cache_hits as f64 / allocations as f64) * 100.0], when there were hits. *)
Definition hit_rate (st : Z * Z * Z * Z) : option spec_float :=
  let '(allocations, cache_hits, _, _) := st in
  if 0 <? cache_hits then Some (SFmul 53 1024 (SFdiv 53 1024 (f64_of cache_hits) (f64_of allocations)) (f64_of 100)) else None.

(** The values, the statistics with the rate, and the final statistics. *)
Definition lockfree_demo : M AW (list (list Z) * (Z * Z * Z * Z) * option spec_float * (Z * Z * Z * Z)) :=
  printed ← alloc_print 1000 0;
  s ← get;
  let stats := Arena_lockfree_stats (a_arena s) in
  large_data ← Arena_alloc bt (mkLayout 5000 1) (replicate (Z.to_nat 5000) 0);
  _ ← alloc_range 1000 1000;
  s ← get;
  mret (printed, stats, hit_rate stats, Arena_lockfree_stats (a_arena s)).
End demos.

(** ** [fast_reset_demo] is two nested frames after two nested checkpoints *)
Section fast_reset.
Context `{cfg : Cfg} {ga : GlobalAlloc} `{!GlobalAllocOk ga} (bt : string).
Hypothesis (Hlf : feat_lockfree = false) (Hdb : feat_debug = false).

Definition in_checkpoint (m : M AW unit) : M AW unit :=
  cp ← Arena_checkpoint; _ ← m; Arena_rewind_to_checkpoint cp.

Lemma fast_reset_nested s :
  fast_reset_demo bt s =
  (_ ← in_checkpoint (_ ← alloc_range bt 100 0; in_checkpoint (alloc_range bt 100 100));
   in_frame (_ ← alloc_i32 bt 1; in_frame (_ ← alloc_i32 bt 2; _ ← alloc_i32 bt 3; mret tt))) s.
Proof.
  unfold fast_reset_demo, in_checkpoint, in_frame, mbind, M_bind, mret, M_ret.
  repeat lazymatch goal with
    |- context [match ?m ?s with pair _ _ => _ end] => destruct (m s) as [[] ?]; try reflexivity
  end.
Qed.

(** Where nothing panics, a checkpoint that is rewound is a scope. *)
Lemma in_checkpoint_scope m s :
  (∀ cp s1, Arena_checkpoint s = (Ok cp, s1) → match (m s1).1 with Panic _ => False | _ => True end) →
  in_checkpoint m s = in_scope m s.
Proof.
  intros Hm. unfold in_checkpoint, in_scope, Arena_scope, Scope_new, Scope_drop, mbind, M_bind.
  destruct (Arena_checkpoint s) as [[cp|e|e|e] s1] eqn:E; [|done..]. specialize (Hm cp s1 eq_refl). unfold with_drop.
  destruct (m s1) as [[[]|e|e|e] s2]; [|done..]. by destruct (Arena_rewind_to_checkpoint cp s2) as [[[]|e|e|e] s3].
Qed.

Lemma in_checkpoint_step n m os s :
  prog_pre (1 + n) s → 0 ≤ n → (∀ s1, prog_pre n s1 → ∃ r s2, m s1 = (r, s2) ∧ prog_post n os s1 r s2) →
  ∃ r s3, in_checkpoint m s = (r, s3) ∧ prog_post (1 + n) os s r s3 ∧ (r = Ok tt → ∃ s2, Restored s s2 s3).
Proof.
  intros Hpre Hn Hm. destruct (in_scope_step Hlf Hdb n m os s Hpre Hn Hm) as (r & s3 & E & Hr). exists r, s3. split; [|done].
  rewrite <- E. apply in_checkpoint_scope. intros cp s1 E1. destruct Hpre as [Hok Ht Hs Hid].
  destruct (checkpoint_run s Hok ltac:(destruct Hs; lia)) as (cp' & s1' & E1' & _ & Hcid & Hw1 & Hi1). rewrite E1 in E1'. injection E1' as <- <-.
  destruct (opened s s1 cp (in_checkpoints (a_inner (a_arena s))) Hok Ht Hs Hcid Hw1 (or_introl eq_refl)) as (Hst1 & Ht1 & Hs1); [by rewrite Hi1|].
  destruct (Hm s1) as (r1 & s2 & E2 & Hr1); [split; [exact (step_wf _ _ Hst1)|done|done|rewrite Hi1; simpl; lia]|].
  rewrite E2. by destruct r1.
Qed.

Fixpoint range_prog (n : nat) (from : Z) : Prog :=
  match n with
  | O => PNil
  | S n => PAlloc (i32_obj from) (range_prog n (from + 1))
  end.
Lemma i32_obj_ok i : Obj_ok (i32_obj i).
Proof. unfold Obj_ok. rewrite Hdb. simpl. split; [vm_compute; intuition discriminate|]. lia. Qed.
Lemma alloc_range_step n from s :
  prog_pre 0 s → ∃ r s', alloc_range bt n from s = (r, s') ∧ prog_post 0 (objs_of (range_prog n from)) s r s'.
Proof.
  intros Hpre. assert (frames_of (range_prog n from) = 0 ∧ Prog_ok (range_prog n from)) as [Hfr Hp].
  { clear Hpre. revert from. induction n as [|n IH]; intros from; simpl; [done|]. destruct (IH (from + 1)). split; [done|].
    split; [apply i32_obj_ok|done]. }
  assert (∀ s, alloc_range bt n from s = run_prog bt (range_prog n from) s) as ->.
  { clear. revert from. induction n as [|n IH]; intros from s; [done|]. simpl. unfold mbind, M_bind, Arena_obj. simpl.
    unfold alloc_i32. destruct (Arena_alloc _ _ _ s) as [[]]; [apply IH|done..]. }
  rewrite <- Hfr in Hpre |- *. by apply run_prog_step.
Qed.

(** The first half. *)
Lemma checkpoints_step s :
  prog_pre 2 s → ∃ r s', in_checkpoint (_ ← alloc_range bt 100 0; in_checkpoint (alloc_range bt 100 100)) s = (r, s') ∧
    prog_post 2 (objs_of (range_prog 200 0)) s r s' ∧ (r = Ok tt → ∃ s2, Restored s s2 s').
Proof.
  intros Hpre. apply (in_checkpoint_step 1); [done|lia|]. intros s1 Hpre1.
  destruct (alloc_range_step 100 0 s1) as (r & s2 & E & Hr); [destruct Hpre1; split; try done; lia|].
  unfold mbind, M_bind. rewrite E. change (objs_of (range_prog 200 0)) with (objs_of (range_prog 100 0) ++ objs_of (range_prog 100 100)).
  apply (prog_seq 0 1); [done|lia|done|]. intros s3 Hpre3.
  destruct (in_checkpoint_step 0 (alloc_range bt 100 100) _ s3 Hpre3 ltac:(lia) (λ s1 H, alloc_range_step 100 100 s1 H)) as (r' & s4 & E4 & Hr4 & _).
  by exists r', s4.
Qed.

(** The second half. *)
Definition stack_prog : Prog := PAlloc (i32_obj 1) (PFrame (PAlloc (i32_obj 2) (PAlloc (i32_obj 3) PNil)) PNil).
Lemma stack_step s :
  prog_pre 2 s → ∃ r s', in_frame (_ ← alloc_i32 bt 1; in_frame (_ ← alloc_i32 bt 2; _ ← alloc_i32 bt 3; mret tt)) s = (r, s') ∧
    prog_post 2 (i32_obj <$> [1; 2; 3]) s r s' ∧ (r = Ok tt → ∃ s2, Restored s s2 s').
Proof.
  intros Hpre. apply (in_frame_step Hlf Hdb 1); [done|lia|]. intros s1 Hpre1.
  destruct (run_prog_step bt Hlf Hdb stack_prog s1) as (r & s2 & E & Hr); [exact Hpre1|repeat split; apply i32_obj_ok|].
  exists r, s2. split; [|exact Hr]. rewrite <- E. simpl. unfold mbind, M_bind, Arena_obj, alloc_i32. simpl.
  destruct (Arena_alloc bt (mkLayout 4 4) _ s1) as [[q|e|e|e] s3]; [|done..].
  by destruct (in_frame _ s3) as [[[]|e|e|e] s4].
Qed.
End fast_reset.

(** The fast-reset demonstration leaves the arena as it found it.  Two nested
    checkpoints rewound from the inside out, then two checkpoints pushed and popped:
    the chunks with their fill (followed only by empty ones), the current chunk and
    the checkpoint stack are those of before, and every older object keeps its value.
    The one other outcome is the abort of one of the 4-byte requests, when the arena
    refuses it.  (No lock-free buffer, no debug guards.) *)
Theorem fast_reset_restores `{cfg : Cfg} {ga : GlobalAlloc} `{!GlobalAllocOk ga} bt s :
  feat_lockfree = false → feat_debug = false →
  Arena_ok s → tail_unused (a_inner (a_arena s)) → stack_ok (a_inner (a_arena s)) →
  in_current_checkpoint_id (a_inner (a_arena s)) + 4 ≤ USIZE_MAX →
  ∃ r s', fast_reset_demo bt s = (r, s') ∧
    match r with
    | Ok _ => Step (iw s) (iw s') ∧
        (∃ extra, in_chunks (a_inner (a_arena s')) = in_chunks (a_inner (a_arena s)) ++ extra ∧ Forall (λ c, c_used c = 0) extra) ∧
        in_current_chunk (a_inner (a_arena s')) = in_current_chunk (a_inner (a_arena s)) ∧
        in_checkpoints (a_inner (a_arena s')) = in_checkpoints (a_inner (a_arena s))
    | Abort _ => Step (iw s) (iw s') ∧ refused (mkLayout 4 4) s'
    | _ => False
    end.
Proof.
  intros Hlf Hdb Hok Ht Hs Hid. assert (prog_pre 4 s) as Hpre by (by split).
  rewrite fast_reset_nested. destruct (checkpoints_step bt Hlf Hdb s) as (r1 & s1 & E1 & Hr1 & Hres1); [destruct Hpre; split; try done; lia|].
  assert (∀ n from o, o ∈ objs_of (range_prog n from) → o_layout o = mkLayout 4 4) as Hlay.
  { induction n as [|n IH]; intros from o; simpl; [by intros ?%elem_of_nil|]. intros [->|Ho]%elem_of_cons; [done|by apply (IH (from + 1))]. }
  unfold mbind at 1, M_bind at 1. rewrite E1. destruct r1 as [[]|e|e|e]; [|done| |done].
  2:{ eexists _, _. split; [reflexivity|]. destruct Hr1 as (Hst & o & Ho & Hre). split; [done|]. by rewrite <- (Hlay _ _ _ Ho). }
  destruct (stack_step bt Hlf Hdb s1) as (r2 & s2 & E2 & Hr2 & Hres2); [apply (Balanced_pre 2 2 s); [done|lia|done]|].
  exists r2, s2. split; [exact E2|]. destruct r2 as [[]|e|e|e]; [|done| |done].
  - destruct (Hres1 eq_refl) as (x & [_ (ex1 & Hc1 & _ & Hf1) Hcur1 _ _ _]). destruct (Hres2 eq_refl) as (y & [_ (ex2 & Hc2 & _ & Hf2) Hcur2 _ _ _]).
    destruct (Balanced_trans _ _ _ _ _ Hr1 Hr2) as [Hst Hg _ _]. splits; [done| |congruence|exact (g_stack _ _ Hg)].
    exists (ex1 ++ ex2). rewrite Hc2, Hc1, <- app_assoc. split; [done|by apply Forall_app_2].
  - destruct Hr2 as (Hst & o & Ho & Hre). split; [by eapply Step_trans; [exact (bl_step _ _ _ Hr1)|]|].
    assert (o_layout o = mkLayout 4 4) as <-; [|done]. apply list_elem_of_fmap in Ho as (i & -> & _). done.
Qed.

Lemma fast_reset_restores_witness :
  ∃ s', @fast_reset_demo cfg_dev bump_alloc "bt" demo_state = (Ok tt, s') ∧
    ∃ extra, in_chunks (a_inner (a_arena s')) = [demo_chunk] ++ extra ∧ Forall (λ c, c_used c = 0) extra.
Proof.
  destruct (@fast_reset_restores cfg_dev bump_alloc bump_alloc_ok "bt" demo_state) as (r & s' & E & Hr).
  - reflexivity.
  - reflexivity.
  - exact demo_ok.
  - intros [|[|j]] c Hj Hc; simpl in *; [lia|done|done].
  - split; [constructor|vm_compute; discriminate].
  - vm_compute. discriminate.
  - assert (r = Ok tt) as -> by (change r with ((r, s').1); rewrite <- E; vm_compute; reflexivity).
    exists s'. split; [exact E|]. exact (proj1 (proj2 Hr)).
Defined.

(** [basic_arena_demo] reads back what it stored. *)
Example basic_arena_output :
  (@basic_arena_demo cfg_dev bump_alloc "bt" demo_state).1 =
    Ok ([42; 0; 0; 0], [72; 101; 108; 108; 111; 44; 32; 97; 114; 101; 110; 97; 45; 98; 33],
        [1; 0; 0; 0; 2; 0; 0; 0; 3; 0; 0; 0; 4; 0; 0; 0; 5; 0; 0; 0], (39, 3)).
Proof. vm_compute. reflexivity. Qed.

(** ** [memory_safety_demo]: the value is reported as unknown both times *)
Lemma memory_safety_output `{cfg : Cfg} `{ga : GlobalAlloc} self bt s r s' :
  unlisted_aw self s → memory_safety_demo self bt s = (Ok r, s') →
  r.1.1 = RErr "Allocation not found" ∧ r.1.2 = RErr "Allocation not found" ∧ dst_total_allocations r.2 = 0.
Proof.
  assert (∀ ptr s o s1, unlisted_aw self s → Arena_check_valid self ptr s = (Ok o, s1) → o = RErr "Allocation not found" ∧ s1 = s) as Hck.
  { intros ptr s0 o s1 [[Ha _] _]. unfold Arena_check_valid, DebugState_check_use_after_rewind, DebugState_validate_allocation. mrun.
    rewrite Ha. unfold a_on_mem, a_on_world, w_on_mem. mrun. intros [= <- <-]. split; [done|]. by destruct s0 as [? []]. }
  pose proof (λ c s (H : unlisted_aw self s), after_calls_unlisted self bt [c] s H) as Hk. unfold after_calls in Hk. simpl in Hk.
  intros Hu (cp & s1 & E1 & E)%M_bind_Ok. apply M_bind_Ok in E as (p & s2 & E2 & E).
  pose proof (Hk CCheckpoint s Hu) as Hu1. unfold run_call, mbind, M_bind in Hu1. rewrite E1 in Hu1.
  pose proof (Hk (CAlloc (mkLayout 4 4) (le_bytes 4 42)) s1 Hu1) as Hu2. unfold run_call, mbind, M_bind in Hu2. rewrite E2 in Hu2.
  apply M_bind_Ok in E as (o1 & s3 & (-> & ->)%Hck & E); [|done]. apply M_bind_Ok in E as ([] & s4 & E4 & E).
  pose proof (Hk (CRewind cp) s2 Hu2) as Hu4. unfold run_call in Hu4. rewrite E4 in Hu4.
  apply M_bind_Ok in E as (o2 & s5 & (-> & ->)%Hck & E); [|done]. apply M_bind_Ok in E as (s6 & s7 & [= <- <-] & [= <- _]).
  splits; [done|done|]. destruct Hu4 as [[Ha _] _]. unfold Arena_debug_stats, DebugState_get_stats. simpl in *. by rewrite Ha.
Qed.

(** ** [thread_local_demo] *)
Section thread_local_demo.
Context `{cfg : Cfg} {ga : GlobalAlloc} `{!GlobalAllocOk ga} (bt : string).
Hypothesis (Hst : feat_stats = true).

(** The arena is well formed and [n] allocations of [size] bytes were counted. *)
Definition counted_ok (n size : Z) (s s' : AW) : Prop := Arena_ok s' ∧ Counted n size (a_inner (a_arena s)) (a_inner (a_arena s')).

Lemma counted_trans n1 z1 n2 z2 s1 s2 s3 : counted_ok n1 z1 s1 s2 → counted_ok n2 z2 s2 s3 → counted_ok (n1 + n2) (z1 + z2) s1 s3.
Proof. intros [_ H1] [Hok H2]. split; [done|by eapply Counted_trans]. Qed.
Lemma alloc_counted o s p s' : Arena_ok s → Obj_ok o → Arena_obj bt o s = (Ok p, s') → counted_ok 1 (l_size (o_layout o)) s s'.
Proof.
  intros Hok Ho E. split; [|by eapply (alloc_counts bt Hst)]. destruct (alloc_step bt o s Hok Ho) as (r & s1 & E1 & Hr).
  unfold Arena_obj in E. rewrite E in E1. injection E1 as <- <-. exact (step_wf _ _ (proj1 Hr)).
Qed.
Lemma i32_ok i : Obj_ok (i32_obj i).
Proof. unfold Obj_ok. simpl. split; [vm_compute; intuition discriminate|]. destruct feat_debug; lia. Qed.

Lemma load_same s p n r s' : a_on_mem (mem_load p n) s = (r, s') → s' = s.
Proof.
  unfold a_on_mem, a_on_world, w_on_mem, mem_load. mrun. intros E.
  destruct (decide _); [destruct (mapM _ _)|]; injection E as _ <-; by destruct s as [? []].
Qed.

Lemma alloc_range_counted n from s x s' :
  Arena_ok s → alloc_range bt n from s = (Ok x, s') → counted_ok (Z.of_nat n) (4 * Z.of_nat n) s s'.
Proof.
  revert from s. induction n as [|n IH]; intros from s Hok; [intros [= _ <-]; split; [done|apply Counted_refl]|].
  intros (p & s1 & E1 & E)%M_bind_Ok. pose proof (alloc_counted (i32_obj from) s p s1 Hok (i32_ok from) E1) as H1.
  replace (Z.of_nat (S n)) with (1 + Z.of_nat n) by lia. replace (4 * (1 + Z.of_nat n)) with (4 + 4 * Z.of_nat n) by lia.
  eapply counted_trans; [exact H1|]. by apply (IH (from + 1)); [exact (proj1 H1)|].
Qed.
Lemma alloc_print_counted n from s x s' :
  Arena_ok s → alloc_print bt n from s = (Ok x, s') → counted_ok (Z.of_nat n) (4 * Z.of_nat n) s s'.
Proof.
  revert from s x. induction n as [|n IH]; intros from s x Hok; [intros [= _ <-]; split; [done|apply Counted_refl]|].
  intros (p & s1 & E1 & E)%M_bind_Ok. pose proof (alloc_counted (i32_obj from) s p s1 Hok (i32_ok from) E1) as H1.
  apply M_bind_Ok in E as (pr & s2 & E2 & E). assert (s2 = s1) as ->.
  { destruct (_ =? 0); [|by injection E2 as _ <-]. by apply M_bind_Ok in E2 as (v & s3 & E3%load_same & [= _ <-]). }
  apply M_bind_Ok in E as (rest & s3 & E3 & [= _ <-]).
  replace (Z.of_nat (S n)) with (1 + Z.of_nat n) by lia. replace (4 * (1 + Z.of_nat n)) with (4 + 4 * Z.of_nat n) by lia.
  eapply counted_trans; [exact H1|]. by apply (IH (from + 1) s1 rest); [exact (proj1 H1)|].
Qed.

(** On a new arena the demonstration prints 14800 bytes and 1201 allocations. *)
Lemma thread_local_demo_stats s r s' :
  Arena_ok s → st_bytes_used (in_stats (a_inner (a_arena s))) = 0 → st_allocation_count (in_stats (a_inner (a_arena s))) = 0 →
  thread_local_demo bt s = (Ok r, s') → usize_wrap r.2.1 = 14800 ∧ usize_wrap r.2.2 = 1201.
Proof.
  intros Hok Hb Hn (pr & s1 & E1 & E)%M_bind_Ok. apply M_bind_Ok in E as (p & s2 & E2 & E).
  apply M_bind_Ok in E as (x & s3 & E3 & E). apply M_bind_Ok in E as (s4 & s5 & [= <- <-] & [= <- _]).
  pose proof (alloc_print_counted 1000 0 s pr s1 Hok E1) as H1.
  pose proof (alloc_counted (mkObj (mkLayout 10000 1) (replicate (Z.to_nat 10000) 0)) s1 p s2 (proj1 H1)) as H2.
  specialize (H2 ltac:(unfold Obj_ok; cbn [o_layout o_value l_size l_align]; rewrite length_replicate, Z2Nat.id by lia; split; [vm_compute; intuition discriminate|destruct feat_debug; lia]) E2).
  pose proof (alloc_range_counted 200 1000 s2 x s3 (proj1 H2) E3) as H3.
  destruct (counted_trans _ _ _ _ _ _ _ (counted_trans _ _ _ _ _ _ _ H1 H2) H3) as [_ [Hc Hu _]]. unfold Arena_stats. rewrite Hst.
  cbn [fst snd]. unfold same_usize in *. rewrite Hc, Hu, Hb, Hn. split; vm_compute; reflexivity.
Qed.
End thread_local_demo.

(** ** [lockfree_demo]: the counters it prints come in equal pairs *)
Lemma lockfree_demo_stats `{cfg : Cfg} `{ga : GlobalAlloc} bt s r s' :
  doubled s → lockfree_demo bt s = (Ok r, s') →
  ∃ h m h' m', r.1.1.2 = (h, h, m, m) ∧ r.2 = (h', h', m', m').
Proof.
  assert (∀ n from, Keeps doubled (alloc_range bt n from)) as Hrange.
  { induction n as [|n IH]; intros from; simpl; [apply _|]. apply Keeps_bind; [apply keeps_doubled_alloc|by intros]. }
  assert (∀ n from, Keeps doubled (alloc_print bt n from)) as Hprint.
  { induction n as [|n IH]; intros from; simpl; [apply _|]. apply Keeps_bind; [apply keeps_doubled_alloc|]. intros p.
    apply Keeps_bind; [|intros pr; apply _]. apply Keeps_if; [|apply _]. apply Keeps_bind; [by apply Keeps_zoom_other|apply _]. }
  intros Hd (pr & s1 & E1 & E)%M_bind_Ok. pose proof (keeps s Hd : doubled (alloc_print bt 1000 0 s).2) as H1. rewrite E1 in H1.
  apply M_bind_Ok in E as (x & y & [= <- <-] & E). apply M_bind_Ok in E as (p & s2 & E2 & E).
  pose proof (keeps_doubled_alloc bt (mkLayout 5000 1) (replicate (Z.to_nat 5000) 0) s1 H1) as H2. rewrite E2 in H2.
  apply M_bind_Ok in E as (u & s3 & E3 & E). pose proof (Hrange 1000%nat 1000 s2 H2) as H3. rewrite E3 in H3.
  apply M_bind_Ok in E as (z & t & [= <- <-] & [= <- _]). cbn [fst snd]. unfold Arena_lockfree_stats, LockFreeStats_get.
  destruct H1 as [H1a H1c], H3 as [H3a H3c]. cbn [snd] in H1a, H1c, H3a, H3c. rewrite H1a, H1c, H3a, H3c. by do 4 eexists.
Qed.
