(* ===== verification/Budget.v ===== *)
(** * Budget: programs that get the memory they ask for

    What the global allocator answers depends on the blocks that are live.  [served] are
    the heaps that follow from a given one when it answers a number of requests, blocks
    being freed in between; [ample] says that it does not refuse any of that many requests
    of at most 16 MiB.  A program that asks for less then runs to its end.  The bump
    allocator of Memory.v has room for billions of such requests. *)
From S2P Require Import Prelude Memory Bump Chunk Slab ThreadLocal LockFree VirtualMemory Debug Inner InnerInv Objects Arena ArenaSafety ArenaCheckpoint.
Local Open Scope Z_scope.

(** The requests of an arena for a chunk, and others like them. *)
Definition small (l : Layout) : Prop := Layout_ok l ∧ 0 < l_size l ≤ MAX_CHUNK_SIZE ∧ l_align l ≤ 64.

Section budget.
Context `{ga : GlobalAlloc} (H0 : list Block).

(** The live blocks, from [H0] on, after at most [n] requests that were served. *)
Inductive served : Z → list Block → Prop :=
  | served_start n H : 0 ≤ n → H ≡ₚ H0 → served n H
  | served_alloc n H l p : served n H → small l → ga_alloc H l = Some p → served (n + 1) (mkBlock p l :: H)
  | served_free n H freed H' : served n H → H ≡ₚ freed ++ H' → served n H'.

(** None of the first [total] requests is refused. *)
Definition ample (total : Z) : Prop := ∀ n H l, served n H → n < total → small l → ga_alloc H l ≠ None.

(** [c] more requests can be made when the live blocks are [H]. *)
Definition room (total c : Z) (H : list Block) : Prop := ∃ n, served n H ∧ n + c ≤ total.

Lemma room_start total : 0 ≤ total → room total total H0.
Proof. intros. exists 0. split; [by constructor|lia]. Qed.
Lemma room_mono total c c' H : c' ≤ c → room total c H → room total c' H.
Proof. intros Hle (n & Hn & Hc). exists n. split; [done|lia]. Qed.
Lemma room_free total c H freed H' : H ≡ₚ freed ++ H' → room total c H → room total c H'.
Proof. intros Hp (n & Hn & Hc). exists n. split; [by eapply served_free|done]. Qed.
Lemma room_alloc total c H l p : small l → ga_alloc H l = Some p → room total (c + 1) H → room total c (mkBlock p l :: H).
Proof. intros Hl Hg (n & Hn & Hc). exists (n + 1). split; [by apply served_alloc|lia]. Qed.
Lemma room_ample total c H l : ample total → 0 < c → small l → room total c H → ∃ p, ga_alloc H l = Some p.
Proof.
  intros Ha Hc Hl (n & Hn & Hle). pose proof (Ha n H l Hn ltac:(lia) Hl). destruct (ga_alloc H l) as [p|]; [by exists p|done].
Qed.

(** What one allocation of an arena does to the heap: nothing, or one request. *)
Definition grew (H H' : list Block) : Prop := H' = H ∨ ∃ l p, small l ∧ ga_alloc H l = Some p ∧ H' = mkBlock p l :: H.
Lemma room_grew total c H H' : grew H H' → room total (c + 1) H → room total c H'.
Proof. intros [->|(l & p & Hl & Hg & ->)]; [apply room_mono; lia|by apply room_alloc]. Qed.
End budget.

(** ** The bump allocator *)
Lemma bump_top_le live t : 4096 ≤ t → (∀ b, b ∈ live → b_ptr b + l_size (b_layout b) ≤ t) → bump_top live ≤ t.
Proof.
  intros Ht. induction live as [|b live IH]; intros Hb; [done|]. cbn [bump_top foldr]. apply Z.max_lub; [apply Hb; constructor|].
  apply IH. intros b' Hin. apply Hb. by constructor.
Qed.
Lemma bump_top_sub live live' : (∀ b, b ∈ live' → b ∈ live) → bump_top live' ≤ bump_top live.
Proof. intros Hs. apply bump_top_le; [apply bump_top_pos|]. intros b Hb. by apply bump_top_ge, Hs. Qed.

Lemma bump_served H0 n H : @served bump_alloc H0 n H → 0 ≤ n ∧ bump_top H ≤ bump_top H0 + n * (MAX_CHUNK_SIZE + 64).
Proof.
  induction 1 as [n H Hn Hp|n H l p _ [Hn IH] (Hl & Hs & Ha) Hg|n H freed H' _ [Hn IH] Hp].
  - split; [done|]. assert (bump_top H ≤ bump_top H0) by (apply bump_top_sub; intros b; by rewrite Hp). unfold MAX_CHUNK_SIZE. lia.
  - split; [lia|]. unfold ga_alloc, bump_alloc in Hg. pose proof (align_to_lt (bump_top H) (l_align l) (Layout_align_pos l Hl)) as Hlt.
    destruct (_ <=? USIZE_MAX); [|done]. injection Hg as <-. cbn [bump_top foldr b_ptr b_layout]. fold (bump_top H).
    pose proof (align_to_ge (bump_top H) (l_align l) (Layout_align_pos l Hl)). lia.
  - split; [done|]. assert (bump_top H' ≤ bump_top H); [|lia]. apply bump_top_sub. intros b Hb. rewrite Hp. apply elem_of_app. by right.
Qed.

Lemma bump_ample H0 total : bump_top H0 + total * (MAX_CHUNK_SIZE + 64) ≤ USIZE_MAX → @ample bump_alloc H0 total.
Proof.
  intros Ht n H l Hn Hlt (Hl & Hs & Ha). destruct (bump_served _ _ _ Hn) as [H0n Htop].
  pose proof (align_to_lt (bump_top H) (l_align l) (Layout_align_pos l Hl)) as Hal. unfold ga_alloc, bump_alloc.
  assert (n + 1 ≤ total) as Hle by lia. assert ((n + 1) * (MAX_CHUNK_SIZE + 64) ≤ total * (MAX_CHUNK_SIZE + 64)) by (apply Z.mul_le_mono_nonneg_r; unfold MAX_CHUNK_SIZE; lia).
  destruct (Z.leb_spec (align_to (bump_top H) (l_align l) + l_size l) USIZE_MAX); [done|]. lia.
Qed.

(** ** One allocation of an arena *)
Lemma next_chunk_small `{Cfg} size cap :
  next_chunk_capacity size = Ok cap → 0 < cap ≤ MAX_CHUNK_SIZE ∧ align_to cap 64 = cap ∧ small (mkLayout cap 64).
Proof.
  destruct (next_chunk_capacity_eq size) as (j & Hj & -> & _). intros [= <-].
  assert (2 ^ 0 ≤ 2 ^ j ≤ 2 ^ 12) as Hle by (split; apply Z.pow_le_mono_r; lia). change (2 ^ 12) with 4096 in Hle.
  pose proof (next_chunk_aligned j ltac:(lia)) as Hal. unfold MAX_CHUNK_SIZE. split; [lia|]. split; [done|].
  split; [|split; [unfold MAX_CHUNK_SIZE; simpl; lia|done]]. split; [simpl; lia|]. split; [reflexivity|]. simpl. ulia.
Qed.

Section arena.
Context `{cfg : Cfg} {ga : GlobalAlloc} `{!GlobalAllocOk ga} (bt : string).
Hypothesis (Hlf : feat_lockfree = false) (Hdb : feat_debug = false).

Definition live (s : AW) : list Block := heap (w_mem (a_world s)).

Lemma ArenaInner_allocate_world l s r s' :
  Inner_wf s → Layout_ok l → ArenaInner_allocate l s = (Ok r, s') → i_world s' = i_world s.
Proof.
  intros Hw Hl E. destruct (current_chunk s Hw) as (c & Hc & _). pose proof (ArenaInner_allocate_step l s c Hw Hl Hc) as Hal.
  destruct (decide (Chunk_fits l c)); [|rewrite Hal in E; by injection E as _ <-].
  destruct Hal as (x & Ex & _ & _ & _ & Hv). rewrite Ex in E. injection E as _ <-. exact (sv_world _ _ Hv).
Qed.

Lemma alloc_new_chunk_grew l s p s' :
  Arena_ok s → Layout_ok l → alloc_new_chunk bt l s = (Ok p, s') → grew (live s) (live s').
Proof.
  intros Hok Hl (cap & s3 & [= Hcap <-] & (idx & s4 & E4 & E5)%M_bind_Ok)%M_bind_Ok.
  destruct idx as [idx|e]; [|done]. pose proof (add_chunk_ok l cap s idx s4 Hok Hcap E4) as Hok4. apply with_inner_inv in E4.
  destruct (next_chunk_small _ _ Hcap) as (Hb & Hal & Hsm). unfold MAX_CHUNK_SIZE in Hb.
  destruct (add_chunk_eq cap (iw s)) as [[_ Ea]|(d & x & Hg & Ea & _ & _ & Hdc & _ & Hv)]; [ulia|done| |]; rewrite Ea in E4; [done|].
  injection E4 as _ ->. apply M_bind_Ok in E5 as (r & s5 & E5%with_inner_inv & E6). destruct r as [q|]; [|done].
  unfold guard_wrap in E6. rewrite Hdb in E6. injection E6 as _ <-. apply ArenaInner_allocate_world in E5; [|done|done].
  right. exists (mkLayout cap 64), (c_ptr d). rewrite Hal in Hg, Hdc. split; [done|]. split; [exact Hg|].
  unfold live. simpl in E5. rewrite E5. pose proof (sv_world _ _ Hv) as Hw. simpl in Hw. rewrite Hw. simpl. unfold Chunk_block. by rewrite Hdc.
Qed.

Lemma allocate_raw_grew l s p s' :
  Arena_ok s → Layout_ok l → 0 < l_size l → Arena_allocate_raw bt l s = (Ok p, s') → grew (live s) (live s').
Proof.
  intros Hok Hl Hsz. unfold Arena_allocate_raw. destruct (Z.eqb_spec (l_size l) 0); [lia|].
  unfold alloc_lockfree. rewrite Hlf. unfold mbind at 1, M_bind at 1, mret at 1, M_ret at 1. cbv beta iota.
  destruct (alloc_thread_local_step bt l s Hok Hl) as (s1 & E1 & Hst1 & (_ & _ & Hh)). unfold mbind at 1, M_bind at 1. rewrite E1.
  pose proof (step_wf _ _ Hst1) as Hok1. unfold live at 1. rewrite <- Hh. fold (live s1).
  intros (r & s2 & E2%with_inner_inv & E3)%M_bind_Ok. pose proof (ArenaInner_allocate_world _ _ _ _ Hok1 Hl E2) as Hw. simpl in Hw.
  destruct (current_chunk (iw s1) Hok1) as (c & Hc & _). pose proof (ArenaInner_allocate_step l (iw s1) c Hok1 Hl Hc) as Hal.
  destruct r as [q|].
  - unfold guard_wrap in E3. rewrite Hdb in E3. injection E3 as _ <-. left. unfold live. by rewrite Hw.
  - destruct (decide (Chunk_fits l c)); [by destruct Hal as (y & Ey & _); rewrite Ey in E2|].
    rewrite Hal in E2. injection E2 as Hi _. unfold live at 1. rewrite <- Hw. fold (live s2).
    eapply alloc_new_chunk_grew; [|exact Hl|exact E3]. unfold Arena_ok, iw in *. by rewrite <- Hi, Hw.
Qed.

Lemma alloc_grew o s p s' : Arena_ok s → Obj_ok o → Arena_obj bt o s = (Ok p, s') → grew (live s) (live s').
Proof.
  intros Hok (Hl & Hsz & _) (q & s1 & E1 & (x & s2 & E2 & [= _ <-])%M_bind_Ok)%M_bind_Ok.
  apply allocate_raw_grew in E1; [|done..]. assert (live s2 = live s1) as ->; [|done].
  revert E2. unfold a_on_mem, a_on_world, w_on_mem, ptr_write, zoom, live. destruct (_ =? 0); [|by intros [= _ <-]].
  unfold mem_store. case_decide; intros E; simplify_eq/=; done.
Qed.
End arena.
