(* ===== verification/VecU8.v ===== *)
(** * VecU8: a [Vec<u8>] that is moved into an arena

    A vector is three words, the address of its buffer, its capacity and its length;
    the buffer is a block of the heap of its own.  Moved into the arena, the three
    words are the object the arena stores; nothing drops them there, so nothing ever
    frees the buffer.  The order of the words in memory is the compiler's choice and a
    parameter ([VecRepr]). *)
From S2P Require Import Prelude Memory Bump Chunk Slab ThreadLocal LockFree VirtualMemory Debug Inner InnerInv Objects Arena ArenaSafety ArenaCheckpoint ArenaRelease ArenaStats ArenaFootprint Budget.
Local Open Scope Z_scope.

Record VecU8 := mkVec { v_ptr : Z; v_cap : Z; v_len : Z }.
Definition vec_layout : Layout := mkLayout 24 8.

(** How the three words lie in the 24 bytes. *)
Class VecRepr := mkVecRepr { vec_encode : VecU8 → list Z; vec_decode : list Z → VecU8 }.
Definition usize_ok (z : Z) : Prop := 0 ≤ z < USIZE_MOD.
Class VecReprOk (vr : VecRepr) : Prop := {
  vec_encode_length v : length (vec_encode v) = 24%nat;
  vec_decode_encode v : usize_ok (v_ptr v) → usize_ok (v_cap v) → usize_ok (v_len v) → vec_decode (vec_encode v) = v
}.

(** One such order: capacity, address, length, each little endian. *)
Definition vec_le : VecRepr := mkVecRepr
  (λ v, le_bytes 8 (v_cap v) ++ le_bytes 8 (v_ptr v) ++ le_bytes 8 (v_len v))
  (λ bs, mkVec (le_value (take 8 (drop 8 bs))) (le_value (take 8 bs)) (le_value (drop 16 bs))).
#[global] Instance vec_le_ok : VecReprOk vec_le.
Proof.
  constructor; intros [p c n]; simpl v_ptr; simpl v_cap; simpl v_len; [by cbn [vec_encode vec_le]; rewrite !length_app, !length_le_bytes|].
  unfold usize_ok. intros Hp Hc Hn. unfold vec_decode, vec_encode, vec_le. cbn [v_ptr v_cap v_len].
  assert (∀ z, 0 ≤ z < USIZE_MOD → le_value (le_bytes 8 z) = z) as Hle by (intros; by apply le_value_le_bytes).
  rewrite take_app_length' by (by rewrite length_le_bytes). rewrite drop_app_length' by (by rewrite length_le_bytes).
  rewrite take_app_length' by (by rewrite length_le_bytes). change 16%nat with (8 + 8)%nat. rewrite <- drop_drop.
  rewrite drop_app_length' by (by rewrite length_le_bytes). rewrite drop_app_length' by (by rewrite length_le_bytes). by rewrite !Hle.
Qed.

Section vec.
Context `{cfg : Cfg} `{ga : GlobalAlloc} `{vr : VecRepr} (bt : string).

(** [vec![x; n]]: an empty vector has no buffer, a refused buffer ends the program. *)
Definition vec_from_elem (x n : Z) : M World VecU8 :=
  if ISIZE_MAX <? n then lift (Panic "capacity overflow") else
  if n =? 0 then mret (mkVec 1 0 0) else
  p ← w_on_mem (sys_alloc (mkLayout n 1));
  if p =? 0 then lift (Abort "memory allocation failed") else
  _ ← w_on_mem (mem_store p (replicate (Z.to_nat n) x));
  mret (mkVec p n n).

(** The [Drop] of a vector. *)
Definition vec_drop (v : VecU8) : M World unit :=
  if v_cap v =? 0 then mret tt else w_on_mem (sys_dealloc (v_ptr v) (mkLayout (v_cap v) 1)).
(** [arena.alloc(v)]: the vector is dropped if the call unwinds, moved into the arena
    otherwise. *)
Definition alloc_vec (v : VecU8) : M AW Z := λ s,
  match Arena_alloc bt vec_layout (vec_encode v) s with
  | (Panic e, s) => with_drop (lift (Panic e)) (a_on_world (vec_drop v)) s
  | r => r
  end.
(** The vector behind a reference, [r.len()] and [r[i]]. *)
Definition vec_deref (r : Z) : M AW VecU8 := bs ← a_on_mem (mem_load r 24); mret (vec_decode bs).
Definition vec_len (r : Z) : M AW Z := v ← vec_deref r; mret (v_len v).
Definition vec_get (r i : Z) : M AW Z :=
  v ← vec_deref r;
  if i <? v_len v then bs ← a_on_mem (mem_load (v_ptr v + i) 1); mret (hd 0 bs)
  else lift (Panic "index out of bounds").
End vec.

(** ** A vector as the objects it consists of *)
Definition buf_obj (x n : Z) : Obj := mkObj (mkLayout n 1) (replicate (Z.to_nat n) x).
Definition buf_block (v : VecU8) : Block := mkBlock (v_ptr v) (mkLayout (v_cap v) 1).
Definition vec_obj `{VecRepr} (v : VecU8) : Obj := mkObj vec_layout (vec_encode v).

Lemma length_buf x n : 0 ≤ n → Z.of_nat (length (o_value (buf_obj x n))) = l_size (o_layout (buf_obj x n)).
Proof. intros. cbn [buf_obj o_value o_layout l_size]. rewrite length_replicate. lia. Qed.
Lemma vec_obj_ok `{cfg : Cfg} `{vr : VecRepr} `{!VecReprOk vr} v : Obj_ok (vec_obj v).
Proof.
  unfold Obj_ok, vec_obj. cbn [o_layout o_value vec_layout l_size l_align]. rewrite vec_encode_length.
  split; [vm_compute; intuition discriminate|]. split; [lia|]. split; [done|]. destruct feat_debug; lia.
Qed.

(** The buffer is a new block; what the process was left with otherwise. *)
Record NewVec `{GlobalAlloc} (x n : Z) (v : VecU8) (w w' : World) : Prop := mkNewVec {
  nv_alloc : ga_alloc (heap (w_mem w)) (mkLayout n 1) = Some (v_ptr v);
  nv_cap : v_cap v = n;
  nv_len : v_len v = n;
  nv_ptr : 0 < v_ptr v ∧ v_ptr v + n ≤ USIZE_MAX;
  nv_heap : heap (w_mem w') = buf_block v :: heap (w_mem w);
  nv_rest : w_cache w' = w_cache w ∧ w_slab w' = w_slab w ∧ w_debug w' = w_debug w ∧ w_trace w' = w_trace w;
  nv_stored : obj_stored (w_mem w') (buf_obj x n, v_ptr v);
  nv_step a : Arena_ok (mkAW a w) → Step (iw (mkAW a w)) (iw (mkAW a w')) ∧ Fresh n (iw (mkAW a w)) (v_ptr v) (iw (mkAW a w'))
}.

Lemma vec_from_elem_cases `{cfg : Cfg} {ga : GlobalAlloc} `{!GlobalAllocOk ga} x n w :
  0 < n ≤ ISIZE_MAX →
  (ga_alloc (heap (w_mem w)) (mkLayout n 1) = None ∧ ∃ e, vec_from_elem x n w = (Abort e, w)) ∨
  (∃ v w', vec_from_elem x n w = (Ok v, w') ∧ NewVec x n v w w').
Proof.
  intros Hn. unfold vec_from_elem. destruct (Z.ltb_spec ISIZE_MAX n); [lia|]. destruct (Z.eqb_spec n 0); [lia|].
  assert (Layout_ok (mkLayout n 1)) as Hl by (repeat split; simpl; [lia|ulia]).
  assert (sys_alloc (mkLayout n 1) (w_mem w) = match ga_alloc (heap (w_mem w)) (mkLayout n 1) with
    | Some p => (Ok p, mkMem (mkBlock p (mkLayout n 1) :: heap (w_mem w)) (bytes (w_mem w))) | None => (Ok 0, w_mem w) end) as Ea.
  { unfold sys_alloc. cbn [l_size]. by destruct (Z.eqb_spec n 0). }
  unfold mbind, M_bind, w_on_mem, zoom. rewrite Ea. clear Ea.
  destruct (ga_alloc (heap (w_mem w)) (mkLayout n 1)) as [p|] eqn:Hg; [|left; split; [done|]; eexists; by destruct w].
  destruct (ga_ok _ _ _ Hl ltac:(simpl; lia) Hg) as (Hp & _ & Hb & Hd). cbn [l_size] in Hb.
  destruct (Z.eqb_spec p 0); [lia|]. right.
  set (blk := mkBlock p (mkLayout n 1)). set (m1 := mkMem (blk :: heap (w_mem w)) (bytes (w_mem w))).
  assert (∀ i, Inner_wf (mkIW i w) → Step (mkIW i w) (mkIW i (w_set_mem m1 w)) ∧ Fresh n (mkIW i w) p (mkIW i (w_set_mem m1 w))) as Hnew.
  { intros i Hw. split; [exact (with_block_step blk _ (w_debug w) (mkIW i w) Hw Hd (λ a _, eq_refl))|].
    apply (with_block_fresh blk (bytes (w_mem w)) (w_debug w) (mkIW i w)); [done|exact Hd|by apply range_subseteq_spec|lia]. }
  assert (mem_valid p (Z.of_nat (length (o_value (buf_obj x n)))) m1) as Hv.
  { apply (mem_valid_block _ _ blk); [by left|]. rewrite length_buf by lia. by apply range_subseteq_spec. }
  change (replicate (Z.to_nat n) x) with (o_value (buf_obj x n)). cbn [w_mem w_set_mem].
  rewrite (mem_store_ok _ _ _ Hv). eexists _, _. split; [reflexivity|]. split; cbn [v_ptr v_cap v_len]; try done.
  - split; [|apply Z.mod_1_r]. apply mem_load_written; [exact Hv|apply read_write_same].
  - intros a Hw. destruct (Hnew (a_inner a) Hw) as [Hst Hf].
    destruct (fresh_store (buf_obj x n) (a_inner a) p (w_set_mem m1 w) (length_buf x n ltac:(lia)) _ Hst Hf (Z.mod_1_r p)) as (_ & H1 & H2 & _). by split.
Qed.

(** ** Programs that store objects and vectors in an arena *)

(** [m] returns from [s], and [Q] holds of what it returns and leaves behind. *)
Definition wp {S A} (m : M S A) (Q : A → S → Prop) (s : S) : Prop := ∃ x s', m s = (Ok x, s') ∧ Q x s'.

Section wp.
Context {S : Type}.
Lemma wp_ret {A} (x : A) (Q : A → S → Prop) s : Q x s → wp (mret x) Q s.
Proof. intros H. by exists x, s. Qed.
Lemma wp_bind {A B} (m : M S A) (f : A → M S B) Q s : wp m (λ x s', wp (f x) Q s') s → wp (m ≫= f) Q s.
Proof. intros (x & s1 & E & Hx). unfold wp, mbind, M_bind. by rewrite E. Qed.
Lemma wp_mono {A} (m : M S A) (P Q : A → S → Prop) s : (∀ x s', P x s' → Q x s') → wp m P s → wp m Q s.
Proof. intros HPQ (x & s' & E & Hx). exists x, s'. split; [done|auto]. Qed.
Lemma wp_eq {A} (m : M S A) x s' Q s : m s = (Ok x, s') → Q x s' → wp m Q s.
Proof. intros E H. by exists x, s'. Qed.
End wp.

(** Between [s] and [s'] the arena counted [n] allocations of [size] bytes, the heap
    gained the blocks [bufs] beside the arena's own, at most one request per allocation
    and buffer was made, and the objects [os] were stored where no later allocation will
    reach them, in memory that was available. *)
Definition kept (s : AW) (op : Obj * Z) : Prop :=
  obj_stored (w_mem (a_world s)) op ∧ ∀ a, a ∈ mkRange op.2 (Z.of_nat (length (o_value op.1))) → ¬ Inner_avail (iw s) a.
Record Grown `{Cfg} `{GlobalAlloc} (n size : Z) (bufs : list Block) (os : list (Obj * Z)) (s s' : AW) : Prop := mkGrown {
  gr_step : Step (iw s) (iw s');
  gr_owns outside : Owns outside (iw s) → Owns (bufs ++ outside) (iw s');
  gr_kept : Forall (kept s') os;
  gr_from : Forall (λ op, ∀ a, a ∈ mkRange op.2 (Z.of_nat (length (o_value op.1))) → Inner_avail (iw s) a) os;
  gr_counted : feat_stats = true → Counted n size (a_inner (a_arena s)) (a_inner (a_arena s'));
  gr_room H0 total c : room H0 total (c + n + Z.of_nat (length bufs)) (live s) → room H0 total c (live s')
}.

Lemma kept_step s s' op : Step (iw s) (iw s') → kept s op → kept s' op.
Proof.
  intros Hst [Ho Ha]. split; [exact (obj_stored_step (iw s) (iw s') op Hst Ho Ha)|]. intros a Hin Hav. by apply (Ha a Hin), (step_avail _ _ Hst).
Qed.
Lemma kept_fresh o p s0 s :
  Z.of_nat (length (o_value o)) = l_size (o_layout o) → Fresh (l_size (o_layout o)) s0 p (iw s) → obj_stored (w_mem (a_world s)) (o, p) → kept s (o, p).
Proof. intros Hl Hf Ho. split; [done|]. cbn [fst snd]. rewrite Hl. intros a Ha. by apply (fresh_avail _ _ _ _ Hf). Qed.
Lemma kept_load o p s : kept s (o, p) → a_on_mem (mem_load p (length (o_value o))) s = (Ok (o_value o), s).
Proof. intros [[E _] _]. cbn [fst snd] in E. unfold a_on_mem, a_on_world, w_on_mem, zoom. rewrite E. by destruct s as [? []]. Qed.

Section grown.
Context `{cfg : Cfg} {ga : GlobalAlloc} `{!GlobalAllocOk ga} `{vr : VecRepr} `{!VecReprOk vr} (bt : string).
Context (H0 : list Block) (total : Z).
Hypothesis (Hlf : feat_lockfree = false) (Hdb : feat_debug = false) (Hample : ample H0 total).

Lemma Grown_refl s : Arena_ok s → Grown 0 0 [] [] s s.
Proof.
  intros Hok. split; [by apply Step_refl|done|constructor|constructor|intros _; apply Counted_refl|]. intros ? ? c. simpl. by rewrite !Z.add_0_r.
Qed.
Lemma Grown_ok n z bufs os s s' : Grown n z bufs os s s' → Arena_ok s'.
Proof. intros [Hst _ _ _ _ _]. exact (step_wf _ _ Hst). Qed.
Lemma Grown_room n z bufs os s s' c : Grown n z bufs os s s' → room H0 total (c + n + Z.of_nat (length bufs)) (live s) → room H0 total c (live s').
Proof. intros [_ _ _ _ _ Hr]. apply Hr. Qed.
Lemma Grown_trans n1 z1 b1 o1 n2 z2 b2 o2 s1 s2 s3 :
  Grown n1 z1 b1 o1 s1 s2 → Grown n2 z2 b2 o2 s2 s3 → Grown (n1 + n2) (z1 + z2) (b2 ++ b1) (o1 ++ o2) s1 s3.
Proof.
  intros [Hs1 Hw1 Ho1 Hf1 Hc1 Hr1] [Hs2 Hw2 Ho2 Hf2 Hc2 Hr2]. split; [by eapply Step_trans| | | |intros H; eapply Counted_trans; eauto|].
  - intros out Hout. rewrite <- app_assoc. auto.
  - apply Forall_app_2; [|done]. eapply Forall_impl; [exact Ho1|]. intros op. by apply kept_step.
  - apply Forall_app_2; [done|]. eapply Forall_impl; [exact Hf2|]. intros op H a Ha. by apply (step_avail _ _ Hs1), H.
  - intros H1 t1 c Hr. apply Hr2, Hr1. rewrite length_app in Hr. eapply room_mono; [|exact Hr]. lia.
Qed.

(** A request of at most 16 MiB is not refused. *)
Lemma room_not_refused l c s : 0 < c → l_size l ≤ MAX_CHUNK_SIZE → room H0 total c (live s) → ¬ refused l s.
Proof.
  intros Hc Hl Hr [_ [?|(cap & Hcap & Hg)]]; [lia|]. destruct (next_chunk_small _ _ Hcap) as (_ & _ & Hsm).
  destruct (room_ample H0 total c (live s) _ Hample Hc Hsm Hr) as [p Hp]. unfold live in Hp. congruence.
Qed.

(** A value is moved into the arena. *)
Lemma alloc_wp o s :
  Arena_ok s → room H0 total 1 (live s) → Obj_ok o → l_size (o_layout o) ≤ MAX_CHUNK_SIZE →
  wp (Arena_obj bt o) (λ p s', Grown 1 (l_size (o_layout o)) [] [(o, p)] s s') s.
Proof.
  intros Hok Hroom Ho Hsz. destruct (alloc_step bt o s Hok Ho) as (r & s' & E & Hr).
  destruct r as [p|e|e|e]; [|done|by destruct (room_not_refused _ 1 s ltac:(done) Hsz Hroom (gu_before _ _ _ Hr))|done].
  exists p, s'. split; [exact E|]. destruct Hr as (Hst & Hf & Hs). pose proof Ho as (_ & _ & Hlen & _).
  split; [done| | | | |].
  - intros out Hout. by apply (alloc_owns bt out Hdb o s p s').
  - constructor; [|constructor]. by apply (kept_fresh o p (iw s)).
  - constructor; [|constructor]. cbn [fst snd]. rewrite Hlen. intros a Ha. by apply (fresh_avail _ _ _ _ Hf).
  - intros Hst'. eapply (alloc_counts bt Hst' o s p s'); done.
  - intros H1 t1 c. simpl. rewrite Z.add_0_r. apply room_grew. by apply (alloc_grew bt Hlf Hdb o s p s').
Qed.

(** A vector is created, then moved into the arena. *)
Lemma vec_new_wp x n s :
  Arena_ok s → room H0 total 1 (live s) → 0 < n ≤ MAX_CHUNK_SIZE →
  wp (a_on_world (vec_from_elem x n)) (λ v s', v_cap v = n ∧ v_len v = n ∧ usize_ok (v_ptr v) ∧
    Grown 0 0 [buf_block v] [(buf_obj x n, v_ptr v)] s s') s.
Proof.
  intros Hok Hroom Hn. assert (small (mkLayout n 1)) as Hsm.
  { unfold MAX_CHUNK_SIZE in Hn. split; [|split; [exact Hn|simpl; lia]]. repeat split; simpl; [lia|ulia]. }
  unfold wp, a_on_world, zoom.
  destruct (vec_from_elem_cases x n (a_world s)) as [(Hg & e & E)|(v & w' & E & [Hga Hc Hl Hp Hh _ Hs Hst])]; [unfold MAX_CHUNK_SIZE in *; ulia| |].
  - destruct (room_ample H0 total 1 (live s) _ Hample ltac:(done) Hsm Hroom) as [p Hp]. unfold live in Hp. congruence.
  - rewrite E. eexists _, _. split; [reflexivity|]. cbn beta iota. destruct (Hst (a_arena s)) as [H1 H2]; [by destruct s|].
    split; [done|]. split; [done|]. split; [unfold usize_ok; ulia|]. split.
    + by destruct s.
    + intros out [Ho Hn']. split; [|exact Hn']. unfold s_mem, iw in *. simpl in *. rewrite Hh, Ho. simpl. by rewrite Permutation_middle.
    + constructor; [|constructor]. apply (kept_fresh _ _ (iw s)); [apply length_buf; lia|by destruct s|done].
    + constructor; [|constructor]. cbn [fst snd]. rewrite length_buf by lia. intros a Ha. destruct s. by apply (fresh_avail _ _ _ _ H2).
    + intros _. apply Counted_same; done.
    + intros H1' t1 c Hr. unfold live in *. simpl. rewrite Hh. unfold buf_block. rewrite Hc. apply room_alloc; [done|done|].
      simpl in Hr. by rewrite Z.add_0_r in Hr.
Qed.

Definition vec_kept (x : Z) (v : VecU8) (r : Z) : list (Obj * Z) := [(buf_obj x (v_len v), v_ptr v); (vec_obj v, r)].

Lemma alloc_vec_wp v s : Arena_ok s → room H0 total 1 (live s) → wp (alloc_vec bt v) (λ r s', Grown 1 24 [] [(vec_obj v, r)] s s') s.
Proof.
  intros Hok Hroom. destruct (alloc_wp (vec_obj v) s Hok Hroom (vec_obj_ok v)) as (r & s' & E & Hr); [vm_compute; discriminate|].
  unfold Arena_obj in E. exists r, s'. split; [|exact Hr]. unfold alloc_vec. unfold vec_obj in E. cbn [o_layout o_value] in E. by rewrite E.
Qed.

Lemma new_vec_wp x n s :
  Arena_ok s → room H0 total 2 (live s) → 0 < n ≤ MAX_CHUNK_SIZE →
  wp (v ← a_on_world (vec_from_elem x n); alloc_vec bt v) (λ r s', ∃ v, v_cap v = n ∧ v_len v = n ∧ usize_ok (v_ptr v) ∧
    Grown 1 24 [buf_block v] (vec_kept x v r) s s') s.
Proof.
  intros Hok Hroom Hn. apply wp_bind. eapply wp_mono; [|apply vec_new_wp; [done|by apply (room_mono _ _ 2)|done]].
  intros v s1 (Hc & Hl & Hp & H1). cbn beta.
  eapply wp_mono; [|apply alloc_vec_wp; [by eapply Grown_ok|exact (Grown_room _ _ _ _ _ _ 1 H1 Hroom)]]. intros r s2 H2. exists v. do 3 (split; [done|]). unfold vec_kept. rewrite Hl.
  exact (Grown_trans _ _ _ _ _ _ _ _ _ _ _ H1 H2).
Qed.

(** Reading it. *)
Lemma vec_deref_eq v r s : usize_ok (v_ptr v) → usize_ok (v_cap v) → usize_ok (v_len v) → kept s (vec_obj v, r) → vec_deref r s = (Ok v, s).
Proof.
  intros Hp Hc Hl Hk. pose proof (kept_load _ _ _ Hk) as E. unfold vec_obj in E. cbn [o_value] in E. rewrite vec_encode_length in E.
  unfold vec_deref, mbind, M_bind. rewrite E. unfold mret, M_ret. by rewrite vec_decode_encode.
Qed.
Lemma vec_len_eq v r s :
  usize_ok (v_ptr v) → usize_ok (v_cap v) → usize_ok (v_len v) → kept s (vec_obj v, r) → vec_len r s = (Ok (v_len v), s).
Proof. intros Hp Hc Hl Hk. unfold vec_len, mbind, M_bind. by rewrite (vec_deref_eq v). Qed.

(** One byte of a stored object. *)
Lemma load_byte op (i : nat) b m :
  obj_stored m op → o_value op.1 !! i = Some b → mem_load (op.2 + Z.of_nat i) 1 m = (Ok [b], m).
Proof.
  intros [E _] Hb. pose proof (lookup_lt_Some _ _ _ Hb) as Hi. unfold mem_load in *.
  destruct (decide (mem_valid _ (Z.of_nat (length (o_value op.1))) m)) as [Hv|]; [|done].
  destruct (mapM id _) as [data|] eqn:Em; [|done]. injection E as ->. apply mapM_Some_1 in Em.
  rewrite decide_True; [|].
  - cbn [read_bytes mapM]. assert (bytes m !! (op.2 + Z.of_nat i) = Some b) as ->; [|done].
    destruct (Forall2_lookup_r _ _ _ _ _ Em Hb) as (o & Ho & Hid). rewrite lookup_read_bytes in Ho by done. unfold id in Hid. congruence.
  - destruct Hv as [?|Hv]; [lia|right]. eapply Exists_impl; [exact Hv|]. intros blk Hs. rewrite range_subseteq_spec in Hs |- *.
    intros a Ha. apply Hs. range_solve.
Qed.
Lemma vec_get_eq x v r s i :
  usize_ok (v_ptr v) → usize_ok (v_cap v) → usize_ok (v_len v) → Forall (kept s) (vec_kept x v r) → 0 ≤ i < v_len v → vec_get r i s = (Ok x, s).
Proof.
  intros Hp Hc Hl Hk Hi. apply Forall_cons in Hk as [[Hbuf _] [Hv _]%Forall_cons]. unfold vec_get, mbind, M_bind. rewrite (vec_deref_eq v) by done.
  destruct (Z.ltb_spec i (v_len v)); [|lia].
  pose proof (load_byte _ (Z.to_nat i) x _ Hbuf ltac:(apply lookup_replicate; split; [done|lia])) as E. cbn [snd] in E. rewrite Z2Nat.id in E by lia.
  unfold a_on_mem, a_on_world, w_on_mem, zoom. rewrite E. by destruct s as [? []].
Qed.
End grown.
