(* ===== verification/VirtualDemo.v ===== *)
(** * VirtualDemo: the programs of examples/virtual_memory_demo.rs

    Clients of [Arena::with_virtual_memory]: [compare_arena_types] with a second arena
    beside the first in one process, [large_allocation_demo], [memory_efficiency_demo],
    and [virtual_memory_demo] of examples/v0_5_features.rs.  What they print is what
    the definitions return.  A vector a function keeps to itself is a list; one that is
    moved into the arena is a [VecU8].  The arena goes out of scope at the end of the
    function, whether that returns or panics. *)
From S2P Require Import Prelude Keeps Memory Bump Chunk Slab ThreadLocal LockFree VirtualMemory Debug Inner InnerInv Objects Arena ArenaSafety ArenaCheckpoint ArenaRelease ArenaCalls ArenaStats ArenaFootprint ArenaVirtual Budget VecU8 Features.
Local Open Scope Z_scope.

(** [let arena = ..; body]: the body, then the drop of the arena. *)
Definition drop_arena `{Cfg} : M AW unit := s ← get; a_on_world (Arena_drop (a_arena s)).
Definition in_arena `{Cfg} {A} (arena : Arena) (body : M AW A) : M World A := λ w,
  let '(r, s) := with_drop body drop_arena (mkAW arena w) in (r, a_world s).

(** Two arenas in one process. *)
Record AA := mkAA { aa_regular : Arena; aa_vm : Arena; aa_world : World }.
Definition regular_aw (s : AA) : AW := mkAW (aa_regular s) (aa_world s).
Definition vm_aw (s : AA) : AW := mkAW (aa_vm s) (aa_world s).
Definition on_regular {A} (m : M AW A) : M AA A := zoom regular_aw (λ x s, mkAA (a_arena x) (aa_vm s) (a_world x)) m.
Definition on_vm {A} (m : M AW A) : M AA A := zoom vm_aw (λ x s, mkAA (aa_regular s) (a_arena x) (a_world x)) m.
(** [let vm_arena = ..; body] where an arena is in scope already. *)
Definition beside `{Cfg} {A} (vm_arena : Arena) (body : M AA A) : M AW A := λ s,
  let '(r, t) := with_drop body (on_vm drop_arena) (mkAA (a_arena s) vm_arena (a_world s)) in (r, regular_aw t).

Section demos.
Context `{cfg : Cfg} `{ga : GlobalAlloc} `{os : OS} `{vr : VecRepr} (bt : string).

(** [print_stats]: bytes used, allocation count, chunk count. *)
Definition print_stats : M AW (Z * Z * Z) :=
  s ← get;
  let stats := Arena_stats (a_arena s) in
  mret (st_bytes_used stats, st_allocation_count stats, st_chunk_count stats).

(** [arena.alloc(vec![x; n])] *)
Definition alloc_new_vec (x n : Z) : M AW Z := v ← a_on_world (vec_from_elem x n); alloc_vec bt v.

(** The two lengths and the two small values. *)
Definition compare_arena_types (self self' : Z) : M World (Z * Z * list Z * list Z) :=
  regular_arena ← Arena_new self;
  in_arena regular_arena (
    regular_data ← alloc_new_vec 0 1000000;
    n ← vec_len regular_data;
    vm_arena ← a_on_world (Arena_with_virtual_memory self' (16 * 1024 * 1024));
    beside vm_arena (
      vm_data ← on_vm (alloc_new_vec 0 1000000);
      n' ← on_vm (vec_len vm_data);
      small_regular ← on_regular (Arena_alloc bt (mkLayout 4 4) (le_bytes 4 42));
      small_vm ← on_vm (Arena_alloc bt (mkLayout 4 4) (le_bytes 4 42));
      x ← on_regular (a_on_mem (mem_load small_regular 4));
      y ← on_vm (a_on_mem (mem_load small_vm 4));
      mret (n, n', x, y))).

(** [(i..i + n).map(|i| ..).collect()]: the megabytes and the value printed, and the
    references. *)
Fixpoint alloc_arrays (n : nat) (i : Z) : M AW (list (Z * Z * Z)) :=
  match n with
  | O => mret []
  | S n =>
      size ← lift (j ← usize_add i 1; usize_mul j 1000000);
      data ← alloc_new_vec (i `mod` 256) size;
      rest ← alloc_arrays n (i + 1);
      mret ((size `div` 1000000, i, data) :: rest)
  end.
(** [for (i, data) in allocations.iter().enumerate() { println!(..) }] from index [i]. *)
Fixpoint verify_arrays (i : Z) (allocations : list Z) : M AW (list (Z * Z * Z)) :=
  match allocations with
  | [] => mret []
  | data :: allocations =>
      len ← vec_len data;
      first ← vec_get data 0;
      rest ← verify_arrays (i + 1) allocations;
      mret ((i, len, first) :: rest)
  end.
Definition large_allocation_demo (self : Z) : M World (list (Z * Z * Z) * list (Z * Z * Z) * Z) :=
  arena ← Arena_with_virtual_memory self (64 * 1024 * 1024);
  in_arena arena (
    allocations ← alloc_arrays 10 0;
    lines ← verify_arrays 0 (snd <$> allocations);
    s ← get;
    mret (allocations, lines, st_bytes_used (Arena_stats (a_arena s)))).

(** [(i..i + n).map(|i| arena.alloc(i)).collect()] *)
Fixpoint alloc_i32s (n : nat) (i : Z) : M AW (list Z) :=
  match n with
  | O => mret []
  | S n => p ← alloc_i32 bt i; ps ← alloc_i32s n (i + 1); mret (p :: ps)
  end.
(** The five statistics, the lengths of the large arrays, the number of small objects
    and the first and the last of them. *)
Definition memory_efficiency_demo (self : Z) : M World (list (Z * Z * Z) * (Z * Z) * (nat * list Z * list Z)) :=
  arena ← Arena_with_virtual_memory self (32 * 1024 * 1024);
  in_arena arena (
    stats1 ← print_stats;
    large_data ← alloc_new_vec 0 10000000;
    stats2 ← print_stats;
    small_objects ← alloc_i32s (Z.to_nat 100000) 0;
    stats3 ← print_stats;
    large_len ← vec_len large_data;
    first ← lift (vec_index 0 small_objects);
    first ← a_on_mem (mem_load first 4);
    last ← lift (vec_index (Z.to_nat 99999) small_objects);
    last ← a_on_mem (mem_load last 4);
    _ ← Arena_reset;
    stats4 ← print_stats;
    new_data ← alloc_new_vec 1 5000000;
    new_len ← vec_len new_data;
    stats5 ← print_stats;
    mret ([stats1; stats2; stats3; stats4; stats5], (large_len, new_len), (length small_objects, first, last))).

(** [main]; the arenas' addresses. *)
Definition virtual_demo_main (self1 self2 self3 self4 : Z) :
  M World (Z * Z * list Z * list Z * (list (Z * Z * Z) * list (Z * Z * Z) * Z) * (list (Z * Z * Z) * (Z * Z) * (nat * list Z * list Z))) :=
  c ← compare_arena_types self1 self2;
  l ← large_allocation_demo self3;
  m ← memory_efficiency_demo self4;
  mret (c, l, m).

(** examples/v0_5_features.rs: the length, the small value, the statistics. *)
Definition virtual_memory_demo (self : Z) : M World (Z * list Z * (Z * Z)) :=
  arena ← Arena_with_virtual_memory self (16 * 1024 * 1024);
  in_arena arena (
    large_data ← alloc_new_vec 0 100000;
    n ← vec_len large_data;
    small_value ← Arena_alloc bt (mkLayout 4 4) (le_bytes 4 42);
    x ← a_on_mem (mem_load small_value 4);
    _ ← alloc_range bt 1000 0;
    s ← get;
    let st := Arena_stats (a_arena s) in
    mret (n, x, (st_bytes_used st, st_allocation_count st))).

(** [main] of examples/v0_5_features.rs, the demonstrations of Features.v each with an
    arena of its own; those of features that are not built are skipped. *)
Definition in_new_arena {A} (self : Z) (body : M AW A) : M World A := arena ← Arena_new self; in_arena arena body.
Definition when {A} (b : bool) (m : M World A) : M World (option A) := if b then x ← m; mret (Some x) else mret None.
Definition features_main (p1 p2 p3 p4 p5 p6 : Z) :=
  basic ← in_new_arena p1 (basic_arena_demo bt);
  _ ← in_new_arena p2 (fast_reset_demo bt);
  safety ← when feat_debug (in_new_arena p3 (memory_safety_demo p3 bt));
  virtual ← when feat_virtual_memory (virtual_memory_demo p4);
  thread ← when feat_thread_local (in_new_arena p5 (thread_local_demo bt));
  lockfree ← when feat_lockfree (in_new_arena p6 (lockfree_demo bt));
  mret (basic, safety, virtual, thread, lockfree).
End demos.

(** What a build with [stats] and no other feature prints, with the heap as before. *)
Example features_main_output :
  let r := @features_main cfg_dev bump_alloc (mkOS (λ _ _, None) (λ _ _ _ _, false)) vec_le "bt" 1 2 3 4 5 6 demo_world in
  r.1 = Ok ([42; 0; 0; 0], [72; 101; 108; 108; 111; 44; 32; 97; 114; 101; 110; 97; 45; 98; 33],
            [1; 0; 0; 0; 2; 0; 0; 0; 3; 0; 0; 0; 4; 0; 0; 0; 5; 0; 0; 0], (39, 3), None, None, None, None) ∧
  heap (w_mem r.2) = heap (w_mem demo_world).
Proof. by vm_compute. Qed.

(** ** An arena in scope *)
Section scope.
Context `{cfg : Cfg} {ga : GlobalAlloc} `{!GlobalAllocOk ga} {os : OS} `{!OSOk os} `{vr : VecRepr} `{!VecReprOk vr} (bt : string).
Context (H0 : list Block) (total : Z).
Hypothesis (Hlf : feat_lockfree = false) (Hdb : feat_debug = false) (Hample : ample H0 total).

(** A process in which an arena can be created. *)
Definition quiet (w : World) : Prop := Mem_wf (w_mem w) ∧ tc_used (w_cache w) = 0%nat.

(** An arena just created. *)
Record NewArena (w : World) (a : Arena) (w' : World) : Prop := mkNewArena {
  na_ok : Arena_ok (mkAW a w');
  na_owns : Owns (heap (w_mem w)) (iw (mkAW a w'));
  na_stats : feat_stats = true → st_bytes_used (in_stats (a_inner a)) = 0 ∧ st_allocation_count (in_stats (a_inner a)) = 0 ∧
    st_chunk_count (in_stats (a_inner a)) = Z.of_nat (length (in_chunks (a_inner a)));
  na_bytes x : ¬ not_live (w_mem w) x → bytes (w_mem w') !! x = bytes (w_mem w) !! x;
  na_avail x : Inner_avail (iw (mkAW a w')) x → not_live (w_mem w) x;
  na_room c : room H0 total (c + 1) (heap (w_mem w)) → room H0 total c (heap (w_mem w'))
}.

(** Without a lock-free buffer the address of the arena does not matter. *)
Lemma try_self self self' cap w : Arena_try_with_capacity self cap w = Arena_try_with_capacity self' cap w.
Proof. unfold Arena_try_with_capacity, ArenaInner_new. by rewrite Hlf. Qed.

Lemma try_new_cases self cap w :
  quiet w → room H0 total 1 (heap (w_mem w)) → 0 < cap ≤ DEFAULT_CHUNK_SIZE →
  ∃ a w', Arena_try_with_capacity self cap w = (Ok (ROk a), w') ∧ NewArena w a w'.
Proof.
  intros [Hm Ht] Hr Hcap. rewrite (try_self self (ts_owner (w_slab w) + 1)). assert (ts_owner (w_slab w) ≠ ts_owner (w_slab w) + 1) as Hself by lia.
  revert Hself. generalize (ts_owner (w_slab w) + 1). clear self. intros self Hself. assert (World_ok self w) as Hw by done.
  unfold DEFAULT_CHUNK_SIZE in Hcap. assert (0 < cap ≤ ISIZE_MAX - 63) as Hcap' by ulia.
  assert (small (mkLayout (align_to cap 64) 64)) as Hsm.
  { pose proof (align_to_lt cap 64). pose proof (align_to_ge cap 64). unfold MAX_CHUNK_SIZE.
    split; [split; [simpl; lia|split; [reflexivity|simpl; ulia]]|split; [unfold MAX_CHUNK_SIZE; simpl; lia|done]]. }
  destruct (Arena_try_with_capacity self cap w) as [o w'] eqn:E. pose proof E as E0. revert E.
  unfold Arena_try_with_capacity, ArenaInner_new, Arena_from_inner. rewrite Hlf, Hdb. unfold mbind, M_bind, w_on_mem, zoom, mret, M_ret.
  destruct (Chunk_new_cases cap (w_mem w) Hcap') as [[Hg _]|(c & Hg & -> & _ & _ & Hcc & _)].
  - destruct (room_ample H0 total 1 _ _ Hample ltac:(done) Hsm Hr) as [p Hp]. congruence.
  - intros [= <- <-]. eexists _, _. split; [reflexivity|].
    destruct (Arena_try_with_capacity_ok self cap w _ _ Hw Hcap' E0) as (Hok & Hav & Hby & _ & _).
    destruct (Arena_new_owns self cap w _ _ Hlf Hcap' E0) as [Hown _]. split; try done; [intros ->; done|].
    intros k. simpl. unfold Chunk_block. rewrite Hcc. by apply room_alloc.
Qed.

Lemma with_capacity_new self cap w :
  quiet w → room H0 total 1 (heap (w_mem w)) → 0 < cap ≤ DEFAULT_CHUNK_SIZE →
  ∃ a w', Arena_with_capacity self cap w = (Ok a, w') ∧ NewArena w a w'.
Proof.
  intros Hw Hr Hcap. destruct (try_new_cases self cap w Hw Hr Hcap) as (a & w' & E & Ha).
  exists a, w'. split; [|done]. unfold Arena_with_capacity, mbind, M_bind. by rewrite E.
Qed.

Lemma vm_arena_new self n w :
  quiet w → room H0 total 1 (heap (w_mem w)) → 0 < n < USIZE_MOD →
  ∃ a w', Arena_with_virtual_memory self n w = (Ok a, w') ∧ NewArena w a w'.
Proof.
  intros Hw Hr Hn. unfold Arena_with_virtual_memory. destruct (Z.eqb_spec n 0); [lia|].
  destruct (with_capacity_new self (Z.min n 65536) w Hw Hr) as (a & w1 & E & [Hok Hown Hst Hby Hav Hro]); [unfold DEFAULT_CHUNK_SIZE; lia|].
  unfold mbind, M_bind, lift; rewrite E.
  unfold w_on_trace, zoom. rewrite VirtualMemoryRegion_new_eq by lia. destruct (os_mmap _ _); (eexists _, _; split; [reflexivity|]); by split.
Qed.

(** A demonstration that makes at most [cost] requests returns, with what [P] says of its
    output and of the blocks it left behind. *)
Definition demo_post {A} (cost : Z) (P : A → list Block → Prop) (w : World) (x : A) (w' : World) : Prop :=
  quiet w' ∧ (∀ c, room H0 total (c + cost) (heap (w_mem w)) → room H0 total c (heap (w_mem w'))) ∧
  ∃ bufs, P x bufs ∧ heap (w_mem w') ≡ₚ bufs ++ heap (w_mem w).

(** A body that returns with the heap holding the blocks [bufs] more than before the
    arena was created, beside the arena's own: those are what is left when the arena is
    dropped. *)
Definition body_post {A} (cost : Z) (P : A → list Block → Prop) (w : World) (x : A) (s : AW) : Prop :=
  (∀ c, room H0 total (c + cost) (heap (w_mem w)) → room H0 total c (live s)) ∧
  ∃ bufs, P x bufs ∧ Arena_ok s ∧ Owns (bufs ++ heap (w_mem w)) (iw s).
Lemma drop_quiet s outside :
  Arena_ok s → Owns outside (iw s) →
  ∃ w', Arena_drop (a_arena s) (a_world s) = (Ok tt, w') ∧ heap (w_mem w') ≡ₚ outside ∧ quiet w' ∧
    ∀ c, room H0 total c (live s) → room H0 total c (heap (w_mem w')).
Proof.
  intros Hok Ho. destruct (drop_confined _ Hdb s Hok (Owns_Held _ _ Ho)) as (w' & Ed & Hh & _ & Hc). exists w'. split; [exact Ed|]. split; [exact Hh|].
  destruct Hok as (Hm & _ & _ & _ & _ & Ht). destruct Ho as [Ho _]. unfold s_mem in Ho. simpl in Ho. split; [split; [|by rewrite Hc]|].
  - apply (pw_disjoint_submseteq _ (block_range <$> heap (w_mem (a_world s)))); [|exact Hm]. apply fmap_submseteq. rewrite Hh, Ho. by apply submseteq_inserts_l.
  - intros c. apply (room_free _ _ _ _ (Chunk_block <$> in_chunks (a_inner (a_arena s)))). unfold live. by rewrite Ho, Hh.
Qed.
Lemma in_arena_post {A} cost w0 a w (body : M AW A) P :
  wp body (body_post cost P w0) (mkAW a w) → wp (in_arena a body) (demo_post cost P w0) w.
Proof.
  intros (x & s & E & Hr & bufs & HP & Hok & Ho). unfold wp, in_arena, with_drop. rewrite E.
  unfold drop_arena, a_on_world, zoom, mbind, M_bind, get.
  destruct (drop_quiet s _ Hok Ho) as (w' & Ed & Hh & Hq & Hro). rewrite Ed.
  eexists _, _. split; [reflexivity|]. split; [done|]. split; [by auto|]. by exists bufs.
Qed.
Lemma vm_demo {A} cost self n w (body : M AW A) P :
  quiet w → room H0 total 1 (heap (w_mem w)) → 0 < n < USIZE_MOD →
  (∀ a w', NewArena w a w' → wp body (body_post cost P w) (mkAW a w')) →
  wp (arena ← Arena_with_virtual_memory self n; in_arena arena body) (demo_post cost P w) w.
Proof.
  intros Hw Hr Hn Hbody. apply wp_bind. destruct (vm_arena_new self n w Hw Hr Hn) as (a & w1 & E & Ha).
  eapply wp_eq; [exact E|]. apply in_arena_post. by apply Hbody.
Qed.
(** The room that is left after the arena was created and has worked. *)
Lemma new_room w a w1 n z bufs objs s cost :
  NewArena w a w1 → Grown n z bufs objs (mkAW a w1) s → cost = 1 + n + Z.of_nat (length bufs) →
  ∀ c, room H0 total (c + cost) (heap (w_mem w)) → room H0 total c (live s).
Proof.
  intros Ha Hg -> c Hr. apply (Grown_room H0 total _ _ _ _ _ _ _ Hg). apply (na_room _ _ _ Ha). eapply room_mono; [|exact Hr]. lia.
Qed.

(** *** [large_allocation_demo] *)

(** The references printed from index [i] on, with the vectors behind them. *)
Fixpoint arrays_at (i : Z) (out : list (Z * Z * Z)) (vs : list VecU8) : Prop :=
  match out, vs with
  | [], [] => True
  | (mb, x, r) :: out, v :: vs => mb = i + 1 ∧ x = i ∧ v_cap v = (i + 1) * 1000000 ∧ v_len v = (i + 1) * 1000000 ∧ usize_ok (v_ptr v) ∧ arrays_at (i + 1) out vs
  | _, _ => False
  end.
Fixpoint arrays_kept (i : Z) (out : list (Z * Z * Z)) (vs : list VecU8) : list (Obj * Z) :=
  match out, vs with
  | (_, _, r) :: out, v :: vs => vec_kept (i `mod` 256) v r ++ arrays_kept (i + 1) out vs
  | _, _ => []
  end.
Definition array_layout (i : Z) : Layout := mkLayout ((i + 1) * 1000000) 1.

Lemma alloc_arrays_wp n i s :
  Arena_ok s → room H0 total (2 * Z.of_nat n) (live s) → 0 ≤ i → i + Z.of_nat n ≤ 16 →
  wp (alloc_arrays bt n i) (λ out s', ∃ vs bufs, arrays_at i out vs ∧ length out = n ∧ b_layout <$> bufs ≡ₚ array_layout <$> seqZ i (Z.of_nat n) ∧
    Grown (Z.of_nat n) (24 * Z.of_nat n) bufs (arrays_kept i out vs) s s') s.
Proof.
  revert i s. induction n as [|n IH]; intros i s Hok Hr Hi Hn; cbn [alloc_arrays].
  { apply wp_ret. exists [], []. split; [done|]. split; [done|]. split; [done|]. by apply Grown_refl. }
  apply wp_bind. eapply (wp_eq _ ((i + 1) * 1000000) s).
  { unfold lift, mbind, outcome_bind. rewrite usize_add_in by ulia. by rewrite usize_mul_in by ulia. }
  apply wp_bind. eapply wp_mono; [|apply (new_vec_wp bt H0 total Hlf Hdb Hample); [done|eapply room_mono; [|exact Hr]; lia|unfold MAX_CHUNK_SIZE; lia]].
  intros r s1 (v & Hc & Hl & Hp & H1). cbn beta. apply wp_bind. eapply wp_mono; [|apply (IH (i + 1)); [by eapply Grown_ok| |lia|lia]].
  2:{ apply (Grown_room _ _ _ _ _ _ _ _ _ H1). eapply room_mono; [|exact Hr]. simpl. lia. }
  intros out s2 (vs & bufs & Hat & Hlen & Hb & H2). apply wp_ret. exists (v :: vs), (bufs ++ [buf_block v]). cbn [arrays_at arrays_kept length].
  split; [by rewrite Z.div_mul|]. split; [by rewrite Hlen|]. split.
  - rewrite Nat2Z.inj_succ, seqZ_cons by lia. rewrite fmap_app, Z.pred_succ. cbn [fmap list_fmap buf_block b_layout]. rewrite Hc, Hb. unfold Z.succ.
    by rewrite Permutation_app_comm.
  - replace (Z.of_nat (S n)) with (1 + Z.of_nat n) by lia. replace (24 * (1 + Z.of_nat n)) with (24 + 24 * Z.of_nat n) by lia. by eapply Grown_trans.
Qed.

Lemma verify_arrays_eq i out vs s :
  0 ≤ i → i + Z.of_nat (length out) ≤ 16 → arrays_at i out vs → Forall (kept s) (arrays_kept i out vs) →
  verify_arrays i (snd <$> out) s = (Ok ((λ k, (k, (k + 1) * 1000000, k)) <$> seqZ i (Z.of_nat (length out))), s).
Proof.
  revert i vs. induction out as [|[[mb x] r] out IH]; intros i [|v vs] Hi Hn; try done. cbn [arrays_at arrays_kept fmap list_fmap snd verify_arrays length].
  intros (_ & _ & Hc & Hl & Hp & Hat) [Hv Hk]%Forall_app. cbn [length] in Hn.
  assert (usize_ok (v_cap v) ∧ usize_ok (v_len v)) as [Hcap Hlen] by (rewrite Hc, Hl; unfold usize_ok; ulia).
  unfold mbind, M_bind. rewrite (vec_len_eq v r s Hp Hcap Hlen) by (by apply Forall_cons in Hv as [_ [? _]%Forall_cons]).
  rewrite (vec_get_eq (i `mod` 256) v r s 0 Hp Hcap Hlen Hv) by lia. rewrite (IH (i + 1) vs) by (done || lia).
  rewrite Nat2Z.inj_succ, (seqZ_cons i) by lia. rewrite Z.pred_succ. cbn [fmap list_fmap]. rewrite Hl, Z.mod_small by lia. done.
Qed.

Lemma new_used w a w' n z bufs objs s' :
  feat_stats = true → NewArena w a w' → Grown n z bufs objs (mkAW a w') s' →
  usize_wrap (st_bytes_used (Arena_stats (a_arena s'))) = usize_wrap z ∧ usize_wrap (st_allocation_count (Arena_stats (a_arena s'))) = usize_wrap n.
Proof.
  intros Hst Ha Hg. destruct (na_stats _ _ _ Ha Hst) as (Hu & Hc & _). destruct (gr_counted _ _ _ _ _ _ Hg Hst) as [Hn Hz _].
  unfold Arena_stats. rewrite Hst. unfold same_usize in *. simpl in Hn, Hz. by rewrite Hn, Hz, Hu, Hc, !Z.add_0_l.
Qed.

Lemma large_allocation_spec self w :
  feat_stats = true → quiet w → room H0 total 21 (heap (w_mem w)) →
  wp (large_allocation_demo bt self) (demo_post 21 (λ '(allocations, lines, used) bufs,
      fst <$> allocations = (λ i, (i + 1, i)) <$> seqZ 0 10 ∧ lines = (λ i, (i, (i + 1) * 1000000, i)) <$> seqZ 0 10 ∧
      usize_wrap used = 240 ∧ b_layout <$> bufs ≡ₚ array_layout <$> seqZ 0 10) w) w.
Proof.
  intros Hst Hw Hr. apply vm_demo; [done|by apply (room_mono _ _ 21)|ulia|]. intros a w1 Ha. pose proof (na_ok _ _ _ Ha) as Hok.
  apply wp_bind. eapply wp_mono; [|apply (alloc_arrays_wp 10 0); [done|exact (na_room _ _ _ Ha 20 Hr)|lia|lia]]. intros out s1 (vs & bufs & Hat & Hlen & Hb & Hg). cbn beta.
  apply wp_bind. eapply wp_eq; [apply (verify_arrays_eq 0 out vs s1); [lia|rewrite Hlen; lia|done|exact (gr_kept _ _ _ _ _ _ Hg)]|]. rewrite Hlen.
  apply wp_bind. eapply wp_eq; [reflexivity|]. apply wp_ret. split.
  { eapply (new_room _ _ _ _ _ _ _ _ 21 Ha Hg). apply (f_equal Z.of_nat) in Hlen. apply (Permutation_length) in Hb. rewrite !length_fmap in Hb. by rewrite Hb. }
  exists bufs. split; [|split; [by eapply Grown_ok|exact (gr_owns _ _ _ _ _ _ Hg _ (na_owns _ _ _ Ha))]].
  split; [|split; [done|split; [exact (proj1 (new_used _ _ _ _ _ _ _ _ Hst Ha Hg))|done]]].
  assert (∀ i out vs, arrays_at i out vs → fst <$> out = (λ i, (i + 1, i)) <$> seqZ i (Z.of_nat (length out))) as Hfst.
  { clear. intros i out. revert i. induction out as [|[[mb x] r] out IH]; intros i [|v vs]; try done. cbn [arrays_at].
    intros (-> & -> & _ & _ & _ & Hat). cbn [length fmap list_fmap fst]. rewrite Nat2Z.inj_succ, (seqZ_cons i), Z.pred_succ by lia. cbn [fmap list_fmap].
    by rewrite (IH _ _ Hat). }
  rewrite (Hfst _ _ _ Hat), Hlen. done.
Qed.

(** *** [memory_efficiency_demo] and [virtual_memory_demo] *)
Definition i32_objs (i : Z) (n : nat) (ps : list Z) : list (Obj * Z) := zip (i32_obj <$> seqZ i (Z.of_nat n)) ps.

Lemma alloc_i32_wp i s : Arena_ok s → room H0 total 1 (live s) → wp (alloc_i32 bt i) (λ p s', Grown 1 4 [] [(i32_obj i, p)] s s') s.
Proof. intros Hok Hr. exact (alloc_wp bt H0 total Hlf Hdb Hample (i32_obj i) s Hok Hr (i32_ok i) ltac:(vm_compute; discriminate)). Qed.
(** The first of several. *)
Lemma room_first n c s : (0 < n)%nat → room H0 total (c + Z.of_nat n) (live s) → 0 ≤ c → room H0 total 1 (live s).
Proof. intros Hn Hr Hc. eapply room_mono; [|exact Hr]. lia. Qed.

Lemma alloc_i32s_wp n i s :
  Arena_ok s → room H0 total (Z.of_nat n) (live s) → wp (alloc_i32s bt n i) (λ ps s', length ps = n ∧ Grown (Z.of_nat n) (4 * Z.of_nat n) [] (i32_objs i n ps) s s') s.
Proof.
  revert i s. induction n as [|n IH]; intros i s Hok Hr; cbn [alloc_i32s]; [apply wp_ret; split; [done|exact (Grown_refl s Hok)]|].
  apply wp_bind. eapply wp_mono; [|apply alloc_i32_wp; [done|by apply (room_first (S n) 0); [lia| |]]]. intros p s1 H1. cbn beta.
  apply wp_bind. eapply wp_mono; [|apply (IH (i + 1) s1); [exact (Grown_ok _ _ _ _ _ _ H1)|]].
  2:{ apply (Grown_room _ _ _ _ _ _ _ _ _ H1). eapply room_mono; [|exact Hr]. simpl. lia. } intros ps s2 [Hl H2]. apply wp_ret. split; [by simpl; rewrite Hl|].
  unfold i32_objs in *. rewrite Nat2Z.inj_succ, (seqZ_cons i), Z.pred_succ by lia. cbn [fmap list_fmap zip zip_with].
  replace (Z.succ (Z.of_nat n)) with (1 + Z.of_nat n) by lia. replace (4 * (1 + Z.of_nat n)) with (4 + 4 * Z.of_nat n) by lia.
  exact (Grown_trans _ _ _ _ _ _ _ _ _ _ _ H1 H2).
Qed.

Lemma alloc_range_wp n i s : Arena_ok s → room H0 total (Z.of_nat n) (live s) → wp (alloc_range bt n i) (λ _ s', Grown (Z.of_nat n) (4 * Z.of_nat n) [] [] s s') s.
Proof.
  revert i s. induction n as [|n IH]; intros i s Hok Hr; cbn [alloc_range]; [apply wp_ret; by apply Grown_refl|].
  apply wp_bind. eapply wp_mono; [|apply alloc_i32_wp; [done|by apply (room_first (S n) 0); [lia| |]]]. intros p s1 H1. cbn beta.
  eapply wp_mono; [|apply (IH (i + 1) s1); [exact (Grown_ok _ _ _ _ _ _ H1)|]].
  2:{ apply (Grown_room _ _ _ _ _ _ _ _ _ H1). eapply room_mono; [|exact Hr]. simpl. lia. }
  intros [] s2 H2.
  replace (Z.of_nat (S n)) with (1 + Z.of_nat n) by lia. replace (4 * (1 + Z.of_nat n)) with (4 + 4 * Z.of_nat n) by lia.
  destruct (Grown_trans _ _ _ _ _ _ _ _ _ _ _ H1 H2) as [? ? _ _ ? ?]. by split.
Qed.

(** The vector behind a reference that is kept. *)
Lemma kept_len x v r n s : v_cap v = n → v_len v = n → usize_ok n → usize_ok (v_ptr v) → Forall (kept s) (vec_kept x v r) → vec_len r s = (Ok n, s).
Proof. intros Hc Hl Hn Hp [_ [Hk _]%Forall_cons]%Forall_cons. rewrite <- Hl. by apply vec_len_eq; rewrite ?Hc, ?Hl. Qed.
Lemma i32_load i n ps s (k : nat) p :
  Forall (kept s) (i32_objs i n ps) → (k < n)%nat → ps !! k = Some p → a_on_mem (mem_load p 4) s = (Ok (le_bytes 4 (i + Z.of_nat k)), s).
Proof.
  intros Hk Hn Hp. rewrite Forall_lookup in Hk. apply (kept_load (i32_obj (i + Z.of_nat k)) p s). apply (Hk k).
  unfold i32_objs. rewrite lookup_zip_with, Hp, list_lookup_fmap, lookup_seqZ_lt by lia. done.
Qed.

Lemma reset_owns outside s :
  Arena_ok s → Owns outside (iw s) →
  ∃ s', Arena_reset s = (Ok tt, s') ∧ Arena_ok s' ∧ Owns outside (iw s') ∧ live s' = live s ∧
    (feat_stats = true → st_bytes_used (in_stats (a_inner (a_arena s'))) = 0 ∧ st_allocation_count (in_stats (a_inner (a_arena s'))) = 0).
Proof.
  intros Hok Ho. destruct (reset_step s Hlf Hok) as (s' & E & Hok' & Hcs & _ & _ & Hm & Hl & Hst). exists s'. split; [exact E|]. split; [done|].
  split; [|split; [unfold live; by rewrite Hm|]].
  - destruct Ho as [Hh Hn]. split; [|simpl; by rewrite Hl]. unfold s_mem. simpl. by rewrite Hcs, Hm, Chunk_reset_blocks.
  - intros H. by rewrite (Hst H).
Qed.

(** What [print_stats] shows of the bytes and the allocations. *)
Definition shown (x : Z * Z * Z) : Z * Z := (usize_wrap x.1.1, usize_wrap x.1.2).
Lemma print_stats_wp n z bufs objs s s' (Q : Z * Z * Z → AW → Prop) :
  feat_stats = true → st_bytes_used (in_stats (a_inner (a_arena s))) = 0 → st_allocation_count (in_stats (a_inner (a_arena s))) = 0 →
  Grown n z bufs objs s s' → (∀ x, shown x = (usize_wrap z, usize_wrap n) → Q x s') → wp print_stats Q s'.
Proof.
  intros Hst Hu Hc Hg HQ. unfold print_stats. apply wp_bind. eapply wp_eq; [reflexivity|]. apply wp_ret. apply HQ.
  destruct (gr_counted _ _ _ _ _ _ Hg Hst) as [Hn Hz _]. unfold same_usize in *. rewrite Hu in Hz. rewrite Hc in Hn.
  unfold shown, Arena_stats. rewrite Hst. cbn [fst snd]. by rewrite Hn, Hz.
Qed.

Lemma virtual_memory_spec self w :
  feat_stats = true → quiet w → room H0 total 1004 (heap (w_mem w)) →
  wp (virtual_memory_demo bt self) (demo_post 1004 (λ '(n, x, (used, count)) bufs,
      n = 100000 ∧ x = le_bytes 4 42 ∧ usize_wrap used = 4028 ∧ usize_wrap count = 1002 ∧ b_layout <$> bufs = [mkLayout 100000 1]) w) w.
Proof.
  intros Hst Hw Hr. apply vm_demo; [done|by apply (room_mono _ _ 1004)|ulia|]. intros a w1 Ha. pose proof (na_ok _ _ _ Ha) as Hok.
  pose proof (na_room _ _ _ Ha 1003 Hr) as Hr0.
  apply wp_bind. eapply wp_mono; [|apply (new_vec_wp bt H0 total Hlf Hdb Hample); [done|by apply (room_mono _ _ 1003)|unfold MAX_CHUNK_SIZE; lia]]. intros r s1 (v & Hc & Hl & Hp & H1). cbn beta.
  apply wp_bind. eapply wp_eq; [exact (kept_len 0 v r 100000 s1 Hc Hl ltac:(unfold usize_ok; ulia) Hp (gr_kept _ _ _ _ _ _ H1))|].
  pose proof (Grown_room _ _ _ _ _ _ _ _ 1001 H1 Hr0) as Hr1.
  apply wp_bind. eapply wp_mono; [|apply (alloc_i32_wp 42 s1); [exact (Grown_ok _ _ _ _ _ _ H1)|by apply (room_mono _ _ 1001)]]. intros p s2 H2. cbn beta.
  apply wp_bind. eapply wp_eq; [pose proof (gr_kept _ _ _ _ _ _ H2) as [Hk _]%Forall_cons; exact (kept_load _ _ _ Hk)|].
  apply wp_bind. eapply wp_mono; [|apply (alloc_range_wp 1000 0 s2); [exact (Grown_ok _ _ _ _ _ _ H2)|exact (Grown_room _ _ _ _ _ _ _ _ 1000 H2 Hr1)]]. intros [] s3 H3. cbn beta.
  apply wp_bind. eapply wp_eq; [reflexivity|]. pose proof (Grown_trans _ _ _ _ _ _ _ _ _ _ _ (Grown_trans _ _ _ _ _ _ _ _ _ _ _ H1 H2) H3) as Hg.
  destruct (new_used _ _ _ _ _ _ _ _ Hst Ha Hg) as [Hu Hn]. apply wp_ret. split; [exact (new_room _ _ _ _ _ _ _ _ 1004 Ha Hg eq_refl)|]. exists [buf_block v]. split.
  - split; [done|]. split; [done|]. split; [exact Hu|]. split; [exact Hn|]. cbn. by rewrite Hc.
  - split; [exact (Grown_ok _ _ _ _ _ _ Hg)|]. exact (gr_owns _ _ _ _ _ _ Hg _ (na_owns _ _ _ Ha)).
Qed.

(** Up to the reset, whatever follows. *)
Lemma before_reset_wp {A} w a w1 (k : Z * Z * Z → Z * Z * Z → Z * Z * Z → Z → list Z → list Z → list Z → M AW A) Q :
  feat_stats = true → NewArena w a w1 → room H0 total 100003 (heap (w_mem w)) →
  (∀ st1 st2 st3 small s v, (∀ c, room H0 total (c + 100003) (heap (w_mem w)) → room H0 total c (live s)) → shown <$> [st1; st2; st3] = [(0, 0); (24, 1); (400024, 100001)] → length small = Z.to_nat 100000 → v_cap v = 10000000 →
     Arena_ok s → Owns (buf_block v :: heap (w_mem w)) (iw s) → wp (k st1 st2 st3 10000000 small (le_bytes 4 0) (le_bytes 4 99999)) Q s) →
  wp (stats1 ← print_stats; large_data ← alloc_new_vec bt 0 10000000; stats2 ← print_stats;
      small_objects ← alloc_i32s bt (Z.to_nat 100000) 0; stats3 ← print_stats; large_len ← vec_len large_data;
      first ← lift (vec_index 0 small_objects); first ← a_on_mem (mem_load first 4);
      last ← lift (vec_index (Z.to_nat 99999) small_objects); last ← a_on_mem (mem_load last 4);
      k stats1 stats2 stats3 large_len small_objects first last) Q (mkAW a w1).
Proof.
  intros Hst Ha Hr HQ. pose proof (na_ok _ _ _ Ha) as Hok. destruct (na_stats _ _ _ Ha Hst) as (Hu & Hc & _).
  pose proof (na_room _ _ _ Ha 100002 Hr) as Hr0.
  apply wp_bind. eapply (print_stats_wp _ _ _ _ (mkAW a w1)); [done|exact Hu|exact Hc|by apply Grown_refl|]. intros st1 Hst1.
  apply wp_bind. eapply wp_mono; [|apply (new_vec_wp bt H0 total Hlf Hdb Hample); [done|by apply (room_mono _ _ 100002)|unfold MAX_CHUNK_SIZE; lia]].
  intros r s1 (v & Hvc & Hvl & Hp & H1). cbn beta.
  apply wp_bind. eapply (print_stats_wp _ _ _ _ (mkAW a w1)); [done|exact Hu|exact Hc|exact H1|]. intros st2 Hst2.
  apply wp_bind. eapply wp_mono; [|apply (alloc_i32s_wp (Z.to_nat 100000) 0 s1); [exact (Grown_ok _ _ _ _ _ _ H1)|rewrite Z2Nat.id by lia; exact (Grown_room _ _ _ _ _ _ _ _ 100000 H1 Hr0)]].
  intros ps s2 [Hl H2]. cbn beta.
  pose proof (Grown_trans _ _ _ _ _ _ _ _ _ _ _ H1 H2) as Hg. pose proof (gr_kept _ _ _ _ _ _ Hg) as [Hk1 Hk2]%Forall_app.
  apply wp_bind. eapply (print_stats_wp _ _ _ _ (mkAW a w1)); [done|exact Hu|exact Hc|exact Hg|]. intros st3 Hst3. rewrite Z2Nat.id in Hst3 by lia.
  apply wp_bind. eapply wp_eq; [exact (kept_len 0 v r 10000000 s2 Hvc Hvl ltac:(unfold usize_ok; ulia) Hp Hk1)|].
  destruct (lookup_lt_is_Some_2 ps 0) as [p0 Hp0]; [rewrite Hl; lia|]. destruct (lookup_lt_is_Some_2 ps (Z.to_nat 99999)) as [p9 Hp9]; [rewrite Hl; lia|].
  apply wp_bind. eapply (wp_eq _ p0 s2); [unfold lift, vec_index; by rewrite Hp0|].
  apply wp_bind. eapply wp_eq; [apply (i32_load 0 _ ps s2 0 p0 Hk2); [lia|done]|].
  apply wp_bind. eapply (wp_eq _ p9 s2); [unfold lift, vec_index; by rewrite Hp9|].
  apply wp_bind. eapply wp_eq; [apply (i32_load 0 _ ps s2 (Z.to_nat 99999) p9 Hk2); [lia|done]|]. rewrite Z2Nat.id by lia.
  apply (HQ _ _ _ _ _ v); [apply (new_room _ _ _ _ _ _ _ _ 100003 Ha Hg); rewrite Z2Nat.id by lia; reflexivity| |exact Hl|done|exact (Grown_ok _ _ _ _ _ _ Hg)|].
  - cbn [fmap list_fmap]. rewrite Hst1, Hst2, Hst3. reflexivity.
  - exact (gr_owns _ _ _ _ _ _ Hg _ (na_owns _ _ _ Ha)).
Qed.

(** From the reset on: the large array is given up, its buffer is not. *)
Lemma after_reset_wp {A} outside s (k : Z * Z * Z → Z * Z * Z → Z → M AW A) Q :
  feat_stats = true → Arena_ok s → Owns outside (iw s) → room H0 total 2 (live s) →
  (∀ st4 st5 s' v, (∀ c, room H0 total (c + 2) (live s) → room H0 total c (live s')) → shown <$> [st4; st5] = [(0, 0); (24, 1)] → v_cap v = 5000000 → Arena_ok s' → Owns (buf_block v :: outside) (iw s') →
     wp (k st4 st5 5000000) Q s') →
  wp (_ ← Arena_reset; stats4 ← print_stats; new_data ← alloc_new_vec bt 1 5000000; new_len ← vec_len new_data; stats5 ← print_stats;
      k stats4 stats5 new_len) Q s.
Proof.
  intros Hst Hok Ho Hr HQ. destruct (reset_owns outside s Hok Ho) as (s1 & E & Hok1 & Ho1 & Hlive & Hz). destruct (Hz Hst) as [Hu Hc].
  apply wp_bind. eapply wp_eq; [exact E|]. apply wp_bind. eapply (print_stats_wp _ _ _ _ s1); [done|exact Hu|exact Hc|by apply Grown_refl|]. intros st4 Hst4.
  apply wp_bind. eapply wp_mono; [|apply (new_vec_wp bt H0 total Hlf Hdb Hample); [done|by rewrite Hlive|unfold MAX_CHUNK_SIZE; lia]].
  intros r s2 (v & Hvc & Hvl & Hp & H1). cbn beta.
  apply wp_bind. eapply wp_eq; [exact (kept_len 1 v r 5000000 s2 Hvc Hvl ltac:(unfold usize_ok; ulia) Hp (gr_kept _ _ _ _ _ _ H1))|].
  apply wp_bind. eapply (print_stats_wp _ _ _ _ s1); [done|exact Hu|exact Hc|exact H1|]. intros st5 Hst5.
  apply (HQ _ _ _ v); [| |done|exact (Grown_ok _ _ _ _ _ _ H1)|exact (gr_owns _ _ _ _ _ _ H1 _ Ho1)].
  - intros c Hrc. apply (Grown_room _ _ _ _ _ _ _ _ _ H1). rewrite Hlive. eapply room_mono; [|exact Hrc]. simpl. lia.
  - cbn [fmap list_fmap]. rewrite Hst4, Hst5. reflexivity.
Qed.

Lemma memory_efficiency_spec self w :
  feat_stats = true → quiet w → room H0 total 100005 (heap (w_mem w)) →
  wp (memory_efficiency_demo bt self) (demo_post 100005 (λ '(stats, lens, (count, first, last)) bufs,
      shown <$> stats = [(0, 0); (24, 1); (400024, 100001); (0, 0); (24, 1)] ∧ lens = (10000000, 5000000) ∧
      Z.of_nat count = 100000 ∧ first = le_bytes 4 0 ∧ last = le_bytes 4 99999 ∧
      b_layout <$> bufs = [mkLayout 5000000 1; mkLayout 10000000 1]) w) w.
Proof.
  intros Hst Hw Hr. apply vm_demo; [done|by apply (room_mono _ _ 100005)|ulia|]. intros a w1 Ha.
  apply (before_reset_wp w a w1 (λ stats1 stats2 stats3 large_len small_objects first last,
    _ ← Arena_reset; stats4 ← print_stats; new_data ← alloc_new_vec bt 1 5000000; new_len ← vec_len new_data; stats5 ← print_stats;
    mret ([stats1; stats2; stats3; stats4; stats5], (large_len, new_len), (length small_objects, first, last)))); [done|done|by apply (room_mono _ _ 100005)|].
  intros st1 st2 st3 small s v Hro H1 Hl Hv Hok Ho.
  apply (after_reset_wp (buf_block v :: heap (w_mem w)) s (λ stats4 stats5 new_len,
    mret ([st1; st2; st3; stats4; stats5], (10000000, new_len), (length small, le_bytes 4 0, le_bytes 4 99999)))); [done|done|done|exact (Hro 2 Hr)|].
  intros st4 st5 s' v' Hro' H2 Hv' Hok' Ho'. apply wp_ret. split.
  { intros c Hc. apply Hro', Hro. eapply room_mono; [|exact Hc]. lia. }
  exists [buf_block v'; buf_block v]. split; [|by split].
  split; [change [st1; st2; st3; st4; st5] with ([st1; st2; st3] ++ [st4; st5]); by rewrite fmap_app, H1, H2|]. split; [done|]. split; [rewrite Hl; lia|]. split; [done|]. split; [done|].
  cbn [fmap list_fmap buf_block b_layout]. by rewrite Hv, Hv'.
Qed.
End scope.

(** ** Two arenas in one process *)
Definition blocks_of (a : Arena) : list Block := Chunk_block <$> in_chunks (a_inner a).

(** [a] and [b] are well formed in one process, and the heap is made of the chunks of
    both and of [rest]. *)
Record Two (a b : Arena) (w : World) (rest : list Block) : Prop := mkTwo {
  tw_a : Arena_ok (mkAW a w);
  tw_b : Arena_ok (mkAW b w);
  tw_owns : Owns (blocks_of b ++ rest) (iw (mkAW a w));
  tw_none : in_lockfree_buffer (a_inner b) = None
}.

Lemma Two_sym a b w rest : Two a b w rest → Two b a w rest.
Proof.
  intros [Ha Hb [Hh Hn] Hl]. split; [done|done| |exact Hn]. split; [|exact Hl]. unfold blocks_of in *. simpl in *. rewrite Hh.
  rewrite !app_assoc. by rewrite (Permutation_app_comm (Chunk_block <$> _)).
Qed.

Lemma none_blocks b : in_lockfree_buffer (a_inner b) = None → Inner_blocks (a_inner b) = blocks_of b.
Proof. intros H. unfold Inner_blocks. rewrite H. by rewrite app_nil_r. Qed.

(** An arena whose blocks are still live when the world has changed. *)
Lemma beside_ok a b w w' rest :
  Arena_ok (mkAW b w) → in_lockfree_buffer (a_inner b) = None → Arena_ok (mkAW a w') → Owns (blocks_of b ++ rest) (iw (mkAW a w')) → Arena_ok (mkAW b w').
Proof.
  intros Hb Hn (Hm & _ & _ & _ & _ & Ht) [Hh _]. apply (other_world_ok b w); [done|done|done|done|].
  rewrite (none_blocks b Hn). unfold s_mem, iw in Hh. simpl in *. rewrite Hh. apply submseteq_inserts_l, submseteq_inserts_r. done.
Qed.

Section two.
Context `{cfg : Cfg} {ga : GlobalAlloc} (b : Arena).

(** What [b] can still hand out when another arena has worked. *)
Lemma beside_avail a w s' rest x :
  Two a b w rest → Step (iw (mkAW a w)) (iw s') → Inner_avail (iw (mkAW b (a_world s'))) x → Inner_avail (iw (mkAW b w)) x.
Proof.
  intros [_ _ _ Hn] Hst [Hc|[(l & Hl & _)|Hnl]]; [by left|simpl in Hl; congruence|]. right. right. unfold not_live, s_mem in *. simpl in *.
  destruct (step_heap _ _ Hst) as [new Hh]. unfold s_mem in Hh. simpl in Hh. rewrite Hh in Hnl. by apply Forall_app in Hnl as [_ ?].
Qed.

(** Another arena allocates: [b] is still well formed, keeps what it kept, and will not
    hand out what the other arena has taken. *)
Lemma two_grown a w rest n z bufs objs s' :
  Two a b w rest → Grown n z bufs objs (mkAW a w) s' →
  Two (a_arena s') b (a_world s') (bufs ++ rest) ∧ Forall (kept (mkAW b (a_world s'))) objs ∧
  ∀ op, kept (mkAW a w) op → kept (mkAW b w) op → kept (mkAW b (a_world s')) op.
Proof.
  intros H [Hst Hown Hk Hfr _ _]. pose proof H as [Ha Hb Ho Hn]. pose proof (step_wf _ _ Hst) as Hok'.
  assert (Owns (blocks_of b ++ bufs ++ rest) (iw s')) as Ho'.
  { destruct (Hown _ Ho) as [Hh Hl]. split; [|done]. rewrite Hh. f_equiv. rewrite !app_assoc. f_equiv. apply Permutation_app_comm. }
  splits.
  - split; [by destruct s'|by apply (beside_ok (a_arena s') b w _ (bufs ++ rest)); [| |destruct s'..]|by destruct s'|done].
  - rewrite Forall_forall in Hk, Hfr |- *. intros op Hop. destruct (Hk op Hop) as [Hs Hna]. split; [exact Hs|].
    intros x Hx [(c & Hc & Hr)|[(l & Hl & _)|Hnl]]; [|simpl in Hl; congruence|by apply (Hna x Hx); right; right].
    apply (outside_not_avail (blocks_of b ++ rest) _ x Ha (Owns_Held _ _ Ho)); [|exact (Hfr op Hop x Hx)]. unfold in_blocks. rewrite Exists_app. left.
    simpl in Hc. apply Exists_exists. exists (Chunk_block c). split; [unfold blocks_of; apply list_elem_of_fmap; exists c; split; [done|by eapply list_elem_of_lookup_2]|].
    pose proof Hb as (_ & _ & Hf & _). rewrite Forall_lookup in Hf. apply chunk_rest_range; [by eapply Hf|done].
  - intros op [Hs Hna] [_ Hnb]. split; [exact (obj_stored_step _ _ op Hst Hs Hna)|]. intros x Hx Hav. by apply (Hnb x Hx), (beside_avail a w s' rest).
Qed.
End two.

(** *** [compare_arena_types] *)
Section compare.
Context `{cfg : Cfg} {ga : GlobalAlloc} `{!GlobalAllocOk ga} {os : OS} `{!OSOk os} `{vr : VecRepr} `{!VecReprOk vr} (bt : string).
Context (H0 : list Block) (total : Z).
Hypothesis (Hlf : feat_lockfree = false) (Hdb : feat_debug = false) (Hample : ample H0 total).
Definition world_room (c : Z) (w : World) : Prop := room H0 total c (heap (w_mem w)).

Lemma on_regular_wp {A} (m : M AW A) Q s :
  wp m (λ x s', Q x (mkAA (a_arena s') (aa_vm s) (a_world s'))) (regular_aw s) → wp (on_regular m) Q s.
Proof. intros (r & s' & E & Hr). unfold wp, on_regular, zoom. rewrite E. by eexists _, _. Qed.
Lemma on_vm_wp {A} (m : M AW A) Q s :
  wp m (λ x s', Q x (mkAA (aa_regular s) (a_arena s') (a_world s'))) (vm_aw s) → wp (on_vm m) Q s.
Proof. intros (r & s' & E & Hr). unfold wp, on_vm, zoom. rewrite E. by eexists _, _. Qed.

(** The second arena goes out of scope. *)
Lemma drop_beside r v w rest :
  Two r v w rest → ∃ w', Arena_drop v w = (Ok tt, w') ∧ Arena_ok (mkAW r w') ∧ Owns rest (iw (mkAW r w')) ∧
    ∀ c, world_room c w → world_room c w'.
Proof.
  intros H. pose proof (Two_sym _ _ _ _ H) as [Hv Hr Ho Hn]. destruct (drop_quiet H0 total Hdb (mkAW v w) _ Hv Ho) as (w' & E & Hh & [Hm Ht] & Hro).
  exists w'. split; [exact E|]. split; [|split; [by split; [exact Hh|exact Hn]|exact Hro]].
  apply (other_world_ok r w); [done|done|done|done|rewrite (none_blocks r Hn), Hh; by apply submseteq_inserts_r].
Qed.
Lemma beside_wp {A} r v w (body : M AA A) (P : A → list Block → Prop) cost :
  wp body (λ x t, ∃ rest, P x rest ∧ Two (aa_regular t) (aa_vm t) (aa_world t) rest ∧
    ∀ c, world_room (c + cost) w → world_room c (aa_world t)) (mkAA r v w) →
  wp (beside v body) (λ x s, ∃ rest, P x rest ∧ Arena_ok s ∧ Owns rest (iw s) ∧
    ∀ c, world_room (c + cost) w → world_room c (a_world s)) (mkAW r w).
Proof.
  intros (x & t & E & rest & HP & H2 & Hro). unfold wp, beside, with_drop. cbn [a_arena a_world]. rewrite E.
  destruct (drop_beside _ _ _ _ H2) as (w' & Ed & Hok & Ho & Hro').
  unfold on_vm, drop_arena, a_on_world, zoom, mbind, M_bind, get. cbn [vm_aw a_arena a_world]. rewrite Ed. eexists _, _. split; [reflexivity|].
  cbn beta iota. exists rest. split; [done|]. split; [done|]. split; [done|]. auto.
Qed.

(** The part with two arenas. *)
Lemma compare_two (n : Z) r v w rest :
  Two r v w rest → world_room 4 w →
  wp (vm_data ← on_vm (alloc_new_vec bt 0 1000000); n' ← on_vm (vec_len vm_data);
      small_regular ← on_regular (Arena_alloc bt (mkLayout 4 4) (le_bytes 4 42));
      small_vm ← on_vm (Arena_alloc bt (mkLayout 4 4) (le_bytes 4 42));
      x ← on_regular (a_on_mem (mem_load small_regular 4)); y ← on_vm (a_on_mem (mem_load small_vm 4));
      mret (n, n', x, y))
    (λ x t, ∃ rest', (x = (n, 1000000, le_bytes 4 42, le_bytes 4 42) ∧ ∃ u, v_cap u = 1000000 ∧ rest' = buf_block u :: rest) ∧
       Two (aa_regular t) (aa_vm t) (aa_world t) rest' ∧ ∀ c, world_room (c + 4) w → world_room c (aa_world t)) (mkAA r v w).
Proof.
  intros H Hr. apply wp_bind, on_vm_wp.
  eapply wp_mono; [|apply (new_vec_wp bt H0 total Hlf Hdb Hample); [exact (tw_b _ _ _ _ H)|by apply (room_mono _ _ 4)|unfold MAX_CHUNK_SIZE; lia]].
  intros p s1 (u & Hc & Hl & Hp & H1). cbn beta. destruct (two_grown r v w rest _ _ _ _ _ (Two_sym _ _ _ _ H) H1) as (T1 & _ & _).
  assert (∀ c, world_room (c + 2) w → world_room c (a_world s1)) as R1
    by (intros c Hrc; apply (Grown_room _ _ _ _ _ _ _ _ _ H1); eapply room_mono; [|exact Hrc]; simpl; lia).
  apply wp_bind, on_vm_wp. eapply wp_eq; [replace (vm_aw _) with s1 by (by destruct s1); exact (kept_len 0 u p 1000000 s1 Hc Hl ltac:(unfold usize_ok; ulia) Hp (gr_kept _ _ _ _ _ _ H1))|].
  apply wp_bind, on_regular_wp. eapply wp_mono; [|apply (alloc_i32_wp bt H0 total Hlf Hdb Hample 42); [exact (tw_b _ _ _ _ T1)|by apply (room_mono _ _ 2), R1]].
  intros q s2 H2. cbn beta. destruct (two_grown (a_arena s1) r (a_world s1) _ _ _ _ _ _ (Two_sym _ _ _ _ T1) H2) as (T2 & K2 & _).
  assert (∀ c, world_room (c + 3) w → world_room c (a_world s2)) as R2
    by (intros c Hrc; apply (Grown_room _ _ _ _ _ _ _ _ _ H2), R1; eapply room_mono; [|exact Hrc]; simpl; lia).
  apply wp_bind, on_vm_wp. eapply wp_mono; [|apply (alloc_i32_wp bt H0 total Hlf Hdb Hample 42); [exact (tw_b _ _ _ _ T2)|by apply R2]].
  intros q' s3 H3. cbn beta. destruct (two_grown (a_arena s2) (a_arena s1) (a_world s2) _ _ _ _ _ _ (Two_sym _ _ _ _ T2) H3) as (T3 & K3 & Hkeep).
  apply Forall_cons in K2 as [K2 _]. pose proof (gr_kept _ _ _ _ _ _ H2) as [K2' _]%Forall_cons. pose proof (gr_kept _ _ _ _ _ _ H3) as [K3' _]%Forall_cons.
  apply wp_bind, on_regular_wp. eapply wp_eq; [apply (kept_load (i32_obj 42) q), Hkeep; [exact K2|by destruct s2]|].
  apply wp_bind, on_vm_wp. eapply wp_eq; [replace (vm_aw _) with s3 by (by destruct s3); exact (kept_load _ _ _ K3')|].
  apply wp_ret. eexists. split; [|split; [exact (Two_sym _ _ _ _ T3)|]]; [split; [done|]; exists u; by split|].
  intros c Hrc. apply (Grown_room _ _ _ _ _ _ _ _ _ H3), R2. eapply room_mono; [|exact Hrc]. simpl. lia.
Qed.

(** The two arenas, when the second has been created beside the first. *)
Lemma new_two r s1 w v w2 rest :
  Arena_ok s1 → a_arena s1 = r → Owns rest (iw s1) → w = a_world s1 → NewArena H0 total w v w2 → Two r v w2 rest.
Proof.
  intros Hok1 <- [Hh1 Hn1] -> Hv. apply Two_sym. assert (Owns (blocks_of (a_arena s1) ++ rest) (iw (mkAW v w2))) as Hov.
  { destruct (na_owns _ _ _ _ _ Hv) as [Hh Hn]. split; [|done]. rewrite Hh. f_equiv. exact Hh1. }
  split; [exact (na_ok _ _ _ _ _ Hv)| |exact Hov|exact Hn1].
  apply (beside_ok v _ (a_world s1) _ rest); [by destruct s1|done|exact (na_ok _ _ _ _ _ Hv)|done].
Qed.

Lemma compare_spec self self' w :
  quiet w → world_room 8 w →
  wp (compare_arena_types bt self self') (demo_post H0 total 8 (λ x bufs,
    x = (1000000, 1000000, le_bytes 4 42, le_bytes 4 42) ∧ b_layout <$> bufs = [mkLayout 1000000 1; mkLayout 1000000 1]) w) w.
Proof.
  intros Hw Hr. unfold compare_arena_types, Arena_new. apply wp_bind.
  destruct (with_capacity_new H0 total Hlf Hdb Hample self DEFAULT_CHUNK_SIZE w Hw) as (r & w1 & E & Ha); [by apply (room_mono _ _ 8)|unfold DEFAULT_CHUNK_SIZE; lia|].
  eapply wp_eq; [exact E|]. apply (in_arena_post H0 total Hdb). pose proof (na_room _ _ _ _ _ Ha 7 Hr) as Hr0.
  apply wp_bind. eapply wp_mono; [|apply (new_vec_wp bt H0 total Hlf Hdb Hample); [exact (na_ok _ _ _ _ _ Ha)|by apply (room_mono _ _ 7)|unfold MAX_CHUNK_SIZE; lia]].
  intros p s1 (u & Hc & Hl & Hp & H1). cbn beta. pose proof (Grown_room _ _ _ _ _ _ _ _ 5 H1 Hr0) as Hr1.
  apply wp_bind. eapply wp_eq; [exact (kept_len 0 u p 1000000 s1 Hc Hl ltac:(unfold usize_ok; ulia) Hp (gr_kept _ _ _ _ _ _ H1))|].
  pose proof (Grown_ok _ _ _ _ _ _ H1) as Hok1. pose proof (gr_owns _ _ _ _ _ _ H1 _ (na_owns _ _ _ _ _ Ha)) as Ho1.
  destruct (vm_arena_new H0 total Hlf Hdb Hample self' (16 * 1024 * 1024) (a_world s1)) as (v & w2 & E2 & Hv);
    [split; [exact (proj1 Hok1)|apply Hok1]|by apply (room_mono _ _ 5)|ulia|].
  apply wp_bind. eapply (wp_eq _ v (mkAW (a_arena s1) w2)); [unfold a_on_world, zoom; by rewrite E2|].
  pose proof (new_two _ s1 _ v w2 _ Hok1 eq_refl Ho1 eq_refl Hv) as H2. pose proof (na_room _ _ _ _ _ Hv) as Hrv.
  eapply wp_mono; [|apply (beside_wp (a_arena s1) v w2 _ _ 4 (compare_two 1000000 _ _ _ _ H2 (Hrv 4 Hr1)))].
  intros x s' (rest & (-> & u' & Hc' & ->) & Hok' & Ho' & Hro). split.
  - intros c Hrc. apply Hro, Hrv, (Grown_room _ _ _ _ _ _ _ _ _ H1), (na_room _ _ _ _ _ Ha). eapply room_mono; [|exact Hrc]. simpl. lia.
  - exists [buf_block u'; buf_block u]. split; [|by split]. split; [done|]. cbn [fmap list_fmap buf_block b_layout]. by rewrite Hc, Hc'.
Qed.
End compare.

(** ** Theorem *)
Definition total_bytes (bs : list Block) : Z := foldr (λ b n, l_size (b_layout b) + n) 0 bs.
Lemma total_bytes_app bs bs' : total_bytes (bs ++ bs') = total_bytes bs + total_bytes bs'.
Proof. induction bs as [|b bs IH]; [done|]. cbn [app total_bytes foldr] in *. unfold total_bytes in *. lia. Qed.
Lemma total_bytes_layouts bs ls : b_layout <$> bs ≡ₚ ls → total_bytes bs = foldr (λ l n, l_size l + n) 0 ls.
Proof.
  intros Hp. trans (foldr (λ l n, l_size l + n) 0 (b_layout <$> bs)).
  - unfold total_bytes. induction bs as [|b bs IH]; [done|]. cbn [fmap list_fmap foldr]. f_equal.
    clear. induction bs as [|b bs IH]; [done|]. cbn [fmap list_fmap foldr]. by rewrite IH.
  - induction Hp; cbn [foldr]; lia.
Qed.

(** C32: the virtual-memory demonstration does what it prints and leaks what it stored.
    In a process without cached allocations, built with [stats] and without the
    lock-free and debug features, and with a global allocator that from the heap at the
    start on serves the first 100034 requests of at most 16 MiB ([ample]): [main]
    returns, whatever the operating system answers to the requests for virtual memory.
    Both kinds of arena hold the same values side by side; the ten arrays read back with
    the lengths and values stored; [bytes_used] counts the 24 bytes of each vector and
    nothing of its elements (240 for arrays of 55 MB in all); and when every arena has
    been dropped the heap is as before but for the vectors' own buffers, 72000000 bytes
    that nothing frees: the arena never drops what is moved into it. *)
Theorem virtual_demo_leaks `{cfg : Cfg} {ga : GlobalAlloc} `{!GlobalAllocOk ga} {os : OS} `{!OSOk os} `{vr : VecRepr} `{!VecReprOk vr} bt p1 p2 p3 p4 w :
  feat_lockfree = false → feat_debug = false → feat_stats = true → quiet w → ample (heap (w_mem w)) 100034 →
  ∃ c arrays lines used stats lens count first last w',
    virtual_demo_main bt p1 p2 p3 p4 w = (Ok (c, (arrays, lines, used), (stats, lens, (count, first, last))), w') ∧
    c = (1000000, 1000000, le_bytes 4 42, le_bytes 4 42) ∧
    fst <$> arrays = (λ i, (i + 1, i)) <$> seqZ 0 10 ∧ lines = (λ i, (i, (i + 1) * 1000000, i)) <$> seqZ 0 10 ∧ usize_wrap used = 240 ∧
    shown <$> stats = [(0, 0); (24, 1); (400024, 100001); (0, 0); (24, 1)] ∧ lens = (10000000, 5000000) ∧
    Z.of_nat count = 100000 ∧ first = le_bytes 4 0 ∧ last = le_bytes 4 99999 ∧
    ∃ leaked, heap (w_mem w') ≡ₚ leaked ++ heap (w_mem w) ∧ total_bytes leaked = 72000000.
Proof.
  intros Hlf Hdb Hst Hq Ham. set (H0 := heap (w_mem w)) in *. pose proof (room_start H0 100034 ltac:(done)) as Hr0.
  destruct (compare_spec bt H0 _ Hlf Hdb Ham p1 p2 w Hq) as (c & w1 & E1 & Hq1 & R1 & b1 & [-> Hb1] & Hh1); [by apply (room_mono _ _ 100034)|].
  pose proof (R1 100026 Hr0) as Hr1.
  destruct (large_allocation_spec bt H0 _ Hlf Hdb Ham p3 w1 Hst Hq1) as ([[arrays lines] used] & w2 & E2 & Hq2 & R2 & b2 & (Ha & Hl & Ht & Hb2) & Hh2);
    [by apply (room_mono _ _ 100026)|].
  destruct (memory_efficiency_spec bt H0 _ Hlf Hdb Ham p4 w2 Hst Hq2) as ([[stats lens] [[count first] last]] & w3 & E3 & _ & _ & b3 & (Hs & Hln & Hc & Hf & Hla & Hb3) & Hh3);
    [exact (R2 100005 Hr1)|].
  do 10 eexists. split; [unfold virtual_demo_main, mbind, M_bind; by rewrite E1, E2, E3|]. do 9 (split; [done|]).
  exists (b3 ++ b2 ++ b1). split; [by rewrite Hh3, Hh2, Hh1, <- !app_assoc|].
  rewrite !total_bytes_app, (total_bytes_layouts b1 (b_layout <$> b1) (Permutation_refl _)), (total_bytes_layouts b2 _ Hb2), (total_bytes_layouts b3 (b_layout <$> b3) (Permutation_refl _)), Hb1, Hb3.
  reflexivity.
Qed.

(** The bump allocator serves that many requests, so the program returns. *)
Lemma virtual_demo_leaks_witness :
  ∃ r w', @virtual_demo_main cfg_dev bump_alloc high_os vec_le "bt" 1 2 3 4 demo_world = (Ok r, w') ∧
    ∃ leaked, heap (w_mem w') ≡ₚ leaked ++ heap (w_mem demo_world) ∧ total_bytes leaked = 72000000.
Proof.
  destruct (@virtual_demo_leaks cfg_dev bump_alloc bump_alloc_ok high_os high_os_ok vec_le vec_le_ok "bt" 1 2 3 4 demo_world)
    as (c & arrays & lines & used & stats & lens & count & first & last & w' & E & _ & _ & _ & _ & _ & _ & _ & _ & _ & Hl).
  - reflexivity.
  - reflexivity.
  - reflexivity.
  - split; [exact (proj1 demo_world_ok)|reflexivity].
  - apply bump_ample. vm_compute. discriminate.
  - eexists _, w'. split; [exact E|exact Hl].
Defined.
